(* ===== verification/_CoqProject ===== *)
-Q . S2P
Prelude.v
Circular.v
BlockingQueue.v
NetBuffer.v
FixedBuf.v
StrFunc.v
OStream.v
Reactor.v
ReactorTypes.v
LoopLife.v
EventLoop.v
Connection.v
ConnSafe.v
LoopTurn.v
Log.v
AsyncLog.v
ThreadPool.v
LogEvent.v
FileApp.v
TcpServer.v
Acceptor.v
ServerLoop.v
Service.v
Echo.v
Drain.v
Sync.v
Logging.v
