(* ===== verification/Prelude.v ===== *)
(** * Verification of clia

    clia is a C++11 library of three layers: containers and utilities
    ([clia/container], [clia/util]), a logging system ([clia/log]) and a TCP library on
    a reactor ([clia/reactor], [clia/net]).  All paths below are relative to [src/clia/].

    ** The program and where it is modelled

    - This file: results of C++ code ([outcome], with a [fault] for a failed [assert], an
      [abort] and each kind of undefined behaviour), machine integers as [Z] with their
      wrap-around or overflow written out, arrays as lists with checked access, the
      tactics, the hint databases [clia] and [zlen], and the lemmas all files share.
    - [Circular]: [container::CircularBuffer], the ring with its four data members
      ([clia/container/circular_buffer.h]).  The class [BoundedFifo] states what it
      promises; the ring is an instance.
    - [BlockingQueue]: [container::BoundedBlockingQueue], [put] and [take] as
      interleaved critical sections over any [BoundedFifo].
    - [NetBuffer]: [net::Buffer], the byte vector with two indices that connections read
      into and write from ([src/net/buffer.cc]).
    - [FixedBuf], [StrFunc], [OStream]: [container::FixedBuffer],
      [util::str_func::convert] and [container::FixedOStream], the stack a log line is
      built with.
    - [Reactor]: [reactor::Channel], [reactor::Epoller] and the part of
      [reactor::EventLoop] that forwards to the epoller.  Channels are objects of a heap;
      the epoll instance of the kernel is the class [EpollKernel].
    - [ReactorTypes]: the ranges of the data members of [Channel] and [Epoller].
    - [EventLoop]: the loop itself, its functor queue, its eventfd and [quit], as a
      machine interleaved with other threads ([src/reactor/event_loop.cc]).
    - [LoopLife]: construction and destruction of loops and the per-thread variable
      [kLoopInThisThread].
    - [Connection]: [net::TcpConnection] on top of [Reactor] and [NetBuffer].
    - [ConnSafe]: what a call of a connection leaves of it and of its loop, in the three phases
      of its life; the lemmas by which [LoopTurn] and [ServerLoop] follow the code.
    - [LoopTurn]: the body of [EventLoop::loop] put together for a connection: the poll and the
      dispatch of [Reactor], the handlers of [Connection] and the functors they queue.
    - [Log]: levels, the class [Appender] for [trait::Appender], [SyncLogger],
      [StdoutAppender] and [LoggerManger].
    - [AsyncLog]: [log::AsyncLogger], the threads that log and the background thread,
      over any [Appender].
    - [ThreadPool]: [reactor::EventLoopThread] over the model of [EventLoop], and
      [reactor::EventLoopThreadPool].
    - [LogEvent]: [util::Timestamp] and [log::Event], from the macro's constructor to the
      line handed to the logger, over [OStream].
    - [FileApp]: [log::FileAppender], rolling log files and their retention
      ([src/log/file_appender.cc]), as an instance of [Appender].
    - [TcpServer]: [net::TcpServer] with its connection map and the functors that travel
      between its loops ([src/net/tcp_server.cc]); a connection is its life cycle here, and a
      theorem ties that to [Connection].
    - [Acceptor]: [net::InetAddress], [net::Socket] and [net::Acceptor], the last over
      [Reactor].
    - [ServerLoop]: the server on its own loop: [net::TcpServer] with its [Acceptor], any number of
      whole connections ([Connection]) and their channels on one loop ([Reactor]), the body of
      [EventLoop::loop] over all of them, and the references that keep a connection alive.  Its
      proofs are an invariant of that world and a step-by-step simulation by [TcpServer].
    - [Service]: the theorems on that server from its constructor to its destructor.
    - [Echo]: the echo server of [src/test/test_server.cc], whose use of its connections is an
      instance of the class [ConnLaw] of [ConnSafe], the interface through which a property of
      each connection is carried through every turn of any server.
    - [Drain]: the output of one connection of the server, turn after turn.
    - [Sync]: [util::AtomLck] as an instance of the class [Lock], [LockGuard] over any
      [Lock], [util::CountDownLatch] and [util::process].
    - [Logging]: the macros of [clia/log.h] over the class [Logger], of which
      [SyncLogger] and [AsyncLogger] are instances, with [LogEvent] for the lines.

    A C++ object is a record with the source's data members, a member function is a
    definition of the same name, and a function that can stop or misbehave returns an
    [outcome].  Where threads meet, every critical section (or access to an atomic) is one
    step, and the theorems are about all interleavings of the steps.  Where the code hands
    pointers around (channels, memory given to [send]), the store they point into is part
    of the state.

    ** What the theorems show

    - Containers.  The ring is a bounded FIFO as long as it is not resized;
      the fixed buffer is a bounded sequence; the connection buffer is a byte queue, for
      every sequence of operations; [convert] writes the decimal text of every
      non-negative 64-bit integer (a negative one reads outside its digit table); the log stream holds the concatenation of what was inserted as long as it
      fits, and stops on an assertion before it stores anything outside its array.
    - Reactor.  The epoller's map, every channel's [index_] and the kernel's interest
      set agree after every sequence of channel operations; each operation on a channel with
      a free descriptor, and the whole teardown of one, passes every assertion; a poll hands each reported event to its channel
      and to no other; the dispatch calls the callbacks of the reported events, guarded by
      the tie.
    - Event loop.  Functors run once and in the order queued; a loop never sleeps on a
      non-empty functor queue once it has been told; each turn of the loop terminates; no
      thread has two loops, and only the thread of a loop destroys it.
    - Connection.  What the kernel took followed by the output buffer is what was
      accepted from the user; a shutdown asked for while output waits takes place when the
      output is drained; the life of a connection ends with its channel unregistered.  In its
      loop, turn after turn, a connection never fails an assertion, whatever the kernel
      reports and the user's callbacks send, as long as the message callback retrieves its input
      and less than 64 KiB come in at a time; the proof follows the code with the rules of
      [safe] below.
    - Logging.  The asynchronous logger delivers every message once and in order unless
      more than 25 buffers pile up, and says what it keeps then; it exits only with
      everything written.  A log line has the documented layout and shows its own time.
      On a working disk a file appender loses and reorders nothing when it rolls; its files
      keep within their size and one message, unless two rolls fall into one second; it removes exactly the
      expired ones among the log files, and not the file it writes as long as the clock
      behaves; asynchronous logging to files is complete, end to end; and so is the way
      from a macro to either kind of logger.
    - The whole server.  In one thread, whatever the kernel reports, accepts, takes and delivers
      turn after turn, no assertion of any part fails and nothing is used after its end; between
      turns the map, the connections, the channels and the kernel's interest set agree
      ([server_serves]); every run is a run of the abstract server of [TcpServer]
      ([server_refines]); a turn adds and removes exactly the connections it should
      ([turn_effects]); output that waits is written in the end ([server_drains]); the echo
      server sends back exactly what it receives ([echo_server_echoes]); the destructor leaves the
      loop as it was ([server_ends]).
    - Server.  In no order of accepts, closes, shutdowns and functor runs does an assertion
      of the server or of a connection's life cycle fail; a closed connection leaves the map
      and is released; the destructor hands every connection to its own loop.  The acceptor
      delivers every descriptor once and cleans up after itself; an address prints as the
      text it was made from.
    - Synchronisation.  Guarded sections exclude each other and lose no update; a latch opens
      with the last [count_down].
    - Limits.  Theorems whose names say what goes wrong ([..._aborts],
      [..._out_of_bounds], [..._is_lost], [..._hangs], [..._is_stuck]) fix the inputs on
      which the code does not do what its comments or its callers expect.

    ** Bounds and fuel

    - [kMaxObject], [2^63 - 1], bounds the bytes of one object, as on every 64-bit
      platform; growing past it is a [LengthError].
    - [convert] runs its digit loop with [kMaxDigits] (20) rounds of fuel, one more than
      the digits of the largest value of a 64-bit signed type and exactly those of an
      unsigned one; its theorem is that the text is complete, so the bound is never met.
    - The event loop has no fuel: it is a step function, and the theorem on a turn shows
      that finitely many steps complete it.
    - The writing loop of [FileAppender] has the length of the message as fuel: every round
      writes at least a byte or ends it, and a theorem says that [append] returns whatever the
      disk does.
    - The theorems on the server assume fewer than [2^31 - 1] accepted connections and
      calls of [start], which [int] counters of the source count; those of [Service] bound the
      number of turns instead, each of which accepts at most one connection.
    - [Service] has all connections on the loop of the server and one thread; a user's callback
      calls its own connection only, the message callback retrieves all its input, and a hang-up is
      not reported together with urgent data alone ([hangup_ok]).  Connections on other loops are
      the subject of [TcpServer], whose steps interleave.  [Echo] and [Drain] are about the same
      server, so the echo server is the one of the test program without its threads
      ([set_thread_num]).
    - [server_drains] takes as many turns as bytes wait, since the kernel is only asked to take one
      at a time; it is for servers without a write-complete callback, which could send more.
    - The buffer sizes of the loggers are parameters; the stream of a log line has the
      size of the source, 1024.

    ** Parameters

    Everything outside the repository is an argument with its documented behaviour as a
    law: the epoll instance, [write] and [readv] (they take or deliver at most the bytes
    offered), [localtime_r], the clock, [fopen], [fwrite] and [readdir] (answers indexed by how
    many were given before), [inet_pton] and [inet_ntop], [accept4], [strerror_r], the text of
    floating-point [printf] conversions, and user callbacks, which are the lists of calls they make.  Each such law has an instance in
    the same file.

    ** Not modelled

    [util::MemoryPool] is an empty class in the source.  Type aliases and marker classes
    have nothing to run.  The log statements inside the network code are left out of its model
    (they change nothing it reads); so are [logtest.cc], which only prints, and the choice of a
    logger in [test_server.cc].  System calls are given by their results.  The setters of a
    channel's callbacks set a flag of the object; those of a connection fill its [callbacks]
    record.  Getters of single data members are the fields of the records. *)

From Stdlib Require Export ZArith Lia.
From Stdlib Require Export Init.Byte.
From Stdlib Require Import Strings.Byte Strings.String.
From stdpp Require Export base tactics option numbers list list_numbers gmap strings relations.

Open Scope Z_scope.

(** ** Results of C++ code

    The repository is built without [NDEBUG] by default, so a false [assert]
    terminates the process.  Code that the C++ standard leaves undefined
    (access outside an object, signed overflow, division by zero, waiting on a
    lock that is not held) is a fault of its own kind, never a value.  [OutOfFuel]
    marks a loop cut off by the bound of its model; the theorems on loops show that
    the bound given is never reached. *)

Inductive fault :=
| AssertFailed
| Aborted
| OutOfBounds
| SignedOverflow
| DivideByZero
| LengthError
| LockNotOwned
| OutOfFuel.

Inductive outcome (A : Type) :=
| Ok (a : A)
| Fault (f : fault).

Arguments Ok {A} a.
Arguments Fault {A} f.

#[global] Instance fault_eq_dec : EqDecision fault.
Proof. solve_decision. Defined.

#[global] Instance outcome_eq_dec {A} `{EqDecision A} : EqDecision (outcome A).
Proof. solve_decision. Defined.

#[global] Instance outcome_ret : MRet outcome := @Ok.

#[global] Instance outcome_bind : MBind outcome := λ A B k m,
  match m with
  | Ok a => k a
  | Fault f => Fault f
  end.

#[global] Instance outcome_fmap : FMap outcome := λ A B g m,
  match m with
  | Ok a => Ok (g a)
  | Fault f => Fault f
  end.

Definition check (b : bool) (f : fault) : outcome unit :=
  if b then Ok tt else Fault f.

(** C's [assert]. *)
Definition cassert (b : bool) : outcome unit := check b AssertFailed.

Definition is_ok {A} (m : outcome A) : bool :=
  match m with Ok _ => true | Fault _ => false end.

#[global] Instance byte_eq_dec : EqDecision byte := Byte.byte_eq_dec.

(** A string literal as the characters of a [char] array, without its NUL. *)
Definition chars (s : string) : list byte := list_byte_of_string s.

(** ** Machine integers

    Unsigned arithmetic wraps; [sint w] is the range of a signed [w]-bit type. *)

Definition u64 (x : Z) : Z := x mod 2 ^ 64.

Definition u16 (x : Z) : Z := x mod 2 ^ 16.

Definition in_sint (w x : Z) : bool := (- 2 ^ (w - 1) <=? x) && (x <? 2 ^ (w - 1)).

Definition in_uint (w x : Z) : bool := (0 <=? x) && (x <? 2 ^ w).

(** Signed arithmetic: the value, or the undefined behaviour of an overflow. *)
Definition sint_checked (w x : Z) : outcome Z :=
  _ ← check (in_sint w x) SignedOverflow; mret x.

(** Largest element count the memory model admits in one object
    ([std::vector<unsigned char>::max_size()] of libstdc++). *)
Definition kMaxObject : Z := 2 ^ 63 - 1.

(** ** Arrays

    An array or a [std::vector] is a list; offsets are integers, as in the code,
    and an access outside the array is [OutOfBounds]. *)

Section Arrays.
Context {A : Type}.
Implicit Types (l xs : list A) (off n i : Z).

Definition zlen l : Z := Z.of_nat (length l).

Definition slice off n l : list A := take (Z.to_nat n) (drop (Z.to_nat off) l).

Definition splice off xs l : list A :=
  take (Z.to_nat off) l ++ xs ++ drop (Z.to_nat off + length xs) l.

Definition read_range off n l : outcome (list A) :=
  if (0 <=? off) && (0 <=? n) && (off + n <=? zlen l)
  then Ok (slice off n l) else Fault OutOfBounds.

Definition write_range off xs l : outcome (list A) :=
  if (0 <=? off) && (off + zlen xs <=? zlen l)
  then Ok (splice off xs l) else Fault OutOfBounds.

Definition read_at i l : outcome A :=
  if 0 <=? i then
    match l !! Z.to_nat i with Some x => Ok x | None => Fault OutOfBounds end
  else Fault OutOfBounds.

Definition write_at i (x : A) l : outcome (list A) :=
  if (0 <=? i) && (i <? zlen l) then Ok (<[Z.to_nat i := x]> l) else Fault OutOfBounds.
End Arrays.

(** ** Automation *)

Create HintDb clia.
Create Rewrite HintDb zlen.

(** Reduces boolean tests of the code to the propositions they decide. *)
Ltac unbool :=
  repeat match goal with
  | H : (_ && _)%bool = true |- _ => apply andb_true_iff in H; destruct H
  | H : (_ || _)%bool = false |- _ => apply orb_false_iff in H; destruct H
  | H : negb _ = true |- _ => apply negb_true_iff in H
  | H : negb _ = false |- _ => apply negb_false_iff in H
  | H : (_ <=? _) = true |- _ => apply Z.leb_le in H
  | H : (_ <=? _) = false |- _ => apply Z.leb_gt in H
  | H : (_ <? _) = true |- _ => apply Z.ltb_lt in H
  | H : (_ <? _) = false |- _ => apply Z.ltb_ge in H
  | H : (_ =? _) = true |- _ => apply Z.eqb_eq in H
  | H : (_ =? _) = false |- _ => apply Z.eqb_neq in H
  end.

(** Splits the tests of the goal and of the hypotheses, innermost first. *)
Ltac split_test b :=
  lazymatch b with
  | context [if _ then _ else _] => fail
  | _ => destruct b eqn:?
  end.

Ltac split_tests :=
  repeat (match goal with
  | |- context [if ?b then _ else _] => split_test b
  | _ : context [if ?b then _ else _] |- _ => split_test b
  end; unbool); unbool.

(** Decides one integer test of the goal by [lia]. *)
Ltac decide_test b :=
  first [ replace b with true by (symmetry; repeat rewrite ?andb_true_iff, ?Z.leb_le, ?Z.ltb_lt, ?Z.eqb_eq, ?negb_true_iff, ?Z.eqb_neq, ?Z.leb_gt, ?Z.ltb_ge; lia)
        | replace b with false by (symmetry; rewrite ?andb_false_iff, ?Z.leb_gt, ?Z.ltb_ge, ?Z.eqb_neq, ?negb_false_iff, ?Z.leb_le, ?Z.ltb_lt, ?Z.eqb_eq; lia) ].

Ltac simpl_tests :=
  repeat match goal with
  | |- context [if ?b then _ else _] => decide_test b; cbv iota
  end.

(** Runs the code past the calls whose results are known. *)
Ltac cstep := cbn [cassert check negb mbind outcome_bind mret outcome_ret fmap outcome_fmap].

Ltac bstep H := cbn [cassert check negb mbind outcome_bind mret outcome_ret] in H.

(** Inverts [m ≫= k = Ok r] hypotheses along the code's sequence of calls. *)
Ltac outcome_inv :=
  repeat match goal with
  | H : Ok _ = Ok _ |- _ => injection H as H; subst
  | H : Fault _ = Fault _ |- _ => injection H as H; subst
  | H : Fault _ = Ok _ |- _ => discriminate H
  | H : Ok _ = Fault _ |- _ => discriminate H
  | H : mret _ = Ok _ |- _ => unfold mret, outcome_ret in H
  | H : mbind _ ?m = Ok _ |- _ => destruct m eqn:?; cbn [mbind outcome_bind] in H
  | H : check ?b _ = Ok _ |- _ => unfold check in H; destruct b eqn:?
  | H : cassert _ = Ok _ |- _ => unfold cassert in H
  | H : (if ?b then _ else _) = Ok _ |- _ => destruct b eqn:?
  | H : (_, _) = (_, _) |- _ => injection H as H; subst
  | x : unit |- _ => destruct x
  end; unbool.

(** ** Lemmas on results and machine integers *)

Section OutcomeLemmas.
Context {A B C : Type}.

Lemma bind_ok (a : A) (k : A → outcome B) : (Ok a ≫= k) = k a.
Proof. reflexivity. Qed.

Lemma bind_assoc (m : outcome A) (k : A → outcome B) (h : B → outcome C) :
  ((m ≫= k) ≫= h) = (m ≫= λ a, k a ≫= h).
Proof. by destruct m. Qed.

Lemma check_true b f : b = true → check b f = Ok tt.
Proof. by intros ->. Qed.

Lemma cassert_true b : b = true → cassert b = Ok tt.
Proof. by intros ->. Qed.

Lemma is_ok_value (m : outcome A) (d : A) :
  is_ok m = true → m = Ok (match m with Ok a => a | Fault _ => d end).
Proof. by destruct m. Qed.

Lemma cassert_false b : b = false → cassert b = Fault AssertFailed.
Proof. by intros ->. Qed.
End OutcomeLemmas.

(** ** Code that can only run out of memory

    [safe P m]: the code [m] returns a value that satisfies [P], or it asked for an object larger
    than any can be.  The rules follow the code: one for [≫=], one for its ends. *)

Definition safe {A} (P : A → Prop) (m : outcome A) : Prop :=
  match m with Ok a => P a | Fault f => f = LengthError end.

Lemma safe_bind {A B} (P : A → Prop) (Q : B → Prop) (m : outcome A) (k : A → outcome B) :
  safe P m → (∀ a, m = Ok a → P a → safe Q (k a)) → safe Q (m ≫= k).
Proof. destruct m as [a|f]; cbn; [intros Hp Hk; by apply Hk | done]. Qed.

Lemma safe_mono {A} (P Q : A → Prop) (m : outcome A) : safe P m → (∀ a, m = Ok a → P a → Q a) → safe Q m.
Proof. destruct m as [a|f]; cbn; [intros Hp Hk; by apply Hk | done]. Qed.

Lemma safe_ok {A} (P : A → Prop) (m : outcome A) a : m = Ok a → P a → safe P m.
Proof. by intros ->. Qed.

Lemma u64_small x : 0 <= x < 2 ^ 64 → u64 x = x.
Proof. apply Z.mod_small. Qed.

Lemma u64_range x : 0 <= u64 x < 2 ^ 64.
Proof. apply Z.mod_pos_bound. lia. Qed.

Lemma u64_neg x : - 2 ^ 64 <= x < 0 → u64 x = 2 ^ 64 + x.
Proof.
  intros H. unfold u64. symmetry. apply (Z.mod_unique_pos _ _ (-1)); lia.
Qed.

Lemma sint_checked_ok w x : in_sint w x = true → sint_checked w x = Ok x.
Proof. unfold sint_checked. by intros ->. Qed.

Lemma sint_checked_range w x : - 2 ^ (w - 1) <= x < 2 ^ (w - 1) → sint_checked w x = Ok x.
Proof.
  intros H. apply sint_checked_ok. unfold in_sint. apply andb_true_iff. rewrite Z.leb_le, Z.ltb_lt. lia.
Qed.

Lemma sint_checked_overflow w x : x < - 2 ^ (w - 1) ∨ 2 ^ (w - 1) <= x → sint_checked w x = Fault SignedOverflow.
Proof.
  intros H. unfold sint_checked, in_sint. replace (_ && _)%bool with false; [done|].
  symmetry. apply andb_false_iff. rewrite Z.leb_gt, Z.ltb_ge. lia.
Qed.

(** ** Lemmas on arrays *)

Section ArrayLemmas.
Context {A : Type}.
Implicit Types (l xs ys : list A) (off n m i : Z).

Lemma zlen_nonneg l : 0 <= zlen l.
Proof. unfold zlen. lia. Qed.

Lemma zlen_nil : zlen (@nil A) = 0.
Proof. reflexivity. Qed.

Lemma zlen_cons x l : zlen (x :: l) = 1 + zlen l.
Proof. unfold zlen. cbn [length]. lia. Qed.

Lemma zlen_app l xs : zlen (l ++ xs) = zlen l + zlen xs.
Proof. unfold zlen. rewrite length_app. lia. Qed.

Lemma zlen_replicate k (x : A) : zlen (replicate k x) = Z.of_nat k.
Proof. unfold zlen. by rewrite length_replicate. Qed.

Lemma zlen_nil_inv l : zlen l = 0 → l = [].
Proof. unfold zlen. destruct l; cbn [length]; [done | lia]. Qed.

Lemma zlen_take l k : zlen (take k l) = Z.min (Z.of_nat k) (zlen l).
Proof. unfold zlen. rewrite length_take. lia. Qed.

Lemma zlen_drop l k : zlen (drop k l) = Z.max 0 (zlen l - Z.of_nat k).
Proof. unfold zlen. rewrite length_drop. lia. Qed.

Lemma zlen_slice off n l :
  0 <= off → 0 <= n → off + n <= zlen l → zlen (slice off n l) = n.
Proof. intros. unfold slice. rewrite zlen_take, zlen_drop. lia. Qed.

Lemma zlen_splice off xs l :
  0 <= off → off + zlen xs <= zlen l → zlen (splice off xs l) = zlen l.
Proof.
  intros. unfold splice. rewrite !zlen_app, zlen_take, zlen_drop.
  unfold zlen in *. lia.
Qed.

Lemma slice_0 off l : slice off 0 l = [].
Proof. reflexivity. Qed.

Lemma slice_all l : slice 0 (zlen l) l = l.
Proof. unfold slice, zlen. rewrite Nat2Z.id. cbn. apply firstn_all. Qed.

Lemma slice_add off n m l :
  0 <= off → 0 <= n → 0 <= m → slice off (n + m) l = slice off n l ++ slice (off + n) m l.
Proof.
  intros. unfold slice. rewrite !Z2Nat.inj_add by lia.
  rewrite <- drop_drop. symmetry. apply take_take_drop.
Qed.

Lemma slice_app_l off n l xs :
  0 <= off → 0 <= n → off + n <= zlen l → slice off n (l ++ xs) = slice off n l.
Proof.
  intros. unfold slice, zlen in *. rewrite drop_app_le by lia.
  apply take_app_le. rewrite length_drop. lia.
Qed.

Lemma slice_splice_same off xs l :
  0 <= off → off <= zlen l → slice off (zlen xs) (splice off xs l) = xs.
Proof.
  intros. unfold slice, splice. rewrite drop_app_length'.
  - apply take_app_length'. unfold zlen. lia.
  - rewrite length_take. unfold zlen in *. lia.
Qed.

Lemma slice_splice_left a n off xs l :
  0 <= a → 0 <= n → a + n <= off → off <= zlen l →
  slice a n (splice off xs l) = slice a n l.
Proof.
  intros. unfold splice. rewrite slice_app_l; [..| rewrite zlen_take]; try lia.
  rewrite <- (take_drop (Z.to_nat off) l) at 2.
  symmetry. apply slice_app_l; try lia. rewrite zlen_take. lia.
Qed.

(** Writing [xs] at the end of a window extends the window by [xs]. *)
Lemma slice_splice_extend a n xs l :
  0 <= a → 0 <= n → a + n <= zlen l →
  slice a (n + zlen xs) (splice (a + n) xs l) = slice a n l ++ xs.
Proof.
  intros. pose proof (zlen_nonneg xs).
  rewrite slice_add, slice_splice_left, slice_splice_same by lia. done.
Qed.

Lemma drop_slice off n k l :
  0 <= off → 0 <= k <= n → drop (Z.to_nat k) (slice off n l) = slice (off + k) (n - k) l.
Proof.
  intros. unfold slice. rewrite skipn_firstn_comm, drop_drop.
  f_equal; [lia | f_equal; lia].
Qed.

Lemma take_slice off n k l :
  0 <= k <= n → take (Z.to_nat k) (slice off n l) = slice off k l.
Proof. intros. unfold slice. rewrite take_take. f_equal. lia. Qed.

Lemma read_range_ok off n l :
  0 <= off → 0 <= n → off + n <= zlen l → read_range off n l = Ok (slice off n l).
Proof. intros. unfold read_range. by simpl_tests. Qed.

Lemma write_range_ok off xs l :
  0 <= off → off + zlen xs <= zlen l → write_range off xs l = Ok (splice off xs l).
Proof. intros. unfold write_range. by simpl_tests. Qed.

Lemma write_range_oob off xs l :
  zlen l < off + zlen xs → write_range off xs l = Fault OutOfBounds.
Proof. intros. unfold write_range. by destruct (0 <=? off); simpl_tests. Qed.

Lemma zlen_insert (i : nat) x l : zlen (<[i := x]> l) = zlen l.
Proof. unfold zlen. by rewrite length_insert. Qed.

Lemma split_at off l : 0 <= off <= zlen l → ∃ l1 l2, l = l1 ++ l2 ∧ zlen l1 = off.
Proof.
  intros. exists (take (Z.to_nat off) l), (drop (Z.to_nat off) l).
  rewrite take_drop, zlen_take. split; [done | lia].
Qed.

Lemma splice_app l1 l2 xs : splice (zlen l1) xs (l1 ++ l2) = l1 ++ xs ++ drop (length xs) l2.
Proof.
  unfold splice, zlen. rewrite Nat2Z.id, take_app_length, <- drop_drop.
  by rewrite drop_app_length.
Qed.

(** Storing one more element right behind a spliced block. *)
Lemma insert_splice off xs x l : 0 <= off → off + zlen xs < zlen l →
  <[Z.to_nat (off + zlen xs) := x]> (splice off xs l) = splice off (xs ++ [x]) l.
Proof.
  intros Ho Hl. destruct (split_at off l) as (l1 & l2 & -> & <-); [pose proof (zlen_nonneg xs); lia|].
  rewrite zlen_app in Hl. rewrite !splice_app. unfold zlen in *.
  rewrite !insert_app_r_alt by lia. rewrite length_app. cbn [length].
  replace (Z.to_nat _ - length l1 - length xs)%nat with 0%nat by lia.
  rewrite <- (assoc_L (++)). do 2 f_equal. rewrite <- drop_drop.
  destruct (drop (length xs) l2) eqn:E; [|done].
  apply (f_equal length) in E. rewrite length_drop in E. cbn in E. lia.
Qed.

(** Overwriting the front of a spliced block. *)
Lemma splice_splice_front off xs ys zs l : 0 <= off <= zlen l → length zs = length xs →
  splice off zs (splice off (xs ++ ys) l) = splice off (zs ++ ys) l.
Proof.
  intros Ho Hl. destruct (split_at off l Ho) as (l1 & l2 & -> & <-).
  rewrite !splice_app, Hl, <- !(assoc_L (++)), drop_app_length. by rewrite !length_app, Hl.
Qed.

Lemma slice_splice_front off xs ys l : 0 <= off <= zlen l →
  slice off (zlen xs) (splice off (xs ++ ys) l) = xs.
Proof.
  intros Ho. destruct (split_at off l Ho) as (l1 & l2 & -> & <-).
  rewrite splice_app. unfold slice, zlen. rewrite !Nat2Z.id, drop_app_length, <- !(assoc_L (++)).
  apply take_app_length.
Qed.

Lemma write_at_ok i x l :
  0 <= i < zlen l → write_at i x l = Ok (<[Z.to_nat i := x]> l).
Proof. intros. unfold write_at. by simpl_tests. Qed.
End ArrayLemmas.

#[export] Hint Resolve zlen_nonneg u64_range : clia.
#[export] Hint Rewrite @zlen_nil @zlen_cons @zlen_app @zlen_replicate : zlen.
