(* ===== verification/Circular.v ===== *)
(** * [container::CircularBuffer] (clia/container/circular_buffer.h)

    The ring buffer with its four data members and every member function, the
    bounded-FIFO interface it offers to its clients, and the proofs that it keeps
    its representation invariant and behaves as a bounded FIFO queue.  The last
    section is about [resize], which keeps that contract only for a ring whose
    elements do not wrap. *)

From S2P Require Import Prelude.

(** ** What a client of a ring buffer relies on *)

Class BoundedFifo (Q A : Type) := {
  fifo_wf : Q → Prop;
  fifo_contents : Q → list A;
  fifo_capacity : Q → Z;
  fifo_full : Q → bool;
  fifo_push_back : A → Q → outcome Q;
  fifo_front : Q → outcome A;
  fifo_pop_front : Q → outcome Q;
  fifo_full_spec q : fifo_wf q →
    fifo_full q = true ↔ zlen (fifo_contents q) = fifo_capacity q;
  fifo_push_spec q x : fifo_wf q → fifo_full q = false →
    ∃ q', fifo_push_back x q = Ok q' ∧ fifo_wf q' ∧
      fifo_contents q' = fifo_contents q ++ [x] ∧ fifo_capacity q' = fifo_capacity q;
  fifo_front_spec q x xs : fifo_wf q → fifo_contents q = x :: xs → fifo_front q = Ok x;
  fifo_front_empty q : fifo_wf q → fifo_contents q = [] → fifo_front q = Fault AssertFailed;
  fifo_pop_spec q x xs : fifo_wf q → fifo_contents q = x :: xs →
    ∃ q', fifo_pop_front q = Ok q' ∧ fifo_wf q' ∧
      fifo_contents q' = xs ∧ fifo_capacity q' = fifo_capacity q
}.

Module CircularBuffer.

Record t (Tp : Type) := mk {
  start_ : Z;
  end_ : Z;
  count_ : Z;
  buffer_ : list Tp
}.

Arguments mk {Tp}.
Arguments start_ {Tp}.
Arguments end_ {Tp}.
Arguments count_ {Tp}.
Arguments buffer_ {Tp}.

Section Operations.
Context {Tp : Type}.
Implicit Types (b : t Tp) (val : Tp).

(** [dflt] is the value-initialised element of [std::vector<Tp>(n)]. *)
Definition ctor (dflt : Tp) (inital_size : Z) : t Tp :=
  mk 0 0 0 (replicate (Z.to_nat inital_size) dflt).

Definition size b : Z := count_ b.

Definition capacity b : Z := zlen (buffer_ b).

Definition empty b : bool := 0 =? count_ b.

Definition full b : bool := capacity b =? count_ b.

Definition resize (dflt : Tp) (new_size : Z) b : t Tp :=
  mk (start_ b) (end_ b) (count_ b)
     (take (Z.to_nat new_size) (buffer_ b)
        ++ replicate (Z.to_nat new_size - length (buffer_ b)) dflt).

Definition push_back val b : outcome (t Tp) :=
  _ ← cassert (negb (full b));
  buf ← write_at (end_ b) val (buffer_ b);
  let e := u64 (end_ b + 1) in
  let e := if capacity b =? e then 0 else e in
  mret (mk (start_ b) e (u64 (count_ b + 1)) buf).

Definition front b : outcome Tp :=
  _ ← cassert (negb (empty b));
  read_at (start_ b) (buffer_ b).

Definition pop_front b : outcome (t Tp) :=
  _ ← cassert (negb (empty b));
  let s := u64 (start_ b + 1) in
  let s := if capacity b =? s then 0 else s in
  mret (mk s (end_ b) (u64 (count_ b - 1)) (buffer_ b)).

(** Representation invariant. *)
Definition wf b : Prop :=
  0 <= count_ b <= capacity b ∧ capacity b <= kMaxObject ∧
  0 <= start_ b ∧ (start_ b < capacity b ∨ start_ b = 0) ∧
  end_ b = (if start_ b + count_ b <? capacity b
            then start_ b + count_ b else start_ b + count_ b - capacity b).

(** The queued elements, oldest first: the [count_] cells from [start_] on,
    read around the ring. *)
Definition contents b : list Tp := slice (start_ b) (count_ b) (buffer_ b ++ buffer_ b).

(** A use of the ring: the client pushes or pops. *)
Inductive op := Push (val : Tp) | Pop.

(** Runs a sequence of operations, collecting what [front] returned before each pop. *)
Fixpoint run (ops : list op) b (out : list Tp) : outcome (t Tp * list Tp) :=
  match ops with
  | [] => mret (b, out)
  | Push v :: ops => b' ← push_back v b; run ops b' out
  | Pop :: ops => x ← front b; b' ← pop_front b; run ops b' (out ++ [x])
  end.

(** The same operations on the abstract bounded queue. *)
Fixpoint spec_run (cap : Z) (ops : list op) (q out : list Tp) : outcome (list Tp * list Tp) :=
  match ops with
  | [] => mret (q, out)
  | Push v :: ops =>
      if zlen q =? cap then Fault AssertFailed else spec_run cap ops (q ++ [v]) out
  | Pop :: ops =>
      match q with
      | [] => Fault AssertFailed
      | x :: q' => spec_run cap ops q' (out ++ [x])
      end
  end.
End Operations.

Arguments op : clear implicits.

Section Proofs.
Context {Tp : Type}.
Implicit Types (b : t Tp) (val : Tp).

(** Position in the ring of the element [i] places after the oldest one. *)
Definition slot b (i : Z) : Z :=
  if start_ b + i <? capacity b then start_ b + i else start_ b + i - capacity b.

Ltac unfold_wf := unfold wf, slot, full, empty, size, capacity in *; cbn [start_ end_ count_ buffer_] in *.

Lemma ctor_wf (d : Tp) n : 0 <= n <= kMaxObject → wf (ctor d n).
Proof.
  intros Hn. unfold ctor. unfold_wf. rewrite zlen_replicate, Z2Nat.id by lia.
  split_tests; lia.
Qed.

Lemma ctor_capacity (d : Tp) n : 0 <= n → capacity (ctor d n) = n.
Proof. intros. unfold capacity, ctor. cbn. rewrite zlen_replicate. lia. Qed.

Lemma ring_len b : wf b → zlen (contents b) = count_ b.
Proof.
  intros (? & ? & ? & ? & _). unfold contents.
  apply zlen_slice; rewrite ?zlen_app; unfold capacity in *; lia.
Qed.

Lemma lookup_contents b (i : nat) : wf b → Z.of_nat i < count_ b →
  contents b !! i = buffer_ b !! Z.to_nat (slot b (Z.of_nat i)).
Proof.
  intros Hwf Hi. unfold contents, slice.
  rewrite lookup_take_lt, lookup_drop by lia. unfold_wf. unfold zlen in *.
  destruct Hwf as (? & ? & ? & ? & _). split_tests.
  - rewrite lookup_app_l by lia. f_equal. lia.
  - rewrite lookup_app_r by lia. f_equal. lia.
Qed.

Lemma contents_past b (i : nat) : wf b → count_ b <= Z.of_nat i → contents b !! i = None.
Proof.
  intros Hwf Hi. apply lookup_ge_None. pose proof (ring_len b Hwf).
  unfold zlen in *. lia.
Qed.

(** Two rings with the same count and the same cells at the same ring positions
    hold the same queue. *)
Lemma contents_ext b (q : list Tp) : wf b → zlen q = count_ b →
  (∀ i : nat, Z.of_nat i < count_ b →
     buffer_ b !! Z.to_nat (slot b (Z.of_nat i)) = q !! i) → contents b = q.
Proof.
  intros Hwf Hlen Heq. apply list_eq. intros i.
  destruct (decide (Z.of_nat i < count_ b)) as [Hi|Hi].
  - rewrite lookup_contents by done. auto.
  - rewrite contents_past by (done || lia). symmetry. apply lookup_ge_None.
    unfold zlen in *. lia.
Qed.

Lemma full_iff b : wf b → full b = true ↔ zlen (contents b) = capacity b.
Proof. intros Hwf. rewrite ring_len by done. unfold full. rewrite Z.eqb_eq. lia. Qed.

Lemma empty_iff b : wf b → empty b = true ↔ contents b = [].
Proof.
  intros Hwf. pose proof (ring_len b Hwf) as Hl. unfold empty. rewrite Z.eqb_eq. split.
  - intros H. apply zlen_nil_inv. lia.
  - intros H. rewrite H in Hl. done.
Qed.

Lemma push_back_ok b val : wf b → full b = false →
  ∃ b', push_back val b = Ok b' ∧ wf b' ∧ contents b' = contents b ++ [val]
        ∧ capacity b' = capacity b ∧ count_ b' = count_ b + 1.
Proof.
  intros Hwf Hfull. pose proof Hwf as Hwf0. pose proof (ring_len b Hwf) as Hlen.
  unfold push_back. rewrite Hfull. cbn [negb cassert check mbind outcome_bind].
  unfold_wf. unbool. unfold kMaxObject in *.
  assert (Hend : 0 <= end_ b < zlen (buffer_ b)) by (destruct Hwf as (?&?&?&?&He); split_tests; lia).
  rewrite write_at_ok by lia. cbn [mbind outcome_bind].
  rewrite !u64_small by lia. eexists. split; [reflexivity|].
  assert (wf (mk (start_ b) (if zlen (buffer_ b) =? end_ b + 1 then 0 else end_ b + 1)
                (count_ b + 1) (<[Z.to_nat (end_ b):=val]> (buffer_ b)))) as Hwf'.
  { unfold_wf. unfold kMaxObject. rewrite zlen_insert. destruct Hwf as (?&?&?&?&He).
    split_tests; lia. }
  split; [done|]. split; [|split; [apply zlen_insert | done]].
  apply contents_ext; [done | |].
  { rewrite zlen_app, Hlen. reflexivity. }
  intros i Hi. cbn [count_ start_ buffer_] in *. unfold slot. cbn. unfold capacity. cbn.
  rewrite zlen_insert. destruct Hwf as (?&?&?&?&He).
  destruct (decide (Z.of_nat i < count_ b)) as [Hlt|Hge].
  - rewrite lookup_app_l by (unfold zlen in *; lia).
    rewrite lookup_contents by done. unfold slot, capacity.
    apply list_lookup_insert_ne. split_tests; lia.
  - replace i with (length (contents b)) by (unfold zlen in *; lia).
    rewrite list_lookup_middle by done.
    replace (if _ <? _ then _ else _) with (end_ b).
    + apply list_lookup_insert_eq. unfold zlen in *. lia.
    + rewrite He. unfold zlen in *. split_tests; lia.
Qed.

Lemma push_back_full b val : full b = true → push_back val b = Fault AssertFailed.
Proof. unfold push_back. by intros ->. Qed.

Lemma contents_cons_count b x xs : wf b → contents b = x :: xs →
  0 < count_ b ∧ start_ b < capacity b.
Proof.
  intros Hwf Hc. pose proof (ring_len b Hwf) as Hl. rewrite Hc, zlen_cons in Hl.
  pose proof (zlen_nonneg xs). unfold_wf. lia.
Qed.

Lemma front_ok b x xs : wf b → contents b = x :: xs → front b = Ok x.
Proof.
  intros Hwf Hc. destruct (contents_cons_count _ _ _ Hwf Hc) as [Hn Hs].
  assert (contents b !! 0%nat = Some x) as Hx by (by rewrite Hc).
  rewrite lookup_contents in Hx by (done || lia).
  unfold front, empty. decide_test (0 =? count_ b). cbn. unfold read_at.
  unfold_wf. decide_test (0 <=? start_ b). revert Hx. decide_test (start_ b + Z.of_nat 0 <? zlen (buffer_ b)).
  rewrite Z.add_0_r. by intros ->.
Qed.

Lemma front_empty b : wf b → contents b = [] → front b = Fault AssertFailed.
Proof. intros Hwf Hc. unfold front. apply empty_iff in Hc as ->; done. Qed.

Lemma pop_front_ok b x xs : wf b → contents b = x :: xs →
  ∃ b', pop_front b = Ok b' ∧ wf b' ∧ contents b' = xs
        ∧ capacity b' = capacity b ∧ count_ b' = count_ b - 1.
Proof.
  intros Hwf Hc. destruct (contents_cons_count _ _ _ Hwf Hc) as [Hn Hs].
  pose proof (ring_len b Hwf) as Hl. rewrite Hc, zlen_cons in Hl.
  unfold pop_front, empty. decide_test (0 =? count_ b). cbn [negb cassert check mbind outcome_bind].
  pose proof Hwf as (?&?&?&?&He). unfold_wf. unfold kMaxObject in *.
  rewrite !u64_small by lia. eexists. split; [reflexivity|].
  assert (wf (mk (if zlen (buffer_ b) =? start_ b + 1 then 0 else start_ b + 1)
                 (end_ b) (count_ b - 1) (buffer_ b))) as Hwf'.
  { unfold_wf. unfold kMaxObject. split_tests; lia. }
  split; [done|]. split; [|split; reflexivity].
  apply contents_ext; [done | cbn; lia |].
  intros i Hi. cbn in Hi.
  assert (contents b !! S i = xs !! i) as <- by (by rewrite Hc).
  rewrite lookup_contents by (done || lia). unfold slot, capacity. cbn.
  f_equal. split_tests; lia.
Qed.

Lemma pop_front_empty b : wf b → contents b = [] → pop_front b = Fault AssertFailed.
Proof. intros Hwf Hc. unfold pop_front. apply empty_iff in Hc as ->; done. Qed.
End Proofs.

#[global] Instance circular_fifo {Tp} : BoundedFifo (t Tp) Tp.
Proof.
  refine {| fifo_wf := wf; fifo_contents := contents; fifo_capacity := capacity;
            fifo_full := full; fifo_push_back := push_back; fifo_front := front;
            fifo_pop_front := pop_front |}.
  - apply full_iff.
  - intros q x Hwf Hf. destruct (push_back_ok q x Hwf Hf) as (q' & ? & ? & ? & ? & _). eauto.
  - apply front_ok.
  - apply front_empty.
  - intros q x xs Hwf Hc. destruct (pop_front_ok q x xs Hwf Hc) as (q' & ? & ? & ? & ? & _). eauto.
Defined.

Section Refinement.
Context {Tp : Type}.
Implicit Types (b : t Tp) (val : Tp).

(** The values pushed by a sequence of operations, in order. *)
Fixpoint pushed (ops : list (op Tp)) : list Tp :=
  match ops with
  | [] => []
  | Push v :: ops => v :: pushed ops
  | Pop :: ops => pushed ops
  end.

(** A concrete run agrees with the abstract one on every branch, failures included. *)
Definition agrees (cap : Z) (m : outcome (t Tp * list Tp)) (s : outcome (list Tp * list Tp)) : Prop :=
  match m with
  | Ok (b, out) => wf b ∧ capacity b = cap ∧ s = Ok (contents b, out)
  | Fault f => s = Fault f
  end.

Lemma ring_run_agrees ops b out : wf b →
  agrees (capacity b) (run ops b out) (spec_run (capacity b) ops (contents b) out).
Proof.
  revert b out. induction ops as [|[v|] ops IH]; intros b out Hwf; cbn [run spec_run].
  - done.
  - pose proof (full_iff b Hwf) as Hfull. destruct (zlen (contents b) =? capacity b) eqn:E; unbool.
    + rewrite push_back_full by tauto. done.
    + destruct (push_back_ok b v Hwf) as (b' & -> & Hwf' & <- & <- & _); [|by apply IH].
      destruct (full b); [tauto | done].
  - destruct (contents b) as [|x q] eqn:Hc.
    + by rewrite front_empty.
    + rewrite (front_ok b x q Hwf Hc). cbn [mbind outcome_bind].
      destruct (pop_front_ok b x q Hwf Hc) as (b' & -> & Hwf' & <- & <- & _). by apply IH.
Qed.

Lemma spec_run_history cap ops q out q' out' :
  spec_run cap ops q out = Ok (q', out') → out ++ q ++ pushed ops = out' ++ q'.
Proof.
  revert q out. induction ops as [|[v|] ops IH]; intros q out; cbn [spec_run pushed].
  - intros H. outcome_inv. by rewrite app_nil_r.
  - intros H. outcome_inv. apply IH in H. rewrite <- H, <- !(assoc_L (++)). done.
  - destruct q as [|x q]; [done|]. intros H. apply IH in H. rewrite <- H, <- !(assoc_L (++)). done.
Qed.

(** C14. Every sequence of [push_back] and [front]/[pop_front] calls on a fresh ring of
    any capacity behaves as the bounded FIFO queue of that capacity: the same elements
    come out in the same order, the same calls fail their assertion, and the
    representation invariant holds at the end. *)
Theorem circular_buffer_refines_fifo (d : Tp) (n : Z) (ops : list (op Tp)) :
  0 <= n <= kMaxObject →
  agrees n (run ops (ctor d n) []) (spec_run n ops [] []).
Proof.
  intros Hn. pose proof (ring_run_agrees ops (ctor d n) [] (ctor_wf d n Hn)) as H.
  rewrite ctor_capacity in H by lia. exact H.
Qed.

(** Whatever was pushed is either already popped or still queued, in order and
    without loss or duplication, and the queue never exceeds its capacity. *)
Theorem circular_buffer_conserves (d : Tp) (n : Z) (ops : list (op Tp)) b out :
  0 <= n <= kMaxObject → run ops (ctor d n) [] = Ok (b, out) →
  pushed ops = out ++ contents b ∧ size b = zlen (contents b) ∧ size b <= n.
Proof.
  intros Hn Hrun. pose proof (ring_run_agrees ops (ctor d n) [] (ctor_wf d n Hn)) as Ha.
  rewrite Hrun in Ha. destruct Ha as (Hwf & Hcap & Hspec).
  rewrite ctor_capacity in * by lia.
  apply spec_run_history in Hspec. rewrite ring_len by done.
  split; [done|]. split; [done|]. destruct Hwf as (? & _). unfold size. lia.
Qed.

Lemma zlen_resize (d : Tp) new b : 0 <= new → capacity (resize d new b) = new.
Proof.
  intros. unfold capacity, resize. cbn. rewrite zlen_app, zlen_take, zlen_replicate.
  unfold zlen. lia.
Qed.

Lemma lookup_resize (d : Tp) new b (i : nat) :
  Z.of_nat i < new → Z.of_nat i < capacity b → buffer_ (resize d new b) !! i = buffer_ b !! i.
Proof.
  intros Hi Hc. unfold resize, capacity, zlen in *. cbn.
  rewrite lookup_app_l by (rewrite length_take; lia). apply lookup_take_lt. lia.
Qed.

(** [resize] keeps the queue when its elements do not wrap around the ring and the
    new size leaves room behind them. *)
Theorem resize_keeps_linear_ring (d : Tp) (new : Z) b :
  wf b → start_ b + count_ b < capacity b → start_ b + count_ b < new <= kMaxObject →
  wf (resize d new b) ∧ contents (resize d new b) = contents b ∧ capacity (resize d new b) = new.
Proof.
  intros Hwf Hlin Hnew. pose proof Hwf as (?&?&?&?&He).
  assert (capacity (resize d new b) = new) as Hcap by (apply zlen_resize; lia).
  assert (wf (resize d new b)) as Hwf'.
  { unfold wf. rewrite Hcap. cbn. split_tests; lia. }
  split; [done|]. split; [|done]. apply contents_ext; [done | by rewrite ring_len |].
  intros i Hi. cbn [count_ resize] in Hi. rewrite lookup_contents by done.
  unfold slot. rewrite Hcap. cbn [start_ resize].
  decide_test (start_ b + Z.of_nat i <? new). decide_test (start_ b + Z.of_nat i <? capacity b).
  apply lookup_resize; lia.
Qed.

(** On a full ring that starts at cell 0, growing with [resize] leaves [end_] at 0, so
    the next [push_back] overwrites the oldest element: [front] then returns the value
    just pushed. *)
Theorem resize_full_ring_overwrites_front (d v x : Tp) (xs : list Tp) (new : Z) b :
  wf b → contents b = x :: xs → full b = true → start_ b = 0 → capacity b < new <= kMaxObject →
  ∃ b', push_back v (resize d new b) = Ok b' ∧ front b' = Ok v.
Proof.
  intros Hwf Hc Hf Hs Hnew. pose proof (contents_cons_count _ _ _ Hwf Hc) as [Hn _].
  pose proof Hwf as (?&?&?&?&He). unfold full in Hf. unbool.
  assert (end_ b = 0) as He0 by (split_tests; lia).
  assert (capacity (resize d new b) = new) as Hcap by (apply zlen_resize; lia).
  unfold push_back, full. rewrite Hcap. cbn [count_ end_ start_ resize].
  unfold kMaxObject in *. decide_test (new =? count_ b). cbn [negb cassert check mbind outcome_bind].
  rewrite He0, write_at_ok by (unfold capacity in Hcap; lia). cbn [mbind outcome_bind].
  eexists. split; [reflexivity|]. unfold front, empty. cbn [count_ start_ buffer_].
  rewrite u64_small by lia. decide_test (0 =? count_ b + 1). rewrite Hs. cbn.
  unfold read_at. cbn. rewrite list_lookup_insert_eq; [done|].
  unfold capacity, zlen in Hcap. cbn in Hcap. lia.
Qed.
End Refinement.

Lemma circular_buffer_refines_fifo_witness :
  agrees 2 (run [Push 1; Push 2; Pop; Push 3; Pop; Pop; Pop] (ctor 0 2) [])
         (spec_run 2 [Push 1; Push 2; Pop; Push 3; Pop; Pop; Pop] [] []).
Proof.
  apply (circular_buffer_refines_fifo 0 2 [Push 1; Push 2; Pop; Push 3; Pop; Pop; Pop]).
  unfold kMaxObject. lia.
Defined.

Lemma circular_buffer_conserves_witness :
  let b := mk 0 1 1 [7; 6] in
  pushed [Push 5; Push 6; Pop; Push 7; Pop] = [5; 6] ++ contents b
  ∧ size b = zlen (contents b) ∧ size b <= 2.
Proof.
  apply (circular_buffer_conserves 0 2 [Push 5; Push 6; Pop; Push 7; Pop] (mk 0 1 1 [7; 6]) [5; 6]).
  - unfold kMaxObject. lia.
  - reflexivity.
Defined.

Lemma resize_keeps_linear_ring_witness :
  let b := mk 0 1 1 [5; 0] in
  wf (resize 0 4 b) ∧ contents (resize 0 4 b) = contents b ∧ capacity (resize 0 4 b) = 4.
Proof.
  apply (resize_keeps_linear_ring 0 4 (mk 0 1 1 [5; 0])).
  - unfold wf, capacity, zlen, kMaxObject. cbn. split_tests; lia.
  - unfold capacity, zlen. cbn. lia.
  - unfold capacity, zlen, kMaxObject. cbn. lia.
Defined.

Lemma resize_full_ring_overwrites_front_witness :
  ∃ b', push_back 9 (resize 0 4 (mk 0 0 2 [5; 6])) = Ok b' ∧ front b' = Ok 9.
Proof.
  apply (resize_full_ring_overwrites_front 0 9 5 [6] 4 (mk 0 0 2 [5; 6])); try reflexivity.
  - unfold wf, capacity, zlen, kMaxObject. cbn. split_tests; lia.
  - unfold capacity, zlen, kMaxObject. cbn. lia.
Defined.
End CircularBuffer.
