(* ===== verification/BlockingQueue.v ===== *)
(** * [container::BoundedBlockingQueue] (clia/container/bounded_blocking_queue.h)

    [put] and [take] as interleavings of the critical sections their mutex makes
    atomic, with the two condition variables as sets of waiting threads.  The queue
    inside is any [BoundedFifo]; [Circular] provides the one the code uses.

    [put] waits while the ring is full.  [take] waits on the same test, [full()],
    and not on [empty()] (line 70): the theorems show what holds all the same (FIFO
    order, nothing lost) and what that test makes of an empty and of a full queue. *)

From S2P Require Import Prelude Circular.

Module BoundedBlockingQueue.

(** Where a calling thread stands.  [PutWait] and [TakeWait] are blocked in
    [not_full_.wait] and [not_empty_.wait]; [PutNotify] has left the block that holds
    the lock and has not called [notify_one] yet. *)
Inductive thread (A : Type) :=
| PutCall (v : A)
| PutWait (v : A)
| PutNotify
| TakeCall
| TakeWait
| Returned (r : option A).

Arguments PutCall {A}.
Arguments PutWait {A}.
Arguments PutNotify {A}.
Arguments TakeCall {A}.
Arguments TakeWait {A}.
Arguments Returned {A}.

Section Queue.
Context {Q A : Type} `{BoundedFifo Q A}.

(** One pass of [put]'s locked block: [None] is the wait on [not_full_]. *)
Definition put (val : A) (q : Q) : outcome (option Q) :=
  if fifo_full q then mret None
  else q' ← fifo_push_back val q; mret (Some q').

(** One pass of [take]'s locked block: [None] is the wait on [not_empty_]. *)
Definition take (q : Q) : outcome (option (A * Q)) :=
  if fifo_full q then mret None
  else val ← fifo_front q; q' ← fifo_pop_front q; mret (Some (val, q')).

(** [puts] and [takes] record the values accepted and returned, in order. *)
Record state := State {
  queue : Q;
  threads : list (thread A);
  puts : list A;
  takes : list A
}.

Inductive config :=
| Running (s : state)
| Crashed (f : fault).

Definition waits_not_full (t : thread A) : option (thread A) :=
  match t with PutWait v => Some (PutCall v) | _ => None end.

Definition waits_not_empty (t : thread A) : option (thread A) :=
  match t with TakeWait => Some TakeCall | _ => None end.

(** [notify_one] on a condition variable: one of its waiters, if any, goes back to
    the test of its loop. *)
Inductive notify_one (waiter : thread A → option (thread A)) (ts : list (thread A)) :
  list (thread A) → Prop :=
| notify_some j t t' : ts !! j = Some t → waiter t = Some t' →
    notify_one waiter ts (<[j := t']> ts)
| notify_none : (∀ j t, ts !! j = Some t → waiter t = None) → notify_one waiter ts ts.

Inductive step : config → config → Prop :=
| step_put_wait s i v :
    threads s !! i = Some (PutCall v) → put v (queue s) = Ok None →
    step (Running s)
         (Running (State (queue s) (<[i := PutWait v]> (threads s)) (puts s) (takes s)))
| step_put_push s i v q' :
    threads s !! i = Some (PutCall v) → put v (queue s) = Ok (Some q') →
    step (Running s)
         (Running (State q' (<[i := PutNotify]> (threads s)) (puts s ++ [v]) (takes s)))
| step_put_fault s i v f :
    threads s !! i = Some (PutCall v) → put v (queue s) = Fault f →
    step (Running s) (Crashed f)
| step_put_notify s i ts :
    threads s !! i = Some PutNotify → notify_one waits_not_empty (threads s) ts →
    step (Running s)
         (Running (State (queue s) (<[i := Returned None]> ts) (puts s) (takes s)))
| step_take_wait s i :
    threads s !! i = Some TakeCall → take (queue s) = Ok None →
    step (Running s)
         (Running (State (queue s) (<[i := TakeWait]> (threads s)) (puts s) (takes s)))
| step_take_pop s i x q' ts :
    threads s !! i = Some TakeCall → take (queue s) = Ok (Some (x, q')) →
    notify_one waits_not_full (threads s) ts →
    step (Running s)
         (Running (State q' (<[i := Returned (Some x)]> ts) (puts s) (takes s ++ [x])))
| step_take_fault s i f :
    threads s !! i = Some TakeCall → take (queue s) = Fault f →
    step (Running s) (Crashed f)
| step_spurious s i t t' :
    threads s !! i = Some t →
    waits_not_full t = Some t' ∨ waits_not_empty t = Some t' →
    step (Running s)
         (Running (State (queue s) (<[i := t']> (threads s)) (puts s) (takes s)))
| step_call s t :
    (t = TakeCall ∨ ∃ v, t = PutCall v) →
    step (Running s)
         (Running (State (queue s) (threads s ++ [t]) (puts s) (takes s))).

(** A queue just constructed, with no caller yet. *)
Definition initial (q : Q) : config := Running (State q [] [] []).

(** What every reachable state satisfies. *)
Definition invariant (cap : Z) (c : config) : Prop :=
  match c with
  | Running s => fifo_wf (queue s) ∧ fifo_capacity (queue s) = cap ∧
                 puts s = takes s ++ fifo_contents (queue s)
  | Crashed _ => True
  end.

Lemma put_ok v q o : fifo_wf q → put v q = Ok (Some o) →
  fifo_wf o ∧ fifo_contents o = fifo_contents q ++ [v] ∧ fifo_capacity o = fifo_capacity q.
Proof.
  intros Hwf. unfold put. destruct (fifo_full q) eqn:Hf; [done|].
  destruct (fifo_push_spec q v Hwf Hf) as (q' & -> & ?). cbn. by intros [= <-].
Qed.

Lemma take_ok x q o : fifo_wf q → take q = Ok (Some (x, o)) →
  fifo_wf o ∧ fifo_contents q = x :: fifo_contents o ∧ fifo_capacity o = fifo_capacity q.
Proof.
  intros Hwf. unfold take. destruct (fifo_full q) eqn:Hf; [done|].
  destruct (fifo_contents q) as [|y ys] eqn:Hc.
  - by rewrite fifo_front_empty.
  - rewrite (fifo_front_spec q y ys Hwf Hc). cbn.
    destruct (fifo_pop_spec q y ys Hwf Hc) as (q' & -> & ? & ? & ?). cbn.
    intros [= <- <-]. split_and!; congruence.
Qed.

Lemma step_invariant cap c c' : step c c' → invariant cap c → invariant cap c'.
Proof.
  destruct 1; cbn; try done; intros (Hwf & Hcap & Hh).
  - destruct (put_ok v (queue s) q') as (? & Hc & ?); [done..|].
    split_and!; [done | congruence |]. rewrite Hh, Hc. by rewrite (assoc_L (++)).
  - destruct (take_ok x (queue s) q') as (? & Hc & ?); [done..|].
    split_and!; [done | congruence |]. rewrite Hh, Hc. by rewrite <- (assoc_L (++)).
Qed.

Lemma reachable_invariant cap c c' : rtc step c c' → invariant cap c → invariant cap c'.
Proof. induction 1; eauto using step_invariant. Qed.

(** A step that starts on a full queue leaves the queue as it is. *)
Lemma step_full s c' : fifo_full (queue s) = true → step (Running s) c' →
  ∃ s', c' = Running s' ∧ queue s' = queue s ∧ puts s' = puts s ∧ takes s' = takes s.
Proof.
  intros Hf Hs. inversion Hs; subst; eauto;
    repeat match goal with
    | Hx : put _ _ = _ |- _ => unfold put in Hx; rewrite Hf in Hx; discriminate Hx
    | Hx : take _ = _ |- _ => unfold take in Hx; rewrite Hf in Hx; discriminate Hx
    end.
Qed.

(** C17. In every reachable state of any number of concurrent [put] and [take] calls the
    accepted values are the returned ones followed by the queued ones, in order, and the
    queue holds at most its capacity. *)
Theorem blocking_queue_fifo (q : Q) (s : state) :
  fifo_wf q → fifo_contents q = [] → rtc step (initial q) (Running s) →
  puts s = takes s ++ fifo_contents (queue s) ∧ fifo_capacity (queue s) = fifo_capacity q.
Proof.
  intros Hwf He Hr. assert (invariant (fifo_capacity q) (initial q)) as Hi.
  { cbn. rewrite He. done. }
  destruct (reachable_invariant _ _ _ Hr Hi) as (_ & ? & ?). done.
Qed.

(** Once the queue is full no schedule takes an element out of it or puts one in:
    [take] waits for the queue not to be full, which only a [take] could bring about. *)
Theorem blocking_queue_full_is_stuck (s : state) (c : config) :
  fifo_full (queue s) = true → rtc step (Running s) c →
  ∃ s', c = Running s' ∧ queue s' = queue s ∧ puts s' = puts s ∧ takes s' = takes s.
Proof.
  intros Hf Hr. remember (Running s) as c0 eqn:E. revert s Hf E.
  induction Hr as [|c0 c1 c2 Hs _ IH]; intros s Hf ->; [by eauto|].
  destruct (step_full s c1 Hf Hs) as (s1 & -> & Hq & Hp & Ht).
  destruct (IH s1) as (s' & -> & ? & ? & ?); [by rewrite Hq | done |].
  eexists. split; [done|]. split_and!; congruence.
Qed.

(** [take] on an empty queue of positive capacity does not wait for an element: the
    calling thread fails the assertion of [CircularBuffer::front]. *)
Theorem blocking_queue_take_empty_aborts (s : state) (i : nat) :
  fifo_wf (queue s) → fifo_contents (queue s) = [] → 0 < fifo_capacity (queue s) →
  threads s !! i = Some TakeCall →
  step (Running s) (Crashed AssertFailed) ∧ take (queue s) ≠ Ok None.
Proof.
  intros Hwf He Hcap Hi.
  assert (fifo_full (queue s) = false) as Hf.
  { destruct (fifo_full (queue s)) eqn:Hf; [|done].
    apply fifo_full_spec in Hf; [|done]. rewrite He, zlen_nil in Hf. lia. }
  assert (take (queue s) = Fault AssertFailed) as Ht.
  { unfold take. by rewrite Hf, fifo_front_empty. }
  split; [by eapply step_take_fault | by rewrite Ht].
Qed.
End Queue.

Lemma blocking_queue_fifo_witness :
  let s := State (CircularBuffer.mk (Tp := Z) 0 1 1 [7; 0]) [PutNotify] [7] [] in
  puts s = takes s ++ fifo_contents (queue s) ∧
  fifo_capacity (queue s) = fifo_capacity (CircularBuffer.ctor (Tp := Z) 0 2).
Proof.
  apply (blocking_queue_fifo (CircularBuffer.ctor 0 2)).
  - apply CircularBuffer.ctor_wf. unfold kMaxObject. lia.
  - reflexivity.
  - eapply rtc_l; [apply (step_call _ (PutCall 7)); eauto|].
    eapply rtc_l; [|apply rtc_refl]. 
    by apply (step_put_push (State (CircularBuffer.ctor (Tp := Z) 0 2) [PutCall 7] [] []) 0 7
                (CircularBuffer.mk 0 1 1 [7; 0])).
Defined.

Lemma blocking_queue_full_is_stuck_witness :
  let s := State (CircularBuffer.mk (Tp := Z) 0 0 1 [7]) [TakeCall] [7] [] in
  let c := Running (State (CircularBuffer.mk (Tp := Z) 0 0 1 [7]) [TakeWait] [7] []) in
  ∃ s', c = Running s' ∧ queue s' = queue s ∧ puts s' = puts s ∧ takes s' = takes s.
Proof.
  apply (blocking_queue_full_is_stuck
    (State (CircularBuffer.mk (Tp := Z) 0 0 1 [7]) [TakeCall] [7] [])).
  - reflexivity.
  - eapply rtc_l; [|apply rtc_refl]. 
    by apply (step_take_wait
                (State (CircularBuffer.mk (Tp := Z) 0 0 1 [7]) [TakeCall] [7] []) 0).
Defined.

Lemma blocking_queue_take_empty_aborts_witness :
  let s := State (CircularBuffer.ctor (Tp := Z) 0 2) [TakeCall] [] [] in
  step (Running s) (Crashed AssertFailed) ∧ take (queue s) ≠ Ok None.
Proof.
  apply (blocking_queue_take_empty_aborts
    (State (CircularBuffer.ctor (Tp := Z) 0 2) [TakeCall] [] []) 0).
  - apply CircularBuffer.ctor_wf. unfold kMaxObject. lia.
  - reflexivity.
  - reflexivity.
  - reflexivity.
Defined.
End BoundedBlockingQueue.
