(* ===== verification/NetBuffer.v ===== *)
(** * [net::Buffer] (clia/net/buffer.h, src/net/buffer.cc)

    The connection buffer: a byte vector with a reader and a writer index, eight
    cheap-prepend bytes in front.  Every member function is modelled with the index
    arithmetic of [std::size_t]; [readv] and [write] are given by what they returned.

    The proofs show that the readable window behaves as a byte queue (appending,
    retrieving, moving the data down or growing never changes what is readable), and
    what happens at the edges: a buffer without writable space, a moved-from buffer,
    and the scratch array of [read_fd]. *)

From S2P Require Import Prelude.

(** What a system call that transfers bytes returned: a count, or -1 and [errno]. *)
Inductive sysret := SysOk (n : Z) | SysErr (errno : Z).

Module Buffer.

Definition kCheapPrepend : Z := 8.

Definition kInitialSize : Z := 1024.

Record t := mk {
  buffer_ : list byte;
  reader_index_ : Z;
  writer_index_ : Z
}.

Implicit Types b oth : t.

Definition readable_bytes b : Z := u64 (writer_index_ b - reader_index_ b).

Definition writable_bytes b : Z := u64 (zlen (buffer_ b) - writer_index_ b).

Definition prependable_bytes b : Z := reader_index_ b.

(** [std::vector::resize] throws [std::length_error] beyond [max_size()]. *)
Definition vector_resize (n : Z) (v : list byte) : outcome (list byte) :=
  _ ← check (n <=? kMaxObject) LengthError;
  mret (take (Z.to_nat n) v ++ replicate (Z.to_nat n - length v) x00).

Definition ctor (inital_size : Z) : outcome t :=
  v ← vector_resize (u64 (kCheapPrepend + inital_size)) [];
  let b := mk v kCheapPrepend kCheapPrepend in
  _ ← cassert (readable_bytes b =? 0);
  _ ← cassert (writable_bytes b =? inital_size);
  _ ← cassert (prependable_bytes b =? kCheapPrepend);
  mret b.

Definition copy_ctor oth : t := mk (buffer_ oth) (reader_index_ oth) (writer_index_ oth).

(** [same] is the test [&oth == this]. *)
Definition copy_assign (same : bool) b oth : t :=
  if negb same then mk (buffer_ oth) (reader_index_ oth) (writer_index_ oth) else b.

(** The new buffer and what the move leaves behind in [oth]: an empty vector and the
    two indices at [kCheapPrepend]. *)
Definition move_ctor oth : t * t :=
  (mk (buffer_ oth) (reader_index_ oth) (writer_index_ oth),
   mk [] kCheapPrepend kCheapPrepend).

Definition move_assign (same : bool) b oth : t * t :=
  if negb same
  then (mk (buffer_ oth) (reader_index_ oth) (writer_index_ oth),
        mk [] kCheapPrepend kCheapPrepend)
  else (b, b).

(** [begin()] is the start of the vector; [peek()] and [begin_write()] are offsets from it. *)
Definition peek b : Z := reader_index_ b.

Definition begin_write b : Z := writer_index_ b.

Definition retrieve_all b : t := mk (buffer_ b) kCheapPrepend kCheapPrepend.

Definition retrieve (len : Z) b : outcome t :=
  _ ← cassert (len <=? readable_bytes b);
  if len <? readable_bytes b
  then mret (mk (buffer_ b) (u64 (reader_index_ b + len)) (writer_index_ b))
  else mret (retrieve_all b).

Definition retrieve_as_string (len : Z) b : outcome (list byte * t) :=
  _ ← cassert (len <=? readable_bytes b);
  result ← read_range (peek b) len (buffer_ b);
  b' ← retrieve len b;
  mret (result, b').

Definition retrieve_all_as_string b : outcome (list byte * t) :=
  retrieve_as_string (readable_bytes b) b.

Definition make_space (len : Z) b : outcome t :=
  if u64 (writable_bytes b + prependable_bytes b) <? u64 (len + kCheapPrepend) then
    v ← vector_resize (u64 (writer_index_ b + len)) (buffer_ b);
    mret (mk v (reader_index_ b) (writer_index_ b))
  else
    _ ← cassert (kCheapPrepend <? reader_index_ b);
    let readable := readable_bytes b in
    data ← read_range (reader_index_ b) readable (buffer_ b);
    v ← write_range kCheapPrepend data (buffer_ b);
    let b' := mk v kCheapPrepend (u64 (kCheapPrepend + readable)) in
    _ ← cassert (readable =? readable_bytes b');
    mret b'.

Definition ensure_writable_bytes (len : Z) b : outcome t :=
  b' ← (if writable_bytes b <? len then make_space len b else mret b);
  _ ← cassert (len <=? writable_bytes b');
  mret b'.

Definition append (data : list byte) b : outcome t :=
  let len := zlen data in
  b ← ensure_writable_bytes len b;
  v ← write_range (begin_write b) data (buffer_ b);
  mret (mk v (reader_index_ b) (u64 (writer_index_ b + len))).

(** Size of the stack array [extrabuf] of [read_fd]. *)
Definition kExtraBuf : Z := 65536.

(** What [readv] did with the two segments [begin_write()] (of [writable] bytes) and
    [extrabuf]: it failed, or it delivered [data], the first segment being filled first. *)
Inductive readv_result := ReadvErr (errno : Z) | ReadvData (data : list byte).

(** The bytes that were delivered. *)
Definition data_of (r : readv_result) : list byte := match r with ReadvErr _ => [] | ReadvData data => data end.

(** The call and the three branches on its result: the buffer, [extrabuf] and [n].
    [ReadvData []] is the return value 0, end of file. *)
Definition readv_branch (r : readv_result) b (extrabuf : list byte)
  : outcome (t * list byte * Z) :=
  let writable := writable_bytes b in
  match r with
  | ReadvErr _ => mret (b, extrabuf, -1)
  | ReadvData data =>
      let n := zlen data in
      v ← write_range (begin_write b) (take (Z.to_nat writable) data) (buffer_ b);
      extrabuf ← write_range 0 (drop (Z.to_nat writable) data) extrabuf;
      if n <=? writable
      then mret (mk v (reader_index_ b) (u64 (writer_index_ b + n)), extrabuf, n)
      else
        let b := mk v (reader_index_ b) (u64 (writer_index_ b + writable)) in
        extra ← read_range 0 (n - writable) extrabuf;
        b ← append extra b;
        mret (b, extrabuf, n)
  end.

(** After the branches the readable bytes are copied over [extrabuf] and terminated. *)
Definition read_fd (r : readv_result) b : outcome (t * Z) :=
  let extrabuf := replicate (Z.to_nat kExtraBuf) x00 in
  _ ← cassert (0 <? writable_bytes b);
  '(b, extrabuf, n) ← readv_branch r b extrabuf;
  src ← read_range (peek b) (readable_bytes b) (buffer_ b);
  extrabuf ← write_range 0 src extrabuf;
  _ ← write_at (readable_bytes b) x00 extrabuf;
  mret (b, n).

(** The bytes [write_fd] offers to [::write]. *)
Definition offered b : outcome (list byte) :=
  read_range (peek b) (readable_bytes b) (buffer_ b).

Definition write_fd (r : sysret) b : outcome (t * Z) :=
  _ ← offered b;
  match r with
  | SysErr _ => mret (b, -1)
  | SysOk n => b' ← retrieve n b; mret (b', n)
  end.

(** Representation invariant. *)
Definition wf b : Prop :=
  kCheapPrepend <= reader_index_ b <= writer_index_ b ∧
  writer_index_ b <= zlen (buffer_ b) <= kMaxObject.

(** The readable bytes. *)
Definition contents b : list byte :=
  slice (reader_index_ b) (writer_index_ b - reader_index_ b) (buffer_ b).

(** Operations of a client and their reading on the abstract byte queue. *)
Inductive op :=
| OpAppend (data : list byte)
| OpRetrieve (len : Z)
| OpRetrieveAll
| OpRetrieveAsString (len : Z)
| OpEnsureWritable (len : Z).

(** One operation; the string it returns, if any, is collected. *)
Definition exec (o : op) b : outcome (t * list byte) :=
  match o with
  | OpAppend data => b' ← append data b; mret (b', [])
  | OpRetrieve len => b' ← retrieve len b; mret (b', [])
  | OpRetrieveAll => mret (retrieve_all b, [])
  | OpRetrieveAsString len => '(s, b') ← retrieve_as_string len b; mret (b', s)
  | OpEnsureWritable len => b' ← ensure_writable_bytes len b; mret (b', [])
  end.

Definition spec_exec (o : op) (q : list byte) : outcome (list byte * list byte) :=
  match o with
  | OpAppend data => mret (q ++ data, [])
  | OpRetrieve len =>
      if len <=? zlen q then mret (drop (Z.to_nat len) q, []) else Fault AssertFailed
  | OpRetrieveAll => mret ([], [])
  | OpRetrieveAsString len =>
      if len <=? zlen q
      then mret (drop (Z.to_nat len) q, take (Z.to_nat len) q) else Fault AssertFailed
  | OpEnsureWritable _ => mret (q, [])
  end.

(** Bytes an operation may add to the vector, at most. *)
Definition growth (o : op) : Z :=
  match o with
  | OpAppend data => zlen data
  | OpEnsureWritable len => len
  | _ => 0
  end.

Fixpoint total_growth (os : list op) : Z :=
  match os with
  | [] => 0
  | o :: os => growth o + total_growth os
  end.

(** The lengths are [std::size_t] values. *)
Definition op_ok (o : op) : Prop :=
  match o with
  | OpRetrieve len | OpRetrieveAsString len | OpEnsureWritable len => 0 <= len
  | _ => True
  end.

Fixpoint run (os : list op) b (out : list (list byte)) : outcome (t * list (list byte)) :=
  match os with
  | [] => mret (b, out)
  | o :: os => '(b', s) ← exec o b; run os b' (out ++ [s])
  end.

Fixpoint spec_run (os : list op) (q : list byte) (out : list (list byte))
  : outcome (list byte * list (list byte)) :=
  match os with
  | [] => mret (q, out)
  | o :: os => '(q', s) ← spec_exec o q; spec_run os q' (out ++ [s])
  end.

Ltac unfold_wf := unfold wf, kCheapPrepend, kMaxObject in *; cbn [buffer_ reader_index_ writer_index_] in *.

(** ** The indices of a well-formed buffer do not wrap *)

Lemma readable_eq b : wf b → readable_bytes b = writer_index_ b - reader_index_ b.
Proof. intros. unfold readable_bytes. unfold_wf. apply u64_small. lia. Qed.

Lemma writable_eq b : wf b → writable_bytes b = zlen (buffer_ b) - writer_index_ b.
Proof. intros. unfold writable_bytes. unfold_wf. apply u64_small. lia. Qed.

Lemma buffer_len b : wf b → zlen (contents b) = readable_bytes b.
Proof.
  intros Hwf. rewrite readable_eq by done. unfold contents. unfold_wf.
  apply zlen_slice; lia.
Qed.

Lemma offered_ok b : wf b → offered b = Ok (contents b).
Proof.
  intros Hwf. unfold offered, peek, contents. rewrite readable_eq by done.
  unfold_wf. apply read_range_ok; lia.
Qed.

(** ** Retrieving *)

Lemma retrieve_ok len b : wf b → 0 <= len <= readable_bytes b →
  ∃ b', retrieve len b = Ok b' ∧ wf b' ∧ contents b' = drop (Z.to_nat len) (contents b)
        ∧ buffer_ b' = buffer_ b ∧ writer_index_ b' <= writer_index_ b.
Proof.
  intros Hwf Hlen. unfold retrieve. rewrite readable_eq in * by done.
  decide_test (len <=? writer_index_ b - reader_index_ b). cbn.
  pose proof Hwf as Hwf0. unfold_wf. destruct (len <? _) eqn:E; unbool.
  - rewrite u64_small by lia. eexists. split; [reflexivity|]. unfold_wf.
    split; [lia|]. split; [|split; [done|lia]]. unfold contents. cbn [reader_index_ writer_index_ buffer_].
    rewrite drop_slice by lia. f_equal. lia.
  - eexists. split; [reflexivity|]. unfold retrieve_all, kCheapPrepend. unfold_wf.
    split; [lia|]. split; [|split; [done|lia]]. unfold contents. cbn [reader_index_ writer_index_ buffer_].
    replace len with (writer_index_ b - reader_index_ b) by lia.
    rewrite drop_slice by lia. by rewrite !Z.sub_diag, !slice_0.
Qed.

Lemma retrieve_too_much len b : readable_bytes b < len → retrieve len b = Fault AssertFailed.
Proof. intros. unfold retrieve. by decide_test (len <=? readable_bytes b). Qed.

Lemma retrieve_as_string_ok len b : wf b → 0 <= len <= readable_bytes b →
  ∃ b', retrieve_as_string len b = Ok (take (Z.to_nat len) (contents b), b') ∧ wf b'
        ∧ contents b' = drop (Z.to_nat len) (contents b)
        ∧ buffer_ b' = buffer_ b ∧ writer_index_ b' <= writer_index_ b.
Proof.
  intros Hwf Hlen. destruct (retrieve_ok len b Hwf Hlen) as (b' & Hr & ? & ? & ? & ?).
  exists b'. split; [|done]. unfold retrieve_as_string.
  decide_test (len <=? readable_bytes b). cbn [cassert check mbind outcome_bind].
  rewrite readable_eq in Hlen by done. unfold contents.
  rewrite take_slice by lia. unfold peek. unfold_wf.
  rewrite read_range_ok by lia. cbn. by rewrite Hr.
Qed.

(** ** Making room *)

Lemma vector_resize_grow n v : zlen v <= n <= kMaxObject →
  ∃ v', vector_resize n v = Ok v' ∧ zlen v' = n ∧
        ∀ off k, 0 <= off → 0 <= k → off + k <= zlen v → slice off k v' = slice off k v.
Proof.
  intros Hn. unfold vector_resize. decide_test (n <=? kMaxObject). cbn.
  eexists. split; [reflexivity|]. pose proof (zlen_nonneg v). unfold zlen in *.
  rewrite take_ge by lia. split.
  - rewrite length_app, length_replicate. lia.
  - intros. apply slice_app_l; unfold zlen; lia.
Qed.

(** Making room for [len] bytes, by growing the vector when the free bytes behind and in
    front of the readable ones do not suffice. *)
Lemma make_space_grow len b : wf b → 0 <= len → writer_index_ b + len <= kMaxObject →
  zlen (buffer_ b) < kCheapPrepend + readable_bytes b + len → zlen (buffer_ b) - writer_index_ b <= len →
  ∃ b', make_space len b = Ok b' ∧ wf b' ∧ contents b' = contents b
        ∧ zlen (buffer_ b') = writer_index_ b + len ∧ writer_index_ b' = writer_index_ b.
Proof.
  intros Hwf Hlen Hmax Hno Hw. pose proof Hwf as Hwf0. unfold make_space, prependable_bytes.
  rewrite !writable_eq by done. rewrite readable_eq in Hno by done. unfold_wf.
  rewrite !u64_small by lia.
  decide_test (zlen (buffer_ b) - writer_index_ b + reader_index_ b <? len + 8).
  destruct (vector_resize_grow (writer_index_ b + len) (buffer_ b)) as (v' & -> & Hv & Hs);
    [unfold kMaxObject; lia|].
  cstep. eexists. split; [reflexivity|]. unfold_wf.
  split; [lia|]. split; [|lia]. unfold contents. cbn [buffer_ reader_index_ writer_index_]. apply Hs; lia.
Qed.

(** ... and by moving the readable bytes to the front otherwise. *)
Lemma make_space_shift len b : wf b → 0 <= len <= kMaxObject →
  zlen (buffer_ b) - writer_index_ b < len → kCheapPrepend + readable_bytes b + len <= zlen (buffer_ b) →
  ∃ b', make_space len b = Ok b' ∧ wf b' ∧ contents b' = contents b
        ∧ zlen (buffer_ b') = zlen (buffer_ b) ∧ writer_index_ b' = kCheapPrepend + readable_bytes b.
Proof.
  intros Hwf Hlen Hw Hroom. pose proof Hwf as Hwf0. unfold make_space, prependable_bytes.
  rewrite !writable_eq, !readable_eq in * by done. unfold_wf.
  rewrite !u64_small by lia.
  decide_test (zlen (buffer_ b) - writer_index_ b + reader_index_ b <? len + 8).
  decide_test (8 <? reader_index_ b). cstep.
  rewrite read_range_ok by lia. cstep.
  set (data := slice (reader_index_ b) (writer_index_ b - reader_index_ b) (buffer_ b)).
  assert (zlen data = writer_index_ b - reader_index_ b) as Hd by (apply zlen_slice; lia).
  rewrite write_range_ok by lia. cstep.
  assert (zlen (splice 8 data (buffer_ b)) = zlen (buffer_ b)) as Hl by (apply zlen_splice; lia).
  rewrite readable_eq by (unfold_wf; lia). cbn [reader_index_ writer_index_].
  decide_test (writer_index_ b - reader_index_ b =? 8 + (writer_index_ b - reader_index_ b) - 8).
  cstep. eexists. split; [reflexivity|]. unfold_wf. split; [lia|]. split; [|lia].
  unfold contents. cbn [buffer_ reader_index_ writer_index_].
  replace (8 + (writer_index_ b - reader_index_ b) - 8) with (zlen data) by lia.
  apply slice_splice_same; lia.
Qed.

(** Room for [len] bytes: the readable bytes stay, and the vector keeps its size when
    its free bytes suffice. *)
Lemma ensure_writable_room len b : wf b → 0 <= len →
  writer_index_ b + len <= kMaxObject ∨ kCheapPrepend + readable_bytes b + len <= zlen (buffer_ b) →
  ∃ b', ensure_writable_bytes len b = Ok b' ∧ wf b' ∧ contents b' = contents b
        ∧ len <= zlen (buffer_ b') - writer_index_ b' ∧ writer_index_ b' <= writer_index_ b
        ∧ (kCheapPrepend + readable_bytes b + len <= zlen (buffer_ b) → zlen (buffer_ b') = zlen (buffer_ b)).
Proof.
  intros Hwf Hlen Hmax. pose proof Hwf as (Hi & Hl). unfold kCheapPrepend in Hi.
  assert (∃ b', (if writable_bytes b <? len then make_space len b else mret b) = Ok b' ∧
            wf b' ∧ contents b' = contents b ∧ len <= zlen (buffer_ b') - writer_index_ b' ∧
            writer_index_ b' <= writer_index_ b ∧
            (kCheapPrepend + readable_bytes b + len <= zlen (buffer_ b) → zlen (buffer_ b') = zlen (buffer_ b)))
    as (b' & He & Hwf' & Hc & Hroom & Hrest).
  { rewrite writable_eq by done. destruct (_ <? len) eqn:E; unbool.
    - destruct (decide (kCheapPrepend + readable_bytes b + len <= zlen (buffer_ b))) as [Hr|Hr].
      + destruct (make_space_shift len b) as (b' & ? & ? & ? & Hz & Hw);
          [done | rewrite readable_eq in * by done; unfold kCheapPrepend in *; lia..|].
        exists b'. rewrite Hz, Hw. rewrite readable_eq in * by done. unfold kCheapPrepend in *.
        split_and!; try done; lia.
      + destruct (make_space_grow len b) as (b' & ? & ? & ? & Hz & Hw); [done|lia..|].
        exists b'. rewrite Hz, Hw. split_and!; try done; lia.
    - exists b. split_and!; try done; lia. }
  unfold ensure_writable_bytes. rewrite He. cstep. rewrite writable_eq by done.
  decide_test (len <=? zlen (buffer_ b') - writer_index_ b'). cstep. eauto 10.
Qed.

Lemma ensure_writable_ok len b : wf b → 0 <= len → writer_index_ b + len <= kMaxObject →
  ∃ b', ensure_writable_bytes len b = Ok b' ∧ wf b' ∧ contents b' = contents b
        ∧ len <= zlen (buffer_ b') - writer_index_ b' ∧ writer_index_ b' <= writer_index_ b
        ∧ (kCheapPrepend + readable_bytes b + len <= zlen (buffer_ b) → zlen (buffer_ b') = zlen (buffer_ b)).
Proof. intros. apply ensure_writable_room; auto. Qed.

(** ** Appending *)

Lemma append_room data b : wf b →
  writer_index_ b + zlen data <= kMaxObject ∨ kCheapPrepend + readable_bytes b + zlen data <= zlen (buffer_ b) →
  ∃ b', append data b = Ok b' ∧ wf b' ∧ contents b' = contents b ++ data
        ∧ writer_index_ b' <= writer_index_ b + zlen data
        ∧ (kCheapPrepend + readable_bytes b + zlen data <= zlen (buffer_ b) →
           zlen (buffer_ b') = zlen (buffer_ b)).
Proof.
  intros Hwf Hmax. pose proof (zlen_nonneg data).
  destruct (ensure_writable_room (zlen data) b) as (b1 & He & Hwf1 & Hc & Hroom & Hw & Hsz); [done..|].
  unfold append. rewrite He. cstep. unfold begin_write. pose proof Hwf1 as Hwf2.
  unfold_wf. rewrite write_range_ok by lia. cstep. rewrite u64_small by lia.
  assert (zlen (splice (writer_index_ b1) data (buffer_ b1)) = zlen (buffer_ b1)) as Hz
    by (apply zlen_splice; lia).
  eexists. split; [reflexivity|]. unfold_wf. split; [lia|]. rewrite Hz.
  split; [|split; [lia|done]].
  rewrite <- Hc. unfold contents. cbn [buffer_ reader_index_ writer_index_].
  rewrite <- slice_splice_extend by lia. f_equal; [lia|]. f_equal. lia.
Qed.

Lemma append_ok data b : wf b → writer_index_ b + zlen data <= kMaxObject →
  ∃ b', append data b = Ok b' ∧ wf b' ∧ contents b' = contents b ++ data
        ∧ writer_index_ b' <= writer_index_ b + zlen data
        ∧ (kCheapPrepend + readable_bytes b + zlen data <= zlen (buffer_ b) →
           zlen (buffer_ b') = zlen (buffer_ b)).
Proof. intros. apply append_room; auto. Qed.

(** An append that does not throw appends. *)
Lemma append_inv data b b' : wf b → zlen data <= kMaxObject → append data b = Ok b' →
  wf b' ∧ contents b' = contents b ++ data.
Proof.
  intros Hwf Hd Ha. pose proof (zlen_nonneg data).
  destruct (decide (writer_index_ b + zlen data <= kMaxObject ∨
                    kCheapPrepend + readable_bytes b + zlen data <= zlen (buffer_ b))) as [Hr|Hr].
  - destruct (append_room data b Hwf Hr) as (b1 & Hb & ? & ? & _). rewrite Ha in Hb. by injection Hb as ->.
  - exfalso. apply Decidable.not_or in Hr as [Hr1 Hr2]. rewrite readable_eq in Hr2 by done.
    revert Ha. pose proof Hwf as (Hi & Hl). unfold kCheapPrepend, kMaxObject in *.
    unfold append, ensure_writable_bytes, make_space, vector_resize, prependable_bytes.
    rewrite !writable_eq by done. decide_test (zlen (buffer_ b) - writer_index_ b <? zlen data).
    unfold kCheapPrepend, kMaxObject. rewrite !u64_small by lia.
    decide_test (zlen (buffer_ b) - writer_index_ b + reader_index_ b <? zlen data + 8).
    decide_test (writer_index_ b + zlen data <=? 2 ^ 63 - 1). discriminate.
Qed.

(** An append only fails when the vector would be larger than any object. *)
Lemma append_safe data b : wf b → zlen data <= kMaxObject → safe wf (append data b).
Proof.
  intros Hwf Hd. destruct (append data b) as [b'|f] eqn:Ha; [by apply (append_inv data b b') in Ha as [? _]|].
  pose proof (zlen_nonneg data). destruct (decide (writer_index_ b + zlen data <= kMaxObject ∨
                    kCheapPrepend + readable_bytes b + zlen data <= zlen (buffer_ b))) as [Hr|Hr].
  - destruct (append_room data b Hwf Hr) as (b1 & Hb & _). congruence.
  - apply Decidable.not_or in Hr as [Hr1 Hr2]. rewrite readable_eq in Hr2 by done.
    revert Ha. pose proof Hwf as (Hi & Hl). unfold kCheapPrepend, kMaxObject in *.
    unfold append, ensure_writable_bytes, make_space, vector_resize, prependable_bytes.
    rewrite !writable_eq by done. decide_test (zlen (buffer_ b) - writer_index_ b <? zlen data).
    unfold kCheapPrepend, kMaxObject. rewrite !u64_small by lia.
    decide_test (zlen (buffer_ b) - writer_index_ b + reader_index_ b <? zlen data + 8).
    decide_test (writer_index_ b + zlen data <=? 2 ^ 63 - 1). by intros [= <-].
Qed.

(** ** Reading from and writing to a descriptor *)

Lemma readv_branch_ok data b extrabuf : wf b → zlen extrabuf = kExtraBuf →
  zlen data <= writable_bytes b + kExtraBuf → writer_index_ b + zlen data <= kMaxObject →
  ∃ b' x', readv_branch (ReadvData data) b extrabuf = Ok (b', x', zlen data) ∧ wf b'
        ∧ contents b' = contents b ++ data ∧ zlen x' = kExtraBuf.
Proof.
  intros Hwf Hx Hd Hmax. pose proof (zlen_nonneg data) as Hd0. pose proof Hwf as Hwf0.
  assert (0 < kExtraBuf) as Hpos by done. unfold readv_branch, begin_write. rewrite writable_eq in * by done. unfold_wf.
  set (wr := zlen (buffer_ b) - writer_index_ b) in *.
  set (d1 := take (Z.to_nat wr) data). set (d2 := drop (Z.to_nat wr) data).
  assert (zlen d1 = Z.min wr (zlen data)) as H1 by (unfold d1; rewrite zlen_take; lia).
  assert (zlen d2 = Z.max 0 (zlen data - wr)) as H2 by (unfold d2; rewrite zlen_drop; lia).
  assert (data = d1 ++ d2) as Hsplit by (symmetry; apply take_drop).
  rewrite write_range_ok by lia. cstep. rewrite write_range_ok by lia. cstep.
  assert (zlen (splice (writer_index_ b) d1 (buffer_ b)) = zlen (buffer_ b)) as Hz1 by (apply zlen_splice; lia).
  assert (zlen (splice 0 d2 extrabuf) = kExtraBuf) as Hz2 by (rewrite zlen_splice; lia).
  assert (∀ w, w = writer_index_ b + zlen d1 →
    let b1 := mk (splice (writer_index_ b) d1 (buffer_ b)) (reader_index_ b) w in
    wf b1 ∧ contents b1 = contents b ++ d1) as Hmid.
  { intros w -> b1. subst b1. split; [unfold_wf; lia|]. unfold contents. cbn [buffer_ reader_index_ writer_index_].
    rewrite <- slice_splice_extend by lia. f_equal; [lia|]. f_equal. lia. }
  destruct (zlen data <=? wr) eqn:E; unbool.
  - rewrite u64_small by lia. do 2 eexists. split; [reflexivity|].
    destruct (Hmid (writer_index_ b + zlen data)) as [Hw Hc]; [lia|].
    split; [done|]. split; [|done]. rewrite Hc, Hsplit.
    replace d2 with (@nil byte); [by rewrite app_nil_r|]. symmetry. apply zlen_nil_inv. lia.
  - rewrite u64_small by lia. rewrite read_range_ok by lia. cstep.
    replace (zlen data - wr) with (zlen d2) by lia. rewrite slice_splice_same by lia.
    destruct (Hmid (writer_index_ b + wr)) as [Hw Hc]; [lia|].
    destruct (append_ok d2 _ Hw) as (b' & -> & Hw' & Hc' & _);
      [cbn [writer_index_]; unfold kMaxObject; lia|].
    cstep. do 2 eexists. split; [reflexivity|]. split; [done|]. split; [|done].
    by rewrite Hc', Hc, Hsplit, (assoc_L (++)).
Qed.

(** The copy into [extrabuf] that follows every [readv]. *)
Lemma scratch_copy b extrabuf (n : Z) : wf b → zlen extrabuf = kExtraBuf →
  (src ← read_range (peek b) (readable_bytes b) (buffer_ b);
   extrabuf ← write_range 0 src extrabuf;
   _ ← write_at (readable_bytes b) x00 extrabuf;
   mret (b, n))
  = if readable_bytes b <? kExtraBuf then Ok (b, n) else Fault OutOfBounds.
Proof.
  intros Hwf Hx. fold (offered b). rewrite offered_ok by done. cstep.
  pose proof (buffer_len b Hwf) as Hl. pose proof (zlen_nonneg (contents b)).
  destruct (readable_bytes b <? kExtraBuf) eqn:E; unbool.
  - rewrite write_range_ok by lia. cstep. rewrite write_at_ok; [done|]. rewrite zlen_splice; lia.
  - destruct (decide (readable_bytes b = kExtraBuf)) as [He|He].
    + rewrite write_range_ok by lia. cstep. unfold write_at. rewrite zlen_splice by lia.
      destruct (0 <=? readable_bytes b); [|done]. by decide_test (readable_bytes b <? zlen extrabuf).
    + by rewrite write_range_oob by lia.
Qed.

Lemma read_fd_data data b : wf b → 0 < writable_bytes b →
  zlen data <= writable_bytes b + kExtraBuf → writer_index_ b + zlen data <= kMaxObject →
  ∃ b', wf b' ∧ contents b' = contents b ++ data ∧
    read_fd (ReadvData data) b =
      if readable_bytes b + zlen data <? kExtraBuf then Ok (b', zlen data) else Fault OutOfBounds.
Proof.
  intros Hwf Hw Hd Hmax. unfold read_fd. decide_test (0 <? writable_bytes b). cstep.
  destruct (readv_branch_ok data b (replicate (Z.to_nat kExtraBuf) x00)) as (b' & x' & -> & Hwf' & Hc & Hx);
    [done | rewrite zlen_replicate; unfold kExtraBuf; lia | done..|].
  cbn [mbind outcome_bind]. rewrite scratch_copy by done. exists b'. split; [done|]. split; [done|].
  rewrite <- (buffer_len b'), <- (buffer_len b) by done. by rewrite Hc, zlen_app.
Qed.

(** End of file and errors leave the buffer as it is. *)
Lemma read_fd_nothing r b : wf b → 0 < writable_bytes b → readable_bytes b < kExtraBuf →
  r = ReadvData [] ∨ (∃ errno, r = ReadvErr errno) →
  read_fd r b = Ok (b, match r with ReadvErr _ => -1 | _ => 0 end).
Proof.
  intros Hwf Hw Hr Hcase. pose proof Hwf as Hwf'. unfold read_fd. decide_test (0 <? writable_bytes b). cstep.
  assert (readv_branch r b (replicate (Z.to_nat kExtraBuf) x00)
          = Ok (b, replicate (Z.to_nat kExtraBuf) x00, match r with ReadvErr _ => -1 | _ => 0 end)) as ->.
  { destruct Hcase as [->|[errno ->]]; [|done]. unfold readv_branch, begin_write. rewrite take_nil, drop_nil.
    change (zlen []) with 0. unfold_wf. rewrite (write_range_ok (writer_index_ b)) by (change (zlen []) with 0; lia). cstep.
    rewrite write_range_ok by (change (zlen []) with 0; rewrite ?zlen_replicate; unfold kExtraBuf; lia). cstep.
    decide_test (0 <=? writable_bytes b). unfold splice. cbn [length app].
    rewrite !Nat.add_0_r, !take_drop, Z.add_0_r, u64_small by lia. by destruct b. }
  cbn [mbind outcome_bind]. rewrite scratch_copy; [|done | rewrite zlen_replicate; unfold kExtraBuf; lia].
  by decide_test (readable_bytes b <? kExtraBuf).
Qed.

Lemma write_fd_ok n b : wf b → 0 <= n <= readable_bytes b →
  ∃ b', write_fd (SysOk n) b = Ok (b', n) ∧ wf b'
        ∧ contents b = take (Z.to_nat n) (contents b) ++ contents b'
        ∧ zlen (buffer_ b') = zlen (buffer_ b) ∧ writer_index_ b' <= writer_index_ b.
Proof.
  intros Hwf Hn. unfold write_fd. rewrite offered_ok by done. cstep.
  destruct (retrieve_ok n b Hwf Hn) as (b' & -> & ? & Hc & Hb & ?). cstep.
  exists b'. split; [done|]. split; [done|]. rewrite Hc, Hb. by rewrite take_drop.
Qed.

Lemma write_fd_err e b : wf b → write_fd (SysErr e) b = Ok (b, -1).
Proof. intros Hwf. unfold write_fd. by rewrite offered_ok. Qed.

(** ** The buffer as a byte queue *)

(** A concrete result agrees with the abstract one, failures included. *)
Definition agrees {X} (m : outcome (t * X)) (s : outcome (list byte * X)) : Prop :=
  match m with
  | Ok (b, x) => wf b ∧ s = Ok (contents b, x)
  | Fault f => s = Fault f
  end.

Lemma retrieve_all_wf b : wf b → wf (retrieve_all b).
Proof. unfold retrieve_all. unfold_wf. lia. Qed.

(** The constructor, for every size the vector can have. *)
Lemma ctor_ok n : 0 <= n → kCheapPrepend + n <= kMaxObject →
  ∃ b, ctor n = Ok b ∧ wf b ∧ contents b = [] ∧ writable_bytes b = n ∧ writer_index_ b = kCheapPrepend.
Proof.
  intros Hn Hmax. unfold ctor. unfold kCheapPrepend, kMaxObject in *. rewrite u64_small by lia.
  destruct (vector_resize_grow (8 + n) []) as (v & -> & Hv & _); [unfold kMaxObject; rewrite zlen_nil; lia|].
  cstep. set (b := mk v 8 8). assert (wf b) as Hwf by (unfold b; unfold_wf; lia).
  rewrite readable_eq, writable_eq by done. unfold prependable_bytes. cbn [b reader_index_ writer_index_ buffer_].
  decide_test (8 - 8 =? 0). decide_test (zlen v - 8 =? n). decide_test (8 =? 8). cstep.
  exists b. split_and!; try done. rewrite writable_eq by done. cbn. lia.
Qed.

Lemma exec_agrees o b : wf b → op_ok o → writer_index_ b + growth o <= kMaxObject →
  agrees (exec o b) (spec_exec o (contents b)) ∧
  ∀ b' s, exec o b = Ok (b', s) → writer_index_ b' <= writer_index_ b + growth o.
Proof.
  intros Hwf Hop Hmax. pose proof Hwf as (Hi & _). unfold kCheapPrepend in Hi.
  destruct o as [data|len| |len|len]; cbn [exec spec_exec growth op_ok] in *;
    rewrite ?(buffer_len b) by done.
  - destruct (append_ok data b) as (b' & -> & ? & <- & ? & _); [done..|]. cstep.
    split; [done|]. intros ?? [= <- <-]. lia.
  - destruct (len <=? readable_bytes b) eqn:E; unbool.
    + destruct (retrieve_ok len b) as (b' & -> & ? & <- & ? & ?); [done|lia|]. cstep.
      split; [done|]. intros ?? [= <- <-]. lia.
    + by rewrite retrieve_too_much by lia.
  - cstep. split; [|intros ?? [= <- <-]; cbn; unfold kCheapPrepend; lia].
    split; [by apply retrieve_all_wf | done].
  - destruct (len <=? readable_bytes b) eqn:E; unbool.
    + destruct (retrieve_as_string_ok len b) as (b' & -> & ? & <- & ? & ?); [done|lia|]. cstep.
      split; [done|]. intros ?? [= <- <-]. lia.
    + unfold retrieve_as_string. by decide_test (len <=? readable_bytes b).
  - destruct (ensure_writable_ok len b) as (b' & -> & ? & <- & ? & ? & _); [done..|]. cstep.
    split; [done|]. intros ?? [= <- <-]. lia.
Qed.

Lemma total_growth_nonneg os : Forall op_ok os → 0 <= total_growth os.
Proof.
  induction 1 as [|o os Ho _ IH]; cbn [total_growth]; [done|].
  destruct o as [data| | | |]; cbn in *; try lia. pose proof (zlen_nonneg data). lia.
Qed.

Lemma buffer_run_agrees os b out : wf b → Forall op_ok os →
  writer_index_ b + total_growth os <= kMaxObject →
  agrees (run os b out) (spec_run os (contents b) out).
Proof.
  revert b out. induction os as [|o os IH]; intros b out Hwf Hok Hmax; cbn [run spec_run].
  { done. }
  inversion Hok as [|?? Ho Hos]; subst. cbn [total_growth] in Hmax.
  pose proof (total_growth_nonneg os Hos).
  destruct (exec_agrees o b) as [Ha Hg]; [done|done|lia|].
  destruct (exec o b) as [[b' s]|f]; cbn in Ha.
  - destruct Ha as [Hwf' ->]. cstep. apply IH; [done|done|].
    specialize (Hg b' s eq_refl). lia.
  - by rewrite Ha.
Qed.

(** C13. Any sequence of appends, retrievals and capacity requests on a fresh buffer
    behaves as the byte queue it stands for, whatever moving and growing happens
    underneath: the same strings come out, the same calls fail their assertion, and
    the index invariant holds.  The bound says the vector cannot exceed [max_size()]. *)
Theorem buffer_refines_byte_queue (n : Z) (os : list op) (b0 : t) :
  0 <= n → kCheapPrepend + n <= kMaxObject → ctor n = Ok b0 → Forall op_ok os →
  kCheapPrepend + total_growth os <= kMaxObject →
  agrees (run os b0 []) (spec_run os [] []).
Proof.
  intros Hn Hmax Hc Hok Hg. destruct (ctor_ok n Hn Hmax) as (b & Hb & Hwf & He & _ & Hw).
  rewrite Hb in Hc. injection Hc as <-. rewrite <- He. apply buffer_run_agrees; [done|done|]. by rewrite Hw.
Qed.

(** What is appended is read back: after [append] the whole content comes out of
    [retrieve_all_as_string] in order, the buffer is left empty with both indices back
    at the cheap-prepend offset, and the vector was reallocated only if its free bytes
    did not suffice. *)
Theorem buffer_append_retrieve_roundtrip (data : list byte) b :
  wf b → writer_index_ b + zlen data <= kMaxObject →
  ∃ b' b'', append data b = Ok b' ∧
    retrieve_all_as_string b' = Ok (contents b ++ data, b'') ∧
    contents b'' = [] ∧ reader_index_ b'' = kCheapPrepend ∧ writer_index_ b'' = kCheapPrepend ∧
    (kCheapPrepend + readable_bytes b + zlen data <= zlen (buffer_ b) →
     zlen (buffer_ b'') = zlen (buffer_ b)).
Proof.
  intros Hwf Hmax. destruct (append_ok data b Hwf Hmax) as (b' & Ha & Hwf' & Hc & _ & Hsz).
  exists b', (retrieve_all b'). split; [done|]. unfold retrieve_all_as_string, retrieve_as_string.
  decide_test (readable_bytes b' <=? readable_bytes b'). cstep.
  fold (offered b'). rewrite offered_ok by done. cstep. unfold retrieve.
  decide_test (readable_bytes b' <=? readable_bytes b').
  decide_test (readable_bytes b' <? readable_bytes b'). cstep. by rewrite Hc.
Qed.

(** C32. [read_fd] with writable space, when the readable bytes stay below the size of the
    scratch array, appends exactly the bytes [readv] delivered, whether they fit the
    writable space or spill into [extrabuf], and returns their number. *)
Theorem read_fd_delivers (data : list byte) b :
  wf b → 0 < writable_bytes b → zlen data <= writable_bytes b + kExtraBuf →
  writer_index_ b + zlen data <= kMaxObject → readable_bytes b + zlen data < kExtraBuf →
  ∃ b', read_fd (ReadvData data) b = Ok (b', zlen data) ∧ wf b' ∧ contents b' = contents b ++ data.
Proof.
  intros Hwf Hw Hd Hmax Hs. destruct (read_fd_data data b) as (b' & ? & ? & ->); [done..|].
  decide_test (readable_bytes b + zlen data <? kExtraBuf). eauto.
Qed.

(** [read_fd] overruns its 65536-byte stack array as soon as 65536 bytes are readable
    after the [readv]: the final [memcpy] and the terminator it stores write past it. *)
Theorem read_fd_overruns_extrabuf (data : list byte) b :
  wf b → 0 < writable_bytes b → zlen data <= writable_bytes b + kExtraBuf →
  writer_index_ b + zlen data <= kMaxObject → kExtraBuf <= readable_bytes b + zlen data →
  read_fd (ReadvData data) b = Fault OutOfBounds.
Proof.
  intros Hwf Hw Hd Hmax Hs. destruct (read_fd_data data b) as (b' & ? & ? & ->); [done..|].
  by decide_test (readable_bytes b + zlen data <? kExtraBuf).
Qed.

(** [read_fd] fails its assertion on a buffer with no writable byte left, which is
    what an [append] that had to grow the vector leaves behind: it grows to exactly the
    bytes asked for. *)
Theorem read_fd_after_growth_aborts (data : list byte) (r : readv_result) b :
  wf b → writer_index_ b + zlen data <= kMaxObject → 0 < zlen data →
  zlen (buffer_ b) < kCheapPrepend + readable_bytes b + zlen data →
  ∃ b', append data b = Ok b' ∧ contents b' = contents b ++ data ∧
        read_fd r b' = Fault AssertFailed.
Proof.
  intros Hwf Hmax Hpos Hno. destruct (append_ok data b Hwf Hmax) as (b' & Ha & Hwf' & Hc & _).
  exists b'. split; [done|]. split; [done|].
  enough (writable_bytes b' = 0) as Hz by (unfold read_fd; by rewrite Hz).
  revert Ha. unfold append, ensure_writable_bytes. rewrite writable_eq by done.
  assert (zlen (buffer_ b) - writer_index_ b < zlen data) as Hlt.
  { rewrite readable_eq in Hno by done. unfold_wf. lia. }
  decide_test (zlen (buffer_ b) - writer_index_ b <? zlen data).
  destruct (make_space_grow (zlen data) b) as (b1 & -> & Hwf1 & _ & Hz & Hw); [done|lia..|].
  cstep. rewrite writable_eq by done. rewrite Hz, Hw.
  decide_test (zlen data <=? writer_index_ b + zlen data - writer_index_ b). cstep.
  unfold begin_write. rewrite Hw. pose proof Hwf as Hwf2. unfold_wf.
  rewrite write_range_ok by lia. cstep. intros [= <-]. unfold writable_bytes. cbn [buffer_ writer_index_].
  rewrite zlen_splice by lia. rewrite Hz, (u64_small (writer_index_ b + zlen data)) by lia.
  by rewrite Z.sub_diag.
Qed.

(** [write_fd] removes from the buffer exactly the prefix the kernel accepted, and
    nothing when the write failed. *)
Theorem write_fd_drains (r : sysret) b :
  wf b → (∀ n, r = SysOk n → 0 <= n <= readable_bytes b) →
  ∃ b' n, write_fd r b = Ok (b', n) ∧ wf b' ∧
    match r with
    | SysOk k => n = k ∧ contents b = take (Z.to_nat k) (contents b) ++ contents b'
    | SysErr _ => n = -1 ∧ b' = b
    end.
Proof.
  intros Hwf Hn. destruct r as [k|e].
  - destruct (write_fd_ok k b Hwf (Hn k eq_refl)) as (b' & -> & ? & ? & _). eauto 10.
  - rewrite write_fd_err by done. eauto 10.
Qed.

(** A moved-from buffer must not be appended to: its vector is empty while the
    writer index is 8, so [writable_bytes] wraps to 2^64 - 8 and [append] writes behind
    the (null) storage for every length up to that bound. *)
Theorem moved_from_append_out_of_bounds (data : list byte) b oth b' :
  move_ctor oth = (b, b') → 0 < zlen data < 2 ^ 64 - 8 →
  writable_bytes b' = 2 ^ 64 - 8 ∧ append data b' = Fault OutOfBounds.
Proof.
  intros [= <- <-] Hd. set (m := mk [] kCheapPrepend kCheapPrepend).
  assert (writable_bytes m = 2 ^ 64 - 8) as Hw by reflexivity.
  split; [done|]. unfold append, ensure_writable_bytes. rewrite Hw.
  decide_test (2 ^ 64 - 8 <? zlen data). cstep. rewrite Hw.
  decide_test (zlen data <=? 2 ^ 64 - 8). cstep.
  rewrite write_range_oob; [done|]. cbn. unfold kCheapPrepend. rewrite zlen_nil. lia.
Qed.

(** ** Concrete uses *)

(** A buffer of 4 writable bytes holding one readable byte, as [ctor 4] and an append make it. *)
Definition small : t :=
  mk (replicate 8 x00 ++ [x41; x00; x00; x00]) 8 9.

Lemma small_wf : wf small.
Proof. unfold wf, small, kCheapPrepend, kMaxObject. cbn. unfold zlen. cbn. lia. Qed.

Lemma buffer_refines_byte_queue_witness :
  let os := [OpAppend [x41; x42]; OpRetrieve 1; OpAppend [x43; x44; x45; x46]; OpRetrieveAsString 9] in
  let b0 := mk (replicate 12 x00) 8 8 in
  agrees (run os b0 []) (spec_run os [] []).
Proof.
  cbv zeta. eapply (buffer_refines_byte_queue 4); [lia | unfold kCheapPrepend, kMaxObject; lia | reflexivity | |].
  - repeat constructor; cbn; lia.
  - vm_compute. discriminate.
Defined.

Lemma buffer_append_retrieve_roundtrip_witness :
  ∃ b' b'', append [x42; x43] small = Ok b' ∧
    retrieve_all_as_string b' = Ok (contents small ++ [x42; x43], b'') ∧
    contents b'' = [] ∧ reader_index_ b'' = kCheapPrepend ∧ writer_index_ b'' = kCheapPrepend ∧
    (kCheapPrepend + readable_bytes small + zlen [x42; x43] <= zlen (buffer_ small) →
     zlen (buffer_ b'') = zlen (buffer_ small)).
Proof.
  apply (buffer_append_retrieve_roundtrip [x42; x43] small small_wf).
  unfold zlen, kMaxObject. cbn. lia.
Defined.

Lemma read_fd_delivers_witness :
  ∃ b', read_fd (ReadvData [x42; x43; x44; x45; x46]) small = Ok (b', 5) ∧ wf b' ∧
        contents b' = contents small ++ [x42; x43; x44; x45; x46].
Proof.
  apply (read_fd_delivers [x42; x43; x44; x45; x46] small small_wf).
  - reflexivity.
  - vm_compute. discriminate.
  - vm_compute. discriminate.
  - reflexivity.
Defined.

Lemma read_fd_overruns_extrabuf_witness :
  read_fd (ReadvData (replicate (Z.to_nat 65535) x41)) small = Fault OutOfBounds.
Proof.
  apply (read_fd_overruns_extrabuf (replicate (Z.to_nat 65535) x41) small small_wf).
  - reflexivity.
  - rewrite zlen_replicate, Z2Nat.id by lia. vm_compute. discriminate.
  - rewrite zlen_replicate, Z2Nat.id by lia. vm_compute. discriminate.
  - rewrite zlen_replicate, Z2Nat.id by lia. vm_compute. discriminate.
Defined.

Lemma read_fd_after_growth_aborts_witness :
  ∃ b', append [x42; x43; x44; x45] small = Ok b' ∧
        contents b' = contents small ++ [x42; x43; x44; x45] ∧
        read_fd (ReadvData [x46]) b' = Fault AssertFailed.
Proof.
  apply (read_fd_after_growth_aborts [x42; x43; x44; x45] (ReadvData [x46]) small small_wf).
  - vm_compute. discriminate.
  - reflexivity.
  - reflexivity.
Defined.

Lemma write_fd_drains_witness :
  ∃ b' n, write_fd (SysOk 1) small = Ok (b', n) ∧ wf b' ∧
    (n = 1 ∧ contents small = take (Z.to_nat 1) (contents small) ++ contents b').
Proof.
  apply (write_fd_drains (SysOk 1) small small_wf).
  intros n [= <-]. vm_compute. split; discriminate.
Defined.

Lemma moved_from_append_out_of_bounds_witness :
  let b' := mk [] kCheapPrepend kCheapPrepend in
  writable_bytes b' = 2 ^ 64 - 8 ∧ append [x41] b' = Fault OutOfBounds.
Proof.
  apply (moved_from_append_out_of_bounds [x41] small small (mk [] kCheapPrepend kCheapPrepend)).
  - reflexivity.
  - cbn. unfold zlen. cbn. lia.
Defined.
End Buffer.
