(* ===== verification/FixedBuf.v ===== *)
(** * [container::FixedBuffer] (clia/container/fixed_buffer.h)

    The fixed-size array with a write cursor that the log streams and the
    asynchronous logger are made of.  The cursor [cur_] is an offset into [data_];
    the contents of [data_] are whatever the storage held before. *)

From S2P Require Import Prelude.

Module FixedBuffer.

Record t (Tp : Type) := mk {
  data_ : list Tp;
  cur_ : Z
}.

Arguments mk {Tp}.
Arguments data_ {Tp}.
Arguments cur_ {Tp}.

Section Operations.
Context {Tp : Type}.
(** The template argument [Nm]. *)
Variable Nm : Z.
Implicit Types (b : t Tp) (value : Tp) (values : list Tp).

Definition reset b : t Tp := mk (data_ b) 0.

(** [storage] is the uninitialised array. *)
Definition ctor (storage : list Tp) : t Tp := reset (mk storage 0).

Definition size b : Z := cur_ b.

Definition max_size : Z := Nm.

Definition avail b : Z := Nm - cur_ b.

Definition current b : Z := cur_ b.

(** [avail()] is an [int]: the comparison with the [size_t] converts it. *)
Definition add (len : Z) b : outcome (t Tp) :=
  _ ← cassert (len <? u64 (avail b));
  mret (mk (data_ b) (cur_ b + len)).

Definition append1 value b : outcome (t Tp) :=
  _ ← cassert (0 <? avail b);
  d ← write_at (current b) value (data_ b);
  add 1 (mk d (cur_ b)).

(** The element-by-element loop of the branch for class types. *)
Fixpoint append_loop values b : outcome (t Tp) :=
  match values with
  | [] => mret b
  | v :: values => b' ← append1 v b; append_loop values b'
  end.

(** [arith] is [std::is_arithmetic<Tp>::value]. *)
Definition append (arith : bool) values b : outcome (t Tp) :=
  let len := zlen values in
  _ ← cassert (len <? u64 (avail b));
  if arith then
    d ← write_range (current b) values (data_ b);
    add len (mk d (cur_ b))
  else append_loop values b.

(** Representation invariant: the cursor stays inside the array, and the assertion of
    [add] keeps it off its end, so the last cell is never used. *)
Definition wf b : Prop := zlen (data_ b) = Nm ∧ 0 <= cur_ b < Nm ∧ Nm < 2 ^ 31.

(** What was written so far. *)
Definition contents b : list Tp := slice 0 (cur_ b) (data_ b).

(** Uses of the buffer, and the bounded sequence they stand for. *)
Inductive op := Append1 (v : Tp) | Append (vs : list Tp) | Reset.

Definition exec (arith : bool) (o : op) b : outcome (t Tp) :=
  match o with
  | Append1 v => append1 v b
  | Append vs => append arith vs b
  | Reset => mret (reset b)
  end.

Definition spec_exec (o : op) (q : list Tp) : outcome (list Tp) :=
  match o with
  | Append1 v => if zlen q + 1 <? Nm then mret (q ++ [v]) else Fault AssertFailed
  | Append vs => if zlen q + zlen vs <? Nm then mret (q ++ vs) else Fault AssertFailed
  | Reset => mret []
  end.

Fixpoint run (arith : bool) (os : list op) b : outcome (t Tp) :=
  match os with
  | [] => mret b
  | o :: os => b' ← exec arith o b; run arith os b'
  end.

Fixpoint spec_run (os : list op) (q : list Tp) : outcome (list Tp) :=
  match os with
  | [] => mret q
  | o :: os => q' ← spec_exec o q; spec_run os q'
  end.

Definition agrees (m : outcome (t Tp)) (s : outcome (list Tp)) : Prop :=
  match m with
  | Ok b => wf b ∧ s = Ok (contents b)
  | Fault f => s = Fault f
  end.
End Operations.

Arguments op : clear implicits.

Section Proofs.
Context {Tp : Type} (Nm : Z).
Implicit Types (b : t Tp) (values : list Tp).

Ltac unfold_wf := unfold wf, avail, size, current in *; cbn [data_ cur_] in *.

Lemma fixed_ctor_wf (storage : list Tp) : 0 < Nm < 2 ^ 31 → zlen storage = Nm → wf Nm (ctor storage).
Proof. intros. unfold ctor, reset. unfold_wf. lia. Qed.

Lemma fixed_len b : wf Nm b → zlen (contents b) = cur_ b.
Proof. intros. unfold contents. unfold_wf. apply zlen_slice; lia. Qed.

Lemma fixed_reset_ok b : wf Nm b → wf Nm (reset b) ∧ contents (reset b) = [].
Proof. intros. unfold reset. unfold_wf. split; [lia | done]. Qed.

(** Writing values at the cursor and then advancing it. *)
Lemma write_add_ok values b : wf Nm b → cur_ b + zlen values < Nm →
  ∃ b', (d ← write_range (current b) values (data_ b); add Nm (zlen values) (mk d (cur_ b))) = Ok b'
        ∧ wf Nm b' ∧ contents b' = contents b ++ values ∧ cur_ b' = cur_ b + zlen values.
Proof.
  intros Hwf Hlt. pose proof (zlen_nonneg values). unfold_wf.
  rewrite write_range_ok by lia. cstep. unfold add. unfold_wf. rewrite u64_small by lia.
  decide_test (zlen values <? Nm - cur_ b). cstep. eexists. split; [reflexivity|].
  cbn [cur_ data_]. rewrite zlen_splice by lia. split; [lia|]. split; [|done].
  unfold contents. cbn [cur_ data_].
  rewrite <- (slice_splice_extend 0 (cur_ b)) by lia. done.
Qed.

Lemma append1_write b v : wf Nm b →
  append1 Nm v b = (_ ← cassert (0 <? avail Nm b);
                    d ← write_range (current b) [v] (data_ b); add Nm 1 (mk d (cur_ b))).
Proof.
  intros Hwf. unfold append1. destruct (cassert _); [|done]. cstep.
  unfold_wf. rewrite write_at_ok, write_range_ok by (rewrite ?zlen_cons, ?zlen_nil; lia). cstep.
  unfold splice. rewrite insert_take_drop by (unfold zlen in *; lia). cbn [length app].
  by rewrite Nat.add_1_r.
Qed.

Lemma append1_agrees b v : wf Nm b → agrees Nm (append1 Nm v b) (spec_exec Nm (Append1 v) (contents b)).
Proof.
  intros Hwf. cbn [spec_exec]. rewrite append1_write, fixed_len by done.
  destruct (cur_ b + 1 <? Nm) eqn:E; unbool.
  - assert ((0 <? avail Nm b) = true) as -> by (apply Z.ltb_lt; unfold_wf; lia). cstep.
    destruct (write_add_ok [v] b Hwf) as (b' & Hb & ? & Hc & _).
    { rewrite zlen_cons, zlen_nil. lia. }
    rewrite zlen_cons, zlen_nil, Z.add_0_r in Hb. rewrite Hb. split; [done|]. by rewrite Hc.
  - destruct (0 <? avail Nm b); [cstep | done].
    unfold_wf. rewrite write_range_ok by (rewrite ?zlen_cons, ?zlen_nil; lia). cstep.
    unfold add. unfold_wf. rewrite u64_small by lia. by decide_test (1 <? Nm - cur_ b).
Qed.

Lemma append_loop_ok values b : wf Nm b → cur_ b + zlen values < Nm →
  ∃ b', append_loop Nm values b = Ok b' ∧ wf Nm b' ∧ contents b' = contents b ++ values.
Proof.
  revert b. induction values as [|v values IH]; intros b Hwf Hlt; cbn [append_loop].
  - exists b. by rewrite app_nil_r.
  - rewrite zlen_cons in Hlt. pose proof (zlen_nonneg values).
    pose proof (append1_agrees b v Hwf) as Ha. cbn [spec_exec] in Ha. rewrite fixed_len in Ha by done.
    revert Ha. decide_test (cur_ b + 1 <? Nm).
    destruct (append1 Nm v b) as [b1|]; [|done]. intros [Hwf1 Hc]. injection Hc as Hc. cstep.
    destruct (IH b1 Hwf1) as (b' & ? & ? & ?).
    { rewrite <- (fixed_len b1), <- Hc, zlen_app, fixed_len, zlen_cons, zlen_nil by done. lia. }
    exists b'. split; [done|]. split; [done|]. rewrite <- Hc, <- (assoc_L (++)) in *. done.
Qed.

Lemma append_agrees arith values b : wf Nm b →
  agrees Nm (append Nm arith values b) (spec_exec Nm (Append values) (contents b)).
Proof.
  intros Hwf. cbn [spec_exec]. rewrite fixed_len by done. pose proof (zlen_nonneg values).
  unfold append. assert (u64 (avail Nm b) = Nm - cur_ b) as -> by (unfold_wf; apply u64_small; lia).
  destruct (cur_ b + zlen values <? Nm) eqn:E; unbool.
  - decide_test (zlen values <? Nm - cur_ b). cstep. destruct arith.
    + destruct (write_add_ok values b Hwf E) as (b' & -> & ? & Hc & _). by rewrite <- Hc.
    + destruct (append_loop_ok values b Hwf E) as (b' & -> & ? & Hc). by rewrite <- Hc.
  - by decide_test (zlen values <? Nm - cur_ b).
Qed.

Lemma fixed_run_agrees arith os b : wf Nm b →
  agrees Nm (run Nm arith os b) (spec_run Nm os (contents b)).
Proof.
  revert b. induction os as [|o os IH]; intros b Hwf; cbn [run spec_run]; [done|].
  assert (agrees Nm (exec Nm arith o b) (spec_exec Nm o (contents b))) as Ha.
  { destruct o as [v|vs|]; cbn [exec];
      [by apply append1_agrees | by apply append_agrees |].
    destruct (fixed_reset_ok b Hwf) as [? Hc]. cbn. by rewrite Hc. }
  destruct (exec Nm arith o b) as [b'|f].
  - destruct Ha as [Hwf' ->]. cstep. by apply IH.
  - cbn in Ha. by rewrite Ha.
Qed.

(** C30. Any sequence of appends and resets on a [FixedBuffer] behaves as a bounded
    sequence of at most [Nm - 1] elements: within the bound the elements are stored in
    order, one element beyond it fails an assertion, and the cursor never leaves the
    array. *)
Theorem fixed_buffer_refines_bounded_sequence (arith : bool) (storage : list Tp) (os : list (op Tp)) :
  0 < Nm < 2 ^ 31 → zlen storage = Nm →
  agrees Nm (run Nm arith os (ctor storage)) (spec_run Nm os []).
Proof. intros HN Hs. apply (fixed_run_agrees arith os (ctor storage)). by apply fixed_ctor_wf. Qed.

(** The block copy used for arithmetic element types and the element loop used for
    the others append the same elements, or fail the same assertion. *)
Theorem append_copy_equals_loop (values : list Tp) b :
  wf Nm b →
  match append Nm true values b, append Nm false values b with
  | Ok b1, Ok b2 => contents b1 = contents b2 ∧ cur_ b1 = cur_ b2
  | Fault f1, Fault f2 => f1 = f2
  | _, _ => False
  end.
Proof.
  intros Hwf. pose proof (append_agrees true values b Hwf) as H1.
  pose proof (append_agrees false values b Hwf) as H2.
  destruct (append Nm true values b) as [b1|f1], (append Nm false values b) as [b2|f2];
    unfold agrees in H1, H2; destruct_and?; try congruence.
  assert (contents b1 = contents b2) as Hc by congruence.
  split; [done|]. rewrite <- !fixed_len by done. by rewrite Hc.
Qed.
End Proofs.

Lemma fixed_buffer_refines_bounded_sequence_witness :
  agrees 4 (run 4 true [Append [1; 2]; Append1 3; Reset; Append [5; 6; 7; 8]] (ctor [0; 0; 0; 0]))
         (spec_run 4 [Append [1; 2]; Append1 3; Reset; Append [5; 6; 7; 8]] []).
Proof.
  apply (fixed_buffer_refines_bounded_sequence 4 true [0; 0; 0; 0]
           [Append [1; 2]; Append1 3; Reset; Append [5; 6; 7; 8]]).
  - lia.
  - reflexivity.
Defined.

Lemma append_copy_equals_loop_witness :
  let b := mk [9; 0; 0; 0] 1 in
  match append 4 true [1; 2] b, append 4 false [1; 2] b with
  | Ok b1, Ok b2 => contents b1 = contents b2 ∧ cur_ b1 = cur_ b2
  | Fault f1, Fault f2 => f1 = f2
  | _, _ => False
  end.
Proof.
  apply (append_copy_equals_loop 4 [1; 2] (mk [9; 0; 0; 0] 1)).
  unfold wf, zlen. cbn. lia.
Defined.
End FixedBuffer.
