(* ===== verification/StrFunc.v ===== *)
(** * [util::str_func::convert] (clia/util/str_func.h)

    The integer-to-text routine of the log streams: it writes the digits from the
    least significant one, then the sign, a NUL, and reverses the text in place.
    [outbuf] is the memory from the output pointer on; an integer of any type of the
    language is its value, so [%] and [/] are the truncating operations. *)

From Stdlib Require Import Zquot.
From S2P Require Import Prelude.

Definition kDigits : list byte := chars "0123456789" ++ [x00].

(** The [do ... while] loop; [p] is the offset of the output pointer. *)
Fixpoint convert_loop (fuel : nat) (i p : Z) (outbuf : list byte) : outcome (list byte * Z) :=
  match fuel with
  | O => Fault OutOfFuel
  | S fuel =>
      let lsd := Z.rem i 10 in
      c ← read_at lsd kDigits;
      outbuf ← write_at p c outbuf;
      let i := Z.quot i 10 in
      if negb (i =? 0) then convert_loop fuel i (p + 1) outbuf
      else mret (outbuf, p + 1)
  end.

(** A 64-bit integer has at most 20 decimal digits. *)
Definition kMaxDigits : nat := 20.

Definition convert (outbuf : list byte) (size value : Z) : outcome (list byte * Z) :=
  if size <? 32 then mret (outbuf, 0)
  else
    '(outbuf, p) ← convert_loop kMaxDigits value 0 outbuf;
    '(outbuf, p) ← (if value <? 0
                    then outbuf ← write_at p x2d outbuf; mret (outbuf, p + 1)
                    else mret (outbuf, p));
    outbuf ← write_at p x00 outbuf;
    text ← read_range 0 p outbuf;
    outbuf ← write_range 0 (rev text) outbuf;
    mret (outbuf, p).

(** ** Decimal notation *)

Definition digit_char (d : Z) : byte := nth (Z.to_nat d) kDigits x00.

Definition digit_value (c : byte) : Z := Z.of_N (Byte.to_N c) - 48.

Definition is_digit (c : byte) : bool := (0 <=? digit_value c) && (digit_value c <=? 9).

(** The number a digit string denotes. *)
Definition dec_value (ds : list byte) : Z :=
  fold_left (λ acc c, 10 * acc + digit_value c) ds 0.

(** The digits of [i], least significant first. *)
Fixpoint rdigits (fuel : nat) (i : Z) : list byte :=
  match fuel with
  | O => []
  | S fuel => digit_char (i mod 10) :: (if i / 10 =? 0 then [] else rdigits fuel (i / 10))
  end.

Definition decimal (value : Z) : list byte := rev (rdigits kMaxDigits value).

(** ** Digits *)

Lemma kDigits_read d : 0 <= d < 10 → read_at d kDigits = Ok (digit_char d).
Proof.
  intros Hd. assert (d ∈ seqZ 0 10) as Hin by (apply elem_of_seqZ; lia).
  revert d Hd Hin. cut (Forall (λ d, read_at d kDigits = Ok (digit_char d)) (seqZ 0 10)).
  - intros HF d _ Hin. by apply (proj1 (Forall_forall _ _) HF).
  - vm_compute. repeat constructor.
Qed.

Lemma digit_char_value d : 0 <= d < 10 → digit_value (digit_char d) = d.
Proof.
  intros Hd. assert (d ∈ seqZ 0 10) as Hin by (apply elem_of_seqZ; lia).
  revert d Hd Hin. cut (Forall (λ d, digit_value (digit_char d) = d) (seqZ 0 10)).
  - intros HF d _ Hin. by apply (proj1 (Forall_forall _ _) HF).
  - vm_compute. repeat constructor.
Qed.

Lemma digit_char_is_digit d : 0 <= d < 10 → is_digit (digit_char d) = true.
Proof.
  intros Hd. unfold is_digit. rewrite digit_char_value by done.
  apply andb_true_iff. rewrite !Z.leb_le. lia.
Qed.

Lemma div_lt_pow f i : 0 <= i < 10 ^ Z.of_nat (S f) → 0 <= i / 10 < 10 ^ Z.of_nat f.
Proof.
  intros Hi. rewrite Nat2Z.inj_succ, Z.pow_succ_r in Hi by lia. split.
  - apply Z.div_pos; lia.
  - apply Z.div_lt_upper_bound; lia.
Qed.

Lemma rdigits_len f i : zlen (rdigits f i) <= Z.of_nat f.
Proof.
  revert i. induction f as [|f IH]; intros i; cbn [rdigits]; [done|].
  rewrite zlen_cons. destruct (_ =? 0); [rewrite zlen_nil; lia|]. specialize (IH (i / 10)). lia.
Qed.

Lemma rdigits_digits f i : Forall (λ c, is_digit c = true) (rdigits f i).
Proof.
  revert i. induction f as [|f IH]; intros i; cbn [rdigits]; [constructor|].
  constructor.
  - apply digit_char_is_digit. by apply Z.mod_pos_bound.
  - destruct (_ =? 0); [constructor | apply IH].
Qed.

Lemma dec_value_snoc ds c : dec_value (ds ++ [c]) = 10 * dec_value ds + digit_value c.
Proof. unfold dec_value. by rewrite fold_left_app. Qed.

Lemma rdigits_value f i : 0 <= i < 10 ^ Z.of_nat f → dec_value (rev (rdigits f i)) = i.
Proof.
  revert i. induction f as [|f IH]; intros i Hi; cbn [rdigits rev].
  - cbn in *. lia.
  - rewrite dec_value_snoc, digit_char_value by (by apply Z.mod_pos_bound).
    pose proof (Z.div_mod i 10). destruct (i / 10 =? 0) eqn:E; unbool.
    + cbn. lia.
    + rewrite IH by (by apply div_lt_pow). lia.
Qed.

(** A leading zero appears only in the text of zero itself. *)
Lemma rdigits_lead f i : 0 < i < 10 ^ Z.of_nat f →
  ∃ c ds, rev (rdigits f i) = c :: ds ∧ digit_value c ≠ 0.
Proof.
  revert i. induction f as [|f IH]; intros i Hi; [cbn in Hi; lia|]. cbn [rdigits rev].
  pose proof (Z.div_mod i 10). destruct (i / 10 =? 0) eqn:E; unbool.
  - exists (digit_char (i mod 10)), []. split; [done|]. rewrite digit_char_value by (by apply Z.mod_pos_bound).
    lia.
  - destruct (IH (i / 10)) as (c & ds & -> & ?).
    { pose proof (div_lt_pow f i). lia. }
    by exists c, (ds ++ [digit_char (i mod 10)]).
Qed.

Lemma decimal_len value : 0 <= value → 1 <= zlen (decimal value) <= 20.
Proof.
  intros Hv. unfold decimal. pose proof (rdigits_len kMaxDigits value) as Hl.
  unfold zlen in *. rewrite length_rev. unfold kMaxDigits in *. split; [|lia].
  cbn [rdigits length]. lia.
Qed.

(** ** The loop *)

Lemma splice_cons p c (ds out : list byte) : 0 <= p → p + 1 + zlen ds <= zlen out →
  splice (p + 1) ds (<[Z.to_nat p := c]> out) = splice p (c :: ds) out.
Proof.
  intros Hp Hl. unfold splice, zlen in *. replace (Z.to_nat (p + 1)) with (S (Z.to_nat p)) by lia.
  rewrite (take_S_r _ _ c).
  - rewrite take_insert_ge by lia. rewrite <- (assoc_L (++)). cbn [app length].
    do 3 f_equal. rewrite drop_insert_lt by lia. f_equal. lia.
  - apply list_lookup_insert_eq. lia.
Qed.

Lemma convert_loop_ok f i p out : (0 < f)%nat → 0 <= i < 10 ^ Z.of_nat f → 0 <= p →
  p + zlen (rdigits f i) <= zlen out →
  convert_loop f i p out = Ok (splice p (rdigits f i) out, p + zlen (rdigits f i)).
Proof.
  revert i p out. induction f as [|f IH]; intros i p out Hf Hi Hp Hl; [lia|].
  cbn [convert_loop rdigits] in *. rewrite Z.rem_mod_nonneg, Z.quot_div_nonneg by lia.
  rewrite kDigits_read by (by apply Z.mod_pos_bound). cstep.
  rewrite zlen_cons in Hl.
  set (ds := if i / 10 =? 0 then [] else rdigits f (i / 10)) in *.
  pose proof (zlen_nonneg ds). rewrite write_at_ok by lia. cstep.
  rewrite <- splice_cons, zlen_cons by lia. subst ds.
  destruct (i / 10 =? 0) eqn:E; unbool; cstep.
  - f_equal. f_equal. unfold splice. cbn [length app]. rewrite Nat.add_0_r. by rewrite take_drop.
  - rewrite IH.
    + f_equal. f_equal. lia.
    + destruct f; [|lia]. pose proof (div_lt_pow 0 i). cbn in *. lia.
    + by apply div_lt_pow.
    + lia.
    + rewrite zlen_insert. lia.
Qed.

(** A negative number: some digit is looked up at a negative index. *)
Lemma convert_loop_negative f i p out : (0 < f)%nat → - 10 ^ Z.of_nat f < i < 0 →
  convert_loop f i p out = Fault OutOfBounds.
Proof.
  revert i p out. induction f as [|f IH]; intros i p out Hf Hi; [lia|]. cbn [convert_loop].
  pose proof (Zquot.Zrem_lt_neg_pos i 10 ltac:(lia) ltac:(lia)). pose proof (Z.quot_rem' i 10) as Hqr.
  destruct (decide (Z.rem i 10 = 0)) as [Hz|Hz].
  - rewrite Hz, kDigits_read by lia. cstep. unfold write_at. destruct (_ && _); [|done]. cstep.
    decide_test (Z.quot i 10 =? 0). cstep.
    rewrite Nat2Z.inj_succ, Z.pow_succ_r in Hi by lia. apply IH; [|lia].
    destruct f; [|lia]. cbn in Hi. lia.
  - unfold read_at. by decide_test (0 <=? Z.rem i 10).
Qed.

(** ** [convert] *)

Lemma pow_max_digits : 10 ^ Z.of_nat kMaxDigits = 100000000000000000000.
Proof. reflexivity. Qed.

Lemma convert_short outbuf size value : size < 32 → convert outbuf size value = Ok (outbuf, 0).
Proof. intros. unfold convert. by decide_test (size <? 32). Qed.

(** The memory after a successful conversion: the text, its NUL, and the rest untouched. *)
Lemma convert_ok outbuf size value : 32 <= size <= zlen outbuf → 0 <= value < 2 ^ 64 →
  convert outbuf size value
  = Ok (splice 0 (decimal value ++ [x00]) outbuf, zlen (decimal value)).
Proof.
  intros Hs Hv. pose proof (decimal_len value ltac:(lia)) as Hd. unfold convert.
  decide_test (size <? 32). unfold decimal in *. set (ds := rdigits kMaxDigits value) in *.
  assert (zlen (rev ds) = zlen ds) as Hr by (unfold zlen; by rewrite length_rev).
  rewrite Hr in *. rewrite convert_loop_ok; fold ds; [|unfold kMaxDigits; lia | rewrite pow_max_digits; lia | lia | lia].
  cstep. decide_test (value <? 0). cstep.
  rewrite write_at_ok by (rewrite zlen_splice; lia). cstep.
  rewrite insert_splice by lia. rewrite Z.add_0_l.
  assert (zlen (splice 0 (ds ++ [x00]) outbuf) = zlen outbuf) as Hz
    by (apply zlen_splice; [lia | rewrite zlen_app; change (zlen [x00]) with 1; lia]).
  rewrite read_range_ok, slice_splice_front by lia. cstep.
  rewrite write_range_ok, splice_splice_front by (rewrite ?length_rev, ?Hr, ?Hz; lia). done.
Qed.

(** C31. A non-negative integer of at most 64 bits and an output of at least 32 bytes: the
    routine leaves its decimal text, terminated, at the front of the buffer and the
    bytes behind it untouched, and returns its length, between 1 and 20.  The text has
    only digits, no superfluous leading zero, and denotes the value. *)
Theorem convert_writes_decimal (outbuf : list byte) (size value : Z) :
  32 <= size <= zlen outbuf → 0 <= value < 2 ^ 64 →
  ∃ ds, convert outbuf size value = Ok (splice 0 (ds ++ [x00]) outbuf, zlen ds) ∧
    1 <= zlen ds <= 20 ∧ Forall (λ c, is_digit c = true) ds ∧ dec_value ds = value ∧
    (∀ c ds', ds = c :: ds' → digit_value c = 0 → ds' = [] ∧ value = 0).
Proof.
  intros Hs Hv. exists (decimal value). split; [by apply convert_ok|].
  split; [apply decimal_len; lia|]. split; [apply Forall_rev, rdigits_digits|].
  assert (0 <= value < 10 ^ Z.of_nat kMaxDigits) as Hv' by (rewrite pow_max_digits; lia).
  split; [by apply rdigits_value|]. intros c ds' Hc Hz.
  destruct (decide (value = 0)) as [->|Hne]; [by injection Hc as _ <-|].
  destruct (rdigits_lead kMaxDigits value) as (c' & ds'' & Hl & Hnz); [lia|].
  unfold decimal in Hc. rewrite Hl in Hc. by injection Hc as -> ->.
Qed.

(** A negative integer is never converted: the remainder of a negative number is
    negative or zero, so some digit is looked up in front of the digit table. *)
Theorem convert_negative_out_of_bounds (outbuf : list byte) (size value : Z) :
  32 <= size → - 2 ^ 63 <= value < 0 → convert outbuf size value = Fault OutOfBounds.
Proof.
  intros Hs Hv. unfold convert. decide_test (size <? 32).
  rewrite convert_loop_negative; [done | unfold kMaxDigits; lia | rewrite pow_max_digits; lia].
Qed.

Lemma convert_writes_decimal_witness :
  ∃ ds, convert (replicate 32 x2e) 32 407 = Ok (splice 0 (ds ++ [x00]) (replicate 32 x2e), zlen ds) ∧
    1 <= zlen ds <= 20 ∧ Forall (λ c, is_digit c = true) ds ∧ dec_value ds = 407 ∧
    (∀ c ds', ds = c :: ds' → digit_value c = 0 → ds' = [] ∧ 407 = 0).
Proof. apply (convert_writes_decimal (replicate 32 x2e) 32 407); [rewrite zlen_replicate; lia | lia]. Defined.

Lemma convert_negative_out_of_bounds_witness :
  convert (replicate 32 x00) 32 (-1) = Fault OutOfBounds.
Proof. apply (convert_negative_out_of_bounds (replicate 32 x00) 32 (-1)); lia. Defined.
