(* ===== verification/OStream.v ===== *)
(** * [container::FixedOStream] (clia/container/fixed_ostream.h)

    The bounded output stream a log line is built in: a [FixedBuffer] of characters
    and its insertion operators.  The text a [printf] conversion produces (of a
    pointer, a floating-point number, or a caller's format) is given; where it goes
    in the array and what the stream does with its length is modelled. *)

From S2P Require Import Prelude FixedBuf StrFunc.

Module FixedOStream.

Abbreviation stream := (FixedBuffer.t byte).

Section Operations.
(** The template argument [Nm]. *)
Variable Nm : Z.
Implicit Types st : stream.

Definition ctor (storage : list byte) : stream := FixedBuffer.ctor storage.

Definition data st : list byte := FixedBuffer.data_ st.

Definition size st : Z := FixedBuffer.size st.

(** [vsnprintf] at the cursor: at most [avail() - 1] characters and a NUL; it returns the
    length of the whole text, or -1 when the conversion fails ([None]). *)
Definition vsnprintf (text : option (list byte)) st : outcome (stream * Z) :=
  match text with
  | None => mret (st, -1)
  | Some s =>
      d ← write_range (FixedBuffer.current st)
            (take (Z.to_nat (FixedBuffer.avail Nm st - 1)) s ++ [x00]) (FixedBuffer.data_ st);
      mret (FixedBuffer.mk d (FixedBuffer.cur_ st), zlen s)
  end.

(** [format], and the operators for pointers and floating-point numbers: the returned
    [int] becomes the [size_t] argument of [add]. *)
Definition format (text : option (list byte)) st : outcome stream :=
  '(st, n) ← vsnprintf text st;
  FixedBuffer.add Nm (u64 n) st.

Definition kNullStr : list byte := chars "(null)".

(** [operator<<(const char* )]; [None] is the null pointer. *)
Definition put_cstr (str : option (list byte)) st : outcome stream :=
  match str with
  | Some s => FixedBuffer.append Nm true s st
  | None => FixedBuffer.append Nm true kNullStr st
  end.

Definition put_char (val : byte) st : outcome stream := FixedBuffer.append1 Nm val st.

(** The operators for the eight integer types. *)
Definition put_int (val : Z) st : outcome stream :=
  let cur := Z.to_nat (FixedBuffer.current st) in
  '(mem, n) ← convert (drop cur (FixedBuffer.data_ st)) (FixedBuffer.avail Nm st) val;
  FixedBuffer.add Nm n
    (FixedBuffer.mk (take cur (FixedBuffer.data_ st) ++ mem) (FixedBuffer.cur_ st)).

Definition put_string (str : list byte) st : outcome stream := FixedBuffer.append Nm true str st.

(** An insertion. *)
Inductive item :=
| CStr (s : option (list byte))
| Char (c : byte)
| Int (v : Z)
| Str (s : list byte)
| Formatted (text : option (list byte)).

Definition put (it : item) st : outcome stream :=
  match it with
  | CStr s => put_cstr s st
  | Char c => put_char c st
  | Int v => put_int v st
  | Str s => put_string s st
  | Formatted text => format text st
  end.

(** Insertions in sequence, as [stream << a << b << ...] runs them. *)
Fixpoint puts (its : list item) st : outcome stream :=
  match its with
  | [] => mret st
  | it :: its => st' ← put it st; puts its st'
  end.

(** The text a stream that holds [q] would hold next: the item's text, if the whole
    still leaves one free cell.  With fewer than 32 cells left an integer is dropped
    without a trace. *)
Definition spec_put (it : item) (q : list byte) : outcome (list byte) :=
  let put_text (s : list byte) :=
    if zlen q + zlen s <? Nm then mret (q ++ s) else Fault AssertFailed in
  match it with
  | CStr (Some s) | Str s | Formatted (Some s) => put_text s
  | CStr None => put_text kNullStr
  | Char c => put_text [c]
  | Formatted None => Fault AssertFailed
  | Int v =>
      if Nm - zlen q <? 32 then mret q
      else if v <? 0 then Fault OutOfBounds else mret (q ++ decimal v)
  end.

Fixpoint spec_puts (its : list item) (q : list byte) : outcome (list byte) :=
  match its with
  | [] => mret q
  | it :: its => q' ← spec_put it q; spec_puts its q'
  end.

(** Integers are of a type of at most 64 bits, and a [printf] result fits an [int]. *)
Definition item_ok (it : item) : Prop :=
  match it with
  | Int v => - 2 ^ 63 <= v < 2 ^ 64
  | Formatted (Some s) => zlen s < 2 ^ 31
  | _ => True
  end.
End Operations.

Section Proofs.
Variable Nm : Z.
Implicit Types st : stream.

Abbreviation wf := (FixedBuffer.wf Nm).
Abbreviation agrees := (FixedBuffer.agrees Nm).
Abbreviation contents := FixedBuffer.contents.

Ltac unfold_wf := unfold FixedBuffer.wf, FixedBuffer.avail, FixedBuffer.current in *;
  cbn [FixedBuffer.data_ FixedBuffer.cur_] in *.

Lemma format_agrees text st : wf st → item_ok (Formatted text) →
  agrees (format Nm text st) (spec_put Nm (Formatted text) (contents st)).
Proof.
  intros Hwf Hok. unfold format, vsnprintf. cbn [spec_put]. rewrite (FixedBuffer.fixed_len Nm) by done.
  destruct text as [s|]; cbn in Hok; cstep.
  - pose proof (zlen_nonneg s). pose proof Hwf as Hwf0. unfold_wf.
    set (txt := take (Z.to_nat (Nm - FixedBuffer.cur_ st - 1)) s).
    assert (zlen txt = Z.min (Nm - FixedBuffer.cur_ st - 1) (zlen s)) as Ht by (unfold txt; rewrite zlen_take; lia).
    assert (zlen (txt ++ [x00]) = zlen txt + 1) as Ht1 by (rewrite zlen_app; done).
    rewrite write_range_ok by lia. cstep. unfold FixedBuffer.add. unfold_wf.
    rewrite !u64_small by lia. destruct (_ + zlen s <? Nm) eqn:E; unbool.
    + decide_test (zlen s <? Nm - FixedBuffer.cur_ st). cstep. split.
      * unfold_wf. rewrite zlen_splice by lia. lia.
      * f_equal. unfold FixedBuffer.contents. cbn [FixedBuffer.data_ FixedBuffer.cur_].
        assert (txt = s) as -> by (unfold txt; apply take_ge; unfold zlen in *; lia).
        rewrite slice_add, slice_splice_left, slice_splice_front by lia. done.
    + by decide_test (zlen s <? Nm - FixedBuffer.cur_ st).
  - unfold FixedBuffer.add. assert (u64 (-1) = 2 ^ 64 - 1) as -> by reflexivity.
    pose proof (u64_range (FixedBuffer.avail Nm st)).
    by decide_test (2 ^ 64 - 1 <? u64 (FixedBuffer.avail Nm st)).
Qed.

Lemma put_int_agrees v st : wf st → - 2 ^ 63 <= v < 2 ^ 64 →
  agrees (put_int Nm v st) (spec_put Nm (Int v) (contents st)).
Proof.
  intros Hwf Hv. unfold put_int. cbn [spec_put]. rewrite (FixedBuffer.fixed_len Nm) by done.
  pose proof Hwf as Hwf0. unfold_wf. destruct (split_at (FixedBuffer.cur_ st) (FixedBuffer.data_ st))
    as (l1 & l2 & Hl & Hl1); [lia|]. rewrite Hl in *. rewrite zlen_app in *.
  assert (Z.to_nat (FixedBuffer.cur_ st) = length l1) as -> by (unfold zlen in *; lia).
  rewrite drop_app_length, take_app_length.
  destruct (Nm - FixedBuffer.cur_ st <? 32) eqn:E; unbool.
  - rewrite convert_short by lia. cstep. unfold FixedBuffer.add. unfold_wf. rewrite u64_small by lia.
    decide_test (0 <? Nm - FixedBuffer.cur_ st). cstep. rewrite Z.add_0_r. split.
    + unfold_wf. rewrite zlen_app. lia.
    + unfold FixedBuffer.contents. cbn [FixedBuffer.data_ FixedBuffer.cur_]. by rewrite Hl.
  - destruct (v <? 0) eqn:Ev; unbool.
    + unfold convert. decide_test (Nm - FixedBuffer.cur_ st <? 32).
      rewrite convert_loop_negative; [done | unfold kMaxDigits; lia | rewrite pow_max_digits; lia].
    + pose proof (decimal_len v ltac:(lia)). rewrite convert_ok by lia. cstep.
      assert (l1 ++ splice 0 (decimal v ++ [x00]) l2 = splice (zlen l1) (decimal v ++ [x00]) (l1 ++ l2)) as ->.
      { rewrite splice_app. unfold splice. cbn [Z.to_nat]. by rewrite take_0. }
      assert (zlen (decimal v ++ [x00]) = zlen (decimal v) + 1) as Hz by (rewrite zlen_app; done).
      unfold FixedBuffer.add. unfold_wf. rewrite u64_small by lia.
      decide_test (zlen (decimal v) <? Nm - FixedBuffer.cur_ st). cstep. split.
      * unfold_wf. rewrite zlen_splice; rewrite ?zlen_app in *; lia.
      * f_equal. unfold FixedBuffer.contents. cbn [FixedBuffer.data_ FixedBuffer.cur_]. rewrite Hl, <- Hl1.
        rewrite slice_add, slice_splice_left, Z.add_0_l, slice_splice_front by (rewrite ?zlen_app; lia). done.
Qed.

Lemma put_agrees it st : wf st → item_ok it → agrees (put Nm it st) (spec_put Nm it (contents st)).
Proof.
  intros Hwf Hok. destruct it as [[s|]|c|v|s|text].
  - by apply FixedBuffer.append_agrees.
  - by apply (FixedBuffer.append_agrees Nm true kNullStr).
  - by apply FixedBuffer.append1_agrees.
  - by apply put_int_agrees.
  - by apply FixedBuffer.append_agrees.
  - by apply format_agrees.
Qed.

Lemma puts_agrees its st : wf st → Forall item_ok its →
  agrees (puts Nm its st) (spec_puts Nm its (contents st)).
Proof.
  intros Hwf Hok. revert st Hwf. induction Hok as [|it its Hit _ IH]; intros st Hwf; cbn [puts spec_puts].
  - done.
  - pose proof (put_agrees it st Hwf Hit) as Ha. destruct (put Nm it st) as [st'|f].
    + destruct Ha as [Hwf' ->]. cstep. by apply IH.
    + cbn in Ha. by rewrite Ha.
Qed.

(** C29. Any chain of insertions into a fresh stream yields the concatenation of the
    inserted texts, integers in decimal; text that does not leave a free cell fails an
    assertion before anything is stored outside the array; an integer is dropped when
    fewer than 32 cells are left, and a negative integer reads outside the digit table
    otherwise. *)
Theorem stream_refines_text (storage : list byte) (its : list item) :
  0 < Nm < 2 ^ 31 → zlen storage = Nm → Forall item_ok its →
  agrees (puts Nm its (ctor storage)) (spec_puts Nm its []).
Proof.
  intros HN Hs Hok. apply (puts_agrees its (ctor storage)); [|done].
  by apply FixedBuffer.fixed_ctor_wf.
Qed.
End Proofs.

Lemma stream_refines_text_witness :
  let its := [CStr (Some (chars "fd = ")); Int 42; Char x20; CStr None; Formatted (Some (chars "3.14"))] in
  FixedBuffer.agrees 64 (puts 64 its (ctor (replicate 64 x00))) (spec_puts 64 its []).
Proof.
  apply (stream_refines_text 64 (replicate 64 x00)).
  - lia.
  - reflexivity.
  - repeat constructor; cbn; lia.
Defined.
End FixedOStream.
