(* ===== verification/Reactor.v ===== *)
(** * [reactor::Channel], [reactor::Epoller] and the channel side of [EventLoop]
    (src/reactor/channel.cc, epoller.cc, event_loop.cc)

    Channels live in a heap of objects, because the epoller, the kernel and their owner
    all hold pointers to the same channel.  The epoll instance of the kernel is a
    parameter with its documented behaviour, the class [EpollKernel].

    The proofs keep one invariant through every channel operation: the epoller's map, the
    [index_] of every channel and the kernel's interest set tell the same story. *)

From S2P Require Import Prelude.

(** ** Event masks (sys/epoll.h) *)

Definition EPOLLIN : Z := 1.
Definition EPOLLPRI : Z := 2.
Definition EPOLLOUT : Z := 4.
Definition EPOLLERR : Z := 8.
Definition EPOLLHUP : Z := 16.
Definition EPOLLRDHUP : Z := 8192.

Definition kNoneEvent : Z := 0.
Definition kReadEvent : Z := Z.lor EPOLLIN EPOLLPRI.
Definition kWriteEvent : Z := EPOLLOUT.

Definition kNew : Z := -1.
Definition kAdded : Z := 1.
Definition kDeleted : Z := 2.
Definition kInitEventListSize : Z := 16.

Inductive ctl := CtlAdd | CtlMod | CtlDel.

(** [epoll_event]: the mask and the channel pointer of [data.ptr]. *)
Definition epoll_event : Type := Z * nat.

(** The epoll instance: [registered] is its interest set, [None] from [epoll_ctl] is the
    return value -1. *)
Class EpollKernel (K : Type) := {
  registered : K → Z → option epoll_event;
  epoll_ctl : ctl → Z → epoll_event → K → option K;
  ctl_add_spec k fd e : registered k fd = None →
    ∃ k', epoll_ctl CtlAdd fd e k = Some k' ∧
      ∀ fd', registered k' fd' = if decide (fd' = fd) then Some e else registered k fd';
  ctl_mod_spec k fd e e0 : registered k fd = Some e0 →
    ∃ k', epoll_ctl CtlMod fd e k = Some k' ∧
      ∀ fd', registered k' fd' = if decide (fd' = fd) then Some e else registered k fd';
  ctl_del_spec k fd e e0 : registered k fd = Some e0 →
    ∃ k', epoll_ctl CtlDel fd e k = Some k' ∧
      ∀ fd', registered k' fd' = if decide (fd' = fd) then None else registered k fd'
}.

(** ** State *)

(** A channel; the four callbacks count by whether they are set. *)
Record channel := mkChannel {
  loop_ : nat;
  fd_ : Z;
  events_ : Z;
  revents_ : Z;
  index_ : Z;
  event_handling_ : bool;
  added_to_loop_ : bool;
  tied_ : bool;
  read_callback_ : bool;
  write_callback_ : bool;
  close_callback_ : bool;
  error_callback_ : bool
}.

(** An event loop with its epoller; [id] is the address of the loop. *)
Record loop (K : Type) := mkLoop {
  id : nat;
  tid_ : Z;
  kernel : K;
  heap : gmap nat channel;
  channels_ : gmap Z nat;
  events_size : Z;
  event_handing_ : bool;
  current_active_channel_ : option nat;
  active_channels_ : list nat
}.

Arguments mkLoop {K}.
Arguments id {K}.
Arguments tid_ {K}.
Arguments kernel {K}.
Arguments heap {K}.
Arguments channels_ {K}.
Arguments events_size {K}.
Arguments event_handing_ {K}.
Arguments current_active_channel_ {K}.
Arguments active_channels_ {K}.

Definition set_events (e : Z) (c : channel) : channel :=
  mkChannel (loop_ c) (fd_ c) e (revents_ c) (index_ c) (event_handling_ c) (added_to_loop_ c)
    (tied_ c) (read_callback_ c) (write_callback_ c) (close_callback_ c) (error_callback_ c).

Definition set_revents (r : Z) (c : channel) : channel :=
  mkChannel (loop_ c) (fd_ c) (events_ c) r (index_ c) (event_handling_ c) (added_to_loop_ c)
    (tied_ c) (read_callback_ c) (write_callback_ c) (close_callback_ c) (error_callback_ c).

Definition set_index (i : Z) (c : channel) : channel :=
  mkChannel (loop_ c) (fd_ c) (events_ c) (revents_ c) i (event_handling_ c) (added_to_loop_ c)
    (tied_ c) (read_callback_ c) (write_callback_ c) (close_callback_ c) (error_callback_ c).

Definition set_added (a : bool) (c : channel) : channel :=
  mkChannel (loop_ c) (fd_ c) (events_ c) (revents_ c) (index_ c) (event_handling_ c) a
    (tied_ c) (read_callback_ c) (write_callback_ c) (close_callback_ c) (error_callback_ c).

Definition set_tied (c : channel) : channel :=
  mkChannel (loop_ c) (fd_ c) (events_ c) (revents_ c) (index_ c) (event_handling_ c)
    (added_to_loop_ c) true (read_callback_ c) (write_callback_ c) (close_callback_ c) (error_callback_ c).

(** The setters of the four callbacks. *)
Definition set_read_callback (c : channel) : channel :=
  mkChannel (loop_ c) (fd_ c) (events_ c) (revents_ c) (index_ c) (event_handling_ c) (added_to_loop_ c)
    (tied_ c) true (write_callback_ c) (close_callback_ c) (error_callback_ c).

Definition set_write_callback (c : channel) : channel :=
  mkChannel (loop_ c) (fd_ c) (events_ c) (revents_ c) (index_ c) (event_handling_ c) (added_to_loop_ c)
    (tied_ c) (read_callback_ c) true (close_callback_ c) (error_callback_ c).

Definition set_close_callback (c : channel) : channel :=
  mkChannel (loop_ c) (fd_ c) (events_ c) (revents_ c) (index_ c) (event_handling_ c) (added_to_loop_ c)
    (tied_ c) (read_callback_ c) (write_callback_ c) true (error_callback_ c).

Definition set_error_callback (c : channel) : channel :=
  mkChannel (loop_ c) (fd_ c) (events_ c) (revents_ c) (index_ c) (event_handling_ c) (added_to_loop_ c)
    (tied_ c) (read_callback_ c) (write_callback_ c) (close_callback_ c) true.

Definition is_none_event (c : channel) : bool := kNoneEvent =? events_ c.

Definition is_writing (c : channel) : bool := negb (Z.land (events_ c) kWriteEvent =? 0).

Definition is_reading (c : channel) : bool := negb (Z.land (events_ c) kReadEvent =? 0).

(** ** Dispatch of the received events *)

Inductive callback := CbClose | CbError | CbRead | CbWrite.

Definition has (mask r : Z) : bool := negb (Z.land r mask =? 0).

(** [Channel::handle_event_with_guard]: the callbacks run on a world [W] of their own, in which
    [look] reads the channel's fields and [handling] sets the flag [event_handling_].  Every
    test reads the fields as the callbacks before it left them. *)
Definition handle_event_with_guard {W} (look : W → channel) (handling : bool → W → W)
  (run : callback → W → outcome W) (w : W) : outcome W :=
  let fire (b : Z → bool) (set : channel → bool) (cb : callback) (w : W) : outcome W :=
    if b (revents_ (look w)) then if set (look w) then run cb w else mret w else mret w in
  let w := handling true w in
  w ← fire (λ r, has EPOLLHUP r && negb (has EPOLLIN r)) close_callback_ CbClose w;
  w ← fire (has EPOLLERR) error_callback_ CbError w;
  w ← fire (has (Z.lor (Z.lor EPOLLIN EPOLLPRI) EPOLLRDHUP)) read_callback_ CbRead w;
  w ← fire (has EPOLLOUT) write_callback_ CbWrite w;
  mret (handling false w).

(** [Channel::handle_event]; [alive] tells whether [tie_.lock()] yields the owner. *)
Definition handle_event {W} (look : W → channel) (handling : bool → W → W)
  (run : callback → W → outcome W) (alive : bool) (w : W) : outcome W :=
  if tied_ (look w)
  then if alive then handle_event_with_guard look handling run w else mret w
  else handle_event_with_guard look handling run w.

(** The callbacks of one dispatch, in order. *)
Definition dispatch (c : channel) : list callback :=
  let fire (b set : bool) (cb : callback) := if b && set then [cb] else [] in
  fire (has EPOLLHUP (revents_ c) && negb (has EPOLLIN (revents_ c))) (close_callback_ c) CbClose
  ++ fire (has EPOLLERR (revents_ c)) (error_callback_ c) CbError
  ++ fire (has (Z.lor (Z.lor EPOLLIN EPOLLPRI) EPOLLRDHUP) (revents_ c)) (read_callback_ c) CbRead
  ++ fire (has EPOLLOUT (revents_ c)) (write_callback_ c) CbWrite.

Fixpoint run_all {W} (run : callback → W → outcome W) (cbs : list callback) (w : W) : outcome W :=
  match cbs with
  | [] => mret w
  | cb :: cbs => w ← run cb w; run_all run cbs w
  end.

Section Loop.
Context {K : Type} `{EpollKernel K}.
Implicit Types (l : loop K) (p : nat) (c : channel) (tid : Z).

Definition is_in_loop_thread tid l : bool := tid =? tid_ l.

Definition with_heap l (h : gmap nat channel) : loop K :=
  mkLoop (id l) (tid_ l) (kernel l) h (channels_ l) (events_size l) (event_handing_ l)
    (current_active_channel_ l) (active_channels_ l).

Definition with_channels l (m : gmap Z nat) : loop K :=
  mkLoop (id l) (tid_ l) (kernel l) (heap l) m (events_size l) (event_handing_ l)
    (current_active_channel_ l) (active_channels_ l).

Definition with_kernel l (k : K) : loop K :=
  mkLoop (id l) (tid_ l) k (heap l) (channels_ l) (events_size l) (event_handing_ l)
    (current_active_channel_ l) (active_channels_ l).

(** A use of a channel pointer. *)
Definition deref p l : outcome channel :=
  match heap l !! p with Some c => Ok c | None => Fault OutOfBounds end.

Definition modify p (g : channel → channel) l : loop K := with_heap l (alter g p (heap l)).

(** [Channel::Channel] at the fresh address [p], for this loop. *)
Definition channel_ctor p (fd : Z) l : outcome (loop K) :=
  _ ← cassert (negb (fd =? -1));
  mret (with_heap l (<[p := mkChannel (id l) fd 0 0 (-1) false false false false false false false]> (heap l))).

(** ** [Epoller] *)

(** [Epoller::update]: a failing [epoll_ctl] is only logged. *)
Definition update (operation : ctl) p l : outcome (loop K) :=
  c ← deref p l;
  match epoll_ctl operation (fd_ c) (events_ c, p) (kernel l) with
  | Some k => mret (with_kernel l k)
  | None => mret l
  end.

(** [channels_.find(fd) != channels_.end() && channels_[fd] == channel] *)
Definition maps_to (fd : Z) p l : bool := bool_decide (channels_ l !! fd = Some p).

Definition update_channel tid p l : outcome (loop K) :=
  _ ← cassert (is_in_loop_thread tid l);
  c ← deref p l;
  let fd := fd_ c in
  let index := index_ c in
  if (kNew =? index) || (kDeleted =? index) then
    l ← (if kNew =? index then
           _ ← cassert (bool_decide (channels_ l !! fd = None));
           mret (with_channels l (<[fd := p]> (channels_ l)))
         else
           _ ← cassert (maps_to fd p l);
           mret l);
    update CtlAdd p (modify p (set_index kAdded) l)
  else
    _ ← cassert (maps_to fd p l && (kAdded =? index));
    if is_none_event c then
      l ← update CtlDel p l;
      mret (modify p (set_index kDeleted) l)
    else update CtlMod p l.

Definition remove_channel tid p l : outcome (loop K) :=
  _ ← cassert (is_in_loop_thread tid l);
  c ← deref p l;
  let fd := fd_ c in
  _ ← cassert (maps_to fd p l && is_none_event c);
  let index := index_ c in
  _ ← cassert ((index =? kAdded) || (index =? kDeleted));
  let l := with_channels l (delete fd (channels_ l)) in
  l ← (if kAdded =? index then update CtlDel p l else mret l);
  mret (modify p (set_index kNew) l).

Definition has_channel tid p l : outcome bool :=
  _ ← cassert (is_in_loop_thread tid l);
  c ← deref p l;
  mret (maps_to (fd_ c) p l).

(** [Epoller::fill_active_channels] on the [epoll_event]s the kernel stored. *)
Fixpoint fill_active_channels (evs : list epoll_event) l (active : list nat) : outcome (loop K * list nat) :=
  match evs with
  | [] => mret (l, active)
  | (ev, p) :: evs =>
      c ← deref p l;
      _ ← cassert (maps_to (fd_ c) p l);
      fill_active_channels evs (modify p (set_revents ev) l) (active ++ [p])
  end.

(** What [epoll_wait] returned: the events it stored, none on a timeout, or an error. *)
Inductive wait_result := WaitEvents (evs : list epoll_event) | WaitErr (errno : Z).

(** [Epoller::poll]; the time stamp it returns is taken elsewhere. *)
Definition poll (r : wait_result) l (active : list nat) : outcome (loop K * list nat) :=
  match r with
  | WaitEvents [] => mret (l, active)
  | WaitEvents evs =>
      _ ← cassert (zlen evs <=? events_size l);
      '(l, active) ← fill_active_channels evs l active;
      let n := if zlen evs =? events_size l then u64 (events_size l * 2) else events_size l in
      mret (mkLoop (id l) (tid_ l) (kernel l) (heap l) (channels_ l) n (event_handing_ l)
              (current_active_channel_ l) (active_channels_ l), active)
  | WaitErr _ => mret (l, active)
  end.

(** ** [EventLoop]'s forwarding functions *)

Definition owned p l : outcome bool :=
  c ← deref p l; mret (bool_decide (loop_ c = id l)).

Definition loop_update_channel tid p l : outcome (loop K) :=
  o ← owned p l;
  _ ← cassert (o && is_in_loop_thread tid l);
  update_channel tid p l.

Definition loop_remove_channel tid p l : outcome (loop K) :=
  o ← owned p l;
  _ ← cassert (o && is_in_loop_thread tid l);
  _ ← (if event_handing_ l
       then cassert (bool_decide (current_active_channel_ l = Some p)
                     || negb (bool_decide (p ∈ active_channels_ l)))
       else mret tt);
  remove_channel tid p l.

Definition loop_has_channel tid p l : outcome bool :=
  o ← owned p l;
  _ ← cassert (o && is_in_loop_thread tid l);
  has_channel tid p l.

(** ** [Channel]'s operations on its own registration *)

Definition channel_update tid p l : outcome (loop K) :=
  _ ← deref p l;
  loop_update_channel tid p (modify p (set_added true) l).

Definition enable_reading tid p l : outcome (loop K) :=
  channel_update tid p (modify p (λ c, set_events (Z.lor (events_ c) kReadEvent) c) l).

Definition disable_reading tid p l : outcome (loop K) :=
  channel_update tid p (modify p (λ c, set_events (Z.land (events_ c) (Z.lnot kReadEvent)) c) l).

Definition enable_writing tid p l : outcome (loop K) :=
  channel_update tid p (modify p (λ c, set_events (Z.lor (events_ c) kWriteEvent) c) l).

Definition disable_writing tid p l : outcome (loop K) :=
  channel_update tid p (modify p (λ c, set_events (Z.land (events_ c) (Z.lnot kWriteEvent)) c) l).

Definition disable_all tid p l : outcome (loop K) :=
  channel_update tid p (modify p (set_events kNoneEvent) l).

Definition channel_remove tid p l : outcome (loop K) :=
  c ← deref p l;
  _ ← cassert (is_none_event c);
  loop_remove_channel tid p (modify p (set_added false) l).

Definition tie p l : outcome (loop K) :=
  _ ← deref p l;
  mret (modify p set_tied l).

(** [Channel::~Channel], after which the pointer is dangling. *)
Definition channel_dtor tid p l : outcome (loop K) :=
  c ← deref p l;
  _ ← cassert (negb (event_handling_ c));
  _ ← cassert (negb (added_to_loop_ c));
  _ ← (if is_in_loop_thread tid l
       then h ← loop_has_channel tid p l; cassert (negb h) else mret tt);
  mret (with_heap l (delete p (heap l))).

(** ** The invariant *)

(** How one channel of this loop is registered. *)
Definition chan_ok l p c : Prop :=
  (index_ c = kNew ∧ channels_ l !! fd_ c ≠ Some p ∧ added_to_loop_ c = false) ∨
  (index_ c = kAdded ∧ channels_ l !! fd_ c = Some p ∧ added_to_loop_ c = true ∧
     registered (kernel l) (fd_ c) = Some (events_ c, p)) ∨
  (index_ c = kDeleted ∧ channels_ l !! fd_ c = Some p ∧ added_to_loop_ c = true ∧
     registered (kernel l) (fd_ c) = None ∧ events_ c = kNoneEvent).

(** The epoller's map, the indices and the kernel agree. *)
Record inv l : Prop := {
  inv_chan : ∀ p c, heap l !! p = Some c → loop_ c = id l → chan_ok l p c;
  inv_map : ∀ fd p, channels_ l !! fd = Some p →
    ∃ c, heap l !! p = Some c ∧ fd_ c = fd ∧ loop_ c = id l ∧ index_ c ≠ kNew;
  inv_kernel : ∀ fd e p, registered (kernel l) fd = Some (e, p) →
    ∃ c, heap l !! p = Some c ∧ fd_ c = fd ∧ channels_ l !! fd = Some p ∧
         index_ c = kAdded ∧ events_ c = e
}.

(** A loop just constructed around an epoll instance, before its wakeup channel exists. *)
Definition loop_init (i : nat) tid (k : K) : loop K :=
  mkLoop i tid k ∅ ∅ kInitEventListSize false None [].

(** [EventLoop::EventLoop]: the epoller and, at address [p], the wakeup channel. *)
Definition loop_ctor (i : nat) tid (k : K) p (wakeup_fd : Z) : outcome (loop K) :=
  _ ← cassert (negb (wakeup_fd =? -1));
  l ← channel_ctor p wakeup_fd (loop_init i tid k);
  enable_reading tid p (modify p set_read_callback l).

(** A channel operation of a client of the loop. *)
Inductive chan_op :=
| NewChannel (fd : Z)
| EnableReading
| DisableReading
| EnableWriting
| DisableWriting
| DisableAll
| Remove
| Tie
| Destroy.

Definition exec tid (o : chan_op) p l : outcome (loop K) :=
  match o with
  | NewChannel fd => channel_ctor p fd l
  | EnableReading => enable_reading tid p l
  | DisableReading => disable_reading tid p l
  | EnableWriting => enable_writing tid p l
  | DisableWriting => disable_writing tid p l
  | DisableAll => disable_all tid p l
  | Remove => channel_remove tid p l
  | Tie => tie p l
  | Destroy => channel_dtor tid p l
  end.

(** Objects are created at unused addresses. *)
Definition op_ok (o : chan_op) p l : Prop :=
  match o with
  | NewChannel _ => heap l !! p = None
  | _ => True
  end.

Inductive runs tid : loop K → list (chan_op * nat) → loop K → Prop :=
| runs_nil l : runs tid l [] l
| runs_cons l l' l'' o p os :
    op_ok o p l → exec tid o p l = Ok l' → runs tid l' os l'' → runs tid l ((o, p) :: os) l''.

(** ** Preservation of the invariant *)

Lemma modify_eq p g l c : heap l !! p = Some c → modify p g l = with_heap l (<[p := g c]> (heap l)).
Proof.
  intros Hp. unfold modify. f_equal. apply map_eq. intros q.
  rewrite lookup_alter, lookup_insert. case_decide; [|done]. subst. by rewrite Hp.
Qed.

Lemma deref_ok p l c : heap l !! p = Some c → deref p l = Ok c.
Proof. unfold deref. by intros ->. Qed.

Lemma deref_inv p l c : deref p l = Ok c → heap l !! p = Some c.
Proof. unfold deref. destruct (heap l !! p); congruence. Qed.

(** Registering a channel, or changing its registration. *)
Lemma inv_register l l' p c c' :
  inv l → heap l !! p = Some c → loop_ c = id l → fd_ c' = fd_ c → loop_ c' = loop_ c →
  id l' = id l → heap l' = <[p := c']> (heap l) → channels_ l' = <[fd_ c := p]> (channels_ l) →
  channels_ l !! fd_ c = None ∨ channels_ l !! fd_ c = Some p →
  (∀ fd, registered (kernel l') fd =
     if decide (fd = fd_ c)
     then if decide (index_ c' = kAdded) then Some (events_ c', p) else None
     else registered (kernel l) fd) →
  index_ c' = kAdded ∨ (index_ c' = kDeleted ∧ events_ c' = kNoneEvent) →
  added_to_loop_ c' = true → inv l'.
Proof.
  intros [Hc Hm Hk] Hp Hl Hfd Hlo Hid Hh Hch Hfree Hreg Hidx Hadd. split.
  - intros q d Hq Hd. rewrite Hh in Hq. unfold chan_ok. rewrite Hch, !Hreg.
    destruct (decide (q = p)) as [->|Hne].
    + rewrite lookup_insert_eq in Hq. simplify_eq. rewrite Hfd, lookup_insert_eq.
      rewrite (decide_True (P := fd_ c = fd_ c)) by done.
      destruct Hidx as [Hi|[Hi He]]; rewrite Hi.
      * right; left. by rewrite decide_True.
      * right; right. by rewrite decide_False.
    + rewrite lookup_insert_ne in Hq by done. rewrite Hid in Hd.
      destruct (decide (fd_ d = fd_ c)) as [He|He].
      * rewrite He, lookup_insert_eq. destruct (Hc q d Hq Hd) as [[? [_ ?]]|[[_ [Hx _]]|[_ [Hx _]]]];
          [left; split_and!; congruence | rewrite He in Hx; destruct Hfree; congruence..].
      * rewrite lookup_insert_ne by done. exact (Hc q d Hq Hd).
  - intros fd q. rewrite Hch, Hh, Hid. destruct (decide (fd = fd_ c)) as [->|Hne].
    + rewrite lookup_insert_eq. intros [= <-]. rewrite lookup_insert_eq. exists c'.
      split; [done|]. split; [done|]. split; [congruence|].
      destruct Hidx as [->|[-> _]]; done.
    + rewrite lookup_insert_ne by done. intros Hq. destruct (Hm fd q Hq) as (d & Hd & Hf & ?).
      exists d. rewrite lookup_insert_ne; [done|]. intros <-. congruence.
  - intros fd e q. rewrite Hreg, Hh, Hch. destruct (decide (fd = fd_ c)) as [->|Hne].
    + case_decide; [|done]. intros [= <- <-]. exists c'. by rewrite !lookup_insert_eq.
    + intros Hq. destruct (Hk fd e q Hq) as (d & Hd & Hf & ?). exists d.
      rewrite !lookup_insert_ne; [done | done |]. intros <-. congruence.
Qed.

(** Taking a channel out of the map and the kernel. *)
Lemma inv_unregister l l' p c c' :
  inv l → heap l !! p = Some c → fd_ c' = fd_ c → index_ c' = kNew → added_to_loop_ c' = false →
  id l' = id l → heap l' = <[p := c']> (heap l) → channels_ l' = delete (fd_ c) (channels_ l) →
  channels_ l !! fd_ c = Some p →
  (∀ fd, registered (kernel l') fd = if decide (fd = fd_ c) then None else registered (kernel l) fd) →
  inv l'.
Proof.
  intros [Hc Hm Hk] Hp Hfd Hi Hadd Hid Hh Hch Hmap Hreg. split.
  - intros q d Hq Hd. rewrite Hh in Hq. unfold chan_ok. rewrite Hch, !Hreg.
    destruct (decide (q = p)) as [->|Hne].
    + rewrite lookup_insert_eq in Hq. simplify_eq. left. rewrite Hfd, lookup_delete_eq. done.
    + rewrite lookup_insert_ne in Hq by done. rewrite Hid in Hd.
      destruct (decide (fd_ d = fd_ c)) as [He|He].
      * rewrite He, lookup_delete_eq. destruct (Hc q d Hq Hd) as [[? [_ ?]]|[[_ [Hx _]]|[_ [Hx _]]]];
          [by left | rewrite He in Hx; congruence..].
      * rewrite lookup_delete_ne by done. exact (Hc q d Hq Hd).
  - intros fd q. rewrite Hch, Hh, Hid. rewrite lookup_delete_Some. intros [Hne Hq].
    destruct (Hm fd q Hq) as (d & Hd & Hf & ?). exists d.
    rewrite lookup_insert_ne; [done|]. intros <-. congruence.
  - intros fd e q. rewrite Hreg, Hh, Hch. case_decide as Hne; [done|]. intros Hq.
    destruct (Hk fd e q Hq) as (d & Hd & Hf & ?). exists d.
    rewrite lookup_insert_ne, lookup_delete_ne; [done | done |]. intros <-. congruence.
Qed.

Definition next_index c : Z :=
  if (index_ c =? kAdded) && is_none_event c then kDeleted else kAdded.

(** What no channel operation touches. *)
Definition same_frame l l' : Prop :=
  id l' = id l ∧ tid_ l' = tid_ l ∧ events_size l' = events_size l ∧
  event_handing_ l' = event_handing_ l ∧
  current_active_channel_ l' = current_active_channel_ l ∧ active_channels_ l' = active_channels_ l.

Lemma update_channel_added tid p c c1 l :
  inv l → heap l !! p = Some c → loop_ c = id l → tid = tid_ l → index_ c = kAdded →
  fd_ c1 = fd_ c → index_ c1 = index_ c → loop_ c1 = loop_ c → added_to_loop_ c1 = true →
  ∃ l', update_channel tid p (with_heap l (<[p := c1]> (heap l))) = Ok l' ∧ inv l' ∧
        heap l' = <[p := set_index (next_index c1) c1]> (heap l) ∧ same_frame l l'.
Proof.
  intros Hinv Hp Hl -> Hi Hfd Hi1 Hl1 Hadd.
  destruct (inv_chan l Hinv p c Hp Hl) as [[Hx _]|[(_ & Hmap & _ & Hreg)|[Hx _]]];
    [rewrite Hi in Hx; discriminate | | rewrite Hi in Hx; discriminate].
  unfold update_channel, is_in_loop_thread, with_heap. cbn [tid_]. rewrite Z.eqb_refl. cstep.
  unfold deref. cbn [heap]. rewrite lookup_insert_eq. cstep. rewrite Hi1, Hi.
  change ((kNew =? kAdded) || (kDeleted =? kAdded)) with false. cbv iota.
  unfold maps_to. cbn [channels_]. rewrite Hfd, Hmap, bool_decide_true by done.
  change (true && (kAdded =? kAdded)) with true. cstep.
  destruct (is_none_event c1) eqn:En.
  - unfold update, deref. cbn [heap kernel]. rewrite lookup_insert_eq. cstep.
    destruct (ctl_del_spec (kernel l) (fd_ c) (events_ c1, p) _ Hreg) as (k' & Hk & Hk').
    rewrite Hfd, Hk. cstep. eexists. split; [reflexivity|].
    assert (next_index c1 = kDeleted) as Hn by (unfold next_index; by rewrite Hi1, Hi, En).
    rewrite (modify_eq p _ _ c1) by (cbn; apply lookup_insert_eq). cbn. rewrite insert_insert_eq, Hn.
    split; [|done]. eapply (inv_register l _ p c (set_index kDeleted c1)); try done; cbn; eauto.
    + by rewrite insert_id.
    + right. split; [done|]. unfold is_none_event in En. unbool. done.
  - unfold update, deref. cbn [heap kernel]. rewrite lookup_insert_eq. cstep.
    destruct (ctl_mod_spec (kernel l) (fd_ c) (events_ c1, p) _ Hreg) as (k' & Hk & Hk').
    rewrite Hfd, Hk. cstep. eexists. split; [reflexivity|].
    assert (next_index c1 = kAdded) as Hn by (unfold next_index; by rewrite Hi1, Hi, En).
    assert (set_index kAdded c1 = c1) as Hs by (rewrite <- Hi, <- Hi1; by destruct c1).
    rewrite Hn, Hs. split; [|done]. eapply (inv_register l _ p c c1); try done; cbn; eauto.
    + by rewrite insert_id.
    + intros fd. rewrite Hk'. rewrite (decide_True (P := index_ c1 = kAdded)) by congruence. done.
    + left. congruence.
Qed.

(** A descriptor without a registered channel is not in the kernel's set. *)
Lemma unmapped_unregistered l fd : inv l → channels_ l !! fd = None → registered (kernel l) fd = None.
Proof.
  intros Hinv Hm. destruct (registered (kernel l) fd) as [[e q]|] eqn:E; [|done].
  destruct (inv_kernel l Hinv fd e q E) as (d & _ & _ & Hx & _). congruence.
Qed.

(** [EPOLL_CTL_ADD] on a channel the map holds and the kernel does not. *)
Lemma register_added p c c1 l :
  inv l → heap l !! p = Some c → loop_ c = id l → registered (kernel l) (fd_ c) = None →
  channels_ l !! fd_ c = None ∨ channels_ l !! fd_ c = Some p →
  fd_ c1 = fd_ c → loop_ c1 = loop_ c → added_to_loop_ c1 = true →
  ∃ l', update CtlAdd p (modify p (set_index kAdded)
          (with_channels (with_heap l (<[p := c1]> (heap l))) (<[fd_ c := p]> (channels_ l)))) = Ok l' ∧
        inv l' ∧ heap l' = <[p := set_index kAdded c1]> (heap l) ∧ same_frame l l'.
Proof.
  intros Hinv Hp Hl Hreg Hfree Hfd Hl1 Hadd.
  destruct (ctl_add_spec (kernel l) (fd_ c) (events_ c1, p) Hreg) as (k' & Hk & Hk').
  rewrite (modify_eq p _ _ c1) by (cbn; apply lookup_insert_eq).
  unfold update, deref, with_heap, with_channels. cbn [heap].
  rewrite lookup_insert_eq. cstep. cbn [fd_ set_index events_ kernel]. rewrite Hfd, Hk. cstep.
  eexists. split; [reflexivity|]. unfold with_kernel. cbn. rewrite insert_insert_eq.
  split; [|done]. eapply (inv_register l _ p c (set_index kAdded c1)); try done; cbn; eauto.
Qed.

Lemma update_channel_fresh tid p c c1 l :
  inv l → heap l !! p = Some c → loop_ c = id l → tid = tid_ l → index_ c ≠ kAdded →
  (index_ c = kNew → channels_ l !! fd_ c = None) →
  fd_ c1 = fd_ c → index_ c1 = index_ c → loop_ c1 = loop_ c → added_to_loop_ c1 = true →
  ∃ l', update_channel tid p (with_heap l (<[p := c1]> (heap l))) = Ok l' ∧ inv l' ∧
        heap l' = <[p := set_index (next_index c1) c1]> (heap l) ∧ same_frame l l'.
Proof.
  intros Hinv Hp Hl -> Hi Hfree Hfd Hi1 Hl1 Hadd.
  assert (next_index c1 = kAdded) as ->.
  { unfold next_index. rewrite Hi1. by decide_test (index_ c =? kAdded). }
  unfold update_channel, is_in_loop_thread. cbn [tid_ with_heap]. rewrite Z.eqb_refl. cstep.
  unfold deref. cbn [heap with_heap]. rewrite lookup_insert_eq. cstep. rewrite Hi1, Hfd.
  destruct (inv_chan l Hinv p c Hp Hl) as [[Hn _]|[[? _]|(Hd & Hm & _ & Hr & _)]]; [|done|].
  - rewrite Hn. change ((kNew =? kNew) || (kDeleted =? kNew)) with true. cbv iota.
    change (kNew =? kNew) with true. cbv iota. cbn [channels_].
    rewrite bool_decide_true by auto. cstep.
    apply (register_added p c c1 l); auto using unmapped_unregistered.
  - rewrite Hd. change ((kNew =? kDeleted) || (kDeleted =? kDeleted)) with true. cbv iota.
    change (kNew =? kDeleted) with false. cbv iota. unfold maps_to. cbn [channels_].
    rewrite bool_decide_true by done. cstep.
    destruct (register_added p c c1 l) as (l' & Hu & ?); [done..| by right | done | done | done |].
    exists l'. split; [|done]. rewrite <- Hu. unfold with_channels, with_heap.
    cbn [id tid_ kernel heap channels_ events_size event_handing_ current_active_channel_ active_channels_].
    by rewrite (insert_id (channels_ l)).
Qed.

Lemma update_channel_ok tid p c c1 l :
  inv l → heap l !! p = Some c → loop_ c = id l → tid = tid_ l →
  (index_ c = kNew → channels_ l !! fd_ c = None) →
  fd_ c1 = fd_ c → index_ c1 = index_ c → loop_ c1 = loop_ c → added_to_loop_ c1 = true →
  ∃ l', update_channel tid p (with_heap l (<[p := c1]> (heap l))) = Ok l' ∧ inv l' ∧
        heap l' = <[p := set_index (next_index c1) c1]> (heap l) ∧ same_frame l l'.
Proof.
  intros. destruct (decide (index_ c = kAdded)).
  - by eapply update_channel_added.
  - by eapply update_channel_fresh.
Qed.

(** [events_ op= mask; this->update();] as every enabling and disabling function does. *)
Lemma change_events_ok tid p c e l :
  inv l → heap l !! p = Some c → loop_ c = id l → tid = tid_ l →
  (index_ c = kNew → channels_ l !! fd_ c = None) →
  ∃ l', channel_update tid p (with_heap l (<[p := set_events e c]> (heap l))) = Ok l' ∧ inv l' ∧
        heap l' = <[p := set_index (next_index (set_events e c)) (set_added true (set_events e c))]> (heap l) ∧
        same_frame l l'.
Proof.
  intros Hinv Hp Hl Ht Hfree. unfold channel_update.
  rewrite (deref_ok _ _ (set_events e c)) by (cbn; apply lookup_insert_eq). cstep.
  rewrite (modify_eq _ _ _ (set_events e c)) by (cbn; apply lookup_insert_eq).
  unfold loop_update_channel, owned. cbn [heap with_heap].
  rewrite insert_insert_eq.
  rewrite (deref_ok _ _ (set_added true (set_events e c))) by (cbn; apply lookup_insert_eq). cstep.
  unfold is_in_loop_thread. cbn. rewrite Hl, bool_decide_true, Ht, Z.eqb_refl by done. cstep.
  destruct (update_channel_ok tid p c (set_added true (set_events e c)) l) as (l' & Hu & ? & ? & ?);
    [done..|]. exists l'. rewrite <- Ht. unfold with_heap in *. cbn in Hu |- *. rewrite Hu. done.
Qed.

(** What a successful update tells about its channel. *)
Lemma change_events_pre tid p c e l l' :
  heap l !! p = Some c →
  channel_update tid p (with_heap l (<[p := set_events e c]> (heap l))) = Ok l' →
  loop_ c = id l ∧ tid = tid_ l ∧ (index_ c = kNew → channels_ l !! fd_ c = None).
Proof.
  intros Hp. unfold channel_update.
  rewrite (deref_ok _ _ (set_events e c)) by (cbn; apply lookup_insert_eq). cstep.
  rewrite (modify_eq _ _ _ (set_events e c)) by (cbn; apply lookup_insert_eq).
  unfold loop_update_channel, owned. cbn [heap with_heap]. rewrite insert_insert_eq.
  rewrite (deref_ok _ _ (set_added true (set_events e c))) by (cbn; apply lookup_insert_eq). cstep.
  unfold is_in_loop_thread. cbn. intros Hu. outcome_inv.
  match goal with Hb : bool_decide _ = true |- _ => apply bool_decide_eq_true in Hb; rename Hb into Hl end.
  split; [done|]. split; [done|]. intros Hn.
  destruct (channels_ l !! fd_ c) eqn:E; [exfalso | done].
  revert Hu. unfold update_channel, deref. cbn. rewrite lookup_insert_eq. cbn. rewrite Hn, E. cbn.
  by destruct (is_in_loop_thread _ _).
Qed.

Lemma change_events_inv tid p g l l' :
  inv l → channel_update tid p (modify p (λ c, set_events (g c) c) l) = Ok l' → inv l'.
Proof.
  intros Hinv Hu. destruct (heap l !! p) as [c|] eqn:Hp.
  - rewrite (modify_eq _ _ _ c Hp) in Hu. destruct (change_events_pre _ _ _ _ _ _ Hp Hu) as (Hl & Ht & Hf).
    destruct (change_events_ok tid p c (g c) l) as (l1 & Hu1 & ? & _); [done..|]. congruence.
  - unfold channel_update, deref, modify in Hu. cbn in Hu.
    rewrite lookup_alter, decide_True, Hp in Hu by done. discriminate Hu.
Qed.

(** [Channel::remove] of a registered channel without events of interest. *)
Lemma remove_ok tid p c l :
  inv l → heap l !! p = Some c → loop_ c = id l → tid = tid_ l → index_ c ≠ kNew →
  events_ c = kNoneEvent →
  (event_handing_ l = true → current_active_channel_ l = Some p ∨ p ∉ active_channels_ l) →
  ∃ l', channel_remove tid p l = Ok l' ∧ inv l' ∧ same_frame l l' ∧
        heap l' = <[p := set_index kNew (set_added false c)]> (heap l) ∧
        channels_ l' = delete (fd_ c) (channels_ l) ∧ registered (kernel l') (fd_ c) = None.
Proof.
  intros Hinv Hp Hl -> Hi He Hact. set (c1 := set_added false c).
  assert (channels_ l !! fd_ c = Some p) as Hmap
    by (destruct (inv_chan l Hinv p c Hp Hl) as [[? _]|[(_ & ? & _)|(_ & ? & _)]]; done).
  unfold channel_remove. rewrite (deref_ok _ _ c Hp). cstep. unfold is_none_event. rewrite He, Z.eqb_refl. cstep.
  rewrite (modify_eq _ _ _ c Hp). fold c1. unfold loop_remove_channel, owned.
  rewrite (deref_ok _ _ c1) by (cbn; apply lookup_insert_eq). cstep.
  unfold is_in_loop_thread. cbn [tid_ with_heap id event_handing_]. change (loop_ c1) with (loop_ c).
  rewrite Hl, (bool_decide_true (id l = id l)), Z.eqb_refl by done. cstep.
  replace (if event_handing_ l then _ else _) with (@Ok unit tt).
  2:{ destruct (event_handing_ l); [|done]. symmetry. apply cassert_true, orb_true_iff. cbn.
      destruct (Hact eq_refl); [left; by apply bool_decide_eq_true | right].
      apply negb_true_iff. by apply bool_decide_eq_false. }
  cstep. unfold remove_channel, is_in_loop_thread. cbn [tid_ with_heap]. rewrite Z.eqb_refl. cstep.
  rewrite (deref_ok _ _ c1) by (cbn; apply lookup_insert_eq). cstep.
  unfold maps_to, is_none_event. cbn [channels_ with_heap].
  change (fd_ c1) with (fd_ c). change (events_ c1) with (events_ c). change (index_ c1) with (index_ c).
  rewrite Hmap, (bool_decide_true (Some p = Some p)), He by done. change (true && (kNoneEvent =? kNoneEvent)) with true. cstep.
  destruct (inv_chan l Hinv p c Hp Hl) as [[? _]|[(Hx & _ & _ & Hr)|(Hx & _ & _ & Hr & _)]]; [done|..].
  all: cbn [index_]; rewrite Hx; cbn -[update modify]; unfold update.
  - rewrite (deref_ok _ _ c1) by (cbn; apply lookup_insert_eq). cstep.
    destruct (ctl_del_spec (kernel l) (fd_ c) (events_ c, p) _ Hr) as (k' & Hk & Hk'). cbn. rewrite Hk. cbn.
    eexists. split; [reflexivity|].
    rewrite (modify_eq _ _ _ c1) by (cbn; apply lookup_insert_eq). cbn. rewrite insert_insert_eq.
    split; [|rewrite Hk', decide_True by done; done].
    eapply (inv_unregister l _ p c (set_index kNew c1)); try done; cbn; eauto.
  - eexists. split; [reflexivity|].
    rewrite (modify_eq _ _ _ c1) by (cbn; apply lookup_insert_eq). cbn. rewrite insert_insert_eq.
    split; [|done]. eapply (inv_unregister l _ p c (set_index kNew c1)); try done; cbn; eauto.
    intros fd. case_decide; [by subst | done].
Qed.

Lemma remove_channel_pre tid p c l l' :
  remove_channel tid p (with_heap l (<[p := set_added false c]> (heap l))) = Ok l' →
  heap (with_heap l (<[p := set_added false c]> (heap l))) !! p = Some (set_added false c) →
  index_ c ≠ kNew.
Proof.
  intros Hr Hp. unfold remove_channel in Hr. rewrite (deref_ok _ _ _ Hp) in Hr. revert Hr. cstep.
  intros Hr Hn. outcome_inv. all: cbn in *; rewrite Hn in *; discriminate.
Qed.

(** What a successful [Channel::remove] tells about its channel. *)
Lemma remove_pre tid p l l' :
  channel_remove tid p l = Ok l' →
  ∃ c, heap l !! p = Some c ∧ loop_ c = id l ∧ tid = tid_ l ∧ index_ c ≠ kNew ∧ events_ c = kNoneEvent ∧
       (event_handing_ l = true → current_active_channel_ l = Some p ∨ p ∉ active_channels_ l).
Proof.
  intros Hr. destruct (heap l !! p) as [c|] eqn:Hp; [|unfold channel_remove, deref in Hr; by rewrite Hp in Hr].
  exists c. split; [done|]. unfold channel_remove in Hr. rewrite (deref_ok _ _ c Hp) in Hr. revert Hr. cstep.
  destruct (is_none_event c) eqn:En; cstep; [|done].
  rewrite (modify_eq _ _ _ c Hp). unfold loop_remove_channel, owned.
  rewrite (deref_ok _ _ (set_added false c)) by (cbn; apply lookup_insert_eq). cstep.
  unfold is_in_loop_thread. cbn [tid_ with_heap id event_handing_ loop_ set_added current_active_channel_ active_channels_].
  intros Hr. outcome_inv.
  all: match goal with Hb : bool_decide (loop_ _ = _) = true |- _ => apply bool_decide_eq_true in Hb end.
  all: match goal with Hb : remove_channel _ _ _ = _ |- _ =>
    apply remove_channel_pre in Hb; [|cbn; apply lookup_insert_eq] end.
  all: unfold is_none_event in En; unbool; split_and!; try done.
  intros _. match goal with Hb : (_ || _)%bool = true |- _ => apply orb_true_iff in Hb; rename Hb into Hor end.
  destruct Hor as [Hb|Hb]; [left; by apply bool_decide_eq_true in Hb | right].
  apply negb_true_iff in Hb. by apply bool_decide_eq_false in Hb.
Qed.

(** Changes of a channel that the epoller does not look at. *)
Lemma inv_touch p c c' l :
  inv l → heap l !! p = Some c → loop_ c' = loop_ c → fd_ c' = fd_ c → index_ c' = index_ c →
  events_ c' = events_ c → added_to_loop_ c' = added_to_loop_ c →
  inv (with_heap l (<[p := c']> (heap l))).
Proof.
  intros [Hc Hm Hk] Hp Hl Hf Hi He Ha. split; cbn.
  - intros q d Hq Hd. destruct (decide (q = p)) as [->|Hne].
    + rewrite lookup_insert_eq in Hq. simplify_eq. unfold chan_ok in *. cbn.
      rewrite Hf, Hi, He, Ha. apply (Hc p c Hp). congruence.
    + rewrite lookup_insert_ne in Hq by done. exact (Hc q d Hq Hd).
  - intros fd q Hq. destruct (Hm fd q Hq) as (d & Hd & ?). destruct (decide (q = p)) as [->|Hne].
    + exists c'. rewrite lookup_insert_eq. simplify_eq. destruct_and!. split_and!; congruence.
    + exists d. by rewrite lookup_insert_ne.
  - intros fd e q Hq. destruct (Hk fd e q Hq) as (d & Hd & ?). destruct (decide (q = p)) as [->|Hne].
    + exists c'. rewrite lookup_insert_eq. simplify_eq. destruct_and!. split_and!; congruence.
    + exists d. by rewrite lookup_insert_ne.
Qed.

Lemma ctor_inv p fd l l' :
  inv l → heap l !! p = None → channel_ctor p fd l = Ok l' → inv l'.
Proof.
  intros [Hc Hm Hk] Hp Hl. unfold channel_ctor in Hl. outcome_inv. split; cbn.
  - intros q d Hq Hd. destruct (decide (q = p)) as [->|Hne].
    + rewrite lookup_insert_eq in Hq. simplify_eq. left. cbn. split_and!; [done | | done].
      intros Hx. destruct (Hm fd p Hx) as (? & ? & _). congruence.
    + rewrite lookup_insert_ne in Hq by done. exact (Hc q d Hq Hd).
  - intros fd' q Hq. destruct (Hm fd' q Hq) as (d & Hd & ?). exists d.
    rewrite lookup_insert_ne; [done|]. congruence.
  - intros fd' e q Hq. destruct (Hk fd' e q Hq) as (d & Hd & ?). exists d.
    rewrite lookup_insert_ne; [done|]. congruence.
Qed.

Lemma dtor_pre tid p l l' : channel_dtor tid p l = Ok l' →
  ∃ c, heap l !! p = Some c ∧ added_to_loop_ c = false ∧ l' = with_heap l (delete p (heap l)).
Proof.
  intros Hl. unfold channel_dtor in Hl. destruct (deref p l) as [c|] eqn:Hd; [|done].
  exists c. apply deref_inv in Hd. split; [done|]. cbn -[loop_has_channel] in Hl. by outcome_inv.
Qed.

(** A channel that is not added to its loop is known to nobody. *)
Lemma dtor_inv tid p l l' : inv l → channel_dtor tid p l = Ok l' → inv l'.
Proof.
  intros [Hc Hm Hk] (c & Hp & Ha & ->)%dtor_pre.
  assert (∀ fd, channels_ l !! fd ≠ Some p) as Hno.
  { intros fd Hx. destruct (Hm fd p Hx) as (d & Hd & Hf & Hdl & Hi).
    destruct (Hc p d Hd Hdl) as [[? _]|[(_ & _ & ? & _)|(_ & _ & ? & _)]]; congruence. }
  split; cbn.
  - intros q d Hq Hd. apply lookup_delete_Some in Hq as [_ Hq]. exact (Hc q d Hq Hd).
  - intros fd q Hq. destruct (Hm fd q Hq) as (d & ?). exists d. rewrite lookup_delete_ne; [done|].
    intros <-. by eapply Hno.
  - intros fd e q Hq. destruct (Hk fd e q Hq) as (d & ? & ? & Hx & ?). exists d. rewrite lookup_delete_ne; [done|].
    intros <-. by eapply Hno.
Qed.

Lemma exec_inv tid o p l l' : inv l → op_ok o p l → exec tid o p l = Ok l' → inv l'.
Proof.
  intros Hinv Hok He. destruct o; cbn [exec op_ok] in *;
    try solve [eapply dtor_inv; eassumption | eapply ctor_inv; eassumption].
  - exact (change_events_inv _ _ (λ c, Z.lor (events_ c) kReadEvent) _ _ Hinv He).
  - exact (change_events_inv _ _ (λ c, Z.land (events_ c) (Z.lnot kReadEvent)) _ _ Hinv He).
  - exact (change_events_inv _ _ (λ c, Z.lor (events_ c) kWriteEvent) _ _ Hinv He).
  - exact (change_events_inv _ _ (λ c, Z.land (events_ c) (Z.lnot kWriteEvent)) _ _ Hinv He).
  - exact (change_events_inv _ _ (λ _, kNoneEvent) _ _ Hinv He).
  - destruct (remove_pre _ _ _ _ He) as (c & ? & ? & ? & ? & ? & ?).
    destruct (remove_ok tid p c l) as (l1 & Hl1 & ? & _); [done..|]. congruence.
  - unfold tie in He. destruct (deref p l) as [c|] eqn:Hp; [|done]. apply deref_inv in Hp.
    cbn in He. outcome_inv.
    rewrite (modify_eq _ _ _ c Hp). by eapply inv_touch.
Qed.

Lemma runs_inv tid l os l' : inv l → runs tid l os l' → inv l'.
Proof. induction 2; eauto using exec_inv. Qed.

Lemma init_inv i tid k : (∀ fd, registered k fd = None) → inv (loop_init i tid k).
Proof. intros Hk. split; cbn; [done | done | intros; by rewrite Hk in *]. Qed.

Lemma loop_ctor_inv i tid k p fd l :
  (∀ fd, registered k fd = None) → loop_ctor i tid k p fd = Ok l → inv l.
Proof.
  intros Hk Hl. unfold loop_ctor in Hl. outcome_inv.
  match goal with Hx : channel_ctor _ _ _ = Ok ?x |- _ => rename Hx into Hc, x into l0 end.
  assert (inv l0) as H0 by (eapply ctor_inv; [by apply init_inv | done | exact Hc]).
  refine (change_events_inv _ _ (λ c, Z.lor (events_ c) kReadEvent) _ _ _ Hl). unfold channel_ctor in Hc. outcome_inv.
  erewrite modify_eq by (cbn; apply lookup_insert_eq).
  eapply inv_touch; [done | cbn; apply lookup_insert_eq | done..].
Qed.

(** The mask a channel asks for after an operation. *)
Definition new_events (o : chan_op) (e : Z) : option Z :=
  match o with
  | EnableReading => Some (Z.lor e kReadEvent)
  | DisableReading => Some (Z.land e (Z.lnot kReadEvent))
  | EnableWriting => Some (Z.lor e kWriteEvent)
  | DisableWriting => Some (Z.land e (Z.lnot kWriteEvent))
  | DisableAll => Some kNoneEvent
  | _ => None
  end.

Lemma exec_change_events tid o p c e l :
  heap l !! p = Some c → new_events o (events_ c) = Some e →
  exec tid o p l = channel_update tid p (with_heap l (<[p := set_events e c]> (heap l))).
Proof.
  intros Hp He. destruct o; cbn [new_events exec] in *; simplify_eq;
    unfold enable_reading, disable_reading, enable_writing, disable_writing, disable_all;
    by rewrite (modify_eq _ _ _ c Hp).
Qed.

(** The registration of a channel, read off its fields. *)
Lemma inv_registered l p c :
  inv l → heap l !! p = Some c → loop_ c = id l → index_ c ≠ kNew →
  registered (kernel l) (fd_ c) = if decide (index_ c = kAdded) then Some (events_ c, p) else None.
Proof.
  intros Hinv Hp Hl Hn. destruct (inv_chan l Hinv p c Hp Hl) as [[? _]|[(Hi & ? & ? & ?)|(Hi & ? & ? & ? & _)]];
    [done | by rewrite decide_True | by rewrite decide_False by (rewrite Hi; done)].
Qed.

(** Loops that differ in one channel only have the same registrations of other descriptors. *)
Lemma inv_other_registered l l' p c c' fd :
  inv l → inv l' → heap l !! p = Some c → heap l' = <[p := c']> (heap l) → id l' = id l →
  fd_ c' = fd_ c → fd ≠ fd_ c → registered (kernel l') fd = registered (kernel l) fd.
Proof.
  intros Hi Hi' Hp Hh Hid Hf Hne. apply option_eq. intros [e q]. split; intros Hq.
  - destruct (inv_kernel l' Hi' fd e q Hq) as (d & Hd & Hfd & Hmap & Hx & <-).
    destruct (inv_map l' Hi' fd q Hmap) as (d' & Hd' & _ & Hl & _). rewrite Hd in Hd'. injection Hd' as <-.
    assert (heap l !! q = Some d) as Hq'.
    { rewrite Hh in Hd. rewrite lookup_insert_ne in Hd; [done|]. intros ->. rewrite lookup_insert_eq in Hd. congruence. }
    rewrite <- Hfd, (inv_registered l q d); [by rewrite decide_True | done | done | congruence | by rewrite Hx].
  - destruct (inv_kernel l Hi fd e q Hq) as (d & Hd & Hfd & Hmap & Hx & <-).
    destruct (inv_map l Hi fd q Hmap) as (d' & Hd' & _ & Hl & _). rewrite Hd in Hd'. injection Hd' as <-.
    assert (heap l' !! q = Some d) as Hq' by (rewrite Hh, lookup_insert_ne by congruence; done).
    rewrite <- Hfd, (inv_registered l' q d); [by rewrite decide_True | done | done | congruence | by rewrite Hx].
Qed.

Lemma change_events_exec tid o p c e l :
  inv l → heap l !! p = Some c → loop_ c = id l → tid = tid_ l →
  (index_ c = kNew → channels_ l !! fd_ c = None) → new_events o (events_ c) = Some e →
  ∃ l', exec tid o p l = Ok l' ∧ inv l' ∧ same_frame l l' ∧
        heap l' = <[p := set_index (next_index (set_events e c)) (set_added true (set_events e c))]> (heap l) ∧
        registered (kernel l') (fd_ c)
        = (if (index_ c =? kAdded) && (e =? kNoneEvent) then None else Some (e, p)) ∧
        ∀ fd, fd ≠ fd_ c → registered (kernel l') fd = registered (kernel l) fd.
Proof.
  intros Hinv Hp Hl Ht Hfree He. rewrite (exec_change_events _ _ _ _ _ _ Hp He).
  destruct (change_events_ok tid p c e l) as (l' & Hu & Hinv' & Hh & Hframe); [done..|].
  exists l'. split; [done|]. split; [done|]. split; [done|]. split; [done|].
  assert (id l' = id l) as Hid by apply Hframe. set (c' := set_index _ _) in *.
  assert (heap l' !! p = Some c') as Hp' by (by rewrite Hh, lookup_insert_eq).
  split.
  - change (fd_ c) with (fd_ c'). rewrite (inv_registered l' p c'); [ | done | done | cbn; congruence |].
    + unfold c', next_index, is_none_event. cbn [index_ events_ set_index set_added set_events].
      rewrite (Z.eqb_sym kNoneEvent).
      by destruct ((index_ c =? kAdded) && (e =? kNoneEvent)).
    + unfold c', next_index. cbn. by destruct (_ && _).
  - intros fd. by eapply inv_other_registered.
Qed.

(** What a successful change of events did. *)
Lemma change_events_done tid o p c e l l' :
  inv l → heap l !! p = Some c → new_events o (events_ c) = Some e → exec tid o p l = Ok l' →
  inv l' ∧ same_frame l l' ∧ loop_ c = id l ∧ tid = tid_ l ∧
  heap l' = <[p := set_index (next_index (set_events e c)) (set_added true (set_events e c))]> (heap l).
Proof.
  intros Hinv Hp He Hx. pose proof Hx as Hx'. rewrite (exec_change_events _ _ _ _ _ _ Hp He) in Hx'.
  destruct (change_events_pre _ _ _ _ _ _ Hp Hx') as (Hl & Ht & Hf).
  destruct (change_events_exec tid o p c e l) as (l1 & Hx1 & ? & ? & ? & _); [done..|]. assert (l1 = l') as -> by congruence. auto.
Qed.

(** A channel that has been removed can be destroyed. *)
Lemma dtor_ok tid p c l :
  inv l → heap l !! p = Some c → loop_ c = id l → tid = tid_ l →
  event_handling_ c = false → added_to_loop_ c = false →
  channel_dtor tid p l = Ok (with_heap l (delete p (heap l))).
Proof.
  intros Hinv Hp Hl -> Hh Ha. unfold channel_dtor. rewrite (deref_ok _ _ c Hp). cstep.
  rewrite Hh, Ha. cstep. unfold loop_has_channel, owned, has_channel, is_in_loop_thread.
  rewrite Z.eqb_refl, (deref_ok _ _ c Hp). cstep. rewrite (bool_decide_true _ Hl). cstep.
  unfold maps_to. rewrite bool_decide_false; [done|].
  destruct (inv_chan l Hinv p c Hp Hl) as [(_ & ? & _)|[(_ & _ & ? & _)|(_ & _ & ? & _)]]; congruence.
Qed.

(** ** Polling *)

(** The kernel reports channels of its interest set. *)
Definition reported l (evs : list epoll_event) : Prop :=
  Forall (λ ep : epoll_event, ∃ fd m, registered (kernel l) fd = Some (m, ep.2)) evs.

Lemma fill_ok evs l active :
  inv l → reported l evs →
  ∃ h, fill_active_channels evs l active = Ok (with_heap l h, active ++ evs.*2) ∧ inv (with_heap l h) ∧
    (∀ q, q ∉ evs.*2 → h !! q = heap l !! q) ∧
    (NoDup (evs.*2) → ∀ ev q, (ev, q) ∈ evs → ∃ c, heap l !! q = Some c ∧ h !! q = Some (set_revents ev c)).
Proof.
  revert l active. induction evs as [|[ev p] evs IH]; intros l active Hinv Hrep.
  - exists (heap l). cbn. rewrite app_nil_r. destruct l; split_and!; try done. intros _ ev q Hq. set_solver.
  - apply Forall_cons in Hrep as [(fd & m & Hr) Hrep]. cbn in Hr.
    destruct (inv_kernel l Hinv _ _ _ Hr) as (c & Hp & Hf & Hmap & _ & _).
    assert (inv (with_heap l (<[p := set_revents ev c]> (heap l)))) as Hinv' by (by eapply inv_touch).
    destruct (IH (with_heap l (<[p := set_revents ev c]> (heap l))) (active ++ [p]) Hinv' Hrep) as (h & Hfill & Hi & Hout & Hin).
    exists h. cbn [fill_active_channels]. rewrite (deref_ok _ _ c Hp). cstep.
    unfold maps_to. rewrite Hf, (bool_decide_true _ Hmap). cstep. rewrite (modify_eq _ _ _ c Hp), Hfill.
    split; [by rewrite <- (assoc_L (++))|]. split; [exact Hi|]. cbn in Hout, Hin |- *. split.
    + intros q Hq. apply not_elem_of_cons in Hq as [? ?]. rewrite Hout, lookup_insert_ne by done. done.
    + intros Hnd ev' q [[= -> ->]|Hq]%elem_of_cons; apply NoDup_cons in Hnd as [Hnin Hnd].
      * exists c. by rewrite Hout, lookup_insert_eq.
      * destruct (Hin Hnd ev' q Hq) as (d & Hd & ?). exists d. split; [|done].
        rewrite lookup_insert_ne in Hd; [done|]. intros <-. apply Hnin.
        apply (list_elem_of_fmap_2 snd _ _ Hq).
Qed.

(** What [epoll_wait] may return: distinct channels of the interest set, as many as the array
    holds, or an error. *)
Definition admissible (r : wait_result) l : Prop :=
  match r with
  | WaitEvents evs => reported l evs ∧ NoDup (evs.*2) ∧ zlen evs <= events_size l < 2 ^ 63
  | WaitErr _ => True
  end.

(** The mask reported for a channel. *)
Definition reports (r : wait_result) (ev : Z) p : Prop :=
  match r with WaitEvents evs => (ev, p) ∈ evs | WaitErr _ => False end.

Lemma inv_flags l l' : inv l → id l' = id l → heap l' = heap l → channels_ l' = channels_ l → kernel l' = kernel l → inv l'.
Proof. intros [Hc Hm Hk] Hid Hh Hch Hke. split; unfold chan_ok in *; rewrite ?Hid, ?Hh, ?Hch, ?Hke in *; done. Qed.

Lemma poll_ok r l : inv l → admissible r l →
  ∃ l' active, poll r l [] = Ok (l', active) ∧ NoDup active ∧ (∀ ev p, reports r ev p → p ∈ active) ∧ inv l' ∧
    id l' = id l ∧ tid_ l' = tid_ l ∧ event_handing_ l' = event_handing_ l ∧
    (∀ p, p ∉ active → heap l' !! p = heap l !! p) ∧
    (∀ p, p ∈ active → ∃ ev c, reports r ev p ∧ heap l !! p = Some c ∧ index_ c = kAdded ∧ heap l' !! p = Some (set_revents ev c)).
Proof.
  intros Hi Hr. destruct r as [evs|e]; [|exists l, []; split_and!; try done; [constructor | set_solver]].
  destruct Hr as (Hrep & Hnd & Hlen). destruct (fill_ok evs l [] Hi Hrep) as (hp & Hfill & Hi' & Hsame & Hset).
  destruct evs as [|e0 evs]; [exists l, []; split_and!; try done; [by intros ev p ?%not_elem_of_nil | set_solver]|].
  unfold poll. set (es := e0 :: evs) in *. decide_test (zlen es <=? events_size l). cstep. rewrite Hfill.
  cbn [mbind outcome_bind]. cstep. cbn [app]. eexists _, _. split; [reflexivity|]. split; [done|].
  split; [intros ev p Hin; by apply (list_elem_of_fmap_2 snd es (ev, p))|]. split; [by eapply inv_flags|]. cbn. do 4 (split; [done|]).
  intros p Hp. change (p ∈ es.*2) in Hp. apply list_elem_of_fmap in Hp as ([ev q] & -> & Hin). cbn.
  destruct (Hset Hnd ev q Hin) as (c & Hc & Hc'). exists ev, c. split_and!; try done.
  unfold reported in Hrep. rewrite Forall_forall in Hrep. destruct (Hrep _ Hin) as (fd & mask & Hreg). cbn in Hreg.
  destruct (inv_kernel _ Hi _ _ _ Hreg) as (d & Hd & _ & _ & Hadd & _). congruence.
Qed.

Lemma reports_unique r l ev ev' p : admissible r l → reports r ev p → reports r ev' p → ev = ev'.
Proof.
  destruct r as [evs|?]; [|done]. intros (_ & Hnd & _). cbn. clear l. induction evs as [|[e q] evs IH]; [by intros ?%not_elem_of_nil|].
  cbn in Hnd. apply NoDup_cons in Hnd as [Hq Hnd].
  assert (∀ e', (e', q) ∉ evs) as Hno by (intros e' Hin; apply Hq; exact (list_elem_of_fmap_2 snd evs (e', q) Hin)).
  rewrite !elem_of_cons. intros [[= -> ->]|H1] [[= ->]|H2]; try done.
  - by destruct (Hno ev').
  - subst. by destruct (Hno ev).
  - by apply IH.
Qed.

(** An answer with given events, each with the descriptor it belongs to. *)
Lemma admissible_events (evs : list epoll_event) (fds : list Z) l :
  Forall2 (λ (e : epoll_event) fd, is_Some (registered (kernel l) fd) ∧ snd <$> registered (kernel l) fd = Some e.2) evs fds →
  NoDup (evs.*2) → zlen evs <= events_size l < 2 ^ 63 → admissible (WaitEvents evs) l.
Proof.
  intros Hreg Hnd Hz. split; [|done]. clear Hnd Hz. unfold reported.
  induction Hreg as [|e fd evs fds [[[mask q] Hs] Hq] _ IH]; [constructor|].
  apply Forall_cons. split; [|done]. rewrite Hs in Hq. cbn in Hq. injection Hq as <-. by exists fd, mask.
Qed.
End Loop.

(** ** Dispatch *)

(** What a dispatch reads of its channel. *)
Definition dispatch_fields (c : channel) : Z * (bool * bool * bool * bool) :=
  (revents_ c, (close_callback_ c, error_callback_ c, read_callback_ c, write_callback_ c)).

Lemma dispatch_fields_eq c c' :
  dispatch_fields c = dispatch_fields c' →
  revents_ c = revents_ c' ∧ close_callback_ c = close_callback_ c' ∧ error_callback_ c = error_callback_ c' ∧
  read_callback_ c = read_callback_ c' ∧ write_callback_ c = write_callback_ c'.
Proof. unfold dispatch_fields. intros [=]. done. Qed.

Section Dispatch.
Context {W : Type} (look : W → channel) (handling : bool → W → W) (run : callback → W → outcome W).
Hypothesis handling_keeps : ∀ b w, dispatch_fields (look (handling b w)) = dispatch_fields (look w).
Hypothesis run_keeps : ∀ cb w w', run cb w = Ok w' → dispatch_fields (look w') = dispatch_fields (look w).

Lemma run_all_app cbs cbs' w :
  run_all run (cbs ++ cbs') w = run_all run cbs w ≫= run_all run cbs'.
Proof.
  revert w. induction cbs as [|cb cbs IH]; intros w; cbn; [done|]. by destruct (run cb w); cbn.
Qed.

(** One [if (revents_ & mask) if (callback) callback();] of the dispatch. *)
Lemma fire_step (b : Z → bool) (set : channel → bool) cb (k : W → outcome W) cbs c w :
  dispatch_fields (look w) = dispatch_fields c →
  (∀ d d', dispatch_fields d = dispatch_fields d' → set d = set d') →
  (∀ w', dispatch_fields (look w') = dispatch_fields c → k w' = (handling false <$> run_all run cbs w')) →
  ((if b (revents_ (look w)) then if set (look w) then run cb w else mret w else mret w) ≫= k)
  = (handling false <$> run_all run ((if b (revents_ c) && set c then [cb] else []) ++ cbs) w).
Proof.
  intros Hw Hset Hk. rewrite (Hset _ c Hw). destruct (dispatch_fields_eq _ _ Hw) as [-> _].
  destruct (b (revents_ c)); [destruct (set c)|]; cbn; [|by apply Hk..].
  destruct (run cb w) as [w'|f] eqn:E; cbn; [|done]. apply Hk. rewrite <- Hw. by eapply run_keeps.
Qed.

Lemma guarded_dispatch w :
  handle_event_with_guard look handling run w
  = (handling false <$> run_all run (dispatch (look w)) (handling true w)).
Proof.
  unfold handle_event_with_guard, dispatch.
  apply (fire_step (λ r, has EPOLLHUP r && negb (has EPOLLIN r)) close_callback_);
    [apply handling_keeps | by intros ?? (? & ? & ? & ? & ?)%dispatch_fields_eq | intros w1 H1].
  apply (fire_step (has EPOLLERR) error_callback_);
    [done | by intros ?? (? & ? & ? & ? & ?)%dispatch_fields_eq | intros w2 H2].
  apply (fire_step (has (Z.lor (Z.lor EPOLLIN EPOLLPRI) EPOLLRDHUP)) read_callback_);
    [done | by intros ?? (? & ? & ? & ? & ?)%dispatch_fields_eq | intros w3 H3].
  rewrite <- (app_nil_r (if has EPOLLOUT (revents_ (look w)) && write_callback_ (look w) then [CbWrite] else [])).
  apply (fire_step (has EPOLLOUT) write_callback_);
    [done | by intros ?? (? & ? & ? & ? & ?)%dispatch_fields_eq | by intros w4 H4].
Qed.
End Dispatch.

(** ** Rules for clients of the dispatch and of [poll] *)

(** The events that call the close callback, and those that call the read callback. *)
Definition hung (ev : Z) : bool := has EPOLLHUP ev && negb (has EPOLLIN ev).

Definition reading (ev : Z) : bool := has (Z.lor (Z.lor EPOLLIN EPOLLPRI) EPOLLRDHUP) ev.

(** No hang-up with urgent data but without ordinary input. *)
Definition hangup_ok (ev : Z) : Prop := hung ev && reading ev = false.

(** The channels that have a read callback only. *)
Definition reads_only (c : channel) : Prop :=
  (close_callback_ c, error_callback_ c, read_callback_ c, write_callback_ c) = (false, false, true, false).

Section Guarded.
Context {W : Type} (look : W → channel) (handling : bool → W → W) (run : callback → W → outcome W).

(** [P] holds while the callbacks of a dispatch with the events [ev] run, [U] as long as the
    connection is not closed. *)
Context (P U : W → Prop) (ev : Z).
Hypothesis fields : ∀ v, P v ∨ U v → dispatch_fields (look v) = (ev, (true, true, true, true)).
Hypothesis up_P : ∀ v, U v → hung ev = false → P v.
Hypothesis on_close : ∀ v, U v → safe P (run CbClose v).
Hypothesis on_error_P : ∀ v, P v → safe P (run CbError v).
Hypothesis on_error_U : ∀ v, U v → safe U (run CbError v).
Hypothesis on_read : ∀ v, U v → hung ev = false → safe P (run CbRead v).
Hypothesis on_write : ∀ v, P v → safe P (run CbWrite v).

Lemma guarded_safe w : U (handling true w) → hangup_ok ev →
  safe (λ w', ∃ v, P v ∧ w' = handling false v) (handle_event_with_guard look handling run w).
Proof.
  intros H0 Hev. unfold handle_event_with_guard. set (w0 := handling true w) in *.
  assert (∀ v, (if hung ev then P v else U v) → P v) as HP.
  { intros v. destruct (hung ev) eqn:E; [done|]. intros Hv. by apply up_P. }
  apply (safe_bind (λ v, if hung ev then P v else U v)).
  { pose proof (fields _ (or_intror H0)) as Hl. injection Hl as Hr Hcl _ _ _. rewrite Hr, Hcl.
    change (has EPOLLHUP ev && negb (has EPOLLIN ev)) with (hung ev). destruct (hung ev); [by apply on_close | done]. }
  intros w1 _ S1. apply (safe_bind (λ v, if hung ev then P v else U v)).
  { pose proof (fields _ (or_introl (HP _ S1))) as Hl. injection Hl as Hr _ He _ _. rewrite Hr, He.
    destruct (has EPOLLERR ev); [|done]. destruct (hung ev); [by apply on_error_P | by apply on_error_U]. }
  intros w2 _ S2. apply (safe_bind P).
  { pose proof (fields _ (or_introl (HP _ S2))) as Hl. injection Hl as Hr _ _ Hrd _. rewrite Hr, Hrd.
    change (has (Z.lor (Z.lor EPOLLIN EPOLLPRI) EPOLLRDHUP) ev) with (reading ev). unfold hangup_ok in Hev.
    destruct (reading ev); [|by apply HP]. rewrite andb_true_r in Hev. rewrite Hev in S2. by apply on_read. }
  intros w3 _ S3. apply (safe_bind P).
  { pose proof (fields _ (or_introl S3)) as Hl. injection Hl as Hr _ _ _ Hw. rewrite Hr, Hw. destruct (has EPOLLOUT ev); [by apply on_write | done]. }
  intros w4 _ S4. by exists w4.
Qed.

(** A channel with a read callback only: [U] holds before it is called, [Q] after it. *)
Lemma guarded_reader (Q : W → Prop) w : (∀ v, U v → reads_only (look v)) → (∀ v, Q v → reads_only (look v)) →
  (∀ v, U v → reading (revents_ (look v)) = false → Q v) →
  (∀ v, U v → reading (revents_ (look v)) = true → safe Q (run CbRead v)) → U (handling true w) →
  safe (λ w', ∃ v, Q v ∧ w' = handling false v) (handle_event_with_guard look handling run w).
Proof.
  intros HU HQ HUQ Hread H0. unfold handle_event_with_guard. set (w0 := handling true w) in *.
  pose proof (HU _ H0) as [= E1 E2 E3 E4].
  rewrite E1. destruct (has EPOLLHUP _ && _); cbn [mbind outcome_bind mret outcome_ret].
  all: rewrite E2; destruct (has EPOLLERR _); cbn [mbind outcome_bind mret outcome_ret]; rewrite E3.
  all: eapply (safe_bind Q); [destruct (has (Z.lor _ _) _) eqn:E; [by apply Hread | by apply HUQ]|].
  all: intros v _ Hv; pose proof (HQ _ Hv) as [= _ _ _ E5]; rewrite E5; destruct (has EPOLLOUT _); cbn; by exists v.
Qed.
End Guarded.

(** ** An epoll instance as a map, for concrete runs *)

Definition map_ctl (o : ctl) (fd : Z) (e : epoll_event) (k : gmap Z epoll_event) : option (gmap Z epoll_event) :=
  match o, k !! fd with
  | CtlAdd, None => Some (<[fd := e]> k)
  | CtlMod, Some _ => Some (<[fd := e]> k)
  | CtlDel, Some _ => Some (delete fd k)
  | _, _ => None
  end.

#[global, refine] Instance map_kernel : EpollKernel (gmap Z epoll_event) := {|
  registered k fd := k !! fd;
  epoll_ctl := map_ctl
|}.
Proof.
  - intros k fd e Hk. exists (<[fd := e]> k). unfold map_ctl. rewrite Hk. split; [done|].
    intros fd'. rewrite lookup_insert. by repeat case_decide.
  - intros k fd e e0 Hk. exists (<[fd := e]> k). unfold map_ctl. rewrite Hk. split; [done|].
    intros fd'. rewrite lookup_insert. by repeat case_decide.
  - intros k fd e e0 Hk. exists (delete fd k). unfold map_ctl. rewrite Hk. split; [done|].
    intros fd'. rewrite lookup_delete. by repeat case_decide.
Defined.

(** A loop of thread 7 whose wakeup channel is at address 1 on descriptor 5. *)
Definition demo_loop : loop (gmap Z epoll_event) :=
  match loop_ctor 0 7 ∅ 1 5 with Ok l => l | Fault _ => loop_init 0 7 ∅ end.

(** ** The reactor's theorems *)

Section Theorems.
Context {K : Type} `{EpollKernel K}.
Implicit Types (l : loop K) (p : nat) (c : channel) (tid : Z).

(** Unregistering and destroying a channel, whether or not it was ever registered. *)
Lemma teardown_ok tid p c l :
  inv l → heap l !! p = Some c → loop_ c = id l → tid = tid_ l → (index_ c = kNew → channels_ l !! fd_ c = None) →
  event_handling_ c = false →
  (event_handing_ l = true → current_active_channel_ l = Some p ∨ p ∉ active_channels_ l) →
  ∃ l1 l2 l3, disable_all tid p l = Ok l1 ∧ channel_remove tid p l1 = Ok l2 ∧ channel_dtor tid p l2 = Ok l3 ∧
    inv l3 ∧ heap l3 = delete p (heap l) ∧ registered (kernel l3) (fd_ c) = None.
Proof.
  intros Hinv Hp Hl Ht Hi Hh Hact.
  destruct (change_events_exec tid DisableAll p c kNoneEvent l) as (l1 & Hex & Hi1 & Hf1 & Hh1 & _ & _); [done..|].
  destruct Hf1 as (Hid & Htid & _ & Hev & Hcur & Hacts). set (c1 := set_index _ _) in Hh1.
  assert (heap l1 !! p = Some c1) as Hp1 by (by rewrite Hh1, lookup_insert_eq).
  assert (index_ c1 ≠ kNew) as Hn1 by (unfold c1, next_index; cbn; by destruct (_ && _)).
  destruct (remove_ok tid p c1 l1) as (l2 & Hrm & Hi2 & (Hid2 & Htid2 & _) & Hh2 & Hc2 & Hr2);
    [done | done | cbn; congruence | congruence | done | done | rewrite Hev, Hcur, Hacts; done |].
  assert (heap l2 !! p = Some (set_index kNew (set_added false c1))) as Hp2 by (by rewrite Hh2, lookup_insert_eq).
  pose proof (dtor_ok tid p _ l2 Hi2 Hp2 ltac:(cbn; congruence) ltac:(congruence) Hh eq_refl) as Hd.
  exists l1, l2, (with_heap l2 (delete p (heap l2))). split; [exact Hex|]. split; [exact Hrm|]. split; [exact Hd|].
  split; [by eapply dtor_inv|]. split; [|done]. cbn. by rewrite Hh2, Hh1, insert_insert_eq, delete_insert_eq.
Qed.

(** C10. A new event loop has its wakeup descriptor registered for reading, and whatever
    channel operations follow, in any order and on any channels, as long as no assertion
    stops the program the epoller's map, the index of every channel, the flag
    [added_to_loop_] and the kernel's interest set agree: a channel is registered with the
    kernel exactly for the events it asks for. *)
Theorem reactor_registrations_agree i tid (k : K) p fd :
  (∀ fd, registered k fd = None) → fd ≠ -1 →
  ∃ l, loop_ctor i tid k p fd = Ok l ∧ registered (kernel l) fd = Some (kReadEvent, p) ∧
       ∀ os l', runs tid l os l' → inv l'.
Proof.
  intros Hk Hfd. set (l0 := loop_init i tid k).
  set (c := mkChannel i fd 0 0 (-1) false false false true false false false).
  set (l1 := with_heap l0 (<[p := c]> (heap l0))).
  assert (loop_ctor i tid k p fd = exec tid EnableReading p l1) as Heq.
  { unfold loop_ctor, channel_ctor. decide_test (fd =? -1). cstep.
    erewrite modify_eq by (cbn; apply lookup_insert_eq). unfold l1, with_heap. cbn. by rewrite insert_insert_eq. }
  assert (heap l1 !! p = Some c) as Hp by (cbn; apply lookup_insert_eq).
  assert (inv l1) as Hinv.
  { split; cbn; [|done|intros; by rewrite Hk in *]. intros q d [[-> <-]|[_ ?]]%lookup_insert_Some; [by left | done]. }
  destruct (change_events_exec tid EnableReading p c kReadEvent l1) as (l & Hl & Hi & _ & _ & Hr & _);
    [done | done | done | done | done | reflexivity |].
  exists l. rewrite Heq. split; [done|]. split; [exact Hr|]. intros os l'. by apply runs_inv.
Qed.

(** C26. Each of [enable_reading], [disable_reading], [enable_writing], [disable_writing] and
    [disable_all], called in the loop's thread on a channel whose descriptor is not taken by
    another one, succeeds and makes the kernel watch the descriptor for exactly the new
    mask; an already added channel with an empty mask leaves the interest set.  No other
    descriptor is affected. *)
Theorem channel_operation_registers tid o p c e l :
  inv l → heap l !! p = Some c → loop_ c = id l → tid = tid_ l →
  (index_ c = kNew → channels_ l !! fd_ c = None) → new_events o (events_ c) = Some e →
  ∃ l', exec tid o p l = Ok l' ∧ inv l' ∧ events_ <$> heap l' !! p = Some e ∧
        registered (kernel l') (fd_ c)
        = (if (index_ c =? kAdded) && (e =? kNoneEvent) then None else Some (e, p)) ∧
        (∀ fd, fd ≠ fd_ c → registered (kernel l') fd = registered (kernel l) fd) ∧
        (∀ q, q ≠ p → heap l' !! q = heap l !! q).
Proof.
  intros Hinv Hp Hl Ht Hf He.
  destruct (change_events_exec tid o p c e l) as (l' & Hex & Hi & _ & Hh & Hr & Ho); [done..|].
  exists l'. rewrite Hh, lookup_insert_eq. split_and!; try done.
  intros q Hq. by rewrite lookup_insert_ne.
Qed.

(** The shutdown sequence of a registered channel, [disable_all], [remove] and the
    destructor, runs through all its assertions and leaves neither the map nor the kernel
    with the descriptor or the dangling pointer. *)
Theorem channel_teardown tid p c l :
  inv l → heap l !! p = Some c → loop_ c = id l → tid = tid_ l → index_ c = kAdded →
  event_handling_ c = false →
  (event_handing_ l = true → current_active_channel_ l = Some p ∨ p ∉ active_channels_ l) →
  ∃ l', runs tid l [(DisableAll, p); (Remove, p); (Destroy, p)] l' ∧ inv l' ∧
        heap l' = delete p (heap l) ∧ registered (kernel l') (fd_ c) = None ∧
        (∀ fd, channels_ l' !! fd ≠ Some p) ∧ (∀ fd e, registered (kernel l') fd ≠ Some (e, p)).
Proof.
  intros Hinv Hp Hl Ht Hi Hh Hact.
  destruct (teardown_ok tid p c l) as (l1 & l2 & l3 & Hex & Hrm & Hd & Hi3 & Hh3 & Hr3);
    [done | done | done | done | by rewrite Hi | done | done |].
  exists l3. split; [|split; [done|]].
  { repeat (eapply runs_cons; [done | eassumption |]). constructor. }
  split; [done|]. split; [done|]. split.
  - intros fd Hx. destruct (inv_map _ Hi3 _ _ Hx) as (d & Hd' & _). by rewrite Hh3, lookup_delete_eq in Hd'.
  - intros fd e Hx. destruct (inv_kernel _ Hi3 _ _ _ Hx) as (d & Hd' & _). by rewrite Hh3, lookup_delete_eq in Hd'.
Qed.

(** A second [disable_all] undoes the first one: the channel comes back into the kernel's
    interest set with an empty mask, for which epoll still reports errors and hang-ups. *)
Theorem disable_all_is_not_idempotent tid p c l :
  inv l → heap l !! p = Some c → loop_ c = id l → tid = tid_ l → index_ c = kAdded →
  ∃ l1 l2, disable_all tid p l = Ok l1 ∧ registered (kernel l1) (fd_ c) = None ∧
           disable_all tid p l1 = Ok l2 ∧ registered (kernel l2) (fd_ c) = Some (kNoneEvent, p).
Proof.
  intros Hinv Hp Hl Ht Hi.
  destruct (change_events_exec tid DisableAll p c kNoneEvent l) as (l1 & Hex & Hi1 & Hf1 & Hh1 & Hr1 & _);
    [done | done | done | done | rewrite Hi; done | done |].
  destruct Hf1 as (Hid & Htid & _). set (c1 := set_index _ _) in Hh1.
  assert (heap l1 !! p = Some c1) as Hp1 by (by rewrite Hh1, lookup_insert_eq).
  assert (index_ c1 = kDeleted) as Hn1 by (unfold c1, next_index; cbn; by rewrite Hi).
  destruct (change_events_exec tid DisableAll p c1 kNoneEvent l1) as (l2 & Hex2 & _ & _ & _ & Hr2 & _);
    [done | done | cbn; congruence | congruence | rewrite Hn1; done | done |].
  exists l1, l2. split; [done|]. rewrite Hi in Hr1. split; [done|]. split; [done|].
  rewrite Hn1 in Hr2. exact Hr2.
Qed.

(** C27. When [epoll_wait] reports distinct channels of the interest set, no more than the
    event array holds, [poll] passes all its assertions, appends exactly those channels in
    the order reported, stores in each the events reported for it and in no other channel,
    and doubles the array if it was filled. *)
Theorem poll_delivers_reported_events evs l active :
  inv l → reported l evs → NoDup (evs.*2) → zlen evs <= events_size l → events_size l < 2 ^ 63 →
  ∃ l', poll (WaitEvents evs) l active = Ok (l', active ++ evs.*2) ∧ inv l' ∧ kernel l' = kernel l ∧
    events_size l' = (if bool_decide (evs ≠ [] ∧ zlen evs = events_size l)
                      then events_size l * 2 else events_size l) ∧
    (∀ ev q, (ev, q) ∈ evs → ∃ c, heap l !! q = Some c ∧ heap l' !! q = Some (set_revents ev c)) ∧
    (∀ q, q ∉ evs.*2 → heap l' !! q = heap l !! q).
Proof.
  intros Hinv Hrep Hnd Hlen Hsz. destruct (fill_ok evs l active Hinv Hrep) as (h & Hf & Hi & Hout & Hin).
  destruct evs as [|e0 evs]; [exists l; cbn; rewrite app_nil_r; split_and!; try done; set_solver|].
  set (es := e0 :: evs) in *. assert (es ≠ []) as Hne by done. unfold poll. subst es. cbv iota.
  set (es := e0 :: evs) in *. decide_test (zlen es <=? events_size l). cstep. rewrite Hf. cstep.
  cbn [events_size with_heap]. eexists. split; [reflexivity|]. cbn.
  split; [destruct Hi; by split|]. split; [done|]. split; [|split; [by apply Hin | done]].
  destruct (Z.eqb_spec (zlen es) (events_size l)).
  - rewrite bool_decide_true by done. apply u64_small. pose proof (zlen_nonneg es). lia.
  - by rewrite bool_decide_false by tauto.
Qed.

(** C28. [handle_event] runs, of the callbacks that are set, the close callback when the peer
    hung up without data, then the error, read and write callbacks that the received events
    call for, and nothing at all once the tied owner is gone; a callback that stops the
    program stops the dispatch. *)
Theorem handle_event_runs_dispatch {W} (look : W → channel) handling run (alive : bool) (w : W) :
  (∀ b w, dispatch_fields (look (handling b w)) = dispatch_fields (look w)) →
  (∀ cb w w', run cb w = Ok w' → dispatch_fields (look w') = dispatch_fields (look w)) →
  handle_event look handling run alive w
  = if tied_ (look w) && negb alive then Ok w
    else handling false <$> run_all run (dispatch (look w)) (handling true w).
Proof.
  intros Hh Hr. unfold handle_event. rewrite (guarded_dispatch look handling run Hh Hr).
  by destruct (tied_ (look w)), alive.
Qed.
End Theorems.

(** ** Witnesses *)

Lemma demo_registered : ∀ fd, registered (∅ : gmap Z epoll_event) fd = None.
Proof. intros fd. apply lookup_empty. Qed.

Lemma demo_inv : inv demo_loop.
Proof. eapply (loop_ctor_inv 0 7 ∅ 1 5); [exact demo_registered | vm_compute; reflexivity]. Qed.

Definition demo_channel : channel :=
  match heap demo_loop !! 1%nat with
  | Some c => c
  | None => mkChannel 0 0 0 0 0 false false false false false false false
  end.

Lemma reactor_registrations_agree_witness :
  ∃ l l' : loop (gmap Z epoll_event), loop_ctor 0 7 ∅ 1 5 = Ok l ∧
    runs 7 l [(NewChannel 8, 2%nat); (EnableReading, 2%nat); (EnableWriting, 2%nat)] l' ∧ inv l'.
Proof.
  destruct (reactor_registrations_agree 0 7 (∅ : gmap Z epoll_event) 1 5) as (l & Hl & _ & Hr);
    [apply demo_registered | done |].
  assert (l = demo_loop) as -> by (unfold demo_loop; by rewrite Hl).
  eexists demo_loop, _. split; [exact Hl|]. match goal with |- ?A ∧ _ => assert A as Hruns end.
  { repeat (eapply runs_cons; [vm_compute; done | vm_compute; reflexivity |]). constructor. }
  split; [exact Hruns | exact (Hr _ _ Hruns)].
Defined.

Lemma channel_operation_registers_witness :
  ∃ l', exec 7 EnableWriting 1 demo_loop = Ok l' ∧ registered (kernel l') 5 = Some (7, 1%nat).
Proof.
  destruct (channel_operation_registers 7 EnableWriting 1 demo_channel 7 demo_loop) as (l' & He & _ & _ & Hr & _);
    [exact demo_inv | vm_compute; reflexivity.. | vm_compute; discriminate | vm_compute; reflexivity |].
  exists l'. split; [exact He | exact Hr].
Defined.

Lemma channel_teardown_witness :
  ∃ l', runs 7 demo_loop [(DisableAll, 1%nat); (Remove, 1%nat); (Destroy, 1%nat)] l' ∧ heap l' = ∅.
Proof.
  destruct (channel_teardown 7 1 demo_channel demo_loop) as (l' & Hr & _ & Hh & _);
    [exact demo_inv | vm_compute; reflexivity.. | vm_compute; discriminate |].
  exists l'. split; [exact Hr | rewrite Hh; vm_compute; reflexivity].
Defined.

Lemma disable_all_is_not_idempotent_witness :
  ∃ l1 l2, disable_all 7 1 demo_loop = Ok l1 ∧ disable_all 7 1 l1 = Ok l2 ∧
           registered (kernel l2) 5 = Some (0, 1%nat).
Proof.
  destruct (disable_all_is_not_idempotent 7 1 demo_channel demo_loop) as (l1 & l2 & H1 & _ & H2 & Hr);
    [exact demo_inv | vm_compute; reflexivity.. |].
  exists l1, l2. split; [exact H1|]. split; [exact H2 | exact Hr].
Defined.

Lemma poll_delivers_reported_events_witness :
  ∃ l', poll (WaitEvents [(EPOLLIN, 1%nat)]) demo_loop [] = Ok (l', [1%nat]) ∧
        revents_ <$> heap l' !! 1%nat = Some EPOLLIN.
Proof.
  destruct (poll_delivers_reported_events [(EPOLLIN, 1%nat)] demo_loop []) as (l' & Hp & _ & _ & _ & Hin & _).
  - exact demo_inv.
  - constructor; [|constructor]. exists 5, kReadEvent. vm_compute. reflexivity.
  - apply NoDup_singleton.
  - vm_compute. discriminate.
  - vm_compute. reflexivity.
  - exists l'. split; [exact Hp|]. destruct (Hin EPOLLIN 1%nat) as (c & _ & Hc); [by apply list_elem_of_singleton|].
    by rewrite Hc.
Defined.

Lemma handle_event_runs_dispatch_witness :
  let c := mkChannel 0 5 3 (Z.lor EPOLLIN EPOLLOUT) 1 false true false true true true true in
  handle_event fst (λ _ w, w) (λ cb w, Ok (w.1, w.2 ++ [cb])) true (c, []) = Ok (c, [CbRead; CbWrite]).
Proof.
  cbv zeta.
  rewrite (handle_event_runs_dispatch fst (λ _ w, w) (λ cb w, Ok (w.1, w.2 ++ [cb])) true);
    [vm_compute; reflexivity | done | by intros cb w w' [= <-]].
Defined.
