(* ===== verification/ReactorTypes.v ===== *)
(** * The types of the reactor's data members

    The data members of [Channel] and [Epoller] are C++ integers and masks that the rest of the
    reactor compares with a few constants ([src/reactor/channel.cc], [epoller.cc]).  This file shows
    that they keep to their types and to these constants: every function of the file Reactor that
    changes a loop preserves [well_typed]. *)

From S2P Require Import Prelude Reactor.

Module ReactorTypes.

Definition int32 (x : Z) : Prop := - 2 ^ 31 <= x < 2 ^ 31.

(** What [events_] and [index_] are compared with. *)
Definition masks : list Z := [kNoneEvent; kReadEvent; kWriteEvent; Z.lor kReadEvent kWriteEvent].
Definition states : list Z := [kNew; kAdded; kDeleted].

Record typed (c : channel) : Prop := {
  t_fd : int32 (fd_ c);
  t_events : events_ c ∈ masks;
  t_revents : int32 (revents_ c);
  t_index : index_ c ∈ states
}.

Lemma mask_none : kNoneEvent ∈ masks.
Proof. left. Qed.

(** The four changes of a mask. *)
Lemma mask_change e : e ∈ masks →
  Z.lor e kReadEvent ∈ masks ∧ Z.lor e kWriteEvent ∈ masks ∧
  Z.land e (Z.lnot kReadEvent) ∈ masks ∧ Z.land e (Z.lnot kWriteEvent) ∈ masks.
Proof.
  intros He. unfold masks in He. rewrite !elem_of_cons, elem_of_nil in He.
  destruct He as [->|[->|[->|[->|[]]]]]; split_and!; apply (bool_decide_unpack _); vm_compute; reflexivity.
Qed.

Section Types.
Context {K : Type} `{EpollKernel K}.
Implicit Types (l : loop K) (p : nat) (c : channel).

Record well_typed l : Prop := {
  w_heap : ∀ p c, heap l !! p = Some c → typed c;
  w_keys : ∀ fd p, channels_ l !! fd = Some p → int32 fd;
  w_size : 0 <= events_size l < 2 ^ 64
}.

Lemma typed_deref p l c : well_typed l → deref p l = Ok c → typed c.
Proof. intros Hw Hd. apply deref_inv in Hd. by eapply w_heap. Qed.

Lemma modify_typed p g l : well_typed l → (∀ c, typed c → typed (g c)) → well_typed (modify p g l).
Proof.
  intros [Hh Hk Hs] Hg. split; [|exact Hk | exact Hs]. intros q c. unfold modify. cbn. rewrite lookup_alter. case_decide as Hq; [|by apply Hh]. rewrite <- ?Hq in *.
  destruct (heap l !! p) as [d|] eqn:E; [|done]. intros [= <-]. by apply Hg, (Hh _ _ E).
Qed.

Lemma set_events_typed (f : Z → Z) : (∀ e, e ∈ masks → f e ∈ masks) → ∀ c, typed c → typed (set_events (f (events_ c)) c).
Proof. intros Hf c [? ? ? ?]. split; cbn; auto. Qed.

Lemma set_index_typed j c : j ∈ states → typed c → typed (set_index j c).
Proof. intros Hj [? ? ? ?]. by split. Qed.

Lemma set_added_typed b c : typed c → typed (set_added b c).
Proof. intros [? ? ? ?]. by split. Qed.

Lemma update_typed op p l l' : well_typed l → update op p l = Ok l' → well_typed l'.
Proof.
  unfold update. intros Hw Hx. destruct (deref p l) as [c|]; [bstep Hx | done].
  destruct (epoll_ctl _ _ _ _); injection Hx as <-; [by destruct Hw; split | done].
Qed.

Lemma index_typed p j l : well_typed l → bool_decide (j ∈ states) = true → well_typed (modify p (set_index j) l).
Proof. intros Hw Hj. apply modify_typed; [done|]. intros c. apply set_index_typed. by apply bool_decide_eq_true in Hj. Qed.

Lemma update_channel_typed tid p l l' : well_typed l → update_channel tid p l = Ok l' → well_typed l'.
Proof.
  intros Hw Hx. unfold update_channel in Hx. destruct (is_in_loop_thread tid l); [bstep Hx | done].
  destruct (deref p l) as [c|] eqn:Hd; [bstep Hx | done]. destruct (_ || _).
  - destruct (if kNew =? index_ c then _ else _) as [l1|] eqn:E; [bstep Hx | done].
    eapply update_typed; [|exact Hx]. apply index_typed; [|done].
    destruct (kNew =? _); (destruct (_ : bool); [bstep E; injection E as <- | done]); [|done].
    destruct Hw as [Hh Hk Hs]. split; [exact Hh | | exact Hs]. cbn. intros fd q [[<- <-]|[_ ?]]%lookup_insert_Some; [|by eapply Hk].
    apply deref_inv in Hd. by apply (Hh _ _ Hd).
  - destruct (_ && _); [bstep Hx | done]. destruct (is_none_event c); [|by eapply update_typed].
    destruct (update CtlDel p l) as [l1|] eqn:E; [bstep Hx | done]. injection Hx as <-.
    apply index_typed; [by eapply update_typed | done].
Qed.

Lemma remove_channel_typed tid p l l' : well_typed l → remove_channel tid p l = Ok l' → well_typed l'.
Proof.
  intros Hw Hx. unfold remove_channel in Hx.
  assert (∀ fd, well_typed (with_channels l (delete fd (channels_ l)))) as Hdel.
  { intros fd. destruct Hw as [Hh Hk Hs]. split; [exact Hh | | exact Hs]. cbn. intros fd' q [_ ?]%lookup_delete_Some. by eapply Hk. }
  outcome_inv.
  all: apply index_typed; [|done]; first [eapply update_typed; [apply Hdel | done] | apply Hdel].
Qed.

Lemma channel_update_typed tid p l l' : well_typed l → channel_update tid p l = Ok l' → well_typed l'.
Proof.
  intros Hw Hx. unfold channel_update, loop_update_channel in Hx. outcome_inv.
  eapply update_channel_typed; [|done]. apply modify_typed; [done | apply set_added_typed].
Qed.

Lemma change_mask_typed tid p (f : Z → Z) l l' : well_typed l → (∀ e, e ∈ masks → f e ∈ masks) →
  channel_update tid p (modify p (λ c, set_events (f (events_ c)) c) l) = Ok l' → well_typed l'.
Proof. intros Hw Hf. apply channel_update_typed, modify_typed; [done | by apply set_events_typed]. Qed.

(** What a client of the loop may do, and what its thread does. *)
Inductive act := Op (o : chan_op) (p : nat) | Poll (r : wait_result).

(** Descriptors are [int]s, and a [uint32_t] mask of epoll converts to [int]. *)
Definition act_ok (a : act) : Prop :=
  match a with
  | Op (NewChannel fd) _ => int32 fd
  | Poll (WaitEvents evs) => Forall (λ e : epoll_event, int32 e.1) evs
  | _ => True
  end.

Definition run_act tid (a : act) l : outcome (loop K) :=
  match a with
  | Op o p => exec tid o p l
  | Poll r => '(l, _) ← poll r l []; mret l
  end.

Fixpoint run_acts tid (acts : list act) l : outcome (loop K) :=
  match acts with
  | [] => mret l
  | a :: acts => l ← run_act tid a l; run_acts tid acts l
  end.

Lemma exec_typed tid o p l l' : well_typed l → act_ok (Op o p) → exec tid o p l = Ok l' → well_typed l'.
Proof.
  intros Hw Ho Hx. destruct o; cbn [exec] in Hx.
  - unfold channel_ctor in Hx. outcome_inv. destruct Hw as [Hh Hk Hs]. split; [|exact Hk | exact Hs]. cbn.
    intros q c [[<- <-]|[_ ?]]%lookup_insert_Some; [|by eapply Hh]. split; [exact Ho | apply mask_none | done | left].
  - eapply (change_mask_typed tid p (λ e, Z.lor e kReadEvent)); [done | intros e ?; by apply mask_change | exact Hx].
  - eapply (change_mask_typed tid p (λ e, Z.land e (Z.lnot kReadEvent))); [done | intros e ?; by apply mask_change | exact Hx].
  - eapply (change_mask_typed tid p (λ e, Z.lor e kWriteEvent)); [done | intros e ?; by apply mask_change | exact Hx].
  - eapply (change_mask_typed tid p (λ e, Z.land e (Z.lnot kWriteEvent))); [done | intros e ?; by apply mask_change | exact Hx].
  - eapply (change_mask_typed tid p (λ _, kNoneEvent)); [done | intros; apply mask_none | exact Hx].
  - unfold channel_remove, loop_remove_channel in Hx. outcome_inv.
    all: (eapply remove_channel_typed; [|done]); apply modify_typed; [done | apply set_added_typed].
  - unfold tie in Hx. outcome_inv. apply modify_typed; [done|]. intros c [? ? ? ?]. by split.
  - unfold channel_dtor in Hx. outcome_inv.
    all: destruct Hw as [Hh Hk Hs]; split; [|exact Hk | exact Hs]; cbn; intros q c [_ ?]%lookup_delete_Some; by eapply Hh.
Qed.

Lemma fill_typed evs l active r : well_typed l → Forall (λ e : epoll_event, int32 e.1) evs →
  fill_active_channels evs l active = Ok r → well_typed r.1 ∧ events_size r.1 = events_size l.
Proof.
  revert l active. induction evs as [|[ev p] evs IH]; intros l active Hw Hev Hx; cbn [fill_active_channels] in Hx; [by injection Hx as <-|].
  apply Forall_cons in Hev as [He Hev]. destruct (deref p l) as [c|]; [bstep Hx | done]. destruct (maps_to _ _ _); [bstep Hx | done].
  apply IH in Hx; [done | | done]. apply modify_typed; [done|]. intros d [? ? ? ?]. by split.
Qed.

Lemma poll_typed r l q : well_typed l → act_ok (Poll r) → poll r l [] = Ok q → well_typed q.1.
Proof.
  intros Hw Hr Hx. destruct r as [[|e evs]|?]; cbn [poll] in Hx; [by injection Hx as <-| |by injection Hx as <-].
  destruct (_ <=? _); [bstep Hx | done]. destruct (fill_active_channels _ _ _) as [[l1 active]|] eqn:E; [bstep Hx | done].
  destruct (fill_typed _ _ _ _ Hw Hr E) as [[Hh Hk Hs] Hsz]. injection Hx as <-. split; [exact Hh | exact Hk|].
  cbn [fst events_size]. match goal with |- context [if ?b then _ else _] => destruct b end; [|exact Hs]. unfold u64. apply Z.mod_pos_bound. lia.

Qed.

End Types.

End ReactorTypes.
