(* ===== verification/LoopLife.v ===== *)
(** * The life of event loops (src/reactor/event_loop.cc: constructor and destructor)

    Each thread has a variable [kLoopInThisThread].  The constructor of a loop asserts that it
    is null and sets it, the destructor takes the wakeup channel off its epoller and clears the
    variable.  Here a process is all its loops, each with its wakeup channel, and those variables;
    between construction and destruction the channels of a loop are operated as in the file
    Reactor.

    The proof is that a thread never has two loops and that a destructor succeeds exactly in
    the thread of its loop, whatever was done to the loops before. *)

From S2P Require Import Prelude Reactor.

Module LoopLife.
Section LoopLife.
Context {K : Type} `{EpollKernel K}.
Implicit Types (l : loop K) (tid : Z).

(** Loops and wakeup channels by the address of the loop. *)
Record process := mkProcess { kLoopInThisThread : gmap Z nat; loops : gmap nat (loop K * nat) }.

(** [EventLoop::EventLoop] in the thread [tid] at the unused address [a]: the epoll instance
    is [k], the wakeup channel gets the address [p] and the descriptor of [eventfd]. *)
Definition construct tid (a p : nat) (k : K) (wakeup_fd : Z) (P : process) : outcome process :=
  _ ← cassert (negb (wakeup_fd =? -1) && bool_decide (kLoopInThisThread P !! tid = None));
  l ← loop_ctor a tid k p wakeup_fd;
  mret (mkProcess (<[tid := a]> (kLoopInThisThread P)) (<[a := (l, p)]> (loops P))).

(** [EventLoop::~EventLoop] in the thread [tid], and the destructor of [wakeup_channel_]. *)
Definition destruct tid (a : nat) (P : process) : outcome process :=
  match loops P !! a with
  | None => Fault OutOfBounds
  | Some (l, p) =>
      l ← disable_all tid p l;
      l ← channel_remove tid p l;
      _ ← channel_dtor tid p l;
      mret (mkProcess (delete tid (kLoopInThisThread P)) (delete a (loops P)))
  end.

(** An operation on the channel [q] of the loop [a]. *)
Definition operate tid (a q : nat) (o : chan_op) (P : process) : outcome process :=
  match loops P !! a with
  | None => Fault OutOfBounds
  | Some (l, p) => l ← exec tid o q l; mret (mkProcess (kLoopInThisThread P) (<[a := (l, p)]> (loops P)))
  end.

(** What threads do, each step that does not fail: objects are made at unused addresses around
    new epoll instances, and nobody else has the wakeup channel. *)
Inductive step : process → process → Prop :=
| Construct tid a p k fd P P' :
    loops P !! a = None → (∀ fd, registered k fd = None) → construct tid a p k fd P = Ok P' → step P P'
| Destruct tid a P P' : destruct tid a P = Ok P' → step P P'
| Operate tid a q o P P' l p :
    loops P !! a = Some (l, p) → q ≠ p → op_ok o q l → operate tid a q o P = Ok P' → step P P'.

(** ** Invariant *)

(** A loop at its address, outside any dispatch, with its wakeup channel. *)
Definition loop_ok (a : nat) l p : Prop :=
  id l = a ∧ inv l ∧ event_handing_ l = false ∧
  ∃ c, heap l !! p = Some c ∧ loop_ c = a ∧ index_ c ≠ kNew ∧ event_handling_ c = false.

Record pinv (P : process) : Prop := {
  pi_loop : ∀ a l p, loops P !! a = Some (l, p) → loop_ok a l p;
  pi_thread : ∀ t a, kLoopInThisThread P !! t = Some a ↔ ∃ l p, loops P !! a = Some (l, p) ∧ tid_ l = t
}.

(** What an operation leaves alone. *)
Lemma exec_keeps tid o q l l' : inv l → exec tid o q l = Ok l' →
  id l' = id l ∧ tid_ l' = tid_ l ∧ event_handing_ l' = event_handing_ l ∧ ∀ r, r ≠ q → heap l' !! r = heap l !! r.
Proof.
  intros Hi Hx.
  assert (∀ l1 f, same_frame l l1 → heap l1 = <[q := f]> (heap l) →
    id l1 = id l ∧ tid_ l1 = tid_ l ∧ event_handing_ l1 = event_handing_ l ∧ ∀ r, r ≠ q → heap l1 !! r = heap l !! r) as Hframe.
  { intros l1 f (? & ? & _ & ? & _) Hh. split_and!; try done. intros r Hr. by rewrite Hh, lookup_insert_ne. }
  destruct (heap l !! q) as [c|] eqn:Hq.
  - destruct (new_events o (events_ c)) as [e|] eqn:He.
    + destruct (change_events_done tid o q c e l l' Hi Hq He Hx) as (_ & Hf & _ & _ & Hh). by eapply Hframe.
    + destruct o; try discriminate He; cbn [exec] in Hx.
      * unfold channel_ctor in Hx. outcome_inv. split_and!; try done. intros r Hr. by apply lookup_insert_ne.
      * destruct (remove_pre _ _ _ _ Hx) as (d & Hd & ? & ? & ? & ? & ?).
        destruct (remove_ok tid q d l) as (l1 & Hl1 & _ & Hf & Hh & _); [done..|].
        assert (l1 = l') as -> by congruence. by eapply Hframe.
      * unfold tie in Hx. outcome_inv. rewrite (modify_eq _ _ _ c Hq). split_and!; try done. intros r Hr. by apply lookup_insert_ne.
      * unfold channel_dtor in Hx. outcome_inv. all: split_and!; try done; intros r Hr; by apply lookup_delete_ne.
  - destruct o; cbn [exec] in Hx;
      try (unfold enable_reading, disable_reading, enable_writing, disable_writing, disable_all, channel_update, deref, modify in Hx;
           cbn in Hx; rewrite lookup_alter_eq, Hq in Hx; discriminate Hx);
      try (unfold channel_remove, tie, channel_dtor, deref in Hx; rewrite Hq in Hx; discriminate Hx).
    unfold channel_ctor in Hx. outcome_inv. split_and!; try done. intros r Hr. by apply lookup_insert_ne.
Qed.

(** A loop that has just been constructed. *)
Lemma loop_ctor_ok tid a p (k : K) fd : fd ≠ -1 → (∀ fd, registered k fd = None) →
  ∃ l, loop_ctor a tid k p fd = Ok l ∧ loop_ok a l p ∧ tid_ l = tid ∧
    heap l = {[p := mkChannel a fd kReadEvent 0 kAdded false true false true false false false]}.
Proof.
  intros Hfd Hk. set (l0 := loop_init a tid k).
  set (c := mkChannel a fd 0 0 (-1) false false false true false false false).
  set (l1 := with_heap l0 (<[p := c]> (heap l0))).
  assert (heap l1 !! p = Some c) as Hp by (cbn; apply lookup_insert_eq).
  assert (inv l1) as Hi1.
  { split; cbn; [|done|intros; by rewrite Hk in *]. intros q d [[-> <-]|[_ ?]]%lookup_insert_Some; [by left | done]. }
  destruct (change_events_exec tid EnableReading p c kReadEvent l1) as (l & Hl & Hi & (Hid & Htid & _ & Hev & _) & Hh & _);
    [done | done | done | done | done | reflexivity |].
  exists l. split; [|split; [|split; [exact Htid | rewrite Hh; cbn; by rewrite insert_insert_eq]]].
  - rewrite <- Hl. unfold loop_ctor, channel_ctor. decide_test (fd =? -1). cstep.
    erewrite modify_eq by (cbn; apply lookup_insert_eq). unfold l1, with_heap. cbn. by rewrite insert_insert_eq.
  - split; [exact Hid|]. split; [done|]. split; [exact Hev|]. eexists. rewrite Hh, lookup_insert_eq. split; [done|]. done.
Qed.

(** A destructor that succeeds runs in the loop's thread. *)
Lemma destruct_inv tid a P P' : pinv P → destruct tid a P = Ok P' →
  ∃ l p, loops P !! a = Some (l, p) ∧ tid = tid_ l ∧ P' = mkProcess (delete tid (kLoopInThisThread P)) (delete a (loops P)).
Proof.
  intros [Hl _] Hx. unfold destruct in Hx. destruct (loops P !! a) as [[l p]|] eqn:Ha; [|done].
  destruct (Hl a l p Ha) as (_ & Hi & _ & c & Hc & _). destruct (disable_all tid p l) as [l1|] eqn:Hd; [bstep Hx | done].
  exists l, p. split; [done|]. destruct (change_events_done tid DisableAll p c kNoneEvent l l1) as (_ & _ & _ & Ht & _); [done..|].
  split; [done|]. by outcome_inv.
Qed.

Lemma step_pinv P P' : pinv P → step P P' → pinv P'.
Proof.
  intros Hp Hs. pose proof Hp as [Hl Ht]. destruct Hs as [tid a p k fd P P' Ha Hk Hx|tid a P P' Hx|tid a q o P P' l p Ha Hq Hok Hx].
  - unfold construct in Hx. destruct (_ && _) eqn:Eb; [bstep Hx | done]. unbool.
    match goal with Hb : bool_decide _ = true |- _ => apply bool_decide_eq_true in Hb as Hnone end.
    destruct (loop_ctor_ok tid a p k fd) as (l & Hc & Hlo & Htid & _); [done..|]. rewrite Hc in Hx. bstep Hx. injection Hx as <-.
    split; cbn.
    + intros b l' p' [[<- [= <- <-]]|[_ Hb]]%lookup_insert_Some; [done | by apply Hl].
    + intros t b. rewrite lookup_insert_Some. split.
      * intros [[<- <-]|[Hne Hb]]; [exists l, p; by rewrite lookup_insert_eq|].
        apply Ht in Hb as (l' & p' & Hb & ?). exists l', p'. rewrite lookup_insert_ne; [done|]. intros <-. congruence.
      * intros (l' & p' & [[<- [= <- <-]]|[Hne Hb]]%lookup_insert_Some & Htl); [left; split; congruence|].
        right. assert (kLoopInThisThread P !! t = Some b) as Hb' by (apply Ht; eauto). split; [|done]. intros <-. congruence.
  - destruct (destruct_inv tid a P P' Hp Hx) as (l & p & Ha & -> & ->). split; cbn.
    + intros b l' p' [_ Hb]%lookup_delete_Some. by apply Hl.
    + assert (kLoopInThisThread P !! tid_ l = Some a) as Hta by (apply Ht; eauto).
      intros t b. rewrite lookup_delete_Some. split.
      * intros [Hne Hb]. apply Ht in Hb as (l' & p' & Hb & Htl). exists l', p'. rewrite lookup_delete_ne; [done|]. intros <-. congruence.
      * intros (l' & p' & [Hne Hb]%lookup_delete_Some & Htl). assert (kLoopInThisThread P !! t = Some b) as Hb' by (apply Ht; eauto).
        split; [|done]. intros Heq. congruence.
  - unfold operate in Hx. rewrite Ha in Hx. destruct (exec tid o q l) as [l'|] eqn:He; [bstep Hx | done]. injection Hx as <-.
    destruct (Hl a l p Ha) as (Hid & Hi & Hev & c & Hc & Hlc & Hix & Hh).
    destruct (exec_keeps tid o q l l' Hi He) as (Hid' & Htid' & Hev' & Hsame). split; cbn.
    + intros b l1 p1 [[<- [= <- <-]]|[_ Hb]]%lookup_insert_Some; [|by apply Hl].
      split; [congruence|]. split; [by eapply exec_inv|]. split; [congruence|]. exists c. by rewrite Hsame.
    + intros t b. rewrite Ht. split.
      * intros (l1 & p1 & Hb & Htl). destruct (decide (a = b)) as [<-|Hne].
        -- exists l', p1. rewrite lookup_insert_eq. split; congruence.
        -- exists l1, p1. by rewrite lookup_insert_ne.
      * intros (l1 & p1 & [[<- [= <- <-]]|[_ Hb]]%lookup_insert_Some & Htl); [exists l, p; split; congruence | eauto].
Qed.

Lemma reachable_pinv P : rtc step (mkProcess ∅ ∅) P → pinv P.
Proof.
  intros Hr. assert (pinv (mkProcess ∅ ∅)) as H0 by (split; [done | intros t a; split; [done | by intros (? & ? & ? & _)]]).
  revert H0. induction Hr as [|P1 P2 P3 Hs _ IH]; [done|]. intros H1. by apply IH, (step_pinv P1).
Qed.

(** C22. One loop per thread.  Whatever loops are constructed, operated and destroyed, by
    whatever threads: the variable of a thread points to the loop that was constructed in that
    thread and is still alive, so no two loops share a thread and the constructor stops a
    thread that makes a second one; and the destructor passes all its assertions in the thread
    of its loop, whose variable is null afterwards, and fails in any other thread before it
    clears anything. *)
Theorem one_loop_per_thread P : rtc step (mkProcess ∅ ∅) P →
  (∀ t a, kLoopInThisThread P !! t = Some a ↔ ∃ l p, loops P !! a = Some (l, p) ∧ tid_ l = t) ∧
  (∀ a a' l l' p p', loops P !! a = Some (l, p) → loops P !! a' = Some (l', p') → tid_ l = tid_ l' → a = a') ∧
  (∀ t a p k fd, is_Some (kLoopInThisThread P !! t) → construct t a p k fd P = Fault AssertFailed) ∧
  (∀ t a l p, loops P !! a = Some (l, p) →
     if decide (t = tid_ l)
     then ∃ P', destruct t a P = Ok P' ∧ kLoopInThisThread P' !! t = None ∧ loops P' !! a = None
     else destruct t a P = Fault AssertFailed).
Proof.
  intros Hr. destruct (reachable_pinv P Hr) as [Hl Ht]. split; [done|]. split_and!.
  - intros a a' l l' p p' Ha Ha' Heq. assert (kLoopInThisThread P !! tid_ l = Some a) as H1 by (apply Ht; eauto).
    assert (kLoopInThisThread P !! tid_ l = Some a') as H2 by (apply Ht; exists l', p'; by rewrite Heq). congruence.
  - intros t a p k fd [b Hb]. unfold construct. rewrite bool_decide_false by (by rewrite Hb). by rewrite andb_false_r.
  - intros t a l p Ha. destruct (Hl a l p Ha) as (Hid & Hi & Hev & c & Hc & Hlc & Hix & Hh). unfold destruct. rewrite Ha.
    case_decide as Htid.
    + destruct (teardown_ok t p c l) as (l1 & l2 & l3 & -> & H2 & H3 & _); [done..|congruence|done|done|done|by rewrite Hev|].
      cstep. rewrite H2. cstep. rewrite H3. eexists. split; [reflexivity|]. cbn. by rewrite !lookup_delete_eq.
    + set (c1 := set_events kNoneEvent c). set (l1 := with_heap l (<[p := c1]> (heap l))).
      assert (heap l1 !! p = Some c1) as H1 by (cbn; apply lookup_insert_eq).
      unfold disable_all, channel_update. rewrite (modify_eq _ _ _ c Hc). fold c1 l1. rewrite (deref_ok _ _ _ H1). cstep.
      rewrite (modify_eq _ _ _ c1 H1). unfold loop_update_channel, owned.
      rewrite (deref_ok p _ (set_added true c1)) by (cbn; apply lookup_insert_eq). cstep.
      unfold is_in_loop_thread. cbn [tid_ with_heap l1]. decide_test (t =? tid_ l). by rewrite andb_false_r.
Qed.

End LoopLife.
Arguments process : clear implicits.
Arguments mkProcess {K}.

(** Two loops in two threads, a connection's channel on the first, and the first one gone. *)
Definition demo_process : process (gmap Z epoll_event) :=
  match (P ← construct 7 1 2 (∅ : gmap Z epoll_event) 5 (mkProcess ∅ ∅);
         P ← construct 8 3 2 (∅ : gmap Z epoll_event) 6 P;
         P ← operate 7 1 4 (NewChannel 9) P;
         destruct 7 1 P) with
  | Ok P => P
  | Fault _ => mkProcess ∅ ∅
  end.

Lemma one_loop_per_thread_witness :
  kLoopInThisThread demo_process !! 7 = None ∧ kLoopInThisThread demo_process !! 8 = Some 3%nat ∧
  (∀ a p k fd, construct 8 a p k fd demo_process = Fault AssertFailed) ∧ destruct 7 3 demo_process = Fault AssertFailed.
Proof.
  assert (rtc step (mkProcess ∅ ∅) demo_process) as Hr.
  { eapply rtc_l; [apply (Construct 7 1 2 ∅ 5); [reflexivity | exact demo_registered | vm_compute; reflexivity]|].
    eapply rtc_l; [apply (Construct 8 3 2 ∅ 6); [reflexivity | exact demo_registered | vm_compute; reflexivity]|].
    eapply rtc_l; [eapply (Operate 7 1 4 (NewChannel 9)); [reflexivity | discriminate | reflexivity | vm_compute; reflexivity]|].
    eapply rtc_l; [eapply (Destruct 7 1); vm_compute; reflexivity|]. apply rtc_refl. }
  destruct (one_loop_per_thread demo_process Hr) as (_ & _ & Hc & Hd).
  split; [vm_compute; reflexivity|]. split; [vm_compute; reflexivity|]. split.
  - intros a p k fd. apply Hc. vm_compute. eexists. reflexivity.
  - specialize (Hd 7 3%nat). destruct (loops demo_process !! 3%nat) as [[l p]|] eqn:E; [|vm_compute in E; discriminate E].
    specialize (Hd l p eq_refl). destruct (decide (7 = tid_ l)) as [Ht|]; [|exact Hd].
    vm_compute in E. injection E as <- _. discriminate Ht.
Defined.
End LoopLife.
