(* ===== verification/EventLoop.v ===== *)
(** * [reactor::EventLoop]: the loop, its pending functors and its wakeup descriptor
    (src/reactor/event_loop.cc)

    The thread that owns the loop runs [loop()] as a machine with a program counter; other
    threads call [run_in_loop], [queue_in_loop] and [quit] at any moment, each access to
    shared state (the functor vector under its mutex, the flag [quit_], the eventfd) being
    one step.  User code, a functor or the callback of a channel, is the list of calls it
    makes on the loop.  What the loop does with channels is in the file Reactor. *)

From S2P Require Import Prelude.

Module EventLoop.

(** ** User code *)

(** A call on the loop; [queue_in_loop] and [run_in_loop] carry a functor, the name and the
    calls of its body. *)
Inductive call :=
| QueueInLoop (name : nat) (body : list call)
| RunInLoop (name : nat) (body : list call)
| Quit.

Definition functor : Type := nat * list call.

(** What is left to do in the owner's thread inside a piece of user code: a call, the
    [wakeup()] that ends a [queue_in_loop], or the [::read] of [handle_read]. *)
Inductive instr := ICall (c : call) | IWakeup | IReadWakeup.

(** The steps of a call made in another thread. *)
Inductive ecall := EPush (f : functor) | ESetQuit | EWakeup.

(** ** State *)

(** Where the owner's thread is: outside [loop()], at [while (!quit_)], in [poll], in the
    loop over the active channels, and in [do_pending_functors] before, at and behind the
    swap. *)
Inductive pc :=
| Outside
| AtWhile
| AtPoll
| Handling (acts : list (nat * list instr))
| AtPending
| AtSwap
| Running (functors : list functor).

#[global] Instance pc_inhabited : Inhabited pc := populate Outside.

(** [queued] and [ran] are histories: the functors put into [pending_functors_] and those
    [do_pending_functors] called. *)
Record state := mkState {
  at_ : pc;
  code : list instr;
  looping_ : bool;
  quit_ : bool;
  event_handing_ : bool;
  calling_pending_functors_ : bool;
  current_active_channel_ : option nat;
  pending_functors_ : list functor;
  eventfd : Z;
  others : list (list ecall);
  queued : list functor;
  ran : list functor
}.

(** The loop as its constructor leaves it, with [n] other threads around. *)
Definition init (n : nat) : state :=
  mkState Outside [] false false false false None [] 0 (replicate n []) [] [].

(** ** The shared operations *)

(** [EventLoop::wakeup]: the nonblocking eventfd refuses a write that would exceed its
    largest value, and the refusal is only logged. *)
Definition wakeup (s : state) : state :=
  mkState (at_ s) (code s) (looping_ s) (quit_ s) (event_handing_ s) (calling_pending_functors_ s)
    (current_active_channel_ s) (pending_functors_ s)
    (if eventfd s + 1 <=? 2 ^ 64 - 2 then eventfd s + 1 else eventfd s)
    (others s) (queued s) (ran s).

(** [EventLoop::handle_read]: reading the eventfd clears it; reading zero fails. *)
Definition handle_read (s : state) : state :=
  mkState (at_ s) (code s) (looping_ s) (quit_ s) (event_handing_ s) (calling_pending_functors_ s)
    (current_active_channel_ s) (pending_functors_ s) 0 (others s) (queued s) (ran s).

(** [pending_functors_.push_back(cb)] under the mutex. *)
Definition push_functor (f : functor) (s : state) : state :=
  mkState (at_ s) (code s) (looping_ s) (quit_ s) (event_handing_ s) (calling_pending_functors_ s)
    (current_active_channel_ s) (pending_functors_ s ++ [f]) (eventfd s) (others s) (queued s ++ [f]) (ran s).

Definition set_quit (b : bool) (s : state) : state :=
  mkState (at_ s) (code s) (looping_ s) b (event_handing_ s) (calling_pending_functors_ s)
    (current_active_channel_ s) (pending_functors_ s) (eventfd s) (others s) (queued s) (ran s).

Definition set_code (c : list instr) (s : state) : state :=
  mkState (at_ s) c (looping_ s) (quit_ s) (event_handing_ s) (calling_pending_functors_ s)
    (current_active_channel_ s) (pending_functors_ s) (eventfd s) (others s) (queued s) (ran s).

Definition set_others (o : list (list ecall)) (s : state) : state :=
  mkState (at_ s) (code s) (looping_ s) (quit_ s) (event_handing_ s) (calling_pending_functors_ s)
    (current_active_channel_ s) (pending_functors_ s) (eventfd s) o (queued s) (ran s).

(** Moving the owner's thread: the new position and the flags it writes. *)
Definition goto (p : pc) (c : list instr) (looping handing calling : bool) (current : option nat) (s : state) : state :=
  mkState p c looping (quit_ s) handing calling current
    (pending_functors_ s) (eventfd s) (others s) (queued s) (ran s).

(** ** The owner's thread *)

(** One instruction of user code in the owner's thread: [queue_in_loop] wakes the loop only
    when called from a pending functor, [run_in_loop] calls the functor at once, [quit] needs
    no wakeup. *)
Definition run_instr (i : instr) (rest : list instr) (s : state) : state :=
  match i with
  | ICall (QueueInLoop name body) =>
      set_code ((if calling_pending_functors_ s then [IWakeup] else []) ++ rest)
        (push_functor (name, body) s)
  | ICall (RunInLoop name body) => set_code (map ICall body ++ rest) s
  | ICall Quit => set_code rest (set_quit true s)
  | IWakeup => set_code rest (wakeup s)
  | IReadWakeup => set_code rest (handle_read s)
  end.

(** [functors.swap(pending_functors_)] with the empty vector. *)
Definition swap_pending (s : state) : state :=
  mkState (Running (pending_functors_ s)) [] (looping_ s) (quit_ s) (event_handing_ s)
    (calling_pending_functors_ s) (current_active_channel_ s) [] (eventfd s) (others s) (queued s) (ran s).

(** [functor();] of the next one in the local vector. *)
Definition call_functor (f : functor) (fs : list functor) (s : state) : state :=
  mkState (Running fs) (map ICall f.2) (looping_ s) (quit_ s) (event_handing_ s)
    (calling_pending_functors_ s) (current_active_channel_ s) (pending_functors_ s) (eventfd s)
    (others s) (queued s) (ran s ++ [f]).

(** The next step of the owner's thread inside [loop()], except for [poll], which waits. *)
Definition loop_step (s : state) : option state :=
  match code s with
  | i :: rest => Some (run_instr i rest s)
  | [] =>
      match at_ s with
      | Outside | AtPoll => None
      | AtWhile =>
          Some (if quit_ s
                then goto Outside [] false (event_handing_ s) (calling_pending_functors_ s) (current_active_channel_ s) s
                else goto AtPoll [] (looping_ s) (event_handing_ s) (calling_pending_functors_ s) (current_active_channel_ s) s)
      | Handling ((p, body) :: acts) =>
          Some (goto (Handling acts) body (looping_ s) true (calling_pending_functors_ s) (Some p) s)
      | Handling [] => Some (goto AtPending [] (looping_ s) false (calling_pending_functors_ s) None s)
      | AtPending => Some (goto AtSwap [] (looping_ s) (event_handing_ s) true (current_active_channel_ s) s)
      | AtSwap => Some (swap_pending s)
      | Running (f :: fs) => Some (call_functor f fs s)
      | Running [] => Some (goto AtWhile [] (looping_ s) (event_handing_ s) false (current_active_channel_ s) s)
      end
  end.

(** The address of the loop's own wakeup channel. *)
Definition wakeup_channel : nat := 0.

(** What [poll] may report: the wakeup channel while its descriptor is readable, and other
    channels with the code of their callbacks. *)
Definition poll_may_report (s : state) (acts : list (nat * list instr)) : Prop :=
  Forall (λ a : nat * list instr,
    (a.1 = wakeup_channel ∧ a.2 = [IReadWakeup] ∧ 0 < eventfd s)
    ∨ (a.1 ≠ wakeup_channel ∧ ∃ body, a.2 = map ICall body)) acts.

(** ** Other threads *)

(** The steps of [queue_in_loop], [run_in_loop] and [quit] outside the owner's thread. *)
Definition external_call (c : call) : list ecall :=
  match c with
  | QueueInLoop name body => [EPush (name, body); EWakeup]
  | RunInLoop name body => [EPush (name, body); EWakeup]
  | Quit => [ESetQuit; EWakeup]
  end.

Definition run_ecall (e : ecall) (s : state) : state :=
  match e with
  | EPush f => push_functor f s
  | ESetQuit => set_quit true s
  | EWakeup => wakeup s
  end.

(** ** Interleavings *)

(** Who moves: the owner inside [loop()], the owner calling [loop()], the owner running code
    of its own outside [loop()], the kernel returning from [epoll_wait], another thread
    beginning a call, another thread inside its call. *)
Inductive label :=
| LStep
| LEnter
| LOwnerCode (body : list call)
| LPoll (acts : list (nat * list instr))
| LCall (i : nat) (c : call)
| LOther (i : nat).

(** [EventLoop::loop] up to its first test of [quit_]. *)
Definition enter_loop (s : state) : outcome state :=
  _ ← cassert (negb (looping_ s));
  mret (set_quit false (goto AtWhile [] true (event_handing_ s) (calling_pending_functors_ s) (current_active_channel_ s) s)).

Inductive step : label → state → state → Prop :=
| step_loop s s' : loop_step s = Some s' → step LStep s s'
| step_enter s s' : at_ s = Outside → code s = [] → enter_loop s = Ok s' → step LEnter s s'
| step_owner_code s body : at_ s = Outside → code s = [] →
    step (LOwnerCode body) s (set_code (map ICall body) s)
| step_poll s acts : at_ s = AtPoll → code s = [] → poll_may_report s acts →
    step (LPoll acts) s
      (goto (Handling acts) [] (looping_ s) true (calling_pending_functors_ s) (current_active_channel_ s) s)
| step_call s i c : others s !! i = Some [] →
    step (LCall i c) s (set_others (<[i := external_call c]> (others s)) s)
| step_other s i e rest : others s !! i = Some (e :: rest) →
    step (LOther i) s (run_ecall e (set_others (<[i := rest]> (others s)) s)).

Inductive runs : state → list label → state → Prop :=
| runs_nil s : runs s [] s
| runs_cons s s' s'' l ls : step l s s' → runs s' ls s'' → runs s (l :: ls) s''.

(** ** Invariants of all interleavings *)

(** The functors [do_pending_functors] has taken but not called yet. *)
Definition in_hand (s : state) : list functor :=
  match at_ s with Running fs => fs | _ => [] end.

(** A write to the eventfd has been made or is certain to come. *)
Definition wakeup_due (s : state) : Prop :=
  0 < eventfd s ∨ IWakeup ∈ code s ∨ ∃ i c, others s !! i = Some c ∧ EWakeup ∈ c.

Fixpoint queue_free (c : call) : bool :=
  match c with
  | QueueInLoop _ _ => false
  | RunInLoop _ body => forallb queue_free body
  | Quit => true
  end.

Definition instr_free (i : instr) : bool :=
  match i with ICall c => queue_free c | IWakeup => true | IReadWakeup => false end.

(** [queue_in_loop] is not called by the owner's thread outside [loop()]. *)
Definition label_free (l : label) : bool :=
  match l with LOwnerCode body => forallb queue_free body | _ => true end.

(** Where the owner's thread will still swap the vector before it waits again. *)
Definition before_swap (p : pc) : Prop :=
  match p with Handling _ | AtPending | AtSwap => True | _ => False end.

(** What is left of a call in another thread: a first step, if any, and its wakeup. *)
Definition call_suffix (c : list ecall) : Prop :=
  c = [] ∨ c = [EWakeup] ∨ ∃ e, c = [e; EWakeup].

(** The shape of every reachable state, [free] telling that the owner's thread queues
    nothing outside [loop()]. *)
Record inv (free : Prop) (s : state) : Prop := {
  inv_fifo : queued s = ran s ++ in_hand s ++ pending_functors_ s;
  inv_looping : looping_ s = true ↔ (at_ s ≠ Outside);
  inv_calling : calling_pending_functors_ s = true ↔ at_ s = AtSwap ∨ ∃ fs, at_ s = Running fs;
  inv_code : match at_ s with
             | Outside => (IReadWakeup ∉ code s) ∧ (free → forallb instr_free (code s) = true)
             | Handling _ => True
             | Running _ => IReadWakeup ∉ code s
             | _ => code s = []
             end;
  inv_others : Forall call_suffix (others s);
  inv_eventfd : 0 <= eventfd s <= 2 ^ 64 - 2;
  inv_pending : free → pending_functors_ s ≠ [] → wakeup_due s ∨ before_swap (at_ s);
  inv_quit : quit_ s = true → at_ s = AtPoll → wakeup_due s
}.

Lemma loop_state_init free n : inv free (init n).
Proof.
  split; cbn; try done.
  - split; [done|]. by intros [?|[? ?]].
  - split; [set_solver | done].
  - apply Forall_replicate. by left.
Qed.

Lemma no_read_in_calls body rest : IReadWakeup ∉ rest → IReadWakeup ∉ map ICall body ++ rest.
Proof. intros Hr [Hx|Hx]%elem_of_app; [|done]. induction body; set_solver. Qed.

Lemma free_calls body : forallb instr_free (map ICall body) = forallb queue_free body.
Proof. induction body as [|c body IH]; cbn; [done | by rewrite IH]. Qed.

Lemma wakeup_eventfd s : 0 <= eventfd s <= 2 ^ 64 - 2 → 0 < eventfd (wakeup s) <= 2 ^ 64 - 2.
Proof. intros. cbn. split_tests; lia. Qed.

(** Positions with user code of the owner's thread. *)
Lemma inv_code_at free s i rest :
  inv free s → code s = i :: rest → at_ s = Outside ∨ (∃ acts, at_ s = Handling acts) ∨ ∃ fs, at_ s = Running fs.
Proof. intros Hi Hc. pose proof (inv_code _ _ Hi) as H. destruct (at_ s); eauto; congruence. Qed.

(** Steps that leave the position of the owner's thread, and its flags, alone. *)
Lemma inv_keep free s s' :
  inv free s → at_ s' = at_ s → looping_ s' = looping_ s →
  calling_pending_functors_ s' = calling_pending_functors_ s →
  queued s' = ran s' ++ in_hand s' ++ pending_functors_ s' →
  match at_ s with
  | Outside => (IReadWakeup ∉ code s') ∧ (free → forallb instr_free (code s') = true)
  | Handling _ => True
  | Running _ => IReadWakeup ∉ code s'
  | _ => code s' = []
  end →
  Forall call_suffix (others s') →
  0 <= eventfd s' <= 2 ^ 64 - 2 →
  (free → pending_functors_ s' ≠ [] → wakeup_due s' ∨ before_swap (at_ s)) →
  (quit_ s' = true → at_ s = AtPoll → wakeup_due s') →
  inv free s'.
Proof.
  intros [? ? ? ? ? ? ? ?] Ha Hl Hc ? ? ? ? ? ?. by split; rewrite ?Ha, ?Hl, ?Hc.
Qed.

Lemma due_wakeup s : 0 <= eventfd s <= 2 ^ 64 - 2 → wakeup_due (wakeup s).
Proof. intros H. left. by apply wakeup_eventfd. Qed.

Lemma code_rest free s i rest :
  inv free s → code s = i :: rest →
  match at_ s with
  | Outside => (IReadWakeup ∉ rest) ∧ (free → forallb instr_free rest = true)
  | Handling _ => True
  | Running _ => IReadWakeup ∉ rest
  | _ => rest = []
  end.
Proof.
  intros Hi Hc. pose proof (inv_code _ _ Hi) as H. rewrite Hc in H. destruct (at_ s); try done; [|set_solver].
  destruct H as [? Hf]. split; [set_solver|]. intros f. specialize (Hf f). cbn in Hf. by apply andb_true_iff in Hf as [_ ?].
Qed.

Lemma queue_instr_inv free s name body rest :
  inv free s → code s = ICall (QueueInLoop name body) :: rest →
  inv free (run_instr (ICall (QueueInLoop name body)) rest s).
Proof.
  intros Hi Hc. pose proof (code_rest _ _ _ _ Hi Hc) as Hrest. pose proof (inv_code _ _ Hi) as Hcode.
  pose proof (inv_calling _ _ Hi) as Hcall. pose proof Hi as [Hf Hl Hca Hco Ho He Hp Hq].
  eapply (inv_keep free s); cbn; try done.
  - rewrite Hf. unfold in_hand. cbn. by rewrite !(assoc_L (++)).
  - destruct (inv_code_at _ _ _ _ Hi Hc) as [Hx|[[acts Hx]|[fs Hx]]]; rewrite Hx in *.
    + split; [destruct (calling_pending_functors_ s); set_solver|]. intros f.
      destruct Hcode as [_ Hcode]. specialize (Hcode f). by rewrite Hc in Hcode.
    + done.
    + destruct (calling_pending_functors_ s); set_solver.
  - intros f _. destruct (inv_code_at _ _ _ _ Hi Hc) as [Hx|[[acts Hx]|[fs Hx]]]; rewrite Hx in *.
    + destruct Hcode as [_ Hcode]. specialize (Hcode f). by rewrite Hc in Hcode.
    + by right.
    + left. right. left. cbn. replace (calling_pending_functors_ s) with true by (symmetry; apply Hcall; eauto). set_solver.
  - intros _ Hat. rewrite Hat in Hcode. congruence.
Qed.

Lemma run_instr_inv free s i rest :
  inv free s → code s = i :: rest → inv free (run_instr i rest s).
Proof.
  intros Hi Hc. pose proof (code_rest _ _ _ _ Hi Hc) as Hrest. pose proof (inv_code _ _ Hi) as Hcode.
  destruct i as [[name body|name body|]| |]; [by apply queue_instr_inv| | | |];
    pose proof Hi as [Hf Hl Hca Hco Ho He Hp Hq]; cbn [run_instr].
  - eapply (inv_keep free s); cbn; try done.
    + destruct (at_ s); try congruence; [|by apply no_read_in_calls]. destruct Hrest as [Hr1 Hr2].
      split; [by apply no_read_in_calls|]. intros f. rewrite forallb_app, free_calls, Hr2 by done.
      destruct Hcode as [_ Hcode]. specialize (Hcode f). rewrite Hc in Hcode. cbn in Hcode.
      apply andb_true_iff in Hcode as [-> _]. done.
    + intros f Hne. destruct (Hp f Hne) as [[?|[Hx|?]]|?]; [by left; left | | by left; right; right | by right].
      left; right; left. cbn. rewrite Hc in Hx. set_solver.
    + intros _ Hat. rewrite Hat in Hcode. congruence.
  - eapply (inv_keep free s); cbn; try done.
    + intros f Hne. destruct (Hp f Hne) as [[?|[Hx|?]]|?]; [by left; left | | by left; right; right | by right].
      left; right; left. cbn. rewrite Hc in Hx. set_solver.
    + intros _ Hat. rewrite Hat in Hcode. congruence.
  - pose proof (wakeup_eventfd s He) as Hw. cbn in Hw. eapply (inv_keep free s); cbn; try done; [lia | |].
    + intros _ _. left. left. cbn. lia.
    + intros _ Hat. rewrite Hat in Hcode. congruence.
  - destruct (inv_code_at _ _ _ _ Hi Hc) as [Hx|[[acts Hx]|[fs Hx]]]; rewrite Hx in *.
    1: destruct Hcode as [Hcode _].
    1, 3: rewrite Hc in Hcode; by apply not_elem_of_cons in Hcode as [? _].
    eapply (inv_keep free s); cbn; try done; rewrite ?Hx; try done; by right.
Qed.

(** The moves of the owner's thread inside [loop()], between pieces of user code. *)
Lemma loop_step_inv free s s' : inv free s → loop_step s = Some s' → inv free s'.
Proof.
  intros Hi Hs. unfold loop_step in Hs. destruct (code s) as [|i rest] eqn:Hc.
  2:{ injection Hs as <-. by apply run_instr_inv. }
  destruct Hi as [Hf Hl Hca Hco Ho He Hp Hq]. unfold in_hand in Hf. unfold wakeup_due in *. rewrite Hc in *.
  destruct (at_ s) as [| | |[|[p body] acts]| | |[|f fs]] eqn:Ha; try done; [destruct (quit_ s) eqn:Eq; injection Hs as <- | injection Hs as <-..].
  all: split; unfold wakeup_due, in_hand; cbn; try done.
  all: try (rewrite Hf; cbn; by rewrite <- ?(assoc_L (++))).
  all: try solve [split; [done | by intros []] | split; [done | intros _; by apply Hl]
    | split; [intros [?|[? ?]]%Hca; discriminate | intros [?|[? ?]]; discriminate]
    | split; [done | intros [?|[? ?]]; discriminate] | split; [by left | done]
    | split; [eauto | intros _; apply Hca; eauto]].
  all: try solve [intros fr Hne; destruct (Hp fr Hne); auto | by intros ->; auto | by auto].
  all: try solve [rewrite <- (app_nil_r (map ICall _)); apply no_read_in_calls, not_elem_of_nil].
  all: try solve [split; [apply not_elem_of_nil | done] | apply not_elem_of_nil].
  - congruence.
  - by rewrite app_nil_r.
  - intros fr Hne. destruct (Hp fr Hne) as [[?|[?%elem_of_nil|?]]|?]; auto.
Qed.

(** Another thread's code at index [i] is replaced by one that still has its wakeup. *)
Lemma due_others s s' i c :
  eventfd s' = eventfd s → code s' = code s → others s' = <[i := c]> (others s) →
  (∀ c0, others s !! i = Some c0 → EWakeup ∈ c0 → EWakeup ∈ c) →
  wakeup_due s → wakeup_due s'.
Proof.
  unfold wakeup_due. intros -> -> -> Hc [?|[?|(j & c0 & Hj & Hw)]]; [by left | by right; left | right; right].
  destruct (decide (j = i)) as [->|Hne].
  - exists i, c. split; [|eauto]. apply list_lookup_insert_eq. by apply lookup_lt_Some in Hj.
  - exists j, c0. by rewrite list_lookup_insert_ne.
Qed.

Lemma due_at s s' i c :
  others s' = <[i := c]> (others s) → is_Some (others s !! i) → EWakeup ∈ c → wakeup_due s'.
Proof.
  intros Ho Hi Hc. right. right. exists i, c. rewrite Ho. split; [|done].
  apply list_lookup_insert_eq. by apply lookup_lt_is_Some.
Qed.

(** A step of another thread. *)
Lemma other_step_inv free s i e rest :
  inv free s → others s !! i = Some (e :: rest) →
  inv free (run_ecall e (set_others (<[i := rest]> (others s)) s)).
Proof.
  intros Hi Hs. pose proof Hi as [Hf Hl Hca Hco Ho He Hp Hq].
  assert (call_suffix (e :: rest)) as Hsuf by (by eapply Forall_lookup_1).
  assert (call_suffix rest ∧ (e = EWakeup ∨ EWakeup ∈ rest)) as [Hr Hw].
  { destruct Hsuf as [?|[[= -> ->]|[e' [= -> ->]]]]; [done | |]; unfold call_suffix; (split; [by auto|]); [by left|].
    right. apply list_elem_of_singleton. done. }
  assert (Forall call_suffix (<[i := rest]> (others s))) as Ho' by (by apply Forall_insert).
  destruct Hw as [->|Hw].
  - pose proof (wakeup_eventfd s He) as Hw. eapply (inv_keep free s); try done; [cbn in Hw |- *; lia | |]; intros;
      [left|]; by apply (due_wakeup (set_others (<[i := rest]> (others s)) s)).
  - assert (wakeup_due (run_ecall e (set_others (<[i := rest]> (others s)) s))) as Hdue
      by (eapply (due_at s _ i rest); [by destruct e | by eexists | done]).
    eapply (inv_keep free s); [done | by destruct e.. | | | by destruct e | | by auto | by auto].
    + destruct e; cbn; rewrite Hf; unfold in_hand; cbn; by rewrite ?(assoc_L (++)).
    + by destruct e.
    + pose proof (wakeup_eventfd s He). destruct e; cbn in *; lia.
Qed.

Lemma step_inv free l s s' :
  inv free s → (free → label_free l = true) → step l s s' → inv free s'.
Proof.
  intros Hi Hl Hs. destruct Hs as [s s' Hs|s s' Ha Hc He|s body Ha Hc|s acts Ha Hc Hr|s i c Ho|s i e rest Ho].
  - by eapply loop_step_inv.
  - destruct Hi as [Hf Hlo Hca Hco Hot Hev Hp Hq]. unfold enter_loop in He. rewrite Ha in *.
    outcome_inv. unfold in_hand, wakeup_due in *. rewrite Ha, Hc in *. split; unfold in_hand, wakeup_due; cbn; try done.
    split; [intros [?|[? ?]]%Hca; discriminate | intros [?|[? ?]]; discriminate].
  - destruct Hi as [Hf Hlo Hca Hco Hot Hev Hp Hq]. unfold in_hand, wakeup_due in *.
    split; unfold in_hand, wakeup_due; rewrite ?Ha, ?Hc in *; cbn; rewrite ?Ha in *; try done.
    + split; [rewrite <- (app_nil_r (map ICall _)); apply no_read_in_calls, not_elem_of_nil|].
      intros fr. rewrite free_calls. exact (Hl fr).
    + intros fr Hne. destruct (Hp fr Hne) as [[?|[?%elem_of_nil|?]]|?]; auto.
  - destruct Hi as [Hf Hlo Hca Hco Hot Hev Hp Hq]. unfold in_hand, wakeup_due in *.
    split; unfold in_hand, wakeup_due; rewrite ?Ha, ?Hc in *; cbn; try done; try by auto.
    + split; [done | intros _; by apply Hlo].
    + split; [intros [?|[? ?]]%Hca; discriminate | intros [?|[? ?]]; discriminate].
  - pose proof Hi as [Hf Hlo Hca Hco Hot Hev Hp Hq].
    eapply (inv_keep free s); try done.
    + cbn. apply Forall_insert; [done|]. unfold call_suffix. destruct c; eauto.
    + intros fr Hne. destruct (Hp fr Hne) as [Hd|?]; [left|by right].
      eapply (due_others s); [done..| |exact Hd]. destruct c; set_solver.
    + intros Hqt Hat. eapply (due_others s); [done..| |by apply Hq]. destruct c; set_solver.
  - by apply other_step_inv.
Qed.

Lemma interleaving_inv free s ls s' :
  inv free s → (free → forallb label_free ls = true) → runs s ls s' → inv free s'.
Proof.
  intros Hi Hl Hr. revert Hi Hl. induction Hr as [|s s' s'' l ls Hs _ IH]; intros Hi Hl; [done|].
  apply IH.
  - eapply step_inv; [exact Hi | | exact Hs]. intros fr. by apply Hl, andb_true_iff in fr as [? _].
  - intros fr. by apply Hl, andb_true_iff in fr as [_ ?].
Qed.

(** ** What one turn of the loop does *)

(** The owner's thread running alone. *)
Fixpoint loop_steps (n : nat) (s : state) : option state :=
  match n with O => Some s | S n => loop_step s ≫= loop_steps n end.

Lemma loop_steps_add n m s : loop_steps (n + m) s = loop_steps n s ≫= loop_steps m.
Proof.
  revert s. induction n as [|n IH]; intros s; cbn; [done|]. by destruct (loop_step s); cbn.
Qed.

Definition leads_to (s s' : state) : Prop := ∃ n, loop_steps n s = Some s'.

#[global] Instance leads_to_preorder : PreOrder leads_to.
Proof.
  split.
  - intros s. by exists 0%nat.
  - intros s1 s2 s3 [n Hn] [m Hm]. exists (n + m)%nat. by rewrite loop_steps_add, Hn.
Qed.

Lemma leads_step s s' s'' : loop_step s = Some s' → leads_to s' s'' → leads_to s s''.
Proof. intros Hs [n Hn]. exists (S n). cbn. by rewrite Hs. Qed.

(** The functors that user code queues, those of the functors it runs at once included. *)
Fixpoint queues (c : call) : list functor :=
  match c with
  | QueueInLoop name body => [(name, body)]
  | RunInLoop _ body => flat_map queues body
  | Quit => []
  end.

Definition instr_queues (i : instr) : list functor :=
  match i with ICall c => queues c | _ => [] end.

Definition functors_queue (fs : list functor) : list functor := flat_map (λ f : functor, flat_map queues f.2) fs.

(** Steps needed, bounding every piece of user code. *)
Fixpoint call_size (c : call) : nat :=
  match c with
  | QueueInLoop _ _ => 2
  | RunInLoop _ body => S (sum_list_with call_size body)
  | Quit => 1
  end.

Definition instr_size (i : instr) : nat := match i with ICall c => call_size c | _ => 1 end.

Definition code_size (c : list instr) : nat := sum_list_with instr_size c.

Lemma code_size_calls body : code_size (map ICall body) = sum_list_with call_size body.
Proof. unfold code_size. induction body as [|c body IH]; cbn; [done | by rewrite IH]. Qed.

Lemma queues_calls body : flat_map instr_queues (map ICall body) = flat_map queues body.
Proof. induction body as [|c body IH]; cbn; [done | by rewrite IH]. Qed.

(** User code runs to its end and queues what it asks for. *)
Lemma run_code n s :
  (code_size (code s) <= n)%nat →
  ∃ s', leads_to s s' ∧ code s' = [] ∧ at_ s' = at_ s ∧ ran s' = ran s ∧
        pending_functors_ s' = pending_functors_ s ++ flat_map instr_queues (code s).
Proof.
  revert s. induction n as [|n IH]; intros s Hn; destruct (code s) as [|i rest] eqn:Hc.
  1, 3: exists s; rewrite app_nil_r; split_and!; done.
  - exfalso. destruct i as [[]| |]; cbn in Hn; lia.
  - assert (loop_step s = Some (run_instr i rest s)) as Hstep by (unfold loop_step; by rewrite Hc).
    destruct (IH (run_instr i rest s)) as (s' & Hl & Hc' & Ha & Hran & Hp).
    { unfold code_size in *. destruct i as [[]| |]; cbn in *; rewrite ?sum_list_with_app; try lia.
      - destruct (calling_pending_functors_ s); cbn; lia.
      - pose proof (code_size_calls body). unfold code_size in *. lia. }
    exists s'. split; [by eapply leads_step|]. split; [done|].
    destruct i as [[name body|name body|]| |]; cbn in Ha, Hran, Hp |- *; split_and!; try done; rewrite Hp.
    + rewrite <- (assoc_L (++)). f_equal. cbn. f_equal. by destruct (calling_pending_functors_ s).
    + by rewrite flat_map_app, queues_calls.
Qed.

Lemma run_functors fs s :
  at_ s = Running fs → code s = [] →
  ∃ s', leads_to s s' ∧ at_ s' = AtWhile ∧ code s' = [] ∧ ran s' = ran s ++ fs ∧
        pending_functors_ s' = pending_functors_ s ++ functors_queue fs.
Proof.
  revert s. induction fs as [|f fs IH]; intros s Ha Hc.
  - eexists. split; [eapply leads_step; [unfold loop_step; rewrite Hc, Ha; reflexivity | reflexivity]|].
    cbn. by rewrite !app_nil_r.
  - destruct (run_code (code_size (map ICall f.2)) (call_functor f fs s)) as (s1 & Hl1 & Hc1 & Ha1 & Hr1 & Hp1); [done|].
    destruct (IH s1 Ha1 Hc1) as (s2 & Hl2 & Ha2 & Hc2 & Hr2 & Hp2). exists s2. split.
    { eapply leads_step; [unfold loop_step; rewrite Hc, Ha; reflexivity|]. by etrans. }
    split; [done|]. split; [done|]. rewrite Hr2, Hr1, Hp2, Hp1. cbn. rewrite queues_calls, <- !(assoc_L (++)). done.
Qed.

Lemma run_handlers acts s :
  at_ s = Handling acts → code s = [] →
  ∃ s', leads_to s s' ∧ at_ s' = AtPending ∧ code s' = [] ∧ ran s' = ran s ∧
        pending_functors_ s' = pending_functors_ s ++ flat_map instr_queues (concat (acts.*2)).
Proof.
  revert s. induction acts as [|[p body] acts IH]; intros s Ha Hc.
  - eexists. split; [eapply leads_step; [unfold loop_step; rewrite Hc, Ha; reflexivity | reflexivity]|].
    cbn. by rewrite !app_nil_r.
  - set (s0 := goto (Handling acts) body (looping_ s) true (calling_pending_functors_ s) (Some p) s).
    destruct (run_code (code_size body) s0) as (s1 & Hl1 & Hc1 & Ha1 & Hr1 & Hp1); [done|].
    destruct (IH s1 Ha1 Hc1) as (s2 & Hl2 & Ha2 & Hc2 & Hr2 & Hp2). exists s2. split.
    { eapply leads_step; [unfold loop_step; rewrite Hc, Ha; reflexivity|]. by etrans. }
    split; [done|]. split; [done|]. rewrite Hr2, Hr1, Hp2, Hp1. cbn. rewrite flat_map_app, <- !(assoc_L (++)). done.
Qed.

(** ** Theorems *)

(** C8. Whatever the interleaving of the owner's thread with any number of threads calling
    [run_in_loop], [queue_in_loop] and [quit], the functors ever queued are, in the order in
    which they were queued, those already called, those taken by the running
    [do_pending_functors] and those still pending: each functor is called exactly once and
    in order. *)
Theorem functors_run_once_in_order n ls s :
  runs (init n) ls s → queued s = ran s ++ in_hand s ++ pending_functors_ s.
Proof. intros Hr. apply (inv_fifo False). eapply interleaving_inv; [apply loop_state_init | done | exact Hr]. Qed.

(** C9. No wakeup is lost.  When the loop is in [epoll_wait] with functors pending, then, as
    long as the owner's thread queues nothing outside [loop()], the wakeup descriptor is
    readable or another thread is just about to write to it. *)
Theorem pending_functors_wake_poll n ls s :
  forallb label_free ls = true → runs (init n) ls s →
  at_ s = AtPoll → pending_functors_ s ≠ [] →
  0 < eventfd s ∨ ∃ i c, others s !! i = Some c ∧ EWakeup ∈ c.
Proof.
  intros Hl Hr Ha Hp. assert (inv True s) as Hi by (eapply interleaving_inv; [apply loop_state_init | done | exact Hr]).
  pose proof (inv_code _ _ Hi) as Hc. rewrite Ha in Hc.
  destruct (inv_pending _ _ Hi I Hp) as [[?|[Hx|?]]|Hb]; [by left | | by right | by rewrite Ha in Hb].
  rewrite Hc in Hx. by apply elem_of_nil in Hx.
Qed.

(** A [quit()] that arrives while the loop is in [epoll_wait] is not missed: the wakeup
    descriptor is readable or about to become so. *)
Theorem quit_wakes_poll n ls s :
  runs (init n) ls s → at_ s = AtPoll → quit_ s = true →
  0 < eventfd s ∨ ∃ i c, others s !! i = Some c ∧ EWakeup ∈ c.
Proof.
  intros Hr Ha Hq. assert (inv False s) as Hi by (eapply interleaving_inv; [apply loop_state_init | done | exact Hr]).
  pose proof (inv_code _ _ Hi) as Hc. rewrite Ha in Hc.
  destruct (inv_quit _ _ Hi Hq Ha) as [?|[Hx|?]]; [by left | | by right].
  rewrite Hc in Hx. by apply elem_of_nil in Hx.
Qed.

(** C25. Once [poll] has returned, the turn of the loop ends: the callbacks of all active
    channels run, then exactly the functors pending at that point, those the callbacks
    queued included, and the thread is back at the test of [quit_].  What these functors
    queue in turn waits for the next turn, so that a functor that queues itself again
    cannot keep the loop from polling. *)
Theorem loop_turn_completes acts s :
  at_ s = Handling acts → code s = [] →
  let batch := pending_functors_ s ++ flat_map instr_queues (concat (acts.*2)) in
  ∃ n s', loop_steps n s = Some s' ∧ at_ s' = AtWhile ∧ code s' = [] ∧
          ran s' = ran s ++ batch ∧ pending_functors_ s' = functors_queue batch.
Proof.
  intros Ha Hc. cbv zeta. destruct (run_handlers acts s Ha Hc) as (s1 & Hl1 & Ha1 & Hc1 & Hr1 & Hp1).
  set (s2 := goto AtSwap [] (looping_ s1) (event_handing_ s1) true (current_active_channel_ s1) s1).
  destruct (run_functors (pending_functors_ s2) (swap_pending s2)) as (s3 & Hl3 & Ha3 & Hc3 & Hr3 & Hp3); [done..|].
  assert (leads_to s s3) as [n Hn].
  { etrans; [exact Hl1|]. eapply leads_step; [unfold loop_step; rewrite Hc1, Ha1; reflexivity|].
    eapply leads_step; [reflexivity | exact Hl3]. }
  exists n, s3. split; [done|]. cbn in Hr3, Hp3. rewrite Hr3, Hp3, Hr1, Hp1. done.
Qed.

(** A functor that the owner's thread queues before it calls [loop()] wakes nobody: the
    loop goes to sleep in its first [epoll_wait] with the functor pending, the wakeup
    descriptor empty and no other thread at work. *)
Theorem queued_before_loop_sleeps name body :
  ∃ s, runs (init 0) [LOwnerCode [QueueInLoop name body]; LStep; LEnter; LStep] s ∧
       at_ s = AtPoll ∧ pending_functors_ s = [(name, body)] ∧ eventfd s = 0 ∧ others s = [].
Proof.
  eexists. split.
  - eapply runs_cons; [by apply step_owner_code|]. eapply runs_cons; [by apply step_loop|].
    eapply runs_cons; [by apply step_enter|]. eapply runs_cons; [by apply step_loop|]. apply runs_nil.
  - done.
Qed.

(** ** A [quit()] before [loop()] *)

(** Code without any call of [quit]. *)
Fixpoint quit_free (c : call) : bool :=
  match c with
  | QueueInLoop _ body | RunInLoop _ body => forallb quit_free body
  | Quit => false
  end.

Definition functor_quit_free (f : functor) : Prop := forallb quit_free f.2 = true.

Definition instr_quit_free (i : instr) : Prop :=
  match i with ICall c => quit_free c = true | _ => True end.

Definition ecall_quit_free (e : ecall) : Prop :=
  match e with EPush f => functor_quit_free f | ESetQuit => False | EWakeup => True end.

Definition label_quit_free (l : label) : Prop :=
  match l with
  | LOwnerCode body => forallb quit_free body = true
  | LPoll acts => Forall (λ a : nat * list instr, Forall instr_quit_free a.2) acts
  | LCall _ c => quit_free c = true
  | _ => True
  end.

(** The loop is running and nothing that is left to run quits it. *)
Record never_quits (s : state) : Prop := {
  nq_quit : quit_ s = false;
  nq_code : Forall instr_quit_free (code s);
  nq_pending : Forall functor_quit_free (pending_functors_ s);
  nq_others : Forall (Forall ecall_quit_free) (others s);
  nq_at : match at_ s with
          | Outside => False
          | Handling acts => Forall (λ a : nat * list instr, Forall instr_quit_free a.2) acts
          | Running fs => Forall functor_quit_free fs
          | _ => True
          end
}.

Lemma quit_free_calls body : forallb quit_free body = true → Forall instr_quit_free (map ICall body).
Proof.
  induction body as [|c body IH]; cbn; [by constructor|]. intros [? ?]%andb_true_iff. constructor; auto.
Qed.

Lemma never_quits_instr s i rest :
  never_quits s → code s = i :: rest → never_quits (run_instr i rest s).
Proof.
  intros [Hq Hc Hp Ho Ha] Hcode. rewrite Hcode in Hc. apply Forall_cons in Hc as [Hi Hrest].
  destruct i as [[name body|name body|]| |]; cbn in *; try done; split; cbn; try done.
  - apply Forall_app. split; [|done]. destruct (calling_pending_functors_ s); by repeat constructor.
  - apply Forall_app. by split; [|repeat constructor].
  - apply Forall_app. split; [by apply quit_free_calls | done].
Qed.

Lemma never_quits_step l s s' : never_quits s → label_quit_free l → step l s s' → never_quits s'.
Proof.
  intros Hs Hl Hst. destruct Hst as [s s' H|s s' Hat|s body Hat|s acts Hat Hnil Hr|s i c H|s i e rest H]; pose proof Hs as [Hq Hc Hp Ho Ha].
  - unfold loop_step in H. destruct (code s) as [|i rest] eqn:Hcode; [|injection H as <-; by apply never_quits_instr].
    rewrite Hq in H. destruct (at_ s) as [| | |[|[p body] acts]| | |[|f fs]]; try done; injection H as <-;
      (split; cbn; try done); apply Forall_cons in Ha as [Hf ?]; try done. by apply quit_free_calls.
  - by rewrite Hat in Ha.
  - by rewrite Hat in Ha.
  - split; cbn; try done.
  - split; cbn; try done. apply Forall_insert; [done|]. destruct c; by repeat constructor.
  - assert (Forall ecall_quit_free (e :: rest)) as [He Hrest]%Forall_cons by (by eapply Forall_lookup_1 in H).
    destruct e; try done; split; cbn; try done; try by apply Forall_insert.
    apply Forall_app. by split; [|repeat constructor].
Qed.

(** [loop()] clears [quit_] when it starts, so a complete [quit()] of another thread that
    comes before it is lost: the loop then runs on for ever unless somebody quits again,
    whatever the channels report and the other threads queue. *)
Theorem early_quit_is_lost :
  ∃ s, runs (init 1) [LCall 0 Quit; LOther 0; LOther 0; LEnter] s ∧
       ∀ ls s', runs s ls s' → Forall label_quit_free ls → at_ s' ≠ Outside.
Proof.
  eexists. split.
  - eapply runs_cons; [by apply step_call|]. eapply runs_cons; [by eapply step_other|].
    eapply runs_cons; [by eapply step_other|]. eapply runs_cons; [by apply step_enter | apply runs_nil].
  - assert (∀ s ls s', runs s ls s' → never_quits s → Forall label_quit_free ls → never_quits s') as Hmain.
    { induction 1; intros ? Hf; [done|]. apply Forall_cons in Hf as [? ?]. eauto using never_quits_step. }
    intros ls s' Hr Hf. pose proof (Hmain _ _ _ Hr) as Hn. assert (never_quits s') as [_ _ _ _ Ha].
    { apply Hn; [|done]. by repeat constructor. }
    intros Hx. by rewrite Hx in Ha.
Qed.

(** ** Witnesses *)

(** Another thread queues a functor while the loop polls. *)
Definition demo_labels : list label :=
  [LEnter; LStep; LCall 0 (QueueInLoop 1 []); LOther 0].

Lemma demo_runs : runs (init 1) demo_labels
  (mkState AtPoll [] true false false false None [(1%nat, [])] 0 [[EWakeup]] [(1%nat, [])] []).
Proof.
  eapply runs_cons; [by apply step_enter|]. eapply runs_cons; [by apply step_loop|].
  eapply runs_cons; [by apply step_call|]. eapply runs_cons; [by eapply step_other|]. apply runs_nil.
Qed.

Lemma functors_run_once_in_order_witness :
  ∃ s, runs (init 1) demo_labels s ∧ queued s = ran s ++ in_hand s ++ pending_functors_ s ∧ queued s = [(1%nat, [])].
Proof. eexists. split; [exact demo_runs|]. split; [exact (functors_run_once_in_order _ _ _ demo_runs) | reflexivity]. Defined.

Lemma pending_functors_wake_poll_witness :
  ∃ s, runs (init 1) demo_labels s ∧ (0 < eventfd s ∨ ∃ i c, others s !! i = Some c ∧ EWakeup ∈ c).
Proof.
  eexists. split; [exact demo_runs|].
  apply (pending_functors_wake_poll 1 demo_labels _ eq_refl demo_runs); [reflexivity | discriminate].
Defined.

Lemma quit_runs : runs (init 1) [LEnter; LStep; LCall 0 Quit; LOther 0; LOther 0]
  (mkState AtPoll [] true true false false None [] 1 [[]] [] []).
Proof.
  eapply runs_cons; [by apply step_enter|]. eapply runs_cons; [by apply step_loop|].
  eapply runs_cons; [by apply step_call|]. eapply runs_cons; [by eapply step_other|].
  eapply runs_cons; [by eapply step_other|]. apply runs_nil.
Qed.

Lemma quit_wakes_poll_witness :
  ∃ s, runs (init 1) [LEnter; LStep; LCall 0 Quit; LOther 0; LOther 0] s ∧
       (0 < eventfd s ∨ ∃ i c, others s !! i = Some c ∧ EWakeup ∈ c).
Proof. eexists. split; [exact quit_runs|]. apply (quit_wakes_poll _ _ _ quit_runs); reflexivity. Defined.

(** The wakeup channel is active, and the pending functor queues another one. *)
Lemma loop_turn_completes_witness :
  let f := (1%nat, [RunInLoop 2 [QueueInLoop 3 []]]) in
  let s := mkState (Handling [(wakeup_channel, [IReadWakeup]); (4%nat, [ICall (QueueInLoop 5 [])])])
             [] true false true false None [f] 1 [] [f] [] in
  ∃ n s', loop_steps n s = Some s' ∧ at_ s' = AtWhile ∧ ran s' = [f; (5%nat, [])] ∧
          pending_functors_ s' = [(3%nat, [])].
Proof.
  cbv zeta. edestruct (loop_turn_completes [(wakeup_channel, [IReadWakeup]); (4%nat, [ICall (QueueInLoop 5 [])])])
    as (n & s' & Hn & Ha & _ & Hr & Hp); [| |].
  3: { exists n, s'. split; [exact Hn|]. split; [exact Ha|]. split; [exact Hr | exact Hp]. }
  all: reflexivity.
Defined.
End EventLoop.
