(* ===== verification/Connection.v ===== *)
(** * [net::TcpConnection] (clia/net/tcp_connection.h, src/net/tcp_connection.cc)

    A connection over the reactor of the file Reactor and the buffers of the file NetBuffer:
    its state machine, the send path with its output buffer, and the callbacks.  The kernel's
    [write] and [readv] are parameters with their documented range; the user's callbacks are
    the lists of calls they make on the connection; user memory is part of the state, because
    [send] from another thread binds a pointer and not the bytes.

    The proofs show that the bytes handed to the kernel followed by the output buffer are
    the bytes accepted from the user, that output waits exactly while the channel watches for
    writability, what every branch of the write handler does, and the whole life of a
    connection; and where the code stops the program or drops data. *)

From S2P Require Import Prelude NetBuffer Reactor.

Module TcpConnection.

Inductive State := kDisconnected | kConnecting | kConnected | kDisconnecting.

#[global] Instance State_eq_dec : EqDecision State.
Proof. solve_decision. Defined.

Definition EWOULDBLOCK : Z := 11.
Definition EPIPE : Z := 32.
Definition ECONNRESET : Z := 104.

(** A call of user code on the connection inside a callback: [send] of [len] bytes at the
    user's buffer [buf], [shutdown], [retrieve] on the input buffer, or [send] of the bytes of a
    local object of the callback, which is gone when the call returns. *)
Inductive action := Send (buf : nat) (len : Z) | Shutdown | Consume (len : Z) | SendLocal (data : list byte).

(** The callbacks the user has set; [None] is an empty [std::function].  The connection
    callback is told whether the connection is up, the message callback sees the readable
    bytes. *)
Record callbacks := mkCallbacks {
  connection_callback_ : option (bool → list action);
  message_callback_ : option (list byte → list action);
  write_complete_callback_ : option (list action);
  close_callback_ : bool
}.

(** The callbacks of a new connection or server, and the setters; a null [std::function] may be
    passed on. *)
Definition no_callbacks : callbacks := mkCallbacks None None None false.

Definition set_connection_callback (f : option (bool → list action)) (cb : callbacks) : callbacks :=
  mkCallbacks f (message_callback_ cb) (write_complete_callback_ cb) (close_callback_ cb).

Definition set_message_callback (f : option (list byte → list action)) (cb : callbacks) : callbacks :=
  mkCallbacks (connection_callback_ cb) f (write_complete_callback_ cb) (close_callback_ cb).

Definition set_write_complete_callback (f : option (list action)) (cb : callbacks) : callbacks :=
  mkCallbacks (connection_callback_ cb) (message_callback_ cb) f (close_callback_ cb).

Definition set_close_callback (f : bool) (cb : callbacks) : callbacks :=
  mkCallbacks (connection_callback_ cb) (message_callback_ cb) (write_complete_callback_ cb) f.

(** Functors of this connection waiting in the loop. *)
Inductive task := TaskSend (buf : nat) (len : Z) | TaskShutdown | TaskWriteComplete.

(** [lp] is the event loop, [channel_] the address of the connection's channel, [queue] the
    functors of this connection pending in the loop, [mem] the user's memory, [wire] the
    bytes the kernel has taken, [shut] whether the write side is shut down, [closed] whether
    the close callback was called and [tick] counts the system calls.  [accepted] is a
    history of the bytes that [send_in_loop] did not refuse, and [received] one of the bytes
    that [handle_read] has read. *)
Record conn (K : Type) := mkConn {
  lp : loop K;
  channel_ : nat;
  state_ : State;
  input_buffer_ : Buffer.t;
  output_buffer_ : Buffer.t;
  queue : list task;
  mem : gmap nat (list byte);
  wire : list byte;
  shut : bool;
  closed : bool;
  tick : nat;
  accepted : list byte;
  received : list byte
}.

Arguments mkConn {K}.
Arguments lp {K}.
Arguments channel_ {K}.
Arguments state_ {K}.
Arguments input_buffer_ {K}.
Arguments output_buffer_ {K}.
Arguments queue {K}.
Arguments mem {K}.
Arguments wire {K}.
Arguments shut {K}.
Arguments closed {K}.
Arguments tick {K}.
Arguments accepted {K}.
Arguments received {K}.

Section Connection.
Context {K : Type} `{EpollKernel K}.

(** The results of [::write] of a number of bytes and of [readv] with room for a number of
    bytes, at each moment. *)
Context (kwrite : nat → Z → sysret) (kreadv : nat → Z → Buffer.readv_result) (cb : callbacks).
Implicit Types (w : conn K) (tid : Z).

Definition with_lp (l : loop K) w : conn K :=
  mkConn l (channel_ w) (state_ w) (input_buffer_ w) (output_buffer_ w) (queue w) (mem w) (wire w)
    (shut w) (closed w) (tick w) (accepted w) (received w).

Definition set_state (s : State) w : conn K :=
  mkConn (lp w) (channel_ w) s (input_buffer_ w) (output_buffer_ w) (queue w) (mem w) (wire w)
    (shut w) (closed w) (tick w) (accepted w) (received w).

Definition with_input (b : Buffer.t) w : conn K :=
  mkConn (lp w) (channel_ w) (state_ w) b (output_buffer_ w) (queue w) (mem w) (wire w)
    (shut w) (closed w) (tick w) (accepted w) (received w).

Definition with_output (b : Buffer.t) w : conn K :=
  mkConn (lp w) (channel_ w) (state_ w) (input_buffer_ w) b (queue w) (mem w) (wire w)
    (shut w) (closed w) (tick w) (accepted w) (received w).

(** [loop_->queue_in_loop] *)
Definition enqueue (t : task) w : conn K :=
  mkConn (lp w) (channel_ w) (state_ w) (input_buffer_ w) (output_buffer_ w) (queue w ++ [t]) (mem w) (wire w)
    (shut w) (closed w) (tick w) (accepted w) (received w).

Definition with_queue (q : list task) w : conn K :=
  mkConn (lp w) (channel_ w) (state_ w) (input_buffer_ w) (output_buffer_ w) q (mem w) (wire w)
    (shut w) (closed w) (tick w) (accepted w) (received w).

Definition with_mem (m : gmap nat (list byte)) w : conn K :=
  mkConn (lp w) (channel_ w) (state_ w) (input_buffer_ w) (output_buffer_ w) (queue w) m (wire w)
    (shut w) (closed w) (tick w) (accepted w) (received w).

(** The kernel took [bs]. *)
Definition transmit (bs : list byte) w : conn K :=
  mkConn (lp w) (channel_ w) (state_ w) (input_buffer_ w) (output_buffer_ w) (queue w) (mem w) (wire w ++ bs)
    (shut w) (closed w) (tick w) (accepted w) (received w).

Definition tick_up w : conn K :=
  mkConn (lp w) (channel_ w) (state_ w) (input_buffer_ w) (output_buffer_ w) (queue w) (mem w) (wire w)
    (shut w) (closed w) (S (tick w)) (accepted w) (received w).

Definition accept (bs : list byte) w : conn K :=
  mkConn (lp w) (channel_ w) (state_ w) (input_buffer_ w) (output_buffer_ w) (queue w) (mem w) (wire w)
    (shut w) (closed w) (tick w) (accepted w ++ bs) (received w).

(** The kernel delivered [bs]. *)
Definition receive (bs : list byte) w : conn K :=
  mkConn (lp w) (channel_ w) (state_ w) (input_buffer_ w) (output_buffer_ w) (queue w) (mem w) (wire w)
    (shut w) (closed w) (tick w) (accepted w) (received w ++ bs).

(** [Socket::shutdown_write]: a failing [::shutdown] is only logged. *)
Definition shutdown_write w : conn K :=
  mkConn (lp w) (channel_ w) (state_ w) (input_buffer_ w) (output_buffer_ w) (queue w) (mem w) (wire w)
    true (closed w) (tick w) (accepted w) (received w).

Definition call_close_callback w : conn K :=
  mkConn (lp w) (channel_ w) (state_ w) (input_buffer_ w) (output_buffer_ w) (queue w) (mem w) (wire w)
    (shut w) true (tick w) (accepted w) (received w).

Definition in_loop tid w : bool := is_in_loop_thread tid (lp w).

(** An operation of the connection's channel. *)
Definition on_channel tid (o : chan_op) w : outcome (conn K) :=
  l ← exec tid o (channel_ w) (lp w); mret (with_lp l w).

Definition channel_writing w : outcome bool :=
  c ← deref (channel_ w) (lp w); mret (is_writing c).

(** [len] bytes of user memory at [buf + off]. *)
Definition user_bytes (buf : nat) (off len : Z) w : outcome (list byte) :=
  if len =? 0 then mret [] else
  match mem w !! buf with Some bs => read_range off len bs | None => Fault OutOfBounds end.

(** ** Sending *)

(** [::ssize_t remaining = len;] *)
Definition to_ssize (len : Z) : Z := if u64 len <? 2 ^ 63 then u64 len else u64 len - 2 ^ 64.

(** The attempt to write at once: [nwrote], [remaining] and [fault_error].  The condition
    [EPIPE == errno || ECONNRESET] is the source's. *)
Definition direct_write (buf : nat) (len : Z) w : outcome (conn K * Z * Z * bool) :=
  data ← user_bytes buf 0 len w;
  let r := kwrite (tick w) len in
  let w := tick_up w in
  match r with
  | SysOk n =>
      let w := accept (take (Z.to_nat n) data) (transmit (take (Z.to_nat n) data) w) in
      let remaining := to_ssize len - n in
      let w := if (0 =? remaining) && bool_decide (is_Some (write_complete_callback_ cb))
               then enqueue TaskWriteComplete w else w in
      mret (w, n, remaining, false)
  | SysErr errno =>
      let fault_error :=
        if negb (errno =? EWOULDBLOCK)
        then if (EPIPE =? errno) || negb (ECONNRESET =? 0) then true else false
        else false in
      mret (w, 0, to_ssize len, fault_error)
  end.

(** What was not written goes behind the output buffer, and the channel watches for room. *)
Definition buffer_rest tid (buf : nat) (nwrote remaining : Z) w : outcome (conn K) :=
  rest ← user_bytes buf nwrote remaining w;
  out ← Buffer.append rest (output_buffer_ w);
  let w := accept rest (with_output out w) in
  writing ← channel_writing w;
  if negb writing then on_channel tid EnableWriting w else mret w.

Definition send_in_loop tid (buf : nat) (len : Z) w : outcome (conn K) :=
  _ ← cassert (in_loop tid w);
  if decide (state_ w = kDisconnected) then mret w
  else
    writing ← channel_writing w;
    '(w, nwrote, remaining, fault_error) ←
      (if negb writing && (Buffer.readable_bytes (output_buffer_ w) =? 0)
       then direct_write buf len w
       else mret (w, 0, to_ssize len, false));
    _ ← cassert (u64 remaining <=? len);
    if negb fault_error && (0 <? remaining) then buffer_rest tid buf nwrote remaining w else mret w.

(** [TcpConnection::send]: [loop_->run_in_loop] from another thread queues a functor that
    holds the pointer. *)
Definition send tid (buf : nat) (len : Z) w : outcome (conn K) :=
  if decide (state_ w = kConnected) then
    if in_loop tid w then send_in_loop tid buf len w
    else mret (enqueue (TaskSend buf len) w)
  else mret w.

Definition shutdown_in_loop tid w : outcome (conn K) :=
  _ ← cassert (in_loop tid w);
  writing ← channel_writing w;
  if negb writing then mret (shutdown_write w) else mret w.

Definition shutdown tid w : outcome (conn K) :=
  if decide (state_ w = kConnected) then
    let w := set_state kDisconnecting w in
    if in_loop tid w then shutdown_in_loop tid w else mret (enqueue TaskShutdown w)
  else mret w.

(** ** User callbacks *)

(** A local [std::string] that is sent with its [c_str()] and [size()]. *)
Definition send_local tid (data : list byte) w : outcome (conn K) :=
  let buf := fresh (dom (mem w)) in
  w ← send tid buf (zlen data) (with_mem (<[buf := data]> (mem w)) w);
  mret (with_mem (delete buf (mem w)) w).

Definition run_action tid (a : action) w : outcome (conn K) :=
  match a with
  | Send buf len => send tid buf len w
  | Shutdown => shutdown tid w
  | Consume len => b ← Buffer.retrieve len (input_buffer_ w); mret (with_input b w)
  | SendLocal data => send_local tid data w
  end.

Fixpoint run_actions tid (acts : list action) w : outcome (conn K) :=
  match acts with
  | [] => mret w
  | a :: acts => w ← run_action tid a w; run_actions tid acts w
  end.

Definition connected w : bool := bool_decide (kConnected = state_ w).

Definition call_connection_callback tid w : outcome (conn K) :=
  match connection_callback_ cb with
  | Some f => run_actions tid (f (connected w)) w
  | None => mret w
  end.

(** ** The life of a connection *)

Definition connect_established tid w : outcome (conn K) :=
  _ ← cassert (in_loop tid w);
  _ ← cassert (bool_decide (kConnecting = state_ w));
  let w := set_state kConnected w in
  w ← on_channel tid Tie w;
  w ← on_channel tid EnableReading w;
  call_connection_callback tid w.

Definition connect_destoryed tid w : outcome (conn K) :=
  _ ← cassert (in_loop tid w);
  w ← (if decide (state_ w = kConnected) then
         let w := set_state kDisconnected w in
         w ← on_channel tid DisableAll w;
         call_connection_callback tid w
       else mret w);
  on_channel tid Remove w.

Definition handle_close tid w : outcome (conn K) :=
  _ ← cassert (in_loop tid w);
  _ ← cassert (bool_decide (kConnected = state_ w) || bool_decide (kDisconnecting = state_ w));
  let w := set_state kDisconnected w in
  w ← on_channel tid DisableAll w;
  w ← call_connection_callback tid w;
  mret (if close_callback_ cb then call_close_callback w else w).

(** [getsockopt(SO_ERROR)] and a log line. *)
Definition handle_error w : outcome (conn K) := mret w.

Definition handle_read tid w : outcome (conn K) :=
  _ ← cassert (in_loop tid w);
  let r := kreadv (tick w) (Buffer.writable_bytes (input_buffer_ w) + Buffer.kExtraBuf) in
  '(b, n) ← Buffer.read_fd r (input_buffer_ w);
  let w := receive (Buffer.data_of r) (with_input b (tick_up w)) in
  if 0 <? n then
    match message_callback_ cb with
    | Some f => run_actions tid (f (Buffer.contents b)) w
    | None => mret w
    end
  else if 0 =? n then handle_close tid w
  else handle_error w.

Definition handle_write tid w : outcome (conn K) :=
  _ ← cassert (in_loop tid w);
  writing ← channel_writing w;
  if (writing : bool) then
    data ← Buffer.offered (output_buffer_ w);
    let r := kwrite (tick w) (Buffer.readable_bytes (output_buffer_ w)) in
    '(b, n) ← Buffer.write_fd r (output_buffer_ w);
    let w := with_output b (transmit (take (Z.to_nat n) data) (tick_up w)) in
    if 0 <? n then
      if Buffer.readable_bytes b =? 0 then
        w ← on_channel tid DisableWriting w;
        let w := if bool_decide (is_Some (write_complete_callback_ cb)) then enqueue TaskWriteComplete w else w in
        if decide (state_ w = kDisconnecting) then shutdown_in_loop tid w else mret w
      else mret w
    else mret w
  else mret w.

(** A functor of the connection called by [do_pending_functors]. *)
Definition run_task tid (t : task) w : outcome (conn K) :=
  match t with
  | TaskSend buf len => send_in_loop tid buf len w
  | TaskShutdown => shutdown_in_loop tid w
  | TaskWriteComplete =>
      match write_complete_callback_ cb with Some acts => run_actions tid acts w | None => mret w end
  end.

(** [TcpConnection::~TcpConnection], its channel's destructor included. *)
Definition dtor tid w : outcome (conn K) :=
  _ ← cassert (bool_decide (kDisconnected = state_ w));
  on_channel tid Destroy w.

(** What can happen to a connection: the calls of its server, the events of its channel, a
    pending functor, calls of another thread, and user code writing to its own memory. *)
Inductive event :=
| Established
| Readable
| Writable
| HangUp
| SocketError
| RunTask
| OtherSend (tid : Z) (buf : nat) (len : Z)
| OtherShutdown (tid : Z)
| Destroyed
| StoreMem (buf : nat) (bs : list byte)
| FreeMem (buf : nat).

Definition handle tid (e : event) w : outcome (conn K) :=
  match e with
  | Established => connect_established tid w
  | Readable => handle_read tid w
  | Writable => handle_write tid w
  | HangUp => handle_close tid w
  | SocketError => handle_error w
  | RunTask => match queue w with [] => mret w | t :: q => run_task tid t (with_queue q w) end
  | OtherSend tid buf len => send tid buf len w
  | OtherShutdown tid => shutdown tid w
  | Destroyed => connect_destoryed tid w
  | StoreMem buf bs => mret (with_mem (<[buf := bs]> (mem w)) w)
  | FreeMem buf => mret (with_mem (delete buf (mem w)) w)
  end.

Fixpoint handles tid (es : list event) w : outcome (conn K) :=
  match es with
  | [] => mret w
  | e :: es => w ← handle tid e w; handles tid es w
  end.

(** [TcpConnection::TcpConnection] on a loop, with its channel at the unused address [p] and
    all four callbacks of the channel set. *)
Definition ctor (l : loop K) (p : nat) (sockfd : Z) (m : gmap nat (list byte)) : outcome (conn K) :=
  _ ← cassert (negb (sockfd =? -1));
  l ← channel_ctor p sockfd l;
  input ← Buffer.ctor Buffer.kInitialSize;
  output ← Buffer.ctor Buffer.kInitialSize;
  let l := modify p (λ c, set_error_callback (Reactor.set_close_callback (set_write_callback (set_read_callback c)))) l in
  mret (mkConn l p kConnecting input output [] m [] false false 0 [] []).

(** ** The invariant *)

(** The channel of the connection, when it exists. *)
Definition chan w : option channel := heap (lp w) !! channel_ w.

(** The output buffer waits exactly while the channel watches for writability. *)
Definition watched w : Prop :=
  ∀ c, chan w = Some c → (is_writing c = true ↔ Buffer.contents (output_buffer_ w) ≠ []).

Record cinv w : Prop := {
  ci_loop : inv (lp w);
  ci_chan : is_Some (chan w);
  ci_out : Buffer.wf (output_buffer_ w);
  ci_stream : wire w ++ Buffer.contents (output_buffer_ w) = accepted w;
  ci_watch : state_ w ≠ kDisconnected → watched w
}.

(** What [read] and [write] of the kernel promise. *)
Hypothesis kwrite_ok : ∀ t len n, kwrite t len = SysOk n → 0 <= n <= len.

Lemma land_write e : Z.land e kWriteEvent = if Z.testbit e 2 then kWriteEvent else 0.
Proof.
  apply Z.bits_inj'. intros n Hn. rewrite Z.land_spec. change kWriteEvent with (2 ^ 2) at 1.
  rewrite Z.pow2_bits_eqb by lia. destruct (Z.eqb_spec 2 n) as [<-|Hne].
  - rewrite andb_true_r. by destruct (Z.testbit e 2).
  - rewrite andb_false_r. destruct (Z.testbit e 2); [|by rewrite Z.bits_0].
    change kWriteEvent with (2 ^ 2). rewrite Z.pow2_bits_eqb by lia. symmetry. by apply Z.eqb_neq.
Qed.

Lemma is_writing_bit c : is_writing c = Z.testbit (events_ c) 2.
Proof. unfold is_writing. rewrite land_write. by destruct (Z.testbit (events_ c) 2). Qed.

(** The bit of the write event after an operation. *)
Definition writing_after (o : chan_op) (b : bool) : bool :=
  match o with EnableWriting => true | DisableWriting | DisableAll => false | _ => b end.

Lemma writing_after_ok o e e' :
  new_events o e = Some e' → Z.testbit e' 2 = writing_after o (Z.testbit e 2).
Proof.
  destruct o; cbn [new_events writing_after]; intros [= <-]; try done.
  - rewrite Z.lor_spec. by rewrite orb_false_r.
  - rewrite Z.land_spec. by rewrite andb_true_r.
  - rewrite Z.lor_spec. by rewrite orb_true_r.
  - rewrite Z.land_spec. by rewrite andb_false_r.
Qed.

(** A channel operation that succeeds. *)
Lemma on_channel_done tid o w w' c :
  inv (lp w) → chan w = Some c → (∀ fd, o ≠ NewChannel fd) → o ≠ Destroy → on_channel tid o w = Ok w' →
  ∃ l' c', w' = with_lp l' w ∧ inv l' ∧ heap l' !! channel_ w = Some c' ∧
           is_writing c' = writing_after o (is_writing c).
Proof.
  intros Hinv Hc Hn Hd Hx. unfold on_channel in Hx. destruct (exec tid o (channel_ w) (lp w)) as [l'|] eqn:He; [|done].
  cbn in Hx. injection Hx as <-. exists l'. rewrite is_writing_bit.
  assert (inv l') as Hinv' by (eapply (exec_inv tid o (channel_ w) (lp w)); [exact Hinv | destruct o as [fd| | | | | | | |]; try exact I; by destruct (Hn fd) | exact He]).
  destruct (new_events o (events_ c)) as [e|] eqn:Ee.
  - destruct (change_events_done tid o (channel_ w) c e _ _ Hinv Hc Ee He) as (_ & _ & _ & _ & Hh).
    eexists. split; [done|]. split; [done|]. rewrite Hh, lookup_insert_eq. split; [done|].
    rewrite is_writing_bit. cbn. by apply writing_after_ok.
  - destruct o; try done; [by destruct (Hn fd) | | ].
    + destruct (remove_pre _ _ _ _ He) as (d & Hd' & ? & ? & ? & ? & ?). unfold chan in Hc. assert (d = c) as -> by congruence.
      destruct (remove_ok tid (channel_ w) c (lp w)) as (l1 & Hl1 & _ & _ & Hh & _); [done..|].
      assert (l1 = l') as -> by (cbn [exec] in He; congruence). rewrite Hh, lookup_insert_eq. eexists. split_and!; try done.
      rewrite is_writing_bit. done.
    + cbn in He. unfold tie in He. rewrite (deref_ok _ _ c Hc) in He. cbn in He. injection He as <-.
      rewrite (modify_eq _ _ _ c Hc) in Hinv' |- *. cbn. rewrite lookup_insert_eq. eexists. split_and!; try done.
      rewrite is_writing_bit. done.
Qed.

Lemma channel_writing_ok w c : chan w = Some c → channel_writing w = Ok (is_writing c).
Proof. intros Hc. unfold channel_writing. by rewrite (deref_ok _ _ c Hc). Qed.

(** A channel operation that leaves the write event as the output buffer asks for. *)
Lemma on_channel_cinv tid o w w' :
  inv (lp w) → is_Some (chan w) → Buffer.wf (output_buffer_ w) →
  wire w ++ Buffer.contents (output_buffer_ w) = accepted w →
  (state_ w ≠ kDisconnected → ∀ c, chan w = Some c →
     (writing_after o (is_writing c) = true ↔ Buffer.contents (output_buffer_ w) ≠ [])) →
  (∀ fd, o ≠ NewChannel fd) → o ≠ Destroy → on_channel tid o w = Ok w' →
  cinv w' ∧ state_ w' = state_ w.
Proof.
  intros Hi [c Hc] Hwf Hs Hw Hn Hd Hx.
  destruct (on_channel_done tid o w w' c Hi Hc Hn Hd Hx) as (l' & c' & -> & Hi' & Hc' & Hwr).
  split; [|done]. split; cbn; try done.
  intros Hst c0 Hc0. unfold chan in Hc0. cbn in Hc0. rewrite Hc' in Hc0. injection Hc0 as <-.
  rewrite Hwr. by apply Hw.
Qed.

Lemma user_bytes_len buf off len w bs : user_bytes buf off len w = Ok bs → zlen bs = len ∧ 0 <= len.
Proof.
  unfold user_bytes. destruct (Z.eqb_spec len 0) as [->|Hne]; [intros [= <-]; done|].
  destruct (mem w !! buf) as [m|]; [|done]. unfold read_range. intros Hr. outcome_inv.
  split; [apply zlen_slice; lia | lia].
Qed.

Lemma to_ssize_max len : to_ssize len <= kMaxObject.
Proof. unfold to_ssize, kMaxObject. pose proof (u64_range len). split_tests; lia. Qed.

Lemma to_ssize_id len : 0 <= len < 2 ^ 63 → to_ssize len = len.
Proof. intros. unfold to_ssize. rewrite u64_small by lia. by decide_test (len <? 2 ^ 63). Qed.

(** The direct write hands a first part of the data to the kernel, if any. *)
Lemma direct_write_done buf len w w' n r f :
  direct_write buf len w = Ok (w', n, r, f) →
  ∃ bs, wire w' = wire w ++ bs ∧ accepted w' = accepted w ++ bs ∧ r <= kMaxObject ∧
        lp w' = lp w ∧ channel_ w' = channel_ w ∧ state_ w' = state_ w ∧
        output_buffer_ w' = output_buffer_ w ∧ mem w' = mem w.
Proof.
  unfold direct_write. destruct (user_bytes buf 0 len w) as [data|] eqn:Hd; [|done].
  destruct (user_bytes_len _ _ _ _ _ Hd) as [Hl Hl0]. pose proof (to_ssize_max len).
  cbn -[to_ssize kMaxObject]. destruct (kwrite (tick w) len) as [k|e] eqn:Hk.
  - pose proof (kwrite_ok _ _ _ Hk). intros [= <- <- <- <-]. exists (take (Z.to_nat k) data).
    destruct (_ && _); split_and!; try done; lia.
  - intros [= <- <- <- <-]. exists []. rewrite !app_nil_r. done.
Qed.

Lemma send_in_loop_cinv tid buf len w w' :
  cinv w → send_in_loop tid buf len w = Ok w' → cinv w' ∧ state_ w' = state_ w.
Proof.
  intros Hi Hs. pose proof Hi as [Hl [c Hc] Hwf Hst Hwa]. unfold send_in_loop in Hs.
  destruct (in_loop tid w); [bstep Hs | done]. case_decide as Hd; [by injection Hs as <-|].
  rewrite (channel_writing_ok _ _ Hc) in Hs. bstep Hs.
  set (m := if _ && _ then _ else _) in Hs. destruct m as [[[[w1 n] r] f]|] eqn:Hm; [|done]. subst m.
  assert (∃ bs, wire w1 = wire w ++ bs ∧ accepted w1 = accepted w ++ bs ∧ r <= kMaxObject ∧
    lp w1 = lp w ∧ channel_ w1 = channel_ w ∧ state_ w1 = state_ w ∧ output_buffer_ w1 = output_buffer_ w ∧
    (bs = [] ∨ Buffer.contents (output_buffer_ w) = [])) as (bs & Hw1 & Ha1 & Hr & Hlp & Hch & Hs1 & Ho & Hbs).
  { destruct (_ && _) eqn:Eb.
    - destruct (direct_write_done _ _ _ _ _ _ _ Hm) as (bs & ? & ? & ? & ? & ? & ? & ? & _). exists bs. split_and!; try done.
      right. unbool. apply zlen_nil_inv. rewrite Buffer.buffer_len by done. done.
    - injection Hm as <- <- <- <-. exists []. rewrite !app_nil_r. pose proof (to_ssize_max len). split_and!; auto. }
  assert (chan w1 = Some c) as Hc1 by (unfold chan; by rewrite Hlp, Hch).
  assert (wire w1 ++ Buffer.contents (output_buffer_ w) = accepted w1) as Hst1.
  { rewrite Hw1, Ha1, <- Hst. destruct Hbs as [-> | ->]; by rewrite !app_nil_r. }
  bstep Hs. destruct (u64 r <=? len); [bstep Hs | done].
  destruct (negb f && (0 <? r)) eqn:Er; cycle 1.
  { injection Hs as <-. split; [|done]. split; rewrite ?Hlp, ?Ho, ?Hs1; try done.
    intros _ c0 Hc0. rewrite Ho. apply Hwa; [done|]. congruence. }
  unfold buffer_rest in Hs. destruct (user_bytes buf n r w1) as [rest|] eqn:Hrest; [|done]. bstep Hs.
  destruct (user_bytes_len _ _ _ _ _ Hrest) as [Hlen _]. unbool. rewrite Ho in Hs.
  destruct (Buffer.append rest (output_buffer_ w)) as [out|] eqn:Hap; [|done]. bstep Hs.
  destruct (Buffer.append_inv rest (output_buffer_ w) out) as [Hwf' Hcont]; [done | lia | done |].
  assert (Buffer.contents out ≠ []) as Hne.
  { rewrite Hcont. intros Hx. apply app_eq_nil in Hx as [_ ->]. rewrite zlen_nil in Hlen. lia. }
  unfold channel_writing in Hs. cbn [channel_ lp accept with_output] in Hs. rewrite Hlp, Hch in Hs.
  rewrite (deref_ok _ _ c Hc) in Hs. bstep Hs.
  assert (wire w1 ++ Buffer.contents out = accepted w1 ++ rest) as Hst2.
  { rewrite Hcont, (assoc_L (++)), Hst1. done. }
  destruct (is_writing c) eqn:Ew; cbn [negb] in Hs.
  - injection Hs as <-. split; [|done]. split; cbn; rewrite ?Hlp; try done; [rewrite Hch; by exists c|].
    intros _ c0 Hc0. cbn. replace c0 with c by (change (chan w1 = Some c0) in Hc0; congruence). by rewrite Ew.
  - destruct (on_channel_cinv tid EnableWriting (accept rest (with_output out w1)) w') as [? ->];
      [cbn; by rewrite Hlp | by exists c | done | done | done | done | done | exact Hs | done].
Qed.

(** What sending leaves as it is. *)
Definition sends w w' : Prop :=
  mem w' = mem w ∧ received w' = received w ∧ input_buffer_ w' = input_buffer_ w ∧ state_ w' = state_ w ∧ closed w' = closed w.

Lemma sends_trans w1 w2 w3 : sends w1 w2 → sends w2 w3 → sends w1 w3.
Proof. intros (? & ? & ? & ? & ?) (? & ? & ? & ? & ?). unfold sends. split_and!; by etrans. Qed.

Lemma buffer_rest_keeps tid buf off len w w' : buffer_rest tid buf off len w = Ok w' → sends w w'.
Proof.
  unfold buffer_rest, on_channel. intros Hx. destruct (user_bytes buf off len w) as [rest|]; [bstep Hx | done].
  destruct (Buffer.append _ _) as [out|]; [bstep Hx | done]. destruct (channel_writing _) as [[]|]; [bstep Hx.. | done].
  - by injection Hx as <-.
  - destruct (exec _ _ _ _) as [l|]; [bstep Hx | done]. by injection Hx as <-.
Qed.

Lemma direct_write_keeps buf len w w' n r f : direct_write buf len w = Ok (w', n, r, f) → sends w w'.
Proof.
  unfold direct_write. intros Hx. destruct (user_bytes buf 0 len w) as [data|]; [bstep Hx | done].
  destruct (kwrite (tick w) len); injection Hx as <- _ _ _; [|done]. by destruct (_ && _).
Qed.

Lemma send_in_loop_keeps tid buf len w w' : send_in_loop tid buf len w = Ok w' → sends w w'.
Proof.
  unfold send_in_loop. intros Hx. destruct (in_loop tid w); [bstep Hx | done]. case_decide; [by injection Hx as <-|].
  destruct (channel_writing w) as [wr|]; [bstep Hx | done].
  set (a := if _ && _ then _ else _) in Hx. destruct a as [[[[w1 n] r] f]|] eqn:Ha; [bstep Hx | done]. subst a.
  assert (sends w w1) as H1 by (destruct (_ && _); [by eapply direct_write_keeps | by injection Ha as <- _ _ _]).
  destruct (u64 r <=? len); [bstep Hx | done]. destruct (negb f && (0 <? r)); [|by injection Hx as <-].
  apply buffer_rest_keeps in Hx. by eapply sends_trans.
Qed.

Lemma send_keeps tid buf len w w' : send tid buf len w = Ok w' → sends w w'.
Proof.
  unfold send. intros Hx. case_decide; [|by injection Hx as <-].
  destruct (in_loop tid w); [by eapply send_in_loop_keeps | by injection Hx as <-].
Qed.

(** Changes of fields the invariant does not speak about, and of the state. *)
Lemma cinv_frame w w' :
  cinv w → lp w' = lp w → channel_ w' = channel_ w → output_buffer_ w' = output_buffer_ w →
  wire w' = wire w → accepted w' = accepted w →
  (state_ w = kDisconnected → state_ w' = kDisconnected) → cinv w'.
Proof.
  intros [? ? ? ? Hw] Hl Hc Ho Hwi Ha Hs. assert (chan w' = chan w) as Hch by (unfold chan; by rewrite Hl, Hc).
  split; unfold watched in *; rewrite ?Hl, ?Hch, ?Ho, ?Hwi, ?Ha; try done.
  intros Hne. apply Hw. intros Hx. by apply Hne, Hs.
Qed.

Lemma send_cinv tid buf len w w' : cinv w → send tid buf len w = Ok w' → cinv w'.
Proof.
  intros Hi Hs. unfold send in Hs. case_decide; [|by injection Hs as <-].
  destruct (in_loop tid w); [by eapply send_in_loop_cinv|]. injection Hs as <-. by eapply cinv_frame.
Qed.

Lemma shutdown_in_loop_cinv tid w w' : cinv w → shutdown_in_loop tid w = Ok w' → cinv w'.
Proof.
  intros Hi Hs. pose proof Hi as [_ [c Hc] _ _ _]. unfold shutdown_in_loop in Hs.
  destruct (in_loop tid w); [bstep Hs|done]. rewrite (channel_writing_ok _ _ Hc) in Hs. bstep Hs.
  destruct (is_writing c); injection Hs as <-; [done | by eapply cinv_frame].
Qed.

Lemma shutdown_cinv tid w w' : cinv w → shutdown tid w = Ok w' → cinv w'.
Proof.
  intros Hi Hs. unfold shutdown in Hs. case_decide as Hst; [|by injection Hs as <-].
  assert (cinv (set_state kDisconnecting w)) as Hi' by (eapply cinv_frame; [exact Hi | done..| cbn; congruence]).
  destruct (in_loop tid _); [by eapply shutdown_in_loop_cinv|]. injection Hs as <-. by eapply cinv_frame.
Qed.

Lemma run_actions_cinv tid acts w w' : cinv w → run_actions tid acts w = Ok w' → cinv w'.
Proof.
  revert w. induction acts as [|a acts IH]; intros w Hi Hr; cbn [run_actions] in Hr; [by injection Hr as <-|].
  destruct (run_action tid a w) as [w1|] eqn:Ha; [bstep Hr | done]. apply (IH w1); [|done].
  destruct a as [buf len| |len|data]; cbn [run_action] in Ha.
  - by eapply send_cinv.
  - by eapply shutdown_cinv.
  - destruct (Buffer.retrieve len (input_buffer_ w)); [bstep Ha | done]. injection Ha as <-. by eapply cinv_frame.
  - unfold send_local in Ha. set (w0 := with_mem _ w) in Ha. destruct (send tid _ _ w0) as [w2|] eqn:Hs; [bstep Ha | done].
    injection Ha as <-. assert (cinv w0) as Hi0 by (by eapply (cinv_frame w)). apply (send_cinv _ _ _ _ _ Hi0) in Hs. by eapply (cinv_frame w2).
Qed.

Lemma connection_callback_cinv tid w w' : cinv w → call_connection_callback tid w = Ok w' → cinv w'.
Proof.
  intros Hi Hc. unfold call_connection_callback in Hc.
  destruct (connection_callback_ cb); [by eapply run_actions_cinv | by injection Hc as <-].
Qed.

(** [this->set_state(State::kDisconnected); channel_.disable_all();] and the callback. *)
Lemma disconnect_cinv tid w w' :
  cinv w →
  (w ← on_channel tid DisableAll (set_state kDisconnected w); call_connection_callback tid w) = Ok w' → cinv w'.
Proof.
  intros [? ? ? ? _] Hx.
  destruct (on_channel tid DisableAll (set_state kDisconnected w)) as [w1|] eqn:Ho; [bstep Hx | done].
  eapply connection_callback_cinv; [|exact Hx].
  by eapply (on_channel_cinv tid DisableAll (set_state kDisconnected w)).
Qed.

Lemma handle_close_cinv tid w w' : cinv w → handle_close tid w = Ok w' → cinv w'.
Proof.
  intros Hi Hx. unfold handle_close in Hx. destruct (in_loop tid w); [bstep Hx | done].
  destruct (_ || _); [bstep Hx | done]. rewrite <- bind_assoc in Hx.
  match type of Hx with mbind _ ?m = _ => destruct m as [w1|] eqn:Hm end; [bstep Hx | done].
  apply disconnect_cinv in Hm; [|done]. injection Hx as <-. destruct (close_callback_ cb); [|done]. by eapply cinv_frame.
Qed.

(** An operation that keeps the write event. *)
Lemma on_channel_keeps tid o w w' :
  cinv w → (∀ b, writing_after o b = b) → (∀ fd, o ≠ NewChannel fd) → o ≠ Destroy → on_channel tid o w = Ok w' →
  cinv w'.
Proof.
  intros [? ? ? ? Hw] Hb Hn Hd Hx. eapply (on_channel_cinv tid o w); try done.
  intros Hst c Hc. rewrite Hb. by apply Hw.
Qed.

Lemma connect_established_cinv tid w w' : cinv w → connect_established tid w = Ok w' → cinv w'.
Proof.
  intros Hi Hx. unfold connect_established in Hx. destruct (in_loop tid w); [bstep Hx | done].
  destruct (bool_decide_reflect (kConnecting = state_ w)) as [Hst|]; [bstep Hx | done].
  assert (cinv (set_state kConnected w)) as Hi' by (eapply cinv_frame; [exact Hi | done..| congruence]).
  destruct (on_channel tid Tie _) as [w1|] eqn:H1; [bstep Hx | done].
  destruct (on_channel tid EnableReading w1) as [w2|] eqn:H2; [bstep Hx | done].
  eapply connection_callback_cinv; [|exact Hx].
  eapply (on_channel_keeps tid EnableReading w1); [|done..|exact H2]. by eapply (on_channel_keeps tid Tie (set_state kConnected w)).
Qed.

Lemma connect_destoryed_cinv tid w w' : cinv w → connect_destoryed tid w = Ok w' → cinv w'.
Proof.
  intros Hi Hx. unfold connect_destoryed in Hx. destruct (in_loop tid w); [bstep Hx | done].
  match type of Hx with mbind _ ?m = _ => destruct m as [w1|] eqn:Hm end; [bstep Hx | done].
  eapply (on_channel_keeps tid Remove w1); [|done..|exact Hx].
  case_decide; [by eapply disconnect_cinv | by injection Hm as <-].
Qed.

Lemma handle_read_cinv tid w w' : cinv w → handle_read tid w = Ok w' → cinv w'.
Proof.
  intros Hi Hx. unfold handle_read in Hx. destruct (in_loop tid w); [bstep Hx | done].
  destruct (Buffer.read_fd _ _) as [[b n]|]; [bstep Hx | done].
  set (w1 := receive _ _) in Hx. assert (cinv w1) as Hi' by (by eapply (cinv_frame w)).
  destruct (0 <? n).
  - destruct (message_callback_ cb); [by eapply run_actions_cinv | by injection Hx as <-].
  - destruct (0 =? n); [by eapply handle_close_cinv | by injection Hx as <-].
Qed.

(** The write of [handle_write]: what left the buffer is what the kernel took. *)
Lemma flush_ok w :
  Buffer.wf (output_buffer_ w) →
  ∃ b n, Buffer.write_fd (kwrite (tick w) (Buffer.readable_bytes (output_buffer_ w))) (output_buffer_ w) = Ok (b, n) ∧
    Buffer.wf b ∧ n <= Buffer.readable_bytes (output_buffer_ w) ∧
    Buffer.contents (output_buffer_ w) = take (Z.to_nat n) (Buffer.contents (output_buffer_ w)) ++ Buffer.contents b ∧
    (n = match kwrite (tick w) (Buffer.readable_bytes (output_buffer_ w)) with SysOk k => k | SysErr _ => -1 end).
Proof.
  intros Hwf. set (out := output_buffer_ w) in *. pose proof (Buffer.buffer_len out Hwf) as Hlen.
  pose proof (zlen_nonneg (Buffer.contents out)).
  destruct (kwrite (tick w) (Buffer.readable_bytes out)) as [k|e] eqn:Hk.
  - pose proof (kwrite_ok _ _ _ Hk). destruct (Buffer.write_fd_ok k out) as (b & Hb & Hwfb & Hc & _); [done | lia |].
    exists b, k. split_and!; try done. lia.
  - exists out, (-1). rewrite Buffer.write_fd_err by done. split_and!; try done. lia.
Qed.

Lemma readable_zero b : Buffer.wf b → (Buffer.readable_bytes b =? 0) = bool_decide (Buffer.contents b = []).
Proof.
  intros Hwf. rewrite <- (Buffer.buffer_len b Hwf). case_bool_decide as Hb; [by rewrite Hb|].
  apply Z.eqb_neq. intros Hx. by apply zlen_nil_inv in Hx.
Qed.

Lemma handle_write_cinv tid w w' : cinv w → handle_write tid w = Ok w' → cinv w'.
Proof.
  intros Hi Hx. pose proof Hi as [Hl [c Hc] Hwf Hst Hwa]. unfold handle_write in Hx.
  destruct (in_loop tid w); [bstep Hx | done]. rewrite (channel_writing_ok _ _ Hc) in Hx. bstep Hx.
  destruct (is_writing c) eqn:Ew; [|by injection Hx as <-]. rewrite Buffer.offered_ok in Hx by done. bstep Hx.
  destruct (flush_ok w Hwf) as (b & n & Hb & Hwfb & Hn & Hsplit & _). rewrite Hb in Hx. bstep Hx.
  set (w1 := with_output b _) in Hx.
  assert (wire w1 ++ Buffer.contents b = accepted w1) as Hst1 by (cbn; by rewrite <- (assoc_L (++)), <- Hsplit).
  assert (Buffer.contents b ≠ [] → cinv w1) as Hi1.
  { intros Hne. split; cbn; try done. intros _ c0 Hc0. change (chan w = Some c0) in Hc0.
    replace c0 with c by congruence. by rewrite Ew. }
  destruct (0 <? n) eqn:En; unbool.
  - rewrite readable_zero in Hx by done. case_bool_decide as He; [|injection Hx as <-; by apply Hi1].
    destruct (on_channel tid DisableWriting w1) as [w2|] eqn:H2; [bstep Hx | done].
    destruct (on_channel_cinv tid DisableWriting w1 w2) as [Hi2 Hs2]; [done | by exists c | done | done | | done | done | done |].
    { intros _ c0 Hc0. cbn. by rewrite He. }
    set (w3 := if bool_decide _ then _ else _) in Hx.
    assert (cinv w3) as Hi3 by (unfold w3; destruct (bool_decide _); [by eapply cinv_frame | done]).
    case_decide; [by eapply shutdown_in_loop_cinv | by injection Hx as <-].
  - injection Hx as <-. replace (Z.to_nat n) with 0%nat in * by lia. rewrite take_0, app_nil_l in Hsplit.
    destruct (decide (Buffer.contents b = [])) as [He|]; [|by apply Hi1].
    split; cbn; try done. intros Hd. unfold watched, chan. cbn. rewrite <- Hsplit. exact (Hwa Hd).
Qed.

Lemma run_task_cinv tid t w w' : cinv w → run_task tid t w = Ok w' → cinv w'.
Proof.
  intros Hi Hx. destruct t; cbn [run_task] in Hx.
  - by eapply send_in_loop_cinv.
  - by eapply shutdown_in_loop_cinv.
  - destruct (write_complete_callback_ cb); [by eapply run_actions_cinv | by injection Hx as <-].
Qed.

Lemma handle_cinv tid e w w' : cinv w → handle tid e w = Ok w' → cinv w'.
Proof.
  intros Hi Hx. destruct e; cbn [handle] in Hx.
  - by eapply connect_established_cinv.
  - by eapply handle_read_cinv.
  - by eapply handle_write_cinv.
  - by eapply handle_close_cinv.
  - by injection Hx as <-.
  - destruct (queue w); [by injection Hx as <-|]. eapply run_task_cinv; [|exact Hx]. by eapply cinv_frame.
  - by eapply send_cinv.
  - by eapply shutdown_cinv.
  - by eapply connect_destoryed_cinv.
  - injection Hx as <-. by eapply cinv_frame.
  - injection Hx as <-. by eapply cinv_frame.
Qed.

Lemma handles_cinv tid es w w' : cinv w → handles tid es w = Ok w' → cinv w'.
Proof.
  revert w. induction es as [|e es IH]; intros w Hi Hx; cbn [handles] in Hx; [by injection Hx as <-|].
  destruct (handle tid e w) as [w1|] eqn:He; [bstep Hx | done]. eauto using handle_cinv.
Qed.

(** A new connection on a loop in order. *)
Lemma ctor_done l p sockfd m : inv l → heap l !! p = None → sockfd ≠ -1 →
  ∃ w, ctor l p sockfd m = Ok w ∧ cinv w ∧ state_ w = kConnecting ∧ mem w = m ∧ channel_ w = p ∧
       id (lp w) = id l ∧ tid_ (lp w) = tid_ l ∧ channels_ (lp w) = channels_ l ∧
       event_handing_ (lp w) = event_handing_ l ∧
       chan w = Some (mkChannel (id l) sockfd 0 0 (-1) false false false true true true true) ∧
       Buffer.contents (input_buffer_ w) = [] ∧ Buffer.contents (output_buffer_ w) = [] ∧
       wire w = [] ∧ queue w = [] ∧ closed w = false ∧
       heap (lp w) = <[p := mkChannel (id l) sockfd 0 0 (-1) false false false true true true true]> (heap l).
Proof.
  intros Hi Hp Hs. unfold ctor. decide_test (sockfd =? -1). cstep.
  destruct (channel_ctor p sockfd l) as [l1|] eqn:Hc; cycle 1.
  { unfold channel_ctor in Hc. destruct (Z.eqb_spec sockfd (-1)); [done|]. discriminate Hc. }
  pose proof (ctor_inv p sockfd l l1 Hi Hp Hc) as Hi1. cstep.
  destruct (Buffer.ctor_ok Buffer.kInitialSize) as (b & -> & Hwf & He & _); [done..|]. cstep.
  unfold channel_ctor in Hc. destruct (Z.eqb_spec sockfd (-1)); [done|]. bstep Hc. injection Hc as <-.
  eexists. split; [reflexivity|]. erewrite modify_eq in * by (cbn; apply lookup_insert_eq).
  unfold with_heap in *. unfold chan. cbn in *. rewrite insert_insert_eq in *. rewrite lookup_insert_eq.
  split; [|split_and!; done]. split; unfold chan; cbn; try done.
  - eapply (inv_touch p _ (mkChannel (id l) sockfd 0 0 (-1) false false false true true true true)) in Hi1;
      [|apply lookup_insert_eq | done..].
    cbn in Hi1. unfold with_heap in Hi1. cbn in Hi1. rewrite insert_insert_eq in Hi1. exact Hi1.
  - by rewrite lookup_insert_eq.
  - intros _ c Hc. unfold chan in Hc. cbn in Hc. rewrite lookup_insert_eq in Hc. injection Hc as <-. cbn. by rewrite He.
Qed.

(** ** Totality *)

(** A channel registered with the loop of this thread. *)
Record attached tid w (c : channel) : Prop := {
  at_chan : chan w = Some c;
  at_loop : loop_ c = id (lp w);
  at_tid : tid = tid_ (lp w);
  at_added : index_ c = kAdded
}.

Lemma in_loop_ok tid w c : attached tid w c → in_loop tid w = true.
Proof. intros [_ _ -> _]. apply Z.eqb_refl. Qed.

Lemma on_channel_ok tid o w c e :
  inv (lp w) → attached tid w c → new_events o (events_ c) = Some e →
  ∃ l', on_channel tid o w = Ok (with_lp l' w) ∧ inv l' ∧ same_frame (lp w) l' ∧
        heap l' = <[channel_ w := set_index (next_index (set_events e c)) (set_added true (set_events e c))]> (heap (lp w)) ∧
        registered (kernel l') (fd_ c) = if e =? kNoneEvent then None else Some (e, channel_ w).
Proof.
  intros Hi [Hc Hl Ht Ha] He.
  destruct (change_events_exec tid o (channel_ w) c e (lp w)) as (l' & Hx & ? & ? & ? & Hr & _);
    [done.. | rewrite Ha; done | done |].
  exists l'. unfold on_channel. rewrite Hx. split_and!; try done. rewrite Ha in Hr. exact Hr.
Qed.

Lemma user_bytes_ok buf off len w bs :
  mem w !! buf = Some bs → 0 <= off → 0 <= len → off + len <= zlen bs →
  user_bytes buf off len w = Ok (slice off len bs).
Proof.
  intros Hm Ho Hl Hz. unfold user_bytes. destruct (Z.eqb_spec len 0) as [->|]; [done|].
  rewrite Hm. by apply read_range_ok.
Qed.

Lemma buffer_rest_ok tid buf nwrote remaining bs c w :
  inv (lp w) → attached tid w c → Buffer.wf (output_buffer_ w) → mem w !! buf = Some bs →
  0 <= nwrote → 0 < remaining → nwrote + remaining <= zlen bs →
  Buffer.writer_index_ (output_buffer_ w) + remaining <= kMaxObject →
  ∃ w', buffer_rest tid buf nwrote remaining w = Ok w' ∧
        accepted w' = accepted w ++ slice nwrote remaining bs.
Proof.
  intros Hi Ha Hwf Hm Hn Hr Hz Hmax. unfold buffer_rest. rewrite (user_bytes_ok _ _ _ _ bs) by (done || lia). cstep.
  destruct (Buffer.append_ok (slice nwrote remaining bs) (output_buffer_ w)) as (b & Hb & _);
    [done | rewrite zlen_slice by lia; lia |]. rewrite Hb. cstep.
  set (w1 := accept _ _). assert (chan w1 = Some c) as Hc1 by apply Ha.
  rewrite (channel_writing_ok w1 c Hc1). cstep. destruct (is_writing c); [by exists w1|].
  destruct (on_channel_ok tid EnableWriting w1 c (Z.lor (events_ c) kWriteEvent)) as (l' & -> & _);
    [done | destruct Ha; by split | done |]. by eexists.
Qed.

Lemma direct_write_ok buf len bs w :
  mem w !! buf = Some bs → 0 <= len <= zlen bs → len < 2 ^ 63 →
  ∃ w' n f, direct_write buf len w = Ok (w', n, len - n, f) ∧ 0 <= n <= len ∧
    accepted w' = accepted w ++ slice 0 n bs ∧ f = match kwrite (tick w) len with SysErr e => negb (e =? EWOULDBLOCK) | SysOk _ => false end ∧
    (f = true → n = 0).
Proof.
  intros Hm Hl Hmax. unfold direct_write. rewrite (user_bytes_ok _ _ _ _ bs) by (done || lia). cstep.
  rewrite (to_ssize_id len) by lia. destruct (kwrite (tick w) len) as [n|e] eqn:Hk.
  - pose proof (kwrite_ok _ _ _ Hk). eexists _, n, false. split; [reflexivity|]. split; [done|].
    rewrite take_slice by lia. by destruct (_ && _).
  - eexists _, 0, _. rewrite Z.sub_0_r, slice_0, app_nil_r. split; [reflexivity|]. split; [lia|]. split; [done|].
    destruct (negb (e =? EWOULDBLOCK)); [|done]. by rewrite orb_true_r.
Qed.

(** Whether the kernel refuses the data at once, with an error other than [EWOULDBLOCK]. *)
Definition refused (len : Z) w : bool :=
  bool_decide (Buffer.contents (output_buffer_ w) = []) &&
  match kwrite (tick w) len with SysErr e => negb (e =? EWOULDBLOCK) | SysOk _ => false end.

Lemma send_in_loop_ok tid buf len bs c w :
  cinv w → attached tid w c → state_ w ≠ kDisconnected → mem w !! buf = Some bs → 0 <= len <= zlen bs →
  Buffer.writer_index_ (output_buffer_ w) + len <= kMaxObject →
  ∃ w', send_in_loop tid buf len w = Ok w' ∧
        accepted w' = accepted w ++ (if refused len w then [] else take (Z.to_nat len) bs).
Proof.
  intros Hi Ha Hst Hm Hlen Hmax. pose proof Hi as [Hl _ Hwf _ Hw]. pose proof Hwf as (Hix & _).
  unfold Buffer.kCheapPrepend, kMaxObject in *. pose proof (zlen_nonneg bs).
  unfold send_in_loop. rewrite (in_loop_ok _ _ _ Ha). cstep. rewrite decide_False by done.
  rewrite (channel_writing_ok w c) by apply Ha. cstep. rewrite readable_zero by done.
  pose proof (Hw Hst c (at_chan _ _ _ Ha)) as Hwc. unfold refused.
  case_bool_decide as He; cbn [andb].
  - assert (is_writing c = false) as -> by (destruct (is_writing c); [destruct Hwc as [Hwc _]; by destruct (Hwc eq_refl) | done]).
    cbn [negb andb]. destruct (direct_write_ok buf len bs w) as (w1 & n & f & Hd & Hn & Hacc & Hf & Hf0); [done | lia | lia |].
    rewrite Hd. cbn [mbind outcome_bind]. rewrite <- Hf. rewrite u64_small by lia. decide_test (len - n <=? len). cstep.
    destruct (direct_write_done _ _ _ _ _ _ _ Hd) as (_ & _ & _ & _ & Hlp & Hch & Hs1 & Ho & Hmem).
    assert (attached tid w1 c) as Ha1 by (destruct Ha; split; unfold chan in *; rewrite ?Hlp, ?Hch; done).
    destruct f; cbn [negb andb].
    + exists w1. split; [done|]. by rewrite Hacc, (Hf0 eq_refl).
    + destruct (Z.ltb_spec 0 (len - n)).
      * destruct (buffer_rest_ok tid buf n (len - n) bs c w1) as (w2 & H2 & Hacc2);
          [by rewrite Hlp | done | by rewrite Ho | by rewrite Hmem | lia | lia | lia | rewrite Ho; unfold kMaxObject; lia |].
        exists w2. split; [done|]. rewrite Hacc2, Hacc, <- (assoc_L (++)). f_equal.
        change n with (0 + n) at 2. rewrite <- slice_add by lia. unfold slice. cbn. do 2 f_equal. lia.
      * exists w1. split; [done|]. rewrite Hacc. unfold slice. cbn. do 3 f_equal. lia.
  - rewrite andb_false_r, to_ssize_id by lia. cstep. rewrite u64_small by lia. decide_test (len <=? len). cstep.
    destruct (Z.ltb_spec 0 len); cbn [andb].
    + destruct (buffer_rest_ok tid buf 0 len bs c w) as (w2 & H2 & Hacc2); [done..| lia | done | lia | unfold kMaxObject; lia |].
      exists w2. by rewrite Hacc2.
    + exists w. split; [done|]. replace (Z.to_nat len) with 0%nat by lia. by rewrite take_0, app_nil_r.
Qed.

(** A [send_in_loop] that returns has accepted all of the data or nothing, and all of it when the
    kernel refuses data only for want of room. *)
Lemma send_in_loop_result tid buf bs w w' :
  send_in_loop tid buf (zlen bs) w = Ok w' → state_ w ≠ kDisconnected → mem w !! buf = Some bs → zlen bs <= kMaxObject →
  ∃ b : bool, accepted w' = accepted w ++ (if b then bs else []) ∧
    ((∀ t len e, kwrite t len = SysErr e → e = EWOULDBLOCK) → b = true).
Proof.
  intros Hx Hst Hm Hmax. unfold kMaxObject in Hmax. pose proof (zlen_nonneg bs). unfold send_in_loop in Hx.
  destruct (in_loop tid w); [bstep Hx | done]. rewrite decide_False in Hx by done.
  destruct (channel_writing w) as [wr|]; [bstep Hx | done].
  set (a := if _ && _ then _ else _) in Hx. destruct a as [[[[w1 n] r] f]|] eqn:Ha; [bstep Hx | done]. subst a.
  assert (r = zlen bs - n ∧ 0 <= n <= zlen bs ∧ accepted w1 = accepted w ++ slice 0 n bs ∧ mem w1 = mem w ∧
    (f = true → n = 0) ∧ ((∀ t len e, kwrite t len = SysErr e → e = EWOULDBLOCK) → f = false)) as (-> & Hn & Hacc & Hm1 & Hf & Hclean).
  { destruct (_ && _).
    - destruct (direct_write_ok buf (zlen bs) bs w) as (w2 & n2 & f2 & Hd & Hn2 & Hacc & Hf2 & Hf0); [done | lia | lia |].
      rewrite Hd in Ha. injection Ha as <- <- <- <-. destruct (direct_write_keeps _ _ _ _ _ _ _ Hd) as [Hm2 _].
      split_and!; try done; try lia. intros Hk. rewrite Hf2. destruct (kwrite (tick w) (zlen bs)) as [k|e] eqn:E; [done|].
      by rewrite (Hk _ _ _ E).
    - injection Ha as <- <- <- <-. rewrite to_ssize_id by lia. rewrite slice_0, app_nil_r. split_and!; try done; lia. }
  rewrite u64_small in Hx by lia. destruct (_ <=? _); [bstep Hx | done]. destruct f; cbn [negb andb] in Hx.
  { injection Hx as <-. exists false. rewrite Hacc, (Hf eq_refl), slice_0. split; [done|]. intros Hk. by specialize (Hclean Hk). }
  assert (slice 0 n bs ++ slice n (zlen bs - n) bs = bs) as Hsplit.
  { change n with (0 + n) at 2. rewrite <- slice_add by lia. rewrite Zplus_minus. apply slice_all. }
  exists true. split; [|done]. destruct (Z.ltb_spec 0 (zlen bs - n)).
  - unfold buffer_rest in Hx. rewrite (user_bytes_ok _ _ _ _ bs) in Hx by (rewrite ?Hm1; done || lia). bstep Hx.
    destruct (Buffer.append _ _) as [out|]; [bstep Hx | done]. destruct (channel_writing _) as [[]|]; [bstep Hx.. | done].
    + injection Hx as <-. cbn. by rewrite Hacc, <- (assoc_L (++)), Hsplit.
    + unfold on_channel in Hx. destruct (exec _ _ _ _) as [l|]; [bstep Hx | done]. injection Hx as <-. cbn.
      by rewrite Hacc, <- (assoc_L (++)), Hsplit.
  - injection Hx as <-. rewrite Hacc. replace n with (zlen bs) by lia. by rewrite slice_all.
Qed.

(** The return value of [write_fd] on the output buffer. *)
Definition flushed w : Z :=
  match kwrite (tick w) (Buffer.readable_bytes (output_buffer_ w)) with SysOk n => n | SysErr _ => -1 end.

(** How many bytes the kernel takes of the output buffer when it is written. *)
Definition taken w : nat :=
  match kwrite (tick w) (Buffer.readable_bytes (output_buffer_ w)) with SysOk n => Z.to_nat n | SysErr _ => 0%nat end.

Lemma shutdown_in_loop_result tid w w' : shutdown_in_loop tid w = Ok w' → w' = w ∨ w' = shutdown_write w.
Proof.
  unfold shutdown_in_loop. intros Hx. destruct (in_loop tid w); [bstep Hx | done].
  destruct (channel_writing w) as [[]|]; [bstep Hx.. | done]; injection Hx as <-; auto.
Qed.

(** Whatever branch it takes, the write handler moves what the kernel takes from the output buffer
    to the wire. *)
Lemma handle_write_moves tid w w' : handle_write tid w = Ok w' → cinv w → state_ w ≠ kDisconnected →
  wire w' = wire w ++ take (taken w) (Buffer.contents (output_buffer_ w)) ∧
  Buffer.contents (output_buffer_ w') = drop (taken w) (Buffer.contents (output_buffer_ w)) ∧
  accepted w' = accepted w ∧ received w' = received w ∧ state_ w' = state_ w ∧ closed w' = closed w.
Proof.
  intros Hx Hi Hst. pose proof Hi as [Hl [c Hc] Hwf _ Hwa]. unfold handle_write in Hx.
  destruct (in_loop tid w); [bstep Hx | done]. rewrite (channel_writing_ok _ _ Hc) in Hx. bstep Hx.
  pose proof (Hwa Hst c Hc) as Hw. destruct (is_writing c) eqn:Ew; cycle 1.
  { injection Hx as <-. destruct (Buffer.contents (output_buffer_ w)) eqn:E; [by rewrite take_nil, drop_nil, app_nil_r|].
    by destruct Hw as [_ Hw]; discriminate Hw. }
  rewrite Buffer.offered_ok in Hx by done. bstep Hx. destruct (flush_ok w Hwf) as (b & n & Hb & Hwfb & Hn & Hsplit & Hr).
  rewrite Hb in Hx. bstep Hx. assert (Z.to_nat n = taken w) as Ht.
  { rewrite Hr. unfold taken. by destruct (kwrite _ _). }
  rewrite Ht in *. assert (Buffer.contents b = drop (taken w) (Buffer.contents (output_buffer_ w))) as Hcb.
  { rewrite <- (take_drop (taken w) (Buffer.contents (output_buffer_ w))) in Hsplit at 1. by apply app_inv_head in Hsplit. }
  set (w1 := with_output b _) in Hx. destruct (0 <? n); [|by injection Hx as <-].
  destruct (Buffer.readable_bytes b =? 0); [|by injection Hx as <-].
  destruct (on_channel tid DisableWriting w1) as [w2|] eqn:H2; [bstep Hx | done].
  assert (∃ l, w2 = with_lp l w1) as [l ->].
  { unfold on_channel in H2. destruct (exec _ _ _ _) as [l|]; [bstep H2 | done]. injection H2 as <-. by exists l. }
  set (w3 := if bool_decide _ then _ else _) in Hx.
  assert (wire w3 = wire w1 ∧ output_buffer_ w3 = b ∧ accepted w3 = accepted w ∧ received w3 = received w ∧ state_ w3 = state_ w ∧
    closed w3 = closed w) as (H3 & Ho3 & ?) by (unfold w3; by destruct (bool_decide _)).
  case_decide; [|injection Hx as <-; by rewrite H3, Ho3].
  apply shutdown_in_loop_result in Hx as [->| ->]; cbn; by rewrite H3, Ho3.
Qed.

Lemma handle_write_partial tid c w :
  cinv w → attached tid w c → is_writing c = true → flushed w < Buffer.readable_bytes (output_buffer_ w) →
  ∃ w', handle_write tid w = Ok w' ∧ cinv w' ∧ lp w' = lp w ∧ channel_ w' = channel_ w ∧ state_ w' = state_ w ∧
    queue w' = queue w ∧ shut w' = shut w ∧ accepted w' = accepted w ∧
    wire w' = wire w ++ take (Z.to_nat (flushed w)) (Buffer.contents (output_buffer_ w)) ∧
    Buffer.contents (output_buffer_ w') = drop (Z.to_nat (flushed w)) (Buffer.contents (output_buffer_ w)).
Proof.
  intros Hi Ha Hwr Hn. pose proof Hi as [Hl _ Hwf _ _].
  destruct (flush_ok w Hwf) as (b & n & Hb & Hwfb & Hle & Hsplit & Hr). fold (flushed w) in Hr. subst n.
  pose proof (Buffer.buffer_len (output_buffer_ w) Hwf) as Hlen.
  set (out := Buffer.contents (output_buffer_ w)) in *.
  assert (Buffer.contents b = drop (Z.to_nat (flushed w)) out) as Hcb.
  { rewrite <- (take_drop (Z.to_nat (flushed w)) out) in Hsplit at 1. by apply app_inv_head in Hsplit. }
  set (w1 := with_output b (transmit (take (Z.to_nat (flushed w)) out) (tick_up w))).
  assert (handle_write tid w = Ok w1) as Hx.
  { unfold handle_write. rewrite (in_loop_ok _ _ _ Ha). cstep. rewrite (channel_writing_ok w c) by apply Ha. cstep.
    rewrite Hwr, Buffer.offered_ok by done. cstep. rewrite Hb. cstep. fold out. fold w1.
    destruct (0 <? flushed w) eqn:E0; [unbool | done]. rewrite readable_zero, Hcb by done. rewrite bool_decide_false; [done|].
    intros Hd. apply (f_equal zlen) in Hd. rewrite zlen_drop in Hd. change (zlen []) with 0 in Hd. pose proof (zlen_nonneg out). lia. }
  exists w1. split; [done|]. split; [by eapply handle_write_cinv|]. split_and!; done.
Qed.

(** The end of the write handler when all output is written. *)
Definition written w : conn K :=
  if bool_decide (is_Some (write_complete_callback_ cb)) then enqueue TaskWriteComplete w else w.

Lemma written_same w : let w' := written w in
  lp w' = lp w ∧ channel_ w' = channel_ w ∧ state_ w' = state_ w ∧ shut w' = shut w ∧ wire w' = wire w ∧
  output_buffer_ w' = output_buffer_ w ∧ accepted w' = accepted w ∧
  queue w' = queue w ++ (if write_complete_callback_ cb then [TaskWriteComplete] else []).
Proof. unfold written. destruct (write_complete_callback_ cb); cbn; rewrite ?app_nil_r; by split_and!. Qed.

Lemma handle_write_full tid c w :
  cinv w → attached tid w c → is_writing c = true → state_ w ≠ kDisconnected →
  flushed w = Buffer.readable_bytes (output_buffer_ w) →
  ∃ w', handle_write tid w = Ok w' ∧ cinv w' ∧ state_ w' = state_ w ∧ is_writing <$> chan w' = Some false ∧
    queue w' = queue w ++ (if write_complete_callback_ cb then [TaskWriteComplete] else []) ∧
    shut w' = (bool_decide (state_ w = kDisconnecting) || shut w) ∧
    wire w' = wire w ++ Buffer.contents (output_buffer_ w) ∧
    Buffer.contents (output_buffer_ w') = [] ∧ accepted w' = accepted w.
Proof.
  intros Hi Ha Hwr Hst Hn. pose proof Hi as [Hl _ Hwf _ Hwa].
  destruct (flush_ok w Hwf) as (b & n & Hb & Hwfb & Hle & Hsplit & Hr). fold (flushed w) in Hr. subst n.
  pose proof (Buffer.buffer_len (output_buffer_ w) Hwf) as Hlen. set (out := Buffer.contents (output_buffer_ w)) in *.
  assert (take (Z.to_nat (flushed w)) out = out) as Htake by (rewrite take_ge; [done | unfold zlen in Hlen; lia]).
  assert (Buffer.contents b = []) as Hcb.
  { rewrite Htake in Hsplit. rewrite <- (app_nil_r out) in Hsplit at 1. by apply app_inv_head in Hsplit. }
  assert (out ≠ []) as Hne by (by apply (Hwa Hst c (at_chan _ _ _ Ha))).
  assert (0 < flushed w) as Hpos.
  { pose proof (zlen_nonneg out). destruct (decide (zlen out = 0)) as [Hz|]; [by apply zlen_nil_inv in Hz | lia]. }
  set (w1 := with_output b (transmit out (tick_up w))).
  assert (attached tid w1 c) as Ha1 by (destruct Ha; by split).
  destruct (on_channel_ok tid DisableWriting w1 c (Z.land (events_ c) (Z.lnot kWriteEvent)))
    as (l' & Hdis & Hil & (Hid & Htid & _) & Hh & _); [done..|].
  set (c' := set_index _ _) in Hh. set (w2 := with_lp l' w1) in *.
  assert (chan w2 = Some c') as Hc2 by (unfold chan; cbn; by rewrite Hh, lookup_insert_eq).
  assert (is_writing c' = false) as Hw2.
  { rewrite is_writing_bit. exact (writing_after_ok DisableWriting (events_ c) _ eq_refl). }
  destruct (written_same w2) as (El & Ec & Hs3 & Hsh3 & Hwi3 & Ho3 & Ha3 & Hq3). set (w3 := written w2) in *.
  assert (chan w3 = Some c') as Hc3 by (unfold chan; by rewrite El, Ec).
  assert (in_loop tid w3 = true) as Hin3.
  { destruct Ha as [_ _ Ht _]. unfold in_loop, is_in_loop_thread. rewrite El. cbn. rewrite Htid. by apply Z.eqb_eq. }
  set (w4 := if decide (state_ w3 = kDisconnecting) then shutdown_write w3 else w3).
  assert (handle_write tid w = Ok w4) as Hx.
  { unfold handle_write. rewrite (in_loop_ok _ _ _ Ha). cstep. rewrite (channel_writing_ok w c) by apply Ha. cstep.
    rewrite Hwr, Buffer.offered_ok by done. cstep. rewrite Hb. cstep. fold out. rewrite Htake. fold w1.
    decide_test (0 <? flushed w). rewrite readable_zero, Hcb, bool_decide_true by done. rewrite Hdis. cstep. fold w2. fold (written w2). fold w3.
    unfold w4. case_decide; [|done]. unfold shutdown_in_loop. rewrite Hin3. cstep.
    rewrite (channel_writing_ok w3 c' Hc3), Hw2. done. }
  exists w4. split; [done|]. split; [by eapply handle_write_cinv|]. change (state_ w2) with (state_ w) in Hs3.
  unfold w4. rewrite Hs3. case_decide as Hd; [rewrite (bool_decide_true _ Hd) | rewrite (bool_decide_false _ Hd)]; cbn.
  all: unfold chan in *; cbn; by rewrite ?Hc3, ?Hq3, ?Hs3, ?Hwi3, ?Ho3, ?Ha3, ?Hsh3; cbn; rewrite ?Hw2; split_and!.
Qed.

(** ** Theorems *)

(** C7. Whatever happens to a connection, in any order, until the program stops or goes on:
    the bytes the kernel has taken followed by the output buffer are exactly the bytes
    accepted from the user, in their order, and as long as the connection is not closed the
    channel watches for writability exactly while output is waiting. *)
Theorem stream_integrity l p sockfd m tid es w w' :
  inv l → heap l !! p = None → ctor l p sockfd m = Ok w → handles tid es w = Ok w' →
  wire w' ++ Buffer.contents (output_buffer_ w') = accepted w' ∧
  (state_ w' ≠ kDisconnected → watched w') ∧ inv (lp w').
Proof.
  intros Hi Hp Hc Hh. assert (sockfd ≠ -1) as Hs by (intros ->; discriminate Hc).
  destruct (ctor_done l p sockfd m Hi Hp Hs) as (w0 & Hw0 & Hi0 & _). assert (w0 = w) as -> by congruence.
  destruct (handles_cinv tid es w w' Hi0 Hh). done.
Qed.

(** C18. [send_in_loop] on an established connection returns, keeps the invariant, and accepts
    all bytes of the buffer, whatever part of them the kernel takes at once, unless the
    connection had nothing to write and the kernel fails with an error other than
    [EWOULDBLOCK]: then all of them are dropped. *)
Theorem send_in_loop_accepts tid buf len bs c w :
  cinv w → attached tid w c → state_ w ≠ kDisconnected → mem w !! buf = Some bs → 0 <= len <= zlen bs →
  Buffer.writer_index_ (output_buffer_ w) + len <= kMaxObject →
  ∃ w', send_in_loop tid buf len w = Ok w' ∧ cinv w' ∧ state_ w' = state_ w ∧
        accepted w' = accepted w ++ (if refused len w then [] else take (Z.to_nat len) bs).
Proof.
  intros Hi Ha Hs Hm Hl Hmax. destruct (send_in_loop_ok tid buf len bs c w) as (w' & Hx & ?); [done..|].
  exists w'. destruct (send_in_loop_cinv _ _ _ _ _ Hi Hx). done.
Qed.

(** The write handler on a connection with waiting output takes the bytes that the kernel
    took off the front of the output buffer.  If some are left, or the write failed, nothing
    else changes; if none is left, the channel stops watching for writability, the
    write-complete callback is queued if there is one, and a connection that is being shut
    down has its write side closed. *)
Theorem handle_write_flushes tid c w :
  cinv w → attached tid w c → is_writing c = true → state_ w ≠ kDisconnected →
  let out := Buffer.contents (output_buffer_ w) in
  ∃ w', handle_write tid w = Ok w' ∧ cinv w' ∧
    wire w' = wire w ++ take (Z.to_nat (flushed w)) out ∧
    Buffer.contents (output_buffer_ w') = drop (Z.to_nat (flushed w)) out ∧
    if flushed w <? zlen out
    then lp w' = lp w ∧ queue w' = queue w ∧ shut w' = shut w
    else is_writing <$> chan w' = Some false ∧
         queue w' = queue w ++ (if write_complete_callback_ cb then [TaskWriteComplete] else []) ∧
         shut w' = (bool_decide (state_ w = kDisconnecting) || shut w).
Proof.
  intros Hi Ha Hwr Hst. cbv zeta. pose proof Hi as [_ _ Hwf _ _]. pose proof (Buffer.buffer_len _ Hwf) as Hlen.
  rewrite Hlen. destruct (flush_ok w Hwf) as (b & n & _ & _ & Hle & _ & Hr). fold (flushed w) in Hr. subst n.
  destruct (Z.ltb_spec (flushed w) (Buffer.readable_bytes (output_buffer_ w))) as [Hlt|Hge].
  - destruct (handle_write_partial tid c w) as (w' & ? & ? & ? & _ & _ & ? & ? & _ & ? & ?); [done..|].
    exists w'. split_and!; done.
  - destruct (handle_write_full tid c w) as (w' & ? & ? & _ & ? & ? & ? & Hw & Ho & _); [done..| lia |].
    exists w'. rewrite Hw, Ho, take_ge, drop_ge by (unfold zlen in Hlen; lia). split_and!; done.
Qed.


(** ** The life of a connection *)

(** The connection callback calls nothing on the connection. *)
Definition quiet : Prop := ∀ f b, connection_callback_ cb = Some f → f b = [].

Lemma call_quiet tid w : quiet → call_connection_callback tid w = Ok w.
Proof.
  intros Hq. unfold call_connection_callback. destruct (connection_callback_ cb) as [f|] eqn:E; [|done].
  by rewrite (Hq f _ E).
Qed.

(** What a connection keeps while its channel changes. *)
Definition same_data w w' : Prop :=
  channel_ w' = channel_ w ∧ output_buffer_ w' = output_buffer_ w ∧ input_buffer_ w' = input_buffer_ w ∧
  queue w' = queue w ∧ mem w' = mem w ∧ wire w' = wire w ∧ tick w' = tick w ∧ shut w' = shut w ∧ closed w' = closed w ∧ accepted w' = accepted w.

Lemma established_ok tid w c :
  quiet → cinv w → chan w = Some c → loop_ c = id (lp w) → tid = tid_ (lp w) → index_ c = kNew → events_ c = 0 →
  channels_ (lp w) !! fd_ c = None → state_ w = kConnecting →
  ∃ w' c', connect_established tid w = Ok w' ∧ cinv w' ∧ attached tid w' c' ∧ state_ w' = kConnected ∧
    same_data w w' ∧ fd_ c' = fd_ c ∧ events_ c' = kReadEvent ∧ event_handling_ c' = event_handling_ c ∧
    heap (lp w') = <[channel_ w := c']> (heap (lp w)) ∧ event_handing_ (lp w') = event_handing_ (lp w).
Proof.
  intros Hq Hi Hc Hl Ht Hx He Hfree Hst. pose proof Hi as [Hil _ _ _ _]. set (w1 := set_state kConnected w).
  set (c1 := set_tied c). set (l1 := with_heap (lp w) (<[channel_ w := c1]> (heap (lp w)))).
  assert (on_channel tid Tie w1 = Ok (with_lp l1 w1)) as Htie.
  { unfold on_channel, exec, tie. cbn [lp set_state w1 channel_]. rewrite (deref_ok _ _ c Hc). cstep.
    by rewrite (modify_eq _ _ _ c Hc). }
  assert (inv l1) as Hi1 by (by eapply inv_touch).
  destruct (change_events_exec tid EnableReading (channel_ w) c1 kReadEvent l1) as (l2 & Hx2 & Hi2 & Hf2 & Hh2 & _ & _);
    [done | apply lookup_insert_eq | done | done | done | cbn; by rewrite He |].
  destruct Hf2 as (Hid & Htid & _ & Hev & _).
  set (c2 := set_index _ _) in Hh2. set (w2 := with_lp l2 w1).
  assert (connect_established tid w = Ok w2) as Hest.
  { unfold connect_established, in_loop, is_in_loop_thread. rewrite Ht, Z.eqb_refl. cstep.
    rewrite bool_decide_true by done. cstep. fold w1. rewrite <- Ht, Htie. cstep. unfold on_channel. cbn [lp with_lp channel_ w1 set_state].
    rewrite Hx2. cstep. rewrite call_quiet by done. done. }
  exists w2, c2. split; [done|]. split; [by eapply connect_established_cinv|].
  split; [split|].
  - unfold chan. cbn. by rewrite Hh2, lookup_insert_eq.
  - cbn. rewrite Hid. done.
  - cbn. rewrite Htid. done.
  - unfold c2, next_index. cbn. by rewrite Hx.
  - split_and!; try done. unfold l1 in Hh2. cbn in Hh2 |- *. by rewrite Hh2, insert_insert_eq.
Qed.

Lemma handle_close_ok tid w c :
  quiet → cinv w → attached tid w c → state_ w = kConnected ∨ state_ w = kDisconnecting →
  ∃ w' c', handle_close tid w = Ok w' ∧ cinv w' ∧ chan w' = Some c' ∧ state_ w' = kDisconnected ∧
    channel_ w' = channel_ w ∧ closed w' = (close_callback_ cb || closed w) ∧
    loop_ c' = id (lp w') ∧ tid = tid_ (lp w') ∧ index_ c' = kDeleted ∧ events_ c' = kNoneEvent ∧ fd_ c' = fd_ c ∧
    event_handling_ c' = event_handling_ c ∧
    heap (lp w') = <[channel_ w := c']> (heap (lp w)) ∧ event_handing_ (lp w') = event_handing_ (lp w).
Proof.
  intros Hq Hi Ha Hst. pose proof Hi as [Hil _ _ _ _]. set (w1 := set_state kDisconnected w).
  assert (attached tid w1 c) as Ha1 by (destruct Ha; by split).
  destruct (on_channel_ok tid DisableAll w1 c kNoneEvent) as (l2 & Hx & Hi2 & Hf2 & Hh2 & _); [done..|].
  destruct Hf2 as (Hid & Htid & _ & Hev & _). set (c2 := set_index _ _) in Hh2.
  set (w3 := if close_callback_ cb then call_close_callback (with_lp l2 w1) else with_lp l2 w1).
  assert (handle_close tid w = Ok w3) as Hhc.
  { unfold handle_close. rewrite (in_loop_ok _ _ _ Ha). cstep.
    replace (_ || _) with true; cycle 1.
    { symmetry. apply orb_true_iff. destruct Hst as [Hs|Hs]; [left | right]; apply bool_decide_eq_true; by rewrite Hs. }
    cstep. fold w1. rewrite Hx. cstep. rewrite call_quiet by done. done. }
  destruct Ha as [Hc Hl Ht Hix]. exists w3, c2. split; [done|]. split; [by eapply handle_close_cinv|].
  unfold w3. destruct (close_callback_ cb); unfold chan; cbn; rewrite ?Hid, ?Htid, Hh2; cbn; rewrite lookup_insert_eq;
    split_and!; try done; unfold next_index; cbn; by rewrite Hix.
Qed.

Lemma destroyed_ok tid w c :
  cinv w → chan w = Some c → loop_ c = id (lp w) → tid = tid_ (lp w) → index_ c ≠ kNew → events_ c = kNoneEvent →
  event_handing_ (lp w) = false → state_ w = kDisconnected →
  ∃ l', connect_destoryed tid w = Ok (with_lp l' w) ∧ inv l' ∧ id l' = id (lp w) ∧ tid_ l' = tid_ (lp w) ∧
        heap l' = <[channel_ w := set_index kNew (set_added false c)]> (heap (lp w)) ∧
        registered (kernel l') (fd_ c) = None ∧ channels_ l' = delete (fd_ c) (channels_ (lp w)).
Proof.
  intros [Hil _ _ _ _] Hc Hl -> Hx He Hev Hst.
  destruct (remove_ok (tid_ (lp w)) (channel_ w) c (lp w)) as (l' & Hr & Hi' & (Hid & Htid & _) & Hh & Hch & Hreg);
    [done..| by rewrite Hev |].
  exists l'. unfold connect_destoryed, in_loop, is_in_loop_thread. rewrite Z.eqb_refl. cstep.
  rewrite decide_False by congruence. cstep. unfold on_channel. cbn [exec]. rewrite Hr. split_and!; done.
Qed.

(** The whole life of a connection: constructed on a loop for a descriptor no channel
    uses, established, closed by the peer, removed by its server and destroyed, it passes
    every assertion of the connection, its channel, the loop and the epoller, tells the
    server through the close callback, and leaves the loop without any trace of it. *)
Theorem connection_lifecycle l p sockfd m tid :
  quiet → inv l → heap l !! p = None → sockfd ≠ -1 → channels_ l !! sockfd = None →
  event_handing_ l = false → tid = tid_ l →
  ∃ w w1 w2, ctor l p sockfd m = Ok w ∧ handles tid [Established; HangUp; Destroyed] w = Ok w1 ∧
    closed w1 = close_callback_ cb ∧ dtor tid w1 = Ok w2 ∧
    inv (lp w2) ∧ heap (lp w2) = heap l ∧ registered (kernel (lp w2)) sockfd = None.
Proof.
  intros Hq Hil Hp Hs Hfree Hev Ht.
  destruct (ctor_done l p sockfd m Hil Hp Hs) as (w & Hw & Hi & Hst & Hm & Hp' & Hid & Htid & Hch & Hev' & Hc & _ & _ & _ & _ & Hcl & Hh).
  destruct (established_ok tid w _ Hq Hi Hc) as (w1 & c1 & H1 & Hi1 & Ha1 & Hst1 & (Hch1 & _ & _ & _ & _ & _ & _ & _ & Hcl1 & _) & Hf1 & He1 & Heh1 & Hh1 & Hev1);
    [cbn; congruence | congruence | done | done | cbn; congruence | done |].
  destruct (handle_close_ok tid w1 c1 Hq Hi1 Ha1) as (w2 & c2 & H2 & Hi2 & Hc2 & Hst2 & Hch2 & Hcl2 & Hl2 & Ht2 & Hx2 & He2 & Hf2 & Heh2 & Hh2 & Hev2);
    [by left|].
  destruct (destroyed_ok tid w2 c2 Hi2 Hc2 Hl2 Ht2) as (l3 & H3 & Hi3 & Hid3 & Htid3 & Hh3 & Hr3 & _);
    [by rewrite Hx2 | done | congruence | done |].
  cbn in Heh1, Hf1. exists w, (with_lp l3 w2).
  assert (chan (with_lp l3 w2) = Some (set_index kNew (set_added false c2))) as Hc3
    by (unfold chan; cbn; by rewrite Hh3, lookup_insert_eq).
  pose proof (dtor_ok tid (channel_ w2) _ l3 Hi3 Hc3) as Hd.
  assert (dtor tid (with_lp l3 w2) = Ok (with_lp (with_heap l3 (delete (channel_ w2) (heap l3))) w2)) as Hdt.
  { unfold dtor. cbn [state_ with_lp]. rewrite Hst2, bool_decide_true by done. cstep. unfold on_channel.
    cbn [lp with_lp channel_ exec]. rewrite Hd; [done | cbn; congruence | congruence | cbn; congruence | done]. }
  exists (with_lp (with_heap l3 (delete (channel_ w2) (heap l3))) w2).
  split; [done|]. split.
  { cbn [handles handle]. rewrite H1. cstep. rewrite H2. cstep. by rewrite H3. }
  split; [cbn; by rewrite Hcl2, Hcl1, Hcl, orb_false_r|]. split; [done|]. split.
  { eapply (dtor_inv tid (channel_ w2) l3); [done|]. apply Hd; [cbn; congruence | congruence | cbn; congruence | done]. }
  split; [|cbn; by rewrite <- Hr3, Hf2, Hf1].
  cbn. rewrite Hh3, Hh2, Hh1, Hh, Hch2, Hch1, Hp', !insert_insert_eq. by apply delete_insert_id.
Qed.

(** Destroying a connection that its user has shut down but whose peer has not closed yet,
    as the destructor of the server does with every connection it still has, fails the
    assertion of [Channel::remove]: only a connection in the state [kConnected] gets its
    channel's events disabled. *)
Theorem destroy_after_shutdown_aborts l p sockfd m tid :
  quiet → inv l → heap l !! p = None → sockfd ≠ -1 → channels_ l !! sockfd = None →
  event_handing_ l = false → tid = tid_ l →
  ∃ w, ctor l p sockfd m = Ok w ∧
       handles tid [Established; OtherShutdown tid; Destroyed] w = Fault AssertFailed.
Proof.
  intros Hq Hil Hp Hs Hfree Hev Ht.
  destruct (ctor_done l p sockfd m Hil Hp Hs) as (w & Hw & Hi & Hst & Hm & Hp' & Hid & Htid & Hch & Hev' & Hc & _).
  destruct (established_ok tid w _ Hq Hi Hc) as (w1 & c1 & H1 & Hi1 & Ha1 & Hst1 & _ & _ & He1 & _);
    [cbn; congruence | congruence | done | done | cbn; congruence | done |].
  exists w. split; [done|]. cbn [handles handle]. rewrite H1. cstep.
  set (w2 := set_state kDisconnecting w1). assert (attached tid w2 c1) as Ha2 by (destruct Ha1; by split).
  unfold shutdown. rewrite decide_True by done. fold w2. rewrite (in_loop_ok _ _ _ Ha2).
  unfold shutdown_in_loop. rewrite (in_loop_ok _ _ _ Ha2). cstep. rewrite (channel_writing_ok w2 c1) by apply Ha2. cstep.
  replace (is_writing c1) with false by (unfold is_writing; by rewrite He1). cstep.
  assert (in_loop tid (shutdown_write w2) = true) as Hin by exact (in_loop_ok _ _ _ Ha2).
  unfold connect_destoryed. rewrite Hin. cstep. rewrite decide_False by done. cstep.
  unfold on_channel. cbn [exec]. unfold channel_remove. rewrite (deref_ok _ _ c1) by apply Ha1. cstep.
  unfold is_none_event. by rewrite He1.
Qed.

(** A [send] from another thread does not copy the data: what is sent are the bytes that
    the caller's buffer holds when the loop gets to run the functor, and if the buffer has
    been freed by then, the loop reads freed memory. *)
Theorem deferred_send_reads_late tid tid' buf len bs bs' c w :
  cinv w → attached tid w c → state_ w = kConnected → queue w = [] → tid' ≠ tid →
  mem w !! buf = Some bs → 0 < len <= zlen bs → len <= zlen bs' →
  Buffer.writer_index_ (output_buffer_ w) + len <= kMaxObject →
  (∃ w', handles tid [OtherSend tid' buf len; StoreMem buf bs'; RunTask] w = Ok w' ∧
         accepted w' = accepted w ++ (if refused len w then [] else take (Z.to_nat len) bs')) ∧
  handles tid [OtherSend tid' buf len; FreeMem buf; RunTask] w = Fault OutOfBounds.
Proof.
  intros Hi Ha Hst Hq Hne Hm Hlen Hlen' Hmax.
  assert (send tid' buf len w = Ok (enqueue (TaskSend buf len) w)) as Hsend.
  { unfold send. rewrite decide_True by done. unfold in_loop, is_in_loop_thread.
    rewrite <- (at_tid _ _ _ Ha). by decide_test (tid' =? tid). }
  set (w1 := enqueue (TaskSend buf len) w) in *. assert (queue w1 = [TaskSend buf len]) as Hq1 by (cbn; by rewrite Hq).
  cbn [handles handle]. rewrite Hsend. cstep. cbn [queue with_mem]. rewrite Hq1. cbn [run_task mem w1 enqueue]. split.
  - set (w2 := with_queue [] _). assert (cinv w2) as Hi2 by (by eapply (cinv_frame w)).
    assert (attached tid w2 c) as Ha2 by (destruct Ha; by split).
    destruct (send_in_loop_ok tid buf len bs' c w2) as (w' & Hx & Hacc); [done | done | cbn; congruence | apply lookup_insert_eq | lia | done |].
    exists w'. rewrite Hx. done.
  - set (w2 := with_queue [] _). assert (attached tid w2 c) as Ha2 by (destruct Ha; by split).
    unfold send_in_loop. rewrite (in_loop_ok _ _ _ Ha2). cstep. rewrite decide_False by (cbn; congruence).
    rewrite (channel_writing_ok w2 c) by apply Ha2. cstep.
    assert (∀ off n, 0 < n → user_bytes buf off n w2 = Fault OutOfBounds) as Hub.
    { intros off n Hn. unfold user_bytes. decide_test (n =? 0). cbn [mem w2 with_queue with_mem]. by rewrite lookup_delete_eq. }
    destruct (negb (is_writing c) && _).
    + unfold direct_write. by rewrite Hub by lia.
    + pose proof (ci_out _ Hi) as (? & _). unfold Buffer.kCheapPrepend, kMaxObject in *.
      cstep. rewrite to_ssize_id, u64_small by lia. decide_test (len <=? len). cstep.
      decide_test (0 <? len). cbn [andb]. unfold buffer_rest. by rewrite Hub by lia.
Qed.
End Connection.

(** ** Witnesses *)

(** A kernel that takes two bytes at a time, and callbacks without calls. *)
Definition demo_write (t : nat) (len : Z) : sysret := if 0 <=? len then SysOk (Z.min len 2) else SysErr 22.

Definition demo_readv (t : nat) (len : Z) : Buffer.readv_result := Buffer.ReadvErr EWOULDBLOCK.

Definition demo_cb : callbacks := mkCallbacks None None (Some []) true.

Definition demo_mem : gmap nat (list byte) := {[ 1%nat := [x41; x42; x43; x44; x45] ]}.

Lemma demo_write_ok : ∀ t len n, demo_write t len = SysOk n → 0 <= n <= len.
Proof. intros t len n. unfold demo_write. destruct (Z.leb_spec 0 len); [|done]. intros [= <-]. lia. Qed.

(** The connection of descriptor 9 at address 2 of the loop of thread 7, after some events. *)
Definition demo_conn (es : list event) : option (conn (gmap Z epoll_event)) :=
  match ctor demo_loop 2 9 demo_mem with
  | Ok w => match handles demo_write demo_readv demo_cb 7 es w with Ok w' => Some w' | Fault _ => None end
  | Fault _ => None
  end.

Lemma demo_cinv es w : demo_conn es = Some w → cinv w.
Proof.
  unfold demo_conn. intros Hw.
  destruct (ctor_done demo_loop 2 9 demo_mem demo_inv) as (w0 & H0 & Hi & _); [vm_compute; reflexivity | done |].
  rewrite H0 in Hw. destruct (handles _ _ _ 7 es w0) as [w1|] eqn:Hh; [|done]. injection Hw as <-.
  exact (handles_cinv _ _ _ demo_write_ok _ _ _ _ Hi Hh).
Qed.

Definition chan_of {K} (w : conn K) : channel :=
  match chan w with Some c => c | None => mkChannel 0 0 0 0 0 false false false false false false false end.

Definition conn_of (es : list event) : conn (gmap Z epoll_event) :=
  match demo_conn es with
  | Some w => w
  | None => mkConn demo_loop 2 kConnecting (Buffer.mk [] 0 0) (Buffer.mk [] 0 0) [] ∅ [] false false 0 [] []
  end.

(** Established; and with three of five bytes still waiting after a send. *)
Definition up : list event := [Established].
Definition busy : list event := [Established; OtherSend 7 1 5].

Lemma conn_of_cinv es : is_Some (demo_conn es) → cinv (conn_of es).
Proof. intros [w Hw]. unfold conn_of. rewrite Hw. by apply (demo_cinv es). Qed.

Lemma stream_integrity_witness :
  ∃ w', handles demo_write demo_readv demo_cb 7 busy (conn_of []) = Ok w' ∧
        wire w' ++ Buffer.contents (output_buffer_ w') = accepted w' ∧ accepted w' = [x41; x42; x43; x44; x45].
Proof.
  assert (handles demo_write demo_readv demo_cb 7 busy (conn_of []) = Ok (conn_of busy)) as Hh by (vm_compute; reflexivity).
  destruct (stream_integrity demo_write demo_readv demo_cb demo_write_ok demo_loop 2 9 demo_mem 7 busy (conn_of []) (conn_of busy))
    as (Hs & _ & _); [exact demo_inv | vm_compute; reflexivity | vm_compute; reflexivity | exact Hh |].
  exists (conn_of busy). split; [exact Hh|]. split; [exact Hs | vm_compute; reflexivity].
Defined.

Lemma send_in_loop_accepts_witness :
  ∃ w', send_in_loop demo_write demo_cb 7 1 5 (conn_of up) = Ok w' ∧ accepted w' = [x41; x42; x43; x44; x45].
Proof.
  destruct (send_in_loop_accepts demo_write demo_cb demo_write_ok 7 1 5 [x41; x42; x43; x44; x45]
              (chan_of (conn_of up)) (conn_of up)) as (w' & Hx & _ & _ & Ha).
  - apply conn_of_cinv. vm_compute. eexists. reflexivity.
  - split; vm_compute; reflexivity.
  - vm_compute. discriminate.
  - vm_compute. reflexivity.
  - vm_compute. split; discriminate.
  - vm_compute. discriminate.
  - exists w'. split; [exact Hx|]. rewrite Ha. vm_compute. reflexivity.
Defined.

Lemma handle_write_flushes_witness :
  ∃ w', handle_write demo_write demo_cb 7 (conn_of busy) = Ok w' ∧ wire w' = [x41; x42; x43; x44].
Proof.
  destruct (handle_write_flushes demo_write demo_cb demo_write_ok 7 (chan_of (conn_of busy)) (conn_of busy))
    as (w' & Hx & _ & Hw & _).
  - apply conn_of_cinv. vm_compute. eexists. reflexivity.
  - split; vm_compute; reflexivity.
  - vm_compute. reflexivity.
  - vm_compute. discriminate.
  - exists w'. split; [exact Hx|]. rewrite Hw. vm_compute. reflexivity.
Defined.


Lemma connection_lifecycle_witness :
  ∃ w w1 w2, ctor demo_loop 2 9 demo_mem = Ok w ∧
    handles demo_write demo_readv demo_cb 7 [Established; HangUp; Destroyed] w = Ok w1 ∧ closed w1 = true ∧
    dtor 7 w1 = Ok w2 ∧ heap (lp w2) = heap demo_loop.
Proof.
  destruct (connection_lifecycle demo_write demo_readv demo_cb demo_write_ok demo_loop 2 9 demo_mem 7)
    as (w & w1 & w2 & Hw & H1 & Hc & H2 & _ & Hh & _);
    [done | exact demo_inv | vm_compute; reflexivity | done | vm_compute; reflexivity.. |].
  exists w, w1, w2. split; [exact Hw|]. split; [exact H1|]. split; [exact Hc|]. split; [exact H2 | exact Hh].
Defined.

Lemma destroy_after_shutdown_aborts_witness :
  ∃ w, ctor demo_loop 2 9 demo_mem = Ok w ∧
    handles demo_write demo_readv demo_cb 7 [Established; OtherShutdown 7; Destroyed] w = Fault AssertFailed.
Proof.
  apply (destroy_after_shutdown_aborts demo_write demo_readv demo_cb demo_write_ok demo_loop 2 9 demo_mem 7);
    [done | exact demo_inv | vm_compute; reflexivity | done | vm_compute; reflexivity..].
Defined.

Lemma deferred_send_reads_late_witness :
  handles demo_write demo_readv demo_cb 7 [OtherSend 8 1 5; FreeMem 1; RunTask] (conn_of up) = Fault OutOfBounds.
Proof.
  apply (deferred_send_reads_late demo_write demo_readv demo_cb demo_write_ok 7 8 1 5 [x41; x42; x43; x44; x45]
           (replicate 5 x00) (chan_of (conn_of up)) (conn_of up)).
  - apply conn_of_cinv. vm_compute. eexists. reflexivity.
  - split; vm_compute; reflexivity.
  - vm_compute. reflexivity.
  - vm_compute. reflexivity.
  - discriminate.
  - vm_compute. reflexivity.
  - vm_compute. split; [reflexivity | discriminate].
  - vm_compute. discriminate.
  - vm_compute. discriminate.
Defined.
End TcpConnection.
