(* ===== verification/ConnSafe.v ===== *)
(** * What every call on a connection keeps (src/net/tcp_connection.cc)

    The condition of a connection on its loop between two calls, and for each handler of the file
    Connection the proof that it runs through in that condition and keeps it: whatever the kernel
    answers, whatever the user's callbacks send or shut down, no assertion fails and nothing
    outside an object is touched.  The other channels of the loop are a parameter, so every lemma
    also says that a connection leaves them alone. *)

From S2P Require Import Prelude NetBuffer Reactor Connection.

Module ConnSafe.
Import TcpConnection.

(** A connection is served, closed by the loop, or taken off the loop by its server. *)
Inductive phase := Live | Closed | Removed.

#[global] Instance phase_eq_dec : EqDecision phase.
Proof. solve_decision. Defined.

(** Functors that the loop's own thread queues. *)
Definition own_task (t : task) : Prop := match t with TaskWriteComplete => True | _ => False end.

(** How the state of an established connection changes. *)
Definition grows (s s' : State) : Prop := s' = s ∨ (s = kConnected ∧ s' = kDisconnecting) ∨ s' = kDisconnected.

Lemma grows_refl s : grows s s.
Proof. by left. Qed.

Lemma grows_trans s1 s2 s3 : grows s1 s2 → grows s2 s3 → grows s1 s3.
Proof. unfold grows. naive_solver. Qed.

Lemma epollin_bit e : Z.testbit e 0 = true → has EPOLLIN e = true.
Proof.
  intros Hb. unfold has, EPOLLIN. rewrite Z.bit0_odd in Hb. change 1 with (Z.ones 1). rewrite Z.land_ones by lia.
  change (2 ^ 1) with 2. by rewrite Zmod_odd, Hb.
Qed.

Section Safe.
Context {K : Type} `{EpollKernel K}.
Context (kwrite : nat → Z → sysret) (kreadv : nat → Z → Buffer.readv_result) (cb : callbacks).
Implicit Types (w : conn K) (tid : Z) (l : loop K).

(** ** The connection between two calls *)

Hypothesis kwrite_ok : ∀ t len n, kwrite t len = SysOk n → 0 <= n <= len.

(** A read delivers no more than asked for, and less than the scratch array of [read_fd] holds. *)
Hypothesis kreadv_ok : ∀ t room data, 0 <= room → kreadv t room = Buffer.ReadvData data →
  zlen data <= room ∧ zlen data < Buffer.kExtraBuf.

(** The user's memory, the loop's thread, the address and descriptor of the channel, the address of
    the loop, the other channels of the heap, and a state the connection has been in. *)
Context (m : gmap nat (list byte)) (tid : Z) (p : nat) (fd : Z) (i : nat) (rest : gmap nat channel) (s0 : State).

(** Calls user code may make on the connection, and how many input bytes they retrieve. *)
Definition action_ok (a : action) : Prop :=
  match a with
  | Send buf len => ∃ bs, m !! buf = Some bs ∧ 0 <= len <= zlen bs ∧ len <= kMaxObject
  | Shutdown => True
  | Consume len => 0 <= len
  | SendLocal data => zlen data <= kMaxObject
  end.

Definition consumed (a : action) : Z := match a with Consume len => len | _ => 0 end.

Fixpoint total (acts : list action) : Z := match acts with [] => 0 | a :: acts => consumed a + total acts end.

(** Callbacks that send from live memory and shut down as they like, where the message callback
    retrieves all there is. *)
Record callbacks_ok : Prop := {
  cb_connection : ∀ f b, connection_callback_ cb = Some f → Forall action_ok (f b) ∧ total (f b) = 0;
  cb_message : ∃ f, message_callback_ cb = Some f ∧ ∀ bs, zlen bs < Buffer.kExtraBuf →
    Forall action_ok (f bs) ∧ total (f bs) = zlen bs;
  cb_write : ∀ acts, write_complete_callback_ cb = Some acts → Forall action_ok acts ∧ total acts = 0
}.

(** An input buffer with [n] unread bytes, fit for the next read once they are retrieved. *)
Definition input_ok (n : Z) (b : Buffer.t) : Prop :=
  Buffer.wf b ∧ zlen (Buffer.contents b) = n ∧ (n = 0 → Buffer.writer_index_ b = Buffer.kCheapPrepend) ∧
  Buffer.kCheapPrepend < zlen (Buffer.buffer_ b).

Definition up w : Prop := state_ w = kConnected ∨ state_ w = kDisconnecting.

(** The channel: its flag [event_handling_] is [h], its events are [ev]; it is registered at
    least for input as long as the connection is not closed. *)
Definition channel_ok (ev : Z) (h : bool) (ph : phase) w (c : channel) : Prop :=
  loop_ c = i ∧ fd_ c = fd ∧ dispatch_fields c = (ev, (true, true, true, true)) ∧ event_handling_ c = h ∧
  match ph with
  | Live => up w ∧ index_ c = kAdded ∧ Z.testbit (events_ c) 0 = true
  | Closed => state_ w = kDisconnected ∧ index_ c = kDeleted ∧ events_ c = kNoneEvent
  | Removed => state_ w = kDisconnected ∧ index_ c = kNew ∧ events_ c = kNoneEvent
  end.

Lemma channel_down ev h ph w c : channel_ok ev h ph w c → ph ≠ Live → state_ w = kDisconnected ∧ events_ c = kNoneEvent.
Proof. intros (_ & _ & _ & _ & Hs) Hn. destruct ph; [done | by destruct Hs as (? & ? & ?)..]. Qed.

(** The connection with [n] unread input bytes; [told] says whether its close callback was called,
    and [h] are the flag [event_handling_] of its channel and [event_handing_] of its loop. *)
Record held (ev n : Z) (ph : phase) (told : bool) (h : bool * bool) w : Prop := {
  h_inv : inv (lp w);
  h_id : id (lp w) = i;
  h_rest : delete p (heap (lp w)) = rest;
  h_chan : ∃ c, chan w = Some c ∧ channel_ok ev h.1 ph w c;
  h_flag : event_handing_ (lp w) = h.2;
  h_tid : tid_ (lp w) = tid;
  h_addr : channel_ w = p;
  h_in : input_ok n (input_buffer_ w);
  h_out : Buffer.wf (output_buffer_ w);
  h_mem : m ⊆ mem w;
  h_queue : Forall own_task (queue w);
  h_told : closed w = told;
  h_state : grows s0 (state_ w)
}.

Lemma held_frame ev n n' ph told told' h w w' :
  held ev n ph told h w → lp w' = lp w → channel_ w' = channel_ w →
  state_ w' = state_ w ∨ (state_ w = kConnected ∧ state_ w' = kDisconnecting) →
  input_ok n' (input_buffer_ w') → Buffer.wf (output_buffer_ w') → m ⊆ mem w' → Forall own_task (queue w') →
  closed w' = told' → held ev n' ph told' h w'.
Proof.
  intros [Hi Hid Hrest (c & Hc & Hl & Hf & Hd & Hh & Hs) Hg Ht Ha _ _ _ _ _ Hgr] El Ec Es Hin Hout Hm Hq Hcl.
  split; rewrite ?El, ?Ec; try done; cycle 1.
  { eapply grows_trans; [exact Hgr|]. unfold grows. tauto. }
  exists c. split; [unfold chan; by rewrite El, Ec|].
  unfold channel_ok. split_and!; try done. destruct ph; unfold up in *.
  - destruct Es as [->|[_ ->]]; [done|]. split; [by right | apply Hs].
  - destruct Es as [->|[Hx _]]; [done|]. destruct Hs; congruence.
  - destruct Es as [->|[Hx _]]; [done|]. destruct Hs; congruence.
Qed.

Ltac frame H := eapply held_frame; [exact H | try done; try apply H ..].

Lemma held_up ev n told h w : held ev n Live told h w → up w.
Proof. intros Hh. by destruct (h_chan _ _ _ _ _ _ Hh) as (c & _ & _ & _ & _ & _ & Hu & _). Qed.

Lemma held_in_loop ev n ph told h w : held ev n ph told h w → in_loop tid w = true.
Proof. intros Hh. unfold in_loop, is_in_loop_thread. rewrite (h_tid _ _ _ _ _ _ Hh). apply Z.eqb_refl. Qed.

Lemma held_writing ev n ph told h w : held ev n ph told h w →
  ∃ c, chan w = Some c ∧ channel_ok ev h.1 ph w c ∧ channel_writing w = Ok (is_writing c).
Proof. intros Hh. destruct (h_chan _ _ _ _ _ _ Hh) as (c & Hc & Hok). exists c. split; [done|]. split; [done|]. by apply channel_writing_ok. Qed.

(** An operation of the channel, with a change of the state. *)
Lemma held_channel ev n ph ph' told h s l' c' w :
  held ev n ph told h w → inv l' → same_frame (lp w) l' → heap l' = <[channel_ w := c']> (heap (lp w)) →
  channel_ok ev h.1 ph' (set_state s w) c' → grows (state_ w) s → held ev n ph' told h (with_lp l' (set_state s w)).
Proof.
  intros [_ Hid Hrest _ Hg Ht Ha Hin Hout Hm Hq Hcl Hgr] Hi (Hid' & Htid' & _ & Hev' & _) Hh Hok Hs. rewrite Ha in Hh.
  split; cbn; try done; try congruence.
  - by rewrite Hh, delete_insert_eq.
  - exists c'. unfold chan. cbn. by rewrite Ha, Hh, lookup_insert_eq.
  - by eapply grows_trans.
Qed.

Lemma set_state_id w : set_state (state_ w) w = w.
Proof. by destruct w. Qed.

(** Watching for writability or not. *)
Lemma on_channel_held o ev n told h w :
  held ev n Live told h w → o = EnableWriting ∨ o = DisableWriting →
  ∃ l', on_channel tid o w = Ok (with_lp l' w) ∧ held ev n Live told h (with_lp l' w).
Proof.
  intros Hh Ho. destruct (h_chan _ _ _ _ _ _ Hh) as (c & Hc & Hl & Hf & Hd & Hhd & Hu & Hx & Hb).
  assert (∃ e, new_events o (events_ c) = Some e ∧ Z.testbit e 0 = true) as (e & He & Hb').
  { destruct Ho as [-> | ->]; eexists; (split; [reflexivity|]).
    - by rewrite Z.lor_spec, Hb.
    - by rewrite Z.land_spec, Hb. }
  pose proof (h_id _ _ _ _ _ _ Hh) as Hid. pose proof (h_tid _ _ _ _ _ _ Hh) as Htid.
  destruct (on_channel_ok tid o w c e) as (l' & Hx' & Hi' & Hf' & Hheap & _);
    [apply Hh | split; congruence | done |].
  exists l'. split; [done|]. rewrite <- (set_state_id w).
  apply (held_channel ev n Live Live told h (state_ w) l' _ w Hh Hi' Hf' Hheap); [|by left].
  unfold channel_ok. split_and!; try done. unfold next_index, is_none_event. cbn. rewrite Hx. by destruct e.
Qed.

(** ** Calls on the connection *)

Lemma direct_write_held ev n told h buf len bs w :
  held ev n Live told h w → mem w !! buf = Some bs → 0 <= len <= zlen bs → len <= kMaxObject →
  ∃ w' k f, direct_write kwrite cb buf len w = Ok (w', k, len - k, f) ∧ 0 <= k <= len ∧ held ev n Live told h w' ∧ mem w' = mem w.
Proof.
  intros Hh Hm Hl Hmax. unfold kMaxObject in Hmax.
  destruct (direct_write_ok kwrite cb kwrite_ok buf len bs w) as (w' & k & f & Hx & Hk & _);
    [done.. | lia |].
  exists w', k, f. split; [done|]. split; [done|].
  unfold direct_write in Hx. destruct (user_bytes buf 0 len w) as [data|]; [bstep Hx | done].
  destruct (kwrite (tick w) len); injection Hx as <- _ _ _; [destruct (_ && _)|]; (split; [|done]); frame Hh; try by left.
  apply Forall_app_2; [apply Hh | by apply Forall_singleton].
Qed.

Lemma buffer_rest_held ev n told h buf off len bs w :
  held ev n Live told h w → mem w !! buf = Some bs → 0 <= off → 0 < len → off + len <= zlen bs → len <= kMaxObject →
  safe (held ev n Live told h) (buffer_rest tid buf off len w).
Proof.
  intros Hh Hm Ho Hl Hz Hmax. unfold buffer_rest.
  rewrite (user_bytes_ok _ _ _ _ bs) by (done || lia). cstep.
  eapply safe_bind; [apply Buffer.append_safe; [apply Hh | rewrite zlen_slice; lia]|]. intros out _ Hout.
  set (w1 := accept _ _). assert (held ev n Live told h w1) as H1 by (frame Hh; by left).
  destruct (held_writing _ _ _ _ _ _ H1) as (c & _ & _ & ->). cstep. destruct (is_writing c); [done|].
  destruct (on_channel_held EnableWriting _ _ _ _ w1 H1) as (l' & -> & H2); [by left | done].
Qed.

Lemma send_in_loop_held ev n told h buf len bs w :
  held ev n Live told h w → mem w !! buf = Some bs → 0 <= len <= zlen bs → len <= kMaxObject →
  safe (held ev n Live told h) (send_in_loop kwrite cb tid buf len w).
Proof.
  intros Hh Hm Hl Hmax. unfold send_in_loop. rewrite (held_in_loop _ _ _ _ _ _ Hh). cstep.
  rewrite decide_False by (destruct (held_up _ _ _ _ _ Hh); congruence).
  destruct (held_writing _ _ _ _ _ _ Hh) as (c & _ & _ & ->). cstep.
  eapply (safe_bind (λ r, ∃ w1 k f, r = (w1, k, len - k, f) ∧ 0 <= k <= len ∧ held ev n Live told h w1 ∧ mem w1 = mem w)).
  - destruct (_ && _).
    + destruct (direct_write_held ev n told h buf len bs w) as (w1 & k & f & -> & ?); [done..|]. cbn. eauto.
    + cbn. exists w, 0, false. unfold kMaxObject in Hmax. rewrite to_ssize_id by lia. split; [do 2 f_equal; lia|]. split; [lia | done].
  - intros ? _ (w1 & k & f & -> & Hk & H1 & Hm1). unfold kMaxObject in Hmax. rewrite u64_small by lia. decide_test (len - k <=? len). cstep.
    destruct (negb f && (0 <? len - k)) eqn:E; [|done]. unbool.
    apply (buffer_rest_held ev n told h buf k (len - k) bs); first [done | by rewrite Hm1 | unfold kMaxObject; lia].
Qed.

Lemma shutdown_in_loop_held ev n ph told h w :
  held ev n ph told h w → safe (held ev n ph told h) (shutdown_in_loop tid w).
Proof.
  intros Hh. unfold shutdown_in_loop. rewrite (held_in_loop _ _ _ _ _ _ Hh). cstep.
  destruct (held_writing _ _ _ _ _ _ Hh) as (c & _ & _ & ->). cstep. destruct (is_writing c); cbn; [done|].
  frame Hh. by left.
Qed.

Lemma send_held ev n ph told h buf len bs w :
  held ev n ph told h w → mem w !! buf = Some bs → 0 <= len <= zlen bs → len <= kMaxObject →
  safe (held ev n ph told h) (send kwrite cb tid buf len w).
Proof.
  intros Hh Hm Hl Hmax. unfold send. case_decide as Hs; [|done]. rewrite (held_in_loop _ _ _ _ _ _ Hh).
  destruct (decide (ph = Live)) as [->|Hph]; [by eapply send_in_loop_held|].
  destruct (h_chan _ _ _ _ _ _ Hh) as (c & _ & Hok). destruct (channel_down _ _ _ _ _ Hok Hph). congruence.
Qed.

(** A local object comes and goes. *)
Lemma send_local_held ev n ph told h data w : held ev n ph told h w → zlen data <= kMaxObject →
  safe (held ev n ph told h) (send_local kwrite cb tid data w).
Proof.
  intros Hh Hd. unfold send_local. set (buf := fresh (dom (mem w))).
  assert (mem w !! buf = None) as Hnew by apply not_elem_of_dom, is_fresh. pose proof (zlen_nonneg data).
  eapply safe_bind; [apply (send_held ev n ph told h buf (zlen data) data); [|apply lookup_insert_eq | lia | done]|].
  - frame Hh; [by left|]. cbn. apply insert_subseteq_r; [|apply Hh].
    exact (lookup_weaken_None _ _ _ Hnew (h_mem _ _ _ _ _ _ Hh)).
  - intros w1 Hx H1. apply send_keeps in Hx as (Hm & _). cbn. frame H1; [by left|].
    cbn in Hm |- *. rewrite Hm, delete_insert_id by done. apply Hh.
Qed.

Lemma consume_held ev n ph told h len w : held ev n ph told h w → 0 <= len <= n →
  safe (held ev (n - len) ph told h) (b ← Buffer.retrieve len (input_buffer_ w); mret (with_input b w)).
Proof.
  intros Hh Hl. destruct (h_in _ _ _ _ _ _ Hh) as (Hwf & Hn & Hx & Hsz). pose proof (Buffer.buffer_len _ Hwf) as Hlen.
  destruct (Buffer.retrieve_ok len (input_buffer_ w)) as (b & Hb & Hwfb & Hc & Hv & _); [done | lia |].
  rewrite Hb. cbn. frame Hh; [by left|]. cbn. split; [done|]. rewrite Hv. split; [rewrite Hc, zlen_drop; lia|]. split; [|done].
  intros He. revert Hb. unfold Buffer.retrieve. decide_test (len <=? Buffer.readable_bytes (input_buffer_ w)). cstep.
  decide_test (len <? Buffer.readable_bytes (input_buffer_ w)). by intros [= <-].
Qed.

Lemma run_action_held ev n ph told h a w :
  held ev n ph told h w → action_ok a → consumed a <= n →
  safe (held ev (n - consumed a) ph told h) (run_action kwrite cb tid a w).
Proof.
  intros Hh Ha Hn. destruct a as [buf len| |len|data]; cbn [run_action consumed] in *; rewrite ?Z.sub_0_r.
  - destruct Ha as (bs & Hm & Hl & Hmax). apply (send_held ev n ph told h buf len bs); try done.
    exact (lookup_weaken _ _ _ _ Hm (h_mem _ _ _ _ _ _ Hh)).
  - unfold shutdown. case_decide as Hs; [|done]. assert (held ev n ph told h (set_state kDisconnecting w)) as H1
      by (frame Hh; by right).
    rewrite (held_in_loop _ _ _ _ _ _ H1). by apply shutdown_in_loop_held.
  - by apply consume_held.
  - by apply send_local_held.
Qed.

Lemma consumed_nonneg acts : Forall action_ok acts → 0 <= total acts.
Proof. induction 1 as [|[buf len| |len|data] acts Ha _ IH]; cbn [total consumed action_ok] in *; lia. Qed.

Lemma run_actions_held ev n ph told h acts w :
  held ev n ph told h w → Forall action_ok acts → total acts <= n →
  safe (held ev (n - total acts) ph told h) (run_actions kwrite cb tid acts w).
Proof.
  revert n w. induction acts as [|a acts IH]; intros n w Hh Hok Hn; cbn [run_actions total] in *.
  - by rewrite Z.sub_0_r.
  - apply Forall_cons in Hok as [Ha Hok]. pose proof (consumed_nonneg acts Hok) as Ht.
    eapply safe_bind; [apply run_action_held; [exact Hh | done | lia]|]. intros w1 _ H1.
    rewrite Z.sub_add_distr. apply IH; [done..|lia].
Qed.

(** ** The handlers *)

Hypothesis user_ok : callbacks_ok.

(** Whether the close callback of the server has been called. *)
Definition told_of (ph : phase) : bool := match ph with Live => false | _ => close_callback_ cb end.

(** Between the handlers all input is retrieved and the server knows whether the connection is
    closed. *)
Definition settled (ev : Z) (h : bool * bool) w : Prop :=
  ∃ ph, ph ≠ Removed ∧ held ev 0 ph (told_of ph) h w.

Lemma settled_live ev h w : held ev 0 Live false h w → settled ev h w.
Proof. by exists Live. Qed.

Lemma settled_closed ev h w : held ev 0 Closed (close_callback_ cb) h w → settled ev h w.
Proof. by exists Closed. Qed.

Lemma connection_callback_held ev n ph told h w : held ev n ph told h w → 0 <= n →
  safe (held ev n ph told h) (call_connection_callback kwrite cb tid w).
Proof.
  intros Hh Hn. unfold call_connection_callback. destruct (connection_callback_ cb) as [f|] eqn:E; [|done].
  destruct (cb_connection user_ok f (connected w) E) as [Hok Ht].
  pose proof (run_actions_held ev n ph told h _ w Hh Hok ltac:(lia)) as Hx. by rewrite Ht, Z.sub_0_r in Hx.
Qed.

Lemma handle_close_held ev n h w : held ev n Live false h w → 0 <= n →
  safe (held ev n Closed (close_callback_ cb) h) (handle_close kwrite cb tid w).
Proof.
  intros Hh Hn. destruct (h_chan _ _ _ _ _ _ Hh) as (c & Hc & Hl & Hf & Hd & Hhd & Hu & Hx & _).
  pose proof (h_id _ _ _ _ _ _ Hh) as Hid. pose proof (h_tid _ _ _ _ _ _ Hh) as Htid.
  unfold handle_close. rewrite (held_in_loop _ _ _ _ _ _ Hh). cstep.
  replace (_ || _) with true; cycle 1.
  { symmetry. apply orb_true_iff. destruct Hu as [Hs|Hs]; [left | right]; apply bool_decide_eq_true; by rewrite Hs. }
  cstep. destruct (on_channel_ok tid DisableAll (set_state kDisconnected w) c kNoneEvent) as (l' & -> & Hi' & Hf' & Hheap & _);
    [apply Hh | split; [done | cbn; congruence | cbn; congruence | done] | done |].
  cstep. eapply safe_bind; [apply connection_callback_held; [|done]|].
  { apply (held_channel ev n Live Closed false h kDisconnected l' _ w Hh Hi' Hf' Hheap); [|by right; right].
    unfold channel_ok. split_and!; try done. unfold next_index. cbn. by rewrite Hx. }
  intros w3 _ H3. cbn. destruct (close_callback_ cb); [|done]. frame H3. by left.
Qed.

(** A read into an input buffer whose bytes have all been retrieved. *)
Lemma read_ok r b : input_ok 0 b →
  (∀ data, r = Buffer.ReadvData data → zlen data <= Buffer.writable_bytes b + Buffer.kExtraBuf ∧ zlen data < Buffer.kExtraBuf) →
  ∃ b', Buffer.read_fd r b = Ok (b', match r with Buffer.ReadvErr _ => -1 | Buffer.ReadvData data => zlen data end) ∧
    input_ok (zlen (Buffer.data_of r)) b' ∧ Buffer.contents b' = Buffer.data_of r.
Proof.
  intros Hin Hr. pose proof Hin as (Hwf & Hz & Hx & Hsz). specialize (Hx eq_refl). pose proof (Buffer.buffer_len b Hwf) as Hlen.
  assert (Buffer.writable_bytes b = zlen (Buffer.buffer_ b) - Buffer.kCheapPrepend) as Hwr by (rewrite Buffer.writable_eq by done; lia).
  apply zlen_nil_inv in Hz. destruct r as [e|data]; cbn [Buffer.data_of].
  { exists b. rewrite Buffer.read_fd_nothing; [done | done | lia | rewrite <- Hlen, Hz; done | right; by eexists]. }
  destruct (Hr data eq_refl) as [Hroom Hbig]. destruct (decide (data = [])) as [->|Hne].
  { exists b. rewrite Buffer.read_fd_nothing; [done | done | lia | rewrite <- Hlen, Hz; done | by left]. }
  destruct (Buffer.read_fd_data data b) as (b' & Hwf' & Hc' & ->); [done | lia | done | |].
  { rewrite Hx. unfold Buffer.kExtraBuf, Buffer.kCheapPrepend, kMaxObject in *. lia. }
  rewrite Hz, app_nil_l in Hc'. rewrite <- Hlen, Hz, zlen_nil. decide_test (0 + zlen data <? Buffer.kExtraBuf).
  exists b'. split; [done|]. split; [|done]. split; [done|]. rewrite Hc'. split; [done|].
  assert (zlen data ≠ 0) by (by intros E%zlen_nil_inv). pose proof (zlen_nonneg data). split; [done|].
  pose proof (Buffer.buffer_len b' Hwf') as Hl'. rewrite Buffer.readable_eq, Hc' in Hl' by done. destruct Hwf' as (? & ?). lia.
Qed.

(** What a read may deliver into it. *)
Lemma read_room t n b data : input_ok n b → kreadv t (Buffer.writable_bytes b + Buffer.kExtraBuf) = Buffer.ReadvData data →
  zlen data <= Buffer.writable_bytes b + Buffer.kExtraBuf ∧ zlen data < Buffer.kExtraBuf.
Proof.
  intros (Hwf & _). apply kreadv_ok. rewrite Buffer.writable_eq by done. destruct Hwf as (? & ?). unfold Buffer.kExtraBuf. lia.
Qed.

Lemma handle_read_held ev h w : held ev 0 Live false h w →
  safe (settled ev h) (handle_read kwrite kreadv cb tid w).
Proof.
  intros Hh. pose proof (h_in _ _ _ _ _ _ Hh) as Hin. unfold handle_read. rewrite (held_in_loop _ _ _ _ _ _ Hh). cstep.
  set (b := input_buffer_ w) in *. set (r := kreadv _ _).
  assert (∀ data, r = Buffer.ReadvData data → zlen data <= Buffer.writable_bytes b + Buffer.kExtraBuf ∧ zlen data < Buffer.kExtraBuf) as Hr
    by (intros data; by apply (read_room (tick w) 0)).
  destruct (read_ok r b Hin Hr) as (b' & -> & Hin' & Hc'). cstep.
  set (w1 := receive _ _). assert (held ev (zlen (Buffer.data_of r)) Live false h w1) as H1 by (frame Hh; by left).
  destruct r as [e|data]; cbn [Buffer.data_of] in *; [by apply settled_live|].
  destruct (Z.ltb_spec 0 (zlen data)) as [Hpos|Hz].
  - destruct (cb_message user_ok) as (f & -> & Hf). destruct (Hf (Buffer.contents b')) as [Hok Ht]; [by rewrite Hc'; apply Hr|].
    eapply safe_mono; [apply (run_actions_held _ _ _ _ _ _ _ H1 Hok); rewrite Ht, Hc'; lia|].
    intros w' _ H'. apply settled_live. by rewrite Ht, Hc', Z.sub_diag in H'.
  - pose proof (zlen_nonneg data). assert (zlen data = 0) as Hz0 by lia. rewrite Hz0 in *. cbn [Z.eqb].
    eapply safe_mono; [by apply (handle_close_held ev 0)|]. intros w' _ H'. by apply settled_closed.
Qed.

Lemma handle_write_held ev ph h w : held ev 0 ph (told_of ph) h w →
  safe (held ev 0 ph (told_of ph) h) (handle_write kwrite cb tid w).
Proof.
  intros Hh. unfold handle_write. rewrite (held_in_loop _ _ _ _ _ _ Hh). cstep.
  destruct (held_writing _ _ _ _ _ _ Hh) as (c & Hc & Hok & ->). cstep.
  destruct (is_writing c) eqn:Ew; [|done].
  destruct (decide (ph = Live)) as [->|Hn]; cycle 1.
  { destruct (channel_down _ _ _ _ _ Hok Hn) as [_ He]. by rewrite is_writing_bit, He in Ew. }
  pose proof (h_out _ _ _ _ _ _ Hh) as Hwf. rewrite Buffer.offered_ok by done. cstep.
  destruct (flush_ok kwrite kwrite_ok w Hwf) as (b & n & -> & Hwfb & _). cstep.
  set (w1 := with_output b _). assert (held ev 0 Live false h w1) as H1 by (frame Hh; by left).
  destruct (0 <? n); [|done]. destruct (Buffer.readable_bytes b =? 0); [|done].
  destruct (on_channel_held DisableWriting _ _ _ _ w1 H1) as (l' & -> & H2); [by right|]. cstep.
  set (w2 := with_lp l' w1) in *. set (w3 := if bool_decide _ then _ else _).
  assert (held ev 0 Live false h w3) as H3.
  { unfold w3. destruct (bool_decide _); [|done]. frame H2; [by left|]. apply Forall_app_2; [apply H2 | by apply Forall_singleton]. }
  case_decide; [|done]. by apply shutdown_in_loop_held.
Qed.

Lemma run_task_held ev ph told h t w : held ev 0 ph told h w → own_task t →
  safe (held ev 0 ph told h) (run_task kwrite cb tid t w).
Proof.
  intros Hh Ht. destruct t as [buf len| |]; [done..|]. cbn [run_task].
  destruct (write_complete_callback_ cb) as [acts|] eqn:E; [|done].
  destruct (cb_write user_ok acts E) as [Hok Hn].
  eapply safe_mono; [apply (run_actions_held _ _ _ _ _ _ _ Hh Hok); lia|]. intros w1 _ H1. by rewrite Hn in H1.
Qed.

(** On a closed connection it queues nothing. *)
Lemma run_actions_down acts w w' : state_ w = kDisconnected → run_actions kwrite cb tid acts w = Ok w' → queue w' = queue w.
Proof.
  revert w. induction acts as [|a acts IH]; intros w Hs Hx; cbn [run_actions] in Hx; [by injection Hx as <-|].
  destruct (run_action kwrite cb tid a w) as [w1|] eqn:Ha; [bstep Hx | done].
  assert (state_ w1 = kDisconnected ∧ queue w1 = queue w) as [Hs1 Hq1]; [|by rewrite <- Hq1; apply IH].
  destruct a as [buf len| |len|data]; cbn [run_action] in Ha.
  - unfold send in Ha. rewrite decide_False in Ha by congruence. by injection Ha as <-.
  - unfold shutdown in Ha. rewrite decide_False in Ha by congruence. by injection Ha as <-.
  - destruct (Buffer.retrieve len (input_buffer_ w)); [bstep Ha | done]. by injection Ha as <-.
  - unfold send_local, send in Ha. rewrite decide_False in Ha by (cbn; congruence). cbn in Ha. by injection Ha as <-.
Qed.

Lemma run_task_down t w w' : state_ w = kDisconnected → own_task t → run_task kwrite cb tid t w = Ok w' → queue w' = queue w.
Proof.
  intros Hs Ht Hx. destruct t; [done..|]. cbn [run_task] in Hx.
  destruct (write_complete_callback_ cb); [by eapply run_actions_down | by injection Hx as <-].
Qed.

(** The last two calls of the server: the channel is taken off the loop, outside any dispatch, and
    then destroyed. *)
Lemma remove_held ev n told b w : held ev n Closed told (b, false) w →
  ∃ l', on_channel tid Remove w = Ok (with_lp l' w) ∧ held ev n Removed told (b, false) (with_lp l' w) ∧
    registered (kernel l') fd = None.
Proof.
  intros Hh. destruct (h_chan _ _ _ _ _ _ Hh) as (c & Hc & Hl & Hf & Hd & Hhd & Hst & Hx & He).
  pose proof (h_id _ _ _ _ _ _ Hh) as Hid. pose proof (h_tid _ _ _ _ _ _ Hh) as Htid.
  pose proof (h_flag _ _ _ _ _ _ Hh) as Hev.
  destruct (remove_ok tid (channel_ w) c (lp w)) as (l' & Hr & Hi' & Hfr & Hheap & _ & Hreg);
    [apply Hh | done | congruence | congruence | by rewrite Hx | done | by rewrite Hev |].
  exists l'. split; [unfold on_channel; cbn [exec]; by rewrite Hr|]. split; [|by rewrite Hf in Hreg].
  rewrite <- (set_state_id w). apply (held_channel ev n Closed Removed told (b, false) (state_ w) l' _ w Hh Hi' Hfr Hheap); [|by left].
  unfold channel_ok. split_and!; done.
Qed.

Lemma connect_destoryed_held ev n told b w : held ev n Closed told (b, false) w →
  ∃ l', connect_destoryed kwrite cb tid w = Ok (with_lp l' w) ∧ held ev n Removed told (b, false) (with_lp l' w) ∧
    registered (kernel l') fd = None.
Proof.
  intros Hh. destruct (remove_held _ _ _ _ _ Hh) as (l' & Hr & Hrest). exists l'. split; [|exact Hrest].
  destruct (h_chan _ _ _ _ _ _ Hh) as (c & _ & _ & _ & _ & _ & Hst & _).
  unfold connect_destoryed. rewrite (held_in_loop _ _ _ _ _ _ Hh). cstep. rewrite decide_False by congruence. by cstep.
Qed.

(** The server may also destroy a connection that is being served. *)
Lemma connect_destoryed_live ev b w : held ev 0 Live false (b, false) w → state_ w = kConnected → queue w = [] →
  safe (λ w', held ev 0 Removed false (b, false) w' ∧ queue w' = []) (connect_destoryed kwrite cb tid w).
Proof.
  intros Hh Hs Hq. destruct (h_chan _ _ _ _ _ _ Hh) as (c & Hc & Hl & Hf & Hd & Hhd & Hu & Hx & _).
  pose proof (h_id _ _ _ _ _ _ Hh) as Hid. pose proof (h_tid _ _ _ _ _ _ Hh) as Htid.
  unfold connect_destoryed. rewrite (held_in_loop _ _ _ _ _ _ Hh). cstep. rewrite decide_True by done.
  destruct (on_channel_ok tid DisableAll (set_state kDisconnected w) c kNoneEvent) as (l' & -> & Hi' & Hf' & Hheap & _);
    [apply Hh | split; [done | cbn; congruence | cbn; congruence | done] | done |].
  cstep. set (w1 := with_lp l' (set_state kDisconnected w)).
  assert (held ev 0 Closed false (b, false) w1) as H1.
  { apply (held_channel ev 0 Live Closed false (b, false) kDisconnected l' _ w Hh Hi' Hf' Hheap); [|by right; right].
    unfold channel_ok. split_and!; try done. unfold next_index. cbn. by rewrite Hx. }
  eapply safe_bind; [by apply connection_callback_held|]. intros w2 Hw2 H2. destruct (remove_held _ _ _ _ _ H2) as (l2 & -> & H3 & _).
  cbn. split; [exact H3|]. unfold call_connection_callback in Hw2. cbn. rewrite <- Hq.
  destruct (connection_callback_ cb); [|by injection Hw2 as <-].
  by apply (run_actions_down _ w1) in Hw2.
Qed.

Lemma dtor_held ev n told w : held ev n Removed told (false, false) w →
  ∃ l', dtor tid w = Ok (with_lp l' w) ∧ inv l' ∧ heap l' = rest ∧ kernel l' = kernel (lp w) ∧ same_frame (lp w) l'.
Proof.
  intros Hh. destruct (h_chan _ _ _ _ _ _ Hh) as (c & Hc & Hl & Hf & Hd & Hhd & Hst & Hx & He).
  pose proof (h_id _ _ _ _ _ _ Hh) as Hid. pose proof (h_inv _ _ _ _ _ _ Hh) as Hi.
  assert (added_to_loop_ c = false) as Hadd.
  { destruct (inv_chan _ Hi _ c Hc) as [(_ & _ & ?)|[(Hx' & _)|(Hx' & _)]]; [congruence | done |..];
      rewrite Hx in Hx'; discriminate Hx'. }
  assert (channel_dtor tid (channel_ w) (lp w) = Ok (with_heap (lp w) (delete (channel_ w) (heap (lp w))))) as Hdt.
  { apply (dtor_ok tid _ c); try done; [congruence | symmetry; apply Hh]. }
  eexists. split; [|split; [by eapply dtor_inv|]].
  - unfold dtor. rewrite Hst, bool_decide_true by done. cstep. unfold on_channel. cbn [exec]. by rewrite Hdt.
  - cbn. split; [|done]. rewrite (h_addr _ _ _ _ _ _ Hh). apply Hh.
Qed.

(** ** Changes of the loop *)

(** Changes of the loop that leave the registrations alone. *)
Lemma held_loop ev n ph told h h' l' w : held ev n ph told h w →
  id l' = id (lp w) → tid_ l' = tid_ (lp w) → heap l' = heap (lp w) → channels_ l' = channels_ (lp w) →
  kernel l' = kernel (lp w) → event_handing_ l' = h' → held ev n ph told (h.1, h') (with_lp l' w).
Proof.
  intros [Hi Hid Hrest (c & Hc & Hok) Hg Ht Ha Hin Hout Hm Hq Hcl Hgr] Hid' Htid Hh Hch Hk Hg'.
  split; cbn; try done; rewrite ?Hh, ?Hid', ?Htid; try done; [by eapply inv_flags|].
  exists c. unfold chan in *. cbn. by rewrite ?Hh.
Qed.

(** Changes of the channel's fields the registration does not depend on. *)
Lemma held_touch ev ev' n ph told h h' (g : channel → channel) w :
  (∀ c, loop_ (g c) = loop_ c ∧ fd_ (g c) = fd_ c ∧ index_ (g c) = index_ c ∧ events_ (g c) = events_ c ∧
        added_to_loop_ (g c) = added_to_loop_ c) →
  (∀ c, dispatch_fields c = (ev, (true, true, true, true)) → event_handling_ c = h.1 →
        dispatch_fields (g c) = (ev', (true, true, true, true)) ∧ event_handling_ (g c) = h') →
  held ev n ph told h w → held ev' n ph told (h', h.2) (with_lp (modify (channel_ w) g (lp w)) w).
Proof.
  intros Hg1 Hg2 [Hi Hid Hrest (c & Hc & Hl & Hf & Hd & Hhd & Hs) Hg Ht Ha Hin Hout Hm Hq Hcl Hgr].
  destruct (Hg1 c) as (E1 & E2 & E3 & E4 & E5), (Hg2 c Hd Hhd) as [E6 E7]. rewrite (modify_eq _ _ _ c Hc).
  split; try done; [by eapply inv_touch | cbn; by rewrite Ha, delete_insert_eq|].
  exists (g c). split; [unfold chan; cbn; apply lookup_insert_eq|].
  unfold channel_ok. rewrite E1, E2, E3, E4. done.
Qed.

(** ** The start *)

Lemma ctor_input l sockfd w : ctor l p sockfd m = Ok w → input_ok 0 (input_buffer_ w).
Proof.
  unfold ctor. intros Hx. assert (Buffer.ctor Buffer.kInitialSize = Ok (Buffer.mk (replicate 1032 x00) 8 8)) as Hb by (vm_compute; reflexivity).
  rewrite Hb in Hx. outcome_inv. cbn [input_buffer_]. split; [split_and!; vm_compute; discriminate | done].
Qed.

Lemma established_held w c b :
  cinv w → chan w = Some c → c = mkChannel (id (lp w)) fd 0 0 (-1) false false false true true true true →
  id (lp w) = i → delete p (heap (lp w)) = rest → tid_ (lp w) = tid → channels_ (lp w) !! fd = None →
  event_handing_ (lp w) = b → state_ w = kConnecting →
  channel_ w = p → input_ok 0 (input_buffer_ w) → mem w = m → queue w = [] → closed w = false → s0 = kConnected →
  safe (held 0 0 Live false (false, b)) (connect_established kwrite cb tid w).
Proof.
  intros [Hi _ Ho _ _] Hc -> Hl Hrest Ht Hfree Hg Hst Ha Hin Hm Hq Hcl Hs0. set (c := mkChannel _ _ _ _ _ _ _ _ _ _ _ _) in *.
  set (w1 := set_state kConnected w). set (l1 := with_heap (lp w) (<[channel_ w := set_tied c]> (heap (lp w)))).
  assert (inv l1) as Hi1 by (by eapply inv_touch).
  destruct (change_events_exec tid EnableReading (channel_ w) (set_tied c) kReadEvent l1) as (l2 & Hx2 & Hi2 & Hf2 & Hh2 & _);
    [done | apply lookup_insert_eq | done | done | done | done |].
  destruct Hf2 as (Hid & Htid & _ & Hev & _). cbn in Hh2, Hid, Htid, Hev. rewrite insert_insert_eq, Ha in Hh2.
  unfold connect_established, in_loop, is_in_loop_thread. rewrite Ht, Z.eqb_refl. cstep.
  rewrite bool_decide_true by done. cstep. fold w1.
  assert (on_channel tid Tie w1 = Ok (with_lp l1 w1)) as ->.
  { unfold on_channel, exec, tie. cbn [lp set_state w1 channel_]. rewrite (deref_ok _ _ c Hc). cstep.
    by rewrite (modify_eq _ _ _ c Hc). }
  cstep. unfold on_channel. cbn [lp with_lp channel_ w1 set_state]. rewrite Hx2. cstep.
  apply connection_callback_held; [|done]. split; cbn; try done; try congruence.
  - by rewrite Hh2, delete_insert_eq.
  - eexists. split; [unfold chan; cbn; by rewrite Hh2, Ha, lookup_insert_eq|]. unfold channel_ok. cbn.
    split_and!; try done. by left.
  - by rewrite Hm.
  - by rewrite Hq.
  - rewrite Hs0. by left.
Qed.

(** ** The stream *)

Lemma cinv_lp l' c c' w : cinv w → inv l' → chan w = Some c → heap l' !! channel_ w = Some c' → events_ c' = events_ c →
  cinv (with_lp l' w).
Proof.
  intros [Hi _ Ho Hs Hw] Hi' Hc Hc' He. split; try done; try by exists c'.
  intros Hst d Hd. unfold chan in Hd. cbn in Hd. rewrite Hc' in Hd. injection Hd as <-.
  unfold is_writing. rewrite He. exact (Hw Hst c Hc).
Qed.

(** The loop's flags. *)
Lemma cinv_flags l' w : cinv w → id l' = id (lp w) → heap l' = heap (lp w) → channels_ l' = channels_ (lp w) →
  kernel l' = kernel (lp w) → cinv (with_lp l' w).
Proof.
  intros Hc Hid Hh Hch Hk. pose proof Hc as [Hi [c Hx] _ _ _].
  eapply (cinv_lp l' c c); [done | by eapply inv_flags | done | unfold chan in Hx; by rewrite Hh | done].
Qed.

End Safe.

(** ** Properties that the calls on a connection keep *)

(** The events of a connection that its own loop and its server bring about. *)
Definition own_event (e : event) : bool :=
  match e with OtherSend _ _ _ | OtherShutdown _ | StoreMem _ _ | FreeMem _ => false | _ => true end.

(** The user's side of a connection stays as it is. *)
Definition same_user {K} (w w' : conn K) : Prop :=
  state_ w' = state_ w ∧ input_buffer_ w' = input_buffer_ w ∧ output_buffer_ w' = output_buffer_ w ∧
  mem w' = mem w ∧ wire w' = wire w ∧ accepted w' = accepted w ∧ received w' = received w.

(** The interface between a server and what its connections are used for: a property of the user's
    side of a connection that holds for a new one and is kept by every event, when all input has been
    retrieved before and a connection that is not established is not served. *)
Class ConnLaw {K} `{EpollKernel K} (kwrite : Z → nat → Z → sysret) (kreadv : Z → nat → Z → Buffer.readv_result)
    (cb : callbacks) (tid : Z) (J : conn K → Prop) : Prop := {
  law_frame : ∀ w w', same_user w w' → J w → J w';
  law_start : ∀ w, state_ w = kConnecting → accepted w = [] → received w = [] → J w;
  law_event : ∀ n e w w', own_event e = true → (state_ w = kConnecting → e = Established) →
    input_ok 0 (input_buffer_ w) → Forall own_task (queue w) → J w →
    handle (kwrite n) (kreadv n) cb tid e w = Ok w' → J w'
}.

#[global] Instance law_true {K} `{EpollKernel K} kwrite kreadv cb tid : ConnLaw kwrite kreadv cb tid (λ _ : conn K, True).
Proof. by split. Qed.

(** A connection with the invariant of its class and such a property. *)
Definition sound {K} `{EpollKernel K} (J : conn K → Prop) (w : conn K) : Prop := cinv w ∧ J w.

Lemma held_established {K} `{EpollKernel K} {m tid p fd i rest s0 ev n ph told h} {w : conn K} :
  held m tid p fd i rest s0 ev n ph told h w → state_ w ≠ kConnecting.
Proof.
  intros Hh. destruct (h_chan _ _ _ _ _ _ _ _ _ _ _ _ _ Hh) as (c & _ & _ & _ & _ & _ & Hs).
  destruct ph; [destruct Hs as ([-> | ->] & _) | destruct Hs as (-> & _)..]; done.
Qed.

Section Law.
Context {K : Type} `{EpollKernel K} (kwrite : Z → nat → Z → sysret) (kreadv : Z → nat → Z → Buffer.readv_result).
Context (cb : callbacks) (tid : Z) (J : conn K → Prop) `{!ConnLaw kwrite kreadv cb tid J}.
Hypothesis kwrite_ok : ∀ n t len k, kwrite n t len = SysOk k → 0 <= k <= len.
Implicit Types w : conn K.

Lemma sound_frame w w' : sound J w → lp w' = lp w → channel_ w' = channel_ w → same_user w w' → sound J w'.
Proof.
  intros [Hc Hj] Hl Ha Hs. split; [|by eapply law_frame]. destruct Hs as (Hs & _ & ? & _ & ? & ? & _).
  eapply cinv_frame; [exact Hc | done..|]. by rewrite Hs.
Qed.

Lemma sound_lp l' c c' w : sound J w → inv l' → chan w = Some c → heap l' !! channel_ w = Some c' → events_ c' = events_ c →
  sound J (with_lp l' w).
Proof. intros [Hc Hj] Hi Hx Hx' He. split; [by eapply cinv_lp|]. eapply law_frame; [|exact Hj]. by repeat split. Qed.

Lemma sound_start w : cinv w → state_ w = kConnecting → accepted w = [] → received w = [] → sound J w.
Proof. intros Hc Hs Ha Hr. split; [done | by eapply law_start]. Qed.

Lemma sound_event m p fd i rest s0 ev ph told h n e w w' : held m tid p fd i rest s0 ev 0 ph told h w → sound J w →
  own_event e = true → handle (kwrite n) (kreadv n) cb tid e w = Ok w' → sound J w'.
Proof.
  intros Hh [Hc Hj] He Hx. split; [by eapply (handle_cinv _ _ _ (kwrite_ok n))|].
  eapply law_event; [done | | apply Hh | apply Hh | done | exact Hx]. intros Hs. by destruct (held_established Hh).
Qed.

Lemma sound_task m p fd i rest s0 ev ph told h n t w w' : held m tid p fd i rest s0 ev 0 ph told h w → queue w = [] → own_task t →
  sound J w → run_task (kwrite n) cb tid t w = Ok w' → sound J w'.
Proof.
  intros Hh Hq Ht [Hc Hj] Hx. split; [by eapply (run_task_cinv _ _ (kwrite_ok n))|].
  eapply (law_event n RunTask (with_queue [t] w)); [done | intros Hs; by destruct (held_established Hh) | apply Hh | by apply Forall_singleton | |].
  { eapply law_frame; [|exact Hj]. by repeat split. }
  cbn. replace (with_queue [] (with_queue [t] w)) with w; [exact Hx|]. destruct w. cbn in Hq. by rewrite Hq.
Qed.
End Law.

(** The state counted from now on. *)
Lemma held_now {K} `{EpollKernel K} m tid p fd i rest s0 ev n ph told h (w : conn K) :
  held m tid p fd i rest s0 ev n ph told h w → held m tid p fd i rest (state_ w) ev n ph told h w.
Proof. intros []. by split; try apply grows_refl. Qed.

#[global] Arguments h_inv {K H m tid p fd i rest s0 ev n ph told h w} _.
#[global] Arguments h_id {K H m tid p fd i rest s0 ev n ph told h w} _.
#[global] Arguments h_rest {K H m tid p fd i rest s0 ev n ph told h w} _.
#[global] Arguments h_chan {K H m tid p fd i rest s0 ev n ph told h w} _.
#[global] Arguments h_flag {K H m tid p fd i rest s0 ev n ph told h w} _.
#[global] Arguments h_tid {K H m tid p fd i rest s0 ev n ph told h w} _.
#[global] Arguments h_addr {K H m tid p fd i rest s0 ev n ph told h w} _.
#[global] Arguments h_in {K H m tid p fd i rest s0 ev n ph told h w} _.
#[global] Arguments h_out {K H m tid p fd i rest s0 ev n ph told h w} _.
#[global] Arguments h_mem {K H m tid p fd i rest s0 ev n ph told h w} _.
#[global] Arguments h_queue {K H m tid p fd i rest s0 ev n ph told h w} _.
#[global] Arguments h_state {K H m tid p fd i rest s0 ev n ph told h w} _.
#[global] Arguments h_told {K H m tid p fd i rest s0 ev n ph told h w} _.
End ConnSafe.
