(* ===== verification/LoopTurn.v ===== *)
(** * A connection in its event loop (src/reactor/event_loop.cc, channel.cc, src/net/tcp_connection.cc)

    The loop body of [EventLoop::loop] put together from its parts: [Epoller::poll] of the file
    Reactor, [Channel::handle_event] with the callbacks a connection sets, the handlers of the file
    Connection, and the connection's functors run by [do_pending_functors].  The callbacks of
    the loop's other channels do nothing to the connection.

    The proofs follow the code with the rules of [safe]: whatever the kernel reports turn after
    turn, and whatever calls the user's callbacks make on the connection, no assertion fails and
    no memory is touched that should not be, from the constructor to the destructor. *)

From S2P Require Import Prelude NetBuffer Reactor Connection ConnSafe.

Module LoopTurn.
Import TcpConnection ConnSafe.

Section Turn.
Context {K : Type} `{EpollKernel K}.
Context (kwrite : nat → Z → sysret) (kreadv : nat → Z → Buffer.readv_result) (cb : callbacks).
Implicit Types (w : conn K) (tid : Z) (l : loop K).

(** ** One turn *)

Definition null_channel : channel := mkChannel 0 0 0 0 0 false false false false false false false.

Definition look w : channel := default null_channel (chan w).

Definition set_handling (b : bool) (c : channel) : channel :=
  mkChannel (loop_ c) (fd_ c) (events_ c) (revents_ c) (index_ c) b (added_to_loop_ c) (tied_ c)
    (read_callback_ c) (write_callback_ c) (Reactor.close_callback_ c) (error_callback_ c).

(** The flag [event_handling_] of the connection's channel. *)
Definition handling (b : bool) w : conn K := with_lp (modify (channel_ w) (set_handling b) (lp w)) w.

(** The callbacks the constructor binds. *)
Definition run_callback tid (k : callback) w : outcome (conn K) :=
  match k with
  | CbClose => handle_close kwrite cb tid w
  | CbError => handle_error w
  | CbRead => handle_read kwrite kreadv cb tid w
  | CbWrite => handle_write kwrite cb tid w
  end.

(** [Channel::handle_event] of a connection its server still holds. *)
Definition channel_event tid w : outcome (conn K) :=
  _ ← deref (channel_ w) (lp w);
  handle_event look handling (run_callback tid) true w.

Definition begin_events (active : list nat) l : loop K :=
  mkLoop (id l) (tid_ l) (kernel l) (heap l) (channels_ l) (events_size l) true (current_active_channel_ l) active.

Definition set_current (p : option nat) l : loop K :=
  mkLoop (id l) (tid_ l) (kernel l) (heap l) (channels_ l) (events_size l) (event_handing_ l) p (active_channels_ l).

Definition end_events l : loop K :=
  mkLoop (id l) (tid_ l) (kernel l) (heap l) (channels_ l) (events_size l) false None (active_channels_ l).

(** The loop over the active channels. *)
Fixpoint handle_active tid (active : list nat) w : outcome (conn K) :=
  match active with
  | [] => mret w
  | p :: active =>
      let w := with_lp (set_current (Some p) (lp w)) w in
      w ← (if decide (p = channel_ w) then channel_event tid w else mret w);
      handle_active tid active w
  end.

(** The functors of the connection that [do_pending_functors] has swapped out. *)
Fixpoint run_functors tid (q : list task) w : outcome (conn K) :=
  match q with
  | [] => mret w
  | t :: q => w ← run_task kwrite cb tid t w; run_functors tid q w
  end.

(** The body of the [while] statement of [EventLoop::loop]. *)
Definition turn tid (r : wait_result) w : outcome (conn K) :=
  '(l, active) ← poll r (lp w) [];
  w ← handle_active tid active (with_lp (begin_events active l) w);
  let w := with_lp (end_events (lp w)) w in
  run_functors tid (queue w) (with_queue [] w).

Fixpoint turns tid (rs : list wait_result) w : outcome (conn K) :=
  match rs with
  | [] => mret w
  | r :: rs => w ← turn tid r w; turns tid rs w
  end.

(** What the kernel may answer: distinct channels of its interest set, as many as the array
    holds; and no hang-up together with urgent data but without ordinary input. *)
Definition answer_ok (r : wait_result) w : Prop :=
  admissible r (lp w) ∧ ∀ ev, reports r ev (channel_ w) → hangup_ok ev.

Fixpoint answers_ok tid (rs : list wait_result) w : Prop :=
  match rs with
  | [] => True
  | r :: rs => answer_ok r w ∧ ∀ w', turn tid r w = Ok w' → answers_ok tid rs w'
  end.

(** ** The connection during a turn *)

Hypothesis kwrite_ok : ∀ t len n, kwrite t len = SysOk n → 0 <= n <= len.

(** A read delivers no more than asked for, and less than the scratch array of [read_fd] holds. *)
Hypothesis kreadv_ok : ∀ t room data, 0 <= room → kreadv t room = Buffer.ReadvData data →
  zlen data <= room ∧ zlen data < Buffer.kExtraBuf.

(** The user's memory, the loop's thread, the address and descriptor of the channel, and the
    address of the loop. *)
Context (m : gmap nat (list byte)) (tid : Z) (p : nat) (fd : Z) (i : nat).
Hypothesis user_ok : callbacks_ok cb m.

(** The connection in the condition of the file ConnSafe, with the other channels at hand. *)
Notation held rest := (ConnSafe.held m tid p fd i rest kConnected).
Notation settled rest := (ConnSafe.settled cb m tid p fd i rest kConnected).

(** ** The dispatch *)

Lemma handling_held rest ev n ph told h b w : held rest ev n ph told h w → held rest ev n ph told (b, h.2) (handling b w).
Proof. intros Hh. apply (held_touch m tid p fd i rest kConnected ev ev n ph told h b (set_handling b)); [done | | done]. intros c Hd _. done. Qed.

Lemma channel_event_held rest ev h w : held rest ev 0 Live false (h, true) w → hangup_ok ev →
  safe (settled rest ev (false, true)) (channel_event tid w).
Proof.
  intros Hh Hev. unfold channel_event. destruct (h_chan Hh) as (c & Hc & _). rewrite (deref_ok _ _ c Hc). cstep.
  assert (safe (settled rest ev (false, true)) (handle_event_with_guard look handling (run_callback tid) w)) as Hg; cycle 1.
  { unfold handle_event. by destruct (tied_ (look w)). }
  eapply safe_mono; [apply (guarded_safe look handling (run_callback tid) (settled rest ev (true, true))
    (held rest ev 0 Live false (true, true)) ev); try done|].
  - intros v [(ph & _ & Hv)|Hv]; destruct (h_chan Hv) as (d & Hd & _ & _ & Hf & _); unfold look; by rewrite Hd.
  - intros v Hv _. by apply settled_live.
  - intros v Hv. eapply safe_mono; [by eapply handle_close_held|]. intros v' _. apply settled_closed.
  - intros v Hv _. by eapply handle_read_held.
  - intros v (ph & Hph & Hv). eapply safe_mono; [by eapply handle_write_held|]. intros v' _ H'. by exists ph.
  - apply (handling_held rest ev 0 Live false (h, true) true w Hh).
  - intros w' _ (v & (ph & Hph & Hv) & ->). exists ph. split; [done|]. apply (handling_held rest ev 0 ph _ (true, true) false v Hv).
Qed.

(** ** The turn *)

Lemma handle_active_held rest ev w active : settled rest ev (false, true) w → NoDup active →
  (p ∈ active → up w ∧ hangup_ok ev) → safe (settled rest ev (false, true)) (handle_active tid active w).
Proof.
  intros Hs Hnd Hev. revert w Hs Hev. induction Hnd as [|q active Hq _ IH]; intros w (ph & Hph & Hh) Hev; cbn [handle_active]; [by exists ph|].
  set (w1 := with_lp _ w). assert (held rest ev 0 ph (told_of cb ph) (false, true) w1) as H1.
  { apply (held_loop m tid p fd i rest kConnected _ _ _ _ (false, true) true _ _ Hh); try done. exact (h_flag Hh). }
  change (channel_ w1) with (channel_ w). rewrite (h_addr Hh). destruct (decide (q = p)) as [->|Hne].
  - destruct Hev as [Hup Hok]; [left|].
    assert (ph = Live) as ->.
    { destruct (decide (ph = Live)) as [|Hn]; [done|]. destruct (h_chan Hh) as (c & _ & Hc).
      destruct (channel_down _ _ _ _ _ _ _ Hc Hn). destruct Hup; congruence. }
    eapply safe_bind; [by apply (channel_event_held rest ev false)|]. intros w2 _ H2. apply IH; [done|]. by intros ?.
  - cbn. apply IH; [by exists ph|]. intros Hin. apply Hev. by right.
Qed.

Lemma run_functors_held rest ev h q w : settled rest ev h w → Forall own_task q → safe (settled rest ev h) (run_functors tid q w).
Proof.
  intros Hs Hq. revert w Hs. induction Hq as [|t q Ht _ IH]; intros w (ph & Hph & Hh); cbn [run_functors]; [by exists ph|].
  apply (safe_bind (settled rest ev h)); [|intros w1 _ H1; by apply IH].
  eapply safe_mono; [by eapply run_task_held|]. intros w1 _ H1. by exists ph.
Qed.

(** [poll] stores the events reported for the connection's channel, which is then registered. *)
Lemma poll_held rest r ev w : settled rest ev (false, false) w → answer_ok r w →
  ∃ l active rest' ev', poll r (lp w) [] = Ok (l, active) ∧ NoDup active ∧
    settled rest' ev' (false, true) (with_lp (begin_events active l) w) ∧ (p ∈ active → up w ∧ hangup_ok ev') ∧
    inv l ∧ ∃ c c', chan w = Some c ∧ heap l !! channel_ w = Some c' ∧ events_ c' = events_ c.
Proof.
  intros (ph & Hph & Hh) [Hr Hhup]. destruct (h_chan Hh) as (c & Hc & Hl & Hf & Hd & Hhd & Hs).
  destruct (poll_ok r (lp w) (h_inv Hh) Hr) as (l & active & Hp & Hnd & _ & Hil & Hid & Htid & _ & Hout & Hin).
  exists l, active, (delete p (heap l)). unfold chan in Hc. rewrite (h_addr Hh) in Hc, Hhup |- *.
  assert (∃ ev' c', heap l !! p = Some c' ∧ channel_ok fd i ev' false ph w c' ∧ events_ c' = events_ c ∧
                 (p ∈ active → up w ∧ hangup_ok ev')) as (ev' & c' & Hc' & Hok & He & Hact).
  { destruct (decide (p ∈ active)) as [Hpa|Hpa].
    - destruct (Hin p Hpa) as (ev' & c' & Hrep & Hc1 & Hadd & Hc2). assert (c' = c) as -> by congruence.
      assert (ph = Live) as -> by (destruct ph; [done | destruct Hs as (_ & Hx & _); rewrite Hadd in Hx; discriminate Hx..]).
      exists ev', (set_revents ev' c). split; [done|]. split; [|split; [done|]].
      + unfold channel_ok, dispatch_fields in *. cbn. injection Hd as _ -> -> -> ->. done.
      + intros _. split; [apply Hs | by apply Hhup].
    - exists ev, c. rewrite Hout by done. split_and!; done. }
  exists ev'. split; [done|]. split; [done|]. split; [|split; [done|split; [done|by exists c, c'; unfold chan; rewrite (h_addr Hh)]]].
  exists ph. split; [done|]. pose proof Hh as []. split; cbn; try done; try congruence; [by apply (inv_flags l)|].
  exists c'. unfold chan. cbn. rewrite (h_addr Hh). done.
Qed.

Lemma turn_held rest r ev w : settled rest ev (false, false) w → answer_ok r w →
  safe (λ w', ∃ rest' ev', settled rest' ev' (false, false) w') (turn tid r w).
Proof.
  intros Hs Hr. destruct (poll_held rest r ev w Hs Hr) as (l & active & rest' & ev' & Hp & Hnd & Hs' & Hact & _).
  unfold turn. rewrite Hp. cbn [mbind outcome_bind]. eapply safe_bind; [by apply (handle_active_held rest' ev')|].
  intros w1 _ (ph & Hph & H1). set (w2 := with_lp (end_events (lp w1)) w1).
  assert (held rest' ev' 0 ph (told_of cb ph) (false, false) w2) as H2
    by (by apply (held_loop m tid p fd i rest' kConnected _ _ _ _ (false, true) false _ _ H1)).
  eapply safe_mono; [apply (run_functors_held rest' ev' (false, false)); [|apply (h_queue H2)]|].
  - exists ph. split; [done|]. eapply held_frame; [exact H2 | try done; try apply H2 ..]. by left.
  - intros w' _ H'. by exists rest', ev'.
Qed.

(** ** The stream *)

Lemma handling_cinv b w : cinv w → cinv (handling b w).
Proof.
  intros Hc. pose proof Hc as [Hi [c Hx] _ _ _]. unfold handling. rewrite (modify_eq _ _ _ c Hx).
  eapply (cinv_lp _ c (set_handling b c)); [done | by eapply inv_touch | done | apply lookup_insert_eq | done].
Qed.

Lemma run_callback_cinv k w w' : cinv w → run_callback tid k w = Ok w' → cinv w'.
Proof.
  intros Hi Hx. destruct k; cbn [run_callback] in Hx.
  - by eapply handle_close_cinv.
  - by injection Hx as <-.
  - by eapply handle_read_cinv.
  - by eapply handle_write_cinv.
Qed.

Lemma channel_event_cinv w w' : cinv w → channel_event tid w = Ok w' → cinv w'.
Proof.
  intros Hi Hx. unfold channel_event in Hx. destruct (deref _ _); [bstep Hx | done].
  assert (∀ v, cinv v → handle_event_with_guard look handling (run_callback tid) v = Ok w' → cinv w') as Hg.
  { intros v Hv Hgd. unfold handle_event_with_guard in Hgd. apply (handling_cinv true) in Hv. set (v0 := handling true v) in *.
    assert (∀ (b s : bool) k u u', cinv u → (if b then if s then run_callback tid k u else mret u else mret u) = Ok u' → cinv u') as Hf.
    { intros [] [] k u u' Hu Hk; [by eapply run_callback_cinv | by injection Hk as <-..]. }
    do 4 (match type of Hgd with mbind _ ?m = _ => destruct m as [?|] eqn:?; [bstep Hgd | done] end).
    injection Hgd as <-. apply handling_cinv. eauto. }
  unfold handle_event in Hx. destruct (tied_ _); by apply (Hg w).
Qed.

Lemma handle_active_cinv active w w' : cinv w → handle_active tid active w = Ok w' → cinv w'.
Proof.
  revert w. induction active as [|q active IH]; intros w Hi Hx; cbn [handle_active] in Hx; [by injection Hx as <-|].
  assert (cinv (with_lp (set_current (Some q) (lp w)) w)) as H1 by (by apply cinv_flags).
  destruct (decide _); [|by eapply IH].
  destruct (channel_event _ _) as [w1|] eqn:E; [bstep Hx | done]. apply (IH w1); [|done]. by eapply channel_event_cinv.
Qed.

Lemma run_functors_cinv q w w' : cinv w → run_functors tid q w = Ok w' → cinv w'.
Proof.
  revert w. induction q as [|t q IH]; intros w Hi Hx; cbn [run_functors] in Hx; [by injection Hx as <-|].
  destruct (run_task _ _ _ _ _) as [w1|] eqn:E; [bstep Hx | done]. apply (IH w1); [|done]. by eapply run_task_cinv.
Qed.

Lemma turn_cinv rest r ev w w' : settled rest ev (false, false) w → answer_ok r w → cinv w → turn tid r w = Ok w' → cinv w'.
Proof.
  intros Hs Hr Hi Hx. destruct (poll_held rest r ev w Hs Hr) as (l & active & rest' & ev' & Hp & _ & _ & _ & Hil & c & c' & Hc & Hc' & He).
  unfold turn in Hx. rewrite Hp in Hx. cbn [mbind outcome_bind] in Hx.
  destruct (handle_active _ _ _) as [w1|] eqn:Ha; [bstep Hx | done]. eapply run_functors_cinv; [|exact Hx].
  apply (cinv_frame (with_lp (end_events (lp w1)) w1)); try done. apply cinv_flags; try done.
  eapply handle_active_cinv; [|exact Ha].
  eapply cinv_lp; [done | by eapply inv_flags | done..].
Qed.

Lemma turns_safe rs rest ev w : settled rest ev (false, false) w → cinv w → answers_ok tid rs w →
  safe (λ w', cinv w' ∧ ∃ rest' ev', settled rest' ev' (false, false) w') (turns tid rs w).
Proof.
  revert rest ev w. induction rs as [|r rs IH]; intros rest ev w Hs Hi Hr; cbn [turns]; [split; [done | by exists rest, ev]|].
  destruct Hr as [Hr Hrs]. eapply safe_bind; [by eapply turn_held|]. intros w1 Hw1 (rest1 & ev1 & H1).
  apply (IH rest1 ev1); [done | exact (turn_cinv rest r ev w w1 Hs Hr Hi Hw1) | by apply Hrs].
Qed.

(** ** From the constructor to the destructor *)

(** What is left when the server lets go of a closed connection. *)
Lemma released rest ev w : held rest ev 0 Closed (close_callback_ cb) (false, false) w →
  ∃ w2 w3, connect_destoryed kwrite cb tid w = Ok w2 ∧ dtor tid w2 = Ok w3 ∧
    registered (kernel (lp w3)) fd = None ∧ heap (lp w3) !! p = None ∧ inv (lp w3).
Proof.
  intros Hh. destruct (connect_destoryed_held kwrite cb _ _ _ _ _ _ _ _ _ _ _ _ Hh) as (l' & H1 & Hh' & Hr).
  destruct (dtor_held _ _ _ _ _ _ _ _ _ _ _ Hh') as (l2 & H2 & Hi2 & Hrest & Hk & _). cbn in Hk.
  eexists _, _. split; [exact H1|]. split; [exact H2|]. cbn. rewrite Hk. split; [done|]. split; [|done].
  rewrite Hrest, <- (h_rest Hh). apply lookup_delete_eq.
Qed.


End Turn.

(** ** Witness: a server that greets, echoes five bytes at most, and is hung up on *)

Definition demo_read (t : nat) (room : Z) : Buffer.readv_result :=
  if bool_decide (t = 1%nat) && (3 <=? room) then Buffer.ReadvData [x30; x31; x32] else Buffer.ReadvData [].

Definition echo : callbacks :=
  mkCallbacks (Some (λ up : bool, if up then [Send 1 2] else [Shutdown]))
    (Some (λ bs : list byte, [Send 1 (Z.min 5 (zlen bs)); Consume (zlen bs)])) (Some []) true.

Definition demo_turns : list wait_result :=
  [WaitEvents [(EPOLLIN, 2%nat)]; WaitErr 4; WaitEvents [(EPOLLOUT, 2%nat)]; WaitEvents [(EPOLLIN, 1%nat); (Z.lor EPOLLIN EPOLLHUP, 2%nat)]].

Definition value {A} (d : A) (o : outcome A) : A := match o with Ok a => a | Fault _ => d end.

Definition demo_up : conn (gmap Z epoll_event) :=
  value (conn_of []) (connect_established demo_write echo 7 (conn_of [])).

Definition demo_after (k : nat) : conn (gmap Z epoll_event) :=
  value (conn_of []) (turns demo_write demo_read echo 7 (take k demo_turns) demo_up).

Lemma demo_read_ok : ∀ t room data, 0 <= room → demo_read t room = Buffer.ReadvData data →
  zlen data <= room ∧ zlen data < Buffer.kExtraBuf.
Proof.
  intros t room data. unfold demo_read, Buffer.kExtraBuf. destruct (_ && _) eqn:E; intros Hr [= <-]; unbool; unfold zlen; cbn [length]; lia.
Qed.

Lemma echo_ok : callbacks_ok echo demo_mem.
Proof.
  split.
  - intros f [] [= <-]; (split; [|reflexivity]); (apply Forall_singleton); [|exact I].
    eexists. split; [reflexivity|]. vm_compute. split; [split|]; discriminate.
  - eexists. split; [reflexivity|]. intros bs. pose proof (zlen_nonneg bs). split; [|cbn; lia].
    apply Forall_cons. split; [|apply Forall_singleton; cbn; lia].
    eexists. split; [reflexivity|]. change (zlen [x41; x42; x43; x44; x45]) with 5. unfold kMaxObject. lia.
  - intros acts [= <-]. split; [constructor | reflexivity].
Qed.

Lemma demo_step k r : value (conn_of []) (turn demo_write demo_read echo 7 r (demo_after k)) = demo_after (S k) →
  ∀ w', turn demo_write demo_read echo 7 r (demo_after k) = Ok w' → w' = demo_after (S k).
Proof. intros Hv w' Hw'. rewrite Hw' in Hv. exact Hv. Qed.

Lemma answer_ok_events (evs : list epoll_event) (fds : list Z) w :
  Forall2 (λ (e : epoll_event) fd, is_Some (registered (kernel (lp w)) fd) ∧ snd <$> registered (kernel (lp w)) fd = Some e.2) evs fds →
  NoDup (evs.*2) → zlen evs <= events_size (lp w) < 2 ^ 63 → Forall (λ e : epoll_event, hangup_ok e.1) evs →
  answer_ok (K := gmap Z epoll_event) (WaitEvents evs) w.
Proof.
  intros Hreg Hnd Hz Hhup. split; [by eapply admissible_events|].
  intros ev Hin. rewrite Forall_forall in Hhup. exact (Hhup _ Hin).
Qed.

Ltac check_answer fds :=
  solve [ apply (answer_ok_events _ fds);
    [ repeat (constructor; [split; vm_compute; [eexists|]; reflexivity|]); constructor
    | apply (bool_decide_unpack _); vm_compute; reflexivity
    | split; vm_compute; [discriminate | reflexivity]
    | repeat (constructor; [reflexivity|]); constructor ] ].

Lemma demo_answers : answers_ok demo_write demo_read echo 7 demo_turns demo_up.
Proof.
  change demo_up with (demo_after 0).
  repeat match goal with
  | |- answers_ok _ _ _ _ _ (demo_after ?k) =>
      split; [|intros w' Hw'; apply (demo_step k) in Hw' as ->; [|vm_compute; reflexivity]]
  end; try exact I.
  all: first [ solve [split; [exact I | intros ev []]] | check_answer [9] | check_answer [5; 9] ].
Qed.

End LoopTurn.
