(* ===== verification/Log.v ===== *)
(** * Levels, appenders, the synchronous logger and the registry
    (clia/log/trait.h, src/log/trait.cc, sync_logger.cc, stdout_appender.cc, log.cc)

    [trait::Appender] is a class here as it is there: what a logger needs of an appender is
    that [append] puts the bytes behind all earlier ones and that [flush] changes nothing of
    that.  The loggers are proved against this interface. *)

From S2P Require Import Prelude.

(** ** Levels *)

Inductive Level := kTrace | kDebug | kInfo | kWarn | kError | kFatal.

#[global] Instance Level_eq_dec : EqDecision Level.
Proof. solve_decision. Defined.

(** The value of the enumerator. *)
Definition level_num (l : Level) : Z :=
  match l with kTrace => 0 | kDebug => 1 | kInfo => 2 | kWarn => 3 | kError => 4 | kFatal => 5 end.

Definition level_lt (l l' : Level) : bool := level_num l <? level_num l'.

Definition level_to_string (l : Level) : list byte :=
  match l with
  | kTrace => chars "TRACE"
  | kDebug => chars "DEBUG"
  | kInfo => chars "INFO"
  | kWarn => chars "WARN"
  | kError => chars "ERROR"
  | kFatal => chars "FATAL"
  end.

(** ** [trait::Appender] *)

(** [view] is everything appended so far, wherever it is by now.  A message is an object in
    memory, so its size is bounded. *)
Class Appender (A : Type) := {
  append : list byte → A → A;
  flush : A → A;
  view : A → list byte;
  view_append bs a : zlen bs <= kMaxObject → view (append bs a) = view a ++ bs;
  view_flush a : view (flush a) = view a
}.

(** [StdoutAppender] over the standard stream: what has been written out and what its
    buffer still holds. *)
Record stdout_appender := mkStdout { written_out : list byte; held : list byte }.

Definition stdout_append (buf : list byte) (a : stdout_appender) : stdout_appender :=
  mkStdout (written_out a) (held a ++ buf).

Definition stdout_flush (a : stdout_appender) : stdout_appender :=
  mkStdout (written_out a ++ held a) [].

#[global, refine] Instance StdoutAppender : Appender stdout_appender := {|
  append := stdout_append;
  flush := stdout_flush;
  view a := written_out a ++ held a
|}.
Proof.
  - intros bs a _. cbn. by rewrite (assoc_L (++)).
  - intros a. cbn. by rewrite app_nil_r.
Defined.

(** ** [SyncLogger] *)

Module SyncLogger.
Section SyncLogger.
Context {A : Type} `{Appender A}.

Record t := mk { level_ : Level; appender_ : A }.

(** [None] is the null pointer. *)
Definition log (level : Level) (message : option (list byte)) (l : t) : t :=
  match message with
  | None => l
  | Some m =>
      if level_lt level (level_ l) || (zlen m =? 0) then l
      else mk (level_ l) (flush (append m (appender_ l)))
  end.
End SyncLogger.
Arguments t : clear implicits.
End SyncLogger.

(** ** [LoggerManger] *)

Module LoggerManger.
Section LoggerManger.
(** Shared pointers to loggers; a null pointer is [None]. *)
Context {L : Type}.

Record t := mk { default_logger_ : option L; loggers_ : gmap string (option L) }.

Definition init : t := mk None ∅.

Definition logger (name : string) (m : t) : option L :=
  match loggers_ m !! name with Some l => l | None => default_logger_ m end.

Definition default_logger (m : t) : option L := default_logger_ m.

Definition set_default (l : option L) (m : t) : t :=
  match default_logger_ m with None => mk l (loggers_ m) | Some _ => m end.

Definition register_logger (name : string) (l : option L) (m : t) : t :=
  mk (default_logger_ m) (<[name := l]> (loggers_ m)).

(** Calls of a client. *)
Inductive op := SetDefault (l : L) | Register (name : string) (l : L).

Definition exec (o : op) (m : t) : t :=
  match o with
  | SetDefault l => set_default (Some l) m
  | Register name l => register_logger name (Some l) m
  end.

(** The first default and the last registration of a name, in a sequence of calls. *)
Definition first_default (os : list op) : option L :=
  head (omap (λ o, match o with SetDefault l => Some l | _ => None end) os).

Definition last_registered (name : string) (os : list op) : option L :=
  last (omap (λ o, match o with Register n l => if decide (n = name) then Some l else None | _ => None end) os).

Lemma default_of_run os m :
  default_logger_ (foldl (flip exec) m os) =
  match default_logger_ m with Some l => Some l | None => first_default os end.
Proof.
  revert m. induction os as [|o os IH]; intros m; cbn [foldl]; [by destruct (default_logger_ m)|].
  unfold flip at 2. rewrite IH. destruct o as [l|name l]; cbn; [|done].
  unfold set_default. by destruct (default_logger_ m) eqn:E; cbn; rewrite ?E.
Qed.

Lemma registered_of_run name os m :
  loggers_ (foldl (flip exec) m os) !! name =
  match last_registered name os with Some l => Some (Some l) | None => loggers_ m !! name end.
Proof.
  revert m. induction os as [|o os IH] using rev_ind; intros m; [done|].
  rewrite foldl_app. cbn [foldl]. unfold flip at 1. unfold last_registered. rewrite omap_app, last_app.
  destruct o as [l|n l]; cbn.
  - unfold set_default. rewrite <- IH. by destruct (default_logger_ _).
  - destruct (decide (n = name)) as [->|Hne]; cbn.
    + by rewrite lookup_insert_eq.
    + rewrite lookup_insert_ne by done. apply IH.
Qed.
End LoggerManger.
Arguments t : clear implicits.
Arguments op : clear implicits.
End LoggerManger.

(** The registry after any sequence of [set_default] and [register_logger] calls: a name
    gets the logger registered last under it, and a name without one the first default that
    was ever set; later defaults are ignored. *)
Theorem registry_lookup {L} (os : list (LoggerManger.op L)) (name : string) :
  LoggerManger.logger name (foldl (flip LoggerManger.exec) LoggerManger.init os)
  = match LoggerManger.last_registered name os with
    | Some l => Some l
    | None => LoggerManger.first_default os
    end.
Proof.
  unfold LoggerManger.logger. rewrite LoggerManger.registered_of_run, LoggerManger.default_of_run. cbn.
  by destruct (LoggerManger.last_registered name os).
Qed.

(** A synchronous logger hands to its appender exactly the non-empty messages at or above
    its level, in order and each once, over any appender that keeps to the interface. *)
Theorem sync_logger_appends {A} `{Appender A} (ms : list (Level * option (list byte))) (l : SyncLogger.t A) :
  Forall (λ m : Level * option (list byte), zlen (default [] m.2) <= kMaxObject) ms →
  view (SyncLogger.appender_ (foldl (λ l m, SyncLogger.log m.1 m.2 l) l ms))
  = view (SyncLogger.appender_ l)
    ++ concat (omap (λ m : Level * option (list byte),
         if level_lt m.1 (SyncLogger.level_ l) then None else m.2) ms).
Proof.
  intros Hms. revert l. induction Hms as [|[lv m] ms Hm _ IH]; intros l; cbn [foldl]; [by rewrite app_nil_r|].
  rewrite IH. cbn. destruct m as [m|]; cbn; [|by destruct (level_lt lv _)].
  destruct (level_lt lv (SyncLogger.level_ l)); cbn; [done|].
  destruct (Z.eqb_spec (zlen m) 0) as [Hz|]; cbn.
  - by apply zlen_nil_inv in Hz as ->.
  - by rewrite view_flush, view_append, <- (assoc_L (++)).
Qed.

Lemma sync_logger_appends_witness :
  let l := SyncLogger.mk kInfo (mkStdout [] []) in
  let ms := [(kWarn, Some (chars "a")); (kDebug, Some (chars "b")); (kInfo, None); (kFatal, Some (chars "c"))] in
  view (SyncLogger.appender_ (foldl (λ l m, SyncLogger.log m.1 m.2 l) l ms)) = chars "ac".
Proof.
  intros l ms. rewrite (sync_logger_appends ms l); [reflexivity|].
  by apply (bool_decide_unpack _).
Defined.
