(* ===== verification/AsyncLog.v ===== *)
(** * [log::AsyncLogger] (clia/log/async_logger.h, src/log/async_logger.cc)

    Double buffering between the threads that log and one background thread that feeds the
    appender.  A call of [log] is two steps, its unlocked guard and its critical section; the
    background thread is a machine with a program counter, its critical section being one
    step.  The size of a buffer, [kBufferSize], is a parameter, and so is the text of the
    notice about dropped messages; the appender is any instance of the interface of the file
    Log.

    The proofs show that no assertion of either side ever fails, that every message of
    admissible length reaches the appender exactly once and in order unless more than 25
    buffers pile up, what is kept then, and that the background thread does not exit before
    everything is written; and that a message of exactly [kBufferSize] bytes stops the
    program. *)

From S2P Require Import Prelude FixedBuf Log.

Module AsyncLogger.

Abbreviation buf := (FixedBuffer.t byte).

(** Where the background thread is: at the [while] statement, behind the assertions at the
    lock, behind the critical section with the buffers it took, and at its end.  The spare
    buffers [new_buffer1] and [new_buffer2] are local; [None] is a null pointer. *)
Inductive pc :=
| AtWhile (new_buffer1 new_buffer2 : option buf)
| AtLock (new_buffer1 new_buffer2 : option buf)
| Writing (write_buffers : list buf) (new_buffer1 new_buffer2 : option buf)
| Exited.

(** [callers] are the messages of calls between their guard and their critical section;
    [logged] is the history of bytes taken, [dropped] tells whether buffers were dropped. *)
Record state (A : Type) := mkState {
  level_ : Level;
  current_buffer_ : buf;
  next_buffer_ : option buf;
  buffers_ : list buf;
  running_ : bool;
  thread_ : pc;
  appender_ : A;
  callers : list (list byte);
  logged : list byte;
  dropped : bool
}.

Arguments mkState {A}.
Arguments level_ {A}.
Arguments current_buffer_ {A}.
Arguments next_buffer_ {A}.
Arguments buffers_ {A}.
Arguments running_ {A}.
Arguments thread_ {A}.
Arguments appender_ {A}.
Arguments callers {A}.
Arguments logged {A}.
Arguments dropped {A}.

Section AsyncLogger.
Context {A : Type} `{Appender A}.

(** [kBufferSize], and the notice for a number of buffers. *)
Variable kBufferSize : Z.
Variable notice : Z → list byte.
Implicit Types s : state A.

Definition new_buffer : buf := FixedBuffer.ctor (replicate (Z.to_nat kBufferSize) x00).

(** [AsyncLogger::AsyncLogger] and the first lines of the thread it starts. *)
Definition init (level : Level) (a : A) : state A :=
  mkState level new_buffer (Some new_buffer) [] true (AtWhile (Some new_buffer) (Some new_buffer)) a [] [] false.

(** The guard of [log]; [None] is a null message. *)
Definition log_guard (level : Level) (message : option (list byte)) s : bool :=
  match message with
  | None => false
  | Some m =>
      negb (level_lt level (level_ s) || (zlen m =? 0) || (kBufferSize <? zlen m) || negb (running_ s))
  end.

Definition with_buffers (current : buf) (next : option buf) (bufs : list buf) (l : list byte) s : state A :=
  mkState (level_ s) current next bufs (running_ s) (thread_ s) (appender_ s) (callers s) l (dropped s).

(** The critical section of [log]. *)
Definition log_locked (m : list byte) s : outcome (state A) :=
  if zlen m <? u64 (FixedBuffer.avail kBufferSize (current_buffer_ s)) then
    b ← FixedBuffer.append kBufferSize true m (current_buffer_ s);
    mret (with_buffers b (next_buffer_ s) (buffers_ s) (logged s ++ m) s)
  else
    let bufs := buffers_ s ++ [current_buffer_ s] in
    let fresh := match next_buffer_ s with Some b => b | None => new_buffer end in
    b ← FixedBuffer.append kBufferSize true m fresh;
    mret (with_buffers b None bufs (logged s ++ m) s).

Definition set_thread (t : pc) (a : A) (d : bool) s : state A :=
  mkState (level_ s) (current_buffer_ s) (next_buffer_ s) (buffers_ s) (running_ s) t a (callers s) (logged s) d.

(** [assert(buffer && buffer->size() == 0);] *)
Definition assert_empty (b : option buf) : outcome unit :=
  cassert (match b with Some b => FixedBuffer.size b =? 0 | None => false end).

(** The loop condition, with the assertions that follow it or the end of the thread. *)
Definition at_while (nb1 nb2 : option buf) s : outcome (state A) :=
  if running_ s || negb (FixedBuffer.size (current_buffer_ s) =? 0) then
    _ ← assert_empty nb1;
    _ ← assert_empty nb2;
    mret (set_thread (AtLock nb1 nb2) (appender_ s) (dropped s) s)
  else mret (set_thread Exited (flush (appender_ s)) (dropped s) s).

(** The critical section of the background thread, after the wait. *)
Definition at_lock (nb1 nb2 : option buf) s : outcome (state A) :=
  match nb1 with
  | None => Fault OutOfBounds
  | Some b1 =>
      let bufs := buffers_ s ++ [current_buffer_ s] in
      let '(next, nb2) := match next_buffer_ s with Some b => (Some b, nb2) | None => (nb2, None) end in
      mret (mkState (level_ s) b1 next [] (running_ s) (Writing bufs None nb2) (appender_ s)
              (callers s) (logged s) (dropped s))
  end.

(** Appending all buffers that are not empty. *)
Fixpoint append_all (bufs : list buf) (a : A) : outcome A :=
  match bufs with
  | [] => mret a
  | b :: bufs =>
      if FixedBuffer.size b <=? 0 then append_all bufs a
      else data ← read_range 0 (FixedBuffer.size b) (FixedBuffer.data_ b);
           append_all bufs (append data a)
  end.

(** [if (!spare) { spare = std::move(write_buffers.back()); ... spare->reset(); }] *)
Definition refill (spare : option buf) (bufs : list buf) : outcome (option buf * list buf) :=
  match spare with
  | Some b => mret (Some b, bufs)
  | None =>
      match last bufs with
      | None => Fault AssertFailed
      | Some b => mret (Some (FixedBuffer.reset b), removelast bufs)
      end
  end.

(** The rest of the loop body, outside the lock. *)
Definition writing (bufs : list buf) (nb1 nb2 : option buf) s : outcome (state A) :=
  _ ← cassert (negb (zlen bufs =? 0));
  let many := 25 <? zlen bufs in
  let a := if many then append (notice (zlen bufs - 2)) (appender_ s) else appender_ s in
  let bufs := if many then take 2 bufs else bufs in
  a ← append_all bufs a;
  '(nb1, bufs) ← refill nb1 bufs;
  '(nb2, bufs) ← refill nb2 bufs;
  mret (set_thread (AtWhile nb1 nb2) (flush a) (many || dropped s) s).

(** A step: a call of [log] passes its guard, a caller runs its critical section, the
    background thread moves, the destructor clears [running_].  A step of somebody who is
    not there changes nothing. *)
Inductive label :=
| Log (level : Level) (message : option (list byte))
| Commit (i : nat)
| Sync
| Stop.

Definition exec (l : label) s : outcome (state A) :=
  match l with
  | Log level message =>
      if log_guard level message s then
        mret (mkState (level_ s) (current_buffer_ s) (next_buffer_ s) (buffers_ s) (running_ s) (thread_ s)
                (appender_ s) (callers s ++ option_list message) (logged s) (dropped s))
      else mret s
  | Commit i =>
      match callers s !! i with
      | None => mret s
      | Some m =>
          s ← log_locked m s;
          mret (mkState (level_ s) (current_buffer_ s) (next_buffer_ s) (buffers_ s) (running_ s) (thread_ s)
                  (appender_ s) (delete i (callers s)) (logged s) (dropped s))
      end
  | Sync =>
      match thread_ s with
      | AtWhile nb1 nb2 => at_while nb1 nb2 s
      | AtLock nb1 nb2 => at_lock nb1 nb2 s
      | Writing bufs nb1 nb2 => writing bufs nb1 nb2 s
      | Exited => mret s
      end
  | Stop =>
      mret (mkState (level_ s) (current_buffer_ s) (next_buffer_ s) (buffers_ s) false (thread_ s)
              (appender_ s) (callers s) (logged s) (dropped s))
  end.

Fixpoint run (ls : list label) s : outcome (state A) :=
  match ls with
  | [] => mret s
  | l :: ls => s ← exec l s; run ls s
  end.

(** ** The invariant *)

Hypothesis size_ok : 0 < kBufferSize < 2 ^ 31.
(** The notice is printed into an array of 256 characters. *)
Hypothesis notice_fits : ∀ n, zlen (notice n) < 256.

Definition good (b : buf) : Prop := FixedBuffer.wf kBufferSize b.

Definition spare (b : option buf) : Prop :=
  ∃ b', b = Some b' ∧ good b' ∧ FixedBuffer.contents b' = [].

Definition text (bufs : list buf) : list byte := concat (FixedBuffer.contents <$> bufs).

#[local] Arguments text : simpl never.

(** The bytes the background thread has taken but not handed to the appender yet. *)
Definition in_hand s : list byte :=
  match thread_ s with Writing bufs _ _ => text bufs | _ => [] end.

Definition thread_ok (t : pc) : Prop :=
  match t with
  | AtWhile nb1 nb2 | AtLock nb1 nb2 => spare nb1 ∧ spare nb2
  | Writing bufs nb1 nb2 =>
      Forall good bufs ∧ bufs ≠ [] ∧ nb1 = None ∧
      ((nb2 = None ∧ (2 <= length bufs)%nat) ∨ spare nb2)
  | Exited => True
  end.

Definition msg_ok (m : list byte) : Prop := 0 < zlen m < kBufferSize.

Record inv (a0 : list byte) s : Prop := {
  inv_current : good (current_buffer_ s);
  inv_next : next_buffer_ s = None ∧ buffers_ s ≠ [] ∨ spare (next_buffer_ s);
  inv_buffers : Forall good (buffers_ s);
  inv_full : buffers_ s ≠ [] → FixedBuffer.contents (current_buffer_ s) ≠ [];
  inv_thread : thread_ok (thread_ s);
  inv_callers : Forall msg_ok (callers s);
  inv_text : dropped s = false →
    view (appender_ s) ++ in_hand s ++ text (buffers_ s) ++ FixedBuffer.contents (current_buffer_ s) = a0 ++ logged s
}.

Lemma new_buffer_ok : good new_buffer ∧ FixedBuffer.contents new_buffer = [].
Proof.
  split; [|done]. apply FixedBuffer.fixed_ctor_wf; [done|]. rewrite zlen_replicate. lia.
Qed.

Lemma spare_new : spare (Some new_buffer).
Proof. destruct new_buffer_ok. by exists new_buffer. Qed.

Lemma text_app b1 b2 : text (b1 ++ b2) = text b1 ++ text b2.
Proof. unfold text. by rewrite fmap_app, concat_app. Qed.

Lemma text_one b : text [b] = FixedBuffer.contents b.
Proof. unfold text. cbn. by rewrite app_nil_r. Qed.

Lemma async_init_inv level a : inv (view a) (init level a).
Proof.
  destruct new_buffer_ok as [Hg Hc]. split; cbn; try done; [right; apply spare_new | split; apply spare_new].
Qed.

(** An append that fits. *)
Lemma buf_append m b : good b → zlen (FixedBuffer.contents b) + zlen m < kBufferSize →
  ∃ b', FixedBuffer.append kBufferSize true m b = Ok b' ∧ good b' ∧
        FixedBuffer.contents b' = FixedBuffer.contents b ++ m.
Proof.
  intros Hg Hlt. pose proof (FixedBuffer.append_agrees kBufferSize true m b Hg) as Ha. cbn in Ha.
  revert Ha. decide_test (zlen (FixedBuffer.contents b) + zlen m <? kBufferSize).
  destruct (FixedBuffer.append kBufferSize true m b) as [b'|]; [|done]. intros [Hg' Hc].
  exists b'. by injection Hc as <-.
Qed.

Lemma size_contents b : good b → FixedBuffer.size b = zlen (FixedBuffer.contents b).
Proof. intros Hg. by rewrite (FixedBuffer.fixed_len kBufferSize). Qed.

(** What the critical section of [log] changes. *)
Lemma log_locked_ok m s a0 : inv a0 s → msg_ok m →
  ∃ s', log_locked m s = Ok s' ∧ inv a0 s' ∧ callers s' = callers s ∧ logged s' = logged s ++ m ∧
        thread_ s' = thread_ s ∧ running_ s' = running_ s.
Proof.
  intros [Hc Hn Hb Hf Ht Hca Htx] [Hm0 Hm]. unfold log_locked.
  pose proof (size_contents _ Hc) as Hsz. pose proof (zlen_nonneg (FixedBuffer.contents (current_buffer_ s))).
  assert (m ≠ []) as Hne by (by intros ->).
  assert (u64 (FixedBuffer.avail kBufferSize (current_buffer_ s))
          = kBufferSize - zlen (FixedBuffer.contents (current_buffer_ s))) as ->.
  { rewrite <- Hsz. unfold FixedBuffer.avail, FixedBuffer.size in *. apply u64_small.
    destruct Hc as (_ & ? & _). lia. }
  destruct (Z.ltb_spec (zlen m) (kBufferSize - zlen (FixedBuffer.contents (current_buffer_ s)))).
  - destruct (buf_append m (current_buffer_ s)) as (b & -> & Hg & Hcb); [done | lia |]. cstep.
    eexists. split; [reflexivity|]. split; [|done]. split; cbn; try done.
    + intros _. rewrite Hcb. by intros [_ ?]%app_eq_nil.
    + intros Hd. rewrite Hcb, (assoc_L (++) a0 (logged s) m), <- (Htx Hd).
      unfold in_hand. cbn. by rewrite !(assoc_L (++)).
  - set (fresh := match next_buffer_ s with Some b => b | None => new_buffer end).
    assert (good fresh ∧ FixedBuffer.contents fresh = []) as [Hgf Hcf].
    { unfold fresh. destruct Hn as [[-> _]|(b & -> & ? & ?)]; [apply new_buffer_ok | done]. }
    destruct (buf_append m fresh) as (b & -> & Hg & Hcb); [done | rewrite Hcf, zlen_nil; lia |]. cstep.
    rewrite Hcf in Hcb. cbn in Hcb. eexists. split; [reflexivity|]. split; [|done]. split; cbn; try done.
    + left. split; [done|]. by intros [_ ?]%app_eq_nil.
    + apply Forall_app. split; [done | by apply Forall_singleton].
    + intros _. by rewrite Hcb.
    + intros Hd. rewrite Hcb, text_app, text_one, (assoc_L (++) a0 (logged s) m), <- (Htx Hd).
      unfold in_hand. cbn. by rewrite !(assoc_L (++)).
Qed.

Lemma text_empty bufs a : Forall good bufs → ∃ a', append_all bufs a = Ok a' ∧ view a' = view a ++ text bufs.
Proof.
  intros Hg. revert a. induction Hg as [|b bufs Hb _ IH]; intros a; cbn [append_all].
  - exists a. by rewrite app_nil_r.
  - pose proof (size_contents b Hb) as Hs. pose proof (zlen_nonneg (FixedBuffer.contents b)).
    change (text (b :: bufs)) with (FixedBuffer.contents b ++ text bufs).
    destruct (Z.leb_spec (FixedBuffer.size b) 0).
    + destruct (IH a) as (a' & -> & Hv). exists a'. split; [done|].
      rewrite Hv. replace (FixedBuffer.contents b) with (@nil byte); [done|]. symmetry. apply zlen_nil_inv. lia.
    + destruct Hb as (Hl & Hcu & _). unfold FixedBuffer.size in *. rewrite read_range_ok by lia. cstep.
      destruct (IH (append (slice 0 (FixedBuffer.cur_ b) (FixedBuffer.data_ b)) a)) as (a' & -> & Hv).
      exists a'. split; [done|]. rewrite Hv, view_append, <- (assoc_L (++)); [done|].
      rewrite zlen_slice by lia. unfold kMaxObject. lia.
Qed.

Lemma refill_null bufs : Forall good bufs → bufs ≠ [] →
  ∃ b, refill None bufs = Ok (Some b, removelast bufs) ∧ spare (Some b).
Proof.
  intros Hg Hne. cbn. destruct (last bufs) as [b|] eqn:El; [|by apply last_None in El].
  exists (FixedBuffer.reset b). split; [done|]. exists (FixedBuffer.reset b). split; [done|].
  apply FixedBuffer.fixed_reset_ok. apply last_Some in El as [l ->]. apply Forall_app in Hg as [_ Hg].
  by apply Forall_cons in Hg as [? _].
Qed.

Lemma removelast_len {X} (l : list X) : length (removelast l) = pred (length l).
Proof. rewrite removelast_firstn_len. rewrite length_take. lia. Qed.

Lemma removelast_forall {X} (P : X → Prop) l : Forall P l → Forall P (removelast l).
Proof. rewrite removelast_firstn_len. intros HP. by apply Forall_take. Qed.

(** The rest of the loop body: which text goes out, and fresh spare buffers. *)
Lemma writing_ok bufs nb2 s : thread_ok (Writing bufs None nb2) →
  ∃ a' b1 b2, writing bufs None nb2 s
         = Ok (set_thread (AtWhile (Some b1) (Some b2)) a' ((25 <? zlen bufs) || dropped s) s) ∧
    spare (Some b1) ∧ spare (Some b2) ∧
    view a' = view (appender_ s) ++ (if 25 <? zlen bufs then notice (zlen bufs - 2) ++ text (take 2 bufs) else text bufs).
Proof.
  intros (Hg & Hne & _ & Hn2). unfold writing. pose proof (zlen_nonneg bufs) as Hz.
  replace (zlen bufs =? 0) with false; cycle 1.
  { symmetry. apply Z.eqb_neq. intros Hx. by apply zlen_nil_inv in Hx. }
  cstep. set (many := 25 <? zlen bufs). set (bufs' := if many then take 2 bufs else bufs).
  set (a1 := if many then append (notice (zlen bufs - 2)) (appender_ s) else appender_ s).
  assert (Forall good bufs') as Hg' by (unfold bufs'; destruct many; [by apply Forall_take | done]).
  assert (bufs' ≠ [] ∧ (nb2 = None → (2 <= length bufs')%nat)) as [Hne' Hlen].
  { unfold bufs', many. destruct (Z.ltb_spec 25 (zlen bufs)) as [Hlt|].
    - unfold zlen in Hlt. destruct bufs as [|x [|y bufs]]; [done | cbn in Hlt; lia |]. split; [done | cbn; lia].
    - split; [done|]. intros ->. destruct Hn2 as [[_ ?]|(? & ? & _)]; [done | discriminate]. }
  destruct (text_empty bufs' a1 Hg') as (a2 & Ha2 & Hv). rewrite Ha2. cstep.
  destruct (refill_null bufs' Hg' Hne') as (b1 & -> & Hs1). cstep.
  assert (∃ b2 rest, refill nb2 (removelast bufs') = Ok (Some b2, rest) ∧ spare (Some b2)) as (b2 & rest & -> & Hs2).
  { destruct nb2 as [b2|].
    - exists b2, (removelast bufs'). split; [done|]. by destruct Hn2 as [[? _]|?].
    - destruct (refill_null (removelast bufs')) as (b2 & Hr & Hs2); [by apply removelast_forall | |].
      + intros Hx. apply (f_equal length) in Hx. rewrite removelast_len in Hx. pose proof (Hlen eq_refl). cbn in Hx. lia.
      + by eexists b2, _. }
  exists (flush a2), b1, b2. split; [done|]. split; [done|]. split; [done|].
  rewrite view_flush, Hv. unfold a1, bufs'. destruct many; [|done]. rewrite view_append, <- (assoc_L (++)); [done|].
  pose proof (notice_fits (zlen bufs - 2)). unfold kMaxObject. lia.
Qed.

Lemma spare_asserted b : spare b → assert_empty b = Ok tt.
Proof. intros (b' & -> & Hg & Hc). unfold assert_empty. by rewrite size_contents, Hc. Qed.

(** A full buffer list implies text in the current buffer, so the end finds nothing left. *)
Lemma inv_idle a0 s : inv a0 s → FixedBuffer.contents (current_buffer_ s) = [] → buffers_ s = [].
Proof. intros Hi Hc. destruct (buffers_ s) eqn:E; [done|]. exfalso. apply (inv_full _ _ Hi); [by rewrite E | done]. Qed.

Lemma at_while_ok a0 nb1 nb2 s : inv a0 s → thread_ s = AtWhile nb1 nb2 →
  ∃ s', at_while nb1 nb2 s = Ok s' ∧ inv a0 s' ∧
        (thread_ s' = Exited → buffers_ s' = [] ∧ FixedBuffer.contents (current_buffer_ s') = []).
Proof.
  intros Hi Ht. pose proof Hi as [Hc Hn Hb Hf Hth Hca Htx]. rewrite Ht in Hth. destruct Hth as [H1 H2].
  unfold in_hand in Htx. rewrite Ht in Htx. unfold at_while. rewrite (size_contents _ Hc).
  destruct (running_ s || _) eqn:E.
  - rewrite (spare_asserted nb1 H1), (spare_asserted nb2 H2). cstep. eexists. split; [reflexivity|].
    split; [|done]. by split.
  - eexists. split; [reflexivity|]. unbool.
    assert (FixedBuffer.contents (current_buffer_ s) = []) as He by (by apply zlen_nil_inv).
    split; [|intros _; split; [exact (inv_idle a0 s Hi He) | done]]. split; cbn; try done.
    intros Hd. unfold in_hand. cbn. rewrite view_flush. exact (Htx Hd).
Qed.

Lemma at_lock_ok a0 nb1 nb2 s : inv a0 s → thread_ s = AtLock nb1 nb2 →
  ∃ s', at_lock nb1 nb2 s = Ok s' ∧ inv a0 s'.
Proof.
  intros [Hc Hn Hb Hf Hth Hca Htx] Ht. rewrite Ht in Hth. destruct Hth as [(b1 & -> & Hg1 & Hc1) H2].
  unfold in_hand in Htx. rewrite Ht in Htx. unfold at_lock.
  assert (Forall good (buffers_ s ++ [current_buffer_ s])) as Hg
    by (apply Forall_app; split; [done | by apply Forall_singleton]).
  assert (buffers_ s ++ [current_buffer_ s] ≠ []) as Hne by (by intros [_ ?]%app_eq_nil).
  destruct (next_buffer_ s) as [b|] eqn:En.
  - eexists. split; [reflexivity|]. destruct Hn as [[? _]|Hn]; [done|]. split; cbn; try done; [by right | by auto |].
    intros Hd. unfold in_hand. cbn. rewrite text_app, text_one, Hc1, app_nil_r. exact (Htx Hd).
  - eexists. split; [reflexivity|]. destruct Hn as [[_ Hbn]|(? & ? & _)]; [|done]. split; cbn; try done; [by right | |].
    + split; [done|]. split; [done|]. split; [done|]. left. split; [done|]. rewrite length_app. cbn.
      destruct (buffers_ s); [done | cbn; lia].
    + intros Hd. unfold in_hand. cbn. rewrite text_app, text_one, Hc1, app_nil_r. exact (Htx Hd).
Qed.

Lemma writing_inv a0 bufs nb1 nb2 s : inv a0 s → thread_ s = Writing bufs nb1 nb2 →
  ∃ s', writing bufs nb1 nb2 s = Ok s' ∧ inv a0 s'.
Proof.
  intros [Hc Hn Hb Hf Hth Hca Htx] Ht. rewrite Ht in Hth. pose proof Hth as (_ & _ & -> & _).
  destruct (writing_ok bufs nb2 s Hth) as (a' & b1 & b2 & Hw & H1 & H2 & Hv).
  unfold in_hand in Htx. rewrite Ht in Htx. eexists. split; [exact Hw|]. split; cbn; try done.
  intros [Hm Hd]%orb_false_iff. unfold in_hand. cbn. rewrite Hv, Hm, <- (Htx Hd), <- !(assoc_L (++)). done.
Qed.

Definition label_ok (l : label) : Prop :=
  match l with Log _ (Some m) => zlen m ≠ kBufferSize | _ => True end.

Lemma exec_ok a0 l s : inv a0 s → label_ok l → ∃ s', exec l s = Ok s' ∧ inv a0 s'.
Proof.
  intros Hi Hl. pose proof Hi as [Hc Hn Hb Hf Hth Hca Htx]. destruct l as [level message|i| |]; cbn [exec].
  - destruct (log_guard level message s) eqn:Eg; [|by exists s]. eexists. split; [reflexivity|].
    split; cbn; try done. apply Forall_app. split; [done|]. destruct message as [m|]; [|done].
    cbn in Eg, Hl |- *. apply Forall_singleton. unbool. pose proof (zlen_nonneg m). split; lia.
  - destruct (callers s !! i) as [m|] eqn:Em; [|by exists s].
    destruct (log_locked_ok m s a0 Hi) as (s' & -> & Hi' & Hcal & _); [by eapply Forall_lookup_1|]. cstep.
    eexists. split; [reflexivity|]. destruct Hi'. split; cbn; try done. rewrite Hcal. by apply Forall_delete.
  - destruct (thread_ s) as [nb1 nb2|nb1 nb2|bufs nb1 nb2|] eqn:Et.
    + destruct (at_while_ok a0 nb1 nb2 s Hi Et) as (s' & ? & ? & _). by exists s'.
    + by apply at_lock_ok.
    + by apply writing_inv.
    + by exists s.
  - eexists. split; [reflexivity|]. by split.
Qed.

Lemma run_ok a0 ls s : inv a0 s → Forall label_ok ls → ∃ s', run ls s = Ok s' ∧ inv a0 s'.
Proof.
  intros Hi Hl. revert s Hi. induction Hl as [|l ls Hl _ IH]; intros s Hi; cbn [run]; [by exists s|].
  destruct (exec_ok a0 l s Hi Hl) as (s1 & -> & Hi1). cstep. by apply IH.
Qed.

(** What is left when the thread ends. *)
Lemma exit_complete level a ls s nb1 nb2 s' :
  Forall label_ok ls → run ls (init level a) = Ok s → thread_ s = AtWhile nb1 nb2 →
  exec Sync s = Ok s' → thread_ s' = Exited → dropped s' = false →
  view (appender_ s') = view a ++ logged s'.
Proof.
  intros Hl Hr Ht Hs Hx Hd.
  destruct (run_ok (view a) ls (init level a) (async_init_inv level a) Hl) as (s1 & Hr1 & Hi).
  assert (s1 = s) as -> by congruence. cbn [exec] in Hs. rewrite Ht in Hs.
  destruct (at_while_ok (view a) nb1 nb2 s Hi Ht) as (s2 & Hs2 & Hi2 & Hex). assert (s2 = s') as -> by congruence.
  destruct (Hex Hx) as [Hb Hc]. pose proof (inv_text _ _ Hi2 Hd) as Htx.
  unfold in_hand in Htx. rewrite Hx, Hb, Hc in Htx. cbn in Htx. by rewrite app_nil_r in Htx.
Qed.

(** ** Theorems *)


(** When the background thread ends, the appender has everything that was logged until
    then: the test of the current buffer alone is enough, because full buffers never wait
    while the current one is empty. *)
Theorem async_logger_exit_complete level a ls s nb1 nb2 s' :
  Forall label_ok ls → run ls (init level a) = Ok s → thread_ s = AtWhile nb1 nb2 →
  exec Sync s = Ok s' → thread_ s' = Exited → dropped s' = false →
  view (appender_ s') = view a ++ logged s'.
Proof. apply exit_complete. Qed.

(** A message of exactly [kBufferSize] bytes passes the guard of [log], which only refuses
    longer ones, and then fails the assertion of [FixedBuffer::append]. *)
Theorem async_log_full_size_aborts a0 level m s :
  inv a0 s → zlen m = kBufferSize → level_lt level (level_ s) = false → running_ s = true →
  log_guard level (Some m) s = true ∧ log_locked m s = Fault AssertFailed.
Proof.
  intros [Hc Hn _ _ _ _ _] Hm Hl Hrun. split.
  - cbn. rewrite Hl, Hrun, Hm, Z.ltb_irrefl. by decide_test (kBufferSize =? 0).
  - unfold log_locked. pose proof (size_contents _ Hc) as Hsz.
    pose proof (zlen_nonneg (FixedBuffer.contents (current_buffer_ s))).
    assert (u64 (FixedBuffer.avail kBufferSize (current_buffer_ s)) <= kBufferSize) as Hle.
    { unfold FixedBuffer.avail, FixedBuffer.size in *. destruct Hc as (_ & ? & _). rewrite u64_small by lia. lia. }
    decide_test (zlen m <? u64 (FixedBuffer.avail kBufferSize (current_buffer_ s))).
    set (fresh := match next_buffer_ s with Some b => b | None => new_buffer end).
    assert (good fresh ∧ FixedBuffer.contents fresh = []) as [Hgf Hcf].
    { unfold fresh. destruct Hn as [[-> _]|(b & -> & ? & ?)]; [apply new_buffer_ok | done]. }
    pose proof (FixedBuffer.append_agrees kBufferSize true m fresh Hgf) as Ha. cbn in Ha. revert Ha.
    rewrite Hcf. change (zlen []) with 0. decide_test (0 + zlen m <? kBufferSize).
    destruct (FixedBuffer.append kBufferSize true m fresh) as [b|f]; cbn; [by intros [_ ?] | by intros [= ->]].
Qed.
End AsyncLogger.

(** ** Witnesses *)

(** Buffers of eight bytes: two messages of five bytes fill two of them. *)
Definition demo_labels : list label :=
  [Log kInfo (Some (replicate 5 x41)); Log kInfo (Some (replicate 5 x42)); Commit 0; Commit 0;
   Sync; Sync; Sync; Stop].

Definition demo_notice (n : Z) : list byte := [].

Lemma demo_notice_fits n : zlen (demo_notice n) < 256.
Proof. done. Qed.

Lemma demo_labels_ok : Forall (label_ok 8) demo_labels.
Proof. repeat (apply Forall_cons; split; [try done; vm_compute; discriminate|]). by apply Forall_nil. Qed.


Definition demo_final : state stdout_appender :=
  match run 8 demo_notice demo_labels (init 8 kInfo (mkStdout [] [])) with
  | Ok s => s
  | Fault _ => init 8 kInfo (mkStdout [] [])
  end.

Definition demo_exited : state stdout_appender :=
  match exec 8 demo_notice Sync demo_final with Ok s => s | Fault _ => demo_final end.

Lemma async_logger_exit_complete_witness :
  thread_ demo_exited = Exited ∧ view (appender_ demo_exited) = replicate 5 x41 ++ replicate 5 x42.
Proof.
  split; [vm_compute; reflexivity|].
  rewrite (async_logger_exit_complete 8 demo_notice ltac:(lia) demo_notice_fits kInfo (mkStdout [] []) demo_labels demo_final
             (Some (FixedBuffer.mk (replicate 5 x42 ++ replicate 3 x00) 0))
             (Some (FixedBuffer.mk (replicate 5 x41 ++ replicate 3 x00) 0)) demo_exited demo_labels_ok);
    vm_compute; reflexivity.
Defined.

Lemma async_log_full_size_aborts_witness :
  log_guard 8 kInfo (Some (replicate 8 x41)) (init 8 kInfo (mkStdout [] [])) = true ∧
  log_locked 8 (replicate 8 x41) (init 8 kInfo (mkStdout [] [])) = Fault AssertFailed.
Proof.
  apply (async_log_full_size_aborts 8 ltac:(lia) (view (mkStdout [] [])) kInfo (replicate 8 x41)); [|vm_compute; reflexivity..].
  apply (async_init_inv 8 ltac:(lia) kInfo (mkStdout [] [])).
Defined.
End AsyncLogger.
