(* ===== verification/ThreadPool.v ===== *)
(** * [reactor::EventLoopThread] and [reactor::EventLoopThreadPool]
    (src/reactor/event_loop_thread.cc, event_loop_thread_pool.cc)

    The thread is a machine over the event loop of the file EventLoop: the thread that
    created it and the thread it started take their steps in any order.  The pool hands out
    its loops in turn.

    The proofs show that [start_loop] returns the loop and only after it was published, that
    the pool's choice is round robin, and that a destructor running right after
    [start_loop] can wait for ever. *)

From S2P Require Import Prelude EventLoop.

(** ** [EventLoopThreadPool] *)

Module EventLoopThreadPool.

(** Loops are named by addresses; [base_tid] is the thread of the base loop. *)
Record t := mk {
  base_loop_ : nat;
  base_tid : Z;
  started_ : bool;
  num_threads_ : Z;
  next_ : Z;
  loops_ : list nat
}.

Definition ctor (base : nat) (tid : Z) : t := mk base tid false 0 0 [].

Definition set_thread_num (num : Z) (p : t) : t :=
  mk (base_loop_ p) (base_tid p) (started_ p) num (next_ p) (loops_ p).

Definition in_base_thread (tid : Z) (p : t) : bool := tid =? base_tid p.

(** [start]: [fresh i] is the loop that the [i]-th new thread's [start_loop] returned. *)
Definition start (tid : Z) (fresh : nat → nat) (p : t) : outcome t :=
  _ ← cassert (negb (started_ p));
  _ ← cassert (in_base_thread tid p);
  mret (mk (base_loop_ p) (base_tid p) true (num_threads_ p) (next_ p)
          (loops_ p ++ map fresh (seq 0 (Z.to_nat (num_threads_ p))))).

Definition get_next_loop (tid : Z) (p : t) : outcome (nat * t) :=
  _ ← cassert (in_base_thread tid p && started_ p);
  match loops_ p with
  | [] => mret (base_loop_ p, p)
  | _ =>
      loop ← read_at (next_ p) (loops_ p);
      let next := next_ p + 1 in
      let next := if zlen (loops_ p) <=? u64 next then 0 else next in
      mret (loop, mk (base_loop_ p) (base_tid p) (started_ p) (num_threads_ p) next (loops_ p))
  end.

Definition get_all_loops (tid : Z) (p : t) : outcome (list nat) :=
  _ ← cassert (in_base_thread tid p && started_ p);
  match loops_ p with [] => mret [base_loop_ p] | ls => mret ls end.

(** [k] calls of [get_next_loop] in a row. *)
Fixpoint get_next_loops (tid : Z) (k : nat) (p : t) : outcome (list nat * t) :=
  match k with
  | O => mret ([], p)
  | S k => '(l, p) ← get_next_loop tid p; '(ls, p) ← get_next_loops tid k p; mret (l :: ls, p)
  end.

Lemma next_index_mod n i : 0 < n < 2 ^ 31 → 0 <= i < n →
  (if n <=? u64 (i + 1) then 0 else i + 1) = (i + 1) mod n.
Proof.
  intros Hn Hi. rewrite u64_small by lia. destruct (Z.leb_spec n (i + 1)).
  - replace (i + 1) with n by lia. by rewrite Z_mod_same_full.
  - by rewrite Z.mod_small by lia.
Qed.

Lemma round_robin tid k p : base_tid p = tid → started_ p = true → loops_ p ≠ [] → zlen (loops_ p) < 2 ^ 31 →
  0 <= next_ p < zlen (loops_ p) →
  ∃ p', get_next_loops tid k p =
    Ok ((λ i : nat, nth (Z.to_nat ((next_ p + Z.of_nat i) mod zlen (loops_ p))) (loops_ p) 0%nat) <$> seq 0 k, p').
Proof.
  revert p. induction k as [|k IH]; intros p Ht Hs Hne Hsz Hn; cbn [get_next_loops]; [by eexists|].
  unfold get_next_loop, in_base_thread. rewrite Ht, Z.eqb_refl, Hs. cbn [andb]. cstep.
  destruct (loops_ p) as [|x ls] eqn:El; [done|]. cbv iota. rewrite <- El in *. set (n := zlen (loops_ p)) in *.
  assert (read_at (next_ p) (loops_ p) = Ok (nth (Z.to_nat (next_ p)) (loops_ p) 0%nat)) as Hr.
  { unfold read_at. decide_test (0 <=? next_ p).
    destruct (lookup_lt_is_Some_2 (loops_ p) (Z.to_nat (next_ p))) as [y Hy]; [unfold n, zlen in Hn; lia|].
    rewrite Hy. by rewrite (nth_lookup_Some _ _ _ _ Hy). }
  rewrite Hr. cstep. rewrite next_index_mod by lia.
  match goal with |- context [get_next_loops tid k ?q] => destruct (IH q) as (p' & Hp') end;
    cbn [base_tid started_ loops_ next_]; [done | done | done | done | apply Z.mod_pos_bound; lia |].
  fold n in Hp'. cbn [loops_ next_] in Hp'. rewrite Hp'. cstep. exists p'. cbn [seq]. rewrite fmap_cons.
  do 3 f_equal.
  - rewrite Z.add_0_r, Z.mod_small by lia. done.
  - rewrite <- seq_shift, <- list_fmap_compose. apply list_fmap_ext. intros i j _. cbn. do 2 f_equal.
    rewrite Zplus_mod_idemp_l. f_equal. lia.
Qed.

(** After [start] with [n] threads the loops handed out by successive calls of
    [get_next_loop] are the loops of the threads in turn, again and again; without threads
    it is always the base loop. *)
Theorem pool_round_robin base tid num fresh k :
  num < 2 ^ 31 →
  ∃ p p', start tid fresh (set_thread_num num (ctor base tid)) = Ok p ∧
    get_next_loops tid k p =
      Ok ((λ i : nat, if 0 <? num then fresh (Z.to_nat (Z.of_nat i mod num)) else base) <$> seq 0 k, p').
Proof.
  intros Hnum. set (p := mk base tid true num 0 (map fresh (seq 0 (Z.to_nat num)))).
  assert (start tid fresh (set_thread_num num (ctor base tid)) = Ok p) as Hst.
  { unfold start, in_base_thread. cbn [started_ set_thread_num ctor base_tid]. rewrite Z.eqb_refl. done. }
  exists p. destruct (Z.ltb_spec 0 num) as [Hpos|Hneg].
  - assert (zlen (loops_ p) = num) as Hlen by (unfold zlen; cbn [p loops_]; rewrite length_map, length_seq; lia).
    destruct (round_robin tid k p) as (p' & Hp'); [done | done | | lia | rewrite Hlen; cbn [next_ p]; lia |].
    { intros Hx. apply (f_equal zlen) in Hx. rewrite Hlen in Hx. change (zlen []) with 0 in Hx. lia. }
    exists p'. split; [done|]. rewrite Hp', Hlen. do 2 f_equal. apply list_fmap_ext. intros _ i _.
    assert (0 <= Z.of_nat i mod num < num) by (apply Z.mod_pos_bound; lia).
    cbn [next_ p loops_]. rewrite Z.add_0_l. generalize dependent (Z.of_nat i mod num). intros r Hr. rewrite (nth_indep _ _ (fresh 0%nat)) by (rewrite length_map, length_seq; lia).
    rewrite map_nth, seq_nth by lia. done.
  - exists p. split; [done|]. assert (loops_ p = []) as Hl by (cbn; by replace (Z.to_nat num) with 0%nat by lia).
    generalize 0%nat. induction k as [|k IH]; intros j; [done|].
    cbn [get_next_loops seq]. rewrite fmap_cons. unfold get_next_loop, in_base_thread. rewrite Hl. cbn [p base_tid started_].
    rewrite Z.eqb_refl. cbn [andb]. cstep. fold p. by rewrite (IH (S j)).
Qed.

Lemma pool_round_robin_witness :
  ∃ p p', start 7 (λ i, (i + 10)%nat) (set_thread_num 3 (ctor 1 7)) = Ok p ∧
          get_next_loops 7 5 p = Ok ([10; 11; 12; 10; 11]%nat, p').
Proof.
  destruct (pool_round_robin 1 7 3 (λ i, (i + 10)%nat) 5) as (p & p' & Hs & Hg); [lia|].
  exists p, p'. split; [exact Hs | exact Hg].
Defined.
End EventLoopThreadPool.

(** ** [EventLoopThread] *)

Module EventLoopThread.

(** Where the started thread is in [thread_func]. *)
Inductive wpc := WConstruct | WPublish | WBeforeLoop | WInLoop | WUnpublish | WDone.

(** Where the creating thread is: in [start_loop], behind it, and in the destructor at
    [loop_->quit()], at [join()] and at its end. *)
Inductive cpc := CStart | CReturned | CQuitting | CJoin | CDestroyed.

(** [loop_] tells whether the pointer is set; the creating thread is number 0 of the other
    threads of the loop. *)
Record state := mkState {
  loop_ : bool;
  exiting_ : bool;
  worker : wpc;
  creator : cpc;
  el : EventLoop.state
}.

Definition init : state := mkState false false WConstruct CStart (EventLoop.init 1).

Definition set_worker (w : wpc) (e : EventLoop.state) (s : state) : state :=
  mkState (loop_ s) (exiting_ s) w (creator s) e.

Definition set_creator (c : cpc) (e : EventLoop.state) (s : state) : state :=
  mkState (loop_ s) (exiting_ s) (worker s) c e.

(** One step of either thread, labelled with the step of the loop it makes, if any. *)
Inductive step : option EventLoop.label → state → state → Prop :=
| w_callback s l e' :
    worker s = WConstruct → (l = EventLoop.LStep ∨ ∃ body, l = EventLoop.LOwnerCode body) →
    EventLoop.step l (el s) e' → step (Some l) s (set_worker WConstruct e' s)
| w_construct s :
    worker s = WConstruct → EventLoop.code (el s) = [] → step None s (set_worker WPublish (el s) s)
| w_publish s :
    worker s = WPublish → step None s (mkState true (exiting_ s) WBeforeLoop (creator s) (el s))
| w_enter s e' :
    worker s = WBeforeLoop → EventLoop.step EventLoop.LEnter (el s) e' →
    step (Some EventLoop.LEnter) s (set_worker WInLoop e' s)
| w_loop s l e' :
    worker s = WInLoop → (l = EventLoop.LStep ∨ ∃ acts, l = EventLoop.LPoll acts) →
    EventLoop.step l (el s) e' →
    step (Some l) s (set_worker (match EventLoop.at_ e' with EventLoop.Outside => WUnpublish | _ => WInLoop end) e' s)
| w_unpublish s :
    worker s = WUnpublish → step None s (mkState false (exiting_ s) WDone (creator s) (el s))
| c_return s :
    creator s = CStart → loop_ s = true → step None s (set_creator CReturned (el s) s)
| c_dtor_quit s e' :
    creator s = CReturned → loop_ s = true → EventLoop.step (EventLoop.LCall 0 EventLoop.Quit) (el s) e' →
    step (Some (EventLoop.LCall 0 EventLoop.Quit)) s (mkState true true (worker s) CQuitting e')
| c_dtor_join s :
    creator s = CReturned → loop_ s = false → step None s (mkState false true (worker s) CJoin (el s))
| c_quit s e' :
    creator s = CQuitting → EventLoop.step (EventLoop.LOther 0) (el s) e' →
    step (Some (EventLoop.LOther 0)) s
      (set_creator (match EventLoop.others e' with [] :: _ => CJoin | _ => CQuitting end) e' s)
| c_join s :
    creator s = CJoin → worker s = WDone → step None s (set_creator CDestroyed (el s) s).

Inductive runs : state → list (option EventLoop.label) → state → Prop :=
| runs_nil s : runs s [] s
| runs_cons s s' s'' l ls : step l s s' → runs s' ls s'' → runs s (l :: ls) s''.

(** [start_loop] has returned only if the loop was published, and the pointer is reset only
    at the end of the thread. *)
Record inv (s : state) : Prop := {
  inv_loop : loop_ s = true ↔ worker s = WBeforeLoop ∨ worker s = WInLoop ∨ worker s = WUnpublish;
  inv_creator : creator s ≠ CStart → worker s ≠ WConstruct ∧ worker s ≠ WPublish
}.

Lemma thread_step_inv l s s' : inv s → step l s s' → inv s'.
Proof.
  intros [Hl Hc] Hs. destruct Hs as [s l e' Hw _ _|s Hw _|s Hw|s e' Hw _|s l e' Hw _ _|s Hw|s Hcr Hlo|s e' Hcr Hlo _|s Hcr Hlo|s e' Hcr _|s Hcr Hw];
    split; cbn in *; rewrite ?Hw, ?Hcr in *; cbn in *.
  all: try (destruct (EventLoop.at_ e')).
  all: solve [intuition congruence].
Qed.

Lemma thread_runs_inv ls s s' : inv s → runs s ls s' → inv s'.
Proof. induction 2; eauto using thread_step_inv. Qed.

(** [start_loop] never hands out a loop that is not there: whenever it has returned, the
    thread has constructed its loop and published it under the mutex, and until the thread
    is at its very end the pointer stays set. *)
Theorem start_loop_returns_published ls s :
  runs init ls s → creator s ≠ CStart →
  worker s ≠ WConstruct ∧ worker s ≠ WPublish ∧ (worker s ≠ WDone → loop_ s = true).
Proof.
  intros Hr Hc. assert (inv s) as [Hl Hcr].
  { eapply thread_runs_inv; [|exact Hr]. split; cbn; [|done]. split; [done|]. by intros [?|[?|?]]. }
  destruct (Hcr Hc). split; [done|]. split; [done|]. intros Hw. apply Hl.
  destruct (worker s); try done; auto.
Qed.

(** The destructor waits for a thread whose loop nobody will stop. *)
Definition hanging (s : state) : Prop :=
  creator s = CJoin ∧
  ((worker s = WBeforeLoop ∧ el s = EventLoop.mkState EventLoop.Outside [] false true false false None [] 1 [[]] [] [])
   ∨ (worker s = WInLoop ∧ EventLoop.never_quits (el s))).

Lemma hanging_step l s s' :
  hanging s → (∀ l', l = Some l' → EventLoop.label_quit_free l') → step l s s' → hanging s'.
Proof.
  intros [Hc Hw] Hl Hs. destruct Hs as [s l e' Hx _ _|s Hx _|s Hx|s e' Hx He|s l e' Hx _ He|s Hx|s Hx _|s e' Hx _ _|s Hx _|s e' Hx _|s Hx Hy];
    try solve [destruct Hw as [[? _]|[? _]]; congruence | congruence].
  - destruct Hw as [[_ Hel]|[? _]]; [|congruence]. split; [done|]. right. split; [done|]. cbn.
    rewrite Hel in He. inversion He as [|s0 s1 _ _ Hen| | | |]; subst. injection Hen as <-. by repeat constructor.
  - destruct Hw as [[? _]|[_ Hn]]; [congruence|].
    assert (EventLoop.never_quits e') as Hn' by (eapply EventLoop.never_quits_step; eauto).
    split; [done|]. right. cbn. split; [|done]. pose proof (EventLoop.nq_at _ Hn') as Ha. by destruct (EventLoop.at_ e').
Qed.

Lemma hanging_runs ls s s' :
  hanging s → Forall (λ l, ∀ l', l = Some l' → EventLoop.label_quit_free l') ls → runs s ls s' → hanging s'.
Proof.
  intros Hh Hl Hr. revert Hh Hl. induction Hr; intros Hh Hl; [done|].
  apply Forall_cons in Hl as [? ?]. eauto using hanging_step.
Qed.

(** The destructor of an [EventLoopThread] that runs when the thread has published its
    loop but not yet entered [loop()] never returns: its only [quit()] is undone, and unless
    user code quits the loop from inside, [join()] waits for ever. *)
Theorem eager_destructor_hangs :
  ∃ ls s, runs init ls s ∧ creator s = CJoin ∧
    ∀ ls' s', runs s ls' s' → Forall (λ l, ∀ l', l = Some l' → EventLoop.label_quit_free l') ls' →
      creator s' = CJoin.
Proof.
  eexists [None; None; None; Some (EventLoop.LCall 0 EventLoop.Quit); Some (EventLoop.LOther 0); Some (EventLoop.LOther 0)], _.
  split; [|split; [|intros ls' s' Hr Hl]].
  - eapply runs_cons; [by apply w_construct|]. eapply runs_cons; [by apply w_publish|].
    eapply runs_cons; [by apply c_return|]. eapply runs_cons; [apply c_dtor_quit; [done | done | by apply EventLoop.step_call]|].
    eapply runs_cons; [eapply c_quit; [done | by eapply EventLoop.step_other]|].
    eapply runs_cons; [eapply c_quit; [done | by eapply EventLoop.step_other]|]. apply runs_nil.
  - done.
  - eapply hanging_runs in Hr as [? _]; [done | | done]. split; [done | left]. split; reflexivity.
Qed.

Lemma start_loop_returns_published_witness :
  ∃ s, runs init [None; None; None] s ∧ creator s = CReturned ∧ loop_ s = true.
Proof.
  eexists. match goal with |- ?R ∧ _ => assert R as Hr end.
  { eapply runs_cons; [by apply w_construct|]. eapply runs_cons; [by apply w_publish|].
    eapply runs_cons; [by apply c_return|]. apply runs_nil. }
  split; [exact Hr|]. split; [reflexivity|].
  apply (start_loop_returns_published _ _ Hr); discriminate.
Defined.
End EventLoopThread.
