(* ===== verification/LogEvent.v ===== *)
(** * [util::Timestamp] and [log::Event]: the layout of a log line
    (src/util/timestamp.cc, src/log/event.cc)

    [localtime_r] is a parameter; [printf]'s conversions of integers are written out.  The
    time of a line is kept in a thread-local buffer that is formatted anew only when the
    second changes, so the thread's state is a [cache] here.

    The proofs show that the cached buffer always shows the time of the line, microseconds
    included, and what a finished line looks like. *)

From S2P Require Import Prelude FixedBuf StrFunc OStream Log.

(** ** Integer conversions of [printf] *)

(** [%0wd] and [%wd] of a non-negative integer. *)
Definition pad_with (c : byte) (w : nat) (n : Z) : list byte :=
  replicate (w - length (decimal n)) c ++ decimal n.

Definition zpad : nat → Z → list byte := pad_with x30.

Definition spad : nat → Z → list byte := pad_with x20.

Lemma rdigits_bound f k i : 0 <= i < 10 ^ Z.of_nat (S k) → (length (rdigits f i) <= S k)%nat.
Proof.
  revert f i. induction k as [|k IH]; intros f i Hi; destruct f as [|f]; cbn [rdigits length]; try lia.
  - change (10 ^ Z.of_nat 1) with 10 in Hi. rewrite Z.div_small by lia. cbn. lia.
  - destruct (_ =? 0); [cbn; lia|]. apply le_n_S, IH. by apply (div_lt_pow (S k)).
Qed.

Lemma pad_length c k n : 0 <= n < 10 ^ Z.of_nat (S k) → length (pad_with c (S k) n) = S k.
Proof.
  intros Hn. unfold pad_with. rewrite length_app, length_replicate.
  pose proof (rdigits_bound kMaxDigits k n Hn). unfold decimal. rewrite length_rev. lia.
Qed.

(** ** [Timestamp] *)

Module Timestamp.

Definition kMicroSecPerSec : Z := 1000 * 1000.

(** A time stamp is its [micro_sec_since_epoch_], an [int64_t]. *)
Definition sec_since_epoch (t : Z) : Z := Z.quot t kMicroSecPerSec.

(** [Timestamp::now] from the result of [gettimeofday]. *)
Definition now (tv_sec tv_usec : Z) : outcome Z :=
  p ← sint_checked 64 (tv_sec * kMicroSecPerSec);
  sint_checked 64 (p + tv_usec).

Definition lt (t t' : Z) : bool := t <? t'.
Definition le (t t' : Z) : bool := t <=? t'.
Definition gt (t t' : Z) : bool := t' <? t.
Definition ge (t t' : Z) : bool := t' <=? t.
Definition eq (t t' : Z) : bool := t =? t'.
Definition ne (t t' : Z) : bool := negb (t =? t').

(** [struct tm] *)
Record tm := mkTm { tm_year : Z; tm_mon : Z; tm_mday : Z; tm_hour : Z; tm_min : Z; tm_sec : Z }.

Section Format.
Variable localtime_r : Z → tm.

(** The text of [to_format_str], with and without microseconds. *)
Definition format_text (show_micro_sec : bool) (t : Z) : list byte :=
  let sec := sec_since_epoch t in
  let m := localtime_r sec in
  if show_micro_sec then
    zpad 4 (tm_year m + 1900) ++ [x2d] ++ zpad 2 (tm_mon m + 1) ++ [x2d] ++ zpad 2 (tm_mday m) ++ [x20]
      ++ zpad 2 (tm_hour m) ++ [x3a] ++ zpad 2 (tm_min m) ++ [x3a] ++ zpad 2 (tm_sec m)
      ++ [x2e] ++ zpad 6 (Z.rem t kMicroSecPerSec)
  else
    spad 4 (tm_year m + 1900) ++ zpad 2 (tm_mon m + 1) ++ zpad 2 (tm_mday m) ++ [x20]
      ++ zpad 2 (tm_hour m) ++ [x3a] ++ zpad 2 (tm_min m) ++ [x3a] ++ zpad 2 (tm_sec m).

(** [snprintf] into [outbuf] of [sz] bytes: a truncated text and a NUL; the length of the
    whole text is returned. *)
Definition to_format_str (outbuf : list byte) (sz : Z) (show_micro_sec : bool) (t : Z) : outcome (list byte * Z) :=
  let s := format_text show_micro_sec t in
  out ← write_range 0 (take (Z.to_nat (sz - 1)) s ++ [x00]) outbuf;
  mret (out, zlen s).

(** The overload that returns a string: 64 bytes of the stack, of which as many are taken as were
    written. *)
Definition to_string (show_micro_sec : bool) (t : Z) : outcome (list byte) :=
  '(buf, n) ← to_format_str (replicate 64 x00) 64 show_micro_sec t;
  read_range 0 n buf.

(** What [localtime_r] promises, for years with four digits. *)
Definition tm_ok (m : tm) : Prop :=
  0 <= tm_year m + 1900 < 10000 ∧ 0 <= tm_mon m < 12 ∧ 1 <= tm_mday m <= 31 ∧
  0 <= tm_hour m < 24 ∧ 0 <= tm_min m < 60 ∧ 0 <= tm_sec m <= 60.

Hypothesis localtime_ok : ∀ sec, 0 <= sec → tm_ok (localtime_r sec).

Lemma sec_nonneg t : 0 <= t → 0 <= sec_since_epoch t.
Proof. intros. unfold sec_since_epoch, kMicroSecPerSec. apply Z.quot_pos; lia. Qed.

Lemma format_short_length t : 0 <= t → length (format_text false t) = 17%nat.
Proof.
  intros Ht. destruct (localtime_ok _ (sec_nonneg t Ht)) as (? & ? & ? & ? & ? & ?). cbn [format_text].
  unfold format_text, zpad, spad. rewrite !length_app.
  rewrite (pad_length x20 3), !(pad_length x30 1) by (cbn; lia). done.
Qed.

Lemma format_long_length t : 0 <= t → length (format_text true t) = 26%nat.
Proof.
  intros Ht. destruct (localtime_ok _ (sec_nonneg t Ht)) as (? & ? & ? & ? & ? & ?).
  assert (0 <= Z.rem t kMicroSecPerSec < 1000000) by (unfold kMicroSecPerSec; apply Z.rem_bound_pos; lia).
  unfold format_text, zpad, spad. rewrite !length_app.
  rewrite (pad_length x30 3), (pad_length x30 5), !(pad_length x30 1) by (cbn; lia). done.
Qed.

(** The string is the whole text, which fits. *)
Lemma to_string_text show_micro_sec t : 0 <= t → to_string show_micro_sec t = Ok (format_text show_micro_sec t).
Proof.
  intros Ht. unfold to_string, to_format_str. set (s := format_text show_micro_sec t).
  assert (length s <= 26)%nat as Hlen.
  { unfold s. destruct show_micro_sec; [rewrite format_long_length by done; lia | rewrite format_short_length by done; lia]. }
  rewrite take_ge by (cbn; lia). rewrite write_range_ok by (unfold zlen; rewrite ?length_app, ?length_replicate; cbn; lia). cstep.
  rewrite read_range_ok by (unfold zlen, splice; rewrite ?length_app, ?length_take, ?length_drop, ?length_replicate; cbn; lia).
  unfold slice, splice. change (Z.to_nat 0) with 0%nat. rewrite drop_0, app_nil_l, <- (assoc_L (++)). unfold zlen. by rewrite Nat2Z.id, take_app_length.
Qed.
End Format.
End Timestamp.

(** ** NUL-terminated text *)

(** The C string at the start of a [char] array. *)
Fixpoint cstr (buf : list byte) : list byte :=
  match buf with
  | [] => []
  | c :: buf => if decide (c = x00) then [] else c :: cstr buf
  end.

Definition no_nul (s : list byte) : Prop := Forall (λ c, c ≠ x00) s.

Lemma cstr_app s rest : no_nul s → cstr (s ++ x00 :: rest) = s.
Proof. induction 1 as [|c s Hc _ IH]; cbn; [done|]. rewrite decide_False by done. by rewrite IH. Qed.

Lemma decimal_no_nul n : no_nul (decimal n).
Proof.
  unfold no_nul, decimal. apply Forall_rev. eapply Forall_impl; [apply rdigits_digits|].
  intros c Hc ->. discriminate Hc.
Qed.

Lemma pad_no_nul c w n : c ≠ x00 → no_nul (pad_with c w n).
Proof. intros Hc. apply Forall_app. split; [by apply Forall_replicate | apply decimal_no_nul]. Qed.

(** ** [Event] *)

Module Event.

(** The thread-local variables of event.cc. *)
Record cache := mkCache { kMicroSecPos : Z; kTimeBuf : list byte; kLastUpdateSec : Z }.

Definition cache_init : cache := mkCache 0 (replicate 64 x00) 0.

Section Event.
Variable localtime_r : Z → Timestamp.tm.

(** The first half of [tips_message]: the time of the line in [kTimeBuf]. *)
Definition tips_time (now : Z) (c : cache) : outcome cache :=
  let sec := Timestamp.sec_since_epoch now in
  c ← (if negb (sec =? kLastUpdateSec c) then
         '(buf, n) ← Timestamp.to_format_str localtime_r (kTimeBuf c) 64 false now;
         mret (mkCache n buf sec)
       else mret c);
  buf ← write_range (kMicroSecPos c) ([x2e] ++ zpad 6 (Z.rem now Timestamp.kMicroSecPerSec) ++ [x00]) (kTimeBuf c);
  mret (mkCache (kMicroSecPos c) buf (kLastUpdateSec c)).

(** [strrchr(file, '/')]: the name without its directories. *)
Fixpoint basename (file : list byte) : list byte :=
  match file with
  | [] => []
  | c :: rest =>
      if decide (x2f ∈ rest) then basename rest else if decide (c = x2f) then rest else file
  end.

(** The second half of [tips_message], as insertions into the stream. *)
Definition tips_items (c : cache) (level : Level) (file : list byte) (line : Z) (func : list byte) (pid tid : Z)
  : list FixedOStream.item :=
  let sp := FixedOStream.Char x20 in
  [FixedOStream.CStr (Some (cstr (kTimeBuf c))); sp; FixedOStream.Int pid; sp; FixedOStream.Int tid; sp;
   FixedOStream.CStr (Some (level_to_string level)); sp;
   FixedOStream.Char x5b; FixedOStream.CStr (Some (basename file)); FixedOStream.Char x3a;
   FixedOStream.CStr (Some func); FixedOStream.Char x3a; FixedOStream.Int line;
   FixedOStream.CStr (Some (chars "]::")); sp].

(** [FixedOStream<1024>] *)
Definition kStreamSize : Z := 1024.

(** A statement [CLIA_LOG(...) << a << b;]: the event is constructed, the user's insertions
    run, and the destructor ends the line and hands it to the logger. *)
Definition log_line (now : Z) (c : cache) (level : Level) (file : list byte) (line : Z) (func : list byte)
  (pid tid : Z) (its : list FixedOStream.item) : outcome (cache * list byte) :=
  _ ← cassert (negb (line =? -1));
  c ← tips_time now c;
  st ← FixedOStream.puts kStreamSize (tips_items c level file line func pid tid)
         (FixedOStream.ctor (replicate (Z.to_nat kStreamSize) x00));
  st ← FixedOStream.puts kStreamSize its st;
  st ← FixedOStream.put kStreamSize (FixedOStream.Char x0a) st;
  out ← read_range 0 (FixedOStream.size st) (FixedOStream.data st);
  mret (c, out).

(** [LargeEvent] builds the same line in a [std::stringstream], which has no bound and prints
    integers with their sign. *)
Definition int_text (v : Z) : list byte := if v <? 0 then x2d :: decimal (- v) else decimal v.

Definition item_text (it : FixedOStream.item) : list byte :=
  match it with
  | FixedOStream.CStr (Some s) | FixedOStream.Str s | FixedOStream.Formatted (Some s) => s
  | FixedOStream.Char ch => [ch]
  | FixedOStream.Int v => int_text v
  | FixedOStream.CStr None | FixedOStream.Formatted None => []
  end.

Definition texts (its : list FixedOStream.item) : list byte := concat (item_text <$> its).

(** A null [char] pointer sets the stream's [badbit], and all later insertions are ignored. *)
Fixpoint until_null (its : list FixedOStream.item) : list FixedOStream.item :=
  match its with
  | [] => []
  | FixedOStream.CStr None :: _ => []
  | it :: its => it :: until_null its
  end.

Definition large_log_line (now : Z) (c : cache) (level : Level) (file : list byte) (line : Z) (func : list byte)
  (pid tid : Z) (its : list FixedOStream.item) : outcome (cache * list byte) :=
  _ ← cassert (negb (line =? -1));
  c ← tips_time now c;
  mret (c, texts (until_null (tips_items c level file line func pid tid ++ its ++ [FixedOStream.Char x0a]))).

(** ** The time of a line *)

Hypothesis localtime_ok : ∀ sec, 0 <= sec → Timestamp.tm_ok (localtime_r sec).

(** The time as it should appear in the line. *)
Definition time_text (now : Z) : list byte :=
  Timestamp.format_text localtime_r false now ++ [x2e] ++ zpad 6 (Z.rem now Timestamp.kMicroSecPerSec).

(** The cache is empty or holds the text of its second. *)
Definition cache_ok (c : cache) : Prop :=
  zlen (kTimeBuf c) = 64 ∧
  (kLastUpdateSec c ≠ 0 → kMicroSecPos c = 17 ∧
     ∀ t, 0 <= t → Timestamp.sec_since_epoch t = kLastUpdateSec c →
       take 17 (kTimeBuf c) = Timestamp.format_text localtime_r false t).

Lemma cache_init_ok : cache_ok cache_init.
Proof. by split. Qed.

Lemma micro_range now : 0 <= now → 0 <= Z.rem now Timestamp.kMicroSecPerSec < 1000000.
Proof. intros. unfold Timestamp.kMicroSecPerSec. apply Z.rem_bound_pos; lia. Qed.

Lemma format_no_nul t : no_nul (Timestamp.format_text localtime_r false t).
Proof. unfold Timestamp.format_text, no_nul. rewrite !Forall_app. split_and!; try by apply pad_no_nul. all: by repeat constructor. Qed.

(** Reformatting when the second changed. *)
Lemma refresh_ok now c : cache_ok c → 0 <= now →
  ∃ c', (if negb (Timestamp.sec_since_epoch now =? kLastUpdateSec c) then
           '(buf, n) ← Timestamp.to_format_str localtime_r (kTimeBuf c) 64 false now;
           mret (mkCache n buf (Timestamp.sec_since_epoch now))
         else mret c) = Ok c' ∧ zlen (kTimeBuf c') = 64 ∧ kLastUpdateSec c' = Timestamp.sec_since_epoch now ∧
    (Timestamp.sec_since_epoch now ≠ 0 → kMicroSecPos c' = 17 ∧
       take 17 (kTimeBuf c') = Timestamp.format_text localtime_r false now).
Proof.
  intros [Hz Hc] Hn. destruct (Z.eqb_spec (Timestamp.sec_since_epoch now) (kLastUpdateSec c)) as [He|He]; cbn [negb].
  - exists c. split; [done|]. split; [done|]. split; [done|]. intros Hne. rewrite He in Hne.
    destruct (Hc Hne) as [? Ht]. split; [done|]. by apply Ht.
  - pose proof (Timestamp.format_short_length localtime_r localtime_ok now Hn) as Hl.
    unfold Timestamp.to_format_str. set (s := Timestamp.format_text localtime_r false now) in *.
    assert (take (Z.to_nat (64 - 1)) s = s) as -> by (apply take_ge; lia).
    assert (zlen (s ++ [x00]) = 18) as Hz1 by (unfold zlen; rewrite length_app, Hl; done).
    rewrite write_range_ok by lia. cstep. eexists. split; [reflexivity|]. cbn [kTimeBuf kLastUpdateSec kMicroSecPos].
    split; [rewrite zlen_splice; lia|]. split; [done|]. intros _. split; [unfold zlen; by rewrite Hl|].
    unfold splice. rewrite take_0, app_nil_l, <- (assoc_L (++)). apply take_app_length'. done.
Qed.

Lemma tips_time_ok now c : cache_ok c → 1000000 <= now →
  ∃ c', tips_time now c = Ok c' ∧ cache_ok c' ∧ cstr (kTimeBuf c') = time_text now.
Proof.
  intros Hc Hn. destruct (refresh_ok now c Hc) as (c1 & Hr & Hz & Hs & Ht); [lia|].
  assert (Timestamp.sec_since_epoch now ≠ 0) as Hs0.
  { unfold Timestamp.sec_since_epoch, Timestamp.kMicroSecPerSec.
    pose proof (Z.quot_le_lower_bound now (1000 * 1000) 1). lia. }
  destruct (Ht Hs0) as [Hp Htk]. unfold tips_time. rewrite Hr. cstep. rewrite Hp.
  set (us := zpad 6 (Z.rem now Timestamp.kMicroSecPerSec)).
  assert (length us = 6%nat) as Hus by (unfold us, zpad; apply pad_length; cbn; pose proof (micro_range now); lia).
  assert (zlen ([x2e] ++ us ++ [x00]) = 8) as Hzx by (unfold zlen; rewrite !length_app, Hus; done).
  rewrite write_range_ok by lia. cstep. eexists. split; [reflexivity|]. cbn [kTimeBuf kLastUpdateSec kMicroSecPos].
  assert (splice 17 ([x2e] ++ us ++ [x00]) (kTimeBuf c1)
          = (Timestamp.format_text localtime_r false now ++ [x2e] ++ us) ++ x00 :: drop 25 (kTimeBuf c1)) as Hsp.
  { unfold splice. change (Z.to_nat 17) with 17%nat. rewrite Htk.
    replace (17 + length ([x2e] ++ us ++ [x00]))%nat with 25%nat by (rewrite !length_app, Hus; done).
    by rewrite <- !(assoc_L (++)). }
  assert (length (Timestamp.format_text localtime_r false now) = 17%nat) as Hl
    by (apply Timestamp.format_short_length; [done | lia]).
  split.
  - split; cbn [kTimeBuf kLastUpdateSec kMicroSecPos]; [rewrite zlen_splice; lia|].
    intros _. split; [done|]. intros t Ht0 Het. rewrite Hsp, <- !(assoc_L (++)).
    rewrite (take_app_length' (Timestamp.format_text localtime_r false now)) by done.
    unfold Timestamp.format_text. by rewrite Het, Hs.
  - rewrite Hsp. apply cstr_app. apply Forall_app. split; [apply format_no_nul|]. apply Forall_app.
    split; [by repeat constructor | by apply pad_no_nul].
Qed.

(** Lines of one thread in a row; the text of each time. *)
Fixpoint tips_times (nows : list Z) (c : cache) : outcome (list (list byte)) :=
  match nows with
  | [] => mret []
  | now :: nows => c ← tips_time now c; ts ← tips_times nows c; mret (cstr (kTimeBuf c) :: ts)
  end.

Lemma tips_times_ok nows c : cache_ok c → Forall (λ now, 1000000 <= now) nows →
  tips_times nows c = Ok (time_text <$> nows).
Proof.
  intros Hc Hn. revert c Hc. induction Hn as [|now nows Hnow _ IH]; intros c Hc; cbn [tips_times]; [done|].
  destruct (tips_time_ok now c Hc Hnow) as (c' & -> & Hc' & Ht). cstep. rewrite (IH c' Hc'). cstep. by rewrite Ht.
Qed.

(** C35. The thread-local time buffer is a correct cache: whatever times the lines of a thread
    have, in whatever order, each line shows its own second and its own microseconds, as if
    it had been formatted anew, and the buffer of 64 bytes is never overrun. *)
Theorem time_cache_correct nows :
  Forall (λ now, 1000000 <= now) nows → tips_times nows cache_init = Ok (time_text <$> nows).
Proof. apply tips_times_ok, cache_init_ok. Qed.

(** ** The line *)

(** Insertions that the stream renders as their text. *)
Definition plain (it : FixedOStream.item) : Prop :=
  match it with
  | FixedOStream.Int v => 0 <= v < 2 ^ 64
  | FixedOStream.Formatted (Some s) => zlen s < 2 ^ 31
  | FixedOStream.Formatted None | FixedOStream.CStr None => False
  | _ => True
  end.

Lemma until_null_plain its : Forall plain its → until_null its = its.
Proof. induction 1 as [|it its Hit _ IH]; [done|]. destruct it as [[]| | | |]; cbn in *; try done; by rewrite IH. Qed.

Lemma texts_app its its' : texts (its ++ its') = texts its ++ texts its'.
Proof. unfold texts. by rewrite fmap_app, concat_app. Qed.

Lemma plain_ok it : plain it → FixedOStream.item_ok it.
Proof. destruct it as [[]| | | |[]]; cbn; try done; lia. Qed.

Lemma spec_put_fits it q : plain it → zlen q + zlen (item_text it) + 32 <= kStreamSize →
  FixedOStream.spec_put kStreamSize it q = Ok (q ++ item_text it).
Proof.
  intros Hp Hz. unfold kStreamSize in *. destruct it as [[s|]|ch|v|s|[s|]]; cbn [FixedOStream.spec_put item_text] in *; try done.
  all: try (by match goal with |- context [if ?b then _ else _] => decide_test b end).
  cbn in Hp. unfold int_text in *. replace (v <? 0) with false in * by (symmetry; apply Z.ltb_ge; lia). pose proof (decimal_len v ltac:(lia)).
  by decide_test (1024 - zlen q <? 32).
Qed.

Lemma spec_puts_fits its q : Forall plain its → zlen q + zlen (texts its) + 32 <= kStreamSize →
  FixedOStream.spec_puts kStreamSize its q = Ok (q ++ texts its).
Proof.
  intros Hp. revert q. induction Hp as [|it its Hit _ IH]; intros q Hz; cbn [FixedOStream.spec_puts].
  - unfold texts. cbn. by rewrite app_nil_r.
  - change (texts (it :: its)) with (item_text it ++ texts its) in *. rewrite zlen_app in Hz.
    pose proof (zlen_nonneg (texts its)). rewrite spec_put_fits by (done || lia). cstep.
    rewrite IH by (rewrite zlen_app; lia). by rewrite <- (assoc_L (++)).
Qed.

Lemma puts_fits its st : FixedBuffer.wf kStreamSize st → Forall plain its →
  zlen (FixedBuffer.contents st) + zlen (texts its) + 32 <= kStreamSize →
  ∃ st', FixedOStream.puts kStreamSize its st = Ok st' ∧ FixedBuffer.wf kStreamSize st' ∧
         FixedBuffer.contents st' = FixedBuffer.contents st ++ texts its.
Proof.
  intros Hwf Hp Hz.
  pose proof (FixedOStream.puts_agrees kStreamSize its st Hwf (Forall_impl _ _ _ Hp plain_ok)) as Ha.
  rewrite spec_puts_fits in Ha by done. destruct (FixedOStream.puts kStreamSize its st) as [st'|f]; [|done].
  destruct Ha as [? Hc]. injection Hc as Hc. by exists st'.
Qed.

(** The finished line. *)
Definition line_text (now : Z) (level : Level) (file : list byte) (line : Z) (func : list byte)
  (pid tid : Z) (its : list FixedOStream.item) : list byte :=
  time_text now ++ [x20] ++ decimal pid ++ [x20] ++ decimal tid ++ [x20] ++ level_to_string level
    ++ chars " [" ++ basename file ++ [x3a] ++ func ++ [x3a] ++ decimal line ++ chars "]:: " ++ texts its ++ [x0a].

Lemma int_text_nonneg v : 0 <= v → int_text v = decimal v.
Proof. intros Hv. unfold int_text. by decide_test (v <? 0). Qed.

Lemma tips_texts now c level file line func pid tid its : cstr (kTimeBuf c) = time_text now →
  0 <= line → 0 <= pid → 0 <= tid →
  texts (tips_items c level file line func pid tid) ++ texts its ++ [x0a]
  = line_text now level file line func pid tid its.
Proof.
  intros Ht Hl Hp Hti. unfold texts at 1, tips_items, line_text. rewrite Ht. cbn [concat fmap list_fmap item_text].
  rewrite !int_text_nonneg by done. rewrite app_nil_r, <- !(assoc_L (++)). done.
Qed.

(** Both kinds of line. *)
Lemma log_line_ok now c level file line func pid tid its :
  cache_ok c → 1000000 <= now → 0 <= line < 2 ^ 31 → 0 <= pid < 2 ^ 31 → 0 <= tid < 2 ^ 31 → Forall plain its →
  zlen (line_text now level file line func pid tid its) + 32 <= kStreamSize →
  ∃ c', cache_ok c' ∧
    log_line now c level file line func pid tid its = Ok (c', line_text now level file line func pid tid its) ∧
    large_log_line now c level file line func pid tid its = Ok (c', line_text now level file line func pid tid its).
Proof.
  intros Hc Hn Hli Hpi Hti Hits Hz. destruct (tips_time_ok now c Hc Hn) as (c' & Htt & Hc' & Ht).
  exists c'. split; [done|]. unfold log_line, large_log_line. decide_test (line =? -1). cstep. rewrite Htt. cstep.
  pose proof (tips_texts now c' level file line func pid tid its Ht ltac:(lia) ltac:(lia) ltac:(lia)) as Htx.
  set (pre := tips_items c' level file line func pid tid) in *.
  assert (Forall plain pre) as Hpre by (repeat (apply Forall_cons; split; [cbn; done || lia|]); by apply Forall_nil).
  split; cycle 1.
  { rewrite until_null_plain by (apply Forall_app_2; [done | apply Forall_app_2; [done | by apply Forall_singleton]]).
    by rewrite !texts_app, <- Htx. }
  rewrite <- Htx in Hz |- *.
  rewrite !zlen_app in Hz. change (zlen [x0a]) with 1 in Hz. pose proof (zlen_nonneg (texts pre)). pose proof (zlen_nonneg (texts its)).
  assert (FixedBuffer.wf kStreamSize (FixedOStream.ctor (replicate (Z.to_nat kStreamSize) x00))) as Hwf
    by (apply FixedBuffer.fixed_ctor_wf; [unfold kStreamSize; lia | by rewrite zlen_replicate]).
  destruct (puts_fits pre _ Hwf Hpre) as (st1 & -> & Hwf1 & H1); [change (zlen _) with 0 at 1; lia|]. cstep.
  change (FixedBuffer.contents (FixedOStream.ctor _)) with (@nil byte) in H1. rewrite app_nil_l in H1.
  destruct (puts_fits its st1 Hwf1 Hits) as (st2 & -> & Hwf2 & H2); [rewrite H1; lia|]. cstep.
  destruct (puts_fits [FixedOStream.Char x0a] st2 Hwf2) as (st3 & H3' & Hwf3 & H3); 
    [by apply Forall_singleton | change (texts [_]) with [x0a]; change (zlen [x0a]) with 1; rewrite H2, H1, zlen_app; lia |].
  cbn [FixedOStream.puts] in H3'. destruct (FixedOStream.put kStreamSize _ st2) as [st3'|]; [|done].
  injection H3' as ->. cstep. pose proof Hwf3 as (Hl3 & Hcu3 & _). unfold FixedOStream.size, FixedOStream.data, FixedBuffer.size.
  rewrite read_range_ok by lia. cstep. change (slice 0 _ _) with (FixedBuffer.contents st3). rewrite H3, H2, H1, <- !(assoc_L (++)). done.
Qed.
End Event.

(** ** Witnesses *)

Definition demo_tm (sec : Z) : Timestamp.tm := Timestamp.mkTm 125 5 15 (sec mod 24) (sec mod 60) (sec mod 60).

Lemma demo_tm_ok : ∀ sec, 0 <= sec → Timestamp.tm_ok (demo_tm sec).
Proof.
  intros sec _. unfold Timestamp.tm_ok, demo_tm. cbn [Timestamp.tm_year Timestamp.tm_mon Timestamp.tm_mday Timestamp.tm_hour Timestamp.tm_min Timestamp.tm_sec].
  pose proof (Z.mod_pos_bound sec 24). pose proof (Z.mod_pos_bound sec 60). lia.
Qed.

Lemma time_cache_correct_witness :
  tips_times demo_tm [1000000; 1000042; 61000000] cache_init
  = Ok [chars "20250615 01:01:01.000000"; chars "20250615 01:01:01.000042"; chars "20250615 13:01:01.000000"].
Proof.
  rewrite (time_cache_correct demo_tm demo_tm_ok).
  - vm_compute. reflexivity.
  - repeat (apply Forall_cons; split; [lia|]). by apply Forall_nil.
Defined.

End Event.
