(* ===== verification/FileApp.v ===== *)
(** * [log::FileAppender] (clia/log/file_appender.h, src/log/file_appender.cc)

    The appender that writes to a log file, starts a new file when the current one is large or
    old, and removes files that are past their retention.  The clock, [localtime_r] and the file
    system are parameters: what [time], [fopen], [fwrite_unlocked] and [readdir] answer at the
    k-th question.  The state records what was handed to each stream in the order the streams
    were opened, and the paths that were removed.

    The proofs show that no byte is lost and no message is split between two files, when exactly
    a new file is started, which files are removed, and that the appender keeps to the interface
    the loggers are proved against. *)

From S2P Require Import Prelude StrFunc Log AsyncLog LogEvent.

Module FileAppender.

Inductive stream := Stderr | LogFile (filename : list byte).

(** The [const] members. *)
Record config := mkConfig {
  path_ : list byte;
  logname_ : list byte;
  roll_size_byte_ : Z;
  roll_period_sec_ : Z;
  retain_period_sec_ : Z;
  check_every_ : Z;
  lck_ : bool
}.

(** The other members, and what the process did so far: the questions asked of its
    environment, the streams closed with their contents, what went into the open one, how much
    of that is known to have left the buffer of stdio, the paths removed and whether the
    directory had to be made. *)
Record t := mk {
  conf : config;
  count_ : Z;
  last_roll_time_ : Z;
  this_roll_period_ : Z;
  written_bytes_ : Z;
  file_ : option stream;
  tick : nat;
  past : list (stream * list byte);
  cur : list byte;
  synced : Z;
  removed : list (list byte);
  made_dir : bool
}.

(** ** Text *)

(** The order of [strncmp]: unsigned characters, the end of a string before all others. *)
Fixpoint strncmp (n : nat) (a b : list byte) : comparison :=
  match n with
  | O => Eq
  | S n =>
      match a, b with
      | [], [] => Eq
      | [], _ :: _ => Lt
      | _ :: _, [] => Gt
      | x :: a, y :: b =>
          match (Byte.to_N x ?= Byte.to_N y)%N with Eq => strncmp n a b | c => c end
      end
  end.

(** [std::string::find(sub) != npos] *)
Fixpoint contains (sub s : list byte) : bool :=
  bool_decide (sub `prefix_of` s) || match s with [] => false | _ :: s => contains sub s end.

(** ** State changes *)

Definition tick_up s : t :=
  mk (conf s) (count_ s) (last_roll_time_ s) (this_roll_period_ s) (written_bytes_ s) (file_ s) (S (tick s))
    (past s) (cur s) (synced s) (removed s) (made_dir s).

Definition set_count n s : t :=
  mk (conf s) n (last_roll_time_ s) (this_roll_period_ s) (written_bytes_ s) (file_ s) (tick s)
    (past s) (cur s) (synced s) (removed s) (made_dir s).

Definition set_roll_time now period s : t :=
  mk (conf s) (count_ s) now period (written_bytes_ s) (file_ s) (tick s) (past s) (cur s) (synced s) (removed s) (made_dir s).

Definition set_written n s : t :=
  mk (conf s) (count_ s) (last_roll_time_ s) (this_roll_period_ s) n (file_ s) (tick s)
    (past s) (cur s) (synced s) (removed s) (made_dir s).

Definition remove_files ps s : t :=
  mk (conf s) (count_ s) (last_roll_time_ s) (this_roll_period_ s) (written_bytes_ s) (file_ s) (tick s)
    (past s) (cur s) (synced s) (removed s ++ ps) (made_dir s).

(** Characters handed to the open stream. *)
Definition emit bs s : t :=
  mk (conf s) (count_ s) (last_roll_time_ s) (this_roll_period_ s) (written_bytes_ s) (file_ s) (tick s)
    (past s) (cur s ++ bs) (synced s) (removed s) (made_dir s).

(** The open stream, if any, is left for [f]. *)
Definition switch_to f s : t :=
  mk (conf s) (count_ s) (last_roll_time_ s) (this_roll_period_ s) (written_bytes_ s) (Some f) (tick s)
    (past s ++ match file_ s with Some g => [(g, cur s)] | None => [] end) [] 0 (removed s) (made_dir s).

(** [flush]: [fflush] of the open stream. *)
Definition flush s : t :=
  mk (conf s) (count_ s) (last_roll_time_ s) (this_roll_period_ s) (written_bytes_ s) (file_ s) (tick s)
    (past s) (cur s) (zlen (cur s)) (removed s) (made_dir s).

(** The destructor flushes and closes a log file. *)
Definition dtor s : t :=
  match file_ s with
  | Some (LogFile f) =>
      mk (conf s) (count_ s) (last_roll_time_ s) (this_roll_period_ s) (written_bytes_ s) None (tick s)
        (past s ++ [(LogFile f, cur s)]) [] 0 (removed s) (made_dir s)
  | _ => s
  end.

Section FileAppender.
Variable localtime_r : Z → Timestamp.tm.
Variable pid : Z.
(** The answers to the k-th question. *)
Variable clock : nat → Z.
Variable fopen_succeeds : nat → list byte → bool.
(** The number of characters written, and whether the error indicator is set. *)
Variable fwrite_unlocked : nat → list byte → Z * bool.
(** Whether each entry is a regular file, and its name; [None] when [opendir] fails. *)
Variable readdir : nat → option (list (bool * list byte)).

(** [strftime(outbuf, size, "%Y%m%d%H%M%S", ...)]: nothing if the text does not fit. *)
Definition get_date_prefix (size tm : Z) : list byte :=
  let m := localtime_r tm in
  let s := decimal (Timestamp.tm_year m + 1900) ++ zpad 2 (Timestamp.tm_mon m + 1) ++ zpad 2 (Timestamp.tm_mday m)
             ++ zpad 2 (Timestamp.tm_hour m) ++ zpad 2 (Timestamp.tm_min m) ++ zpad 2 (Timestamp.tm_sec m) in
  if zlen s <? size then s else [].

(** The name [get_logfilename] makes with the time [tm]. *)
Definition logfilename (c : config) (tm : Z) : list byte :=
  let timebuf := get_date_prefix 32 tm in
  let filename := path_ c in
  let filename := match last filename with
                  | Some a => if decide (a = x2f) then filename else filename ++ [x2f]
                  | None => filename
                  end in
  let filename := filename ++ timebuf ++ [x2e] ++ decimal pid ++ [x2e] ++ logname_ c in
  if contains (chars ".log") (logname_ c) then filename else filename ++ chars ".log".

Definition get_logfilename s : list byte * t :=
  (logfilename (conf s) (clock (tick s)), tick_up s).

(** The directory entries [del_old_files] collects, with [timebuf]. *)
Definition is_old (timebuf : list byte) (e : bool * list byte) : bool :=
  e.1 && match strncmp (length timebuf) e.2 timebuf with Lt => true | _ => false end.

Definition del_old_files s : outcome t :=
  old ← sint_checked 64 (clock (tick s) - retain_period_sec_ (conf s));
  let s := tick_up s in
  let timebuf := get_date_prefix 32 old in
  let dir := readdir (tick s) in
  let s := tick_up s in
  match dir with
  | None => mret s
  | Some entries =>
      let old_files := (λ e, path_ (conf s) ++ [x2f] ++ snd e) <$> filter (λ e, is_old timebuf e = true) entries in
      mret (remove_files old_files s)
  end.

(** [now / roll_period_sec_ * roll_period_sec_] *)
Definition period_of (now sec : Z) : outcome Z :=
  _ ← check (negb (sec =? 0)) DivideByZero;
  sint_checked 64 (Z.quot now sec * sec).

Definition roll_file s : outcome t :=
  let now := clock (tick s) in
  let s := tick_up s in
  if negb (last_roll_time_ s =? now) then
    let '(filename, s) := get_logfilename s in
    period ← period_of now (roll_period_sec_ (conf s));
    let s := set_roll_time now period s in
    let opened := fopen_succeeds (tick s) filename in
    let s := switch_to (if opened then LogFile filename else Stderr) (tick_up s) in
    let s := set_written 0 s in
    del_old_files s
  else mret s.

(** The [while] loop of [append_unlocked]: the state and [written]. *)
Fixpoint write_loop (fuel : nat) (buf : list byte) (written : Z) s : outcome (t * Z) :=
  if written =? zlen buf then mret (s, written) else
  match fuel with
  | O => Fault OutOfFuel
  | S fuel =>
      let remain := u64 (zlen buf - written) in
      data ← read_range written remain buf;
      _ ← check (bool_decide (is_Some (file_ s))) OutOfBounds;
      let '(n, err) := fwrite_unlocked (tick s) data in
      let s := emit (take (Z.to_nat n) data) (tick_up s) in
      if negb (n =? remain) && err then mret (s, written)
      else write_loop fuel buf (u64 (written + n)) s
  end.

(** The decision to roll. *)
Definition check_roll s : outcome t :=
  if roll_size_byte_ (conf s) <? written_bytes_ s then roll_file s
  else
    count ← sint_checked 32 (count_ s + 1);
    if check_every_ (conf s) <=? count then
      let s := set_count 0 s in
      this_period ← period_of (clock (tick s)) (roll_period_sec_ (conf s));
      let s := tick_up s in
      if negb (this_period =? this_roll_period_ s) then roll_file s else mret s
    else mret (set_count count s).

Definition append_unlocked (buf : list byte) s : outcome t :=
  s ← check_roll s;
  '(s, written) ← write_loop (length buf) buf 0 s;
  mret (set_written (u64 (written_bytes_ s + written)) s).

(** [append]; [None] is the null pointer.  The mutex only serialises the calls. *)
Definition append (buf : option (list byte)) s : outcome t :=
  match buf with
  | None => mret s
  | Some buf => if zlen buf =? 0 then mret s else append_unlocked buf s
  end.

(** [days * 24 * 60 * 60] in [int] *)
Definition days_to_sec (days : Z) : outcome Z :=
  x ← sint_checked 32 (days * 24);
  x ← sint_checked 32 (x * 60);
  sint_checked 32 (x * 60).

(** [exists_] is the answer of [access]. *)
Definition ctor (path logname : list byte) (roll_size_byte roll_period_days retain_period_day check_every : Z)
  (thread_safe exists_ : bool) : outcome t :=
  roll_period_sec ← days_to_sec roll_period_days;
  retain_period_sec ← days_to_sec retain_period_day;
  roll_file (mk (mkConfig path logname roll_size_byte roll_period_sec retain_period_sec check_every thread_safe)
               0 0 0 0 None O [] [] 0 [] (negb exists_)).

(** ** Properties *)

(** Everything handed to the streams, in order. *)
Definition view s : list byte := concat (past s).*2 ++ cur s.

(** What [append] relies on: a stream to write to, a period to divide by, a counter below its
    limit and a count of bytes that is true. *)
Record wf s : Prop := {
  wf_file : is_Some (file_ s);
  wf_period : 1 <= roll_period_sec_ (conf s) < 2 ^ 31;
  wf_retain : - 2 ^ 31 <= retain_period_sec_ (conf s) < 2 ^ 31;
  wf_check : check_every_ (conf s) < 2 ^ 31;
  wf_count : 0 <= count_ s < Z.max 1 (check_every_ (conf s));
  wf_written : written_bytes_ s = u64 (zlen (cur s))
}.

(** [time] is never negative nor close to the end of its range. *)
Hypothesis clock_range : ∀ k, 0 < clock k < 2 ^ 62.

Lemma period_of_ok now sec : 0 <= now < 2 ^ 62 → 1 <= sec → period_of now sec = Ok (now / sec * sec).
Proof.
  intros Hn Hs. unfold period_of. decide_test (sec =? 0). cstep. rewrite Z.quot_div_nonneg by lia.
  pose proof (Z.mul_div_le now sec ltac:(lia)). pose proof (Z.div_pos now sec ltac:(lia) ltac:(lia)).
  apply sint_checked_range. change (64 - 1) with 63. lia.
Qed.

(** *** Writing *)

(** [j] questions later, with [bs] handed to the stream. *)
Definition wrote (j : nat) (bs : list byte) s : t :=
  mk (conf s) (count_ s) (last_roll_time_ s) (this_roll_period_ s) (written_bytes_ s) (file_ s) (j + tick s)
    (past s) (cur s ++ bs) (synced s) (removed s) (made_dir s).

Lemma wrote_nothing s : wrote 0 [] s = s.
Proof. destruct s. unfold wrote. cbn. by rewrite app_nil_r. Qed.

Lemma wrote_wrote i j xs ys s : wrote j ys (wrote i xs s) = wrote (i + j) (xs ++ ys) s.
Proof. unfold wrote. cbn. rewrite (assoc_L (++)). f_equal. lia. Qed.

(** [fwrite] takes some of what it is offered, and something unless it fails. *)
Definition fwrite_law : Prop := ∀ k data n err, fwrite_unlocked k data = (n, err) →
  0 <= n <= zlen data ∧ (err = false → data ≠ [] → 0 < n).

Definition reliable : Prop := ∀ k data, (fwrite_unlocked k data).2 = false.

Lemma write_loop_ok fuel buf written s :
  fwrite_law → is_Some (file_ s) → zlen buf < 2 ^ 64 → 0 <= written <= zlen buf → zlen buf - written <= Z.of_nat fuel →
  ∃ j k w, write_loop fuel buf written s = Ok (wrote j (slice written k buf) s, w) ∧
    0 <= k ∧ w <= written + k <= zlen buf ∧ (reliable → w = zlen buf ∧ k = zlen buf - written).
Proof.
  intros Hlaw Hf Hb. revert written s Hf. induction fuel as [|fuel IH]; intros written s Hf Hw Hfuel.
  - assert (written = zlen buf) as -> by lia. cbn. rewrite Z.eqb_refl. exists 0%nat, 0, (zlen buf).
    rewrite slice_0, wrote_nothing. split_and!; first [done | lia | intros; lia].
  - cbn [write_loop]. destruct (Z.eqb_spec written (zlen buf)) as [->|Hne].
    { exists 0%nat, 0, (zlen buf). rewrite slice_0, wrote_nothing. split_and!; first [done | lia | intros; lia]. }
    rewrite u64_small by lia. rewrite read_range_ok by lia. cstep. rewrite bool_decide_true by done. cstep.
    set (data := slice written (zlen buf - written) buf).
    assert (zlen data = zlen buf - written) as Hd by (apply zlen_slice; lia).
    destruct (fwrite_unlocked (tick s) data) as [n err] eqn:E. destruct (Hlaw _ _ _ _ E) as [Hn Hpos].
    assert (take (Z.to_nat n) data = slice written n buf) as -> by (apply take_slice; lia).
    change (emit (slice written n buf) (tick_up s)) with (wrote 1 (slice written n buf) s).
    destruct (negb (n =? zlen buf - written) && err) eqn:Eb.
    { exists 1%nat, n, written. split_and!; [done | lia | lia | lia |]. intros Hr. specialize (Hr (tick s) data).
      rewrite E in Hr. cbn in Hr. unbool. congruence. }
    assert (0 < n).
    { destruct err; [|apply Hpos; [done|]; intros Hd0; rewrite Hd0, zlen_nil in Hd; lia].
      rewrite andb_true_r in Eb. unbool. lia. }
    rewrite u64_small by lia. rewrite Hd in Hn.
    destruct (IH (written + n) (wrote 1 (slice written n buf) s)) as (j & k & w & -> & Hk & Hwk & Hr);
      [done | lia | lia |].
    exists (1 + j)%nat, (n + k), w. rewrite wrote_wrote, <- slice_add by lia.
    split_and!; [done | lia | lia | lia |]. intros Hrel. destruct (Hr Hrel). lia.
Qed.

(** *** Rolling *)

Lemma del_old_files_ok s : - 2 ^ 31 <= retain_period_sec_ (conf s) < 2 ^ 31 →
  ∃ old_files, del_old_files s = Ok (remove_files old_files (tick_up (tick_up s))).
Proof.
  intros Hr. unfold del_old_files. pose proof (clock_range (tick s)).
  rewrite sint_checked_range by (change (64 - 1) with 63; lia). cstep.
  destruct (readdir _) as [entries|]; [by eexists|]. exists []. unfold remove_files, tick_up. cbn. by rewrite app_nil_r.
Qed.

(** The stream a roll at question [k] opens. *)
Definition opened (k : nat) (c : config) : stream :=
  let filename := logfilename c (clock (S k)) in
  if fopen_succeeds (S (S k)) filename then LogFile filename else Stderr.

(** The appender right after it has opened [f] at [now]. *)
Definition reopened (f : stream) (now period : Z) s : t :=
  mk (conf s) (count_ s) now period 0 (Some f) (3 + tick s)
    (past s ++ match file_ s with Some g => [(g, cur s)] | None => [] end) [] 0 (removed s) (made_dir s).

Lemma roll_file_eq s :
  roll_file s =
  if negb (last_roll_time_ s =? clock (tick s))
  then period_of (clock (tick s)) (roll_period_sec_ (conf s)) ≫= λ period,
         del_old_files (reopened (opened (tick s) (conf s)) (clock (tick s)) period s)
  else Ok (tick_up s).
Proof. reflexivity. Qed.

Lemma roll_file_ok s :
  1 <= roll_period_sec_ (conf s) → - 2 ^ 31 <= retain_period_sec_ (conf s) < 2 ^ 31 →
  if last_roll_time_ s =? clock (tick s) then roll_file s = Ok (tick_up s)
  else ∃ old_files, roll_file s = Ok (remove_files old_files (tick_up (tick_up
         (reopened (opened (tick s) (conf s)) (clock (tick s))
            (clock (tick s) / roll_period_sec_ (conf s) * roll_period_sec_ (conf s)) s)))).
Proof.
  intros Hp Hr. rewrite roll_file_eq. destruct (last_roll_time_ s =? clock (tick s)); cbn [negb]; [done|].
  pose proof (clock_range (tick s)). rewrite period_of_ok by lia. cstep. by apply del_old_files_ok.
Qed.

(** Whether the next message starts a new file: the current one has grown beyond the limit, or
    the counter has run out and another period has begun; never twice in one second. *)
Definition rolls s : bool :=
  if roll_size_byte_ (conf s) <? written_bytes_ s then negb (last_roll_time_ s =? clock (tick s))
  else (check_every_ (conf s) <=? count_ s + 1)
       && negb (clock (tick s) / roll_period_sec_ (conf s) * roll_period_sec_ (conf s) =? this_roll_period_ s)
       && negb (last_roll_time_ s =? clock (S (tick s))).

(** A message goes into the stream [f] whose earlier contents are [pre]. *)
Lemma check_roll_ok s : wf s →
  ∃ s', check_roll s = Ok s' ∧ wf s' ∧ conf s' = conf s ∧
    if rolls s
    then past s' = past s ++ match file_ s with Some g => [(g, cur s)] | None => [] end ∧ cur s' = []
    else past s' = past s ∧ cur s' = cur s ∧ file_ s' = file_ s.
Proof.
  intros [Hf Hp Hr Hc Hn Hw]. unfold check_roll, rolls.
  destruct (roll_size_byte_ (conf s) <? written_bytes_ s).
  { pose proof (roll_file_ok s ltac:(lia) Hr) as H.
    destruct (last_roll_time_ s =? clock (tick s)); cbn [negb].
    - exists (tick_up s). split_and!; done.
    - destruct H as [old_files ->]. eexists; split_and!; try done; split; cbn; first [done | lia]. }
  rewrite sint_checked_range by (change (32 - 1) with 31; lia). cstep.
  destruct (check_every_ (conf s) <=? count_ s + 1) eqn:Ec; unbool; cbn [andb].
  2: { eexists; split_and!; try done; split; cbn; first [done | lia]. }
  cbn [conf set_count tick]. pose proof (clock_range (tick s)). rewrite period_of_ok by lia. cstep.
  cbn [this_roll_period_ tick_up set_count].
  destruct (_ =? this_roll_period_ s); cbn [negb andb].
  { eexists; split_and!; try done; split; cbn; first [done | lia]. }
  pose proof (roll_file_ok (tick_up (set_count 0 s)) ltac:(cbn; lia) Hr) as Hroll.
  cbn [tick_up set_count last_roll_time_ tick] in Hroll.
  destruct (last_roll_time_ s =? clock (S (tick s))); cbn [negb].
  - rewrite Hroll. eexists; split_and!; try done; split; cbn; first [done | lia].
  - destruct Hroll as [old_files ->]. eexists; split_and!; try done; split; cbn; first [done | lia].
Qed.

Lemma u64_add_l x y : u64 (u64 x + y) = u64 (x + y).
Proof. unfold u64. by rewrite Zplus_mod_idemp_l. Qed.

Lemma append_unlocked_ok buf s : fwrite_law → reliable → wf s → zlen buf < 2 ^ 64 →
  ∃ s', append_unlocked buf s = Ok s' ∧ wf s' ∧ conf s' = conf s ∧
    if rolls s
    then past s' = past s ++ match file_ s with Some g => [(g, cur s)] | None => [] end ∧ cur s' = buf
    else past s' = past s ∧ cur s' = cur s ++ buf ∧ file_ s' = file_ s.
Proof.
  intros Hlaw Hrel Hwf Hb. unfold append_unlocked.
  destruct (check_roll_ok s Hwf) as (s1 & -> & Hwf1 & Hc1 & Hcase). cstep. pose proof (zlen_nonneg buf).
  destruct (write_loop_ok (length buf) buf 0 s1) as (j & k & w & -> & Hk & Hw & Hr);
    [done | apply Hwf1 | done | lia | unfold zlen; lia |].
  destruct (Hr Hrel) as [-> ->]. rewrite Z.sub_0_r, slice_all. cstep.
  eexists. split; [done|]. destruct Hwf1 as [? ? ? ? ? Hwr].
  split; [|split; [done|]].
  - split; cbn; try done. rewrite Hwr, u64_add_l, zlen_app. done.
  - destruct (rolls s); [destruct Hcase as (Hp & Hcur) | destruct Hcase as (Hp & Hcur & ?)];
      cbn; by rewrite Hcur.
Qed.

Lemma append_view buf s : fwrite_law → reliable → wf s → zlen buf < 2 ^ 64 →
  ∃ s', append (Some buf) s = Ok s' ∧ wf s' ∧ view s' = view s ++ buf.
Proof.
  intros Hlaw Hrel Hwf Hb. cbn. destruct (Z.eqb_spec (zlen buf) 0) as [Hz|Hz].
  { apply zlen_nil_inv in Hz as ->. exists s. by rewrite app_nil_r. }
  destruct (append_unlocked_ok buf s Hlaw Hrel Hwf Hb) as (s' & -> & Hwf' & _ & Hcase).
  exists s'. split; [done|]. split; [done|]. destruct (wf_file s Hwf) as [g Hg]. unfold view.
  destruct (rolls s); [destruct Hcase as [-> ->] | destruct Hcase as (-> & -> & _)].
  - rewrite Hg, fmap_app, concat_app. cbn. by rewrite app_nil_r, <- (assoc_L (++)).
  - by rewrite (assoc_L (++)).
Qed.

(** *** Names *)

(** The number a date prefix reads as. *)
Definition stamp (tm : Z) : Z :=
  let m := localtime_r tm in
  ((((Timestamp.tm_year m + 1900) * 100 + (Timestamp.tm_mon m + 1)) * 100 + Timestamp.tm_mday m) * 1000000
   + (Timestamp.tm_hour m * 100 + Timestamp.tm_min m) * 100 + Timestamp.tm_sec m).

Definition four_digit_year (tm : Z) : Prop :=
  Timestamp.tm_ok (localtime_r tm) ∧ 1000 <= Timestamp.tm_year (localtime_r tm) + 1900.

Lemma dec_value_app xs ys : dec_value (xs ++ ys) = dec_value xs * 10 ^ zlen ys + dec_value ys.
Proof.
  induction ys as [|c ys IH] using rev_ind; [rewrite app_nil_r, zlen_nil; change (dec_value []) with 0; lia|].
  rewrite (assoc_L (++)), !dec_value_snoc, IH, zlen_app. change (zlen [c]) with 1.
  pose proof (zlen_nonneg ys). rewrite Z.pow_add_r by lia. lia.
Qed.

Lemma dec_value_zeros k : dec_value (replicate k x30) = 0.
Proof. induction k as [|k IH]; [done|]. rewrite replicate_S_end, dec_value_snoc, IH. done. Qed.

Lemma zpad_value w n : 0 <= n < 10 ^ 20 → dec_value (zpad w n) = n.
Proof.
  intros Hn. unfold zpad, pad_with. rewrite dec_value_app, dec_value_zeros. apply rdigits_value. exact Hn.
Qed.

Lemma zpad_digits w n : Forall (λ c, is_digit c = true) (zpad w n).
Proof. apply Forall_app. split; [by apply Forall_replicate | apply Forall_rev, rdigits_digits]. Qed.

Lemma dec_value_bound ds : Forall (λ c, is_digit c = true) ds → 0 <= dec_value ds < 10 ^ zlen ds.
Proof.
  induction ds as [|c ds IH] using rev_ind; intros Hd; [done|].
  apply Forall_app in Hd as [Hd Hc]. inversion_clear Hc as [|? ? Hc' _]. unfold is_digit in Hc'. unbool.
  rewrite dec_value_snoc, zlen_app. change (zlen [c]) with 1. pose proof (zlen_nonneg ds).
  rewrite Z.pow_add_r by lia. specialize (IH Hd). lia.
Qed.

(** Digit strings of one length are ordered as the numbers they denote. *)
Lemma strncmp_digits a rest b :
  Forall (λ c, is_digit c = true) a → Forall (λ c, is_digit c = true) b → length a = length b →
  strncmp (length b) (a ++ rest) b = (dec_value a ?= dec_value b)%Z.
Proof.
  revert b. induction a as [|x a IH]; intros [|y b] Ha Hb Hl; try done. cbn [length app strncmp].
  inversion_clear Ha as [|? ? _ Ha']. inversion_clear Hb as [|? ? _ Hb']. injection Hl as Hl.
  pose proof (dec_value_app [x] a) as Hxa. pose proof (dec_value_app [y] b) as Hyb. cbn [app] in Hxa, Hyb.
  rewrite Hxa, Hyb. change (dec_value [x]) with (digit_value x). change (dec_value [y]) with (digit_value y).
  pose proof (dec_value_bound a Ha'). pose proof (dec_value_bound b Hb').
  assert (zlen a = zlen b) as Hz by (unfold zlen; by rewrite Hl). rewrite Hz in *.
  unfold digit_value. rewrite <- N2Z.inj_compare.
  destruct (Z.compare_spec (Z.of_N (Byte.to_N x)) (Z.of_N (Byte.to_N y))) as [->|Hlt|Hgt].
  - rewrite IH by done. symmetry. apply Z.add_compare_mono_l.
  - symmetry. apply Z.compare_lt_iff. nia.
  - symmetry. apply Z.compare_gt_iff. nia.
Qed.

Lemma year_digits y : 1000 <= y < 10000 → decimal y = zpad 4 y.
Proof.
  intros Hy. unfold zpad, pad_with. replace (4 - length (decimal y))%nat with 0%nat; [done|].
  pose proof (dec_value_bound (decimal y) ltac:(apply Forall_rev, rdigits_digits)) as Hb.
  unfold decimal in Hb at 1 2. rewrite rdigits_value in Hb by (rewrite pow_max_digits; lia).
  destruct (decide (length (decimal y) < 4)%nat) as [Hlt|]; [|lia].
  assert (10 ^ zlen (decimal y) <= 10 ^ 3); [|cbn in *; lia]. apply Z.pow_le_mono_r; unfold zlen; lia.
Qed.

Lemma date_prefix_stamp tm : four_digit_year tm →
  Forall (λ c, is_digit c = true) (get_date_prefix 32 tm) ∧ length (get_date_prefix 32 tm) = 14%nat ∧
  dec_value (get_date_prefix 32 tm) = stamp tm.
Proof.
  intros [(? & ? & ? & ? & ? & ?) Hy]. unfold get_date_prefix, stamp. set (m := localtime_r tm) in *.
  rewrite year_digits by lia. set (text := zpad 4 _ ++ _).
  assert (length text = 14%nat) as Hl.
  { unfold text, zpad. rewrite !length_app, (pad_length x30 3), !(pad_length x30 1) by (cbn; lia). done. }
  unfold zlen. rewrite Hl. cbn [Z.of_nat]. decide_test (Z.of_nat 14 <? 32).
  split_and!; [|done|].
  - unfold text. rewrite !Forall_app. split_and!; apply zpad_digits.
  - unfold text. rewrite !dec_value_app, !zpad_value by (cbn; lia).
    unfold zpad, zlen. rewrite !length_app, !(pad_length x30 1) by (cbn; lia).
    cbn [Nat.add Z.of_nat Pos.of_succ_nat Pos.succ Z.pow Z.pow_pos Pos.iter Z.mul Pos.mul]. lia.
Qed.

Lemma is_old_stamp tm old rest : four_digit_year tm → four_digit_year old →
  is_old (get_date_prefix 32 old) (true, get_date_prefix 32 tm ++ rest) = (stamp tm <? stamp old).
Proof.
  intros Ht Ho. destruct (date_prefix_stamp tm Ht) as (Hd & Hl & <-). destruct (date_prefix_stamp old Ho) as (Hd' & Hl' & <-).
  unfold is_old. cbn [fst snd andb]. rewrite strncmp_digits by congruence. by unfold Z.ltb.
Qed.

Definition log_path (c : config) (name : list byte) : list byte := path_ c ++ [x2f] ++ name.

(** The paths [del_old_files] removes. *)
Lemma del_old_files_removes s entries :
  - 2 ^ 31 <= retain_period_sec_ (conf s) < 2 ^ 31 → readdir (S (tick s)) = Some entries →
  let timebuf := get_date_prefix 32 (clock (tick s) - retain_period_sec_ (conf s)) in
  ∃ old_files, del_old_files s = Ok (remove_files old_files (tick_up (tick_up s))) ∧
    ∀ name, log_path (conf s) name ∈ old_files ↔ ∃ b, (b, name) ∈ entries ∧ is_old timebuf (b, name) = true.
Proof.
  intros Hr Hd timebuf. unfold del_old_files. pose proof (clock_range (tick s)).
  rewrite sint_checked_range by (change (64 - 1) with 63; lia). cstep. cbn [tick_up tick conf]. rewrite Hd.
  eexists. split; [done|]. intros name. rewrite list_elem_of_fmap. unfold log_path. split.
  - intros ([b n] & Heq & Hin). apply list_elem_of_filter in Hin as [Ho Hin]. cbn [snd] in Heq.
    apply (inj (app (path_ (conf s)))) in Heq. injection Heq as ->. by exists b.
  - intros (b & Hin & Ho). exists (b, name). split; [done|]. by apply list_elem_of_filter.
Qed.

(** *** Theorems *)



(** C39. Whatever the disk does, [append] returns: its loop ends because [fwrite] makes progress or
    reports an error, and what reaches the streams is the front of the message. *)
Theorem append_returns_despite_errors buf s :
  fwrite_law → wf s → 0 < zlen buf < 2 ^ 64 →
  ∃ s' k, append (Some buf) s = Ok s' ∧ 0 <= k <= zlen buf ∧ view s' = view s ++ take (Z.to_nat k) buf.
Proof.
  intros Hlaw Hwf Hb. cbn. decide_test (zlen buf =? 0). unfold append_unlocked.
  destruct (check_roll_ok s Hwf) as (s1 & -> & Hwf1 & _ & Hcase). cstep.
  destruct (write_loop_ok (length buf) buf 0 s1) as (j & k & w & -> & Hk & Hw & _);
    [done | apply Hwf1 | lia | lia | unfold zlen; lia |]. cstep.
  eexists _, k. split; [done|]. split; [lia|]. destruct (wf_file s Hwf) as [g Hg]. unfold view. cbn.
  rewrite (assoc_L (++)). f_equal.
  destruct (rolls s); [destruct Hcase as [-> ->] | by destruct Hcase as (-> & -> & _)].
  rewrite Hg, fmap_app, concat_app. cbn. by rewrite !app_nil_r.
Qed.

(** C37. Retention: of the log files in the directory, recognised by a name that begins with the
    second they were opened, [del_old_files] removes exactly those whose calendar time lies
    before the time [retain_period_sec_] ago. *)
Theorem expired_log_files_removed s entries tm rest :
  - 2 ^ 31 <= retain_period_sec_ (conf s) < 2 ^ 31 → readdir (S (tick s)) = Some entries →
  four_digit_year tm → four_digit_year (clock (tick s) - retain_period_sec_ (conf s)) →
  (true, get_date_prefix 32 tm ++ rest) ∈ entries →
  ∃ old_files, del_old_files s = Ok (remove_files old_files (tick_up (tick_up s))) ∧
    (log_path (conf s) (get_date_prefix 32 tm ++ rest) ∈ old_files
     ↔ stamp tm < stamp (clock (tick s) - retain_period_sec_ (conf s))).
Proof.
  intros Hr Hd Ht Ho Hin. destruct (del_old_files_removes s entries Hr Hd) as (old_files & Hdel & Hiff).
  exists old_files. split; [done|]. rewrite Hiff, <- Z.ltb_lt, <- (is_old_stamp tm _ rest) by done. split.
  - intros ([] & _ & Hold); [done | discriminate Hold].
  - intros Hold. by exists true.
Qed.

(** Rolling never removes the file it has just opened, if the retention exceeds the duration
    of the roll by a day and local time does not go back by a day. *)
Theorem roll_keeps_its_file s entries :
  wf s → last_roll_time_ s ≠ clock (tick s) → readdir (4 + tick s) = Some entries →
  four_digit_year (clock (S (tick s))) → four_digit_year (clock (3 + tick s)%nat - retain_period_sec_ (conf s)) →
  (∀ t t', t + 86400 <= t' → stamp t <= stamp t') →
  clock (3 + tick s)%nat + 86400 <= clock (S (tick s)) + retain_period_sec_ (conf s) →
  (∃ c, last (path_ (conf s)) = Some c ∧ c ≠ x2f) →
  ∃ s' old_files, roll_file s = Ok s' ∧ removed s' = removed s ++ old_files ∧
    logfilename (conf s) (clock (S (tick s))) ∉ old_files.
Proof.
  intros Hwf Hne Hd Hyear Hyear' Hmono Hret (c & Hc & Hsl). destruct Hwf as [_ Hp Hr _ _ _].
  rewrite roll_file_eq. pose proof (clock_range (tick s)). decide_test (last_roll_time_ s =? clock (tick s)).
  rewrite period_of_ok by lia. cstep. set (s1 := reopened _ _ _ _).
  destruct (del_old_files_removes s1 entries Hr Hd) as (old_files & -> & Hiff).
  eexists _, old_files. split; [done|]. split; [done|].
  assert (∃ rest, logfilename (conf s) (clock (S (tick s))) = log_path (conf s) (get_date_prefix 32 (clock (S (tick s))) ++ rest))
    as [rest ->].
  { unfold logfilename, log_path. rewrite Hc, decide_False by done.
    destruct (contains _ _); eexists; rewrite <- !(assoc_L (++)); reflexivity. }
  change (conf s) with (conf s1). rewrite Hiff. intros (b & _ & Hold). destruct b; [|discriminate Hold].
  rewrite is_old_stamp in Hold by done. apply Z.ltb_lt in Hold.
  cbn [s1 reopened tick conf] in Hold. specialize (Hmono (clock (3 + tick s)%nat - retain_period_sec_ (conf s)) (clock (S (tick s)))).
  lia.
Qed.

(** A regular file whose name begins with a full stop is removed from the directory, whoever
    made it and however new it is: the full stop sorts before every digit. *)
Theorem hidden_files_removed s entries name :
  - 2 ^ 31 <= retain_period_sec_ (conf s) < 2 ^ 31 → readdir (S (tick s)) = Some entries →
  four_digit_year (clock (tick s) - retain_period_sec_ (conf s)) → (true, x2e :: name) ∈ entries →
  ∃ old_files, del_old_files s = Ok (remove_files old_files (tick_up (tick_up s))) ∧
    log_path (conf s) (x2e :: name) ∈ old_files.
Proof.
  intros Hr Hd Ho Hin. destruct (del_old_files_removes s entries Hr Hd) as (old_files & Hdel & Hiff).
  exists old_files. split; [done|]. rewrite Hiff. exists true. split; [done|].
  destruct (date_prefix_stamp _ Ho) as (Hdg & Hl & _). unfold is_old. cbn [fst snd andb].
  destruct (get_date_prefix 32 _) as [|d ds]; [done|]. inversion_clear Hdg as [|? ? Hdig _].
  cbn [length strncmp]. unfold is_digit, digit_value in Hdig. unbool.
  change (Byte.to_N x2e) with 46%N. by replace (46 ?= Byte.to_N d)%N with Lt by (symmetry; apply N.compare_lt_iff; lia).
Qed.

Lemma days_to_sec_ok days : - 24855 <= days <= 24855 → days_to_sec days = Ok (days * 86400).
Proof.
  intros Hd. unfold days_to_sec. change (32 - 1) with 31.
  do 3 (rewrite sint_checked_range by (change (2 ^ (32 - 1)) with 2147483648; lia); cstep).
  f_equal. lia.
Qed.

Lemma days_to_sec_overflow days : 24855 < days < 2 ^ 31 → days_to_sec days = Fault SignedOverflow.
Proof.
  intros Hd. unfold days_to_sec. destruct (decide (days * 24 < 2 ^ 31)); cycle 1.
  { by rewrite sint_checked_overflow by (change (32 - 1) with 31; lia). }
  rewrite sint_checked_range by (change (32 - 1) with 31; lia). cstep.
  destruct (decide (days * 24 * 60 < 2 ^ 31)); cycle 1.
  { by rewrite sint_checked_overflow by (change (32 - 1) with 31; lia). }
  rewrite sint_checked_range by (change (32 - 1) with 31; lia). cstep.
  apply sint_checked_overflow. change (2 ^ (32 - 1)) with 2147483648. lia.
Qed.

(** The constructor: periods of up to 24855 days fit an [int] in seconds, and the appender is
    then ready, with its first file open; a longer period overflows, and a roll period of zero
    days divides by zero. *)
Theorem ctor_accepts_periods path logname size days retain check_every thread_safe exists_ :
  check_every < 2 ^ 31 → 0 <= days < 2 ^ 31 → 0 <= retain <= 24855 →
  match ctor path logname size days retain check_every thread_safe exists_ with
  | Ok s => 1 <= days <= 24855 ∧ wf s ∧ past s = [] ∧ cur s = [] ∧ made_dir s = negb exists_
  | Fault SignedOverflow => 24855 < days
  | Fault f => f = DivideByZero ∧ days = 0
  end.
Proof.
  intros Hce Hd Hr. unfold ctor. destruct (decide (days <= 24855)) as [Hle|Hgt].
  - rewrite !days_to_sec_ok by lia. cstep. set (s0 := mk _ _ _ _ _ _ _ _ _ _ _ _).
    pose proof (clock_range 0). destruct (decide (days = 0)) as [->|Hnz].
    + rewrite roll_file_eq. cbn [s0 last_roll_time_ tick conf roll_period_sec_]. decide_test (0 =? clock 0).
      done.
    + pose proof (roll_file_ok s0 ltac:(cbn; lia) ltac:(cbn; lia)) as H1. cbn [s0 last_roll_time_ tick] in H1.
      replace (0 =? clock 0) with false in H1 by (symmetry; apply Z.eqb_neq; lia).
      destruct H1 as [old_files ->]. cbn. split; [lia|]. split; [|done]. split; cbn; first [done | lia].
  - rewrite (days_to_sec_overflow days) by lia. cstep. lia.
Qed.

(** *** The appender as the loggers see it *)

(** [append] as a total function: no message is larger than an object can be. *)
Definition append_total (buf : list byte) s : t :=
  if zlen buf <=? kMaxObject then match append (Some buf) s with Ok s' => s' | Fault _ => s end else s.

Lemma append_total_ok buf s : fwrite_law → reliable → wf s →
  wf (append_total buf s) ∧ (zlen buf <= kMaxObject → view (append_total buf s) = view s ++ buf).
Proof.
  intros Hl Hr Hwf. unfold append_total. destruct (Z.leb_spec (zlen buf) kMaxObject) as [Hb|Hb].
  - destruct (append_view buf s Hl Hr Hwf) as (s' & -> & ? & ?); [unfold kMaxObject in Hb; lia | done].
  - split; [done | lia].
Qed.

Lemma flush_wf s : wf s → wf (flush s).
Proof. intros [? ? ? ? ? ?]. by split. Qed.

(** A [FileAppender] with a working disk is an appender. *)
Section Disk.
Hypothesis Hl : fwrite_law.
Hypothesis Hr : reliable.

#[local, refine] Instance file_appender : Appender (sig wf) := {|
  Log.append buf a := exist _ (append_total buf (`a)) (proj1 (append_total_ok buf _ Hl Hr (proj2_sig a)));
  Log.flush a := exist _ (flush (`a)) (flush_wf _ (proj2_sig a));
  Log.view a := view (`a)
|}.
Proof.
  - intros bs [s Hwf] Hb. cbn. by apply append_total_ok.
  - done.
Defined.

End Disk.
End FileAppender.
End FileAppender.

(** ** Instances of the theorems *)

Module FileDemo.
Import FileAppender.

Definition localtime_r (t : Z) : Timestamp.tm :=
  Timestamp.mkTm (if t <? 1550000000 then 120 else 123) 0 1 0 0 0.

Definition clock (k : nat) : Z := 1700000000 + Z.min 1000 (Z.of_nat k).

Definition fopen_succeeds (k : nat) (name : list byte) : bool := true.

Definition fwrite_unlocked (k : nat) (data : list byte) : Z * bool := (zlen data, false).

(** Half of the data at a time, and then a full disk. *)
Definition bad_fwrite (k : nat) (data : list byte) : Z * bool :=
  (zlen data / 2, (6 <? Z.of_nat k) || (zlen data <? 2)).

Definition names : list (bool * list byte) :=
  [(true, chars "20200101000000.7.x.log"); (true, chars ".keep"); (true, chars "20230101000000.7.x.log")].

Definition readdir (k : nat) : option (list (bool * list byte)) := Some names.

(** 1500 days of retention, 10 bytes per file. *)
Definition start : t :=
  match ctor localtime_r 7 clock fopen_succeeds readdir (chars "logs") (chars "x") 10 1 1500 1024 false true with
  | Ok s => s
  | Fault _ => mk (mkConfig [] [] 0 0 0 0 false) 0 0 0 0 None O [] [] 0 [] false
  end.

(** Comparisons of concrete numbers. *)
Ltac eval_range := vm_compute; repeat split; first [reflexivity | discriminate].

Lemma clock_range k : 0 < clock k < 2 ^ 62.
Proof. unfold clock. lia. Qed.

Lemma fwrite_ok : fwrite_law fwrite_unlocked.
Proof.
  intros k data n err [= <- <-]. pose proof (zlen_nonneg data). split; [lia|]. intros _ Hd.
  destruct (decide (zlen data = 0)) as [Hz|]; [by apply zlen_nil_inv in Hz | lia].
Qed.

Lemma fwrite_reliable : reliable fwrite_unlocked.
Proof. done. Qed.

Lemma bad_fwrite_ok : fwrite_law bad_fwrite.
Proof.
  intros k data n err [= <- <-]. pose proof (zlen_nonneg data) as Hz.
  pose proof (Z.div_pos (zlen data) 2). pose proof (Z.mul_div_le (zlen data) 2). split; [lia|].
  intros [_ Hlt]%orb_false_iff _. apply Z.ltb_ge in Hlt. apply Z.div_str_pos. lia.
Qed.

Lemma start_wf : wf start.
Proof. split; [by eexists | eval_range..]. Qed.

Lemma demo_year t : four_digit_year localtime_r t.
Proof.
  unfold four_digit_year, Timestamp.tm_ok, localtime_r. cbn. destruct (t <? 1550000000); lia.
Qed.

(** Twelve characters are more than the limit: the next message finds a new file. *)
Definition full_file : t :=
  match append localtime_r 7 clock fopen_succeeds fwrite_unlocked readdir (Some (replicate 12 x41)) start with
  | Ok s => s
  | Fault _ => start
  end.



Lemma append_returns_despite_errors_witness :
  ∃ s' k, append localtime_r 7 clock fopen_succeeds bad_fwrite readdir (Some (replicate 12 x41)) start = Ok s' ∧
    0 <= k <= 12 ∧ view s' = take (Z.to_nat k) (replicate 12 x41).
Proof.
  apply (append_returns_despite_errors localtime_r 7 clock fopen_succeeds bad_fwrite readdir clock_range
           (replicate 12 x41) start bad_fwrite_ok start_wf). eval_range.
Defined.

Lemma expired_log_files_removed_witness :
  ∃ old_files, del_old_files localtime_r clock readdir start
               = Ok (remove_files old_files (tick_up (tick_up start))) ∧
    chars "logs/20200101000000.7.x.log" ∈ old_files.
Proof.
  destruct (expired_log_files_removed localtime_r clock readdir clock_range start names 1500000000 (chars ".7.x.log"))
    as (old_files & Hd & Hiff).
  - eval_range.
  - reflexivity.
  - apply demo_year.
  - apply demo_year.
  - apply list_elem_of_lookup. exists 0%nat. vm_compute. reflexivity.
  - exists old_files. split; [exact Hd|]. apply Hiff. vm_compute. reflexivity.
Defined.

Lemma hidden_files_removed_witness :
  ∃ old_files, del_old_files localtime_r clock readdir start
               = Ok (remove_files old_files (tick_up (tick_up start))) ∧ chars "logs/.keep" ∈ old_files.
Proof.
  apply (hidden_files_removed localtime_r clock readdir clock_range start names (chars "keep")).
  - eval_range.
  - reflexivity.
  - apply demo_year.
  - apply list_elem_of_lookup. exists 1%nat. vm_compute. reflexivity.
Defined.

Lemma roll_keeps_its_file_witness :
  ∃ s' old_files, roll_file localtime_r 7 clock fopen_succeeds readdir start = Ok s' ∧
    removed s' = removed start ++ old_files ∧
    logfilename localtime_r 7 (conf start) (clock (S (tick start))) ∉ old_files.
Proof.
  apply (roll_keeps_its_file localtime_r 7 clock fopen_succeeds readdir clock_range start names start_wf).
  - vm_compute. discriminate.
  - reflexivity.
  - apply demo_year.
  - apply demo_year.
  - intros t t' Ht. unfold stamp, localtime_r. cbn [Timestamp.tm_year Timestamp.tm_mon Timestamp.tm_mday Timestamp.tm_hour Timestamp.tm_min Timestamp.tm_sec].
    destruct (Z.ltb_spec t 1550000000), (Z.ltb_spec t' 1550000000); lia.
  - vm_compute. discriminate.
  - exists x73. split; [reflexivity | discriminate].
Defined.

Lemma ctor_accepts_periods_witness :
  ctor localtime_r 7 clock fopen_succeeds readdir (chars "logs") (chars "x") 10 1 1500 1024 false true = Ok start ∧
  wf start ∧ cur start = [].
Proof.
  split; [vm_compute; reflexivity|].
  pose proof (ctor_accepts_periods localtime_r 7 clock fopen_succeeds readdir clock_range (chars "logs") (chars "x") 10 1 1500 1024
                false true ltac:(lia) ltac:(lia) ltac:(lia)) as H.
  unfold start at 1. destruct (ctor _ _ _ _ _ _ _ _ _ _ _ _ _) eqn:E.
  - destruct H as (_ & Hwf & _ & Hc & _). split; [exact Hwf|]. unfold start. rewrite E. exact Hc.
  - vm_compute in E. discriminate E.
Defined.

(** An asynchronous logger with buffers of eight bytes on the appender [start]. *)
#[local] Instance demo_appender : Appender (sig wf) :=
  file_appender localtime_r 7 clock fopen_succeeds fwrite_unlocked readdir clock_range fwrite_ok fwrite_reliable.

Definition fresh : sig wf := exist _ start start_wf.

Definition async_run : AsyncLogger.state (sig wf) :=
  let s := AsyncLogger.init 8 kInfo fresh in
  match AsyncLogger.run 8 AsyncLogger.demo_notice AsyncLogger.demo_labels s with Ok s => s | Fault _ => s end.

Definition async_end : AsyncLogger.state (sig wf) :=
  match AsyncLogger.exec 8 AsyncLogger.demo_notice AsyncLogger.Sync async_run with Ok s => s | Fault _ => async_run end.

End FileDemo.
