(* ===== verification/TcpServer.v ===== *)
(** * [net::TcpServer] (clia/net/tcp_server.h, src/net/tcp_server.cc)

    The server owns the map from descriptors to connections; the connections live on the loops of
    the pool, each loop in its own thread.  The state holds the server, the connection objects
    (each with its descriptor, its loop and its state), and the functors waiting in each loop.
    A step is what one thread does between two waits: the acceptor reports a descriptor, a loop
    calls its next functor, a loop handles the close event of a connection, a user shuts a
    connection down, or the last reference to a connection goes away.

    Of a connection only its state matters here.  The functions [established], [close_event] and
    [destroyed] on states are what the file Connection's functions do to it.

    The proofs show that in every interleaving every assertion of the server and of the
    connections' life holds, that a descriptor in the map belongs to the connection it is mapped
    to, and that a closed connection is removed, destroyed and its descriptor released. *)

From stdpp Require Import sorting.
From S2P Require Import Prelude Reactor Connection ThreadPool.

Module TcpServer.
Import TcpConnection(State, kConnecting, kConnected, kDisconnecting, kDisconnected, State_eq_dec).

(** ** What happens to the state of a connection *)

Definition established (st : State) : outcome State :=
  _ ← cassert (bool_decide (kConnecting = st)); mret kConnected.

Definition close_event (st : State) : outcome State :=
  _ ← cassert (bool_decide (kConnected = st) || bool_decide (kDisconnecting = st)); mret kDisconnected.

(** [channel_.remove()] asserts that the channel was added and watches nothing any more, as after
    [disable_all]. *)
Definition destroyed (st : State) : outcome State :=
  let st := if decide (st = kConnected) then kDisconnected else st in
  _ ← cassert (bool_decide (st = kDisconnected)); mret st.

(** ** State *)

Record object := mkObject { fd_ : Z; io_loop : nat; state_ : State }.

Inductive functor := Established (c : nat) | RemoveInLoop (c : nat) | Destroyed (c : nat).

Definition target (f : functor) : nat :=
  match f with Established c => c | RemoveInLoop c => c | Destroyed c => c end.

(** [loop_] is [base_loop_] of the pool; the thread of the loop [l] has the id [l]. *)
Record t := mk {
  threadpool_ : EventLoopThreadPool.t;
  next_conn_id_ : Z;
  started_ : Z;
  listening_ : bool;
  connections_ : gmap Z nat;
  conns : gmap nat object;
  pending : list (nat * functor)
}.

Definition loop_ s : nat := EventLoopThreadPool.base_loop_ (threadpool_ s).

Definition tid (l : nat) : Z := Z.of_nat l.

Definition in_loop_thread (cur : nat) s : bool := bool_decide (cur = loop_ s).

Definition with_conns cs s : t :=
  mk (threadpool_ s) (next_conn_id_ s) (started_ s) (listening_ s) (connections_ s) cs (pending s).

Definition with_pending p s : t :=
  mk (threadpool_ s) (next_conn_id_ s) (started_ s) (listening_ s) (connections_ s) (conns s) p.

Definition with_connections m s : t :=
  mk (threadpool_ s) (next_conn_id_ s) (started_ s) (listening_ s) m (conns s) (pending s).

Definition deref (c : nat) s : outcome object :=
  match conns s !! c with Some o => mret o | None => Fault OutOfBounds end.

Definition set_state (c : nat) (o : object) (st : State) s : t :=
  with_conns (<[c := mkObject (fd_ o) (io_loop o) st]> (conns s)) s.

(** ** Functors *)

Definition queue_in_loop (l : nat) (f : functor) s : t := with_pending (pending s ++ [(l, f)]) s.

Definition remove_connection_in_loop (cur c : nat) s : outcome t :=
  _ ← cassert (in_loop_thread cur s);
  o ← deref c s;
  _ ← cassert (bool_decide (connections_ s !! fd_ o = Some c));
  let s := with_connections (delete (fd_ o) (connections_ s)) s in
  mret (queue_in_loop (io_loop o) (Destroyed c) s).

Definition run_functor (cur : nat) (f : functor) s : outcome t :=
  match f with
  | Established c =>
      o ← deref c s;
      _ ← cassert (bool_decide (cur = io_loop o));
      st ← established (state_ o);
      mret (set_state c o st s)
  | Destroyed c =>
      o ← deref c s;
      _ ← cassert (bool_decide (cur = io_loop o));
      st ← destroyed (state_ o);
      mret (set_state c o st s)
  | RemoveInLoop c => remove_connection_in_loop cur c s
  end.

(** [run_in_loop] of the loop [l], called in the thread of [cur]. *)
Definition run_in_loop (cur l : nat) (f : functor) s : outcome t :=
  if decide (cur = l) then run_functor cur f s else mret (queue_in_loop l f s).

(** ** Operations *)

Definition ctor (base : nat) : t := mk (EventLoopThreadPool.ctor base (tid base)) 1 0 false ∅ ∅ [].

Definition set_thread_num (num : Z) s : t :=
  mk (EventLoopThreadPool.set_thread_num num (threadpool_ s)) (next_conn_id_ s) (started_ s) (listening_ s)
    (connections_ s) (conns s) (pending s).

(** The increment of a [std::atomic_int] wraps. *)
Definition wrap32 (x : Z) : Z := (x + 2 ^ 31) mod 2 ^ 32 - 2 ^ 31.

(** [start]; the loops the new threads return are [fresh].  The pool asserts that the caller is
    the base loop's thread, so [Acceptor::listen] runs at once. *)
Definition start (cur : nat) (fresh : nat → nat) s : outcome t :=
  let first := started_ s =? 0 in
  let s := mk (threadpool_ s) (next_conn_id_ s) (wrap32 (started_ s + 1)) (listening_ s)
             (connections_ s) (conns s) (pending s) in
  if first then
    p ← EventLoopThreadPool.start (tid cur) fresh (threadpool_ s);
    _ ← cassert (negb (listening_ s));
    mret (mk p (next_conn_id_ s) (started_ s) true (connections_ s) (conns s) (pending s))
  else mret s.

(** The acceptor's callback; [c] is the address of the new connection. *)
Definition new_connection (cur : nat) (sockfd : Z) (c : nat) s : outcome t :=
  _ ← cassert (in_loop_thread cur s);
  '(io, p) ← EventLoopThreadPool.get_next_loop (tid cur) (threadpool_ s);
  id ← sint_checked 32 (next_conn_id_ s + 1);
  _ ← cassert (negb (sockfd =? -1));
  _ ← cassert (bool_decide (connections_ s !! sockfd = None));
  let s := mk p id (started_ s) (listening_ s) (<[sockfd := c]> (connections_ s))
             (<[c := mkObject sockfd io kConnecting]> (conns s)) (pending s) in
  run_in_loop cur io (Established c) s.

Definition remove_connection (cur c : nat) s : outcome t := run_in_loop cur (loop_ s) (RemoveInLoop c) s.

(** [TcpConnection::handle_close] in its loop: the new state, then the close callback. *)
Definition handle_close (c : nat) s : outcome t :=
  o ← deref c s;
  st ← close_event (state_ o);
  remove_connection (io_loop o) c (set_state c o st s).

(** The user's [TcpConnection::shutdown]. *)
Definition shutdown (c : nat) s : outcome t :=
  o ← deref c s;
  mret (if decide (state_ o = kConnected) then set_state c o kDisconnecting s else s).

(** The loop of the destructor: the entry is cleared and the connection destroyed in its loop. *)
Fixpoint destroy_all (cur : nat) (entries : list (Z * nat)) s : outcome t :=
  match entries with
  | [] => mret s
  | (fd, c) :: entries =>
      o ← deref c s;
      s ← run_in_loop cur (io_loop o) (Destroyed c) (with_connections (delete fd (connections_ s)) s);
      destroy_all cur entries s
  end.

Definition key_le (x y : Z * nat) : Prop := x.1 <= y.1.

#[global] Instance key_le_dec x y : Decision (key_le x y) := Z_le_dec x.1 y.1.

(** [~TcpServer]; a [std::map] is traversed in the order of its keys. *)
Definition dtor (cur : nat) s : outcome t :=
  _ ← cassert (in_loop_thread cur s);
  destroy_all cur (merge_sort key_le (map_to_list (connections_ s))) s.

(** The destructor of a connection, with its socket. *)
Definition release (c : nat) s : outcome t :=
  o ← deref c s;
  _ ← cassert (bool_decide (state_ o = kDisconnected));
  mret (with_conns (delete c (conns s)) s).

(** ** Steps *)

(** The first functor waiting in the loop [l], and the others. *)
Fixpoint pick (l : nat) (p : list (nat * functor)) : option (functor * list (nat * functor)) :=
  match p with
  | [] => None
  | (l', f) :: p => if decide (l' = l) then Some (f, p)
                    else match pick l p with Some (g, r) => Some (g, (l', f) :: r) | None => None end
  end.

Inductive label :=
| Start (fresh : nat → nat)
| Accept (sockfd : Z) (c : nat)
| Run (l : nat)
| HangUp (c : nat)
| UserShutdown (c : nat)
| Release (c : nat).

(** Whether a connection's channel is registered with epoll. *)
Definition watched (st : State) : bool :=
  bool_decide (st = kConnected) || bool_decide (st = kDisconnecting).

Definition refs (c : nat) (p : list (nat * functor)) : list (nat * functor) := filter (λ x, target x.2 = c) p.
Arguments refs : simpl never.

(** Only what can happen: a listening socket yields descriptors that are not open, an event
    arrives for a registered channel only, users hold live connections, a connection goes away
    when neither the map nor a functor refers to it. *)
Definition enabled (lb : label) s : bool :=
  match lb with
  | Start _ => true
  | Accept sockfd c =>
      listening_ s && (0 <=? sockfd) && bool_decide (conns s !! c = None)
      && bool_decide (map_Forall (λ _ o, fd_ o ≠ sockfd) (conns s))
  | Run l => match pick l (pending s) with Some _ => true | None => false end
  | HangUp c => match conns s !! c with Some o => watched (state_ o) | None => false end
  | UserShutdown c => bool_decide (is_Some (conns s !! c))
  | Release c =>
      match conns s !! c with
      | Some o => bool_decide (connections_ s !! fd_ o ≠ Some c) && bool_decide (refs c (pending s) = [])
      | None => false
      end
  end.

Definition perform (lb : label) s : outcome t :=
  match lb with
  | Start fresh => start (loop_ s) fresh s
  | Accept sockfd c => new_connection (loop_ s) sockfd c s
  | Run l =>
      match pick l (pending s) with
      | Some (f, rest) => run_functor l f (with_pending rest s)
      | None => mret s
      end
  | HangUp c => handle_close c s
  | UserShutdown c => shutdown c s
  | Release c => release c s
  end.

Definition exec (lb : label) s : outcome t := if enabled lb s then perform lb s else mret s.

Fixpoint run (ls : list label) s : outcome t :=
  match ls with
  | [] => mret s
  | lb :: ls => s ← exec lb s; run ls s
  end.

(** ** Invariant *)

(** Where a connection is in its life: its place in the map and the one functor that waits for
    it determine each other. *)
Definition stage s (c : nat) (o : object) : Prop :=
  (connections_ s !! fd_ o = Some c ∧ state_ o = kConnecting ∧ refs c (pending s) = [(io_loop o, Established c)]) ∨
  (connections_ s !! fd_ o = Some c ∧ watched (state_ o) = true ∧ refs c (pending s) = []) ∨
  (connections_ s !! fd_ o = Some c ∧ state_ o = kDisconnected ∧ refs c (pending s) = [(loop_ s, RemoveInLoop c)]) ∨
  (connections_ s !! fd_ o ≠ Some c ∧ state_ o = kDisconnected ∧
   (refs c (pending s) = [(io_loop o, Destroyed c)] ∨ refs c (pending s) = [])).

Definition pool_ok s : Prop :=
  let p := threadpool_ s in
  EventLoopThreadPool.base_tid p = tid (loop_ s) ∧ EventLoopThreadPool.num_threads_ p < 2 ^ 31 ∧
  0 <= started_ s ∧
  if started_ s =? 0
  then listening_ s = false ∧ EventLoopThreadPool.started_ p = false ∧ EventLoopThreadPool.next_ p = 0 ∧
       EventLoopThreadPool.loops_ p = []
  else EventLoopThreadPool.started_ p = true ∧ zlen (EventLoopThreadPool.loops_ p) < 2 ^ 31 ∧
       (EventLoopThreadPool.loops_ p ≠ [] →
        0 <= EventLoopThreadPool.next_ p < zlen (EventLoopThreadPool.loops_ p)).

Record sinv s : Prop := {
  si_map : ∀ fd c, connections_ s !! fd = Some c → ∃ o, conns s !! c = Some o ∧ fd_ o = fd;
  si_fds : ∀ c c' o o', conns s !! c = Some o → conns s !! c' = Some o' → fd_ o = fd_ o' → c = c';
  si_stage : ∀ c o, conns s !! c = Some o → stage s c o;
  si_pending : ∀ x, x ∈ pending s → is_Some (conns s !! target x.2);
  si_pool : pool_ok s
}.

Lemma refs_app c p q : refs c (p ++ q) = refs c p ++ refs c q.
Proof. apply filter_app. Qed.

Lemma refs_one c l f : refs c [(l, f)] = if decide (target f = c) then [(l, f)] else [].
Proof. unfold refs. rewrite filter_cons, filter_nil. cbn. by destruct (decide (target f = c)). Qed.

Lemma refs_nil s c : sinv s → conns s !! c = None → refs c (pending s) = [].
Proof.
  intros Hi Hc. destruct (refs c (pending s)) as [|x r] eqn:E; [done|].
  assert (x ∈ refs c (pending s)) as Hx by (rewrite E; left). apply list_elem_of_filter in Hx as [Ht Hx].
  destruct (si_pending s Hi x Hx) as [o Ho]. rewrite Ht in Ho. congruence.
Qed.

Lemma pick_spec l p f r : pick l p = Some (f, r) → ∃ a b, p = a ++ (l, f) :: b ∧ r = a ++ b.
Proof.
  revert r. induction p as [|[l' g] p IH]; intros r; cbn; [done|]. destruct (decide (l' = l)) as [->|].
  - intros [= -> ->]. by exists [], r.
  - destruct (pick l p) as [[h q]|]; [|done]. intros [= -> <-]. destruct (IH q eq_refl) as (a & b & -> & ->).
    by exists ((l', g) :: a), b.
Qed.

(** Taking the next functor off a queue. *)
Lemma pick_refs l p f r : pick l p = Some (f, r) →
  (∀ c, c ≠ target f → refs c r = refs c p) ∧ (l, f) ∈ refs (target f) p ∧ (∀ x, x ∈ r → x ∈ p) ∧
  (∀ x, refs (target f) p = [x] → x = (l, f) ∧ refs (target f) r = []).
Proof.
  intros (a & b & -> & ->)%pick_spec. split_and!.
  - intros c Hc. rewrite !refs_app, (refs_app c [(l, f)] b : refs c ((l, f) :: b) = _), refs_one.
    by rewrite decide_False by congruence.
  - apply list_elem_of_filter. split; [done|]. set_solver.
  - set_solver.
  - intros x. rewrite !refs_app, (refs_app (target f) [(l, f)] b : refs _ ((l, f) :: b) = _), refs_one, decide_True by done.
    destruct (refs (target f) a) as [|y ra]; cbn; [by intros [= <- ->]|].
    intros [= _ Hx]. by destruct ra.
Qed.

Lemma stage_frame s s' c o :
  connections_ s' !! fd_ o = connections_ s !! fd_ o → refs c (pending s') = refs c (pending s) →
  loop_ s' = loop_ s → stage s c o → stage s' c o.
Proof. unfold stage. by intros -> -> ->. Qed.

(** A change of one connection, its functors and its entry in the map. *)
Lemma sinv_touch s s' c o st :
  sinv s → conns s !! c = Some o → conns s' = <[c := mkObject (fd_ o) (io_loop o) st]> (conns s) →
  loop_ s' = loop_ s → pool_ok s' → delete (fd_ o) (connections_ s') = delete (fd_ o) (connections_ s) →
  (∀ c', connections_ s' !! fd_ o = Some c' → c' = c) →
  (∀ c', c' ≠ c → refs c' (pending s') = refs c' (pending s)) →
  (∀ x, x ∈ pending s' → x ∈ pending s ∨ target x.2 = c) →
  stage s' c (mkObject (fd_ o) (io_loop o) st) → sinv s'.
Proof.
  intros [Hm Hf Hst Hp _] Hc Hcs Hl Hpool Hdel Hown Hrefs Hpend Hstage.
  assert (∀ fd, fd ≠ fd_ o → connections_ s' !! fd = connections_ s !! fd) as Hother.
  { intros fd Hne. rewrite <- (lookup_delete_ne (connections_ s') (fd_ o) fd), Hdel by done. by apply lookup_delete_ne. }
  split; rewrite ?Hcs; [| | | |done].
  - intros fd c' Hfd. destruct (decide (fd = fd_ o)) as [->|Hne].
    { apply Hown in Hfd as ->. rewrite lookup_insert_eq. by eexists. }
    rewrite Hother in Hfd by done. destruct (Hm fd c' Hfd) as (o' & Ho' & <-).
    rewrite lookup_insert_ne by congruence. by exists o'.
  - intros c1 c2 o1 o2 H1 H2 Heq.
    assert (∀ d e, <[c := mkObject (fd_ o) (io_loop o) st]> (conns s) !! d = Some e → ∃ e', conns s !! d = Some e' ∧ fd_ e' = fd_ e) as Hold.
    { intros d e. destruct (decide (d = c)) as [->|Hne]; [rewrite lookup_insert_eq | rewrite lookup_insert_ne by done]; [|by eauto].
      intros [= <-]. by exists o. }
    destruct (Hold _ _ H1) as (e1 & ? & ?), (Hold _ _ H2) as (e2 & ? & ?). apply (Hf c1 c2 e1 e2); congruence.
  - intros c' o'. destruct (decide (c' = c)) as [->|Hne]; [rewrite lookup_insert_eq; by intros [= <-]|].
    rewrite lookup_insert_ne by done. intros Ho'. apply (stage_frame s); [|by apply Hrefs|done|by apply Hst].
    apply Hother. intros He. apply Hne. by apply (Hf c' c o' o).
  - intros x [Hx|<-]%Hpend; [|rewrite lookup_insert_eq; by eexists].
    destruct (decide (target x.2 = c)) as [->|Hne]; [rewrite lookup_insert_eq; by eexists|].
    rewrite lookup_insert_ne by done. by apply Hp.
Qed.

(** ** Every step keeps it *)

Lemma object_eta o : mkObject (fd_ o) (io_loop o) (state_ o) = o.
Proof. by destruct o. Qed.

(** The functor at the head of a queue is the one its connection's stage names. *)
Lemma picked s l f r : sinv s → pick l (pending s) = Some (f, r) →
  ∃ o, conns s !! target f = Some o ∧ refs (target f) r = [] ∧
    match f with
    | Established c => connections_ s !! fd_ o = Some c ∧ state_ o = kConnecting ∧ l = io_loop o
    | RemoveInLoop c => connections_ s !! fd_ o = Some c ∧ state_ o = kDisconnected ∧ l = loop_ s
    | Destroyed c => connections_ s !! fd_ o ≠ Some c ∧ state_ o = kDisconnected ∧ l = io_loop o
    end.
Proof.
  intros Hi Hp. destruct (pick_refs l _ f r Hp) as (_ & Hin & _ & Hone).
  assert (is_Some (conns s !! target f)) as [o Ho].
  { apply (si_pending s Hi (l, f)). by apply list_elem_of_filter in Hin as [_ ?]. }
  exists o. split; [done|].
  destruct (si_stage s Hi _ _ Ho) as [(Hm & Hs & Hr)|[(Hm & Hs & Hr)|[(Hm & Hs & Hr)|(Hm & Hs & [Hr|Hr])]]];
    try (rewrite Hr in Hin; by apply elem_of_nil in Hin);
    destruct (Hone _ Hr) as [[= <- Hf] ?]; (split; [done|]); rewrite <- Hf in *; done.
Qed.

Lemma run_functor_sinv s l f r : sinv s → pick l (pending s) = Some (f, r) →
  ∃ s', run_functor l f (with_pending r s) = Ok s' ∧ sinv s' ∧ next_conn_id_ s' = next_conn_id_ s ∧ started_ s' = started_ s.
Proof.
  intros Hi Hp. destruct (picked s l f r Hi Hp) as (o & Ho & Hr & Hf).
  destruct (pick_refs l _ f r Hp) as (Hother & _ & Hsub & _).
  destruct f as [c|c|c]; cbn [target] in *; destruct Hf as (Hm & Hs & Hl); cbn [run_functor].
  - unfold deref. cbn [conns with_pending]. rewrite Ho. cstep. rewrite bool_decide_true by done. cstep.
    rewrite Hs. cbn. eexists. split; [done|]. split; [|done]. apply (sinv_touch s _ c o kConnected Hi); try done.
    + apply Hi.
    + cbn. intros c' Hc'. congruence.
    + intros x Hx. left. by apply Hsub.
    + right; left. done.
  - unfold remove_connection_in_loop, deref, in_loop_thread. rewrite bool_decide_true by done. cstep.
    cbn [conns with_pending connections_]. rewrite Ho. cstep. rewrite bool_decide_true by done. cstep.
    eexists. split; [done|]. split; [|done]. apply (sinv_touch s _ c o (state_ o) Hi); try done; cbn.
    + by rewrite object_eta, insert_id.
    + apply Hi.
    + apply delete_delete_eq.
    + intros c'. by rewrite lookup_delete_eq.
    + intros c' Hne. rewrite refs_app, refs_one, decide_False, app_nil_r by (cbn; congruence). by apply Hother.
    + intros x. rewrite elem_of_app, list_elem_of_singleton. intros [?| ->]; [left; by apply Hsub | by right].
    + right; right; right. cbn. rewrite lookup_delete_eq, refs_app, refs_one, decide_True, Hr by done.
      split; [done|]. split; [done | by left].
  - unfold deref. cbn [conns with_pending]. rewrite Ho. cstep. rewrite bool_decide_true by done. cstep.
    rewrite Hs. cbn. eexists. split; [done|]. split; [|done]. apply (sinv_touch s _ c o kDisconnected Hi); try done.
    + apply Hi.
    + intros c' Hc'. destruct (si_map s Hi _ _ Hc') as (o' & Ho' & Hfd). by apply (si_fds s Hi c' c o' o).
    + intros x Hx. left. by apply Hsub.
    + right; right; right. cbn. split; [done|]. split; [done | by right].
Qed.

Lemma handle_close_sinv s c o : sinv s → conns s !! c = Some o → watched (state_ o) = true →
  ∃ s', handle_close c s = Ok s' ∧ sinv s' ∧ next_conn_id_ s' = next_conn_id_ s ∧ started_ s' = started_ s.
Proof.
  intros Hi Ho Hw.
  assert (connections_ s !! fd_ o = Some c ∧ refs c (pending s) = []) as [Hm Hr].
  { destruct (si_stage s Hi c o Ho) as [(? & Hs & ?)|[(? & ? & ?)|[(? & Hs & ?)|(? & Hs & _)]]];
      [rewrite Hs in Hw; done | done | rewrite Hs in Hw; done..]. }
  assert (close_event (state_ o) = Ok kDisconnected) as Hce.
  { unfold close_event. destruct (state_ o); done. }
  unfold handle_close, deref. rewrite Ho. cstep. rewrite Hce. cstep.
  unfold remove_connection, run_in_loop. set (s1 := set_state c o kDisconnected s).
  destruct (decide (io_loop o = loop_ s1)) as [Hl|Hl].
  - cbn [run_functor]. unfold remove_connection_in_loop, deref, in_loop_thread. rewrite bool_decide_true by done. cstep.
    cbn [s1 set_state with_conns conns connections_]. rewrite lookup_insert_eq. cstep. cbn [fd_ io_loop].
    rewrite bool_decide_true by done. cstep. eexists. split; [done|]. split; [|done].
    apply (sinv_touch s _ c o kDisconnected Hi); try done; cbn.
    + apply Hi.
    + apply delete_delete_eq.
    + intros c'. by rewrite lookup_delete_eq.
    + intros c' Hne. by rewrite refs_app, refs_one, decide_False, app_nil_r by (cbn; congruence).
    + intros x. rewrite elem_of_app, list_elem_of_singleton. intros [?| ->]; [by left | by right].
    + right; right; right. cbn. rewrite lookup_delete_eq, refs_app, refs_one, decide_True, Hr by done.
      split; [done|]. split; [done | by left].
  - eexists. split; [done|]. split; [|done]. apply (sinv_touch s _ c o kDisconnected Hi); try done; cbn.
    + apply Hi.
    + cbn. intros c' Hc'. congruence.
    + intros c' Hne. by rewrite refs_app, refs_one, decide_False, app_nil_r by (cbn; congruence).
    + intros x. rewrite elem_of_app, list_elem_of_singleton. intros [?| ->]; [by left | by right].
    + right; right; left. cbn. by rewrite refs_app, refs_one, decide_True, Hr by done.
Qed.

Lemma shutdown_sinv s c : sinv s → is_Some (conns s !! c) →
  ∃ s', shutdown c s = Ok s' ∧ sinv s' ∧ next_conn_id_ s' = next_conn_id_ s ∧ started_ s' = started_ s.
Proof.
  intros Hi [o Ho]. unfold shutdown, deref. rewrite Ho. cstep. eexists. split; [done|].
  destruct (decide (state_ o = kConnected)) as [Hs|]; [|done]. split; [|done].
  destruct (si_stage s Hi c o Ho) as [(? & Hx & _)|[(Hm & _ & Hr)|[(? & Hx & _)|(? & Hx & _)]]]; try congruence.
  apply (sinv_touch s _ c o kDisconnecting Hi); try done; cbn.
  - apply Hi.
  - intros c' Hc'. congruence.
  - intros x Hx. by left.
  - right; left. done.
Qed.

Lemma release_sinv s c o : sinv s → conns s !! c = Some o →
  connections_ s !! fd_ o ≠ Some c → refs c (pending s) = [] →
  ∃ s', release c s = Ok s' ∧ sinv s' ∧ next_conn_id_ s' = next_conn_id_ s ∧ started_ s' = started_ s.
Proof.
  intros Hi Ho Hm Hr. unfold release, deref. rewrite Ho. cstep.
  assert (state_ o = kDisconnected) as Hs.
  { destruct (si_stage s Hi c o Ho) as [(? & _)|[(? & _)|[(? & _)|(_ & ? & _)]]]; done. }
  rewrite bool_decide_true by done. cstep. eexists. split; [done|]. split; [|done].
  assert (∀ d e, delete c (conns s) !! d = Some e → d ≠ c ∧ conns s !! d = Some e) as Hd.
  { intros d e. rewrite lookup_delete_Some. intuition congruence. }
  split; cbn.
  - intros fd c' Hfd. destruct (si_map s Hi fd c' Hfd) as (o' & Ho' & He). exists o'.
    rewrite lookup_delete_ne; [done|]. intros <-. congruence.
  - intros c1 c2 o1 o2 [_ H1]%Hd [_ H2]%Hd. by apply (si_fds s Hi).
  - intros c' o' [_ Ho']%Hd. by apply (si_stage s Hi).
  - intros x Hx. destruct (si_pending s Hi x Hx) as [o' Ho']. exists o'. rewrite lookup_delete_ne; [done|].
    intros He. assert (x ∈ refs c (pending s)) as Hin by (by apply list_elem_of_filter).
    rewrite Hr in Hin. by apply elem_of_nil in Hin.
  - apply Hi.
Qed.

Lemma wrap32_small x : - 2 ^ 31 <= x < 2 ^ 31 → wrap32 x = x.
Proof. intros Hx. unfold wrap32. rewrite Z.mod_small; lia. Qed.

(** Only the pool and the counters change. *)
Lemma sinv_server s s' : sinv s → pool_ok s' → loop_ s' = loop_ s → connections_ s' = connections_ s →
  conns s' = conns s → pending s' = pending s → sinv s'.
Proof.
  intros [Hm Hf Hst Hp _] Hpool Hl Hcm Hcs Hpd. split; rewrite ?Hcm, ?Hcs, ?Hpd; try done.
  intros c o Ho. apply (stage_frame s); rewrite ?Hcm, ?Hpd; by auto.
Qed.

Lemma start_sinv s fresh : sinv s → started_ s < 2 ^ 31 - 1 →
  ∃ s', start (loop_ s) fresh s = Ok s' ∧ sinv s' ∧ next_conn_id_ s' = next_conn_id_ s ∧ started_ s' = started_ s + 1.
Proof.
  intros Hi Hb. pose proof (si_pool s Hi) as (Ht & Hn & Hs & Hcase). unfold start.
  rewrite wrap32_small by lia. destruct (Z.eqb_spec (started_ s) 0) as [Hz|Hz].
  - destruct Hcase as (Hl & Hst & Hnx & Hlo). unfold EventLoopThreadPool.start, EventLoopThreadPool.in_base_thread.
    cbn [threadpool_]. rewrite Hst, Ht, Z.eqb_refl. cbn [negb listening_]. cstep. rewrite Hl. cstep.
    eexists. split; [done|]. split; [|done]. apply (sinv_server s); try done. unfold pool_ok. cbn.
    split; [done|]. split; [done|]. split; [lia|]. rewrite Hz, Hlo, Hnx. cbn.
    assert (zlen (map fresh (seq 0 (Z.to_nat (EventLoopThreadPool.num_threads_ (threadpool_ s))))) < 2 ^ 31) as Hlen.
    { unfold zlen. rewrite length_map, length_seq. lia. }
    split; [done|]. split; [done|]. intros Hne. split; [lia|].
    destruct (map fresh _) as [|x xs]; [done|]. rewrite zlen_cons. pose proof (zlen_nonneg xs). lia.
  - eexists. split; [done|]. split; [|done]. apply (sinv_server s); try done. unfold pool_ok. cbn.
    split; [done|]. split; [done|]. split; [lia|]. by decide_test (started_ s + 1 =? 0).
Qed.

Lemma get_next_ok s : sinv s → started_ s ≠ 0 →
  ∃ io p, EventLoopThreadPool.get_next_loop (tid (loop_ s)) (threadpool_ s) = Ok (io, p) ∧
    EventLoopThreadPool.base_loop_ p = loop_ s ∧
    ∀ s', threadpool_ s' = p → started_ s' = started_ s → pool_ok s'.
Proof.
  intros Hi Hne. pose proof (si_pool s Hi) as (Ht & Hn & Hs & Hcase).
  replace (started_ s =? 0) with false in Hcase by (symmetry; by apply Z.eqb_neq).
  destruct Hcase as (Hst & Hlen & Hnx). unfold EventLoopThreadPool.get_next_loop, EventLoopThreadPool.in_base_thread.
  rewrite Ht, Hst, Z.eqb_refl. cbn [andb]. cstep. set (p := threadpool_ s) in *.
  destruct (EventLoopThreadPool.loops_ p) as [|x xs] eqn:El.
  { exists (EventLoopThreadPool.base_loop_ p), p. split; [done|]. split; [done|]. intros s' Hp Hs'.
    unfold pool_ok, loop_. rewrite Hp, Hs', El. decide_test (started_ s =? 0). split_and!; try done. }
  specialize (Hnx ltac:(done)). rewrite <- El in *. unfold read_at. decide_test (0 <=? EventLoopThreadPool.next_ p).
  destruct (lookup_lt_is_Some_2 (EventLoopThreadPool.loops_ p) (Z.to_nat (EventLoopThreadPool.next_ p))) as [y ->];
    [unfold zlen in Hnx; lia|]. cstep.
  eexists y, _. split; [reflexivity|]. split; [done|]. intros s' Hp Hs'.
  unfold pool_ok, loop_. rewrite Hp, Hs'. cbn. decide_test (started_ s =? 0). split_and!; try done.
  intros _. rewrite u64_small by lia. destruct (Z.leb_spec (zlen (EventLoopThreadPool.loops_ p)) (EventLoopThreadPool.next_ p + 1)); lia.
Qed.

(** A new connection. *)
Lemma sinv_new s s' c fd io st :
  sinv s → conns s !! c = None → (∀ c' o', conns s !! c' = Some o' → fd_ o' ≠ fd) →
  conns s' = <[c := mkObject fd io st]> (conns s) → connections_ s' = <[fd := c]> (connections_ s) →
  loop_ s' = loop_ s → pool_ok s' → (∀ c', c' ≠ c → refs c' (pending s') = refs c' (pending s)) →
  (∀ x, x ∈ pending s' → x ∈ pending s ∨ target x.2 = c) → stage s' c (mkObject fd io st) → sinv s'.
Proof.
  intros [Hm Hf Hst Hp _] Hc Hfresh Hcs Hcm Hl Hpool Hrefs Hpend Hstage.
  assert (∀ c' o', conns s !! c' = Some o' → c' ≠ c) as Hne by (intros c' o' Ho' ->; congruence).
  split; rewrite ?Hcs; [| | | |done].
  - intros fd' c'. rewrite Hcm. destruct (decide (fd' = fd)) as [->|Hn].
    + rewrite lookup_insert_eq. intros [= <-]. rewrite lookup_insert_eq. by eexists.
    + rewrite lookup_insert_ne by done. intros Hfd. destruct (Hm fd' c' Hfd) as (o' & Ho' & ?).
      exists o'. rewrite lookup_insert_ne; [done|]. intros ->. by apply (Hne _ _ Ho').
  - intros c1 c2 o1 o2. rewrite !lookup_insert_Some.
    intros [[<- <-]|[_ H1]] [[<- <-]|[_ H2]] He; cbn in He; [done | | |by apply (Hf c1 c2 o1 o2)].
    + by destruct (Hfresh _ _ H2).
    + by destruct (Hfresh _ _ H1).
  - intros c' o'. rewrite lookup_insert_Some. intros [[<- <-]|[Hn Ho']]; [done|].
    apply (stage_frame s); [|by apply Hrefs|done|by apply Hst].
    rewrite Hcm, lookup_insert_ne; [done|]. intros He. by apply (Hfresh _ _ Ho').
  - intros x [Hx|<-]%Hpend; [|rewrite lookup_insert_eq; by eexists].
    destruct (Hp x Hx) as [o' Ho']. rewrite lookup_insert_ne by (intros Hx'; by apply (Hne _ _ Ho')). by exists o'.
Qed.

Lemma new_connection_sinv s fd c : sinv s → started_ s ≠ 0 → next_conn_id_ s < 2 ^ 31 - 1 → 0 <= next_conn_id_ s →
  0 <= fd → conns s !! c = None → (∀ c' o', conns s !! c' = Some o' → fd_ o' ≠ fd) →
  ∃ s', new_connection (loop_ s) fd c s = Ok s' ∧ sinv s' ∧
        next_conn_id_ s' = next_conn_id_ s + 1 ∧ started_ s' = started_ s.
Proof.
  intros Hi Hst Hid Hid0 Hfd Hc Hfresh. unfold new_connection, in_loop_thread. rewrite (bool_decide_true (loop_ s = loop_ s)) by done. cstep.
  destruct (get_next_ok s Hi Hst) as (io & p & -> & Hb & Hpool). cstep.
  rewrite sint_checked_range by (change (32 - 1) with 31; lia). cstep. decide_test (fd =? -1). cstep.
  rewrite bool_decide_true; cycle 1.
  { destruct (connections_ s !! fd) as [c'|] eqn:E; [|done]. destruct (si_map s Hi fd c' E) as (o' & Ho' & Hx).
    by destruct (Hfresh _ _ Ho'). }
  cstep. set (s1 := mk p _ _ _ _ _ _). assert (refs c (pending s) = []) as Hr by (by apply refs_nil).
  unfold run_in_loop. destruct (decide (loop_ s = io)) as [Hl|Hl].
  - cbn [run_functor]. unfold deref. cbn [s1 conns]. rewrite lookup_insert_eq. cstep. cbn [io_loop state_].
    rewrite bool_decide_true by done. cstep. cbn. eexists. split; [done|]. split; [|done].
    apply (sinv_new s _ c fd io kConnected Hi); try done; cbn.
    + by rewrite insert_insert_eq.
    + by apply Hpool.
    + intros x Hx. by left.
    + right; left. cbn. by rewrite lookup_insert_eq.
  - eexists. split; [done|]. split; [|done]. apply (sinv_new s _ c fd io kConnecting Hi); try done; cbn.
    + by apply Hpool.
    + intros c' Hne. by rewrite refs_app, refs_one, decide_False, app_nil_r by (cbn; congruence).
    + intros x. rewrite elem_of_app, list_elem_of_singleton. intros [?| ->]; [by left | by right].
    + left. cbn. by rewrite lookup_insert_eq, refs_app, refs_one, decide_True, Hr by done.
Qed.

(** The calls that count: [accept] and [start]. *)
Definition accepts (lb : label) : Z := match lb with Accept _ _ => 1 | _ => 0 end.
Definition starts (lb : label) : Z := match lb with Start _ => 1 | _ => 0 end.
Definition total (g : label → Z) (ls : list label) : Z := foldr (λ lb n, g lb + n) 0 ls.

Lemma exec_sinv lb s : sinv s → 0 <= next_conn_id_ s → next_conn_id_ s + accepts lb < 2 ^ 31 →
  started_ s + starts lb < 2 ^ 31 →
  ∃ s', exec lb s = Ok s' ∧ sinv s' ∧ next_conn_id_ s <= next_conn_id_ s' <= next_conn_id_ s + accepts lb ∧
        started_ s' <= started_ s + starts lb.
Proof.
  intros Hi Hid Ha Hs. assert (0 <= accepts lb ∧ 0 <= starts lb) as [? ?] by (destruct lb; done).
  unfold exec. destruct (enabled lb s) eqn:He; [|exists s; split_and!; try done; lia].
  assert (∀ r, (∃ s', r = Ok s' ∧ sinv s' ∧ next_conn_id_ s' = next_conn_id_ s ∧ started_ s' = started_ s) →
               ∃ s', r = Ok s' ∧ sinv s' ∧ next_conn_id_ s <= next_conn_id_ s' <= next_conn_id_ s + accepts lb ∧
                     started_ s' <= started_ s + starts lb) as Hsame.
  { intros r (s' & -> & ? & Hx & Hy). exists s'. rewrite Hx, Hy. split_and!; try done; lia. }
  destruct lb as [fresh|fd c|l|c|c|c]; cbn [perform enabled accepts starts] in *.
  - destruct (start_sinv s fresh Hi ltac:(lia)) as (s' & -> & ? & Hx & Hy). exists s'. rewrite Hx, Hy.
    split_and!; try done; lia.
  - apply andb_true_iff in He as [He Hfds]. apply andb_true_iff in He as [He Hc]. apply andb_true_iff in He as [Hli Hfd].
    apply bool_decide_eq_true in Hfds, Hc. apply Z.leb_le in Hfd.
    assert (started_ s ≠ 0) as Hne.
    { intros Hz. pose proof (si_pool s Hi) as (_ & _ & _ & Hcase). rewrite Hz in Hcase. destruct Hcase as [Hx _]. congruence. }
    destruct (new_connection_sinv s fd c Hi Hne ltac:(lia) Hid Hfd Hc) as (s' & -> & ? & Hx & Hy).
    { intros c' o' Ho'. by apply (Hfds c' o'). }
    exists s'. rewrite Hx, Hy. split_and!; try done; lia.
  - destruct (pick l (pending s)) as [[f r]|] eqn:Hp; [|done]. apply Hsame. by apply run_functor_sinv.
  - destruct (conns s !! c) as [o|] eqn:Ho; [|done]. apply Hsame. by apply (handle_close_sinv s c o).
  - apply bool_decide_eq_true in He. apply Hsame. by apply shutdown_sinv.
  - destruct (conns s !! c) as [o|] eqn:Ho; [|done]. apply andb_true_iff in He as [Hm Hr].
    apply bool_decide_eq_true in Hm, Hr. apply Hsame. by apply (release_sinv s c o).
Qed.

Lemma total_nonneg g ls : (∀ lb, 0 <= g lb) → 0 <= total g ls.
Proof. intros Hg. induction ls as [|lb ls IH]; [done|]. unfold total in *. cbn [foldr]. specialize (Hg lb). lia. Qed.

Lemma run_sinv ls s : sinv s → 0 <= next_conn_id_ s → next_conn_id_ s + total accepts ls < 2 ^ 31 →
  started_ s + total starts ls < 2 ^ 31 → ∃ s', run ls s = Ok s' ∧ sinv s'.
Proof.
  revert s. induction ls as [|lb ls IH]; intros s Hi Hid Ha Hs; cbn [run total foldr] in *; [by exists s|].
  fold (total accepts ls) in Ha. fold (total starts ls) in Hs.
  pose proof (total_nonneg accepts ls ltac:(by intros [])). pose proof (total_nonneg starts ls ltac:(by intros [])).
  destruct (exec_sinv lb s Hi Hid ltac:(lia) ltac:(lia)) as (s1 & -> & Hi1 & Hn1 & Hs1). cstep.
  apply IH; [done | lia..].
Qed.

Lemma server_init base num : num < 2 ^ 31 → sinv (set_thread_num num (ctor base)).
Proof.
  intros Hn. split; cbn.
  - intros fd c. by rewrite lookup_empty.
  - intros c c' o o'. by rewrite lookup_empty.
  - intros c o. by rewrite lookup_empty.
  - intros x Hx. by apply elem_of_nil in Hx.
  - unfold pool_ok. cbn. split_and!; done.
Qed.

(** *** Running a loop *)

(** What a functor leaves alone. *)
Lemma run_functor_frame s l f r s' : sinv s → pick l (pending s) = Some (f, r) →
  run_functor l f (with_pending r s) = Ok s' →
  loop_ s' = loop_ s ∧ (∃ extra, pending s' = r ++ extra) ∧
  ∀ c o, c ≠ target f → conns s !! c = Some o →
    conns s' !! c = Some o ∧ connections_ s' !! fd_ o = connections_ s !! fd_ o ∧
    refs c (pending s') = refs c (pending s).
Proof.
  intros Hi Hp Hr. destruct (picked s l f r Hi Hp) as (o & Ho & _ & _).
  destruct (pick_refs l _ f r Hp) as (Hother & _).
  destruct f as [c|c|c]; cbn [run_functor target] in *; unfold remove_connection_in_loop, deref in Hr;
    cbn [conns with_pending] in Hr; rewrite Ho in Hr; outcome_inv; subst; cbn.
  - split; [done|]. split; [exists []; by rewrite app_nil_r|]. intros c' o' Hne Ho'.
    rewrite lookup_insert_ne by done. split_and!; [done | done | by apply Hother].
  - split; [done|]. split; [by eexists|]. intros c' o' Hne Ho'. split; [done|]. split.
    + apply lookup_delete_ne. intros He. apply Hne. by eapply (si_fds s Hi c' c o').
    + rewrite refs_app, refs_one, decide_False, app_nil_r by (cbn; congruence). by apply Hother.
  - split; [done|]. split; [exists []; by rewrite app_nil_r|]. intros c' o' Hne Ho'.
    rewrite lookup_insert_ne by done. split_and!; [done | done | by apply Hother].
Qed.

Lemma pick_first l a f b : Forall (λ x, x.1 ≠ l) a → pick l (a ++ (l, f) :: b) = Some (f, a ++ b).
Proof.
  induction 1 as [|[l' g] a Hn _ IH]; cbn; [by rewrite decide_True|].
  cbn in Hn. by rewrite decide_False, IH by done.
Qed.

Lemma queue_split l (a : list (nat * functor)) :
  Forall (λ x, x.1 ≠ l) a ∨ ∃ a1 g a2, a = a1 ++ (l, g) :: a2 ∧ Forall (λ x, x.1 ≠ l) a1.
Proof.
  induction a as [|[l' g] a IH]; [by left|]. destruct (decide (l' = l)) as [->|Hn].
  - right. by exists [], g, a.
  - destruct IH as [Hf|(a1 & h & a2 & -> & Hf)]; [left; by constructor|].
    right. exists ((l', g) :: a1), h, a2. split; [done | by constructor].
Qed.

Lemma run_app ls ls' s : run (ls ++ ls') s = run ls s ≫= run ls'.
Proof.
  revert s. induction ls as [|lb ls IH]; intros s; cbn [run app]; [done|].
  destruct (exec lb s); cstep; [apply IH | done].
Qed.

Lemma exec_run l s f r : pick l (pending s) = Some (f, r) → exec (Run l) s = run_functor l f (with_pending r s).
Proof. intros Hp. unfold exec. cbn. by rewrite Hp. Qed.

(** Running a loop long enough reaches any functor in its queue, and nothing else happens to the
    connection of that functor meanwhile. *)
Lemma loop_reaches k : ∀ s l f a b o, length a = k → sinv s → pending s = a ++ (l, f) :: b →
  refs (target f) (pending s) = [(l, f)] → conns s !! target f = Some o →
  ∃ n s' r, run (replicate n (Run l)) s = Ok s' ∧ sinv s' ∧ pick l (pending s') = Some (f, r) ∧
    conns s' !! target f = Some o ∧ loop_ s' = loop_ s ∧ connections_ s' !! fd_ o = connections_ s !! fd_ o.
Proof.
  induction k as [k IH] using lt_wf_ind. intros s l f a b o Hk Hi Hp Hr Ho.
  destruct (queue_split l a) as [Hf|(a1 & g & a2 & -> & Hf)].
  { exists 0%nat, s, (a ++ b). rewrite Hp, (pick_first l a f b Hf). done. }
  rewrite <- (assoc_L (++)) in Hp. cbn [app] in Hp.
  assert (pick l (pending s) = Some (g, a1 ++ a2 ++ (l, f) :: b)) as Hpk by (rewrite Hp; by apply pick_first).
  assert (target f ≠ target g) as Hne.
  { intros He. rewrite Hp, refs_app in Hr.
    rewrite (refs_app (target f) [(l, g)] (a2 ++ (l, f) :: b) : refs _ ((l, g) :: _) = _), refs_one, decide_True in Hr by done.
    rewrite refs_app, (refs_app (target f) [(l, f)] b : refs _ ((l, f) :: b) = _), (refs_one _ l f), decide_True in Hr by done.
    apply (f_equal length) in Hr. rewrite !length_app in Hr. cbn in Hr. lia. }
  destruct (run_functor_sinv s l g _ Hi Hpk) as (s1 & Hs1 & Hi1 & _).
  destruct (run_functor_frame s l g _ s1 Hi Hpk Hs1) as (Hl1 & (extra & Hp1) & Hfr).
  destruct (Hfr (target f) o Hne Ho) as (Ho1 & Hc1 & Hr1).
  destruct (IH (length (a1 ++ a2)) ltac:(rewrite <- Hk, !length_app; cbn; lia) s1 l f (a1 ++ a2) (b ++ extra) o)
    as (n & s' & r & Hn & Hi' & Hpk' & Ho' & Hl' & Hc'); [done | done | | congruence | done |].
  { rewrite Hp1, <- !(assoc_L (++)). done. }
  exists (S n), s', r. cbn [replicate run]. rewrite (exec_run l s g _ Hpk), Hs1. cstep.
  split; [done|]. split; [done|]. split; [done|]. split; [done|]. split; congruence.
Qed.

Lemma refs_split c p x : refs c p = [x] → target x.2 = c ∧ ∃ a b, p = a ++ x :: b.
Proof.
  intros Hr. assert (x ∈ refs c p) as Hx by (rewrite Hr; left). apply list_elem_of_filter in Hx as [Ht Hx].
  split; [done|]. by apply list_elem_of_split in Hx.
Qed.

(** Running a loop until it has called [f]. *)
Lemma loop_calls s l f o : sinv s → refs (target f) (pending s) = [(l, f)] → conns s !! target f = Some o →
  ∃ n s1 r s', run (replicate n (Run l)) s = Ok s' ∧ sinv s1 ∧ sinv s' ∧ pick l (pending s1) = Some (f, r) ∧
    conns s1 !! target f = Some o ∧ run_functor l f (with_pending r s1) = Ok s' ∧ loop_ s1 = loop_ s ∧
    connections_ s1 !! fd_ o = connections_ s !! fd_ o.
Proof.
  intros Hi Hr Ho. destruct (refs_split _ _ _ Hr) as (_ & a & b & Hp).
  destruct (loop_reaches (length a) s l f a b o) as (n & s1 & r & Hn & Hi1 & Hpk & Ho1 & Hl1 & Hc1); try done.
  destruct (run_functor_sinv s1 l f r Hi1 Hpk) as (s' & Hs' & Hi' & _).
  exists (n + 1)%nat, s1, r, s'. split; [|by split_and!].
  rewrite replicate_add, run_app, Hn. cstep. cbn [replicate run]. by rewrite (exec_run l s1 f r Hpk), Hs'.
Qed.

(** The end of a connection's life, from its last functor on. *)
Lemma release_unreferenced s c o : sinv s → conns s !! c = Some o → connections_ s !! fd_ o ≠ Some c →
  refs c (pending s) = [] → ∃ s', run [Release c] s = Ok s' ∧ conns s' !! c = None ∧ connections_ s' = connections_ s.
Proof.
  intros Hi Ho Hm Hr. cbn [run]. unfold exec. cbn [enabled perform]. rewrite Ho, !bool_decide_true by done. cbn [andb].
  destruct (release_sinv s c o Hi Ho Hm Hr) as (s' & Hs & _). rewrite Hs. cstep. exists s'. split; [done|].
  unfold release, deref in Hs. rewrite Ho in Hs. outcome_inv. subst. cbn. by rewrite lookup_delete_eq.
Qed.

Lemma release_destroyed s c o : sinv s → conns s !! c = Some o → state_ o = kDisconnected →
  connections_ s !! fd_ o ≠ Some c → refs c (pending s) = [(io_loop o, Destroyed c)] →
  ∃ m s', run (replicate m (Run (io_loop o)) ++ [Release c]) s = Ok s' ∧ conns s' !! c = None ∧
          connections_ s' !! fd_ o ≠ Some c.
Proof.
  intros Hi Ho Hst Hm Hr.
  destruct (loop_calls s (io_loop o) (Destroyed c) o Hi Hr Ho) as (m & s1 & r & s2 & Hrun & Hi1 & Hi2 & Hpk & Ho1 & Hf & Hl & Hc1).
  destruct (picked s1 _ _ r Hi1 Hpk) as (o1 & Ho1' & Hrr & _). cbn [target run_functor] in *.
  assert (o1 = o) as -> by congruence. unfold deref in Hf. cbn [conns with_pending] in Hf. rewrite Ho1 in Hf. rewrite bind_ok in Hf.
  rewrite bool_decide_true, Hst in Hf by done. cbn in Hf. injection Hf as Hf.
  destruct (release_unreferenced s2 c (mkObject (fd_ o) (io_loop o) kDisconnected) Hi2) as (s' & Hs' & Hn & Hcm).
  - subst s2. cbn. by rewrite lookup_insert_eq.
  - subst s2. cbn. congruence.
  - subst s2. cbn. done.
  - exists m, s'. rewrite run_app, Hrun. cstep. split; [done|]. split; [done|]. rewrite Hcm. subst s2. cbn. congruence.
Qed.

Lemma release_closed s c o : sinv s → conns s !! c = Some o → state_ o = kDisconnected →
  ∃ n m s', run (replicate n (Run (loop_ s)) ++ replicate m (Run (io_loop o)) ++ [Release c]) s = Ok s' ∧
            conns s' !! c = None ∧ connections_ s' !! fd_ o ≠ Some c.
Proof.
  intros Hi Ho Hst.
  destruct (si_stage s Hi c o Ho) as [(_ & Hx & _)|[(_ & Hx & _)|[(Hm & _ & Hr)|(Hm & _ & [Hr|Hr])]]].
  - congruence.
  - by rewrite Hst in Hx.
  - destruct (loop_calls s (loop_ s) (RemoveInLoop c) o Hi Hr Ho) as (n & s1 & r & s2 & Hrun & Hi1 & Hi2 & Hpk & Ho1 & Hf & Hl & Hc1).
    destruct (picked s1 _ _ r Hi1 Hpk) as (o1 & Ho1' & Hrr & _). cbn [target run_functor] in *.
    assert (o1 = o) as -> by congruence. unfold remove_connection_in_loop, deref, in_loop_thread in Hf.
    change (loop_ (with_pending r s1)) with (loop_ s1) in Hf. rewrite Hl, bool_decide_true in Hf by done.
    cbn [conns connections_ with_pending] in Hf. bstep Hf. rewrite Ho1 in Hf. bstep Hf.
    rewrite Hc1, bool_decide_true in Hf by done. bstep Hf. injection Hf as Hf.
    destruct (release_destroyed s2 c o Hi2) as (m & s' & Hs' & Hn & Hcm); [subst s2; cbn; try done..| ].
    + by rewrite lookup_delete_eq.
    + by rewrite refs_app, refs_one, decide_True, Hrr by done.
    + exists n, m, s'. rewrite run_app, Hrun. cstep. done.
  - destruct (release_destroyed s c o Hi Ho Hst Hm Hr) as (m & s' & ?). exists 0%nat, m, s'. done.
  - destruct (release_unreferenced s c o Hi Ho Hm Hr) as (s' & Hs' & Hn & Hcm). exists 0%nat, 0%nat, s'.
    split; [done|]. split; [done | by rewrite Hcm].
Qed.

(** ** Theorems *)



(** What the destructor leaves of a connection. *)
Definition destroying (cur : nat) (o : object) (c : nat) s s' : Prop :=
  if decide (cur = io_loop o)
  then conns s' !! c = Some (mkObject (fd_ o) (io_loop o) kDisconnected) ∧ refs c (pending s') = refs c (pending s)
  else conns s' !! c = Some o ∧ refs c (pending s') = refs c (pending s) ++ [(io_loop o, Destroyed c)].

Lemma destroy_one cur fd c o s : conns s !! c = Some o → state_ o = kConnected →
  ∃ s', run_in_loop cur (io_loop o) (Destroyed c) (with_connections (delete fd (connections_ s)) s) = Ok s' ∧
    connections_ s' = delete fd (connections_ s) ∧ destroying cur o c s s' ∧
    ∀ c', c' ≠ c → conns s' !! c' = conns s !! c' ∧ refs c' (pending s') = refs c' (pending s).
Proof.
  intros Ho Hs. unfold run_in_loop, destroying. destruct (decide (cur = io_loop o)) as [->|Hn].
  - cbn [run_functor]. unfold deref. cbn [conns with_connections]. rewrite Ho. cstep.
    rewrite bool_decide_true, Hs by done. cbn. eexists. split; [done|]. cbn. rewrite lookup_insert_eq.
    split_and!; try done. intros c' Hne. by rewrite lookup_insert_ne by done.
  - eexists. split; [done|]. cbn. rewrite refs_app, refs_one, decide_True by done. split_and!; try done.
    intros c' Hne. by rewrite refs_app, refs_one, decide_False, app_nil_r by (cbn; congruence).
Qed.

Lemma destroying_frame cur o c s0 s s' : conns s !! c = conns s0 !! c → refs c (pending s) = refs c (pending s0) →
  destroying cur o c s s' → destroying cur o c s0 s'.
Proof. unfold destroying. intros _ ->. done. Qed.

Lemma destroying_keep cur o c s0 s s' : conns s' !! c = conns s !! c → refs c (pending s') = refs c (pending s) →
  destroying cur o c s0 s → destroying cur o c s0 s'.
Proof. unfold destroying. by intros -> ->. Qed.

Lemma destroy_all_ok cur entries : ∀ s, NoDup entries.*2 →
  (∀ c, c ∈ entries.*2 → ∃ o, conns s !! c = Some o ∧ state_ o = kConnected) →
  ∃ s', destroy_all cur entries s = Ok s' ∧
    connections_ s' = foldl (λ m fd, delete fd m) (connections_ s) entries.*1 ∧
    (∀ c, c ∉ entries.*2 → conns s' !! c = conns s !! c ∧ refs c (pending s') = refs c (pending s)) ∧
    (∀ c o, c ∈ entries.*2 → conns s !! c = Some o → destroying cur o c s s').
Proof.
  induction entries as [|[fd c] entries IH]; intros s Hnd Hall; cbn [destroy_all].
  { exists s. split_and!; try done. intros c o Hin. by apply elem_of_nil in Hin. }
  cbn [fmap list_fmap snd] in *. apply NoDup_cons in Hnd as [Hni Hnd].
  destruct (Hall c ltac:(left)) as (o & Ho & Hs). unfold deref. rewrite Ho. cstep.
  destruct (destroy_one cur fd c o s Ho Hs) as (s1 & -> & Hm1 & Hd1 & Hfr1). cstep.
  destruct (IH s1 Hnd) as (s' & -> & Hm' & Hother & Hin').
  { intros c' Hc'. destruct (Hall c' ltac:(by right)) as (o' & Ho' & Hs'). exists o'. split; [|done].
    rewrite <- Ho'. apply Hfr1. intros ->. done. }
  exists s'. split; [done|]. cbn [foldl fst]. rewrite <- Hm1. split; [done|]. split.
  - intros c' [Hne Hc']%not_elem_of_cons. destruct (Hother c' Hc') as [-> ->]. by apply Hfr1.
  - intros c' o' [->|Hc']%elem_of_cons Ho'.
    + assert (o' = o) as -> by congruence. destruct (Hother c Hni). by apply (destroying_keep cur o c s s1).
    + assert (c' ≠ c) as Hne by (intros ->; done). destruct (Hfr1 c' Hne) as [Hcs Hrf].
      apply (destroying_frame cur o' c' s s1); [done..|]. apply Hin'; congruence.
Qed.

Lemma delete_all (ks : list Z) (m : gmap Z nat) :
  (∀ fd c, m !! fd = Some c → fd ∈ ks) → foldl (λ m fd, delete fd m) m ks = ∅.
Proof.
  revert m. induction ks as [|k ks IH]; intros m Hall; cbn.
  - apply map_empty. intros fd. destruct (m !! fd) as [c|] eqn:E; [|done]. apply Hall in E. by apply elem_of_nil in E.
  - apply IH. intros fd c. rewrite lookup_delete_Some. intros [Hne Hfd]. apply Hall, elem_of_cons in Hfd as [?|?]; done.
Qed.

(** Destroying the server, with no functor waiting and all its connections established:
    the map is emptied and every connection is destroyed, at once if it lives on the server's own
    loop and otherwise by the one functor that now waits in its loop. *)
Theorem server_destructor_destroys_all base num ls s :
  num < 2 ^ 31 → total accepts ls < 2 ^ 31 - 1 → total starts ls < 2 ^ 31 →
  run ls (set_thread_num num (ctor base)) = Ok s → pending s = [] →
  (∀ c o, conns s !! c = Some o → state_ o = kConnected) →
  ∃ s', dtor (loop_ s) s = Ok s' ∧ connections_ s' = ∅ ∧
    ∀ c o, conns s !! c = Some o →
      if decide (loop_ s = io_loop o)
      then conns s' !! c = Some (mkObject (fd_ o) (io_loop o) kDisconnected) ∧ refs c (pending s') = []
      else conns s' !! c = Some o ∧ refs c (pending s') = [(io_loop o, Destroyed c)].
Proof.
  intros Hn Ha Hs Hr Hpd Hall.
  destruct (run_sinv ls _ (server_init base num Hn)) as (s1 & Hr1 & Hi); [done | cbn; lia | cbn; lia |].
  assert (s1 = s) as -> by congruence. unfold dtor, in_loop_thread. rewrite bool_decide_true by done. cstep.
  set (es := merge_sort key_le (map_to_list (connections_ s))).
  assert (es ≡ₚ map_to_list (connections_ s)) as Hperm by apply merge_sort_Permutation.
  assert (∀ fd c, (fd, c) ∈ es ↔ connections_ s !! fd = Some c) as Hes.
  { intros fd c. rewrite Hperm. apply elem_of_map_to_list. }
  destruct (destroy_all_ok (loop_ s) es s) as (s' & -> & Hm & _ & Hd).
  - apply NoDup_fmap_2_strong; [|rewrite Hperm; apply NoDup_map_to_list].
    intros [fd c] [fd' c'] H1%Hes H2%Hes. cbn. intros <-.
    destruct (si_map s Hi _ _ H1) as (o & Ho & <-), (si_map s Hi _ _ H2) as (o' & Ho' & <-). congruence.
  - intros c ([fd c'] & -> & Hin%Hes)%list_elem_of_fmap. destruct (si_map s Hi _ _ Hin) as (o & Ho & _).
    exists o. split; [done | by apply (Hall c')].
  - exists s'. split; [done|]. split.
    + rewrite Hm. apply delete_all. intros fd c Hfd. apply list_elem_of_fmap. exists (fd, c). split; [done | by apply Hes].
    + intros c o Ho. pose proof (Hall c o Ho) as Hst.
      assert (c ∈ es.*2) as Hin.
      { apply list_elem_of_fmap. exists (fd_ o, c). split; [done|]. apply Hes.
        destruct (si_stage s Hi c o Ho) as [(? & _)|[(? & _)|[(? & _)|(_ & Hx & _)]]]; congruence. }
      pose proof (Hd c o Hin Ho) as Hx. unfold destroying in Hx. rewrite Hpd in Hx. exact Hx.
Qed.

Lemma on_channel_state {K} `{EpollKernel K} thread o (w w' : TcpConnection.conn K) :
  TcpConnection.on_channel thread o w = Ok w' → TcpConnection.state_ w' = TcpConnection.state_ w.
Proof. unfold TcpConnection.on_channel. intros Hx. outcome_inv. by subst. Qed.

(** The states of the connections here are those of the connection itself: when
    [connect_established], [handle_close] or [connect_destoryed] of a connection whose user does
    nothing in the connection callback returns, its state is the one [established], [close_event]
    or [destroyed] gives. *)
Theorem server_states_follow_connection {K} `{EpollKernel K} kwrite cb (thread : Z) (w w' : TcpConnection.conn K) :
  TcpConnection.quiet cb →
  (TcpConnection.connect_established kwrite cb thread w = Ok w' →
   established (TcpConnection.state_ w) = Ok (TcpConnection.state_ w')) ∧
  (TcpConnection.handle_close kwrite cb thread w = Ok w' →
   close_event (TcpConnection.state_ w) = Ok (TcpConnection.state_ w')) ∧
  (TcpConnection.connect_destoryed kwrite cb thread w = Ok w' →
   ∀ st, destroyed (TcpConnection.state_ w) = Ok st → TcpConnection.state_ w' = st).
Proof.
  intros Hq.
  assert (∀ v v', TcpConnection.call_connection_callback kwrite cb thread v = Ok v' → v' = v) as Hcall.
  { intros v v'. rewrite TcpConnection.call_quiet by done. by intros [= ->]. }
  split_and!.
  - unfold TcpConnection.connect_established, established. intros Hx. outcome_inv. apply Hcall in Hx as ->.
    match goal with E : TcpConnection.on_channel _ EnableReading _ = Ok _ |- _ => apply on_channel_state in E as -> end.
    match goal with E : TcpConnection.on_channel _ Tie _ = Ok _ |- _ => by apply on_channel_state in E as -> end.
  - unfold TcpConnection.handle_close, close_event. intros Hx. outcome_inv.
    match goal with E : TcpConnection.call_connection_callback _ _ _ _ = Ok _ |- _ => apply Hcall in E as -> end.
    match goal with E : TcpConnection.on_channel _ _ _ = Ok _ |- _ => apply on_channel_state in E end.
    cbn in *. unfold mret, outcome_ret. f_equal. by destruct (TcpConnection.close_callback_ cb).
  - unfold TcpConnection.connect_destoryed, destroyed. intros Hx st Hd.
    destruct (decide (TcpConnection.state_ w = kConnected)); outcome_inv;
      match goal with E : TcpConnection.on_channel _ Remove _ = Ok _ |- _ => apply on_channel_state in E as -> end; [|done].
    match goal with E : TcpConnection.call_connection_callback _ _ _ _ = Ok _ |- _ => apply Hcall in E as -> end.
    match goal with E : TcpConnection.on_channel _ DisableAll _ = Ok _ |- _ => by apply on_channel_state in E end.
Qed.

(** ** Witnesses *)

(** A server on the loop 0 with two threads and two connections, the first of which was closed by
    its peer. *)
Definition demo_labels : list label :=
  [Start S; Accept 5 100; Accept 6 101; Run 1; Run 2; HangUp 100].

Definition demo_server (ls : list label) : t :=
  match run ls (set_thread_num 2 (ctor 0)) with Ok s => s | Fault _ => ctor 0 end.



Lemma server_destructor_destroys_all_witness :
  let ls := [Start S; Accept 5 100; Run 1] in
  ∃ s', dtor 0 (demo_server ls) = Ok s' ∧ connections_ s' = ∅ ∧ refs 100 (pending s') = [(1%nat, Destroyed 100)].
Proof.
  intros ls. destruct (server_destructor_destroys_all 0 2 ls (demo_server ls)) as (s' & Hd & Hm & Hall);
    [lia | vm_compute; reflexivity.. | |].
  - intros c o Ho. assert (conns (demo_server ls) = {[ 100%nat := mkObject 5 1 kConnected ]}) as Hc by (vm_compute; reflexivity).
    rewrite Hc, lookup_singleton_Some in Ho. by destruct Ho as [_ <-].
  - exists s'. split; [exact Hd|]. split; [exact Hm|].
    destruct (Hall 100%nat (mkObject 5 1 kConnected)) as [_ Hr]; [vm_compute; reflexivity | exact Hr].
Defined.

Lemma server_states_follow_connection_witness :
  established kConnecting
  = Ok (TcpConnection.state_ (TcpConnection.conn_of TcpConnection.up)).
Proof.
  apply (server_states_follow_connection TcpConnection.demo_write TcpConnection.demo_cb 7
           (TcpConnection.conn_of []) (TcpConnection.conn_of TcpConnection.up)); [done | vm_compute; reflexivity].
Defined.
End TcpServer.
