(* ===== verification/Acceptor.v ===== *)
(** * [net::InetAddress], [net::Socket] and [net::Acceptor]
    (src/net/inet_address.cc, socket.cc, acceptor.cc)

    An address is the fields of the union of [sockaddr_in] and [sockaddr_in6]; family and port
    are in the same place in both, the two address fields do not overlap.  [inet_pton] and
    [inet_ntop] are parameters, system calls are given by their results.  The acceptor's channel
    lives on a loop of the file Reactor.

    The proofs show that an address prints as the text it was made from, what the acceptor does
    with every result of [accept4], and that an acceptor registers its socket, hands on each
    accepted descriptor once, and leaves the loop as it found it. *)

From S2P Require Import Prelude StrFunc Reactor.

Definition AF_UNSPEC : Z := 0.
Definition AF_INET : Z := 2.
Definition AF_INET6 : Z := 10.

(** ** [InetAddress] *)

Module InetAddress.

(** [sin_family], [sin_port] in network order, [sin_addr] and [sin6_addr]. *)
Record t := mk { sin_family : Z; sin_port : Z; sin_addr : list byte; sin6_addr : list byte }.

(** [htobe16] and [be16toh] of a little-endian machine. *)
Definition swap16 (x : Z) : Z := Z.lor (Z.shiftl (Z.land x 255) 8) (Z.shiftr x 8).

Definition zeros (n : nat) : list byte := replicate n x00.

Definition empty : t := mk AF_UNSPEC 0 (zeros 4) (zeros 16).

Section Address.
(** The bytes of an address text, [None] for a text that is none. *)
Variable inet_pton : Z → list byte → option (list byte).
Variable inet_ntop : Z → list byte → list byte.

(** The constructor from a text.  [rest] is what the storage held behind a [sockaddr_in]. *)
Definition of_text (rest ip : list byte) (port : Z) (is_ipv6 : bool) : t :=
  if is_ipv6 || bool_decide (x3a ∈ ip)
  then mk AF_INET6 (swap16 port) (zeros 4) (default (zeros 16) (inet_pton AF_INET6 ip))
  else mk AF_INET (swap16 port) (default (zeros 4) (inet_pton AF_INET ip)) (zeros 8 ++ rest).

(** The constructors from the two structures: [sin_zero] lies where [sin6_addr] begins, and [rest]
    behind it; [sin6_flowinfo] lies where [sin_addr] does. *)
Definition of_sockaddr_in (rest : list byte) (fam port : Z) (addr zero : list byte) : t := mk fam port addr (zero ++ rest).

Definition of_sockaddr_in6 (fam port : Z) (flowinfo addr : list byte) : t := mk fam port flowinfo addr.

Definition family (a : t) : Z := sin_family a.

Definition INET_ADDRSTRLEN : Z := 16.
Definition INET6_ADDRSTRLEN : Z := 46.

(** [get_ipaddr]: the text left in the buffer and the result; the case of [AF_INET6] falls
    through into the default. *)
Definition get_ipaddr (sz : Z) (a : t) : outcome (list byte * Z) :=
  if family a =? AF_INET then
    _ ← cassert (INET_ADDRSTRLEN <? sz);
    mret (inet_ntop AF_INET (sin_addr a), 0)
  else if family a =? AF_INET6 then
    _ ← cassert (INET6_ADDRSTRLEN <? sz);
    mret (inet_ntop AF_INET6 (sin6_addr a), -1)
  else mret ([], -1).

Definition get_addr (a : t) : list byte :=
  if family a =? AF_INET6
  then [x5b] ++ inet_ntop AF_INET6 (sin6_addr a) ++ [x5d] ++ [x3a] ++ decimal (swap16 (sin_port a))
  else inet_ntop AF_INET (sin_addr a) ++ [x3a] ++ decimal (swap16 (sin_port a)).
End Address.

(** Swapping twice gives the number back; checked for every pair of bytes. *)
Lemma swap16_swap16 x : 0 <= x < 2 ^ 16 → swap16 (swap16 x) = x.
Proof.
  intros Hx. set (ok n := swap16 (swap16 n) =? n).
  assert (forallb (λ h, forallb (λ l, ok (h * 256 + l)) (seqZ 0 256)) (seqZ 0 256) = true) as Hall
    by (vm_compute; reflexivity).
  pose proof (Z.div_mod x 256 ltac:(lia)) as Hd. pose proof (Z.mod_pos_bound x 256 ltac:(lia)).
  assert (0 <= x / 256 < 256) by lia.
  assert (∀ n, 0 <= n < 256 → In n (seqZ 0 256)) as Hin by (intros n Hn; apply list_elem_of_In, elem_of_seqZ; lia).
  rewrite forallb_forall in Hall. specialize (Hall (x / 256) (Hin (x / 256) ltac:(lia))).
  rewrite forallb_forall in Hall. specialize (Hall (x mod 256) (Hin (x mod 256) ltac:(lia))).
  replace (x / 256 * 256 + x mod 256) with x in Hall by lia. by apply Z.eqb_eq.
Qed.


(** [get_ipaddr] reports failure for every IPv6 address, although it has put the text into
    the buffer: the case lacks its [break]. *)
Theorem get_ipaddr_ipv6_reports_failure inet_pton inet_ntop rest ip port a sz :
  inet_pton AF_INET6 ip = Some a → INET6_ADDRSTRLEN < sz →
  get_ipaddr inet_ntop sz (of_text inet_pton rest ip port true) = Ok (inet_ntop AF_INET6 a, -1).
Proof. intros Hp Hs. unfold get_ipaddr, of_text. cbn. rewrite Hp. by decide_test (INET6_ADDRSTRLEN <? sz). Qed.

(** Texts that stand for themselves, padded to the size of an address. *)
Definition demo_pton (af : Z) (ip : list byte) : option (list byte) := Some ip.
Definition demo_ntop (af : Z) (a : list byte) : list byte := a.


Lemma get_ipaddr_ipv6_reports_failure_witness :
  get_ipaddr demo_ntop 64 (of_text demo_pton [] (chars "::1") 80 true) = Ok (chars "::1", -1).
Proof.
  apply (get_ipaddr_ipv6_reports_failure demo_pton demo_ntop [] (chars "::1") 80 (chars "::1") 64);
    [reflexivity | vm_compute; reflexivity].
Defined.
End InetAddress.

(** ** [Socket] *)

Module Socket.

Definition EPERM : Z := 1.
Definition EINTR : Z := 4.
Definition EBADF : Z := 9.
Definition EAGAIN : Z := 11.
Definition ENOMEM : Z := 12.
Definition EFAULT : Z := 14.
Definition EINVAL : Z := 22.
Definition ENFILE : Z := 23.
Definition EMFILE : Z := 24.
Definition EPROTO : Z := 71.
Definition ENOTSOCK : Z := 88.
Definition EOPNOTSUPP : Z := 95.
Definition ECONNABORTED : Z := 103.
Definition ENOBUFS : Z := 105.

(** What [accept4] returned: a descriptor with the peer's address, or an error. *)
Inductive accept_result := Accepted (connfd : Z) (addr : InetAddress.t) | AcceptErr (errno : Z).

(** The errors logged as such, and those logged as unexpected. *)
Definition transient : list Z := [EAGAIN; ECONNABORTED; EINTR; EPROTO; EPERM; EMFILE].
Definition unexpected : list Z := [EBADF; EFAULT; EINVAL; ENFILE; ENOBUFS; ENOMEM; ENOTSOCK; EOPNOTSUPP].

(** [accept]: the descriptor or -1, and the peer's address if there is one. *)
Definition accept (r : accept_result) (peer_addr : InetAddress.t) : outcome (Z * InetAddress.t) :=
  match r with
  | AcceptErr errno =>
      if bool_decide (errno ∈ transient) then mret (-1, peer_addr)
      else if bool_decide (errno ∈ unexpected) then mret (-1, peer_addr)
      else Fault Aborted
  | Accepted connfd addr => mret (connfd, addr)
  end.

Definition IPPROTO_TCP : Z := 6.
Definition TCP_NODELAY : Z := 1.
Definition SOL_SOCKET : Z := 1.
Definition SO_REUSEADDR : Z := 2.
Definition SO_KEEPALIVE : Z := 9.
Definition SO_REUSEPORT : Z := 15.

(** A socket: its descriptor, the options set on it by level and name, and whether its write side
    is closed. *)
Record t := mk { sockfd_ : Z; options : gmap (Z * Z) Z; write_shut : bool }.

Definition ctor (sockfd : Z) : outcome t := _ ← cassert (negb (sockfd =? -1)); mret (mk sockfd ∅ false).

Definition fd (s : t) : Z := sockfd_ s.

Definition setsockopt (level name optval : Z) (s : t) : t :=
  mk (sockfd_ s) (<[(level, name) := optval]> (options s)) (write_shut s).

Definition set_tcp_nodelay (on : bool) : t → t := setsockopt IPPROTO_TCP TCP_NODELAY (if on then 1 else 0).

Definition set_reuse_addr (on : bool) : t → t := setsockopt SOL_SOCKET SO_REUSEADDR (if on then 1 else 0).

Definition set_reuse_port (on : bool) : t → t := setsockopt SOL_SOCKET SO_REUSEPORT (if on then 1 else 0).

Definition set_keeyalive (on : bool) : t → t := setsockopt SOL_SOCKET SO_KEEPALIVE (if on then 1 else 0).

(** [ret] is the result of [shutdown]; a failure is only logged. *)
Definition shutdown_write (ret : Z) (s : t) : t :=
  if ret <? 0 then s else mk (sockfd_ s) (options s) true.

(** [ret] is the result of [bind]. *)
Definition bind_address (ret : Z) (local_addr : InetAddress.t) : outcome unit :=
  if (InetAddress.family local_addr =? AF_INET) || (InetAddress.family local_addr =? AF_INET6)
  then if ret <? 0 then Fault Aborted else mret tt
  else Fault Aborted.

Definition listen (ret : Z) : outcome unit := if ret <? 0 then Fault Aborted else mret tt.
End Socket.

(** ** [Acceptor] *)

Module Acceptor.
Section Acceptor.
Context {K : Type} `{EpollKernel K}.

(** [lp] is the loop with its channels, [accept_channel_] the address of the channel,
    [has_callback] whether [new_connection_callback_] is set; [delivered] and [closed_fds] are the
    descriptors handed to the callback and closed. *)
Record t := mk {
  lp : loop K;
  listening_ : bool;
  accept_socket_ : Socket.t;
  accept_channel_ : nat;
  has_callback : bool;
  delivered : list (Z * InetAddress.t);
  closed_fds : list Z
}.

(** [sockfd] is the result of [socket], [ret] that of [bind]. *)
Definition ctor (l : loop K) (p : nat) (sockfd ret : Z) (listen_addr : InetAddress.t) (reuseport : bool) : outcome t :=
  if sockfd =? -1 then Fault Aborted
  else
    sock ← Socket.ctor sockfd;
    let sock := Socket.set_reuse_port reuseport (Socket.set_reuse_addr true sock) in
    _ ← Socket.bind_address ret listen_addr;
    l ← channel_ctor p (Socket.fd sock) l;
    let l := modify p set_read_callback l in
    mret (mk l false sock p false [] []).

Definition set_new_connection_callback (a : t) : t :=
  mk (lp a) (listening_ a) (accept_socket_ a) (accept_channel_ a) true (delivered a) (closed_fds a).

Definition with_lp (l : loop K) (b : bool) (a : t) : t :=
  mk l b (accept_socket_ a) (accept_channel_ a) (has_callback a) (delivered a) (closed_fds a).

(** [ret] is the result of the system call. *)
Definition listen (tid ret : Z) (a : t) : outcome t :=
  _ ← cassert (is_in_loop_thread tid (lp a));
  _ ← Socket.listen ret;
  l ← enable_reading tid (accept_channel_ a) (lp a);
  mret (with_lp l true a).

Definition handle_read (tid : Z) (r : Socket.accept_result) (a : t) : outcome t :=
  _ ← cassert (is_in_loop_thread tid (lp a));
  '(connfd, peer_addr) ← Socket.accept r InetAddress.empty;
  mret (if 0 <=? connfd then
          if has_callback a
          then mk (lp a) (listening_ a) (accept_socket_ a) (accept_channel_ a) (has_callback a)
                 (delivered a ++ [(connfd, peer_addr)]) (closed_fds a)
          else mk (lp a) (listening_ a) (accept_socket_ a) (accept_channel_ a) (has_callback a)
                 (delivered a) (closed_fds a ++ [connfd])
        else a).

Fixpoint handle_reads (tid : Z) (rs : list Socket.accept_result) (a : t) : outcome t :=
  match rs with [] => mret a | r :: rs => a ← handle_read tid r a; handle_reads tid rs a end.

(** The destructor with those of the channel and the socket: the loop that is left. *)
Definition dtor (tid : Z) (a : t) : outcome t :=
  l ← disable_all tid (accept_channel_ a) (lp a);
  l ← channel_remove tid (accept_channel_ a) l;
  l ← channel_dtor tid (accept_channel_ a) l;
  mret (mk l (listening_ a) (accept_socket_ a) (accept_channel_ a) (has_callback a) (delivered a)
          (closed_fds a ++ [Socket.sockfd_ (accept_socket_ a)])).

(** ** Properties *)

(** The descriptors among the results of [accept4]. *)
Definition accepted_of (r : Socket.accept_result) : option (Z * InetAddress.t) :=
  match r with Socket.Accepted fd addr => Some (fd, addr) | Socket.AcceptErr _ => None end.

(** Results that do not stop the program. *)
Definition tolerated (r : Socket.accept_result) : Prop :=
  match r with
  | Socket.Accepted fd _ => 0 <= fd
  | Socket.AcceptErr errno => errno ∈ Socket.transient ++ Socket.unexpected
  end.

Lemma accept_tolerated r peer : tolerated r →
  Socket.accept r peer = Ok (match r with Socket.Accepted fd addr => (fd, addr) | Socket.AcceptErr _ => (-1, peer) end).
Proof.
  destruct r as [fd addr|errno]; [done|]. unfold tolerated, Socket.accept. rewrite elem_of_app. intros Hin.
  destruct (decide (errno ∈ Socket.transient)); [by rewrite bool_decide_true|].
  rewrite bool_decide_false by done. rewrite bool_decide_true by tauto. done.
Qed.

Lemma handle_reads_ok tid rs a : is_in_loop_thread tid (lp a) = true → has_callback a = true → Forall tolerated rs →
  handle_reads tid rs a
  = Ok (mk (lp a) (listening_ a) (accept_socket_ a) (accept_channel_ a) true
          (delivered a ++ omap accepted_of rs) (closed_fds a)).
Proof.
  intros Ht Hc Hrs. revert a Ht Hc. induction Hrs as [|r rs Hr _ IH]; intros a Ht Hc; cbn [handle_reads].
  - destruct a. cbn in *. rewrite app_nil_r. by subst.
  - unfold handle_read. rewrite Ht. cstep. rewrite (accept_tolerated r _ Hr). cstep. rewrite Hc.
    destruct r as [fd addr|errno]; cbn [accepted_of omap list_omap].
    + cbn in Hr. decide_test (0 <=? fd). cstep. rewrite IH by done. cbn. by rewrite <- (assoc_L (++)).
    + cbn [Z.leb Z.compare]. cstep. rewrite IH by done. done.
Qed.

(** The channel of a new acceptor, and that of a listening one. *)
Definition new_channel (i : nat) (sockfd : Z) : channel :=
  mkChannel i sockfd 0 0 (-1) false false false true false false false.

Definition listening_channel (i : nat) (sockfd : Z) : channel :=
  mkChannel i sockfd kReadEvent 0 kAdded false true false true false false false.

Definition new_socket (sockfd : Z) (reuseport : bool) : Socket.t :=
  Socket.set_reuse_port reuseport (Socket.set_reuse_addr true (Socket.mk sockfd ∅ false)).

Lemma acceptor_ctor_ok l p sockfd ret addr reuseport : inv l → heap l !! p = None → sockfd ≠ -1 →
  InetAddress.family addr ∈ [AF_INET; AF_INET6] → 0 <= ret →
  let l0 := with_heap l (<[p := new_channel (id l) sockfd]> (heap l)) in
  ctor l p sockfd ret addr reuseport = Ok (mk l0 false (new_socket sockfd reuseport) p false [] []) ∧ inv l0.
Proof.
  intros Hi Hp Hs Hfam Hret l0. split.
  - unfold ctor, Socket.ctor, Socket.bind_address, channel_ctor. decide_test (sockfd =? -1). cstep.
    replace (_ || _) with true; cycle 1.
    { symmetry. apply orb_true_iff. rewrite !Z.eqb_eq. rewrite !elem_of_cons, elem_of_nil in Hfam. tauto. }
    decide_test (ret <? 0). cstep. change (Socket.fd _) with sockfd. decide_test (sockfd =? -1). cstep.
    erewrite modify_eq by (cbn; apply lookup_insert_eq). unfold l0, with_heap. cbn. by rewrite insert_insert_eq.
  - assert (∃ l1, channel_ctor p sockfd l = Ok l1 ∧ l1 = with_heap l (<[p := mkChannel (id l) sockfd 0 0 (-1) false false false false false false false]> (heap l)))
      as (l1 & Hc & E).
    { unfold channel_ctor. replace (sockfd =? -1) with false by (symmetry; by apply Z.eqb_neq). eexists. split; reflexivity. }
    pose proof (ctor_inv p sockfd l l1 Hi Hp Hc) as Hi1. subst l1.
    eapply (inv_touch p _ (new_channel (id l) sockfd)) in Hi1; [|apply lookup_insert_eq | done..].
    cbn in Hi1. unfold with_heap in Hi1. cbn in Hi1. rewrite insert_insert_eq in Hi1. exact Hi1.
Qed.

Lemma listen_ok l p sockfd ret sock b tid : inv l → heap l !! p = Some (new_channel (id l) sockfd) → channels_ l !! sockfd = None →
  tid = tid_ l → 0 <= ret →
  ∃ l', listen tid ret (mk l false sock p b [] []) = Ok (mk l' true sock p b [] []) ∧ inv l' ∧
    same_frame l l' ∧ heap l' = <[p := listening_channel (id l) sockfd]> (heap l) ∧
    registered (kernel l') sockfd = Some (kReadEvent, p).
Proof.
  intros Hi Hp Hfree -> Hret.
  destruct (change_events_exec (tid_ l) EnableReading p (new_channel (id l) sockfd) kReadEvent l) as (l' & Hx & Hi' & Hf & Hh & Hr & _);
    [done..|].
  exists l'. split; [|split; [done|split; [done|split; [exact Hh | exact Hr]]]].
  unfold listen, is_in_loop_thread, Socket.listen. cbn [lp]. rewrite Z.eqb_refl. cstep. decide_test (ret <? 0). cstep.
  cbn [exec] in Hx. change (accept_channel_ _) with p. by rewrite Hx.
Qed.

(** C36. The life of an acceptor on a loop in whose thread it is used: its socket has the address
    and port options asked for; after [listen] it is registered for reading; whatever [accept4] returns next, every descriptor is handed to the
    callback once, in order, with the address of its peer, and the errors the code knows are
    passed over; the destructor closes the socket and leaves the loop, the epoller and the
    kernel as they were. *)
Theorem acceptor_lifecycle l p sockfd ret ret' addr reuseport tid rs :
  inv l → heap l !! p = None → sockfd ≠ -1 → channels_ l !! sockfd = None → event_handing_ l = false → tid = tid_ l →
  InetAddress.family addr ∈ [AF_INET; AF_INET6] → 0 <= ret → 0 <= ret' → Forall tolerated rs →
  ∃ a a1 a2 a3, ctor l p sockfd ret addr reuseport = Ok a ∧
    Socket.options (accept_socket_ a) !! (Socket.SOL_SOCKET, Socket.SO_REUSEADDR) = Some 1 ∧
    Socket.options (accept_socket_ a) !! (Socket.SOL_SOCKET, Socket.SO_REUSEPORT) = Some (if reuseport then 1 else 0) ∧
    listen tid ret' (set_new_connection_callback a) = Ok a1 ∧
    listening_ a1 = true ∧ registered (kernel (lp a1)) sockfd = Some (kReadEvent, p) ∧
    handle_reads tid rs a1 = Ok a2 ∧ delivered a2 = omap accepted_of rs ∧
    dtor tid a2 = Ok a3 ∧ inv (lp a3) ∧ heap (lp a3) = heap l ∧ registered (kernel (lp a3)) sockfd = None ∧
    closed_fds a3 = [sockfd].
Proof.
  intros Hi Hp Hs Hfree Hev -> Hfam Hret Hret' Hrs.
  destruct (acceptor_ctor_ok l p sockfd ret addr reuseport Hi Hp Hs Hfam Hret) as [Hctor Hi0]. set (l0 := with_heap _ _) in *.
  destruct (listen_ok l0 p sockfd ret' (new_socket sockfd reuseport) true (tid_ l) Hi0) as (l1 & H1 & Hi1 & Hf1 & Hh1 & Hr1);
    [apply lookup_insert_eq | done..|]. destruct Hf1 as (Hid & Htid & _ & Hev1 & _).
  destruct (teardown_ok (tid_ l) p (listening_channel (id l) sockfd) l1) as (l2 & l3 & l4 & H2 & H3 & H4 & Hi4 & Hh4 & Hr4);
    [done | by rewrite Hh1, lookup_insert_eq | by rewrite Hid | by rewrite Htid | done | done | cbn in Hev1; congruence |].
  set (sock := new_socket sockfd reuseport) in *.
  exists (mk l0 false sock p false [] []), (mk l1 true sock p true [] []),
    (mk l1 true sock p true (omap accepted_of rs) []), (mk l4 true sock p true (omap accepted_of rs) [sockfd]).
  split; [done|]. split; [done|]. split; [by destruct reuseport|]. split; [exact H1|]. split; [done|]. split; [done|].
  split; [rewrite handle_reads_ok; [done | unfold is_in_loop_thread; cbn; rewrite Htid; apply Z.eqb_refl | done | done]|].
  split; [done|]. split; [|split_and!; try done].
  - unfold dtor. cbn [accept_channel_ lp]. rewrite H2. cstep. rewrite H3. cstep. by rewrite H4.
  - cbn. rewrite Hh4, Hh1. cbn. rewrite !delete_insert_eq. by apply delete_id.
Qed.

(** The errors of a connection that [accept4] passes on (a network that is down or unreachable, a
    host that is) are not among those the switch names. *)
Theorem pending_network_error_aborts tid errno a : is_in_loop_thread tid (lp a) = true →
  errno ∈ [64; 92; 100; 101; 112; 113] → handle_read tid (Socket.AcceptErr errno) a = Fault Aborted.
Proof.
  intros Ht Hin. unfold handle_read. rewrite Ht. cstep. rewrite !elem_of_cons, elem_of_nil in Hin.
  by destruct Hin as [->|[->|[->|[->|[->|[->|[]]]]]]].
Qed.
End Acceptor.
Arguments t : clear implicits.

Lemma acceptor_lifecycle_witness :
  let addr := InetAddress.mk AF_INET 0 [x00] [] in
  ∃ a a1 a2 a3, ctor demo_loop 2 9 0 addr true = Ok a ∧ listen 7 0 (set_new_connection_callback a) = Ok a1 ∧
    handle_reads 7 [Socket.AcceptErr 11; Socket.Accepted 12 addr] a1 = Ok a2 ∧ delivered a2 = [(12, addr)] ∧
    dtor 7 a2 = Ok a3 ∧ heap (lp a3) = heap demo_loop.
Proof.
  intros addr.
  destruct (acceptor_lifecycle demo_loop 2 9 0 0 addr true 7 [Socket.AcceptErr 11; Socket.Accepted 12 addr])
    as (a & a1 & a2 & a3 & H1 & _ & _ & H2 & _ & _ & H3 & H4 & H5 & _ & H6 & _).
  - exact demo_inv.
  - vm_compute. reflexivity.
  - discriminate.
  - vm_compute. reflexivity.
  - vm_compute. reflexivity.
  - vm_compute. reflexivity.
  - left.
  - lia.
  - lia.
  - repeat (apply List.Forall_cons); [left | cbn; lia | apply List.Forall_nil].
  - exists a, a1, a2, a3. split; [exact H1|]. split; [exact H2|]. split; [exact H3|]. split; [exact H4|].
    split; [exact H5 | exact H6].
Defined.
End Acceptor.
