(* ===== verification/ServerLoop.v ===== *)
(** * The server on its loop (src/net/tcp_server.cc, acceptor.cc, tcp_connection.cc, src/reactor/event_loop.cc)

    A server without threads of its own: one loop in one thread, with the wakeup channel, the
    acceptor and any number of connections on it.  The objects are those of the files Reactor,
    Connection, Acceptor and ThreadPool; here they share one loop, so the loop each of them
    carries is replaced by the current one whenever one of their functions is called.  A turn is
    the body of [EventLoop::loop]: [poll], the dispatch of every active channel to the object that
    set its callbacks, the functors, and the release of the references they held.

    The proofs show that whatever the kernel reports, accepts, takes and delivers, turn after
    turn, no assertion of any of the parts fails and no object is used after its end, and that
    between two turns the map of the server, the connection objects, the channels of the loop and
    the kernel's interest set agree: a connection that was closed in a turn is gone at its end. *)

From stdpp Require Import sorting.
From S2P Require Import Prelude NetBuffer Reactor LoopLife Connection ConnSafe LoopTurn ThreadPool TcpServer Acceptor.

Module ServerLoop.
Import TcpConnection.

(** ** State *)

(** A connection object: the number of its creation, its descriptor, and the connection. *)
Record object (K : Type) := mkObject { serial : Z; sock : Z; body : conn K }.

Arguments mkObject {K}.
Arguments serial {K}.
Arguments sock {K}.
Arguments body {K}.

(** Functors waiting in the loop: those a connection queues, and those of the server. *)
Inductive functor := Task (c : nat) (t : task) | Established (c : nat) | RemoveInLoop (c : nat) | Destroyed (c : nat).

(** The connection a functor holds a [shared_ptr] to; those bound to a plain [this] hold none. *)
Definition holds (f : functor) : option nat :=
  match f with
  | Task c TaskWriteComplete => Some c
  | Task _ _ => None
  | Established c | RemoveInLoop c | Destroyed c => Some c
  end.

(** [base] is the loop, [wakeup_channel_] the address of its wakeup channel, [objects] the live
    connections by address, and [accepts] counts the calls of [accept4]. *)
Record world (K : Type) := mkWorld {
  base : loop K;
  wakeup_channel_ : nat;
  acceptor_ : Acceptor.t K;
  threadpool_ : EventLoopThreadPool.t;
  next_conn_id_ : Z;
  started_ : Z;
  connections_ : gmap Z nat;
  objects : gmap nat (object K);
  pending_functors_ : list functor;
  accepts : nat
}.

Arguments mkWorld {K}.
Arguments base {K}.
Arguments wakeup_channel_ {K}.
Arguments acceptor_ {K}.
Arguments threadpool_ {K}.
Arguments next_conn_id_ {K}.
Arguments started_ {K}.
Arguments connections_ {K}.
Arguments objects {K}.
Arguments pending_functors_ {K}.
Arguments accepts {K}.

Section Server.
Context {K : Type} `{EpollKernel K}.

(** The results of [::write] and [readv] on each connection, and of [accept4] given the open
    descriptors; the user's callbacks and memory; the thread; and where a new object goes, given
    the addresses in use. *)
Context (kwrite : Z → nat → Z → sysret) (kreadv : Z → nat → Z → Buffer.readv_result).
Context (kaccept : nat → gset Z → Socket.accept_result).
Context (cb : callbacks) (m : gmap nat (list byte)) (tid : Z) (alloc : gset nat → nat).
Implicit Types (W : world K) (w : conn K) (o : object K) (c q : nat) (ch : channel).

Definition with_base (l : loop K) W : world K :=
  mkWorld l (wakeup_channel_ W) (acceptor_ W) (threadpool_ W) (next_conn_id_ W) (started_ W) (connections_ W)
    (objects W) (pending_functors_ W) (accepts W).

Definition with_connections (cs : gmap Z nat) W : world K :=
  mkWorld (base W) (wakeup_channel_ W) (acceptor_ W) (threadpool_ W) (next_conn_id_ W) (started_ W) cs
    (objects W) (pending_functors_ W) (accepts W).

Definition with_objects (os : gmap nat (object K)) W : world K :=
  mkWorld (base W) (wakeup_channel_ W) (acceptor_ W) (threadpool_ W) (next_conn_id_ W) (started_ W) (connections_ W)
    os (pending_functors_ W) (accepts W).

Definition with_pending (fs : list functor) W : world K :=
  mkWorld (base W) (wakeup_channel_ W) (acceptor_ W) (threadpool_ W) (next_conn_id_ W) (started_ W) (connections_ W)
    (objects W) fs (accepts W).

(** The acceptor between two calls of its callback. *)
Definition with_acceptor (a : Acceptor.t K) W : world K :=
  mkWorld (Acceptor.lp a) (wakeup_channel_ W)
    (Acceptor.mk (Acceptor.lp a) (Acceptor.listening_ a) (Acceptor.accept_socket_ a) (Acceptor.accept_channel_ a)
       (Acceptor.has_callback a) [] (Acceptor.closed_fds a))
    (threadpool_ W) (next_conn_id_ W) (started_ W) (connections_ W) (objects W) (pending_functors_ W) (accepts W).

Definition the_acceptor W : Acceptor.t K := Acceptor.with_lp (base W) (Acceptor.listening_ (acceptor_ W)) (acceptor_ W).

(** The use of a connection pointer. *)
Definition object_at c W : outcome (object K) :=
  match objects W !! c with Some o => Ok o | None => Fault OutOfBounds end.

(** The object as its functions see it, and the world they leave. *)
Definition view o W : conn K := with_queue [] (with_lp (base W) (body o)).

Definition put c o w W : world K :=
  mkWorld (lp w) (wakeup_channel_ W) (acceptor_ W) (threadpool_ W) (next_conn_id_ W) (started_ W) (connections_ W)
    (<[c := mkObject (serial o) (sock o) w]> (objects W)) (pending_functors_ W ++ map (Task c) (queue w)) (accepts W).

Definition in_base_thread W : bool := is_in_loop_thread tid (base W).

Definition queue_in_loop (f : functor) W : world K := with_pending (pending_functors_ W ++ [f]) W.

(** The callbacks [new_connection] sets on a connection: those of the user that are not null, and
    [remove_connection]. *)
Definition pass_on {F} (set : option F → callbacks → callbacks) (f : option F) (c : callbacks) : callbacks :=
  match f with Some _ => set f c | None => c end.

Definition conn_cb : callbacks :=
  let c := pass_on set_connection_callback (connection_callback_ cb) no_callbacks in
  let c := pass_on set_message_callback (message_callback_ cb) c in
  let c := pass_on set_write_complete_callback (write_complete_callback_ cb) c in
  set_close_callback true c.

(** ** The end of a connection *)

Definition remove_connection_in_loop c W : outcome (world K) :=
  _ ← cassert (in_base_thread W);
  o ← object_at c W;
  _ ← cassert (bool_decide (connections_ W !! sock o = Some c));
  mret (queue_in_loop (Destroyed c) (with_connections (delete (sock o) (connections_ W)) W)).

(** The close callback of a connection. *)
Definition remove_connection c W : outcome (world K) :=
  if in_base_thread W then remove_connection_in_loop c W else mret (queue_in_loop (RemoveInLoop c) W).

(** A call of the function [f] of the connection at [c].  The close callback is the last thing a
    function calls. *)
Definition member c (f : Z → conn K → outcome (conn K)) W : outcome (world K) :=
  o ← object_at c W;
  w ← f (serial o) (view o W);
  let W := put c o w W in
  if closed w && negb (closed (body o)) then remove_connection c W else mret W.

Definition run_functor (f : functor) W : outcome (world K) :=
  match f with
  | Task c t => member c (λ n, run_task (kwrite n) conn_cb tid t) W
  | Established c => member c (λ n, connect_established (kwrite n) conn_cb tid) W
  | RemoveInLoop c => remove_connection_in_loop c W
  | Destroyed c => member c (λ n, connect_destoryed (kwrite n) conn_cb tid) W
  end.

Definition run_in_loop (f : functor) W : outcome (world K) :=
  if in_base_thread W then run_functor f W else mret (queue_in_loop f W).

(** ** The beginning of a connection *)

(** The use of a loop pointer: the only loop here is the base loop. *)
Definition loop_at (io : nat) W : outcome (loop K) := if decide (io = id (base W)) then mret (base W) else Fault OutOfBounds.

(** [TcpServer::new_connection]; the new object goes to an unused address. *)
Definition new_connection (sockfd : Z) W : outcome (world K) :=
  _ ← cassert (in_base_thread W);
  '(io, pool) ← EventLoopThreadPool.get_next_loop tid (threadpool_ W);
  next ← sint_checked 32 (next_conn_id_ W + 1);
  l ← loop_at io W;
  let c := alloc (dom (heap l)) in
  w ← ctor l c sockfd m;
  _ ← cassert (bool_decide (connections_ W !! sockfd = None));
  run_in_loop (Established c)
    (mkWorld (lp w) (wakeup_channel_ W) (acceptor_ W) pool next (started_ W) (<[sockfd := c]> (connections_ W))
       (<[c := mkObject (next_conn_id_ W) sockfd w]> (objects W)) (pending_functors_ W) (accepts W)).

(** The descriptors in use: the acceptor's, that of the wakeup channel, the connections'. *)
Definition open_fds W : gset Z := map_img (Reactor.fd_ <$> heap (base W)).

(** [Acceptor::handle_read], whose callback is [new_connection]. *)
Definition accept_read W : outcome (world K) :=
  a ← Acceptor.handle_read tid (kaccept (accepts W) (open_fds W)) (the_acceptor W);
  let W := with_acceptor a W in
  let W := mkWorld (base W) (wakeup_channel_ W) (acceptor_ W) (threadpool_ W) (next_conn_id_ W) (started_ W)
             (connections_ W) (objects W) (pending_functors_ W) (S (accepts W)) in
  match Acceptor.delivered a with
  | [] => mret W
  | (sockfd, _) :: _ => new_connection sockfd W
  end.

(** ** A turn of the loop *)

Definition look q W : channel := default LoopTurn.null_channel (heap (base W) !! q).

Definition handling q (b : bool) W : world K := with_base (modify q (LoopTurn.set_handling b) (base W)) W.

(** The callbacks of the channel at [q]: the loop's, the acceptor's, or those a connection binds. *)
Definition run_callback q (k : callback) W : outcome (world K) :=
  if decide (q = wakeup_channel_ W) then mret W
  else if decide (q = Acceptor.accept_channel_ (acceptor_ W)) then
    match k with CbRead => accept_read W | _ => mret W end
  else member q (λ n, LoopTurn.run_callback (kwrite n) (kreadv n) conn_cb tid k) W.

(** Whether the [weak_ptr] of a tied channel can be locked. *)
Definition alive q W : bool := bool_decide (is_Some (objects W !! q)).

Definition channel_event q W : outcome (world K) :=
  _ ← deref q (base W);
  handle_event (look q) (handling q) (run_callback q) (alive q W) W.

Fixpoint handle_active (active : list nat) W : outcome (world K) :=
  match active with
  | [] => mret W
  | q :: active =>
      W ← channel_event q (with_base (LoopTurn.set_current (Some q) (base W)) W);
      handle_active active W
  end.

Fixpoint run_functors (fs : list functor) W : outcome (world K) :=
  match fs with
  | [] => mret W
  | f :: fs => W ← run_functor f W; run_functors fs W
  end.

(** Whether the map of the server or a functor still refers to a connection. *)
Definition referenced c (fs : list functor) W : bool :=
  negb (bool_decide (map_Forall (λ _ c', c' ≠ c) (connections_ W)))
  || bool_decide (Exists (λ f, holds f = Some c) (fs ++ pending_functors_ W)).

(** A reference to the connection goes away; with the last one, the connection. *)
Definition release c (fs : list functor) W : outcome (world K) :=
  if referenced c fs W then mret W
  else
    o ← object_at c W;
    w ← dtor tid (view o W);
    mret (with_objects (delete c (objects W)) (with_base (lp w) W)).

(** The end of the vector of functors. *)
Fixpoint drop_functors (fs : list functor) W : outcome (world K) :=
  match fs with
  | [] => mret W
  | f :: fs =>
      W ← match holds f with Some c => release c fs W | None => mret W end;
      drop_functors fs W
  end.

Definition do_pending_functors W : outcome (world K) :=
  let fs := pending_functors_ W in
  W ← run_functors fs (with_pending [] W);
  drop_functors fs W.

(** The body of the [while] statement of [EventLoop::loop]. *)
Definition turn (r : wait_result) W : outcome (world K) :=
  '(l, active) ← poll r (base W) [];
  W ← handle_active active (with_base (LoopTurn.begin_events active l) W);
  do_pending_functors (with_base (LoopTurn.end_events (base W)) W).

Fixpoint turns (rs : list wait_result) W : outcome (world K) :=
  match rs with
  | [] => mret W
  | r :: rs => W ← turn r W; turns rs W
  end.

(** ** The server *)

(** [TcpServer::TcpServer] on a loop with its wakeup channel at [wake]; [sockfd] and [ret] are the
    results of [socket] and [bind]. *)
Definition server_ctor (l : loop K) (wake : nat) (sockfd ret : Z) (listen_addr : InetAddress.t) (reuse_port : bool) : outcome (world K) :=
  a ← Acceptor.ctor l (alloc (dom (heap l))) sockfd ret listen_addr reuse_port;
  mret (mkWorld (Acceptor.lp a) wake (Acceptor.set_new_connection_callback a)
          (EventLoopThreadPool.ctor (id l) (tid_ l)) 1 0 ∅ ∅ [] 0).

(** [TcpServer::start]: no threads are asked for, and the pool asserts that the caller is the base
    loop's thread, so [Acceptor::listen] runs at once; [ret] is the result of [listen]. *)
Definition start (ret : Z) W : outcome (world K) :=
  let first := started_ W =? 0 in
  let W := mkWorld (base W) (wakeup_channel_ W) (acceptor_ W) (threadpool_ W) (next_conn_id_ W)
             (TcpServer.wrap32 (started_ W + 1)) (connections_ W) (objects W) (pending_functors_ W) (accepts W) in
  if first then
    pool ← EventLoopThreadPool.start tid (λ _, 0%nat) (threadpool_ W);
    _ ← cassert (negb (Acceptor.listening_ (acceptor_ W)));
    a ← Acceptor.listen tid ret (the_acceptor W);
    mret (with_acceptor a
      (mkWorld (base W) (wakeup_channel_ W) (acceptor_ W) pool (next_conn_id_ W) (started_ W) (connections_ W)
         (objects W) (pending_functors_ W) (accepts W)))
  else mret W.

(** The loop of [TcpServer::~TcpServer]: the entry is cleared, the connection destroyed, and the
    local reference to it goes out of scope. *)
Fixpoint destroy_all (entries : list (Z * nat)) W : outcome (world K) :=
  match entries with
  | [] => mret W
  | (fd, c) :: entries =>
      W ← run_in_loop (Destroyed c) (with_connections (delete fd (connections_ W)) W);
      W ← release c [] W;
      destroy_all entries W
  end.

(** [TcpServer::~TcpServer] and the destructor of the acceptor; a [std::map] is traversed in the
    order of its keys. *)
Definition server_dtor W : outcome (world K) :=
  _ ← cassert (in_base_thread W);
  W ← destroy_all (merge_sort TcpServer.key_le (map_to_list (connections_ W))) W;
  a ← Acceptor.dtor tid (the_acceptor W);
  mret (with_acceptor a W).

Lemma conn_cb_eq : conn_cb = mkCallbacks (connection_callback_ cb) (message_callback_ cb) (write_complete_callback_ cb) true.
Proof. unfold conn_cb. by destruct cb as [[] [] [] ?]. Qed.

(** ** The invariant *)

Import ConnSafe.

Hypothesis kwrite_ok : ∀ n t len k, kwrite n t len = SysOk k → 0 <= k <= len.

Hypothesis kreadv_ok : ∀ n t room data, 0 <= room → kreadv n t room = Buffer.ReadvData data →
  zlen data <= room ∧ zlen data < Buffer.kExtraBuf.

(** [accept4] returns a descriptor that is not in use, or one of the errors the code knows. *)
Hypothesis kaccept_ok : ∀ t fds, Acceptor.tolerated (kaccept t fds) ∧
  ∀ fd addr, kaccept t fds = Socket.Accepted fd addr → fd ∉ fds.

Hypothesis user_ok : callbacks_ok conn_cb m.
Hypothesis alloc_ok : ∀ S, alloc S ∉ S.

(** What the connections are used for. *)
Context (J : conn K → Prop) `{!ConnLaw kwrite kreadv conn_cb tid J}.

(** The addresses of the loop, the wakeup channel and the acceptor's channel, and the descriptors of
    the two. *)
Context (i wake pa : nat) (wake_fd listen_fd : Z).

(** The connections whose destruction is queued. *)
Definition destroys (fs : list functor) : list nat :=
  omap (λ f, match f with Destroyed c => Some c | _ => None end) fs.

(** The phase of a connection, when the functors [run] have been run and [due] have not. *)
Definition phase_of (run due : list functor) c : phase :=
  if decide (c ∈ destroys run) then Removed else if decide (c ∈ destroys due) then Closed else Live.

(** The connection at [c] as the file ConnSafe describes it, and its stream. *)
Definition conn_ok W c o (ev : Z) (h : bool) (ph : phase) : Prop :=
  held m tid c (sock o) i (delete c (heap (base W))) (state_ (body o)) ev 0 ph (told_of conn_cb ph) (h, event_handing_ (base W)) (view o W) ∧
  sound J (view o W).

Definition side_ok (cur : option nat) q ch : Prop :=
  loop_ ch = i ∧ index_ ch = kAdded ∧ event_handling_ ch = bool_decide (cur = Some q) ∧ reads_only ch ∧
  Reactor.fd_ ch = (if decide (q = wake) then wake_fd else listen_fd) ∧ events_ ch = kReadEvent ∧
  tied_ ch = false.

(** [e] is the flag of the loop, [cur] the channel whose event is being handled. *)
Record winv (e : bool) (cur : option nat) (run due : list functor) W : Prop := {
  w_inv : inv (base W);
  w_id : id (base W) = i;
  w_tid : tid_ (base W) = tid;
  w_flag : event_handing_ (base W) = e;
  w_wake : wakeup_channel_ W = wake;
  w_ne : wake ≠ pa;
  w_acc : Acceptor.accept_channel_ (acceptor_ W) = pa ∧ Acceptor.has_callback (acceptor_ W) = true ∧
          Acceptor.delivered (acceptor_ W) = [] ∧ Acceptor.listening_ (acceptor_ W) = true;
  w_dom : dom (heap (base W)) = {[wake; pa]} ∪ dom (objects W);
  w_side : ∀ q, q = wake ∨ q = pa → objects W !! q = None ∧ ∃ ch, heap (base W) !! q = Some ch ∧ side_ok cur q ch;
  w_conn : ∀ c o, objects W !! c = Some o → ∃ ev, conn_ok W c o ev (bool_decide (cur = Some c)) (phase_of run due c);
  w_map : ∀ fd c, connections_ W !! fd = Some c ↔ ∃ o, objects W !! c = Some o ∧ sock o = fd ∧ phase_of run due c = Live;
  w_fds : ∀ p q ch ch', heap (base W) !! p = Some ch → heap (base W) !! q = Some ch' → Reactor.fd_ ch = Reactor.fd_ ch' → p = q;
  w_pool : threadpool_ W = EventLoopThreadPool.mk i tid true 0 0 [];
  w_next : 0 <= next_conn_id_ W <= Z.of_nat (accepts W) + 1;
  w_nodup : NoDup (destroys (run ++ due))
}.

(** ** The server of the file TcpServer *)

(** A world is a state of that server, with all connections on the base loop, where the functors
    [due] have still to run.  What connections queue for themselves is not seen there. *)
Definition abs_functor (f : functor) : option (nat * TcpServer.functor) :=
  match f with
  | Task _ _ => None
  | Established c => Some (i, TcpServer.Established c)
  | RemoveInLoop c => Some (i, TcpServer.RemoveInLoop c)
  | Destroyed c => Some (i, TcpServer.Destroyed c)
  end.

Definition abs_object o : TcpServer.object := TcpServer.mkObject (sock o) i (state_ (body o)).

Definition abs_pool (p : EventLoopThreadPool.t) : EventLoopThreadPool.t :=
  EventLoopThreadPool.mk (EventLoopThreadPool.base_loop_ p) (TcpServer.tid (EventLoopThreadPool.base_loop_ p))
    (EventLoopThreadPool.started_ p) (EventLoopThreadPool.num_threads_ p) (EventLoopThreadPool.next_ p) (EventLoopThreadPool.loops_ p).

Definition abs_server (due : list functor) W : TcpServer.t :=
  TcpServer.mk (abs_pool (threadpool_ W)) (next_conn_id_ W) (started_ W) (Acceptor.listening_ (acceptor_ W)) (connections_ W)
    (abs_object <$> objects W) (omap abs_functor due).

Definition steps (due : list functor) W (due' : list functor) W' : Prop :=
  ∃ ls, TcpServer.run ls (abs_server due W) = Ok (abs_server due' W').

Lemma steps_same due W due' W' : abs_server due' W' = abs_server due W → steps due W due' W'.
Proof. intros E. exists []. cbn. by rewrite E. Qed.

Lemma steps_refl due W : steps due W due W.
Proof. by apply steps_same. Qed.

Lemma steps_trans d1 W1 d2 W2 d3 W3 : steps d1 W1 d2 W2 → steps d2 W2 d3 W3 → steps d1 W1 d3 W3.
Proof. intros [ls H1] [ls' H2]. exists (ls ++ ls'). by rewrite TcpServer.run_app, H1. Qed.

Lemma steps_one lb due W due' W' : TcpServer.exec lb (abs_server due W) = Ok (abs_server due' W') → steps due W due' W'.
Proof. intros Hx. exists [lb]. cbn [TcpServer.run]. by rewrite Hx. Qed.

Lemma abs_lookup due W c o : objects W !! c = Some o → TcpServer.conns (abs_server due W) !! c = Some (abs_object o).
Proof. intros Ho. cbn. by rewrite lookup_fmap, Ho. Qed.

Lemma abs_tasks c ts : omap abs_functor (map (Task c) ts) = [].
Proof. by induction ts. Qed.

(** A connection that stays open may have been shut down by its user; one that is closed stays so. *)
Lemma steps_put due W c o w fs due' : objects W !! c = Some o → grows (state_ (body o)) (state_ w) →
  (state_ w = kDisconnected → state_ (body o) = kDisconnected) → omap abs_functor due' = omap abs_functor due →
  steps due W due' (with_pending fs (put c o w W)).
Proof.
  intros Ho Hg Hd Hdue. assert (state_ w = state_ (body o) ∨ (state_ (body o) = kConnected ∧ state_ w = kDisconnecting)) as [Hs|[Hs Hs']].
  { destruct Hg as [?|[?|Hx]]; [by left | by right | left; by rewrite Hx, Hd]. }
  - apply steps_same. unfold abs_server. cbn. rewrite fmap_insert, Hdue. f_equal. apply insert_id.
    rewrite lookup_fmap, Ho. cbn. unfold abs_object. cbn. by rewrite Hs.
  - apply (steps_one (TcpServer.UserShutdown c)). unfold TcpServer.exec, TcpServer.enabled.
    rewrite (abs_lookup _ _ _ _ Ho), bool_decide_true by done. cbn [TcpServer.perform].
    unfold TcpServer.shutdown, TcpServer.deref. rewrite (abs_lookup _ _ _ _ Ho). cstep.
    cbn [TcpServer.state_ abs_object]. rewrite decide_True by done. unfold abs_server. cbn. rewrite fmap_insert, Hdue.
    unfold TcpServer.set_state, TcpServer.with_conns. cbn. unfold abs_object. cbn. by rewrite Hs'.
Qed.

(** A connection that is closed leaves the map, and its destruction is queued. *)
Lemma steps_close due W c o w fs due' : objects W !! c = Some o → threadpool_ W = EventLoopThreadPool.mk i tid true 0 0 [] →
  connections_ W !! sock o = Some c → state_ (body o) = kConnected ∨ state_ (body o) = kDisconnecting →
  state_ w = kDisconnected → omap abs_functor due' = omap abs_functor due ++ [(i, TcpServer.Destroyed c)] →
  steps due W due' (with_pending fs (with_connections (delete (sock o) (connections_ W)) (put c o w W))).
Proof.
  intros Ho Hp Hm Hup Hs Hdue. apply (steps_one (TcpServer.HangUp c)).
  assert (TcpServer.watched (state_ (body o)) = true) as Hwatch by (unfold TcpServer.watched; by destruct Hup as [->| ->]).
  assert (TcpServer.close_event (state_ (body o)) = Ok kDisconnected) as Hclose by (unfold TcpServer.close_event; by destruct Hup as [->| ->]).
  unfold TcpServer.exec, TcpServer.enabled. rewrite (abs_lookup _ _ _ _ Ho). cbn [TcpServer.state_ abs_object]. rewrite Hwatch.
  cbn [TcpServer.perform]. unfold TcpServer.handle_close, TcpServer.deref. rewrite (abs_lookup _ _ _ _ Ho). cstep.
  cbn [TcpServer.state_ abs_object]. rewrite Hclose. cstep.
  unfold TcpServer.remove_connection, TcpServer.run_in_loop. cbn [TcpServer.io_loop abs_object].
  assert (∀ st, TcpServer.loop_ (TcpServer.set_state c (abs_object o) st (abs_server due W)) = i) as Hloop by (intros st; cbn; by rewrite Hp).
  rewrite !Hloop, decide_True by done. cbn [TcpServer.run_functor].
  unfold TcpServer.remove_connection_in_loop, TcpServer.in_loop_thread. rewrite Hloop, bool_decide_true by done. cstep.
  unfold TcpServer.deref. cbn [TcpServer.set_state TcpServer.with_conns TcpServer.conns]. rewrite lookup_insert_eq. cstep.
  cbn [TcpServer.fd_ TcpServer.connections_ TcpServer.set_state TcpServer.with_conns abs_server abs_object].
  rewrite (bool_decide_true (connections_ W !! sock o = Some c)) by done. cstep.
  unfold abs_server. cbn. rewrite fmap_insert, Hdue. unfold abs_object. cbn. by rewrite Hs.
Qed.

(** A new connection enters the map established. *)
Lemma steps_accept due W c sockfd n w l fs k : threadpool_ W = EventLoopThreadPool.mk i tid true 0 0 [] →
  Acceptor.listening_ (acceptor_ W) = true → 0 <= sockfd → objects W !! c = None → connections_ W !! sockfd = None →
  (∀ c' o, objects W !! c' = Some o → sock o ≠ sockfd) → 0 <= next_conn_id_ W → next_conn_id_ W + 1 < 2 ^ 31 → state_ w = kConnected →
  steps due W due (mkWorld l (wakeup_channel_ W) (acceptor_ W) (threadpool_ W) (next_conn_id_ W + 1) (started_ W)
    (<[sockfd := c]> (connections_ W)) (<[c := mkObject n sockfd w]> (objects W)) fs k).
Proof.
  intros Hp Hl Hs Hc Hm Hfds Hn0 Hn Hst. apply (steps_one (TcpServer.Accept sockfd c)).
  unfold TcpServer.exec, TcpServer.enabled. cbn [TcpServer.listening_ TcpServer.conns abs_server]. rewrite Hl, lookup_fmap, Hc.
  decide_test (0 <=? sockfd). rewrite (bool_decide_true (abs_object <$> None = None)) by done. rewrite bool_decide_true; cycle 1.
  { intros c' a. rewrite lookup_fmap_Some. intros (o & <- & Ho). by apply (Hfds c' o). }
  cbn [andb TcpServer.perform]. assert (TcpServer.loop_ (abs_server due W) = i) as Hloop by (cbn; by rewrite Hp).
  unfold TcpServer.new_connection, TcpServer.in_loop_thread. rewrite Hloop, (bool_decide_true (i = i)) by done. cstep.
  cbn [TcpServer.threadpool_ abs_server]. rewrite Hp. unfold EventLoopThreadPool.get_next_loop, EventLoopThreadPool.in_base_thread.
  cbn [abs_pool EventLoopThreadPool.base_tid EventLoopThreadPool.started_ EventLoopThreadPool.loops_ EventLoopThreadPool.base_loop_ EventLoopThreadPool.num_threads_ EventLoopThreadPool.next_].
  rewrite Z.eqb_refl. cbn [andb]. cstep. change (TcpServer.next_conn_id_ (abs_server due W)) with (next_conn_id_ W). rewrite sint_checked_range by lia. cstep.
  decide_test (sockfd =? -1). cstep. change (TcpServer.connections_ (abs_server due W)) with (connections_ W). rewrite (bool_decide_true (connections_ W !! sockfd = None)) by done. cstep.
  unfold TcpServer.run_in_loop. rewrite decide_True by done. cbn [TcpServer.run_functor]. unfold TcpServer.deref. cbn [TcpServer.conns].
  rewrite lookup_insert_eq. cstep. cbn [TcpServer.io_loop]. rewrite bool_decide_true by done. cstep.
  unfold TcpServer.established. cbn [TcpServer.state_]. cstep. unfold TcpServer.set_state, TcpServer.with_conns. cbn.
  rewrite bool_decide_true by done. cbn. unfold abs_server. cbn. rewrite insert_insert_eq, fmap_insert. unfold abs_object. cbn. by rewrite Hst.
Qed.

(** The destruction of a closed connection. *)
Lemma steps_destroyed due W c o w : objects W !! c = Some o → state_ (body o) = kDisconnected → state_ w = kDisconnected →
  steps (Destroyed c :: due) W due (put c o w W).
Proof.
  intros Ho Hs Hs'. apply (steps_one (TcpServer.Run i)). unfold TcpServer.exec, TcpServer.enabled. cbn [abs_server TcpServer.pending omap list_omap abs_functor TcpServer.pick].
  cbn. rewrite decide_True by done. cbn. unfold TcpServer.deref. cbn. rewrite lookup_fmap, Ho. cbn [fmap option_fmap option_map]. cstep. cbn [TcpServer.io_loop abs_object].
  rewrite bool_decide_true by done. cstep. unfold TcpServer.destroyed. cbn [TcpServer.state_ abs_object]. rewrite Hs. cbn.
  unfold TcpServer.set_state, TcpServer.with_conns, abs_server. cbn. rewrite fmap_insert. unfold abs_object. cbn. by rewrite Hs'.
Qed.

(** A connection nothing refers to goes away. *)
Lemma steps_release W c o l : objects W !! c = Some o → state_ (body o) = kDisconnected → connections_ W !! sock o ≠ Some c →
  steps [] W [] (with_objects (delete c (objects W)) (with_base l W)).
Proof.
  intros Ho Hs Hm. apply (steps_one (TcpServer.Release c)). unfold TcpServer.exec, TcpServer.enabled. rewrite (abs_lookup _ _ _ _ Ho).
  cbn [TcpServer.connections_ abs_server TcpServer.fd_ abs_object TcpServer.pending omap list_omap]. rewrite (bool_decide_true (connections_ W !! sock o ≠ Some c)) by done.
  rewrite bool_decide_true by done. cbn [andb TcpServer.perform]. unfold TcpServer.release, TcpServer.deref.
  rewrite (abs_lookup _ _ _ _ Ho). cstep. cbn [TcpServer.state_ abs_object]. rewrite bool_decide_true by done. cstep.
  unfold abs_server, TcpServer.with_conns. cbn. by rewrite fmap_delete.
Qed.

(** ** Changes of one connection *)

Lemma destroys_app fs gs : destroys (fs ++ gs) = destroys fs ++ destroys gs.
Proof. apply omap_app. Qed.

Lemma destroys_tasks c ts : destroys (map (Task c) ts) = [].
Proof. by induction ts. Qed.

(** The heap a function of the connection at [c] leaves. *)
Lemma held_heap c fd hp s0 ev n ph told h w : held m tid c fd i (delete c hp) s0 ev n ph told h w →
  ∃ ch, heap (lp w) = <[c := ch]> hp ∧ channel_ok fd i ev h.1 ph w ch.
Proof.
  intros Hh. destruct (h_chan Hh) as (ch & Hc & Hok). exists ch. split; [|done].
  unfold chan in Hc. rewrite (h_addr Hh) in Hc. rewrite <- (insert_delete_eq hp), <- (h_rest Hh), insert_delete_eq.
  by rewrite insert_id.
Qed.

Lemma conn_chan W c o ev h ph : conn_ok W c o ev h ph →
  ∃ ch, heap (base W) !! c = Some ch ∧ channel_ok (sock o) i ev h ph (view o W) ch.
Proof.
  intros [Hh _]. destruct (h_chan Hh) as (ch & Hc & Hok). exists ch. split; [|done].
  unfold chan in Hc. by rewrite (h_addr Hh) in Hc.
Qed.

(** What a change of the loop has to leave of a channel. *)
Definition touched ch ch' : Prop :=
  loop_ ch' = loop_ ch ∧ Reactor.fd_ ch' = Reactor.fd_ ch ∧ index_ ch' = index_ ch ∧ events_ ch' = events_ ch ∧ tied_ ch' = tied_ ch ∧
  (Reactor.close_callback_ ch', error_callback_ ch', read_callback_ ch', write_callback_ ch')
  = (Reactor.close_callback_ ch, error_callback_ ch, read_callback_ ch, write_callback_ ch).

Lemma conn_loop W W' c o ev h ph ch ch' : conn_ok W c o ev h ph → inv (base W') → id (base W') = i → tid_ (base W') = tid →
  heap (base W) !! c = Some ch → heap (base W') !! c = Some ch' → touched ch ch' →
  conn_ok W' c o (revents_ ch') (event_handling_ ch') ph.
Proof.
  intros [Hh Hci] Hi Hid Htid Hc Hc' (El & Ef & Ei & Ee & _ & Ecb). split; cycle 1.
  { apply (sound_lp kwrite kreadv conn_cb tid J (base W') ch ch' (view o W)); try done; unfold chan; cbn;
      change (channel_ (body o)) with (channel_ (view o W)); by rewrite (h_addr Hh). }
  destruct (h_chan Hh) as (ch0 & Hc0 & H1 & H2 & H3 & H4 & H5). unfold chan in Hc0. rewrite (h_addr Hh) in Hc0.
  assert (ch0 = ch) as -> by (cbn in Hc0; congruence).
  pose proof Hh as [_ _ _ _ _ _ Ha Hin Hout Hm Hq Ht]. split; cbn in *; try done.
  exists ch'. split; [unfold chan; cbn; by rewrite Ha|]. unfold channel_ok, dispatch_fields in *. injection H3 as _ E1 E2 E3 E4.
  rewrite E1, E2, E3, E4 in Ecb. rewrite Ecb, El, Ef, Ei, Ee. done.
Qed.

Lemma conn_frame W W' c o ev h ph : conn_ok W c o ev h ph → inv (base W') → id (base W') = i → tid_ (base W') = tid →
  heap (base W') !! c = heap (base W) !! c → conn_ok W' c o ev h ph.
Proof.
  intros Hc Hi Hid Htid Hh. destruct (conn_chan _ _ _ _ _ _ Hc) as (ch & Hch & _ & _ & Hf & Hhd & _).
  injection Hf as <- _ _ _ _. rewrite <- Hhd. eapply conn_loop; [exact Hc | done..| by rewrite Hh | done].
Qed.

Lemma conn_put c o s0 ev ph h e w W' : held m tid c (sock o) i (delete c (heap (base W'))) s0 ev 0 ph (told_of conn_cb ph) (h, e) w →
  sound J w → base W' = lp w → conn_ok W' c (mkObject (serial o) (sock o) w) ev h ph.
Proof.
  intros Hh Hci Hb. split; [|by apply (sound_frame kwrite kreadv conn_cb tid J w)]. apply held_now in Hh.
  pose proof Hh as [Hi Hid Hrest (ch & Hc & Hok) Hg Ht Ha Hin Hout Hm Hq Hcl Hgr].
  split; cbn; rewrite ?Hb; try done. exists ch. split; [|done]. unfold chan in *. cbn. by rewrite ?Hb.
Qed.

(** The channel of the object. *)
Lemma object_chan e cur run due W c o : winv e cur run due W → objects W !! c = Some o →
  ∃ ch, heap (base W) !! c = Some ch ∧ Reactor.fd_ ch = sock o.
Proof.
  intros Hw Ho. destruct (w_conn _ _ _ _ _ Hw c o Ho) as (ev & Hc).
  destruct (conn_chan _ _ _ _ _ _ Hc) as (ch & Hch & _ & Hf & _). eauto.
Qed.

(** No two connections have the same descriptor. *)
Lemma sock_unique e cur run due W c c' o o' : winv e cur run due W → objects W !! c = Some o → objects W !! c' = Some o' →
  sock o' = sock o → c' = c.
Proof.
  intros Hw Ho Ho' Heq. destruct (object_chan _ _ _ _ _ _ _ Hw Ho) as (ch & Hch & Hf), (object_chan _ _ _ _ _ _ _ Hw Ho') as (ch' & Hch' & Hf').
  apply (w_fds _ _ _ _ _ Hw c' c ch' ch); congruence.
Qed.

(** The map when a connection changes its phase. *)
Lemma update_map e cur run due run' due' c o o' ph' W : winv e cur run due W → objects W !! c = Some o → sock o' = sock o →
  phase_of run' due' c = ph' → (ph' = Live → phase_of run due c = Live) →
  (∀ c', c' ≠ c → phase_of run' due' c' = phase_of run due c') →
  ∀ fd c', (if decide (ph' = Live) then connections_ W else delete (sock o) (connections_ W)) !! fd = Some c' ↔
    ∃ o1, <[c := o']> (objects W) !! c' = Some o1 ∧ sock o1 = fd ∧ phase_of run' due' c' = Live.
Proof.
  intros Hw Ho Hs Hph Hlive Hother fd c'. destruct (decide (c' = c)) as [->|Hne].
  - rewrite lookup_insert_eq, Hph. destruct (decide (ph' = Live)) as [Hlv|Hlv].
    + rewrite (w_map _ _ _ _ _ Hw). split; [intros (o1 & Ho1 & <- & _) | intros (o1 & [= <-] & <- & _)].
      * assert (o1 = o) as -> by congruence. by eexists.
      * exists o. auto.
    + split; [|by intros (_ & _ & _ & ?)]. rewrite lookup_delete_Some, (w_map _ _ _ _ _ Hw).
      intros [Hne (o1 & Ho1 & <- & _)]. assert (o1 = o) as -> by congruence. done.
  - rewrite lookup_insert_ne, Hother by done. destruct (decide (ph' = Live)) as [Hlv|Hlv]; [apply Hw|].
    rewrite lookup_delete_Some, (w_map _ _ _ _ _ Hw). split; [by intros [_ ?]|].
    intros (o1 & Ho1 & <- & Hp). split; [|by exists o1]. intros Heq. apply Hne. symmetry in Heq. by apply (sock_unique _ _ _ _ _ c c' o o1 Hw).
Qed.

(** A function of the connection at [c] leaves [w] and the phase [ph']. *)
Lemma winv_update e cur run due run' due' c o ev ph' w W conns fs :
  winv e cur run due W → objects W !! c = Some o →
  held m tid c (sock o) i (delete c (heap (base W))) (state_ (body o)) ev 0 ph' (told_of conn_cb ph') (bool_decide (cur = Some c), e) w → sound J w →
  conns = (if decide (ph' = Live) then connections_ W else delete (sock o) (connections_ W)) →
  phase_of run' due' c = ph' → (ph' = Live → phase_of run due c = Live) →
  (∀ c', c' ≠ c → phase_of run' due' c' = phase_of run due c') → NoDup (destroys (run' ++ due')) →
  winv e cur run' due' (with_pending fs (with_connections conns (put c o w W))).
Proof.
  intros Hw Ho Hh Hci Hconns Hph Hlive Hother Hnd. destruct (held_heap _ _ _ _ _ _ _ _ _ _ Hh) as (ch & Hheap & Hl & Hf & _).
  destruct (w_conn _ _ _ _ _ Hw c o Ho) as (ev0 & Hc0). destruct (conn_chan _ _ _ _ _ _ Hc0) as (ch0 & Hch0 & _ & Hf0 & _).
  assert (∀ q, q = wake ∨ q = pa → q ≠ c) as Hside.
  { intros q Hq ->. destruct (w_side _ _ _ _ _ Hw c Hq) as [Hn _]. congruence. }
  split; cbn; try apply Hw; try done.
  - apply Hh.
  - apply Hh.
  - apply Hh.
  - apply (h_flag Hh).
  - rewrite Hheap, !dom_insert_L. pose proof (w_dom _ _ _ _ _ Hw). pose proof (elem_of_dom_2 _ _ _ Ho). set_solver.
  - intros q Hq. destruct (w_side _ _ _ _ _ Hw q Hq) as [Hn (d & Hd & Hok)]. rewrite Hheap.
    rewrite !lookup_insert_ne by (symmetry; by apply Hside). split; [done|]. by exists d.
  - intros c' o'. destruct (decide (c' = c)) as [->|Hne].
    + rewrite lookup_insert_eq. intros [= <-]. exists ev. rewrite Hph. eapply conn_put; [|done..].
      cbn. rewrite Hheap, delete_insert_eq. exact Hh.
    + rewrite lookup_insert_ne by done. intros Ho'. destruct (w_conn _ _ _ _ _ Hw c' o' Ho') as (ev' & Hc').
      exists ev'. rewrite Hother by done.
      eapply conn_frame; [exact Hc' | apply Hh | apply Hh | apply Hh | cbn; by rewrite Hheap, lookup_insert_ne].
  - intros fd c'. rewrite Hconns. by apply (update_map e cur run due run' due' c o _ ph' W).
  - intros p q d d' Hp Hq Hfd.
    assert (∀ r d, heap (lp w) !! r = Some d → ∃ d0, heap (base W) !! r = Some d0 ∧ Reactor.fd_ d0 = Reactor.fd_ d) as Hold.
    { intros r d1. rewrite Hheap. destruct (decide (r = c)) as [->|Hne]; [rewrite lookup_insert_eq | rewrite lookup_insert_ne by done; by eauto].
      intros [= <-]. exists ch0. split; [done | congruence]. }
    destruct (Hold _ _ Hp) as (d0 & Hp0 & E0), (Hold _ _ Hq) as (d1 & Hq1 & E1).
    apply (w_fds _ _ _ _ _ Hw p q d0 d1); congruence.
Qed.

(** A change of the loop. *)
Lemma winv_base e e' cur cur' run due l' W : winv e cur run due W → inv l' → id l' = i → tid_ l' = tid → event_handing_ l' = e' →
  dom (heap l') = dom (heap (base W)) →
  (∀ q ch, heap (base W) !! q = Some ch → ∃ ch', heap l' !! q = Some ch' ∧ touched ch ch' ∧ event_handling_ ch' = bool_decide (cur' = Some q)) →
  winv e' cur' run due (with_base l' W).
Proof.
  intros Hw Hi Hid Htid He Hdom Htouch. split; cbn; try apply Hw; try done.
  - rewrite Hdom. apply Hw.
  - intros q Hq. destruct (w_side _ _ _ _ _ Hw q Hq) as [Hn (ch & Hch & Hl & Hx & _ & Hr & Hfd & Hevs & Hti)]. split; [done|].
    destruct (Htouch q ch Hch) as (ch' & Hch' & (El & Ef & Ei & Ee & Et & Ecb) & Hhd). exists ch'. split; [done|].
    unfold side_ok, reads_only in *. rewrite Ecb. split_and!; congruence.
  - intros c o Ho. destruct (w_conn _ _ _ _ _ Hw c o Ho) as (ev & Hc). destruct (conn_chan _ _ _ _ _ _ Hc) as (ch & Hch & _).
    destruct (Htouch c ch Hch) as (ch' & Hch' & Ht & Hhd). exists (revents_ ch'). rewrite <- Hhd.
    by eapply conn_loop.
  - intros p q d d' Hp Hq Hfd.
    assert (∀ r d, heap l' !! r = Some d → ∃ d0, heap (base W) !! r = Some d0 ∧ Reactor.fd_ d0 = Reactor.fd_ d) as Hold.
    { intros r d1 Hr. destruct (heap (base W) !! r) as [d0|] eqn:E.
      - destruct (Htouch r d0 E) as (d2 & Hd2 & (_ & Hf & _) & _). exists d0. split; [done|]. congruence.
      - apply not_elem_of_dom in E. rewrite <- Hdom in E. by apply elem_of_dom_2 in Hr. }
    destruct (Hold _ _ Hp) as (d0 & Hp0 & E0), (Hold _ _ Hq) as (d1 & Hq1 & E1).
    apply (w_fds _ _ _ _ _ Hw p q d0 d1); congruence.
Qed.

(** ** While events are handled *)

Definition queued W (f : functor) : Prop :=
  match f with
  | Task c t => own_task t ∧ is_Some (objects W !! c)
  | Destroyed c => is_Some (objects W !! c)
  | _ => False
  end.

Definition serving cur W : Prop :=
  winv true cur [] (pending_functors_ W) W ∧ Forall (queued W) (pending_functors_ W).

(** The same channels and connections, but for those at [q]. *)
Definition same_but q W W' : Prop := ∀ r, r ≠ q → r ∈ dom (heap (base W)) →
  heap (base W') !! r = heap (base W) !! r ∧ objects W' !! r = objects W !! r.

(** Only the channel and the connection at [q] change, the server of the file TcpServer can
    follow, and no other connection is closed. *)
Record keeps q W W' : Prop := {
  k_same : same_but q W W';
  k_steps : steps (pending_functors_ W) W (pending_functors_ W') W';
  k_close : ∀ c, c ≠ q → c ∈ destroys (pending_functors_ W') ↔ c ∈ destroys (pending_functors_ W)
}.

Lemma keeps_refl q W : keeps q W W.
Proof. split; [done | apply steps_refl | done]. Qed.

Lemma keeps_trans q W1 W2 W3 : keeps q W1 W2 → keeps q W2 W3 → keeps q W1 W3.
Proof.
  intros [H1 S1 C1] [H2 S2 C2]. split; [|by eapply steps_trans|intros c Hc; by rewrite C2, C1].
  intros r Hr Hd. destruct (H1 r Hr Hd) as [E1 E2].
  destruct (H2 r Hr) as [E3 E4]; [by rewrite elem_of_dom, E1, <- elem_of_dom|]. by rewrite E3, E4.
Qed.

(** The connections there are, with their descriptors. *)
Definition socks W : gmap nat Z := sock <$> objects W.

Lemma socks_put c o w W : objects W !! c = Some o → socks (put c o w W) = socks W.
Proof. intros Ho. unfold socks. cbn. rewrite fmap_insert. apply insert_id. by rewrite lookup_fmap, Ho. Qed.

Lemma socks_is_Some W c : is_Some (socks W !! c) ↔ is_Some (objects W !! c).
Proof. unfold socks. by rewrite lookup_fmap, fmap_is_Some. Qed.

Lemma destroys_quiet fs c ts : destroys (fs ++ map (Task c) ts) = destroys fs.
Proof. by rewrite destroys_app, destroys_tasks, app_nil_r. Qed.

Lemma queued_mono W W' fs : (∀ c, is_Some (objects W !! c) → is_Some (objects W' !! c)) →
  Forall (queued W) fs → Forall (queued W') fs.
Proof.
  intros Ho Hf. eapply Forall_impl; [exact Hf|]. intros f. unfold queued. destruct f; try done; [|by apply Ho].
  intros [? ?]. split; [done | by apply Ho].
Qed.

Lemma phase_quiet run due gs c : destroys gs = [] → phase_of run (due ++ gs) c = phase_of run due c.
Proof. intros Hg. unfold phase_of. by rewrite destroys_app, Hg, app_nil_r. Qed.

Lemma phase_closed due c : phase_of [] (due ++ [Destroyed c]) c = Closed.
Proof. unfold phase_of. rewrite destroys_app. cbn. by rewrite decide_False, decide_True by set_solver. Qed.

Lemma phase_other run due c c' : c' ≠ c → phase_of run (due ++ [Destroyed c]) c' = phase_of run due c'.
Proof.
  intros Hne. unfold phase_of. rewrite destroys_app. cbn.
  repeat case_decide; try done; rewrite elem_of_app, list_elem_of_singleton in *; naive_solver.
Qed.

Lemma phase_live run due c : phase_of run due c = Live ↔ c ∉ destroys run ∧ c ∉ destroys due.
Proof. unfold phase_of. repeat case_decide; (split; [try done | by try intros [? ?]]). Qed.

Lemma unmapped e cur run due W c o : winv e cur run due W → objects W !! c = Some o → phase_of run due c ≠ Live →
  connections_ W !! sock o = None.
Proof.
  intros Hw Ho Hp. destruct (connections_ W !! sock o) as [c'|] eqn:E; [|done].
  apply (w_map _ _ _ _ _ Hw) in E as (o' & Ho' & Hs & Hl).
  assert (c' = c) as -> by (by apply (sock_unique _ _ _ _ _ c c' o o' Hw)). done.
Qed.

(** A function that keeps the phase closes nothing. *)
Lemma held_stays W c o ev0 ev h h' ph told w rest :
  conn_ok W c o ev0 h' ph → held m tid c (sock o) i rest (state_ (body o)) ev 0 ph told h w →
  state_ w = kDisconnected → state_ (body o) = kDisconnected.
Proof.
  intros Hc Hh Hs. destruct (conn_chan _ _ _ _ _ _ Hc) as (ch & _ & Hok). destruct (decide (ph = Live)) as [->|Hn].
  - destruct (held_up _ _ _ _ _ _ _ _ _ _ _ _ Hh); congruence.
  - by destruct (channel_down _ _ _ _ _ _ _ Hok Hn).
Qed.

Lemma told_live ph : told_of conn_cb ph = negb (bool_decide (ph = Live)).
Proof. by destruct ph. Qed.

(** The functors and the connection a call of the connection at [c] leaves. *)
Lemma put_queued W c o w gs : Forall (queued W) (pending_functors_ W) → Forall own_task (queue w) →
  Forall (queued (put c o w W)) gs → Forall (queued (put c o w W)) ((pending_functors_ W ++ map (Task c) (queue w)) ++ gs).
Proof.
  intros Hq Ht Hgs. apply Forall_app_2; [|done]. apply Forall_app_2.
  - eapply queued_mono; [|exact Hq]. intros c' Hc'. cbn. by rewrite lookup_insert_is_Some'; right.
  - apply Forall_map. eapply Forall_impl; [exact Ht|]. intros t Hown. split; [done|]. cbn. by rewrite lookup_insert_eq.
Qed.

Lemma put_left W W' c o s0 ev ph h w :
  held m tid c (sock o) i (delete c (heap (base W))) s0 ev 0 ph (told_of conn_cb ph) (h, true) w → sound J w →
  base W' = lp w → objects W' = objects (put c o w W) →
  same_but c W W' ∧ ∃ o', objects W' !! c = Some o' ∧ conn_ok W' c o' ev h ph.
Proof.
  intros Hh Hci Hb Hos. destruct (held_heap _ _ _ _ _ _ _ _ _ _ Hh) as (ch & Hheap & _). split.
  - intros r Hr _. rewrite Hb, Hos, Hheap. cbn. by rewrite !lookup_insert_ne.
  - rewrite Hos. cbn. rewrite lookup_insert_eq. eexists. split; [done|].
    eapply conn_put; [|done..]. rewrite Hb, Hheap, delete_insert_eq. exact Hh.
Qed.

(** A call that does not close the connection. *)
Lemma member_stays cur c W o ev w : serving cur W → objects W !! c = Some o →
  held m tid c (sock o) i (delete c (heap (base W))) (state_ (body o)) ev 0 (phase_of [] (pending_functors_ W) c)
    (told_of conn_cb (phase_of [] (pending_functors_ W) c)) (bool_decide (cur = Some c), true) w → sound J w →
  serving cur (put c o w W) ∧ keeps c W (put c o w W).
Proof.
  intros [Hw Hq] Ho Hh Hci. set (W1 := put c o w W). set (ph := phase_of [] (pending_functors_ W) c) in *.
  assert (∀ c', phase_of [] (pending_functors_ W1) c' = phase_of [] (pending_functors_ W) c') as Hp1
    by (intros c'; apply phase_quiet, destroys_tasks).
  destruct (w_conn _ _ _ _ _ Hw c o Ho) as (ev0 & Hc). split; [split|split].
  - apply (winv_update true cur [] (pending_functors_ W) [] (pending_functors_ W1) c o ev ph w W (connections_ W) (pending_functors_ W1)); try done.
    + destruct (decide (ph = Live)); [done|]. symmetry. apply delete_id. by eapply unmapped.
    + pose proof (w_nodup _ _ _ _ _ Hw). cbn in *. by rewrite destroys_quiet.
  - rewrite <- (app_nil_r (pending_functors_ W1)). apply put_queued; [done | exact (h_queue Hh) | constructor].
  - by eapply put_left.
  - apply (steps_put _ W c o w (pending_functors_ W1)); [done | exact (h_state Hh) | by eapply held_stays|].
    cbn. by rewrite omap_app, abs_tasks, app_nil_r.
  - intros c' _. cbn. by rewrite destroys_quiet.
Qed.

(** What [remove_connection] leaves after a call that closes the connection. *)
Definition removed c o w W : world K :=
  queue_in_loop (Destroyed c) (with_connections (delete (sock o) (connections_ W)) (put c o w W)).

Lemma remove_put c o w W : objects W !! c = Some o → tid_ (lp w) = tid → connections_ W !! sock o = Some c →
  remove_connection c (put c o w W) = Ok (removed c o w W).
Proof.
  intros Ho Ht Hm. unfold remove_connection, remove_connection_in_loop, in_base_thread, is_in_loop_thread. cbn [base put].
  rewrite Ht, Z.eqb_refl. cstep. unfold object_at. cbn [objects put]. rewrite lookup_insert_eq. cstep.
  cbn [sock connections_ put]. by rewrite (bool_decide_true (connections_ W !! sock o = Some c)).
Qed.

Lemma member_closes cur c W o ev w : serving cur W → objects W !! c = Some o → phase_of [] (pending_functors_ W) c = Live →
  held m tid c (sock o) i (delete c (heap (base W))) (state_ (body o)) ev 0 Closed (told_of conn_cb Closed)
    (bool_decide (cur = Some c), true) w → sound J w →
  serving cur (removed c o w W) ∧ keeps c W (removed c o w W).
Proof.
  intros [Hw Hq] Ho Hlv Hh Hci. set (W2 := removed c o w W). destruct (w_conn _ _ _ _ _ Hw c o Ho) as (ev0 & [Hc0 _]).
  rewrite Hlv in Hc0. pose proof Hlv as [_ Hnd]%phase_live. split; [split|split].
  - apply (winv_update true cur [] (pending_functors_ W) [] (pending_functors_ W2) c o ev Closed w W (delete (sock o) (connections_ W)) (pending_functors_ W2)); try done.
    + apply phase_closed.
    + intros c' Hne. cbn. rewrite phase_other by done. apply phase_quiet, destroys_tasks.
    + cbn. rewrite destroys_app, destroys_quiet. cbn. apply NoDup_app. split_and!; [apply (w_nodup _ _ _ _ _ Hw) | set_solver | apply NoDup_singleton].
  - apply (put_queued W c o w [Destroyed c]); [done | exact (h_queue Hh)|]. apply Forall_singleton. cbn. by rewrite lookup_insert_eq.
  - by eapply put_left.
  - apply (steps_close _ W c o w (pending_functors_ W2)); try done.
    + apply Hw.
    + apply (w_map _ _ _ _ _ Hw). eauto.
    + apply (held_up _ _ _ _ _ _ _ _ _ _ _ _ Hc0).
    + destruct (h_chan Hh) as (d & _ & Hok). by destruct (channel_down _ _ _ _ _ _ _ Hok).
    + cbn. by rewrite !omap_app, abs_tasks, app_nil_r.
  - intros c' Hne. cbn. rewrite destroys_app, destroys_quiet. cbn. set_solver.
Qed.

Lemma member_event cur c f W o ev (R : phase → Prop) :
  serving cur W → objects W !! c = Some o →
  (∀ ph, R ph → ph = phase_of [] (pending_functors_ W) c ∨ (phase_of [] (pending_functors_ W) c = Live ∧ ph = Closed)) →
  safe (λ w, ∃ ph, R ph ∧ held m tid c (sock o) i (delete c (heap (base W))) (state_ (body o)) ev 0 ph (told_of conn_cb ph) (bool_decide (cur = Some c), true) w)
    (f (serial o) (view o W)) →
  (∀ w, f (serial o) (view o W) = Ok w → sound J w) →
  safe (λ W', serving cur W' ∧ keeps c W W' ∧ (accepts W' = accepts W ∧ socks W' = socks W) ∧
          ∃ o', objects W' !! c = Some o' ∧ R (phase_of [] (pending_functors_ W') c) ∧
                conn_ok W' c o' ev (bool_decide (cur = Some c)) (phase_of [] (pending_functors_ W') c)) (member c f W).
Proof.
  intros Hs Ho HR Hf Hci. unfold member, object_at. rewrite Ho. cstep.
  eapply safe_bind; [exact Hf|]. intros w Hfw (ph & Hph & Hh). specialize (Hci w Hfw).
  destruct (w_conn _ _ _ _ _ (proj1 Hs) c o Ho) as (ev0 & [Hc0 _]).
  assert (closed (body o) = told_of conn_cb (phase_of [] (pending_functors_ W) c)) as Hcl by exact (h_told Hc0).
  rewrite (h_told Hh), Hcl, !told_live. destruct (HR ph Hph) as [->|[Hlv ->]].
  - rewrite andb_negb_r. destruct (member_stays _ _ _ _ _ _ Hs Ho Hh Hci) as [H1 H2].
    split; [exact H1|]. split; [exact H2|]. split; [split; [done | by apply socks_put]|].
    change (pending_functors_ (put c o w W)) with (pending_functors_ W ++ map (Task c) (queue w)).
    rewrite (phase_quiet [] _ _ c (destroys_tasks c (queue w))).
    destruct (put_left W (put c o w W) c o _ _ _ _ _ Hh Hci eq_refl eq_refl) as [_ (o' & Ho' & Hok)]. by exists o'.
  - rewrite Hlv. replace (negb (bool_decide (Closed = Live)) && negb (negb (bool_decide (Live = Live)))) with true by done.
    assert (connections_ W !! sock o = Some c) as Hm by (apply (w_map _ _ _ _ _ (proj1 Hs)); eauto).
    rewrite (remove_put c o w W Ho (h_tid Hh) Hm). destruct (member_closes _ _ _ _ _ _ Hs Ho Hlv Hh Hci) as [H1 H2].
    split; [exact H1|]. split; [exact H2|]. split; [split; [done | exact (socks_put c o w W Ho)]|].
    replace (phase_of [] (pending_functors_ (removed c o w W)) c) with Closed by (symmetry; apply phase_closed).
    destruct (put_left W (removed c o w W) c o _ _ _ _ _ Hh Hci eq_refl eq_refl) as [_ (o' & Ho' & Hok)]. by exists o'.
Qed.

(** ** The event of a connection *)

(** While the channel of the connection at [q] is handled, for the events [ev], since [W0]. *)
Definition handling_at q ev W0 W : Prop :=
  serving (Some q) W ∧ keeps q W0 W ∧ (accepts W = accepts W0 ∧ socks W = socks W0) ∧
  ∃ o, objects W !! q = Some o ∧ conn_ok W q o ev true (phase_of [] (pending_functors_ W) q).

Lemma object_not_side e cur run due W q o : winv e cur run due W → objects W !! q = Some o → q ≠ wake ∧ q ≠ pa.
Proof.
  intros Hw Ho. split; intros ->; [destruct (w_side _ _ _ _ _ Hw wake) as [? _] | destruct (w_side _ _ _ _ _ Hw pa) as [? _]];
    auto; congruence.
Qed.

Lemma phase_event due c : phase_of [] due c ≠ Removed.
Proof. unfold phase_of. rewrite decide_False by (by apply not_elem_of_nil). by case_decide. Qed.

(** The phases after a callback. *)
Definition reach (k : callback) (ph ph' : phase) : Prop :=
  match k with CbClose => ph' = Closed | CbRead => ph' ≠ Removed | CbError | CbWrite => ph' = ph end.

Lemma sound_callback c fd rest s0 ev ph told h n k w w' : held m tid c fd i rest s0 ev 0 ph told h w → sound J w →
  LoopTurn.run_callback (kwrite n) (kreadv n) conn_cb tid k w = Ok w' → sound J w'.
Proof.
  intros Hh Hs Hx. eapply (sound_event kwrite kreadv conn_cb tid J kwrite_ok _ _ _ _ _ _ _ _ _ _ n
    (match k with CbClose => HangUp | CbError => SocketError | CbRead => Readable | CbWrite => Writable end) w w' Hh Hs); by destruct k.
Qed.

Lemma conn_callback q k ev W0 W : handling_at q ev W0 W →
  (k = CbClose ∨ k = CbRead → phase_of [] (pending_functors_ W) q = Live) →
  safe (λ W', handling_at q ev W0 W' ∧ reach k (phase_of [] (pending_functors_ W) q) (phase_of [] (pending_functors_ W') q))
    (run_callback q k W).
Proof.
  intros ([Hw Hq] & Hk & Ha & o & Ho & Hc) Hlive. destruct (object_not_side _ _ _ _ _ _ _ Hw Ho) as [Hn1 Hn2].
  unfold run_callback. rewrite decide_False by (by rewrite (w_wake _ _ _ _ _ Hw)).
  rewrite decide_False by (destruct (w_acc _ _ _ _ _ Hw) as [-> _]; done).
  set (ph := phase_of [] (pending_functors_ W) q) in *.
  eapply safe_mono; [apply (member_event (Some q) q _ W o ev (reach k ph) (conj Hw Hq) Ho)|].
  - intros ph' Hr. fold ph. destruct k; cbn in Hr; [right; split; [by apply Hlive; left | done] | by left | | by left].
    rewrite (Hlive (or_intror eq_refl)). destruct ph'; [by left | by right | done].
  - destruct Hc as [Hh _]. rewrite (w_flag _ _ _ _ _ Hw) in Hh. rewrite bool_decide_true by done.
    destruct k; cbn [LoopTurn.run_callback].
    + rewrite (Hlive (or_introl eq_refl)) in Hh. eapply safe_mono; [by eapply (handle_close_held _ conn_cb (kwrite_ok _))|].
      intros w _ H1. by exists Closed.
    + by exists ph.
    + rewrite (Hlive (or_intror eq_refl)) in Hh.
      eapply safe_mono; [by eapply (handle_read_held _ _ conn_cb (kwrite_ok _) (kreadv_ok _))|].
      intros w _ (ph' & Hn & H1). by exists ph'.
    + eapply safe_mono; [by eapply (handle_write_held _ conn_cb (kwrite_ok _))|]. intros w _ H1. by exists ph.
  - intros w Hx. destruct Hc as [Hh Hc]. by eapply sound_callback.
  - intros W' _ (Hs & Hk' & [Ha' Hs'] & o' & Ho' & Hr & Hc'). rewrite bool_decide_true in Hc' by done. destruct Ha as [Ha Hs0].
    split; [|exact Hr]. split; [done|]. split; [by eapply keeps_trans|]. split; [split; congruence|]. by exists o'.
Qed.

Lemma w_handling e cur run due W q ch : winv e cur run due W → heap (base W) !! q = Some ch →
  event_handling_ ch = bool_decide (cur = Some q).
Proof.
  intros Hw Hq. assert (q ∈ dom (heap (base W))) as Hd by (by eapply elem_of_dom_2). rewrite (w_dom _ _ _ _ _ Hw) in Hd.
  destruct (objects W !! q) as [o|] eqn:Ho.
  - destruct (w_conn _ _ _ _ _ Hw q o Ho) as (ev & Hc).
    destruct (conn_chan _ _ _ _ _ _ Hc) as (ch' & Hch' & _ & _ & _ & Hh & _). congruence.
  - apply not_elem_of_dom in Ho. destruct (w_side _ _ _ _ _ Hw q) as [_ (ch' & Hch' & _ & _ & Hh & _)]; [set_solver | congruence].
Qed.

(** The flag [event_handling_] of a channel; the other channels are not being handled. *)
Lemma handling_serving q (b : bool) cur W : serving cur W → cur = None ∨ cur = Some q → is_Some (heap (base W) !! q) →
  serving (if b then Some q else None) (handling q b W) ∧ keeps q W (handling q b W).
Proof.
  intros [Hw Hq] Hcur [cq Hcq]. split; [split; [|done]|].
  - unfold handling. rewrite (modify_eq _ _ _ cq Hcq).
    apply (winv_base true true cur (if b then Some q else None) [] (pending_functors_ W) _ W Hw); cbn; try apply Hw.
    + eapply inv_touch; [apply Hw | done..].
    + rewrite dom_insert_L. apply elem_of_dom_2 in Hcq. set_solver.
    + intros r ch Hr. destruct (decide (r = q)) as [->|Hne].
      * rewrite lookup_insert_eq. assert (ch = cq) as -> by congruence. eexists. split; [done|]. split; [done|].
        cbn. destruct b; [by rewrite bool_decide_true | by rewrite bool_decide_false].
      * rewrite lookup_insert_ne by done. exists ch. split; [done|]. split; [done|].
        rewrite (w_handling _ _ _ _ _ _ _ Hw Hr). destruct Hcur as [->| ->], b; rewrite !bool_decide_false; congruence.
  - split; [|by apply steps_same|done]. intros r Hr _. split; [|done]. unfold handling, modify. cbn. by rewrite lookup_alter_ne.
Qed.

Lemma conn_live W c o ev ev' h h' ph : conn_ok W c o ev h Live → conn_ok W c o ev' h' ph → ph = Live.
Proof.
  intros [Hh _] Hc. destruct (conn_chan _ _ _ _ _ _ Hc) as (ch & _ & Hok). destruct (decide (ph = Live)) as [|Hn]; [done|].
  destruct (channel_down _ _ _ _ _ _ _ Hok Hn) as [Hs _]. destruct (held_up _ _ _ _ _ _ _ _ _ _ _ _ Hh); congruence.
Qed.

(** What waits to be handled: the loop's own channels, and connections that are being served. *)
Definition ready W q : Prop :=
  q = wake ∨ q = pa ∨ ∃ o ev, objects W !! q = Some o ∧ hangup_ok ev ∧ conn_ok W q o ev false Live.

Lemma ready_keeps cur r q W W' : serving cur W' → keeps r W W' → q ≠ r → ready W q → ready W' q.
Proof.
  intros [Hw _] Hk Hne [?|[?|(o & ev & Ho & Hev & Hc)]]; [by left | by right; left | right; right].
  destruct (conn_chan _ _ _ _ _ _ Hc) as (ch & Hch & _).
  destruct (k_same _ _ _ Hk q Hne) as [Hh Hos]; [by eapply elem_of_dom_2|]. exists o, ev. split; [congruence|]. split; [done|].
  eapply conn_frame; [exact Hc | apply Hw | apply Hw | apply Hw | done].
Qed.

(** A hang-up was seen to. *)
Definition seen q ev W : Prop := hung ev = true → phase_of [] (pending_functors_ W) q ≠ Live.

Lemma seen_closed q ev W : seen q ev W → hung ev = true → q ∈ destroys (pending_functors_ W).
Proof.
  intros Hs Hev. destruct (decide (q ∈ destroys (pending_functors_ W))) as [|Hn]; [done|]. destruct (Hs Hev).
  apply phase_live. split; [apply not_elem_of_nil | done].
Qed.

Lemma guarded_conn q ev o ch W : serving None W → objects W !! q = Some o → hangup_ok ev → conn_ok W q o ev false Live →
  heap (base W) !! q = Some ch → revents_ ch = ev →
  safe (λ W', ∃ v, (handling_at q ev W v ∧ seen q ev v) ∧ W' = handling q false v)
    (handle_event_with_guard (look q) (handling q) (run_callback q) W).
Proof.
  intros Hs Ho Hev Hc Hch Hrev.
  assert (phase_of [] (pending_functors_ W) q = Live) as Hlv.
  { destruct (w_conn _ _ _ _ _ (proj1 Hs) q o Ho) as (ev' & Hc'). by eapply conn_live. }
  apply (guarded_safe (look q) (handling q) (run_callback q) (λ v, handling_at q ev W v ∧ seen q ev v)
    (λ v, handling_at q ev W v ∧ phase_of [] (pending_functors_ v) q = Live) ev); try done.
  - intros v Hv. assert (handling_at q ev W v) as (_ & _ & _ & o' & _ & Hc') by (destruct Hv as [[? _]|[? _]]; done).
    destruct (conn_chan _ _ _ _ _ _ Hc') as (ch' & Hch' & _ & _ & Hf' & _). unfold look. by rewrite Hch'.
  - intros v [Hv _] Hn. split; [done|]. unfold seen. by rewrite Hn.
  - intros v [Hv Hl]. eapply safe_mono; [by apply (conn_callback q CbClose ev W)|]. intros v' _ [? Hr]. split; [done|].
    intros _. cbn in Hr. by rewrite Hr.
  - intros v [Hv Hsn]. eapply safe_mono; [apply (conn_callback q CbError ev W v Hv); by intros [?|?]|].
    intros v' _ [? Hr]. split; [done|]. cbn in Hr. unfold seen. by rewrite Hr.
  - intros v [Hv Hl]. eapply safe_mono; [apply (conn_callback q CbError ev W v Hv); by intros [?|?]|].
    intros v' _ [? Hr]. cbn in Hr. by rewrite Hr.
  - intros v [Hv Hl] Hn. eapply safe_mono; [by apply (conn_callback q CbRead ev W)|]. intros v' _ [? _]. split; [done|].
    unfold seen. by rewrite Hn.
  - intros v [Hv Hsn]. eapply safe_mono; [apply (conn_callback q CbWrite ev W v Hv); by intros [?|?]|].
    intros v' _ [? Hr]. split; [done|]. cbn in Hr. unfold seen. by rewrite Hr.
  - destruct (handling_serving q true None W Hs) as [Hs' Hk]; [by left | by rewrite Hch|].
    split; [|done]. split; [done|]. split; [exact Hk|]. split; [done|]. exists o. split; [done|].
    change (phase_of [] _ q) with (phase_of [] (pending_functors_ W) q). rewrite Hlv.
    pose proof (conn_loop W (handling q true W) q o ev false Live ch (LoopTurn.set_handling true ch) Hc) as Hx.
    cbn in Hx. rewrite Hrev in Hx. apply Hx; try done; try apply (proj1 Hs').
    unfold modify. cbn. by rewrite lookup_alter_eq, Hch.
Qed.

Lemma event_conn q ev o W : serving None W → objects W !! q = Some o → hangup_ok ev → conn_ok W q o ev false Live →
  safe (λ W', serving None W' ∧ keeps q W W' ∧ (accepts W' = accepts W ∧ socks W' = socks W) ∧
          (hung ev = true → q ∈ destroys (pending_functors_ W'))) (channel_event q W).
Proof.
  intros Hs Ho Hev Hc. destruct (conn_chan _ _ _ _ _ _ Hc) as (ch & Hch & _ & _ & Hf & _). injection Hf as Hrev _ _ _ _.
  unfold channel_event. rewrite (deref_ok _ _ ch Hch). cstep. pose proof (guarded_conn q ev o ch W Hs Ho Hev Hc Hch Hrev) as Hg.
  unfold handle_event, alive. rewrite bool_decide_true by (by rewrite Ho).
  destruct (tied_ _); (eapply safe_mono; [exact Hg|]).
  all: intros W' _ (v & [(Hs' & Hk & Ha & o' & Ho' & Hc') Hsn] & ->); destruct (conn_chan _ _ _ _ _ _ Hc') as (ch' & Hch' & _).
  all: destruct (handling_serving q false (Some q) v Hs') as [Hs2 Hk2]; [by right | by rewrite Hch'|].
  all: split; [exact Hs2|]; split; [by eapply keeps_trans|]; split; [exact Ha | exact (seen_closed q ev v Hsn)].
Qed.

(** ** A new connection *)

Lemma destroys_queued W fs c : Forall (queued W) fs → objects W !! c = None → c ∉ destroys fs.
Proof.
  intros Hf Hn. unfold destroys. rewrite list_elem_of_omap. intros (f & Hin & Hc). rewrite Forall_forall in Hf.
  specialize (Hf f Hin). destruct f; simplify_eq. destruct Hf as [o Ho]. congruence.
Qed.

Lemma fresh_unmapped e cur run due W fd : winv e cur run due W →
  (∀ q ch, heap (base W) !! q = Some ch → Reactor.fd_ ch ≠ fd) → channels_ (base W) !! fd = None ∧ connections_ W !! fd = None.
Proof.
  intros Hw Hfd. split.
  - destruct (channels_ (base W) !! fd) as [p|] eqn:E; [|done].
    destruct (inv_map _ (w_inv _ _ _ _ _ Hw) fd p E) as (ch & Hch & Hf & _). by destruct (Hfd p ch Hch).
  - destruct (connections_ W !! fd) as [c|] eqn:E; [|done]. apply (w_map _ _ _ _ _ Hw) in E as (o & Ho & Hs & _).
    destruct (object_chan _ _ _ _ _ _ _ Hw Ho) as (ch & Hch & Hf). destruct (Hfd c ch Hch). congruence.
Qed.

(** An established connection joins the world at an unused address. *)
Lemma winv_insert e cur run due fs W c o s0 ev w next : winv e cur run due W → heap (base W) !! c = None → cur ≠ Some c →
  (∀ q ch, heap (base W) !! q = Some ch → Reactor.fd_ ch ≠ sock o) →
  held m tid c (sock o) i (delete c (heap (base W))) s0 ev 0 Live false (false, e) w → sound J w →
  c ∉ destroys run → c ∉ destroys due → destroys fs = destroys due → 0 <= next <= Z.of_nat (accepts W) + 1 →
  winv e cur run fs (mkWorld (lp w) (wakeup_channel_ W) (acceptor_ W) (threadpool_ W) next (started_ W)
    (<[sock o := c]> (connections_ W)) (<[c := mkObject (serial o) (sock o) w]> (objects W)) fs (accepts W)).
Proof.
  intros Hw Hc Hcur Hfd Hh Hci Hr Hd Hfs Hnext. destruct (held_heap _ _ _ _ _ _ _ _ _ _ Hh) as (ch & Hheap & Hl & Hf & _).
  assert (objects W !! c = None) as Hoc.
  { apply not_elem_of_dom. apply not_elem_of_dom in Hc. rewrite (w_dom _ _ _ _ _ Hw) in Hc. set_solver. }
  destruct (fresh_unmapped _ _ _ _ _ _ Hw Hfd) as [_ Hmap].
  assert (∀ c', phase_of run fs c' = phase_of run due c') as Hph by (intros c'; unfold phase_of; by rewrite Hfs).
  split; cbn; try apply Hw; try done.
  - apply Hh.
  - apply Hh.
  - apply Hh.
  - apply (h_flag Hh).
  - rewrite Hheap, !dom_insert_L, (w_dom _ _ _ _ _ Hw). set_solver.
  - intros q Hq. destruct (w_side _ _ _ _ _ Hw q Hq) as [Hn (d & Hd' & Hok)].
    assert (c ≠ q) by congruence. rewrite Hheap, !lookup_insert_ne by done. split; [done|]. by exists d.
  - intros c' o'. rewrite Hph. destruct (decide (c' = c)) as [->|Hne].
    + rewrite lookup_insert_eq. intros [= <-]. exists ev. rewrite bool_decide_false by done.
      rewrite (proj2 (phase_live run due c)) by done. eapply conn_put; [|done..]. cbn. rewrite Hheap, delete_insert_eq. exact Hh.
    + rewrite lookup_insert_ne by done. intros Ho'. destruct (w_conn _ _ _ _ _ Hw c' o' Ho') as (ev' & Hc'). exists ev'.
      eapply conn_frame; [exact Hc' | apply Hh | apply Hh | apply Hh | cbn; by rewrite Hheap, lookup_insert_ne].
  - intros fd c'. rewrite Hph. destruct (decide (fd = sock o)) as [->|Hne].
    + rewrite lookup_insert_eq. split.
      * intros [= <-]. rewrite lookup_insert_eq. eexists. split; [done|]. split; [done|]. by apply phase_live.
      * intros (o' & Ho' & Hs & _). f_equal. destruct (decide (c' = c)) as [|Hne]; [done|]. rewrite lookup_insert_ne in Ho' by done.
        destruct (object_chan _ _ _ _ _ _ _ Hw Ho') as (d & Hd' & Hf'). destruct (Hfd _ _ Hd'). congruence.
    + rewrite lookup_insert_ne by done. rewrite (w_map _ _ _ _ _ Hw). destruct (decide (c' = c)) as [->|Hc'].
      * rewrite lookup_insert_eq. split; [intros (? & ? & _); congruence | intros (? & [= <-] & ? & _); done].
      * by rewrite lookup_insert_ne.
  - intros p q d d' Hp Hq Hfd'. rewrite Hheap, lookup_insert_Some in Hp, Hq.
    destruct Hp as [[<- <-]|[Hpc Hp]], Hq as [[<- <-]|[Hqc Hq]]; [done|..|by eapply (w_fds _ _ _ _ _ Hw)].
    + destruct (Hfd _ _ Hq). congruence.
    + destruct (Hfd _ _ Hp). congruence.
  - rewrite destroys_app, Hfs, <- destroys_app. apply Hw.
Qed.

Lemma view_put w : queue w = [] → with_queue [] (with_lp (lp w) w) = w.
Proof. destruct w. cbn. by intros ->. Qed.

(** The world with a new connection [w] at [c], and what it has queued. *)
Definition joined c sockfd w W : world K :=
  mkWorld (lp w) (wakeup_channel_ W) (acceptor_ W) (threadpool_ W) (next_conn_id_ W + 1) (started_ W)
    (<[sockfd := c]> (connections_ W)) (<[c := mkObject (next_conn_id_ W) sockfd w]> (objects W))
    (pending_functors_ W ++ map (Task c) (queue w)) (accepts W).

Lemma object_free e cur run due W c : winv e cur run due W → heap (base W) !! c = None → objects W !! c = None.
Proof.
  intros Hw Hc. apply not_elem_of_dom. apply not_elem_of_dom in Hc. rewrite (w_dom _ _ _ _ _ Hw) in Hc. set_solver.
Qed.

Lemma joined_steps W c sockfd w : serving (Some pa) W → 0 <= sockfd → objects W !! c = None →
  (∀ q ch, heap (base W) !! q = Some ch → Reactor.fd_ ch ≠ sockfd) → next_conn_id_ W + 1 < 2 ^ 31 →
  grows kConnected (state_ w) → state_ w ≠ kDisconnected →
  steps (pending_functors_ W) W (pending_functors_ (joined c sockfd w W)) (joined c sockfd w W).
Proof.
  intros [Hw _] Hs Hoc Hfd Hmax Hg Hd. pose proof (w_next _ _ _ _ _ Hw) as Hn0. set (w0 := set_state kConnected w).
  set (Wm := mkWorld (lp w) (wakeup_channel_ W) (acceptor_ W) (threadpool_ W) (next_conn_id_ W + 1) (started_ W)
    (<[sockfd := c]> (connections_ W)) (<[c := mkObject (next_conn_id_ W) sockfd w0]> (objects W)) (pending_functors_ W) (accepts W)).
  set (fs := pending_functors_ W ++ map (Task c) (queue w)).
  apply (steps_trans _ _ (pending_functors_ W) Wm);
    [|apply (steps_trans _ _ fs (with_pending fs (put c (mkObject (next_conn_id_ W) sockfd w0) w Wm)))].
  - apply steps_accept; try done; try lia; [apply Hw | apply (w_acc _ _ _ _ _ Hw) | by apply (fresh_unmapped _ _ _ _ _ _ Hw)|].
    intros c' o' Ho'. destruct (object_chan _ _ _ _ _ _ _ Hw Ho') as (ch1 & Hch1 & Hf1). rewrite <- Hf1. by eapply Hfd.
  - apply steps_put; [apply lookup_insert_eq | exact Hg | done | by unfold fs; rewrite omap_app, abs_tasks, app_nil_r].
  - apply steps_same. unfold abs_server. cbn. by rewrite !fmap_insert, !insert_insert_eq.
Qed.

Lemma joined_ok W c sockfd w : serving (Some pa) W → 0 <= sockfd → heap (base W) !! c = None →
  (∀ q ch, heap (base W) !! q = Some ch → Reactor.fd_ ch ≠ sockfd) →
  next_conn_id_ W <= Z.of_nat (accepts W) → Z.of_nat (accepts W) + 1 < 2 ^ 31 →
  held m tid c sockfd i (delete c (heap (base W))) kConnected 0 0 Live false (false, true) w → sound J w →
  serving (Some pa) (joined c sockfd w W) ∧ keeps pa W (joined c sockfd w W).
Proof.
  intros Hsv Hs Hc Hfd Hnext Hmax Hh Hci. pose proof Hsv as [Hw Hq]. pose proof (object_free _ _ _ _ _ _ Hw Hc) as Hoc.
  assert (pa ≠ c) as Hpa.
  { intros ->. destruct (w_side _ _ _ _ _ Hw c) as [_ (d & Hd & _)]; [by right | congruence]. }
  split; [split|split].
  - pose proof (w_next _ _ _ _ _ Hw).
    eapply (winv_insert true (Some pa) [] (pending_functors_ W) _ W c (mkObject (next_conn_id_ W) sockfd w)); try done.
    + congruence.
    + set_solver.
    + by eapply destroys_queued.
    + apply destroys_quiet.
    + lia.
  - cbn. apply Forall_app_2.
    + eapply queued_mono; [|exact Hq]. intros c' Hc'. cbn. rewrite !lookup_insert_is_Some'. by right.
    + apply Forall_map. eapply Forall_impl; [exact (h_queue Hh)|]. intros t Ht. split; [done|]. cbn. by rewrite lookup_insert_eq.
  - intros r Hr Hd. destruct (held_heap _ _ _ _ _ _ _ _ _ _ Hh) as (ch & Hheap1 & _). cbn. rewrite Hheap1.
    assert (c ≠ r) by (intros ->; by apply not_elem_of_dom in Hc). by rewrite !lookup_insert_ne.
  - apply joined_steps; try done; [lia | exact (h_state Hh)|]. intros Hs1. destruct (held_up _ _ _ _ _ _ _ _ _ _ _ _ Hh); congruence.
  - intros c' _. cbn. by rewrite destroys_quiet.
Qed.

Lemma sound_established l c fd n w w' : ctor l c fd m = Ok w → cinv w → state_ w = kConnecting → queue w = [] →
  connect_established (kwrite n) conn_cb tid w = Ok w' → sound J w'.
Proof.
  intros Hx Hc Hs Hq He. assert (accepted w = [] ∧ received w = []) as [Ha Hr] by (unfold ctor in Hx; by outcome_inv).
  pose proof (ctor_input _ _ _ _ _ Hx) as Hin.
  split; [by eapply (connect_established_cinv _ _ (kwrite_ok n))|].
  eapply (law_event n TcpConnection.Established w); [done | done | done | by rewrite Hq | by apply law_start | exact He].
Qed.

Lemma new_connection_ok sockfd W : serving (Some pa) W → 0 <= sockfd →
  (∀ q ch, heap (base W) !! q = Some ch → Reactor.fd_ ch ≠ sockfd) →
  next_conn_id_ W <= Z.of_nat (accepts W) → Z.of_nat (accepts W) + 1 < 2 ^ 31 →
  safe (λ W', serving (Some pa) W' ∧ keeps pa W W' ∧ accepts W' = accepts W ∧
          ∃ c, socks W !! c = None ∧ socks W' = <[c := sockfd]> (socks W)) (new_connection sockfd W).
Proof.
  intros Hsv Hs Hfd Hnext Hmax. pose proof (proj1 Hsv) as Hw. pose proof (w_next _ _ _ _ _ Hw) as Hn0.
  unfold new_connection, in_base_thread, is_in_loop_thread. rewrite (w_tid _ _ _ _ _ Hw), Z.eqb_refl. cstep.
  rewrite (w_pool _ _ _ _ _ Hw). unfold EventLoopThreadPool.get_next_loop, EventLoopThreadPool.in_base_thread.
  cbn [EventLoopThreadPool.base_tid EventLoopThreadPool.started_ EventLoopThreadPool.loops_ EventLoopThreadPool.base_loop_].
  rewrite Z.eqb_refl. cbn [andb]. cstep. rewrite sint_checked_range by lia. cstep.
  unfold loop_at. rewrite decide_True by (by rewrite (w_id _ _ _ _ _ Hw)). cstep.
  set (c := alloc (dom (heap (base W)))). assert (heap (base W) !! c = None) as Hc by (apply not_elem_of_dom, alloc_ok).
  destruct (ctor_done (base W) c sockfd m (w_inv _ _ _ _ _ Hw) Hc ltac:(lia))
    as (w0 & Hx & Hci & Hst & Hm & Ha & Hid & Htid & Hch & Hev & Hc0 & _ & _ & _ & Hq0 & Hcl & Hheap).
  rewrite Hx. cstep. destruct (fresh_unmapped _ _ _ _ _ _ Hw Hfd) as [Hfree ->]. rewrite bool_decide_true by done. cstep.
  unfold run_in_loop, in_base_thread, is_in_loop_thread. cbn [base].
  rewrite Htid, (w_tid _ _ _ _ _ Hw), Z.eqb_refl. cbn [run_functor]. unfold member, object_at. cbn [objects].
  rewrite lookup_insert_eq. cstep. cbn [serial sock body]. unfold view. cbn [base body]. rewrite (view_put w0 Hq0).
  eapply (safe_bind (held m tid c sockfd i (delete c (heap (base W))) kConnected 0 0 Live false (false, true))).
  { eapply (established_held _ conn_cb (kwrite_ok _) m tid c sockfd i _ kConnected user_ok w0 _ true Hci Hc0);
      rewrite ?Hid, ?Htid, ?Hch, ?Hev; try done; try apply Hw; [by rewrite Hheap, delete_insert_eq | by eapply ctor_input]. }
  intros w1 Hw1 Hh. rewrite (h_told Hh). cbn [andb mret outcome_ret safe].
  assert (sound J w1) as Hci1 by (by eapply (sound_established _ _ _ _ w0)).
  unfold put. cbn [wakeup_channel_ acceptor_ threadpool_ next_conn_id_ started_ connections_ objects pending_functors_ accepts serial sock].
  rewrite insert_insert_eq, <- (w_pool _ _ _ _ _ Hw). destruct (joined_ok W c sockfd w1 Hsv) as [H1 H2]; try done.
  split; [exact H1|]. split; [exact H2|]. split; [done|]. exists c. unfold socks. cbn.
  by rewrite fmap_insert, lookup_fmap, (object_free _ _ _ _ _ _ Hw Hc).
Qed.

(** ** The loop's own channels *)

Lemma winv_accept e cur run due W a n : winv e cur run due W → Acceptor.accept_channel_ a = pa → Acceptor.has_callback a = true →
  Acceptor.delivered a = [] → Acceptor.listening_ a = true → (accepts W <= n)%nat →
  winv e cur run due (mkWorld (base W) (wakeup_channel_ W) a (threadpool_ W) (next_conn_id_ W) (started_ W) (connections_ W)
    (objects W) (pending_functors_ W) n).
Proof.
  intros Hw H1 H2 H3 H4 Hn. split; cbn; try apply Hw; try done. pose proof (w_next _ _ _ _ _ Hw). lia.
Qed.

(** What [accept4] yields when it is called, and when it is not. *)
Definition arrives (b : bool) W W' : Prop :=
  if b then accepts W' = S (accepts W) ∧
    match kaccept (accepts W) (open_fds W) with
    | Socket.Accepted fd _ => ∃ c, socks W !! c = None ∧ socks W' = <[c := fd]> (socks W)
    | Socket.AcceptErr _ => socks W' = socks W
    end
  else accepts W' = accepts W ∧ socks W' = socks W.

Lemma accept_read_ok W : serving (Some pa) W → Z.of_nat (accepts W) + 2 < 2 ^ 31 →
  safe (λ W', serving (Some pa) W' ∧ keeps pa W W' ∧ arrives true W W') (accept_read W).
Proof.
  intros [Hw Hq] Hmax. destruct (w_acc _ _ _ _ _ Hw) as (Hpa & Hcb & Hdel & Hlis). pose proof (w_next _ _ _ _ _ Hw) as Hnext.
  unfold accept_read, Acceptor.handle_read, arrives. set (r := kaccept _ _). destruct (kaccept_ok (accepts W) (open_fds W)) as [Htol Hnew].
  fold r in Htol, Hnew. unfold is_in_loop_thread. cbn [Acceptor.lp the_acceptor Acceptor.with_lp].
  rewrite (w_tid _ _ _ _ _ Hw), Z.eqb_refl. cstep. rewrite (Acceptor.accept_tolerated r _ Htol). cstep.
  change (Acceptor.has_callback (the_acceptor W)) with (Acceptor.has_callback (acceptor_ W)). rewrite Hcb.
  set (idle a := mkWorld (base W) (wakeup_channel_ W) a (threadpool_ W) (next_conn_id_ W) (started_ W) (connections_ W)
    (objects W) (pending_functors_ W) (S (accepts W))).
  assert (∀ a, Acceptor.accept_channel_ a = pa → Acceptor.has_callback a = true → Acceptor.delivered a = [] →
    Acceptor.listening_ a = true → serving (Some pa) (idle a) ∧ keeps pa W (idle a)) as Hidle.
  { intros a H1 H2 H3 H4. split; [|split; [done | |done]; apply steps_same; unfold abs_server; cbn; by rewrite H4, Hlis].
    split; [|exact Hq]. apply winv_accept; try done. lia. }
  destruct r as [fd addr|errno].
  - cbn in Htol. decide_test (0 <=? fd). cstep.
    match goal with |- safe _ (match Acceptor.delivered ?a with _ => _ end) => change (Acceptor.delivered a) with (Acceptor.delivered (acceptor_ W) ++ [(fd, addr)]) end.
    rewrite Hdel. cbn [app]. match goal with |- safe _ (new_connection fd ?V) => change V with (idle (acceptor_ V)); set (a := acceptor_ V) end.
    eapply safe_mono; [apply (new_connection_ok fd (idle a)); [by apply Hidle | done | | cbn; lia | cbn; lia]|].
    + intros q ch Hch Hf. apply (Hnew fd addr eq_refl). apply elem_of_map_img. exists q. rewrite lookup_fmap. change (heap (base W) !! q = Some ch) in Hch. rewrite Hch. cbn. by rewrite Hf.
    + intros W' _ (? & ? & -> & Hnew'). split; [done|]. split; [|done]. eapply keeps_trans; [|done]. by apply Hidle.
  - cbn [Z.leb Z.compare]. cstep.
    match goal with |- safe _ (match Acceptor.delivered ?a with _ => _ end) => change (Acceptor.delivered a) with (Acceptor.delivered (acceptor_ W)) end.
    rewrite Hdel. split; [by apply Hidle|]. split; [by apply Hidle | done].
Qed.

(** The descriptors in use. *)
Lemma open_fds_socks e cur run due W : winv e cur run due W → open_fds W = {[wake_fd; listen_fd]} ∪ map_img (socks W).
Proof.
  intros Hw. pose proof (w_ne _ _ _ _ _ Hw) as Hne. apply set_eq. intros fd. unfold open_fds. rewrite elem_of_union, !elem_of_map_img.
  assert (∀ q, q = wake ∨ q = pa → ∃ ch, heap (base W) !! q = Some ch ∧ Reactor.fd_ ch = if decide (q = wake) then wake_fd else listen_fd) as Hside.
  { intros q Hq. destruct (w_side _ _ _ _ _ Hw q Hq) as [_ (ch & Hch & _ & _ & _ & _ & Hf & _)]. eauto. }
  split.
  - intros [q Hq]. rewrite lookup_fmap in Hq. apply fmap_Some in Hq as (ch & Hch & ->).
    assert (q ∈ dom (heap (base W))) as Hd by (by eapply elem_of_dom_2). rewrite (w_dom _ _ _ _ _ Hw), elem_of_union in Hd.
    destruct Hd as [Hq|Hq]; [left|right; exists q].
    + destruct (Hside q) as (ch' & Hch' & Hf); [set_solver|]. assert (ch' = ch) as -> by congruence. rewrite Hf. case_decide; set_solver.
    + apply elem_of_dom in Hq as [o Ho]. destruct (object_chan _ _ _ _ _ _ _ Hw Ho) as (ch' & Hch' & Hf).
      unfold socks. rewrite lookup_fmap, Ho. cbn. f_equal. congruence.
  - intros [Hfd|[c Hc]].
    + apply elem_of_union in Hfd as [Hfd|Hfd]; apply elem_of_singleton in Hfd as ->.
      * destruct (Hside wake) as (ch & Hch & Hf); [by left|]. rewrite decide_True in Hf by done.
        exists wake. rewrite lookup_fmap, Hch. cbn. by rewrite Hf.
      * destruct (Hside pa) as (ch & Hch & Hf); [by right|]. rewrite decide_False in Hf by done.
        exists pa. rewrite lookup_fmap, Hch. cbn. by rewrite Hf.
    + unfold socks in Hc. rewrite lookup_fmap in Hc. apply fmap_Some in Hc as (o & Ho & ->).
      destruct (object_chan _ _ _ _ _ _ _ Hw Ho) as (ch & Hch & Hf). exists c. rewrite lookup_fmap, Hch. cbn. by rewrite Hf.
Qed.

Lemma arrives_frame b e1 cur1 run1 due1 e cur run due W1 W W' : winv e1 cur1 run1 due1 W1 → winv e cur run due W → accepts W = accepts W1 → socks W = socks W1 →
  arrives b W W' → arrives b W1 W'.
Proof.
  intros H1 Hw Ha Hs. unfold arrives. rewrite (open_fds_socks _ _ _ _ _ H1), (open_fds_socks _ _ _ _ _ Hw), Ha, Hs. done.
Qed.

Lemma arrives_quiet b W W1 W' : arrives b W W1 → accepts W' = accepts W1 → socks W' = socks W1 → arrives b W W'.
Proof. unfold arrives. by intros Hx -> ->. Qed.

Lemma event_side q ch W : serving None W → q = wake ∨ q = pa → (q = pa → Z.of_nat (accepts W) + 2 < 2 ^ 31) →
  heap (base W) !! q = Some ch →
  safe (λ W', serving None W' ∧ keeps q W W' ∧ arrives (bool_decide (q = pa) && reading (revents_ ch)) W W') (channel_event q W).
Proof.
  intros Hs Hq Hmax Hch. destruct (w_side _ _ _ _ _ (proj1 Hs) q Hq) as [Hno (ch' & Hch' & _ & _ & _ & Hro & _ & _ & Hti)].
  assert (ch' = ch) as -> by congruence. unfold channel_event. rewrite (deref_ok _ _ ch Hch). cstep.
  set (b := bool_decide (q = pa) && reading (revents_ ch)).
  destruct (handling_serving q true None W Hs) as [Hs' Hk]; [by left | by rewrite Hch|]. set (W1 := handling q true W) in *.
  assert (look q W1 = LoopTurn.set_handling true ch) as Hlook by (unfold look, W1, handling, modify; cbn; by rewrite lookup_alter_eq, Hch).
  assert (safe (λ W', serving None W' ∧ keeps q W W' ∧ arrives b W W') (handle_event_with_guard (look q) (handling q) (run_callback q) W)) as Hg; cycle 1.
  { unfold handle_event. replace (tied_ (look q W)) with false by (unfold look; by rewrite Hch). exact Hg. }
  eapply safe_mono; [apply (guarded_reader (look q) (handling q) (run_callback q) (λ v, v = W1)
    (λ v, serving (Some q) v ∧ keeps q W v ∧ arrives b W v))|].
  - intros v ->. by rewrite Hlook.
  - intros v ([Hv _] & _). destruct (w_side _ _ _ _ _ Hv q Hq) as [_ (d & Hd & _ & _ & _ & ? & _)]. unfold look. by rewrite Hd.
  - intros v ->. rewrite Hlook. intros Hr. cbn in Hr. split; [done|]. split; [done|]. unfold b. by rewrite Hr, andb_false_r.
  - intros v ->. rewrite Hlook. intros Hr. cbn in Hr. unfold run_callback. rewrite (w_wake _ _ _ _ _ (proj1 Hs')).
    destruct (w_acc _ _ _ _ _ (proj1 Hs')) as [-> _]. destruct (decide (q = wake)) as [Hqw|Hne].
    + split; [done|]. split; [done|]. unfold b. rewrite bool_decide_false; [done|]. rewrite Hqw. apply (proj1 Hs).
    + destruct Hq as [| ->]; [done|]. rewrite decide_True by done. unfold b. rewrite bool_decide_true, Hr by done.
      eapply safe_mono; [apply (accept_read_ok W1 Hs'); by apply Hmax|]. intros v' _ (? & ? & Ha'). split; [done|].
      split; [by eapply keeps_trans|]. eapply arrives_frame; [apply Hs | apply Hs' | done | done | exact Ha'].
  - done.
  - intros W' _ (v & (Hv & Hkv & Ha) & ->). destruct (w_side _ _ _ _ _ (proj1 Hv) q Hq) as [_ (d & Hd & _)].
    destruct (handling_serving q false (Some q) v Hv) as [Hs2 Hk2]; [by right | by rewrite Hd|].
    split; [exact Hs2|]. split; [by eapply keeps_trans | by eapply arrives_quiet].
Qed.

(** ** The events of a turn *)

Lemma serving_current p W : serving None W → serving None (with_base (LoopTurn.set_current p (base W)) W).
Proof.
  intros [Hw Hq]. split; [|done].
  apply (winv_base true true None None [] (pending_functors_ W) _ W Hw); cbn; try apply Hw; try done.
  - apply (inv_flags (base W)); [apply Hw | done..].
  - intros q ch Hch. exists ch. split; [done|]. split; [done|]. by rewrite (w_handling _ _ _ _ _ _ _ Hw Hch).
Qed.

(** The events reported for the channel at [q]. *)
Definition revs W q : Z := revents_ (look q W).

(** What the event of the channel at [q] leads to. *)
Definition handled q W W' : Prop :=
  keeps q W W' ∧ arrives (bool_decide (q = pa) && reading (revs W q)) W W' ∧
  (is_Some (objects W !! q) → hung (revs W q) = true → q ∈ destroys (pending_functors_ W')).

(** What those of all [active] channels lead to. *)
Record dispatched (active : list nat) W W' : Prop := {
  d_steps : steps (pending_functors_ W) W (pending_functors_ W') W';
  d_close : ∀ c, c ∉ active → c ∈ destroys (pending_functors_ W') ↔ c ∈ destroys (pending_functors_ W);
  d_hung : ∀ q, q ∈ active → is_Some (objects W !! q) → hung (revs W q) = true → q ∈ destroys (pending_functors_ W');
  d_arrive : arrives (bool_decide (pa ∈ active) && reading (revs W pa)) W W'
}.

Lemma channel_event_ok q W : serving None W → ready W q → (q = pa → Z.of_nat (accepts W) + 2 < 2 ^ 31) →
  safe (λ W', serving None W' ∧ handled q W W') (channel_event q W).
Proof.
  intros Hs Hr Hmax. assert (q = wake ∨ q = pa → safe (λ W', serving None W' ∧ handled q W W') (channel_event q W)) as Hside.
  { intros Hq. destruct (w_side _ _ _ _ _ (proj1 Hs) q Hq) as [Hno (ch & Hch & _)].
    eapply safe_mono; [by apply (event_side q ch)|]. intros W' _ (? & ? & Ha). split; [done|]. split; [done|].
    assert (revs W q = revents_ ch) as -> by (unfold revs, look; by rewrite Hch). split; [exact Ha|].
    rewrite Hno. by intros [? ?]. }
  destruct Hr as [?|[?|(o & ev & Ho & Hev & Hc)]]; [by apply Hside; left | by apply Hside; right|].
  eapply safe_mono; [by apply (event_conn q ev o)|]. intros W' _ (? & ? & Ha & Hx). split; [done|]. split; [done|].
  destruct (conn_chan _ _ _ _ _ _ Hc) as (ch & Hch & _ & _ & Hf & _). injection Hf as Hrev _ _ _ _.
  assert (revs W q = ev) as -> by (unfold revs, look; by rewrite Hch). split; [|by intros _].
  rewrite bool_decide_false; [exact Ha|]. by destruct (object_not_side _ _ _ _ _ _ _ (proj1 Hs) Ho).
Qed.

Lemma dispatched_cons q active W W1 W2 : serving None W → serving None W1 → q ∉ active → handled q W W1 → dispatched active W1 W2 →
  dispatched (q :: active) W W2.
Proof.
  intros [Hw _] [Hw1 _] Hq ([Hsame Hst Hcl] & Harr & Hhung) [S2 C2 H2 A2].
  assert (pa ∈ dom (heap (base W))) as Hpa by (rewrite (w_dom _ _ _ _ _ Hw); set_solver). split.
  - by eapply steps_trans.
  - intros c [Hne Hc]%not_elem_of_cons. by rewrite C2, Hcl.
  - intros r Hr Ho Hev. apply elem_of_cons in Hr as [->|Hr]; [rewrite C2 by done; by apply Hhung|].
    assert (r ≠ q) as Hne by (by intros ->). destruct (Hsame r Hne) as [Eh Eo].
    + rewrite (w_dom _ _ _ _ _ Hw). apply elem_of_dom in Ho. set_solver.
    + apply H2; [done | by rewrite Eo|]. unfold revs, look in *. by rewrite Eh.
  - destruct (decide (q = pa)) as [->|Hne].
    + rewrite bool_decide_true in Harr |- * by (done || left). rewrite bool_decide_false in A2 by done.
      destruct A2 as [E1 E2]. by eapply arrives_quiet.
    + rewrite bool_decide_false in Harr by done. destruct Harr as [E1 E2].
      eapply arrives_frame; [exact Hw | exact Hw1 | done | done|]. destruct (Hsame pa) as [Eh _]; [done | done|].
      unfold revs, look in *. rewrite Eh in A2.
      rewrite (bool_decide_ext (pa ∈ q :: active) (pa ∈ active)); [done|]. rewrite elem_of_cons. naive_solver.
Qed.

(** Channels that can be handled one after the other. *)
Definition dispatchable (active : list nat) W : Prop :=
  NoDup active ∧ Forall (ready W) active ∧ (pa ∈ active → Z.of_nat (accepts W) + 2 < 2 ^ 31).

Definition current q W : world K := with_base (LoopTurn.set_current (Some q) (base W)) W.

Lemma current_ready q r W : serving None W → ready W r → ready (current q W) r.
Proof.
  intros Hs Hr. destruct (serving_current (Some q) W Hs) as [H1 _].
  destruct Hr as [?|[?|(o & ev & Ho & Hev & Hc)]]; [by left | by right; left | right; right]. exists o, ev. split; [done|]. split; [done|].
  eapply conn_frame; [exact Hc | apply H1 | apply H1 | apply H1 | done].
Qed.

Lemma active_step q active W : serving None W → dispatchable (q :: active) W →
  safe (λ W', serving None W' ∧ handled q (current q W) W' ∧ dispatchable active W') (channel_event q (current q W)).
Proof.
  intros Hs (Hnd & [Hrq Hr]%Forall_cons & Hmax). apply NoDup_cons in Hnd as [Hq Hnd]. pose proof (serving_current (Some q) W Hs) as H1.
  eapply safe_mono; [apply channel_event_ok; [done | by apply current_ready | intros ->; apply Hmax; left]|].
  intros W2 _ [H2 Hh]. split; [done|]. split; [done|]. split; [done|]. split.
  - rewrite Forall_forall in Hr |- *. intros r Hin. apply (ready_keeps None q r (current q W) W2); try done; [apply Hh | by intros ->|].
    apply current_ready; [done | by apply Hr].
  - intros Hin. destruct Hh as (_ & Harr & _). rewrite bool_decide_false in Harr by (by intros ->). destruct Harr as [-> _].
    apply Hmax. by right.
Qed.

Lemma handle_active_ok active W : serving None W → dispatchable active W →
  safe (λ W', serving None W' ∧ dispatched active W W') (handle_active active W).
Proof.
  revert W. induction active as [|q active IH]; intros W Hs Hd; cbn [handle_active].
  { split; [done|]. split; [apply steps_refl | done | set_solver | done]. }
  pose proof (serving_current (Some q) W Hs) as H1. eapply safe_bind; [by apply active_step|].
  intros W2 _ (H2 & Hh & Hd2). eapply safe_mono; [by apply IH|]. intros W' _ [H3 Hd3]. split; [done|].
  destruct Hd as (Hnd%NoDup_cons & _). destruct (dispatched_cons q active (current q W) W2 W' H1 H2 (proj1 Hnd) Hh Hd3) as [D1 D2 D3 D4]. by split.
Qed.

(** ** While functors run *)

(** What is queued by then: calls of connections that are being served. *)
Definition live_task run due W (f : functor) : Prop :=
  match f with
  | Task c t => own_task t ∧ is_Some (objects W !! c) ∧ phase_of run due c = Live
  | _ => False
  end.

Definition running run due W : Prop :=
  winv false None run due W ∧ Forall (queued W) due ∧ Forall (live_task run due W) (pending_functors_ W).

Lemma live_task_mono run due run' due' W W' fs : (∀ c, is_Some (objects W !! c) → is_Some (objects W' !! c)) →
  (∀ c, phase_of run due c = Live → phase_of run' due' c = Live) →
  Forall (live_task run due W) fs → Forall (live_task run' due' W') fs.
Proof.
  intros Ho Hp Hf. eapply Forall_impl; [exact Hf|]. intros f. unfold live_task. destruct f; try done.
  intros (? & ? & ?). split; [done|]. split; [by apply Ho | by apply Hp].
Qed.

(** The same connections in the same map, and the server of the file TcpServer can follow. *)
Definition follows (due : list functor) W (due' : list functor) W' : Prop :=
  accepts W' = accepts W ∧ socks W' = socks W ∧ connections_ W' = connections_ W ∧ steps due W due' W'.

Lemma follows_trans d1 W1 d2 W2 d3 W3 : follows d1 W1 d2 W2 → follows d2 W2 d3 W3 → follows d1 W1 d3 W3.
Proof.
  intros (A1 & D1 & C1 & S1) (A2 & D2 & C2 & S2). unfold follows. rewrite A2, D2, C2. do 3 (split; [done|]). by eapply steps_trans.
Qed.

(** A functor that calls a connection and leaves the phase [ph'] and no new functors unless it is
    served. *)
Lemma member_running c f g run due W o ev ph' : running run (g :: due) W → objects W !! c = Some o →
  (∀ c', phase_of (run ++ [g]) due c' = if decide (c' = c) then ph' else phase_of run (g :: due) c') →
  (phase_of run (g :: due) c = Live ↔ ph' = Live) →
  safe (λ w, held m tid c (sock o) i (delete c (heap (base W))) (state_ (body o)) ev 0 ph' (told_of conn_cb ph') (false, false) w)
    (f (serial o) (view o W)) →
  (∀ w, f (serial o) (view o W) = Ok w → sound J w ∧ (ph' ≠ Live → queue w = [])) →
  (∀ w, grows (state_ (body o)) (state_ w) → (state_ w = kDisconnected → state_ (body o) = kDisconnected) →
    steps (g :: due) W due (put c o w W)) →
  safe (λ W', running (run ++ [g]) due W' ∧ follows (g :: due) W due W') (member c f W).
Proof.
  intros (Hw & Hd & Hl) Ho Hph Hlive Hf Hci Hsteps. unfold member, object_at. rewrite Ho. cstep.
  eapply safe_bind; [exact Hf|]. intros w Hfw Hh. destruct (Hci w Hfw) as [Hcw Hqw].
  destruct (w_conn _ _ _ _ _ Hw c o Ho) as (ev0 & Hc). pose proof (proj1 Hc) as Hc0.
  assert (closed (body o) = told_of conn_cb (phase_of run (g :: due) c)) as Hcl by exact (h_told Hc0).
  rewrite (h_told Hh), Hcl, !told_live, (bool_decide_ext _ _ Hlive), andb_negb_r.
  set (W1 := put c o w W). assert (∀ c', is_Some (objects W !! c') → is_Some (objects W1 !! c')) as Hobj.
  { intros c' Hc'. cbn. apply lookup_insert_is_Some'. by right. }
  assert (phase_of (run ++ [g]) due c = ph') as Hpc by (by rewrite Hph, decide_True).
  split; [split; [|split]|split; [done|split; [|split; [done|]]]].
  - apply (winv_update false None run (g :: due) (run ++ [g]) due c o ev ph' w W (connections_ W) (pending_functors_ W1)); try done.
    + destruct (decide (ph' = Live)) as [|Hn]; [done|]. symmetry. apply delete_id. eapply unmapped; [exact Hw | done | by rewrite Hlive].
    + by apply Hlive.
    + intros c' Hne. by rewrite Hph, decide_False.
    + pose proof (w_nodup _ _ _ _ _ Hw). by rewrite <- (assoc_L (++)).
  - apply Forall_cons in Hd as [_ Hd]. by eapply queued_mono.
  - cbn. apply Forall_app_2.
    + apply (live_task_mono run (g :: due) _ _ W); [done| |exact Hl]. intros c' Hc'. rewrite Hph. destruct (decide (c' = c)) as [->|]; [by apply Hlive | done].
    + destruct (decide (ph' = Live)) as [->|Hn]; [|by rewrite Hqw].
      apply Forall_map. eapply Forall_impl; [exact (h_queue Hh)|]. intros t Ht. cbn. by rewrite lookup_insert_eq.
  - by apply socks_put.
  - apply Hsteps; [exact (h_state Hh)|]. intros Hs. destruct (decide (ph' = Live)) as [->|Hn].
    + destruct (held_up _ _ _ _ _ _ _ _ _ _ _ _ Hh); congruence.
    + destruct (h_chan Hc0) as (ch & _ & Hok). apply (channel_down _ _ _ _ _ _ _ Hok). by rewrite Hlive.
Qed.

Lemma run_functor_ok f run due W : running run (f :: due) W →
  safe (λ W', running (run ++ [f]) due W' ∧ follows (f :: due) W due W') (run_functor f W).
Proof.
  intros Hr. pose proof Hr as (Hw & [Hf _]%Forall_cons & _). destruct f as [c t|c|c|c]; try done; cbn [run_functor].
  - destruct Hf as [Ht [o Ho]]. destruct (w_conn _ _ _ _ _ Hw c o Ho) as (ev & Hc & Hci).
    rewrite (w_flag _ _ _ _ _ Hw) in Hc. set (ph := phase_of run (Task c t :: due) c) in *.
    eapply (member_running c _ _ run due W o ev ph Hr Ho); try done.
    + intros c'. transitivity (phase_of run due c'); [unfold phase_of; by rewrite destroys_app, app_nil_r|].
      by destruct (decide (c' = c)) as [->|].
    + by eapply (run_task_held _ conn_cb (kwrite_ok _)).
    + intros w Hx. split; [by eapply (sound_task kwrite kreadv conn_cb tid J kwrite_ok)|]. intros Hn.
      destruct (h_chan Hc) as (ch & _ & Hok). destruct (channel_down _ _ _ _ _ _ _ Hok Hn) as [Hs _].
      by rewrite (run_task_down _ _ _ _ _ _ Hs Ht Hx).
    + intros w Hg Hd. by apply (steps_put _ W c o w (pending_functors_ (put c o w W))).
  - destruct Hf as [o Ho]. destruct (w_conn _ _ _ _ _ Hw c o Ho) as (ev & Hc & Hci).
    rewrite (w_flag _ _ _ _ _ Hw) in Hc.
    pose proof (w_nodup _ _ _ _ _ Hw) as Hnd. rewrite destroys_app in Hnd. apply NoDup_app in Hnd as (_ & Hnd & _).
    assert (c ∉ destroys run) as Hnr by (intros Hin; apply (Hnd c Hin); left).
    assert (phase_of run (Destroyed c :: due) c = Closed) as Hph.
    { unfold phase_of. rewrite decide_False, decide_True by (done || (cbn; left)). done. }
    rewrite Hph in Hc. destruct (connect_destoryed_held (kwrite (serial o)) conn_cb _ _ _ _ _ _ _ _ _ _ _ _ Hc) as (l' & Hx & Hh & _).
    eapply (member_running c _ _ run due W o ev Removed Hr Ho).
    + intros c'. unfold phase_of. rewrite destroys_app. cbn. case_decide; [subst|].
      * rewrite decide_True by set_solver. by case_decide.
      * repeat case_decide; try done; rewrite ?elem_of_app, ?elem_of_cons, ?elem_of_nil in *; naive_solver.
    + by rewrite Hph.
    + by rewrite Hx.
    + intros w Hw1. split; [eapply (sound_event kwrite kreadv conn_cb tid J kwrite_ok _ _ _ _ _ _ _ _ _ _ _ TcpConnection.Destroyed); [exact Hc | exact Hci | done | exact Hw1]|]. intros _.
      rewrite Hx in Hw1. by injection Hw1 as <-.
    + intros w Hg Hd. destruct (h_chan Hc) as (ch & _ & Hok). destruct (channel_down _ _ _ _ _ _ _ Hok) as [Hs _]; [done|].
      change (state_ (body o) = kDisconnected) in Hs. apply steps_destroyed; [done | exact Hs|]. destruct Hg as [Hg|[[Hg _]|Hg]]; congruence.
Qed.

Lemma run_functors_ok due run W : running run due W →
  safe (λ W', running (run ++ due) [] W' ∧ follows due W [] W') (run_functors due W).
Proof.
  revert run W. induction due as [|f due IH]; intros run W Hr; cbn [run_functors].
  { rewrite app_nil_r. split; [done|]. do 3 (split; [done|]). apply steps_refl. }
  eapply safe_bind; [by apply run_functor_ok|]. intros W1 _ [H1 F1]. eapply safe_mono; [by apply IH|].
  intros W2 _ [H2 F2]. rewrite <- (assoc_L (++)) in H2. split; [exact H2|]. by eapply follows_trans.
Qed.

(** ** The end of the functors *)

Lemma winv_phase e cur run due run' due' W : winv e cur run due W →
  (∀ c, is_Some (objects W !! c) → phase_of run' due' c = phase_of run due c) → NoDup (destroys (run' ++ due')) →
  winv e cur run' due' W.
Proof.
  intros Hw Hp Hnd. split; try apply Hw; try done.
  - intros c o Ho. rewrite Hp by done. by apply Hw.
  - intros fd c. rewrite (w_map _ _ _ _ _ Hw). split; intros (o & Ho & Hs & Hl); exists o; (split; [done|]; split; [done|]);
      [by rewrite Hp | by rewrite <- Hp].
Qed.

(** Of the functors [fs] that have been run, [rest] are still there. *)
Definition dropping fs rest W : Prop :=
  winv false None fs [] W ∧
  (∀ c, is_Some (objects W !! c) → c ∈ destroys fs → Exists (λ f, holds f = Some c) rest) ∧
  Forall (queued W) rest ∧ Forall (live_task fs [] W) (pending_functors_ W).

Lemma phase_run fs c : phase_of fs [] c = if decide (c ∈ destroys fs) then Removed else Live.
Proof. unfold phase_of. case_decide; [done|]. by rewrite decide_False by (by apply not_elem_of_nil). Qed.

(** Nothing goes away but connections that were destroyed. *)
Definition spared fs W W' : Prop :=
  accepts W' = accepts W ∧ steps [] W [] W' ∧ ∀ c, c ∉ destroys fs → socks W' !! c = socks W !! c.

Lemma spared_trans fs W1 W2 W3 : spared fs W1 W2 → spared fs W2 W3 → spared fs W1 W3.
Proof.
  intros (A1 & S1 & D1) (A2 & S2 & D2). split; [congruence|]. split; [by eapply steps_trans|].
  intros c Hc. by rewrite D2, D1.
Qed.

(** A connection goes away, with its entry in the map if there is one. *)
Lemma winv_remove run W c o l' : winv false None run [] W → objects W !! c = Some o →
  inv l' → heap l' = delete c (heap (base W)) → id l' = i → tid_ l' = tid → event_handing_ l' = false →
  winv false None run [] (with_objects (delete c (objects W)) (with_base l' (with_connections (delete (sock o) (connections_ W)) W))).
Proof.
  intros Hw Ho Hi Hh Hid Htid Hev. destruct (object_not_side _ _ _ _ _ _ _ Hw Ho) as [Hn1 Hn2].
  destruct (object_chan _ _ _ _ _ _ _ Hw Ho) as (ch & Hch & Hf).
  split; cbn; try apply Hw; try done.
  - rewrite Hh, !dom_delete_L, (w_dom _ _ _ _ _ Hw). set_solver.
  - intros q Hq. destruct (w_side _ _ _ _ _ Hw q Hq) as [Hn (d & Hd & Hok)]. assert (c ≠ q) by congruence.
    rewrite Hh, !lookup_delete_ne by done. split; [done|]. by exists d.
  - intros c' o' [Hne Ho']%lookup_delete_Some. destruct (w_conn _ _ _ _ _ Hw c' o' Ho') as (ev & Hc'). exists ev.
    eapply conn_frame; [exact Hc' | done | done | done | cbn; by rewrite Hh, lookup_delete_ne].
  - intros fd c'. rewrite lookup_delete_Some, (w_map _ _ _ _ _ Hw). split.
    + intros [Hne (o' & Ho' & Hs & Hp)]. exists o'. split; [|done]. apply lookup_delete_Some. split; [intros <-; congruence | done].
    + intros (o' & [Hne Ho']%lookup_delete_Some & Hs & Hp). split; [|by exists o']. intros Heq.
      destruct (object_chan _ _ _ _ _ _ _ Hw Ho') as (ch' & Hch' & Hf').
      apply Hne. apply (w_fds _ _ _ _ _ Hw c c' ch ch'); congruence.
  - rewrite Hh. intros p q d d' [_ Hp]%lookup_delete_Some [_ Hq]%lookup_delete_Some. by eapply (w_fds _ _ _ _ _ Hw).
Qed.

(** The destructor of a connection nothing refers to any more. *)
Lemma winv_delete fs W c o l' : winv false None fs [] W → objects W !! c = Some o → c ∈ destroys fs →
  inv l' → heap l' = delete c (heap (base W)) → same_frame (base W) l' →
  winv false None fs [] (with_objects (delete c (objects W)) (with_base l' W)).
Proof.
  intros Hw Ho Hc Hi Hh (Hid & Htid & _ & Hev & _). rewrite (w_id _ _ _ _ _ Hw) in Hid. rewrite (w_tid _ _ _ _ _ Hw) in Htid.
  rewrite (w_flag _ _ _ _ _ Hw) in Hev. pose proof (winv_remove fs W c o l' Hw Ho Hi Hh Hid Htid Hev) as Hx.
  rewrite (delete_id (connections_ W)) in Hx; [exact Hx|]. eapply unmapped; [exact Hw | done|]. by rewrite phase_run, decide_True.
Qed.

Lemma release_ok fs f rest W c : dropping fs (f :: rest) W → holds f = Some c →
  safe (λ W', dropping fs rest W' ∧ spared fs W W') (release c rest W).
Proof.
  intros (Hw & Hr & [Hf Hq]%Forall_cons & Hl) Hc. unfold release.
  assert (is_Some (objects W !! c)) as [o Ho] by (destruct f as [? []|?|?|?]; cbn in Hf, Hc; simplify_eq; by (done || apply Hf)).
  assert (∀ c', c' ≠ c → is_Some (objects W !! c') → c' ∈ destroys fs → Exists (λ f, holds f = Some c') rest) as Hr'.
  { intros c' Hne Ho' Hd. specialize (Hr c' Ho' Hd). apply Exists_cons in Hr as [?|?]; [congruence | done]. }
  destruct (referenced c rest W) eqn:E.
  - split; [|split; [done|split; [apply steps_refl|done]]]. split; [done|]. split; [|done]. intros c' Ho' Hd. destruct (decide (c' = c)) as [->|Hne]; [|by apply Hr'].
    unfold referenced in E. apply orb_true_iff in E as [E|E].
    + exfalso. apply negb_true_iff, bool_decide_eq_false in E. apply E. intros fd c' Hfd ->.
      apply (w_map _ _ _ _ _ Hw) in Hfd as (_ & _ & _ & Hp). by rewrite phase_run, decide_True in Hp.
    + apply bool_decide_eq_true, Exists_app in E as [E|E]; [done|]. exfalso. apply Exists_exists in E as (g & Hg & Hh).
      rewrite Forall_forall in Hl. specialize (Hl g Hg). destruct g as [c' []|?|?|?]; cbn in Hl, Hh; try done; simplify_eq.
      destruct Hl as (_ & _ & Hp). by rewrite phase_run, decide_True in Hp.
  - apply orb_false_iff in E as [E1 E2]. apply negb_false_iff, bool_decide_eq_true in E1. apply bool_decide_eq_false in E2.
    assert (c ∈ destroys fs) as Hd.
    { destruct (decide (c ∈ destroys fs)) as [|Hn]; [done|]. exfalso. apply (E1 (sock o) c); [|done].
      apply (w_map _ _ _ _ _ Hw). exists o. split; [done|]. split; [done|]. by rewrite phase_run, decide_False. }
    destruct (w_conn _ _ _ _ _ Hw c o Ho) as (ev & Hh & _). rewrite phase_run, decide_True, (w_flag _ _ _ _ _ Hw) in Hh by done.
    destruct (dtor_held _ _ _ _ _ _ _ _ _ _ _ Hh) as (l' & Hx & Hi & Hheap & _ & Hframe).
    unfold object_at. rewrite Ho. cstep. rewrite Hx. cbn [mbind outcome_bind mret outcome_ret lp with_lp safe].
    assert (∀ c', c' ≠ c → is_Some (objects W !! c') → is_Some (delete c (objects W) !! c')) as Hdel.
    { intros c' Hne Ho'. by rewrite lookup_delete_ne. }
    split; [split; [by eapply winv_delete|split; [|split]]|split; [done|split]].
    + intros c' [o' Ho'] Hd'. cbn in Ho'. apply lookup_delete_Some in Ho' as [Hne Ho']. apply Hr'; [done | by exists o' | done].
    + apply Forall_forall. intros g Hg. rewrite Forall_forall in Hq. specialize (Hq g Hg). unfold queued in *. cbn.
      assert (holds g ≠ Some c) as Hgc by (intros Hx'; apply E2, Exists_app; left; apply Exists_exists; eauto).
      destruct g as [c' []|?|c'|c']; cbn in *; try (by destruct Hq); try done.
      * destruct Hq as [? ?]. split; [done|]. apply Hdel; [congruence | done].
      * apply Hdel; [congruence | done].
    + apply Forall_forall. intros g Hg. rewrite Forall_forall in Hl. specialize (Hl g Hg). unfold live_task in *. cbn.
      destruct g as [c' t|?|?|?]; try done. destruct Hl as (? & ? & Hp). split; [done|]. split; [|done]. apply Hdel; [|done].
      intros ->. by rewrite phase_run, decide_True in Hp.
    + destruct (h_chan Hh) as (ch & _ & Hok). destruct (channel_down _ _ _ _ _ _ _ Hok) as [Hs _]; [done|].
      eapply steps_release; [done | exact Hs|]. intros Hm. by apply (E1 (sock o) c).
    + intros c' Hc'. unfold socks. cbn. rewrite fmap_delete, lookup_delete_ne by congruence. done.
Qed.

Lemma drop_functors_ok fs rest W : dropping fs rest W →
  safe (λ W', dropping fs [] W' ∧ spared fs W W') (drop_functors rest W).
Proof.
  revert W. induction rest as [|f rest IH]; intros W Hd; cbn [drop_functors].
  { split; [done|]. split; [done|]. split; [apply steps_refl | done]. }
  destruct (holds f) as [c|] eqn:Hc.
  - eapply safe_bind; [by eapply release_ok|]. intros W1 _ [H1 S1]. eapply safe_mono; [by apply IH|].
    intros W2 _ [H2 S2]. split; [done | by eapply spared_trans].
  - exfalso. destruct Hd as (_ & _ & [Hf _]%Forall_cons & _). destruct f as [? []|?|?|?]; try done; by destruct Hf.
Qed.

(** ** A turn *)

(** Between two turns: every connection there is is being served. *)
Definition idle W : Prop := winv false None [] [] W ∧ Forall (live_task [] [] W) (pending_functors_ W).

Lemma live_destroys run due W fs : Forall (live_task run due W) fs → destroys fs = [].
Proof. induction 1 as [|f fs Hf _ IH]; [done|]. by destruct f. Qed.

Lemma live_queued run due W fs : Forall (live_task run due W) fs → Forall (queued W) fs.
Proof. intros Hf. eapply Forall_impl; [exact Hf|]. intros f. unfold live_task, queued. destruct f; naive_solver. Qed.

Lemma do_pending_functors_ok W : winv false None [] (pending_functors_ W) W → Forall (queued W) (pending_functors_ W) →
  safe (λ W', idle W' ∧ accepts W' = accepts W ∧ steps (pending_functors_ W) W [] W' ∧
          ∀ c, socks W' !! c = if decide (c ∈ destroys (pending_functors_ W)) then None else socks W !! c) (do_pending_functors W).
Proof.
  intros Hw Hq. unfold do_pending_functors. set (fs := pending_functors_ W) in *.
  assert (running [] fs (with_pending [] W)) as Hr by (split; [by destruct Hw; split | done]).
  eapply safe_bind; [by apply run_functors_ok|]. cbn [app]. intros W1 _ ((H1 & _ & Hl) & Ha & Hdom & _ & S1).
  assert (∀ c, is_Some (objects W !! c) → is_Some (objects W1 !! c)) as Hobj.
  { intros c. rewrite <- !socks_is_Some. by rewrite Hdom. }
  assert (dropping fs fs W1) as Hd.
  { split; [exact H1|]. split; [|split; [by eapply queued_mono | exact Hl]].
    intros c _ Hc. unfold destroys in Hc. apply list_elem_of_omap in Hc as (f & Hin & Hfc). apply Exists_exists. exists f.
    split; [done|]. by destruct f. }
  eapply safe_mono; [by apply drop_functors_ok|]. intros W2 _ [(H2 & Hgone & _ & Hl2) (Ha2 & S2 & Hkept)].
  assert (∀ c, is_Some (objects W2 !! c) → c ∉ destroys fs) as Hnone.
  { intros c Hc Hin. specialize (Hgone c Hc Hin). by apply Exists_nil in Hgone. }
  split; [split|split; [exact (eq_trans Ha2 Ha) | split; [by eapply steps_trans|]]].
  - eapply winv_phase; [exact H2| |constructor]. intros c Hc. rewrite !phase_run. rewrite decide_False by (by apply not_elem_of_nil).
    by rewrite decide_False by (by apply Hnone).
  - eapply live_task_mono; [| |exact Hl2]; [done|]. intros c _. rewrite phase_run. by rewrite decide_False by (by apply not_elem_of_nil).
  - intros c. destruct (decide (c ∈ destroys fs)) as [Hc|Hc]; [|by rewrite Hkept, Hdom].
    apply eq_None_not_Some. rewrite socks_is_Some. intros Ho. by apply (Hnone c).
Qed.

(** Between two turns only connections have functors waiting. *)
Lemma idle_tasks W : idle W → abs_server (pending_functors_ W) W = abs_server [] W.
Proof.
  intros [_ Hl]. unfold abs_server. f_equal. cbn. induction Hl as [|f fs Hf _ IH]; [done|]. by destruct f.
Qed.

(** What the kernel may answer to a server. *)
Definition answer_ok (r : wait_result) W : Prop :=
  admissible r (base W) ∧ ∀ ev c, reports r ev c → is_Some (objects W !! c) → hangup_ok ev.

Fixpoint answers_ok (rs : list wait_result) W : Prop :=
  match rs with
  | [] => True
  | r :: rs => answer_ok r W ∧ ∀ W', turn r W = Ok W' → answers_ok rs W'
  end.

Lemma idle_queue W : idle W → winv false None [] (pending_functors_ W) W.
Proof.
  intros [Hw Hl]. pose proof (live_destroys _ _ _ _ Hl) as Hd. eapply winv_phase; [exact Hw| |].
  - intros c _. unfold phase_of. by rewrite Hd.
  - rewrite app_nil_l, Hd. constructor.
Qed.

Lemma poll_serving r W : idle W → answer_ok r W →
  ∃ l active, poll r (base W) [] = Ok (l, active) ∧ NoDup active ∧
    let W1 := with_base (LoopTurn.begin_events active l) W in
    (serving None W1 ∧ Forall (ready W1) active) ∧
    (∀ ev q, reports r ev q → q ∈ active) ∧ (∀ q, q ∈ active → ∃ ev, reports r ev q ∧ revs W1 q = ev).
Proof.
  intros Hidle [Hr Hhup]. pose proof (idle_queue W Hidle) as Hw. destruct Hidle as [_ Hl].
  destruct (poll_ok r (base W) (w_inv _ _ _ _ _ Hw) Hr) as (l & active & Hp & Hnd & Hall & Hi & Hid & Htid & _ & Hout & Hin).
  exists l, active. split; [done|]. split; [done|]. cbv zeta. set (W1 := with_base _ W). split; [|split; [done|]]; cycle 1.
  { intros q Hq. destruct (Hin q Hq) as (ev & ch & Hrep & _ & _ & Hch'). exists ev. split; [done|]. unfold revs, look. cbn. by rewrite Hch'. }
  assert (∀ q ch, heap (base W) !! q = Some ch → ∃ ch', heap l !! q = Some ch' ∧ touched ch ch' ∧
    event_handling_ ch' = event_handling_ ch ∧ (q ∈ active → ∃ ev, reports r ev q ∧ revents_ ch' = ev)) as Htouch.
  { intros q ch Hch. destruct (decide (q ∈ active)) as [Hq|Hq].
    - destruct (Hin q Hq) as (ev & ch0 & Hrep & Hch0 & _ & Hch'). assert (ch0 = ch) as -> by congruence.
      exists (set_revents ev ch). split; [done|]. split; [done|]. split; [done|]. intros _. by exists ev.
    - exists ch. rewrite Hout by done. done. }
  assert (winv true None [] (pending_functors_ W) W1) as Hw1.
  { apply (winv_base false true None None [] (pending_functors_ W) _ W Hw); cbn; try done.
    - by apply (inv_flags l).
    - rewrite Hid. apply Hw.
    - rewrite Htid. apply Hw.
    - apply set_eq. intros q. rewrite !elem_of_dom. destruct (decide (q ∈ active)) as [Hq|Hq].
      + destruct (Hin q Hq) as (ev & ch0 & _ & Hch0 & _ & Hch'). by rewrite Hch0, Hch'.
      + by rewrite Hout.
    - intros q ch Hch. destruct (Htouch q ch Hch) as (ch' & ? & ? & Hh & _). exists ch'. split; [done|]. split; [done|].
      rewrite Hh. by apply (w_handling _ _ _ _ _ _ _ Hw). }
  split; [split; [exact Hw1|by eapply live_queued]|]. apply Forall_forall. intros q Hq.
  destruct (Hin q Hq) as (ev & ch & Hrep & Hch & _ & Hch').
  assert (q ∈ dom (heap (base W))) as Hd by (by eapply elem_of_dom_2). rewrite (w_dom _ _ _ _ _ Hw) in Hd.
  destruct (decide (q = wake)) as [|Hn1]; [by left|]. destruct (decide (q = pa)) as [|Hn2]; [by right; left|]. right; right.
  assert (is_Some (objects W !! q)) as [o Ho] by (apply elem_of_dom; set_solver).
  exists o, ev. split; [done|]. split; [by eapply Hhup|].
  destruct (w_conn _ _ _ _ _ Hw q o Ho) as (ev0 & Hc).
  assert (phase_of [] (pending_functors_ W) q = Live) as Hlv by (apply phase_live; rewrite (live_destroys _ _ _ _ Hl); split; apply not_elem_of_nil).
  rewrite Hlv in Hc. pose proof (conn_loop W W1 q o ev0 _ Live ch (set_revents ev ch) Hc) as Hx. cbn in Hx.
  rewrite (w_handling _ _ _ _ _ _ _ Hw Hch) in Hx. by apply Hx; try apply Hw1.
Qed.

(** What a turn does to the set of connections when the kernel answers [r]. *)
Record effects (r : wait_result) W W' : Prop := {
  x_steps : steps [] W [] W';
  x_stays : ∀ c, is_Some (objects W !! c) → (∀ ev, ¬ reports r ev c) → socks W' !! c = socks W !! c;
  x_gone : ∀ c ev, is_Some (objects W !! c) → reports r ev c → hung ev = true → socks W' !! c = None;
  x_same : ∀ c, is_Some (objects W !! c) → socks W' !! c = None ∨ socks W' !! c = socks W !! c;
  x_calls : accepts W' = accepts W ∨ accepts W' = S (accepts W);
  x_new : ∀ c fd, objects W !! c = None → socks W' !! c = Some fd →
    ∃ ev addr, reports r ev pa ∧ reading ev = true ∧ kaccept (accepts W) (open_fds W) = Socket.Accepted fd addr;
  x_accepts : ∀ ev fd addr, reports r ev pa → reading ev = true → kaccept (accepts W) (open_fds W) = Socket.Accepted fd addr →
    ∃ c, objects W !! c = None ∧ socks W' !! c = Some fd
}.

Lemma effects_intro r active W W1 W2 W' : idle W → serving None W1 → serving None W2 → admissible r (base W) →
  objects W1 = objects W → accepts W1 = accepts W → pending_functors_ W1 = pending_functors_ W → Forall (ready W1) active →
  (∀ ev q, reports r ev q → q ∈ active) → (∀ q, q ∈ active → ∃ ev, reports r ev q ∧ revs W1 q = ev) →
  dispatched active W1 W2 → accepts W' = accepts W2 → steps [] W [] W' →
  (∀ c, socks W' !! c = if decide (c ∈ destroys (pending_functors_ W2)) then None else socks W2 !! c) → effects r W W'.
Proof.
  intros [Hw Hl] [Hw1 _] [Hw2 _] Hadm Ho Ha Hp Hready Hall Hrevs [_ D2 D3 D4] Ha' Hst Hs'.
  assert (∀ ev q, reports r ev q → q ∈ active ∧ revs W1 q = ev) as Hrep.
  { intros ev q Hr. pose proof (Hall _ _ Hr) as Hin. split; [done|]. destruct (Hrevs q Hin) as (ev' & Hr' & ->).
    by eapply reports_unique. }
  assert (∀ c, c ∉ active → c ∉ destroys (pending_functors_ W2)) as Hquiet.
  { intros c Hc. rewrite D2, Hp, (live_destroys _ _ _ _ Hl) by done. apply not_elem_of_nil. }
  assert (socks W1 = socks W) as Hs by (unfold socks; by rewrite Ho).
  assert (open_fds W1 = open_fds W) as Hfds by (by rewrite (open_fds_socks _ _ _ _ _ Hw1), (open_fds_socks _ _ _ _ _ Hw), Hs).
  assert (∀ c, socks W !! c = None ↔ objects W !! c = None) as Hnone by (intros c; by rewrite !eq_None_not_Some, socks_is_Some).
  unfold arrives in D4. rewrite Hs, Ha, Hfds in D4.
  assert (∀ c, is_Some (objects W !! c) → socks W2 !! c = socks W !! c) as Hold.
  { intros c Hc. apply socks_is_Some in Hc. destruct (_ && _); [|by destruct D4 as [_ ->]].
    destruct D4 as [_ D4]. destruct (kaccept _ _); [|by rewrite D4]. destruct D4 as (c' & Hc' & ->).
    apply lookup_insert_ne. intros ->. rewrite Hc' in Hc. by destruct Hc. }
  split; [done|..].
  - intros c Hc Hr. rewrite Hs', decide_False; [by apply Hold|]. apply Hquiet. intros Hin. destruct (Hrevs c Hin) as (ev & Hev & _).
    by apply (Hr ev).
  - intros c ev Hc Hr Hev. rewrite Hs', decide_True; [done|]. destruct (Hrep _ _ Hr) as [Hin Hx]. apply D3; [done | by rewrite Ho | by rewrite Hx].
  - intros c Hc. rewrite Hs', Hold by done. destruct (decide (c ∈ destroys (pending_functors_ W2))); auto.
  - rewrite Ha'. destruct (_ && _); destruct D4 as [-> _]; auto.
  - intros c fd Hc Hfd. rewrite Hs' in Hfd. case_decide; [done|]. apply Hnone in Hc.
    destruct (_ && _) eqn:E; [|destruct D4 as [_ D4]; congruence]. apply andb_true_iff in E as [Hin Hr]. apply bool_decide_eq_true in Hin.
    destruct (Hrevs pa Hin) as (ev & Hev & Hx). rewrite Hx in Hr. destruct D4 as [_ D4].
    destruct (kaccept _ _) as [fd' addr|]; [|congruence]. destruct D4 as (c' & _ & Hs2). rewrite Hs2, lookup_insert_Some in Hfd.
    destruct Hfd as [[_ ->]|[_ Hfd]]; [|congruence]. by exists ev, addr.
  - intros ev fd addr Hev Hr Hk. destruct (Hrep _ _ Hev) as [Hin Hx]. rewrite bool_decide_true, Hx, Hr, Hk in D4 by done.
    destruct D4 as (_ & c & Hc & Hs2). apply Hnone in Hc. exists c. split; [done|]. rewrite Hs'.
    assert (socks W2 !! c = Some fd) as Hsc by (rewrite Hs2; by apply lookup_insert_eq).
    rewrite decide_False; [done|]. apply Hquiet. intros Hact. rewrite Forall_forall in Hready.
    assert (is_Some (objects W2 !! c)) as [o2 Ho2] by (apply socks_is_Some; by rewrite Hsc).
    destruct (object_not_side _ _ _ _ _ _ _ Hw2 Ho2) as [? ?].
    destruct (Hready c Hact) as [|[|(o & _ & Ho1 & _)]]; [done | done |]. congruence.
Qed.

(** The end of the dispatch. *)
Lemma dispatch_end W : serving None W → winv false None [] (pending_functors_ W) (with_base (LoopTurn.end_events (base W)) W).
Proof.
  intros [Hw _]. apply (winv_base true false None None [] (pending_functors_ W) _ W Hw); cbn; try apply Hw; try done.
  - apply (inv_flags (base W)); [apply Hw | done..].
  - intros q ch Hch. exists ch. split; [done|]. split; [done|]. by apply (w_handling _ _ _ _ _ _ _ Hw).
Qed.

Lemma turn_ok r W : idle W → answer_ok r W → Z.of_nat (accepts W) + 2 < 2 ^ 31 →
  safe (λ W', idle W' ∧ effects r W W') (turn r W).
Proof.
  intros Hidle Hr Hmax. destruct (poll_serving r W Hidle Hr) as (l & active & Hp & Hnd & [Hs Hready] & Hall & Hrevs).
  unfold turn. rewrite Hp. cbn [mbind outcome_bind]. set (W0 := with_base (LoopTurn.begin_events active l) W) in *.
  eapply safe_bind; [by apply handle_active_ok; [|split]|].
  intros W1 _ [H1 D]. set (W2 := with_base (LoopTurn.end_events (base W1)) W1).
  eapply safe_mono; [apply (do_pending_functors_ok W2); [exact (dispatch_end W1 H1) | exact (proj2 H1)]|].
  intros W' _ (? & Ha & S2 & Hs'). split; [done|].
  apply (effects_intro r active W W0 W1 W'); try done; [apply Hr|].
  apply (steps_trans _ _ (pending_functors_ W) W); [apply steps_same, (idle_tasks W Hidle) | exact (steps_trans _ _ _ _ _ _ (d_steps _ _ _ D) S2)].
Qed.

Lemma turns_ok rs W : idle W → answers_ok rs W → Z.of_nat (accepts W) + zlen rs + 2 < 2 ^ 31 →
  safe (λ W', idle W' ∧ steps [] W [] W' ∧ Z.of_nat (accepts W') <= Z.of_nat (accepts W) + zlen rs) (turns rs W).
Proof.
  revert W. induction rs as [|r rs IH]; intros W Hidle Hr Hmax; cbn [turns].
  { split; [done|]. split; [apply steps_refl|]. rewrite zlen_nil. lia. }
  destruct Hr as [Hr Hrs].
  rewrite zlen_cons in Hmax. pose proof (zlen_nonneg rs). eapply safe_bind; [apply turn_ok; [done | done | lia]|].
  intros W1 Hx [H1 He]. pose proof (x_steps _ _ _ He). pose proof (x_calls _ _ _ He).
  eapply safe_mono; [apply IH; [done | by apply Hrs | lia]|]. intros W2 _ (? & S2 & ?). split; [done|].
  split; [by eapply steps_trans | rewrite zlen_cons; lia].
Qed.

Lemma answers_app rs rs' W W' : answers_ok (rs ++ rs') W → turns rs W = Ok W' → answers_ok rs W ∧ answers_ok rs' W'.
Proof.
  revert W. induction rs as [|r rs IH]; intros W Hans Hx; cbn [turns] in Hx; [by injection Hx as <-|].
  destruct Hans as [Hr Hrs]. destruct (turn r W) as [W1|] eqn:E; [|done]. cbn [mbind outcome_bind] in Hx.
  destruct (IH W1 (Hrs W1 eq_refl) Hx) as [H1 H2]. split; [|done]. split; [done|]. intros W2 E2. by assert (W2 = W1) as -> by congruence.
Qed.

(** ** The start *)

(** The world after [start]. *)
Definition wakeup_channel : channel := mkChannel i wake_fd kReadEvent 0 kAdded false true false true false false false.

Lemma started_winv l a : wake ≠ pa → listen_fd ≠ wake_fd → inv l → id l = i → tid_ l = tid → event_handing_ l = false →
  heap l = <[pa := Acceptor.listening_channel i listen_fd]> {[wake := wakeup_channel]} →
  Acceptor.accept_channel_ a = pa ∧ Acceptor.has_callback a = true ∧ Acceptor.delivered a = [] ∧ Acceptor.listening_ a = true →
  winv false None [] [] (mkWorld l wake a (EventLoopThreadPool.mk i tid true 0 0 []) 1 1 ∅ ∅ [] 0).
Proof.
  intros Hne Hfd Hi Hid Htid Hev Hheap Ha. split; cbn; try done.
  - rewrite Hheap, dom_insert_L, dom_singleton_L, dom_empty_L. set_solver.
  - intros q Hq. split; [apply lookup_empty|]. rewrite Hheap. unfold side_ok. destruct Hq as [->| ->].
    + rewrite lookup_insert_ne by done. eexists. rewrite lookup_singleton_eq. split; [done|].
      by rewrite decide_True, bool_decide_false.
    + rewrite lookup_insert_eq. eexists. split; [done|]. by rewrite decide_False, bool_decide_false.
  - intros fd c. rewrite lookup_empty. split; [done|]. by intros (o & Ho & _).
  - intros p q d d'. rewrite Hheap, !lookup_insert_Some, !lookup_singleton_Some.
    intros [[<- <-]|(_ & <- & <-)] [[<- <-]|(_ & <- & <-)]; cbn; congruence.
  - constructor.
Qed.

Lemma server_starts (k : K) ret ret' addr reuse_port : (∀ fd, registered k fd = None) →
  wake_fd ≠ -1 → listen_fd ≠ -1 → listen_fd ≠ wake_fd → InetAddress.family addr ∈ [AF_INET; AF_INET6] → 0 <= ret → 0 <= ret' →
  pa = alloc {[wake]} →
  ∃ l W0 W, loop_ctor i tid k wake wake_fd = Ok l ∧ server_ctor l wake listen_fd ret addr reuse_port = Ok W0 ∧
    start ret' W0 = Ok W ∧ idle W ∧ accepts W = 0%nat ∧ TcpServer.exec (TcpServer.Start (λ _, 0%nat)) (TcpServer.ctor i) = Ok (abs_server [] W).
Proof.
  intros Hk Hwfd Hlfd Hne Hfam Hret Hret' Hpa.
  destruct (LoopLife.loop_ctor_ok tid i wake k wake_fd Hwfd Hk) as (l & Hl & (Hid & Hi & Hev & _) & Htid & Hheap).
  fold wakeup_channel in Hheap. assert (alloc (dom (heap l)) = pa) as Halloc by (rewrite Hheap, dom_singleton_L; done).
  assert (pa ≠ wake) as Hpw by (intros E; apply (alloc_ok {[wake]}); rewrite <- Hpa, E; by apply elem_of_singleton).
  assert (heap l !! pa = None) as Hfree by (by rewrite Hheap, lookup_singleton_ne).
  assert (channels_ l !! listen_fd = None) as Hchan.
  { destruct (channels_ l !! listen_fd) as [p|] eqn:E; [|done]. destruct (inv_map _ Hi _ _ E) as (c & Hc & Hf & _).
    rewrite Hheap in Hc. apply lookup_singleton_Some in Hc as [_ <-]. by rewrite <- Hf in Hne. }
  destruct (Acceptor.acceptor_ctor_ok l pa listen_fd ret addr reuse_port Hi Hfree Hlfd Hfam Hret) as [Hctor Hi0].
  set (l0 := with_heap l _) in *. set (sock := Acceptor.new_socket listen_fd reuse_port) in *.
  destruct (Acceptor.listen_ok l0 pa listen_fd ret' sock true tid Hi0) as (l1 & Hlis & Hi1 & (Hid1 & Htid1 & _ & Hev1 & _) & Hh1 & _);
    [apply lookup_insert_eq | done | by rewrite <- Htid | done |].
  cbn in Hid1, Htid1, Hev1. 
  assert (heap l1 = <[pa := Acceptor.listening_channel i listen_fd]> {[wake := wakeup_channel]}) as Hheap1
    by (rewrite Hh1; cbn; by rewrite insert_insert_eq, Hheap, Hid).
  exists l. do 2 eexists. split; [exact Hl|]. split; [unfold server_ctor; rewrite Halloc, Hctor; cstep; reflexivity|].
  split.
  { unfold start. cbn [started_ Z.eqb]. unfold EventLoopThreadPool.start, EventLoopThreadPool.in_base_thread.
    cbn [threadpool_ EventLoopThreadPool.started_ EventLoopThreadPool.base_tid EventLoopThreadPool.ctor].
    rewrite Htid, Z.eqb_refl. cstep. cbn [acceptor_ Acceptor.set_new_connection_callback Acceptor.listening_]. cstep.
    unfold the_acceptor, Acceptor.with_lp. cbn. cbn in Hlis. rewrite Hlis. cbn. reflexivity. }
  split; [|split; [done|]].
  2:{ unfold TcpServer.exec, TcpServer.perform, TcpServer.start. cbn. unfold EventLoopThreadPool.start, EventLoopThreadPool.in_base_thread.
    cbn. rewrite Z.eqb_refl. cbn. rewrite Hid. reflexivity. }
  split; [|constructor]. rewrite Hid. apply (started_winv l1); try done; cbn; congruence.
Qed.

(** ** The destructor *)

(** Nothing waits, and no connection is being shut down. *)
Definition settled_down W : Prop :=
  pending_functors_ W = [] ∧ ∀ c o, objects W !! c = Some o → state_ (body o) = kConnected.

Lemma server_destroys_one fd c W : winv false None [] [] W → settled_down W → connections_ W !! fd = Some c →
  safe (λ W', winv false None [] [] W' ∧ settled_down W' ∧ connections_ W' = delete fd (connections_ W))
    (W ← run_in_loop (Destroyed c) (with_connections (delete fd (connections_ W)) W); release c [] W).
Proof.
  intros Hw [Hq Hup] Hm. pose proof Hm as (o & Ho & <- & _)%(w_map _ _ _ _ _ Hw).
  unfold run_in_loop, in_base_thread, is_in_loop_thread. cbn [base with_connections]. rewrite (w_tid _ _ _ _ _ Hw), Z.eqb_refl.
  cbn [run_functor]. unfold member, object_at. cbn [objects with_connections]. rewrite Ho. cstep.
  destruct (w_conn _ _ _ _ _ Hw c o Ho) as (ev & Hh & _). rewrite phase_run, decide_False, (w_flag _ _ _ _ _ Hw) in Hh by (by apply not_elem_of_nil).
  cbn [bool_decide] in Hh. change (view o (with_connections _ W)) with (view o W).
  eapply (safe_bind (λ W1, ∃ w, held m tid c (sock o) i (delete c (heap (base W))) (state_ (body o)) ev 0 Removed false (false, false) w ∧
    queue w = [] ∧ W1 = put c o w (with_connections (delete (sock o) (connections_ W)) W))).
  { eapply safe_bind; [eapply (connect_destoryed_live _ conn_cb (kwrite_ok _)); [exact user_ok | exact Hh | by apply (Hup c) | done]|].
    intros w _ [H1 Hq1]. rewrite (h_told H1). cbn. by exists w. }
  intros W1 _ (w & H1 & Hq1 & ->). unfold release. set (W1 := put c o w _).
  destruct (held_heap _ _ _ _ _ _ _ _ _ _ H1) as (ch & Hheap & _).
  assert (referenced c [] W1 = false) as ->.
  { unfold referenced. cbn. rewrite Hq, Hq1. cbn. rewrite orb_false_r, bool_decide_true; [done|].
    intros fd c' Hfd ->. apply lookup_delete_Some in Hfd as [Hne Hfd]. apply (w_map _ _ _ _ _ Hw) in Hfd as (o' & Ho' & Hs & _). congruence. }
  unfold object_at. cbn [objects W1 put]. rewrite lookup_insert_eq. cstep. unfold view. cbn [base W1 put body]. rewrite view_put by done.
  destruct (dtor_held _ _ _ _ _ _ _ _ _ _ _ H1) as (l' & -> & Hi' & Hh' & _ & (Hid & Htid & _ & Hev & _)).
  cbn [mbind outcome_bind mret outcome_ret safe]. change (lp (with_lp l' w)) with l'.
  rewrite delete_insert_eq. assert (with_objects (delete c (objects (with_connections (delete (sock o) (connections_ W)) W))) (with_base l' W1) =
    with_pending [] (with_objects (delete c (objects W)) (with_base l' (with_connections (delete (sock o) (connections_ W)) W)))) as ->.
  { unfold W1, with_objects, with_base, with_pending, with_connections, put. cbn. by rewrite Hq, Hq1. }
  split; [|split; [split; [done|]|done]].
  - destruct (winv_remove [] W c o l' Hw Ho Hi') as [? ? ? ? ? ? ? ? ? ? ? ? ? ? ?]; [done|..|by split].
    + rewrite Hid. apply (h_id H1).
    + rewrite Htid. apply (h_tid H1).
    + rewrite Hev. apply (h_flag H1).
  - intros c' o' Ho'. cbn in Ho'. apply lookup_delete_Some in Ho' as [_ Ho']. by apply (Hup c').
Qed.

Lemma server_destroys_all entries W : winv false None [] [] W → settled_down W → NoDup (entries.*1) →
  (∀ fd c, connections_ W !! fd = Some c ↔ (fd, c) ∈ entries) →
  safe (λ W', winv false None [] [] W' ∧ settled_down W' ∧ connections_ W' = ∅) (destroy_all entries W).
Proof.
  revert W. induction entries as [|[fd c] entries IH]; intros W Hw Hd Hnd Hall; cbn [destroy_all].
  { split; [done|]. split; [done|]. apply map_empty. intros fd. apply eq_None_not_Some. intros [c Hc].
    apply Hall in Hc. by apply not_elem_of_nil in Hc. }
  cbn in Hnd. apply NoDup_cons in Hnd as [Hfd Hnd].
  assert (connections_ W !! fd = Some c) as Hm by (apply Hall; left). pose proof (server_destroys_one fd c W Hw Hd Hm) as H1.
  destruct (run_in_loop _ _) as [W1|]; [|exact H1]. cbn [mbind outcome_bind] in H1 |- *.
  eapply safe_bind; [exact H1|]. intros W2 _ (Hw2 & Hd2 & Hc2). apply IH; try done.
  intros fd' c'. rewrite Hc2, lookup_delete_Some, Hall, elem_of_cons. split.
  - intros [Hne [[= -> ->]|?]]; done.
  - intros Hin. split; [|by right]. intros ->. apply Hfd. exact (list_elem_of_fmap_2 fst entries (fd', c') Hin).
Qed.

Lemma server_dtor_ok W : idle W → settled_down W →
  safe (λ W', connections_ W' = ∅ ∧ objects W' = ∅ ∧ dom (heap (base W')) = {[wake]} ∧ inv (base W') ∧
          ∀ fd e q, registered (kernel (base W')) fd = Some (e, q) → fd = wake_fd) (server_dtor W).
Proof.
  intros [Hw _] Hd. unfold server_dtor, in_base_thread, is_in_loop_thread. rewrite (w_tid _ _ _ _ _ Hw), Z.eqb_refl. cstep.
  eapply safe_bind; [apply server_destroys_all; [done | done | |]|].
  - rewrite merge_sort_Permutation. apply NoDup_fst_map_to_list.
  - intros fd c. by rewrite merge_sort_Permutation, elem_of_map_to_list.
  - intros W1 _ (Hw1 & _ & Hc1). unfold Acceptor.dtor. destruct (w_acc _ _ _ _ _ Hw1) as [Hpa _].
    change (Acceptor.accept_channel_ (the_acceptor W1)) with (Acceptor.accept_channel_ (acceptor_ W1)). rewrite Hpa.
    change (Acceptor.lp (the_acceptor W1)) with (base W1).
    destruct (w_side _ _ _ _ _ Hw1 pa) as [_ (ch & Hch & Hlo & Hx & Hhd & _ & Hf & _)]; [by right|].
    rewrite bool_decide_false in Hhd by done.
    destruct (teardown_ok tid pa ch (base W1) (w_inv _ _ _ _ _ Hw1) Hch) as (l2 & l3 & l4 & -> & H3 & H4 & Hi4 & Hh4 & Hr4);
      [by rewrite (w_id _ _ _ _ _ Hw1) | symmetry; apply Hw1 | by rewrite Hx | done | by rewrite (w_flag _ _ _ _ _ Hw1) |].
    cstep. rewrite H3. cstep. rewrite H4. cbn.
    assert (objects W1 = ∅) as Hobj.
    { apply map_empty. intros c. apply eq_None_not_Some. intros [o Ho].
      assert (connections_ W1 !! sock o = Some c) as Hm; [|by rewrite Hc1 in Hm].
      apply (w_map _ _ _ _ _ Hw1). exists o. split; [done|]. split; [done|]. by rewrite phase_run, decide_False by (by apply not_elem_of_nil). }
    assert (dom (heap l4) = {[wake]}) as Hdom.
    { rewrite Hh4, dom_delete_L, (w_dom _ _ _ _ _ Hw1), Hobj, dom_empty_L. pose proof (w_ne _ _ _ _ _ Hw1). set_solver. }
    split_and!; try done. intros fd e q Hreg. destruct (inv_kernel _ Hi4 _ _ _ Hreg) as (d & Hd' & Hfd & _).
    assert (q = wake) as -> by (apply elem_of_dom_2 in Hd'; rewrite Hdom in Hd'; by apply elem_of_singleton in Hd').
    rewrite Hh4 in Hd'. apply lookup_delete_Some in Hd' as [_ Hd'].
    destruct (w_side _ _ _ _ _ Hw1 wake) as [_ (d' & Hd2 & _ & _ & _ & _ & Hf2 & _)]; [by left|].
    rewrite decide_True in Hf2 by done. congruence.
Qed.

(** ** Between two turns *)

Definition listens W : Prop :=
  registered (kernel (base W)) listen_fd = Some (kReadEvent, Acceptor.accept_channel_ (acceptor_ W)).

(** The map, the objects, the channels and the kernel agree, and every connection is being served. *)
Record in_service W : Prop := {
  s_map : ∀ fd c, connections_ W !! fd = Some c ↔ ∃ o, objects W !! c = Some o ∧ sock o = fd;
  s_channels : dom (heap (base W)) = {[wakeup_channel_ W; Acceptor.accept_channel_ (acceptor_ W)]} ∪ dom (objects W);
  s_kernel : ∀ fd e q, registered (kernel (base W)) fd = Some (e, q) → fd = wake_fd ∨ fd = listen_fd ∨ connections_ W !! fd = Some q;
  s_conn : ∀ c o, objects W !! c = Some o →
    (state_ (body o) = kConnected ∨ state_ (body o) = kDisconnecting) ∧
    (∃ e, registered (kernel (base W)) (sock o) = Some (e, c) ∧ has EPOLLIN e = true ∧
       (has EPOLLOUT e = true ↔ Buffer.contents (output_buffer_ (body o)) ≠ [])) ∧
    wire (body o) ++ Buffer.contents (output_buffer_ (body o)) = accepted (body o) ∧
    Buffer.contents (input_buffer_ (body o)) = [];
  s_functors : ∀ f, f ∈ pending_functors_ W → ∃ c, f = Task c TaskWriteComplete ∧ is_Some (objects W !! c);
  s_listen : listens W
}.

Lemma idle_in_service W : idle W → in_service W.
Proof.
  intros [Hw Hl]. destruct (w_acc _ _ _ _ _ Hw) as [Hpa _]. split.
  - intros fd c. rewrite (w_map _ _ _ _ _ Hw). split; [intros (o & ? & ? & _); by exists o | intros (o & ? & ?); exists o].
    split; [done|]. split; [done|]. by rewrite phase_run.
  - rewrite (w_wake _ _ _ _ _ Hw), Hpa. apply Hw.
  - intros fd e q Hr. destruct (inv_kernel _ (w_inv _ _ _ _ _ Hw) _ _ _ Hr) as (ch & Hch & Hf & _).
    assert (q ∈ dom (heap (base W))) as Hd by (by eapply elem_of_dom_2). rewrite (w_dom _ _ _ _ _ Hw) in Hd.
    destruct (objects W !! q) as [o|] eqn:Ho.
    + right; right. apply (w_map _ _ _ _ _ Hw). exists o. split; [done|]. rewrite phase_run. split; [|done].
      destruct (object_chan _ _ _ _ _ _ _ Hw Ho) as (ch' & Hch' & Hf'). congruence.
    + apply not_elem_of_dom in Ho. destruct (w_side _ _ _ _ _ Hw q) as [_ (ch' & Hch' & _ & _ & _ & _ & Hf' & _)]; [set_solver|].
      assert (ch' = ch) as -> by congruence. rewrite Hf in Hf'. case_decide; [by left | by right; left].
  - intros c o Ho. destruct (w_conn _ _ _ _ _ Hw c o Ho) as (ev & Hc). rewrite phase_run in Hc. cbn in Hc.
    destruct (conn_chan _ _ _ _ _ _ Hc) as (ch & Hch & Hlo & Hf & _ & _ & Hup & Hx & Hb). destruct Hc as [Hh Hci].
    split; [exact Hup|]. split; [|split; [apply (ci_stream _ (proj1 Hci))|]].
    + exists (events_ ch). split; [|split; [by apply epollin_bit|]].
      * rewrite <- Hf, (inv_registered _ c ch (w_inv _ _ _ _ _ Hw) Hch); [by rewrite Hx | by rewrite (w_id _ _ _ _ _ Hw) | by rewrite Hx].
      * apply (ci_watch _ (proj1 Hci)); [destruct Hup; congruence|]. unfold chan. cbn.
        change (channel_ (body o)) with (channel_ (view o W)). by rewrite (h_addr Hh).
    + destruct (h_in Hh) as (_ & Hz & _). by apply zlen_nil_inv.
  - intros f Hf. rewrite Forall_forall in Hl. specialize (Hl f Hf). destruct f as [c []|?|?|?]; try by destruct Hl.
    destruct Hl as (_ & ? & _). by exists c.
  - unfold listens. rewrite Hpa. destruct (w_side _ _ _ _ _ Hw pa) as [_ (ch & Hch & Hlo & Hx & _ & _ & Hf & He & _)]; [by right|].
    rewrite decide_False in Hf by (pose proof (w_ne _ _ _ _ _ Hw); congruence).
    rewrite <- Hf, (inv_registered _ pa ch (w_inv _ _ _ _ _ Hw) Hch); [by rewrite Hx, He | by rewrite (w_id _ _ _ _ _ Hw) | by rewrite Hx].
Qed.

(** What the connections are used for holds of each of them. *)
Lemma idle_law W c o : idle W → objects W !! c = Some o → J (body o).
Proof.
  intros [Hw _] Ho. destruct (w_conn _ _ _ _ _ Hw c o Ho) as (ev & _ & _ & Hj). eapply law_frame; [|exact Hj]. by repeat split.
Qed.

(** ** What a turn does to the map *)

Lemma idle_map W fd c : idle W → connections_ W !! fd = Some c ↔ socks W !! c = Some fd.
Proof.
  intros [Hw _]. rewrite (w_map _ _ _ _ _ Hw). unfold socks. rewrite lookup_fmap, fmap_Some. split.
  - intros (o & Ho & <- & _). eauto.
  - intros (o & Ho & ->). exists o. split; [done|]. split; [done|]. by rewrite phase_run, decide_False by (by apply not_elem_of_nil).
Qed.

Lemma idle_open W fd c : idle W → connections_ W !! fd = Some c → fd ∈ open_fds W ∧ fd ≠ wake_fd ∧ fd ≠ listen_fd.
Proof.
  intros Hi Hm. pose proof (proj1 Hi) as Hw. rewrite (open_fds_socks _ _ _ _ _ Hw). apply idle_map in Hm as Hs; [|done].
  split; [apply elem_of_union; right; apply elem_of_map_img; by exists c|].
  unfold socks in Hs. rewrite lookup_fmap in Hs. apply fmap_Some in Hs as (o & Ho & ->).
  destruct (object_chan _ _ _ _ _ _ _ Hw Ho) as (ch & Hch & Hf), (object_not_side _ _ _ _ _ _ _ Hw Ho) as [Hn1 Hn2].
  assert (∀ q, q = wake ∨ q = pa → q ≠ c → sock o ≠ if decide (q = wake) then wake_fd else listen_fd) as Hside.
  { intros q Hq Hne Hx. destruct (w_side _ _ _ _ _ Hw q Hq) as [_ (d & Hd & _ & _ & _ & _ & Hfd & _)].
    apply Hne. apply (w_fds _ _ _ _ _ Hw q c d ch); congruence. }
  pose proof (Hside wake (or_introl eq_refl) ltac:(done)) as Hx1. pose proof (Hside pa (or_intror eq_refl) ltac:(done)) as Hx2.
  rewrite decide_True in Hx1 by done. rewrite decide_False in Hx2 by (pose proof (w_ne _ _ _ _ _ Hw); congruence). done.
Qed.

(** The entries of the map that stay, go and come. *)
Definition map_effects (r : wait_result) W W' : Prop :=
  (∀ fd c, connections_ W !! fd = Some c → (∀ ev, ¬ reports r ev c) → connections_ W' !! fd = Some c) ∧
  (∀ fd c ev, connections_ W !! fd = Some c → reports r ev c → hung ev = true →
    connections_ W' !! fd = None ∧ objects W' !! c = None ∧ registered (kernel (base W')) fd = None) ∧
  (∀ fd c, connections_ W' !! fd = Some c → connections_ W !! fd = Some c ∨
    ∃ ev addr, reports r ev (Acceptor.accept_channel_ (acceptor_ W)) ∧ reading ev = true ∧
      kaccept (accepts W) (open_fds W) = Socket.Accepted fd addr) ∧
  (∀ ev fd addr, reports r ev (Acceptor.accept_channel_ (acceptor_ W)) → reading ev = true →
    kaccept (accepts W) (open_fds W) = Socket.Accepted fd addr → connections_ W !! fd = None ∧ is_Some (connections_ W' !! fd)).

Lemma effects_map r W W' : idle W → idle W' → effects r W W' → map_effects r W W'.
Proof.
  intros Hi Hi' [_ Hstay Hgone Hsame _ Hnew Hacc]. pose proof (idle_in_service W' Hi') as Hserv.
  destruct (w_acc _ _ _ _ _ (proj1 Hi)) as [Hpa _]. unfold map_effects. rewrite Hpa.
  assert (∀ fd c, connections_ W !! fd = Some c → is_Some (objects W !! c)) as Hobj.
  { intros fd c Hm%(idle_map W fd c Hi). apply socks_is_Some. by rewrite Hm. }
  assert (∀ fd c, connections_ W' !! fd = Some c → is_Some (objects W !! c) → connections_ W !! fd = Some c) as Hback.
  { intros fd c Hm%(idle_map W' fd c Hi') Ho. apply (idle_map W fd c Hi). by destruct (Hsame c Ho) as [|<-]; [congruence|]. }
  split; [|split; [|split]].
  - intros fd c Hm Hr. apply (idle_map W' fd c Hi'). rewrite Hstay by (done || by eapply Hobj). by apply (idle_map W fd c Hi).
  - intros fd c ev Hm Hr Hev. pose proof (Hgone c ev (Hobj _ _ Hm) Hr Hev) as Hc. destruct (idle_open W fd c Hi Hm) as (Hopen & Hn1 & Hn2).
    assert (connections_ W' !! fd = None) as Hm'.
    { apply eq_None_not_Some. intros [c' Hm']. destruct (objects W !! c') as [o'|] eqn:Ho'.
      - assert (c' = c) as -> by (pose proof (Hback fd c' Hm' ltac:(by rewrite Ho')); congruence).
        apply (idle_map W' fd c Hi') in Hm'. congruence.
      - apply (idle_map W' fd c' Hi') in Hm'. destruct (Hnew c' fd Ho' Hm') as (ev' & addr & _ & _ & Hk).
        destruct (kaccept_ok (accepts W) (open_fds W)) as [_ Hfresh]. by apply (Hfresh fd addr Hk). }
    split; [done|]. split; [apply eq_None_not_Some; rewrite <- socks_is_Some, Hc; by intros [? ?]|].
    apply eq_None_not_Some. intros [[e q] Hreg]. destruct (s_kernel _ Hserv fd e q Hreg) as [|[|?]]; [done | done | congruence].
  - intros fd c Hm. destruct (objects W !! c) as [o|] eqn:Ho; [left; apply Hback; [done | by rewrite Ho]|right].
    apply (idle_map W' fd c Hi') in Hm. by apply (Hnew c fd Ho).
  - intros ev fd addr Hr Hev Hk. destruct (Hacc ev fd addr Hr Hev Hk) as (c & Hc & Hs). apply (idle_map W' fd c Hi') in Hs. split.
    + apply eq_None_not_Some. intros [c' Hm]. destruct (idle_open W fd c' Hi Hm) as [Hopen _].
      destruct (kaccept_ok (accepts W) (open_fds W)) as [_ Hfresh]. by apply (Hfresh fd addr Hk).
    + by eexists.
Qed.

End Server.

End ServerLoop.
