(* ===== verification/Service.v ===== *)
(** * The whole server

    The theorems about a server in one thread, from the constructors of its loop and its acceptor
    over any number of turns to its destructor: the functions of the file ServerLoop put together
    the way a program with a server does ([src/test/test_server.cc] without threads). *)

From S2P Require Import Prelude NetBuffer Reactor Connection ConnSafe LoopTurn ThreadPool TcpServer Acceptor ServerLoop.

Module Service.
Import TcpConnection ServerLoop.

Section Service.
Context {K : Type} `{EpollKernel K}.
Context (kwrite : Z → nat → Z → sysret) (kreadv : Z → nat → Z → Buffer.readv_result).
Context (kaccept : nat → gset Z → Socket.accept_result).
Context (cb : callbacks) (m : gmap nat (list byte)) (tid : Z) (alloc : gset nat → nat).
Hypothesis kwrite_ok : ∀ n t len k, kwrite n t len = SysOk k → 0 <= k <= len.
Hypothesis kreadv_ok : ∀ n t room data, 0 <= room → kreadv n t room = Buffer.ReadvData data →
  zlen data <= room ∧ zlen data < Buffer.kExtraBuf.
Hypothesis kaccept_ok : ∀ t fds, Acceptor.tolerated (kaccept t fds) ∧
  ∀ fd addr, kaccept t fds = Socket.Accepted fd addr → fd ∉ fds.
Hypothesis user_ok : ConnSafe.callbacks_ok cb m.
Hypothesis alloc_ok : ∀ S, alloc S ∉ S.

Lemma conn_cb_ok : ConnSafe.callbacks_ok (conn_cb cb) m.
Proof. rewrite conn_cb_eq. by destruct user_ok. Qed.

Notation with_kernel J law lemma := (lemma kwrite kreadv kaccept cb m tid alloc kwrite_ok kreadv_ok kaccept_ok conn_cb_ok alloc_ok J law).
Notation turn := (turn kwrite kreadv kaccept cb m tid alloc).
Notation turns := (turns kwrite kreadv kaccept cb m tid alloc).
Notation answers_ok := (answers_ok kwrite kreadv kaccept cb m tid alloc).

(** The addresses of the loop and its wakeup channel, the descriptors of eventfd and socket, and the
    results of [bind] and [listen]. *)
Context (i wake : nat) (wake_fd listen_fd ret ret' : Z) (k : K) (addr : InetAddress.t) (reuse_port : bool).
Hypothesis nothing_registered : ∀ fd, registered k fd = None.
Hypothesis wake_fd_ok : wake_fd ≠ -1.
Hypothesis listen_fd_ok : listen_fd ≠ -1 ∧ listen_fd ≠ wake_fd.
Hypothesis family_ok : InetAddress.family addr ∈ [AF_INET; AF_INET6].
Hypothesis results_ok : 0 <= ret ∧ 0 <= ret'.

(** A loop, a server on it, and [TcpServer::start]. *)
Definition boot : outcome (world K) :=
  l ← loop_ctor i tid k wake wake_fd;
  W ← server_ctor alloc l wake listen_fd ret addr reuse_port;
  start tid ret' W.

Notation idle J := (idle cb m tid J i wake (alloc {[wake]}) wake_fd listen_fd).
Notation steps := (steps i).

Section Law.
Context (J : conn K → Prop) {law : ConnSafe.ConnLaw kwrite kreadv (conn_cb cb) tid J}.

Lemma boot_ok : ∃ W, boot = Ok W ∧ idle J W ∧ accepts W = 0%nat ∧
  TcpServer.exec (TcpServer.Start (λ _, 0%nat)) (TcpServer.ctor i) = Ok (abs_server i [] W).
Proof.
  destruct listen_fd_ok, results_ok.
  destruct (with_kernel J law (@server_starts K _) i wake (alloc {[wake]}) wake_fd listen_fd k ret ret' addr reuse_port)
    as (l & W0 & W & Hl & HC & HS & Hidle & Ha & Hs); [done..|].
  exists W. split; [|done]. unfold boot. rewrite Hl. cbn [mbind outcome_bind]. rewrite HC. exact HS.
Qed.

Lemma boot_turns rs W : zlen rs + 2 < 2 ^ 31 → boot = Ok W → answers_ok rs W →
  safe (λ W', idle J W' ∧ steps [] W [] W' ∧ Z.of_nat (accepts W') <= zlen rs) (turns rs W).
Proof.
  intros Hrs HW Hans. destruct boot_ok as (W1 & HW1 & Hidle & Ha & _). assert (W1 = W) as -> by congruence.
  pose proof (with_kernel J law (@turns_ok K _) i wake (alloc {[wake]}) wake_fd listen_fd rs W Hidle Hans) as Hx. rewrite Ha in Hx. by apply Hx.
Qed.

(** From the start, after every number of turns. *)
Lemma boot_serves rs : zlen rs + 2 < 2 ^ 31 →
  ∃ W, boot = Ok W ∧ (answers_ok rs W →
    safe (λ W', in_service wake_fd listen_fd W' ∧ ∀ c o, objects W' !! c = Some o → J (body o)) (turns rs W)).
Proof.
  intros Hrs. destruct boot_ok as (W & HW & _). exists W. split; [done|]. intros Hans.
  eapply safe_mono; [by apply (boot_turns rs W)|]. intros W' _ [H' _]. split.
  - by apply (with_kernel J law (@idle_in_service K _) i wake (alloc {[wake]})).
  - intros c o. by eapply idle_law.
Qed.
End Law.

(** The connections of any server: nothing but the class invariant. *)
Notation any := (λ _ : conn K, True).


(** C3. The server on its loop refines the server of the file TcpServer.  Every run of turns, seen
    as the map, the connection objects with their states, the pool, the counters and the functors
    that wait, is a run of that abstract server which starts with its constructor and [start] and
    goes on with accepts, hang-ups, functors, the user's shutdowns and the end of connections: what
    the detailed functions of acceptor, connections, channels and loop do to the server is what its
    steps say, in an order its guards allow. *)
Theorem server_refines rs W : zlen rs + 2 < 2 ^ 31 → boot = Ok W → answers_ok rs W →
  safe (λ W', ∃ ls, TcpServer.run (TcpServer.Start (λ _, 0%nat) :: ls) (TcpServer.ctor i) = Ok (abs_server i [] W')) (turns rs W).
Proof.
  intros Hrs HW Hans. destruct (boot_ok any) as (W1 & HW1 & _ & _ & Hstart). assert (W1 = W) as -> by congruence.
  eapply safe_mono; [by apply (boot_turns any rs W)|].
  intros W' _ (_ & [ls Hls] & _). exists ls. cbn [TcpServer.run]. by rewrite Hstart.
Qed.

(** C4. What a turn does to the connections, whatever happened before.  An entry of the map whose
    channel the kernel does not report stays; one whose channel reports a hang-up is gone at the end
    of the turn, its connection destroyed and its descriptor off the kernel's list; a new entry is
    one that [accept4] has yielded because the kernel reported the listening socket; and what it
    yields is in the map at the end of the turn, under a descriptor that was not there before. *)
Theorem turn_effects rs r W W1 W2 : zlen rs + 3 < 2 ^ 31 → boot = Ok W → answers_ok (rs ++ [r]) W →
  turns rs W = Ok W1 → turn r W1 = Ok W2 → map_effects kaccept r W1 W2.
Proof.
  intros Hrs HW Hans H1 H2. apply answers_app with (1 := Hans) in H1 as Hans'. destruct Hans' as [Hans1 [Hr _]].
  pose proof (boot_turns any rs W ltac:(lia) HW Hans1) as Hs. rewrite H1 in Hs. destruct Hs as (Hidle & _ & Ha).
  pose proof (with_kernel any (ConnSafe.law_true _ _ _ _) (@turn_ok K _) i wake (alloc {[wake]}) wake_fd listen_fd r W1 Hidle Hr ltac:(lia)) as Ht.
  rewrite H2 in Ht. destruct Ht as [Hidle2 He]. by eapply (with_kernel any (ConnSafe.law_true _ _ _ _) (@effects_map K _) i wake (alloc {[wake]}) wake_fd listen_fd).
Qed.

(** C20. The end of a server.  When no functor waits and no connection is being shut down, its
    destructor passes every assertion, destroys every connection and the acceptor, and leaves the
    loop with its wakeup channel alone. *)
Theorem server_ends rs W W1 : zlen rs + 2 < 2 ^ 31 → boot = Ok W → answers_ok rs W →
  turns rs W = Ok W1 → settled_down W1 →
  safe (λ W2, connections_ W2 = ∅ ∧ objects W2 = ∅ ∧ dom (heap (base W2)) = {[wake]} ∧ inv (base W2) ∧
          ∀ fd e q, registered (kernel (base W2)) fd = Some (e, q) → fd = wake_fd) (server_dtor kwrite cb tid W1).
Proof.
  intros Hrs HW Hans H1 Hd. pose proof (boot_turns any rs W Hrs HW Hans) as Hs. rewrite H1 in Hs. destruct Hs as [Hidle _].
  by apply (with_kernel any (ConnSafe.law_true _ _ _ _) (@server_dtor_ok K _) i wake (alloc {[wake]}) wake_fd listen_fd).
Qed.

End Service.

(** ** Witness: two connections are accepted, one of them is echoed to and hung up on *)

Definition next_address (X : gset nat) : nat := S (foldr max 0%nat (elements X)).

Lemma next_address_ok X : next_address X ∉ X.
Proof.
  intros Hin. apply elem_of_elements in Hin. unfold next_address in Hin.
  assert (∀ l (x : nat), x ∈ l → (x <= foldr max 0 l)%nat) as Hmax; [|specialize (Hmax _ _ Hin); lia].
  induction l as [|y l IH]; intros x Hx; [by apply not_elem_of_nil in Hx|]. cbn. apply elem_of_cons in Hx as [->|Hx]; [lia|].
  specialize (IH x Hx). lia.
Qed.

Definition demo_addr : InetAddress.t := InetAddress.mk AF_INET 0 [x00] [].

Definition demo_accept (t : nat) (fds : gset Z) : Socket.accept_result :=
  if (t <? 2)%nat then Socket.Accepted (foldr Z.max 0 (elements fds) + 1) demo_addr else Socket.AcceptErr Socket.EAGAIN.

Lemma demo_accept_ok t fds : Acceptor.tolerated (demo_accept t fds) ∧
  ∀ fd addr, demo_accept t fds = Socket.Accepted fd addr → fd ∉ fds.
Proof.
  assert (∀ x, x ∈ fds → x <= foldr Z.max 0 (elements fds)) as Hmax.
  { intros x0 Hx0%elem_of_elements. revert x0 Hx0. induction (elements fds) as [|y l IH]; intros x Hx; [by apply not_elem_of_nil in Hx|]. cbn.
    apply elem_of_cons in Hx as [->|Hx]; [lia|]. specialize (IH x Hx). lia. }
  assert (0 <= foldr Z.max 0 (elements fds)) by (clear; induction (elements fds); cbn; lia).
  unfold demo_accept. destruct (_ <? _)%nat; (split; [|intros fd addr]).
  - cbn. lia.
  - intros [= <- <-] Hin. specialize (Hmax _ Hin). lia.
  - unfold Acceptor.tolerated. apply elem_of_app. left. left.
  - done.
Qed.

Definition demo_writes (n : Z) : nat → Z → sysret := demo_write.

(** The first connection gets three bytes. *)
Definition demo_reads (n : Z) (t : nat) (room : Z) : Buffer.readv_result :=
  if bool_decide (n = 1) then LoopTurn.demo_read t room else Buffer.ReadvData [].

Lemma demo_reads_ok n t room data : 0 <= room → demo_reads n t room = Buffer.ReadvData data →
  zlen data <= room ∧ zlen data < Buffer.kExtraBuf.
Proof.
  intros Hr. unfold demo_reads. case_bool_decide; [by apply LoopTurn.demo_read_ok|]. intros [= <-].
  unfold Buffer.kExtraBuf. rewrite zlen_nil. lia.
Qed.

Definition demo_rounds : list wait_result :=
  [WaitEvents [(EPOLLIN, 2%nat)]; WaitEvents [(EPOLLIN, 3%nat); (EPOLLIN, 2%nat)]; WaitErr 4;
   WaitEvents [(EPOLLHUP, 3%nat); (EPOLLOUT, 4%nat)]].

Definition no_world : world (gmap Z epoll_event) :=
  mkWorld demo_loop 0 (Acceptor.mk demo_loop false (Socket.mk 0 ∅ false) 0 false [] []) (EventLoopThreadPool.ctor 0 0)
    0 0 ∅ ∅ [] 0.

Notation on_demo f := (f demo_writes demo_reads demo_accept LoopTurn.echo demo_mem 7 next_address).

Definition demo_server : world (gmap Z epoll_event) :=
  LoopTurn.value no_world (boot 7 next_address 0 1 5 6 0 0 ∅ demo_addr true).

Definition demo_after (n : nat) : world (gmap Z epoll_event) :=
  LoopTurn.value no_world (on_demo turns (take n demo_rounds) demo_server).

Lemma server_answer_events (evs : list epoll_event) (fds : list Z) (W : world (gmap Z epoll_event)) :
  Forall2 (λ (e : epoll_event) fd, is_Some (registered (kernel (base W)) fd) ∧ snd <$> registered (kernel (base W)) fd = Some e.2) evs fds →
  NoDup (evs.*2) → zlen evs <= events_size (base W) < 2 ^ 63 → Forall (λ e : epoll_event, hangup_ok e.1) evs →
  answer_ok (WaitEvents evs) W.
Proof.
  intros Hreg Hnd Hz Hhup. split; [by eapply admissible_events|].
  intros ev c Hin _. rewrite Forall_forall in Hhup. exact (Hhup _ Hin).
Qed.

Ltac check_answer fds :=
  solve [ apply (server_answer_events _ fds);
    [ repeat (constructor; [split; vm_compute; [eexists|]; reflexivity|]); constructor
    | apply (bool_decide_unpack _); vm_compute; reflexivity
    | split; vm_compute; [discriminate | reflexivity]
    | repeat (constructor; [reflexivity|]); constructor ] ].

Lemma server_demo_step n r :
  LoopTurn.value no_world (on_demo turn r (demo_after n)) = demo_after (S n) →
  ∀ W', on_demo turn r (demo_after n) = Ok W' → W' = demo_after (S n).
Proof. intros Hv W' HW'. rewrite HW' in Hv. exact Hv. Qed.

Lemma server_demo_answers : on_demo answers_ok demo_rounds demo_server.
Proof.
  change demo_server with (demo_after 0).
  repeat match goal with
  | |- answers_ok _ _ _ _ _ _ _ _ (demo_after ?n) =>
      split; [|intros W' HW'; apply (server_demo_step n) in HW' as ->; [|vm_compute; reflexivity]]
  end; try exact I.
  all: first [ solve [split; [exact I | intros ev c []]] | check_answer [6] | check_answer [7; 6] | check_answer [7; 8] ].
Qed.

Lemma demo_boot : boot 7 next_address 0 1 5 6 0 0 (∅ : gmap Z epoll_event) demo_addr true = Ok demo_server.
Proof. vm_compute. reflexivity. Qed.

Lemma demo_turns n : (n <=? 4)%nat = true → on_demo turns (take n demo_rounds) demo_server = Ok (demo_after n).
Proof. destruct n as [|[|[|[|[|n]]]]]; [intros _; vm_compute; reflexivity..|intros Hn; discriminate Hn]. Qed.

(** What the kernel and the user of the demonstration keep to. *)
Notation with_demo f := (f demo_writes demo_reads demo_accept LoopTurn.echo demo_mem 7 next_address (λ n, demo_write_ok)
  demo_reads_ok demo_accept_ok LoopTurn.echo_ok next_address_ok 0%nat 1%nat 5 6 0 0 ∅ demo_addr true demo_registered).


Lemma server_refines_witness :
  ∃ ls, TcpServer.run (TcpServer.Start (λ _, 0%nat) :: ls) (TcpServer.ctor 0) = Ok (abs_server 0 [] (demo_after 4)).
Proof.
  pose proof (with_demo server_refines ltac:(discriminate) ltac:(split; discriminate) ltac:(left) ltac:(split; lia) demo_rounds demo_server
    ltac:(reflexivity) demo_boot server_demo_answers) as Hs.
  pose proof (demo_turns 4 eq_refl) as H4. change (take 4 demo_rounds) with demo_rounds in H4. rewrite H4 in Hs. exact Hs.
Defined.

(** The hang-up of the first connection. *)
Lemma turn_effects_witness :
  connections_ (demo_after 3) = {[7 := 3%nat; 8 := 4%nat]} ∧ connections_ (demo_after 4) = {[8 := 4%nat]} ∧
  map_effects demo_accept (WaitEvents [(EPOLLHUP, 3%nat); (EPOLLOUT, 4%nat)]) (demo_after 3) (demo_after 4).
Proof.
  split; [vm_compute; reflexivity|]. split; [vm_compute; reflexivity|].
  apply (with_demo turn_effects ltac:(discriminate) ltac:(split; discriminate) ltac:(left) ltac:(split; lia) (take 3 demo_rounds) _ demo_server).
  - reflexivity.
  - exact demo_boot.
  - exact server_demo_answers.
  - exact (demo_turns 3 eq_refl).
  - vm_compute. reflexivity.
Defined.

Lemma server_ends_witness :
  ∃ W2, on_demo turns demo_rounds demo_server = Ok (demo_after 4) ∧ server_dtor demo_writes LoopTurn.echo 7 (demo_after 4) = Ok W2 ∧
    connections_ W2 = ∅ ∧ dom (heap (base W2)) = {[1%nat]}.
Proof.
  pose proof (demo_turns 4 eq_refl) as H4. change (take 4 demo_rounds) with demo_rounds in H4.
  pose proof (with_demo server_ends ltac:(discriminate) ltac:(split; discriminate) ltac:(left) ltac:(split; lia) demo_rounds demo_server
    (demo_after 4) ltac:(reflexivity) demo_boot server_demo_answers H4) as Hs.
  assert (server_dtor demo_writes LoopTurn.echo 7 (demo_after 4) = Ok (LoopTurn.value no_world (server_dtor demo_writes LoopTurn.echo 7 (demo_after 4)))) as Hd
    by (vm_compute; reflexivity).
  rewrite Hd in Hs. eexists. split; [exact H4|]. split; [exact Hd|]. destruct Hs as (H1 & _ & H2 & _); [|split; [exact H1 | exact H2]].
  split; [vm_compute; reflexivity|].
  assert (map_Forall (λ _ o, state_ (body o) = kConnected) (objects (demo_after 4))) as Hall; [|exact Hall].
  apply (bool_decide_unpack _). vm_compute. reflexivity.
Defined.
End Service.
