(* ===== verification/Echo.v ===== *)
(** * The echo server ([src/test/test_server.cc])

    The program the repository comes with: a class that sends back what it receives.  The server is
    that of the file ServerLoop, in one thread: [set_thread_num] is not called here, and the log
    statements are left out.  Its callbacks are calls on a connection in the sense of the file Connection;
    its property of a connection is an instance of the interface [ConnLaw] of the file ConnSafe, so
    the theorems of the file Service about any server carry it through every turn of the loop. *)

From S2P Require Import Prelude NetBuffer Reactor Connection ConnSafe LoopTurn ThreadPool TcpServer Acceptor ServerLoop Service.

Module EchoServer.
Import TcpConnection ConnSafe.

(** [EchoServer::handle_connect] only logs. *)
Definition handle_connect (up : bool) : list action := [].

(** [EchoServer::handle_message]: [msg] holds all readable bytes, which [retrieve_all_as_string]
    retrieves, and is sent. *)
Definition handle_message (bs : list byte) : list action :=
  let msg := bs in [Consume (zlen bs); SendLocal msg].

(** The callbacks [EchoServer::EchoServer] sets on its server. *)
Definition callbacks : TcpConnection.callbacks :=
  set_message_callback (Some handle_message) (set_connection_callback (Some handle_connect) no_callbacks).

Lemma callbacks_safe m : callbacks_ok callbacks m.
Proof.
  split.
  - intros f b [= <-]. by split.
  - exists handle_message. split; [done|]. intros bs Hbs. pose proof (zlen_nonneg bs). split; [|cbn; lia].
    repeat constructor; cbn; [lia|]. unfold Buffer.kExtraBuf, kMaxObject in *. lia.
  - done.
Qed.

Section Echo.
Context {K : Type} `{EpollKernel K}.
Context (kwrite : Z → nat → Z → sysret) (kreadv : Z → nat → Z → Buffer.readv_result) (tid : Z).
Hypothesis kwrite_ok : ∀ n t len k, kwrite n t len = SysOk k → 0 <= k <= len.
Hypothesis kreadv_ok : ∀ n t room data, 0 <= room → kreadv n t room = Buffer.ReadvData data →
  zlen data <= room ∧ zlen data < Buffer.kExtraBuf.
Implicit Types w : conn K.

Notation user := (ServerLoop.conn_cb callbacks).

(** Writes fail only because there is no room. *)
Definition no_faults : Prop := ∀ n t len e, kwrite n t len = SysErr e → e = EWOULDBLOCK.

(** ** What echoing means for a connection *)

(** What was accepted for sending are parts of what was received, in order; unless a write fails it
    is a first part of it, and all of it as long as the connection is up. *)
Record echoing w : Prop := {
  e_parts : accepted w `sublist_of` received w;
  e_all : no_faults → accepted w `prefix_of` received w ∧ (state_ w ≠ kDisconnected → accepted w = received w);
  e_open : state_ w ≠ kDisconnecting
}.

(** A step that sends and receives nothing. *)
Lemma echoing_quiet w w' : echoing w → accepted w' = accepted w → received w' = received w →
  state_ w' = state_ w ∨ (state_ w = kConnecting ∧ state_ w' = kConnected) ∨ state_ w' = kDisconnected → echoing w'.
Proof.
  intros [Hp Ha Ho] Ea Er Hs. split; rewrite ?Ea, ?Er; try done.
  - intros Hn. destruct (Ha Hn) as [? Heq]. split; [done|]. intros Hd. apply Heq. destruct Hs as [<-|[[-> _]|?]]; done.
  - destruct Hs as [->|[[_ ->]| ->]]; done.
Qed.

(** A step that receives [bs] and sends it back, unless the write fails or the connection is closed. *)
Lemma echoing_message w w' bs (b : bool) : echoing w → received w' = received w ++ bs →
  accepted w' = accepted w ++ (if b then bs else []) → state_ w' = state_ w →
  (no_faults → state_ w ≠ kDisconnected → b = true) → (state_ w = kDisconnected → b = false) → echoing w'.
Proof.
  intros [Hp Ha Ho] Er Ea Hs Hb Hd. split; rewrite ?Hs; try done.
  - rewrite Ea, Er. apply sublist_app; [done|]. destruct b; [done | apply sublist_nil_l].
  - intros Hn. destruct (Ha Hn) as [Hpre Heq]. rewrite Ea, Er. destruct (decide (state_ w = kDisconnected)) as [Hs'|Hs'].
    + rewrite (Hd Hs'), app_nil_r. split; [by apply prefix_app_r | done].
    + rewrite (Hb Hn Hs'), (Heq Hs'). done.
Qed.

(** ** Every event of a connection keeps it *)

Lemma on_channel_lp o w w' : on_channel tid o w = Ok w' → ∃ l, w' = with_lp l w.
Proof.
  unfold on_channel. destruct (exec tid o (channel_ w) (lp w)) as [l|]; [|done]. intros [= <-]. by exists l.
Qed.

(** Closing takes the channel's events away and tells the server. *)
Lemma handle_close_echoing n w w' : handle_close (kwrite n) user tid w = Ok w' → echoing w → echoing w'.
Proof.
  unfold handle_close. intros Hx He. destruct (in_loop tid w); [bstep Hx | done]. destruct (_ || _); [bstep Hx | done].
  destruct (on_channel tid DisableAll _) as [w1|] eqn:Ho; [bstep Hx | done]. apply on_channel_lp in Ho as [l ->].
  injection Hx as <-. apply (echoing_quiet w); [done..|]. by right; right.
Qed.

Lemma send_local_echoing n data w0 w w' : send_local (kwrite n) user tid data w = Ok w' → in_loop tid w = true →
  zlen data < Buffer.kExtraBuf → state_ w ≠ kConnecting → received w = received w0 ++ data → accepted w = accepted w0 →
  state_ w = state_ w0 → echoing w0 → echoing w'.
Proof.
  unfold send_local. set (buf := fresh (dom (mem w))). set (w1 := with_mem _ w). intros Hx Hin Hz Hc Hr Ha Hs He.
  destruct (send _ _ _ _ _ w1) as [w2|] eqn:Hsend; [bstep Hx | done]. injection Hx as <-.
  destruct (send_keeps _ _ _ _ _ _ _ Hsend) as (_ & Hr2 & _ & Hs2 & _).
  assert (∃ b : bool, accepted w2 = accepted w ++ (if b then data else []) ∧
    (no_faults → state_ w0 ≠ kDisconnected → b = true) ∧ (state_ w0 = kDisconnected → b = false)) as (b & Hb & Hb1 & Hb2).
  { unfold send in Hsend. change (state_ w1) with (state_ w) in Hsend. rewrite Hs in Hsend. case_decide as Hd.
    - change (in_loop tid w1) with (in_loop tid w) in Hsend. rewrite Hin in Hsend.
      destruct (send_in_loop_result _ _ (kwrite_ok n) _ _ data _ _ Hsend) as (b & Hb & Hclean);
        [change (state_ w ≠ kDisconnected); congruence | apply lookup_insert_eq | unfold Buffer.kExtraBuf, kMaxObject in *; lia|].
      exists b. split; [done|]. split; [|congruence]. intros Hn _. apply Hclean. intros t len e. apply Hn.
    - injection Hsend as <-. exists false. split; [by rewrite app_nil_r|]. split; [|done]. intros _ Hd'.
      pose proof (e_open _ He). destruct (state_ w0) eqn:E; congruence. }
  apply (echoing_message w0 _ data b); try done; cbn.
  - rewrite Hr2. exact Hr.
  - by rewrite Hb, Ha.
  - rewrite Hs2. exact Hs.
Qed.

Lemma handle_read_echoing n w w' : handle_read (kwrite n) (kreadv n) user tid w = Ok w' → input_ok 0 (input_buffer_ w) →
  state_ w ≠ kConnecting → echoing w → echoing w'.
Proof.
  unfold handle_read. intros Hx Hin Hc He. destruct (in_loop tid w) eqn:Hl; [bstep Hx | done].
  set (b := input_buffer_ w) in *. set (r := kreadv n _ _) in Hx.
  assert (∀ data, r = Buffer.ReadvData data → zlen data <= Buffer.writable_bytes b + Buffer.kExtraBuf ∧ zlen data < Buffer.kExtraBuf) as Hr
    by (intros data; by apply (read_room (kreadv n) (kreadv_ok n) (tick w) 0)).
  destruct (read_ok r b Hin Hr) as (b' & Hread & _ & Hc'). rewrite Hread in Hx. bstep Hx.
  destruct r as [e|data]; cbn [Buffer.data_of] in *.
  { injection Hx as <-. apply (echoing_quiet w); [done.. | by rewrite <- (app_nil_r (received w)) | by left]. }
  destruct (Z.ltb_spec 0 (zlen data)) as [Hpos|Hz].
  - change (message_callback_ user) with (Some handle_message) in Hx. cbv iota beta in Hx. rewrite Hc' in Hx. cbn [handle_message run_actions run_action] in Hx.
    destruct (Buffer.retrieve _ _) as [b2|]; [bstep Hx | done].
    destruct (send_local _ _ _ _ _) as [w2|] eqn:Hsend; [bstep Hx | done]. injection Hx as <-.
    apply (send_local_echoing n data w _ _ Hsend); try done. by apply Hr.
  - assert (data = []) as -> by (apply zlen_nil_inv; pose proof (zlen_nonneg data); lia). cbn [zlen length Z.of_nat Z.eqb] in Hx.
    apply (handle_close_echoing n) in Hx; [done|]. apply (echoing_quiet w); [done.. | by rewrite <- (app_nil_r (received w)) | by left].
Qed.

Lemma handle_write_echoing n w w' : handle_write (kwrite n) user tid w = Ok w' → echoing w → echoing w'.
Proof.
  unfold handle_write. intros Hx He. destruct (in_loop tid w); [bstep Hx | done].
  destruct (channel_writing w) as [[]|]; [bstep Hx.. | done]; [|by injection Hx as <-].
  destruct (Buffer.offered _) as [data|]; [bstep Hx | done]. destruct (Buffer.write_fd _ _) as [[b k]|]; [bstep Hx | done].
  destruct (0 <? k); [|injection Hx as <-; apply (echoing_quiet w); [done..|by left]].
  destruct (_ =? 0); [|injection Hx as <-; apply (echoing_quiet w); [done..|by left]].
  destruct (on_channel tid DisableWriting _) as [w1|] eqn:Ho; [bstep Hx | done]. apply on_channel_lp in Ho as [l ->].
  change (write_complete_callback_ user) with (None (A := list action)) in Hx. cbn [bool_decide] in Hx. rewrite decide_False in Hx by exact (e_open _ He).
  injection Hx as <-. apply (echoing_quiet w); [done..|by left].
Qed.

Lemma connect_established_echoing n w w' : connect_established (kwrite n) user tid w = Ok w' → echoing w → echoing w'.
Proof.
  unfold connect_established. intros Hx He. destruct (in_loop tid w); [bstep Hx | done].
  destruct (bool_decide_reflect (kConnecting = state_ w)) as [Hst|]; [bstep Hx | done].
  destruct (on_channel tid Tie _) as [w1|] eqn:H1; [bstep Hx | done]. apply on_channel_lp in H1 as [l1 ->].
  destruct (on_channel tid EnableReading _) as [w2|] eqn:H2; [bstep Hx | done]. apply on_channel_lp in H2 as [l2 ->].
  injection Hx as <-. apply (echoing_quiet w); [done..|]. right; left. by split.
Qed.

Lemma connect_destoryed_echoing n w w' : connect_destoryed (kwrite n) user tid w = Ok w' → echoing w → echoing w'.
Proof.
  unfold connect_destoryed. intros Hx He. destruct (in_loop tid w); [bstep Hx | done]. case_decide as Hs.
  - destruct (on_channel tid DisableAll _) as [w1|] eqn:H1; [bstep Hx | done]. apply on_channel_lp in H1 as [l1 ->].
    apply on_channel_lp in Hx as [l ->]. apply (echoing_quiet w); [done..|]. by right; right.
  - bstep Hx. apply on_channel_lp in Hx as [l ->]. apply (echoing_quiet w); [done..|by left].
Qed.

(** The echo server's use of its connections. *)
#[export] Instance echo_law : ConnLaw kwrite kreadv user tid echoing.
Proof using kwrite_ok kreadv_ok.
  split.
  - intros w w' (Hs & _ & _ & _ & _ & Ha & Hr) He. apply (echoing_quiet w); [done..|by left].
  - intros w Hs Ha Hr. split; rewrite ?Ha, ?Hr, ?Hs; done.
  - intros n e w w' Ho Hc Hin Hq He Hx. destruct e; try done; cbn [handle] in Hx.
    + by eapply connect_established_echoing.
    + eapply handle_read_echoing; [exact Hx | done | | done]. intros Hs. by specialize (Hc Hs).
    + by eapply handle_write_echoing.
    + by eapply handle_close_echoing.
    + by injection Hx as <-.
    + destruct (queue w) as [|t q]; [by injection Hx as <-|]. apply Forall_cons in Hq as [Ht _]. destruct t; [done..|].
      injection Hx as <-. apply (echoing_quiet w); [done..|by left].
    + by eapply connect_destoryed_echoing.
Qed.

(** ** The program *)

Context (kaccept : nat → gset Z → Socket.accept_result) (alloc : gset nat → nat).
Hypothesis kaccept_ok : ∀ t fds, Acceptor.tolerated (kaccept t fds) ∧
  ∀ fd addr, kaccept t fds = Socket.Accepted fd addr → fd ∉ fds.
Hypothesis alloc_ok : ∀ S, alloc S ∉ S.
Context (i wake : nat) (wake_fd listen_fd ret ret' : Z) (k : K) (addr : InetAddress.t) (reuse_port : bool).
Hypothesis nothing_registered : ∀ fd, registered k fd = None.
Hypothesis wake_fd_ok : wake_fd ≠ -1.
Hypothesis listen_fd_ok : listen_fd ≠ -1 ∧ listen_fd ≠ wake_fd.
Hypothesis family_ok : InetAddress.family addr ∈ [AF_INET; AF_INET6].
Hypothesis results_ok : 0 <= ret ∧ 0 <= ret'.

(** [main]: a loop, the server on it, [start], and the turns of [loop]. *)
Definition boot : outcome (ServerLoop.world K) :=
  Service.boot tid alloc i wake wake_fd listen_fd ret ret' k addr reuse_port.
Definition turns : list wait_result → ServerLoop.world K → outcome (ServerLoop.world K) :=
  ServerLoop.turns kwrite kreadv kaccept callbacks ∅ tid alloc.
Definition answers_ok : list wait_result → ServerLoop.world K → Prop :=
  ServerLoop.answers_ok kwrite kreadv kaccept callbacks ∅ tid alloc.

(** What an open connection has been sent, and what it still waits for. *)
Definition sent w : list byte := wire w.
Definition waiting w : list byte := Buffer.contents (output_buffer_ w).

(** An open connection of the echo server in the world [W]. *)
Definition served_echo (W : ServerLoop.world K) (c : nat) (o : ServerLoop.object K) : Prop :=
  let w := ServerLoop.body o in
  state_ w = kConnected ∧
  sent w ++ waiting w `sublist_of` received w ∧
  (no_faults → sent w ++ waiting w = received w) ∧
  ∃ e, registered (kernel (ServerLoop.base W)) (ServerLoop.sock o) = Some (e, c) ∧ has EPOLLIN e = true ∧
       (has EPOLLOUT e = true ↔ waiting w ≠ []).

End Echo.

(** ** Witness: a client sends three bytes, and the kernel takes two of them at a time *)

(** The first connection gets three bytes at its first read. *)
Definition demo_reads (n : Z) (t : nat) (room : Z) : Buffer.readv_result :=
  if bool_decide (n = 1) && bool_decide (t = 0%nat) && (3 <=? room) then Buffer.ReadvData [x30; x31; x32] else Buffer.ReadvErr EWOULDBLOCK.

Lemma echo_reads_ok n t room data : 0 <= room → demo_reads n t room = Buffer.ReadvData data →
  zlen data <= room ∧ zlen data < Buffer.kExtraBuf.
Proof.
  unfold demo_reads, Buffer.kExtraBuf. destruct (_ && _) eqn:E; [|done]. intros Hr [= <-]. unbool. unfold zlen. cbn [length]. lia.
Qed.

Definition demo_writes (n : Z) (t : nat) (len : Z) : sysret := if 0 <=? len then SysOk (Z.min len 2) else SysErr EWOULDBLOCK.

Lemma echo_writes_ok n t len k : demo_writes n t len = SysOk k → 0 <= k <= len.
Proof. unfold demo_writes. destruct (Z.leb_spec 0 len); [|done]. intros [= <-]. lia. Qed.

Lemma echo_no_faults : no_faults demo_writes.
Proof. intros n t len e. unfold demo_writes. destruct (0 <=? len); [done|]. by intros [= <-]. Qed.

Definition demo_rounds : list wait_result :=
  [WaitEvents [(EPOLLIN, 2%nat)]; WaitEvents [(EPOLLIN, 3%nat)]; WaitErr 4; WaitEvents [(EPOLLOUT, 3%nat)]].

Notation on_demo f := (f demo_writes demo_reads 7 Service.demo_accept Service.next_address).

Definition demo_after (n : nat) : ServerLoop.world (gmap Z epoll_event) :=
  LoopTurn.value Service.no_world (on_demo turns (take n demo_rounds) Service.demo_server).

Lemma echo_step n r : LoopTurn.value Service.no_world (on_demo turns [r] (demo_after n)) = demo_after (S n) →
  ∀ W', ServerLoop.turn demo_writes demo_reads Service.demo_accept callbacks ∅ 7 Service.next_address r (demo_after n) = Ok W' →
    W' = demo_after (S n).
Proof. intros Hv W' HW'. unfold turns in Hv. cbn [ServerLoop.turns] in Hv. rewrite HW' in Hv. exact Hv. Qed.

Lemma echo_answers : on_demo answers_ok demo_rounds Service.demo_server.
Proof.
  unfold answers_ok. change Service.demo_server with (demo_after 0).
  repeat match goal with
  | |- ServerLoop.answers_ok _ _ _ _ _ _ _ _ (demo_after ?n) =>
      split; [|intros W' HW'; apply (echo_step n) in HW' as ->; [|vm_compute; reflexivity]]
  end; try exact I.
  all: first [ solve [split; [exact I | intros ev c []]] | Service.check_answer [6] | Service.check_answer [7] ].
Qed.

Lemma echo_turns n : (n <=? 4)%nat = true → on_demo turns (take n demo_rounds) Service.demo_server = Ok (demo_after n).
Proof. destruct n as [|[|[|[|[|n]]]]]; [intros _; vm_compute; reflexivity..|intros Hn; discriminate Hn]. Qed.

Definition connection_of (W : ServerLoop.world (gmap Z epoll_event)) : conn (gmap Z epoll_event) :=
  match ServerLoop.objects W !! 3%nat with Some o => ServerLoop.body o | None => conn_of [] end.

End EchoServer.
