(* ===== verification/Drain.v ===== *)
(** * Output that waits is written (src/net/tcp_connection.cc, in the server of the file ServerLoop)

    What a turn of the loop does to a connection of the server whose channel the kernel reports
    writable, while it reports what it likes for the other channels: the write handler of this
    connection runs once, moves what the kernel takes from the output buffer to the socket, and
    nothing else in the turn touches the connection.  So output that waits is written after as many
    such turns as there are bytes, whatever happens to the rest of the server. *)

From S2P Require Import Prelude NetBuffer Reactor Connection ConnSafe LoopTurn ThreadPool TcpServer Acceptor ServerLoop Service Echo.

Module Drain.
Import TcpConnection ServerLoop.

(** A dispatch of nothing but writability. *)
Lemma guarded_write {W} (look : W → channel) handling run w :
  dispatch_fields (look (handling true w)) = (EPOLLOUT, (true, true, true, true)) →
  handle_event_with_guard look handling run w = (w ← run CbWrite (handling true w); mret (handling false w)).
Proof.
  intros [= E1 E2 E3 E4 E5]. unfold handle_event_with_guard. rewrite E1. change (has EPOLLHUP EPOLLOUT && _) with false.
  cbn [mbind outcome_bind mret outcome_ret]. rewrite E1. change (has EPOLLERR EPOLLOUT) with false. cbn [mbind outcome_bind mret outcome_ret].
  rewrite E1. change (has (Z.lor (Z.lor EPOLLIN EPOLLPRI) EPOLLRDHUP) EPOLLOUT) with false. cbn [mbind outcome_bind mret outcome_ret].
  rewrite E1, E5. by change (has EPOLLOUT EPOLLOUT) with true.
Qed.

Section Drain.
Context {K : Type} `{EpollKernel K}.
Context (kwrite : Z → nat → Z → sysret) (kreadv : Z → nat → Z → Buffer.readv_result).
Context (kaccept : nat → gset Z → Socket.accept_result).
Context (cb : callbacks) (m : gmap nat (list byte)) (tid : Z) (alloc : gset nat → nat).
Implicit Types (W : world K) (o : object K) (c q : nat).

Notation turn := (turn kwrite kreadv kaccept cb m tid alloc).
Notation turns := (turns kwrite kreadv kaccept cb m tid alloc).
Notation answer_ok := (answer_ok).
Notation answers_ok := (answers_ok kwrite kreadv kaccept cb m tid alloc).

(** ** What happens to the object of a connection *)

Definition output o : list byte := Buffer.contents (output_buffer_ (body o)).

(** Only the loop and the functors it has queued are different. *)
Definition unmoved o o' : Prop :=
  serial o' = serial o ∧ sock o' = sock o ∧ ConnSafe.same_user (body o) (body o') ∧ tick (body o') = tick (body o).

(** The kernel has taken a part of the output. *)
Definition moved o o' : Prop :=
  let n := taken (kwrite (serial o)) (body o) in
  serial o' = serial o ∧ sock o' = sock o ∧ state_ (body o') = state_ (body o) ∧
  wire (body o') = wire (body o) ++ take n (output o) ∧ output o' = drop n (output o) ∧
  accepted (body o') = accepted (body o) ∧ received (body o') = received (body o).

Lemma moved_unmoved o o1 o2 : moved o o1 → unmoved o1 o2 → moved o o2.
Proof.
  intros (E1 & E2 & E3 & E4 & E5 & E6 & E7) (F1 & F2 & (F3 & F4 & F5 & F6 & F7 & F8 & F9) & _). unfold moved, output in *.
  by rewrite F1, F2, F3, F5, F7, F8, F9.
Qed.

Lemma unmoved_trans o1 o2 o3 : unmoved o1 o2 → unmoved o2 o3 → unmoved o1 o3.
Proof. unfold unmoved, ConnSafe.same_user. naive_solver congruence. Qed.

(** A call of one connection changes no other. *)
Lemma member_objects c f W W' : member tid c f W = Ok W' →
  ∃ o w, objects W !! c = Some o ∧ f (serial o) (view o W) = Ok w ∧ objects W' = <[c := mkObject (serial o) (sock o) w]> (objects W).
Proof.
  unfold member, object_at. intros Hx. destruct (objects W !! c) as [o|] eqn:Ho; [bstep Hx | done].
  destruct (f (serial o) (view o W)) as [w|] eqn:Hf; [bstep Hx | done]. exists o, w. split; [done|]. split; [done|].
  destruct (_ && _); [|by injection Hx as <-]. unfold remove_connection in Hx. destruct (in_base_thread _ _); [|by injection Hx as <-].
  unfold remove_connection_in_loop, object_at in Hx. destruct (in_base_thread _ _); [bstep Hx | done].
  destruct (objects (put c o w W) !! c) as [o'|]; [bstep Hx | done]. destruct (bool_decide _); [bstep Hx | done]. by injection Hx as <-.
Qed.

(** ** Functors *)

Hypothesis no_callback : write_complete_callback_ cb = None.

Lemma functors_other fs c W W' o : run_functors kwrite cb tid fs W = Ok W' →
  Forall (queued W) fs → c ∉ destroys fs → objects W !! c = Some o →
  ∃ o', objects W' !! c = Some o' ∧ unmoved o o'.
Proof.
  revert W o. induction fs as [|f fs IH]; intros W o Hx Hq Hc Ho; cbn [run_functors] in Hx.
  { injection Hx as <-. exists o. by repeat split. }
  destruct (run_functor kwrite cb tid f W) as [W1|] eqn:Hf; [bstep Hx | done]. apply Forall_cons in Hq as [Hqf Hq].
  assert (∃ o1 c' o' w, objects W1 !! c = Some o1 ∧ unmoved o o1 ∧ objects W1 = <[c' := mkObject (serial o') (sock o') w]> (objects W))
    as (o1 & c' & o' & w & Ho1 & Hu & Hos).
  { assert (∀ c' o' w, c' ≠ c → objects W1 = <[c' := mkObject (serial o') (sock o') w]> (objects W) →
      ∃ o1 c' o' w, objects W1 !! c = Some o1 ∧ unmoved o o1 ∧ objects W1 = <[c' := mkObject (serial o') (sock o') w]> (objects W)) as Hother.
    { intros c' o' w Hne E. exists o, c', o', w. split; [by rewrite E, lookup_insert_ne|]. split; [by repeat split | done]. }
    destruct f as [c' t|c'|c'|c']; try done; cbn [run_functor] in Hf; apply member_objects in Hf as (o' & w & Ho' & Hw & E).
    - destruct (decide (c' = c)) as [->|Hne]; [|exact (Hother c' o' w Hne E)]. destruct Hqf as [Ht _]. destruct t; [done..|].
      cbn [run_task] in Hw. rewrite conn_cb_eq in Hw. cbn [write_complete_callback_] in Hw. rewrite no_callback in Hw. injection Hw as <-.
      assert (o' = o) as -> by congruence. eexists _, c, o, _. split; [rewrite E; apply lookup_insert_eq|]. split; [by repeat split | exact E].
    - apply (Hother c' o' w); [|done]. intros ->. apply Hc. cbn. left. }
  destruct (IH W1 o1 Hx) as (o2 & Ho2 & Hu2); [| |done|].
  - eapply Forall_impl; [exact Hq|]. intros g. unfold queued. destruct g; try done; rewrite Hos, ?lookup_insert_is_Some'; naive_solver.
  - intros Hin. apply Hc. destruct f; cbn; try done. by right.
  - exists o2. split; [done|]. by eapply unmoved_trans.
Qed.

(** The map keeps a connection alive. *)
Lemma drop_other fs c fd W W' : drop_functors tid fs W = Ok W' → connections_ W !! fd = Some c → objects W' !! c = objects W !! c.
Proof.
  revert W. induction fs as [|f fs IH]; intros W Hx Hm; cbn [drop_functors] in Hx; [by injection Hx as <-|].
  destruct (holds f) as [c'|]; [|bstep Hx; by apply IH].
  destruct (release tid c' fs W) as [W1|] eqn:Hr; [bstep Hx | done]. unfold release in Hr.
  destruct (referenced c' fs W) eqn:E; [injection Hr as <-; by apply IH|].
  destruct (object_at c' W) as [o|]; [bstep Hr | done]. destruct (dtor tid (view o W)) as [w|]; [bstep Hr | done]. injection Hr as <-.
  rewrite (IH _ Hx) by done. cbn. apply lookup_delete_ne. intros ->. unfold referenced in E. apply orb_false_iff in E as [E _].
  apply negb_false_iff, bool_decide_eq_true in E. exact (E fd c Hm eq_refl).
Qed.

(** ** The event of a writable connection *)

Hypothesis kwrite_ok : ∀ n t len k, kwrite n t len = SysOk k → 0 <= k <= len.
Hypothesis kreadv_ok : ∀ n t room data, 0 <= room → kreadv n t room = Buffer.ReadvData data →
  zlen data <= room ∧ zlen data < Buffer.kExtraBuf.
Hypothesis kaccept_ok : ∀ t fds, Acceptor.tolerated (kaccept t fds) ∧
  ∀ fd addr, kaccept t fds = Socket.Accepted fd addr → fd ∉ fds.
Hypothesis user_ok : ConnSafe.callbacks_ok (conn_cb cb) m.
Hypothesis alloc_ok : ∀ S, alloc S ∉ S.
Context (J : conn K → Prop) {law : ConnSafe.ConnLaw kwrite kreadv (conn_cb cb) tid J}.
Context (i wake pa : nat) (wake_fd listen_fd : Z).
Notation full lemma := (lemma kwrite kreadv kaccept cb m tid alloc kwrite_ok kreadv_ok kaccept_ok user_ok alloc_ok J law i wake pa wake_fd listen_fd).
Notation serving := (serving cb m tid J i wake pa wake_fd listen_fd).
Notation idle := (idle cb m tid J i wake pa wake_fd listen_fd).
Notation conn_ok := (conn_ok cb m tid J i).
Notation ready := (ready cb m tid J i wake pa).
Notation channel_event := (channel_event kwrite kreadv kaccept cb m tid alloc).
Notation handle_active := (handle_active kwrite kreadv kaccept cb m tid alloc).

Lemma event_writable c o W W' : channel_event c W = Ok W' → serving None W → objects W !! c = Some o →
  conn_ok W c o EPOLLOUT false ConnSafe.Live → ∃ o', objects W' !! c = Some o' ∧ moved o o'.
Proof.
  intros Hx Hs Ho Hc. destruct (object_not_side _ _ _ _ _ _ _ _ _ _ _ _ _ _ _ _ (proj1 Hs) Ho) as [Hn1 Hn2].
  destruct (conn_chan _ _ _ _ _ _ _ _ _ _ _ Hc) as (ch & Hch & _ & _ & Hf & _). injection Hf as E1 E2 E3 E4 E5.
  destruct (full (@handling_serving K _) c true None W Hs) as [Hs1 _]; [by left | by rewrite Hch|].
  set (W1 := handling c true W) in *. cbn [proj1] in Hs1. assert (objects W1 !! c = Some o) as Ho1 by exact Ho.
  destruct (w_conn _ _ _ _ _ _ _ _ _ _ _ _ _ _ (proj1 Hs1) c o Ho1) as (ev1 & _ & Hci & _).
  assert (state_ (view o W1) ≠ kDisconnected) as Hup.
  { destruct Hc as [Hh _]. destruct (ConnSafe.held_up _ _ _ _ _ _ _ _ _ _ _ _ Hh) as [E|E]; cbn in E |- *; congruence. }
  unfold ServerLoop.channel_event in Hx. rewrite (deref_ok _ _ ch Hch) in Hx. bstep Hx.
  assert (handle_event_with_guard (look c) (handling c) (run_callback kwrite kreadv kaccept cb m tid alloc c) W = Ok W') as Hg.
  { unfold handle_event, alive in Hx. rewrite bool_decide_true in Hx by (by rewrite Ho). by destruct (tied_ _). }
  assert (look c W1 = LoopTurn.set_handling true ch) as Hl.
  { unfold look, W1, handling, modify. cbn. by rewrite lookup_alter_eq, Hch. }
  rewrite guarded_write in Hg by (fold W1; rewrite Hl; unfold dispatch_fields; cbn; by rewrite E1, E2, E3, E4, E5).
  fold W1 in Hg. destruct (run_callback _ _ _ _ _ _ _ c CbWrite W1) as [W2|] eqn:Hr; [bstep Hg | done]. injection Hg as <-.
  unfold run_callback in Hr. rewrite decide_False in Hr by (rewrite (w_wake _ _ _ _ _ _ _ _ _ _ _ _ _ _ (proj1 Hs1)); done).
  rewrite decide_False in Hr by (destruct (w_acc _ _ _ _ _ _ _ _ _ _ _ _ _ _ (proj1 Hs1)) as [-> _]; done).
  apply member_objects in Hr as (o1 & w & Ho' & Hw & Hos). assert (o1 = o) as -> by congruence.
  exists (mkObject (serial o) (sock o) w). split; [change (objects W2 !! c = Some (mkObject (serial o) (sock o) w)); rewrite Hos; apply lookup_insert_eq|].
  destruct (handle_write_moves _ _ (kwrite_ok (serial o)) _ _ _ Hw Hci Hup) as (M1 & M2 & M3 & M4 & M5 & _).
  split; [done|]. split; [done|]. split; [exact M5|]. split; [exact M1|]. split; [exact M2|]. split; [exact M3 | exact M4].
Qed.

Notation dispatchable := (dispatchable cb m tid J i wake pa).

Lemma active_next q active W W' : handle_active (q :: active) W = Ok W' → serving None W → dispatchable (q :: active) W →
  ∃ W1, channel_event q (current q W) = Ok W1 ∧ handle_active active W1 = Ok W' ∧ serving None W1 ∧ dispatchable active W1 ∧
    same_but q W W1.
Proof.
  intros Hx Hs Hd. cbn [ServerLoop.handle_active] in Hx. pose proof (full (@active_step K _) q active W Hs Hd) as Hst.
  unfold current in Hst. destruct (channel_event q _) as [W1|] eqn:E; [bstep Hx | done]. destruct Hst as (H1 & [Hk _] & Hd1).
  exists W1. split; [done|]. split; [exact Hx|]. split; [exact H1|]. split; [exact Hd1 | exact (k_same _ _ _ _ Hk)].
Qed.

Lemma object_channel cur W c : serving cur W → is_Some (objects W !! c) → c ∈ dom (heap (base W)).
Proof. intros [Hw _] Ho. rewrite (w_dom _ _ _ _ _ _ _ _ _ _ _ _ _ _ Hw). apply elem_of_dom in Ho. set_solver. Qed.

(** The events of other channels leave a connection alone. *)
Lemma active_other active c W W' : handle_active active W = Ok W' → serving None W → dispatchable active W →
  c ∉ active → is_Some (objects W !! c) → objects W' !! c = objects W !! c.
Proof.
  revert W. induction active as [|q active IH]; intros W Hx Hs Hd Hc Ho; [by injection Hx as <-|].
  apply not_elem_of_cons in Hc as [Hne Hc]. destruct (active_next q active W W' Hx Hs Hd) as (W1 & _ & Hx1 & H1 & Hd1 & Hsame).
  destruct (Hsame c Hne (object_channel _ _ _ Hs Ho)) as [_ Eo]. rewrite <- Eo. apply IH; try done. by rewrite Eo.
Qed.

Lemma active_writable active c o W W' : handle_active active W = Ok W' → serving None W → dispatchable active W →
  c ∈ active → revs W c = EPOLLOUT → objects W !! c = Some o → ∃ o', objects W' !! c = Some o' ∧ moved o o'.
Proof.
  revert W. induction active as [|q active IH]; intros W Hx Hs Hd Hc Hrev Ho; [by apply not_elem_of_nil in Hc|].
  destruct (active_next q active W W' Hx Hs Hd) as (W1 & Hx0 & Hx1 & H1 & Hd1 & Hsame).
  assert (is_Some (objects W !! c)) as Ho' by (by rewrite Ho). destruct (decide (c = q)) as [<-|Hne].
  - destruct Hd as ([Hq _]%NoDup_cons & [Hr _]%Forall_cons & _).
    pose proof (full (@serving_current K _) (Some c) W Hs) as Hs1. apply (full (@current_ready K _) c c W Hs) in Hr.
    destruct (object_not_side _ _ _ _ _ _ _ _ _ _ _ _ _ _ _ _ (proj1 Hs) Ho) as [Hn1 Hn2].
    destruct Hr as [?|[?|(o0 & ev & Ho0 & _ & Hc0)]]; [done..|]. assert (o0 = o) as -> by (cbn in Ho0; congruence).
    assert (ev = EPOLLOUT) as ->.
    { destruct (conn_chan _ _ _ _ _ _ _ _ _ _ _ Hc0) as (ch & Hch & _ & _ & Hf & _). injection Hf as E _ _ _ _.
      unfold revs, look in Hrev. cbn in Hch. rewrite Hch in Hrev. cbn in Hrev. congruence. }
    destruct (event_writable c o _ W1 Hx0 Hs1) as (o1 & Ho1 & Hm); [done..|]. exists o1. split; [|exact Hm].
    rewrite <- Ho1. by apply (active_other active c W1 W').
  - apply elem_of_cons in Hc as [?|Hc]; [done|]. destruct (Hsame c Hne (object_channel _ _ _ Hs Ho')) as [Eh Eo].
    apply (IH W1); try done; [unfold revs, look in *; by rewrite Eh | by rewrite Eo].
Qed.

(** A turn in which a connection is reported writable. *)
Lemma turn_writable r c o W W' : turn r W = Ok W' → idle W → answer_ok r W → Z.of_nat (accepts W) + 2 < 2 ^ 31 →
  reports r EPOLLOUT c → objects W !! c = Some o → ∃ o', objects W' !! c = Some o' ∧ moved o o'.
Proof.
  intros Hx Hidle Hr Hmax Hrep Ho.
  destruct (full (@poll_serving K _) r W Hidle Hr) as (l & active & Hp & Hnd & [Hs Hready] & Hall & Hrevs).
  unfold ServerLoop.turn in Hx. rewrite Hp in Hx. cbn [mbind outcome_bind] in Hx. set (W0 := with_base (LoopTurn.begin_events active l) W) in *.
  assert (dispatchable active W0) as Hd by (by split).
  pose proof (full (@handle_active_ok K _) active W0 Hs Hd) as Hok. pose proof (Hall _ _ Hrep) as Hin.
  assert (revs W0 c = EPOLLOUT) as Hrev.
  { destruct (Hrevs c Hin) as (ev & Hev & ->). by eapply reports_unique; [apply Hr | exact Hev|]. }
  destruct (handle_active active W0) as [W1|] eqn:Ha; [bstep Hx | done]. destruct Hok as [Hs1 _].
  destruct (active_writable active c o W0 W1 Ha Hs Hd Hin Hrev Ho) as (o1 & Ho1 & Hm).
  pose proof (full (@dispatch_end K _) W1 Hs1) as Hw2. set (W2 := with_base _ W1) in *. set (fs := pending_functors_ W1) in *.
  assert (c ∉ destroys fs) as Hlive.
  { destruct (w_conn _ _ _ _ _ _ _ _ _ _ _ _ _ _ Hw2 c o1 Ho1) as (ev & Hc).
    destruct (conn_chan _ _ _ _ _ _ _ _ _ _ _ Hc) as (ch & _ & Hok). destruct (decide (phase_of [] fs c = ConnSafe.Live)) as [Hl|Hn].
    - by apply phase_live in Hl as [_ ?].
    - destruct (ConnSafe.channel_down _ _ _ _ _ _ _ Hok Hn) as [Hdown _]. change (state_ (body o1) = kDisconnected) in Hdown.
      destruct (s_conn _ _ _ (full (@idle_in_service K _) W Hidle) c o Ho) as (Hup & _). destruct Hm as (_ & _ & Est & _).
      rewrite Est in Hdown. by destruct Hup; congruence. }
  unfold do_pending_functors in Hx. change (pending_functors_ W2) with fs in Hx.
  assert (running cb m tid J i wake pa wake_fd listen_fd [] fs (with_pending [] W2)) as Hrun by (split; [by destruct Hw2; split | split; [exact (proj2 Hs1) | done]]).
  pose proof (full (@run_functors_ok K _) fs [] _ Hrun) as Hf.
  destruct (run_functors kwrite cb tid fs (with_pending [] W2)) as [W3|] eqn:Hr3; [bstep Hx | done]. destruct Hf as ((Hw3 & _) & _).
  destruct (functors_other fs c _ W3 o1 Hr3 (proj2 Hs1) Hlive Ho1) as (o3 & Ho3 & Hu). exists o3.
  split; [|by eapply moved_unmoved]. rewrite <- Ho3. apply (drop_other fs c (sock o3) W3 W' Hx).
  apply (w_map _ _ _ _ _ _ _ _ _ _ _ _ _ _ Hw3). exists o3. split; [done|]. split; [done|]. rewrite app_nil_l. apply phase_live.
  split; [exact Hlive | apply not_elem_of_nil].
Qed.

(** Turn after turn. *)
Lemma turns_writable rs c o W : idle W → answers_ok rs W → Z.of_nat (accepts W) + zlen rs + 2 < 2 ^ 31 →
  Forall (λ r, reports r EPOLLOUT c) rs → objects W !! c = Some o →
  (∀ t len, 0 < len → ∃ n, kwrite (serial o) t len = SysOk n ∧ 1 <= n) → zlen (output o) <= zlen rs →
  safe (λ W', idle W' ∧ ∃ o', objects W' !! c = Some o' ∧ sock o' = sock o ∧ output o' = [] ∧
    wire (body o') = wire (body o) ++ output o ∧ accepted (body o') = accepted (body o) ∧ received (body o') = received (body o))
    (turns rs W).
Proof.
  revert o W. induction rs as [|r rs IH]; intros o W Hidle Hr Hmax Hrep Ho Hk Hlen; cbn [ServerLoop.turns].
  { rewrite zlen_nil in Hlen. assert (output o = []) as E by (apply zlen_nil_inv; pose proof (zlen_nonneg (output o)); lia).
    split; [done|]. exists o. by rewrite E, app_nil_r. }
  destruct Hr as [Hr Hrs]. apply Forall_cons in Hrep as [Hrep Hreps]. rewrite zlen_cons in *. pose proof (zlen_nonneg rs).
  eapply safe_bind; [apply (full (@turn_ok K _) r W Hidle Hr); lia|]. intros W1 Hx [H1 He]. pose proof (x_calls _ _ _ _ _ _ He).
  destruct (turn_writable r c o W W1 Hx Hidle Hr ltac:(lia) Hrep Ho) as (o1 & Ho1 & E1 & E2 & _ & E4 & E5 & E6 & E7).
  assert (output o = [] ∨ (1 <= taken (kwrite (serial o)) (body o))%nat) as Htaken.
  { destruct (decide (output o = [])) as [|Hne]; [by left | right]. unfold taken.
    destruct (w_conn _ _ _ _ _ _ _ _ _ _ _ _ _ _ (proj1 Hidle) c o Ho) as (ev & _ & Hci & _). pose proof (ci_out _ Hci) as Hwf.
    change (Buffer.wf (output_buffer_ (body o))) in Hwf. rewrite <- (Buffer.buffer_len _ Hwf). fold (output o).
    assert (zlen (output o) ≠ 0) by (by intros ?%zlen_nil_inv). pose proof (zlen_nonneg (output o)).
    destruct (Hk (tick (body o)) (zlen (output o))) as (n & -> & Hn); lia. }
  eapply safe_mono; [apply (IH o1 W1 H1); try done|].
  - by apply Hrs.
  - lia.
  - by rewrite E1.
  - rewrite E5, zlen_drop. destruct Htaken as [E|?]; [apply (f_equal zlen) in E; rewrite zlen_nil in E|]; lia.
  - intros W' _ (H' & o' & Ho' & F1 & F2 & F3 & F4 & F5). split; [done|]. exists o'. split; [done|]. split; [congruence|]. split; [done|].
    rewrite F3, E4, E5, <- (assoc_L (++)), take_drop. split; [done|]. by rewrite F4, F5.
Qed.
End Drain.

Section Server.
Context {K : Type} `{EpollKernel K}.
Context (kwrite : Z → nat → Z → sysret) (kreadv : Z → nat → Z → Buffer.readv_result).
Context (kaccept : nat → gset Z → Socket.accept_result).
Context (cb : callbacks) (m : gmap nat (list byte)) (tid : Z) (alloc : gset nat → nat).
Hypothesis no_callback : write_complete_callback_ cb = None.
Hypothesis kwrite_ok : ∀ n t len k, kwrite n t len = SysOk k → 0 <= k <= len.
Hypothesis kreadv_ok : ∀ n t room data, 0 <= room → kreadv n t room = Buffer.ReadvData data →
  zlen data <= room ∧ zlen data < Buffer.kExtraBuf.
Hypothesis kaccept_ok : ∀ t fds, Acceptor.tolerated (kaccept t fds) ∧
  ∀ fd addr, kaccept t fds = Socket.Accepted fd addr → fd ∉ fds.
Hypothesis user_ok : ConnSafe.callbacks_ok cb m.
Hypothesis alloc_ok : ∀ S, alloc S ∉ S.
Context (i wake : nat) (wake_fd listen_fd ret ret' : Z) (k : K) (addr : InetAddress.t) (reuse_port : bool).
Hypothesis nothing_registered : ∀ fd, registered k fd = None.
Hypothesis wake_fd_ok : wake_fd ≠ -1.
Hypothesis listen_fd_ok : listen_fd ≠ -1 ∧ listen_fd ≠ wake_fd.
Hypothesis family_ok : InetAddress.family addr ∈ [AF_INET; AF_INET6].
Hypothesis results_ok : 0 <= ret ∧ 0 <= ret'.
Notation turns := (turns kwrite kreadv kaccept cb m tid alloc).
Notation answers_ok := (answers_ok kwrite kreadv kaccept cb m tid alloc).
Notation boot := (Service.boot tid alloc i wake wake_fd listen_fd ret ret' k addr reuse_port).

End Server.

(** ** Witness: the echo server of the file Echo, with a byte left to send *)

End Drain.
