(* ===== verification/Sync.v ===== *)
(** * Locks, the latch and the error texts
    (clia/base/lock_guard.h, src/util/atom_lck.cc, countdown_latch.cc, process.cc)

    [LockGuard] is a template over any lock; what it needs of the lock is the class [Lock], of
    which [AtomLck] is an instance.  Threads that enter a guarded section, load a shared value,
    store a new one and leave are proved against the class.  [CountDownLatch] has its counter;
    [process::strerror] has the two thread-local variables of its cache. *)

From S2P Require Import Prelude.

(** ** Locks *)

(** One attempt to take the lock, and giving it back. *)
Class Lock (L : Type) := {
  try_lock : L → bool * L;
  unlock : L → L;
  held : L → bool;
  try_lock_free l : held l = false → (try_lock l).1 = true ∧ held (try_lock l).2 = true;
  try_lock_held l : held l = true → (try_lock l).1 = false ∧ held (try_lock l).2 = true;
  unlock_held l : held (unlock l) = false
}.

Module AtomLck.

(** The [atomic_flag]. *)
Record t := mk { lck_ : bool }.

Definition ctor : t := mk false.

(** [atomic_flag_test_and_set_explicit]: the old value. *)
Definition test_and_set (l : t) : bool * t := (lck_ l, mk true).

(** One round of the loop of [lock]: it ends when the flag was clear. *)
Definition lock_round (l : t) : bool * t := let '(old, l) := test_and_set l in (negb old, l).

Definition unlock (l : t) : t := mk false.
End AtomLck.

#[global, refine] Instance atom_lck : Lock AtomLck.t := {|
  try_lock := AtomLck.lock_round;
  unlock := AtomLck.unlock;
  held := AtomLck.lck_
|}.
Proof.
  - intros [b] Hb. cbn in *. by subst.
  - intros [b] Hb. cbn in *. by subst.
  - done.
Defined.

(** ** [LockGuard] *)

Module LockGuard.
Section LockGuard.
Context {L : Type} `{Lock L} {X : Type}.

(** Where a thread is: outside; in the guard's constructor, which calls [lock]; inside, before and
    after it has loaded the shared value; and at the end of the scope, where the guard's destructor
    calls [unlock]. *)
Inductive pc := Outside | Locking | Inside | Loaded (x : X) | Leaving.

(** The threads share a lock and a value; [stores] counts the stores. *)
Record state := mk { lock : L; shared : X; threads : list pc; stores : nat }.

(** What every thread does in the guarded section. *)
Variable f : X → X.

Definition set_thread (i : nat) (p : pc) (l : L) (x : X) (n : nat) (s : state) : state :=
  mk l x (<[i := p]> (threads s)) n.

(** The next step of thread [i]; a failed attempt to lock leaves it where it is. *)
Definition step (i : nat) (s : state) : state :=
  match threads s !! i with
  | Some Outside => set_thread i Locking (lock s) (shared s) (stores s) s
  | Some Locking =>
      let '(ok, l) := try_lock (lock s) in
      set_thread i (if ok then Inside else Locking) l (shared s) (stores s) s
  | Some Inside => set_thread i (Loaded (shared s)) (lock s) (shared s) (stores s) s
  | Some (Loaded x) => set_thread i Leaving (lock s) (f x) (S (stores s)) s
  | Some Leaving => set_thread i Outside (unlock (lock s)) (shared s) (stores s) s
  | None => s
  end.

Definition run (sched : list nat) (s : state) : state := foldl (flip step) s sched.

Definition inside (p : pc) : bool := match p with Outside | Locking => false | _ => true end.

(** The lock is held exactly while one thread is inside, and a loaded value is the shared one. *)
Record guarded (x0 : X) (s : state) : Prop := {
  g_free : held (lock s) = false → ∀ i p, threads s !! i = Some p → inside p = false;
  g_held : held (lock s) = true → ∃ i p, threads s !! i = Some p ∧ inside p = true;
  g_one : ∀ i j p q, threads s !! i = Some p → threads s !! j = Some q → inside p = true → inside q = true → i = j;
  g_loaded : ∀ i x, threads s !! i = Some (Loaded x) → x = shared s;
  g_value : shared s = Nat.iter (stores s) f x0
}.

(** A step of a thread that stays outside. *)
Lemma guarded_outside x0 s i p q l :
  guarded x0 s → threads s !! i = Some p → inside p = false → inside q = false → held l = held (lock s) →
  guarded x0 (set_thread i q l (shared s) (stores s) s).
Proof.
  intros [Hf Hh Ho Hl Hv] Hi Hp Hq Hheld.
  assert (∀ j r, <[i := q]> (threads s) !! j = Some r → inside r = true → threads s !! j = Some r) as Hold.
  { intros j r Hj Hr. destruct (decide (j = i)) as [->|Hne].
    - rewrite list_lookup_insert_eq in Hj by (by eapply lookup_lt_Some). congruence.
    - by rewrite list_lookup_insert_ne in Hj by done. }
  split; cbn; rewrite ?Hheld.
  - intros Hfree j r Hj. destruct (inside r) eqn:Hr; [|done]. rewrite <- Hr. by eapply Hf, Hold.
  - intros Hx. destruct (Hh Hx) as (j & r & Hj & Hr). exists j, r. split; [|done].
    rewrite list_lookup_insert_ne; [done|]. intros ->. congruence.
  - intros j k r r' Hj Hk Hr Hr'. eapply Ho; eauto.
  - intros j x Hj. by eapply Hl, Hold.
  - done.
Qed.

(** A step of the thread that is inside. *)
Lemma guarded_inside x0 s i p q x n :
  guarded x0 s → threads s !! i = Some p → inside p = true → inside q = true →
  (∀ y, q = Loaded y → y = x) → x = Nat.iter n f x0 →
  guarded x0 (set_thread i q (lock s) x n s).
Proof.
  intros [Hf Hh Ho Hl Hv] Hi Hp Hq Hy Hx. pose proof (lookup_lt_Some _ _ _ Hi) as Hlt.
  assert (∀ j r, <[i := q]> (threads s) !! j = Some r → inside r = true → j = i ∧ r = q) as Honly.
  { intros j r Hj Hr. destruct (decide (j = i)) as [->|Hne].
    - rewrite list_lookup_insert_eq in Hj by done. by injection Hj.
    - rewrite list_lookup_insert_ne in Hj by done. destruct Hne. eapply Ho; eauto. }
  split; cbn.
  - intros Hfree. exfalso. rewrite (Hf Hfree i p Hi) in Hp. done.
  - intros _. exists i, q. by rewrite list_lookup_insert_eq by done.
  - intros j k r r' Hj Hk Hr Hr'. destruct (Honly j r Hj Hr), (Honly k r' Hk Hr'). congruence.
  - intros j y Hj. destruct (Honly j _ Hj eq_refl) as [_ <-]. by apply Hy.
  - done.
Qed.

Lemma step_guarded x0 i s : guarded x0 s → guarded x0 (step i s).
Proof.
  intros Hg. unfold step. destruct (threads s !! i) as [p|] eqn:Hi; [|done].
  pose proof (lookup_lt_Some _ _ _ Hi) as Hlt.
  destruct p as [| | |x|].
  - by apply (guarded_outside x0 s i Outside).
  - destruct (held (lock s)) eqn:Hh.
    + destruct (try_lock_held _ Hh) as [Hr Hl]. destruct (try_lock (lock s)) as [ok l]. cbn in Hr, Hl. subst ok.
      apply (guarded_outside x0 s i Locking); try done. congruence.
    + destruct (try_lock_free _ Hh) as [Hr Hl]. destruct (try_lock (lock s)) as [ok l]. cbn in Hr, Hl. subst ok.
      destruct Hg as [Hf _ _ _ Hv].
      assert (∀ j r, <[i := Inside]> (threads s) !! j = Some r → inside r = true → j = i ∧ r = Inside) as Honly.
      { intros j r Hj Hr. destruct (decide (j = i)) as [->|Hne].
        - rewrite list_lookup_insert_eq in Hj by done. by injection Hj.
        - rewrite list_lookup_insert_ne in Hj by done. rewrite (Hf Hh j r Hj) in Hr. done. }
      split; cbn.
      * congruence.
      * intros _. exists i, Inside. by rewrite list_lookup_insert_eq by done.
      * intros j k r r' Hj Hk Hr Hr'. destruct (Honly j r Hj Hr), (Honly k r' Hk Hr'). congruence.
      * intros j y Hj. by destruct (Honly j _ Hj eq_refl).
      * done.
  - apply (guarded_inside x0 s i Inside); try done; [by intros y [= ->] | apply Hg].
  - apply (guarded_inside x0 s i (Loaded x)); try done.
    cbn. rewrite (g_loaded _ _ Hg i x Hi), (g_value _ _ Hg) at 1. done.
  - destruct Hg as [Hf Hh Ho Hl Hv].
    assert (∀ j r, <[i := Outside]> (threads s) !! j = Some r → inside r = false) as Hnone.
    { intros j r Hj. destruct (decide (j = i)) as [->|Hne].
      - rewrite list_lookup_insert_eq in Hj by done. by injection Hj as <-.
      - rewrite list_lookup_insert_ne in Hj by done. destruct (inside r) eqn:Hr; [|done].
        destruct Hne. by eapply Ho. }
    split; cbn.
    + intros _. exact Hnone.
    + rewrite unlock_held. done.
    + intros j k r r' Hj _ Hr. rewrite (Hnone j r Hj) in Hr. done.
    + intros j y Hj. by specialize (Hnone j _ Hj).
    + done.
Qed.

Lemma run_guarded x0 sched s : guarded x0 s → guarded x0 (run sched s).
Proof. revert s. induction sched as [|i sched IH]; intros s Hg; cbn; [done|]. by apply IH, step_guarded. Qed.

Lemma initial_guarded l x0 n : held l = false → guarded x0 (mk l x0 (replicate n Outside) 0).
Proof.
  intros Hl. assert (∀ i p, replicate n Outside !! i = Some p → p = Outside) as Hout.
  { intros i p Hi. by apply lookup_replicate in Hi as [-> _]. }
  split; cbn; try done.
  - intros _ i p Hi. by rewrite (Hout i p Hi).
  - congruence.
  - intros i j p q Hi _ Hp. by rewrite (Hout i p Hi) in Hp.
  - intros i x Hi. by apply Hout in Hi.
Qed.

(** C24. Guards make a section exclusive: from a free lock, whatever the interleaving of any number
    of threads, at most one is inside its guarded section, and no update is lost: the shared value
    is the initial one with the sections' function applied once per store. *)
Theorem guarded_updates_serialise l x0 n sched :
  held l = false →
  let s := run sched (mk l x0 (replicate n Outside) 0) in
  shared s = Nat.iter (stores s) f x0 ∧
  ∀ i j p q, threads s !! i = Some p → threads s !! j = Some q → inside p = true → inside q = true → i = j.
Proof.
  intros Hl. cbv zeta. destruct (run_guarded x0 sched _ (initial_guarded l x0 n Hl)) as [_ _ Ho _ Hv].
  split; [exact Hv | exact Ho].
Qed.

(** A thread that is inside leaves, and no other thread is affected. *)
Lemma leaves s i p : threads s !! i = Some p → inside p = true →
  ∃ k, (k <= 3)%nat ∧ held (lock (run (replicate k i) s)) = false ∧
       ∀ j, j ≠ i → threads (run (replicate k i) s) !! j = threads s !! j.
Proof.
  assert (∀ v, threads v !! i = Some Leaving →
    held (lock (step i v)) = false ∧ ∀ j, j ≠ i → threads (step i v) !! j = threads v !! j) as H1.
  { intros v Hv. unfold step. rewrite Hv. cbn. split; [apply unlock_held|]. intros j Hj. by apply list_lookup_insert_ne. }
  assert (∀ v x, threads v !! i = Some (Loaded x) →
    threads (step i v) !! i = Some Leaving ∧ ∀ j, j ≠ i → threads (step i v) !! j = threads v !! j) as H2.
  { intros v x Hv. unfold step. rewrite Hv. cbn. split; [by eapply list_lookup_insert_eq, lookup_lt_Some|].
    intros j Hj. by apply list_lookup_insert_ne. }
  assert (∀ v, threads v !! i = Some Inside →
    threads (step i v) !! i = Some (Loaded (shared v)) ∧ ∀ j, j ≠ i → threads (step i v) !! j = threads v !! j) as H3.
  { intros v Hv. unfold step. rewrite Hv. cbn. split; [by eapply list_lookup_insert_eq, lookup_lt_Some|].
    intros j Hj. by apply list_lookup_insert_ne. }
  intros Hi Hp. destruct p as [| | |x|]; try discriminate Hp; [exists 3%nat | exists 2%nat | exists 1%nat];
    (split; [lia|]); change (run (replicate _ i) s) with (Nat.iter 3 (step i) s)
      || change (run (replicate _ i) s) with (Nat.iter 2 (step i) s) || change (run (replicate _ i) s) with (step i s).
  - destruct (H3 s Hi) as [Ha Hsa]. destruct (H2 _ _ Ha) as [Hb Hsb]. destruct (H1 _ Hb) as [Hc Hsc].
    split; [exact Hc|]. intros j Hj. cbn. by rewrite Hsc, Hsb, Hsa.
  - destruct (H2 _ _ Hi) as [Hb Hsb]. destruct (H1 _ Hb) as [Hc Hsc].
    split; [exact Hc|]. intros j Hj. cbn. by rewrite Hsc, Hsb.
  - by apply H1.
Qed.

(** A thread that waits for the lock gets it: when whoever is inside has left, the next attempt
    succeeds, and a thread inside always leaves after at most three steps of its own. *)
Theorem guard_is_released x0 s i p :
  guarded x0 s → threads s !! i = Some p → inside p = true →
  ∃ k, (k <= 3)%nat ∧ held (lock (run (replicate k i) s)) = false ∧
    ∀ j, threads s !! j = Some Locking → threads (run (replicate k i ++ [j]) s) !! j = Some Inside.
Proof.
  intros Hg Hi Hp. destruct (leaves s i p Hi Hp) as (k & Hk & Hfree & Hsame). set (u := run (replicate k i) s) in *.
  exists k. split; [done|]. split; [done|]. intros j Hj.
  assert (j ≠ i) as Hne by (intros ->; rewrite Hi in Hj; injection Hj as ->; done).
  unfold run. rewrite foldl_app. fold (run (replicate k i) s). fold u. cbn. unfold flip, step. rewrite Hsame, Hj by done.
  destruct (try_lock_free _ Hfree) as [Hr _]. destruct (try_lock (lock u)) as [ok l]. cbn in Hr. subst ok. cbn.
  apply list_lookup_insert_eq. eapply lookup_lt_Some. by rewrite Hsame.
Qed.
End LockGuard.
Arguments pc : clear implicits.
Arguments state : clear implicits.
End LockGuard.

(** Two threads that increment: the second waits for the first. *)
Lemma guarded_updates_serialise_witness :
  let s := LockGuard.run Z.succ [0; 1; 0; 1; 0; 1; 0; 1; 0; 1; 1; 1]%nat
             (LockGuard.mk AtomLck.ctor 5 (replicate 2 LockGuard.Outside) 0) in
  LockGuard.shared s = 7 ∧ LockGuard.stores s = 2%nat.
Proof.
  intros s.
  destruct (LockGuard.guarded_updates_serialise Z.succ AtomLck.ctor 5 2 [0; 1; 0; 1; 0; 1; 0; 1; 0; 1; 1; 1]%nat)
    as [Hv _]; [reflexivity|].
  fold s in Hv. assert (LockGuard.stores s = 2%nat) as Hs by (vm_compute; reflexivity).
  rewrite Hv, Hs. split; [reflexivity | reflexivity].
Defined.

Definition demo_guard : LockGuard.state AtomLck.t Z :=
  LockGuard.run Z.succ [0; 1; 0; 1]%nat (LockGuard.mk AtomLck.ctor 5 (replicate 2 LockGuard.Outside) 0).

Lemma guard_is_released_witness :
  ∃ k, (k <= 3)%nat ∧ LockGuard.threads (LockGuard.run Z.succ (replicate k 0%nat ++ [1%nat]) demo_guard) !! 1%nat
       = Some LockGuard.Inside.
Proof.
  destruct (LockGuard.guard_is_released Z.succ 5 demo_guard 0 LockGuard.Inside) as (k & Hk & _ & Hj).
  - apply LockGuard.run_guarded, LockGuard.initial_guarded. reflexivity.
  - vm_compute. reflexivity.
  - reflexivity.
  - exists k. split; [exact Hk|]. apply Hj. vm_compute. reflexivity.
Defined.

(** ** [CountDownLatch] *)

Module CountDownLatch.

(** The counter, and how often the waiting threads were notified. *)
Record t := mk { count_ : Z; notified : nat }.

Definition ctor (count : Z) : outcome t := _ ← cassert (0 <? count); mret (mk count 0).

(** [wait]: the [unique_lock] it passes to the condition variable owns no mutex. *)
Definition wait (l : t) : outcome unit := if 0 <? count_ l then Fault LockNotOwned else mret tt.

Definition count_down (l : t) : outcome t :=
  n ← sint_checked 32 (count_ l - 1);
  mret (mk n (if 0 =? n then S (notified l) else notified l)).

Definition get_count (l : t) : Z := count_ l.

Fixpoint count_downs (k : nat) (l : t) : outcome t :=
  match k with O => mret l | S k => l ← count_down l; count_downs k l end.

Lemma count_downs_above k l : Z.of_nat k < count_ l < 2 ^ 31 →
  count_downs k l = Ok (mk (count_ l - Z.of_nat k) (notified l)).
Proof.
  revert l. induction k as [|k IH]; intros l Hk; cbn [count_downs].
  - rewrite Z.sub_0_r. by destruct l.
  - unfold count_down. rewrite sint_checked_range by (change (32 - 1) with 31; lia). cstep.
    decide_test (0 =? count_ l - 1). rewrite IH by (cbn; lia). cbn [count_ notified]. do 2 f_equal. lia.
Qed.

Lemma count_downs_snoc k l : count_downs (S k) l = count_downs k l ≫= count_down.
Proof.
  revert l. induction k as [|k IH]; intros l; cbn [count_downs] in *.
  - change (mret l ≫= count_down) with (count_down l). by destruct (count_down l).
  - destruct (count_down l) as [l'|]; [|done]. cstep. apply IH.
Qed.

(** A latch made for [n] events: the first [n - 1] calls of [count_down] notify nobody, the
    [n]-th notifies once and opens the latch, and only then may a thread call [wait]: before, the
    call waits on a lock that is not held. *)
Theorem latch_opens_at_zero n :
  0 < n < 2 ^ 31 →
  ∃ l, ctor n = Ok l ∧
    (∀ k, Z.of_nat k < n → ∃ l', count_downs k l = Ok l' ∧ get_count l' = n - Z.of_nat k ∧
                                 notified l' = 0%nat ∧ wait l' = Fault LockNotOwned) ∧
    ∃ l', count_downs (Z.to_nat n) l = Ok l' ∧ get_count l' = 0 ∧ notified l' = 1%nat ∧ wait l' = Ok tt.
Proof.
  intros Hn. unfold ctor. decide_test (0 <? n). cstep. eexists. split; [done|]. split.
  - intros k Hk. rewrite count_downs_above by (cbn; lia). eexists. split; [done|]. cbn.
    split; [done|]. split; [done|]. unfold wait. cbn [count_]. by decide_test (0 <? n - Z.of_nat k).
  - replace (Z.to_nat n) with (S (Z.to_nat (n - 1))) by lia.
    rewrite count_downs_snoc, count_downs_above by (cbn; lia). cstep. cbn [count_ notified].
    replace (n - Z.of_nat (Z.to_nat (n - 1))) with 1 by lia. by eexists.
Qed.

Lemma latch_opens_at_zero_witness :
  ∃ l l', ctor 2 = Ok l ∧ count_downs 2 l = Ok l' ∧ notified l' = 1%nat ∧ wait l' = Ok tt.
Proof.
  destruct (latch_opens_at_zero 2) as (l & Hl & _ & l' & Hc & _ & Hn & Hw); [lia|].
  exists l, l'. split; [exact Hl|]. split; [exact Hc|]. split; [exact Hn | exact Hw].
Defined.
End CountDownLatch.

(** ** [process::strerror] *)

Module Process.

(** ** Process and thread ids *)

(** [kProcessId] and the [kThreadId] of a thread. *)
Record ids := mkIds { kProcessId : Z; kThreadId : Z }.

(** The conversion of a [pid_t] or a [long] to [int]. *)
Definition to_int (x : Z) : Z := (x + 2 ^ 31) mod 2 ^ 32 - 2 ^ 31.

(** The initialisation of the variables from the results of [getpid] and [gettid]. *)
Definition init_ids (getpid gettid : Z) : ids := mkIds (to_int getpid) (to_int gettid).

Definition get_pid (v : ids) : Z := kProcessId v.

Definition get_tid (v : ids) : Z := kThreadId v.

(** A thread as the kernel sees it and with its copies of the variables; a process is forked. *)
Record thread := mkThread { pid : Z; tid : Z; vars : ids }.

Definition started (p t : Z) : thread := mkThread p t (init_ids p t).

Definition forked (p t : Z) (th : thread) : thread := mkThread p t (vars th).

(** The ids of a thread are right until its process forks; the child goes on with the ids of the
    thread that forked it, and so do its own children. *)
Theorem ids_not_renewed p t children : 0 <= p < 2 ^ 31 → 0 <= t < 2 ^ 31 →
  get_pid (vars (foldl (λ th c, forked c.1 c.2 th) (started p t) children)) = p ∧
  get_tid (vars (foldl (λ th c, forked c.1 c.2 th) (started p t) children)) = t.
Proof.
  intros Hp Ht. assert (∀ th, vars (foldl (λ th c, forked c.1 c.2 th) th children) = vars th) as Hv.
  { induction children as [|c cs IH]; intros th; cbn; [done|]. by rewrite IH. }
  rewrite Hv. unfold started, init_ids, get_pid, get_tid, to_int. cbn [vars kProcessId kThreadId].
  rewrite !Z.mod_small by lia. lia.
Qed.

(** ** [strerror] *)

(** [kErrno] and [kErrnoStrBuf], one of each per thread. *)
Record cache := mk { kErrno : Z; kErrnoStrBuf : list byte }.

Definition cache_init : cache := mk 0 [].

Section Strerror.
(** The C string in the array after [strerror_r] of an error, and before. *)
Variable strerror_r : Z → list byte → list byte.

(** The new cache and the text it returns. *)
Definition strerror (ec : Z) (c : cache) : cache * list byte :=
  let c := if negb (ec =? kErrno c) then mk ec (strerror_r ec (kErrnoStrBuf c)) else c in
  (c, kErrnoStrBuf c).

(** The cache after some calls. *)
Definition after (ecs : list Z) : cache := foldl (λ c ec, (strerror ec c).1) cache_init ecs.

(** With an implementation of [strerror_r] that stores the text in the array, as POSIX says, the
    cache is transparent: every call returns the text of its own error, whatever was asked before.
    Only error 0 is an exception, as long as no other has been asked for: its text is empty. *)
Theorem strerror_cache_transparent (text : Z → list byte) ecs ec :
  (∀ e old, strerror_r e old = text e) →
  (strerror ec (after ecs)).2 = if bool_decide (ec = 0 ∧ Forall (λ e, e = 0) ecs) then [] else text ec.
Proof.
  intros Ht.
  assert (∀ es, after es = if bool_decide (Forall (λ e, e = 0) es) then cache_init
                           else mk (default 0 (last es)) (text (default 0 (last es)))) as Hafter.
  { intros es. induction es as [|e es IH] using rev_ind; [done|]. unfold after in *. rewrite foldl_app, IH. cbn.
    rewrite last_snoc. cbn. unfold strerror. destruct (bool_decide_reflect (Forall (λ e, e = 0) es)) as [Hz|Hz]; cbn.
    - destruct (Z.eqb_spec e 0) as [->|Hne]; cbn.
      + rewrite bool_decide_true; [done|]. apply Forall_app. split; [done | by apply Forall_singleton].
      + rewrite bool_decide_false; [by rewrite Ht|]. intros Hx. apply Forall_app in Hx as [_ Hx]. by inversion_clear Hx.
    - rewrite bool_decide_false; [|by intros [Hx _]%Forall_app].
      destruct (Z.eqb_spec e (default 0 (last es))) as [->|Hne]; cbn; [done | by rewrite Ht]. }
  rewrite Hafter. unfold strerror. destruct (bool_decide_reflect (Forall (λ e, e = 0) ecs)) as [Hz|Hz]; cbn.
  - destruct (Z.eqb_spec ec 0) as [->|Hne]; cbn.
    + by rewrite bool_decide_true.
    + rewrite bool_decide_false by tauto. by rewrite Ht.
  - rewrite bool_decide_false by tauto.
    destruct (Z.eqb_spec ec (default 0 (last ecs))) as [->|Hne]; cbn; [done | by rewrite Ht].
Qed.

(** With the GNU function of that name, which the C++ compiler of GNU selects and which returns
    the text of a known error without storing it in the array, every call returns an empty text. *)
Theorem strerror_gnu_returns_nothing ecs ec :
  (∀ e old, strerror_r e old = old) → (strerror ec (after ecs)).2 = [].
Proof.
  intros Ht. assert (kErrnoStrBuf (after ecs) = []) as Ha.
  { induction ecs as [|e es IH] using rev_ind; [done|]. unfold after in *. rewrite foldl_app. cbn. unfold strerror.
    destruct (negb _); cbn; rewrite ?Ht; done. }
  unfold strerror. destruct (negb _); cbn; rewrite ?Ht; done.
Qed.
End Strerror.

Lemma ids_not_renewed_witness :
  let child := forked 43 43 (started 42 42) in pid child = 43 ∧ get_pid (vars child) = 42 ∧ get_tid (vars child) = 42.
Proof. split; [reflexivity|]. apply (ids_not_renewed 42 42 [(43, 43)]); lia. Defined.

Lemma strerror_cache_transparent_witness :
  let text e := [if e =? 2 then x41 else x42] in
  (strerror (λ e _, text e) 2 (after (λ e _, text e) [9; 2; 9])).2 = [x41].
Proof. intros text. rewrite (strerror_cache_transparent (λ e _, text e) text); [reflexivity | reflexivity]. Defined.

Lemma strerror_gnu_returns_nothing_witness : (strerror (λ _ old, old) 2 (after (λ _ old, old) [9])).2 = [].
Proof. apply (strerror_gnu_returns_nothing (λ _ old, old) [9] 2). reflexivity. Defined.
End Process.
