(* ===== verification/Logging.v ===== *)
(** * Log statements (clia/log.h)

    The macros [CLIA_LOG], [CLIA_LARGE_LOG] and their [FMT] and level variants: a guard on the
    logger and its level, an event, and the line the event's destructor hands to the logger.
    [trait::Logger] is a class here as it is there; the synchronous logger and the
    asynchronous one, as a thread that logs sees it, are its instances.

    The proofs show what a sequence of log statements delivers to the logger they go to. *)

From S2P Require Import Prelude OStream Log AsyncLog LogEvent.

(** ** [trait::Logger] *)

(** [log] promises to deliver a message that is not below the logger's level and that the logger
    admits. *)
Class Logger (L : Type) := {
  level : L → Level;
  log : Level → option (list byte) → L → outcome L;
  logger_wf : L → Prop;
  admits : list byte → Prop;
  delivered : L → list byte;
  log_delivers lv m l :
    logger_wf l → level_lt lv (level l) = false → m ≠ [] → admits m →
    ∃ l', log lv (Some m) l = Ok l' ∧ logger_wf l' ∧ level l' = level l ∧ delivered l' = delivered l ++ m
}.

#[global, refine] Instance sync_logger {A} `{Appender A} : Logger (SyncLogger.t A) := {|
  level := SyncLogger.level_;
  log lv m l := Ok (SyncLogger.log lv m l);
  logger_wf l := True;
  admits m := zlen m <= kMaxObject;
  delivered l := view (SyncLogger.appender_ l)
|}.
Proof.
  intros lv m l _ Hl Hm Ha. eexists. split; [done|]. split; [done|]. cbn. rewrite Hl.
  destruct (Z.eqb_spec (zlen m) 0) as [Hz|]; [by apply zlen_nil_inv in Hz|]. cbn. split; [done|].
  by rewrite view_flush, view_append.
Defined.

Section Async.
Context {A : Type} `{Appender A} (kBufferSize : Z) (notice : Z → list byte).
Hypothesis size_ok : 0 < kBufferSize < 2 ^ 31.

(** [log] of one thread: the guard, then the critical section. *)
Definition async_log (lv : Level) (m : option (list byte)) (s : AsyncLogger.state A) : outcome (AsyncLogger.state A) :=
  if AsyncLogger.log_guard kBufferSize lv m s then AsyncLogger.log_locked kBufferSize (default [] m) s else mret s.

#[refine] Instance async_logger : Logger (AsyncLogger.state A) := {|
  level := AsyncLogger.level_;
  log := async_log;
  logger_wf s := AsyncLogger.running_ s = true ∧ ∃ a0, AsyncLogger.inv kBufferSize a0 s;
  admits m := zlen m < kBufferSize;
  delivered := AsyncLogger.logged
|}.
Proof.
  intros lv m s [Hr [a0 Hi]] Hl Hm Ha. unfold async_log, AsyncLogger.log_guard. rewrite Hl, Hr.
  assert (zlen m ≠ 0) as Hz by (by intros ?%zlen_nil_inv).
  decide_test (zlen m =? 0). decide_test (kBufferSize <? zlen m). cbn [orb negb default].
  destruct (AsyncLogger.log_locked_ok kBufferSize size_ok m s a0 Hi) as (s' & Hs & Hi' & _ & Hlog & _ & Hrun);
    [pose proof (zlen_nonneg m); split; [lia | exact Ha]|].
  exists s'. split; [done|]. split; [split; [congruence | by exists a0]|]. split; [|done].
  unfold AsyncLogger.log_locked in Hs. split_tests; outcome_inv; by subst.
Defined.
End Async.

(** ** Statements *)

Module Logging.
Section Logging.
Context {L : Type} `{Logger L}.
Variable localtime_r : Z → Timestamp.tm.

(** The loggers, the registry of pointers to them, and the thread's time buffer. *)
Record world := mkWorld { loggers : gmap nat L; manager : LoggerManger.t nat; time_cache : Event.cache }.

(** What a statement is expanded with: the time, place, process and thread, and what is inserted.
    [large] tells [LargeEvent] from [Event]. *)
Record statement := mkStatement {
  large : bool;
  st_level : Level;
  now : Z;
  file : list byte;
  line : Z;
  func : list byte;
  pid : Z;
  tid : Z;
  items : list FixedOStream.item
}.

(** [CLIA_LOG(LOGGER, LEVEL) << ...] and its three siblings. *)
Definition clia_log (logger : option nat) (st : statement) (w : world) : outcome world :=
  match logger with
  | None => mret w
  | Some p =>
      match loggers w !! p with
      | None => Fault OutOfBounds
      | Some l =>
          if level_num (level l) <=? level_num (st_level st) then
            '(c, text) ← (if large st
                          then Event.large_log_line localtime_r (now st) (time_cache w) (st_level st) (file st) (line st)
                                 (func st) (pid st) (tid st) (items st)
                          else Event.log_line localtime_r (now st) (time_cache w) (st_level st) (file st) (line st)
                                 (func st) (pid st) (tid st) (items st));
            l ← log (st_level st) (Some text) l;
            mret (mkWorld (<[p := l]> (loggers w)) (manager w) c)
          else mret w
      end
  end.

(** [CLIA_LOG_TRACE] to [CLIA_LARGE_FMT_LOG_FATAL]: the default logger. *)
Definition clia_log_level (st : statement) (w : world) : outcome world :=
  clia_log (LoggerManger.default_logger (manager w)) st w.

Fixpoint statements (sts : list statement) (w : world) : outcome world :=
  match sts with [] => mret w | st :: sts => w ← clia_log_level st w; statements sts w end.

Hypothesis localtime_ok : ∀ sec, 0 <= sec → Timestamp.tm_ok (localtime_r sec).

Definition text_of (st : statement) : list byte :=
  Event.line_text localtime_r (now st) (st_level st) (file st) (line st) (func st) (pid st) (tid st) (items st).

(** Sensible times and numbers, and a line that fits its stream and its logger. *)
Definition statement_ok (st : statement) : Prop :=
  1000000 <= now st ∧ 0 <= line st < 2 ^ 31 ∧ 0 <= pid st < 2 ^ 31 ∧ 0 <= tid st < 2 ^ 31 ∧
  Forall Event.plain (items st) ∧ zlen (text_of st) + 32 <= Event.kStreamSize ∧ admits (text_of st).

Definition enabled (l : L) (st : statement) : bool := level_num (level l) <=? level_num (st_level st).

Lemma clia_log_ok p l st w : loggers w !! p = Some l → logger_wf l → Event.cache_ok localtime_r (time_cache w) → statement_ok st →
  ∃ l' c, clia_log (Some p) st w = Ok (mkWorld (<[p := l']> (loggers w)) (manager w) c) ∧
    Event.cache_ok localtime_r c ∧ logger_wf l' ∧ level l' = level l ∧
    delivered l' = delivered l ++ (if enabled l st then text_of st else []).
Proof.
  intros Hp Hwf Hc (Hn & Hli & Hpi & Hti & Hits & Hz & Hadm). unfold clia_log, enabled. rewrite Hp.
  destruct (Z.leb_spec (level_num (level l)) (level_num (st_level st))) as [Hle|Hgt]; cycle 1.
  { exists l, (time_cache w). rewrite insert_id by done. rewrite app_nil_r. by destruct w. }
  destruct (Event.log_line_ok localtime_r localtime_ok (now st) (time_cache w) (st_level st) (file st) (line st) (func st)
              (pid st) (tid st) (items st)) as (c' & Hc' & Hsm & Hla); [done..|].
  rewrite Hsm, Hla. destruct (log_delivers (st_level st) (text_of st) l) as (l' & Hl' & Hwf' & Hlv & Hd); [done | | | done |].
  - unfold level_lt. by apply Z.ltb_ge.
  - unfold text_of, Event.line_text. intros Hnil. apply (f_equal length) in Hnil. rewrite !length_app in Hnil. cbn in Hnil. lia.
  - exists l', c'. unfold text_of in Hl'. destruct (large st); cstep; rewrite Hl'; done.
Qed.

Lemma statements_ok sts : ∀ p l w, LoggerManger.default_logger_ (manager w) = Some p → loggers w !! p = Some l → logger_wf l →
  Event.cache_ok localtime_r (time_cache w) → Forall statement_ok sts →
  ∃ w' l', statements sts w = Ok w' ∧ loggers w' !! p = Some l' ∧ (∀ q, q ≠ p → loggers w' !! q = loggers w !! q) ∧
    delivered l' = delivered l ++ concat (text_of <$> filter (λ st, enabled l st = true) sts).
Proof.
  induction sts as [|st sts IH]; intros p l w Hm Hp Hwf Hc Hall; cbn [statements].
  { exists w, l. rewrite filter_nil. cbn. by rewrite app_nil_r. }
  apply Forall_cons in Hall as [Hst Hall]. unfold clia_log_level, LoggerManger.default_logger. rewrite Hm.
  destruct (clia_log_ok p l st w Hp Hwf Hc Hst) as (l1 & c & -> & Hc1 & Hwf1 & Hlv & Hd). cstep.
  destruct (IH p l1 (mkWorld (<[p := l1]> (loggers w)) (manager w) c)) as (w' & l' & Hr & Hp' & Ho & Hd');
    [done | apply lookup_insert_eq | done | done | done |].
  exists w', l'. split; [done|]. split; [done|]. split.
  - intros q Hq. rewrite (Ho q Hq). cbn. by apply lookup_insert_ne.
  - rewrite Hd', Hd, <- (assoc_L (++)). f_equal. rewrite filter_cons. unfold enabled in *. rewrite Hlv.
    destruct (level_num (level l) <=? level_num (st_level st)).
    + rewrite decide_True by done. done.
    + by rewrite decide_False by done.
Qed.

End Logging.
Arguments world : clear implicits.

(** ** Witness *)

Definition demo_statement (lv : Level) (is_large : bool) (n : Z) : statement :=
  mkStatement is_large lv 1000042 (chars "src/net/a.cc") 7 (chars "run") 12 34
    [FixedOStream.CStr (Some (chars "fd = ")); FixedOStream.Int n].

Definition demo_sync : SyncLogger.t stdout_appender := SyncLogger.mk kInfo (mkStdout [] []).

End Logging.
